(* ===== verification/_CoqProject ===== *)
-Q . S2P
Prelude.v
Consts.v
Packet.v
RingQueue.v
CFloat.v
Machine.v
Threads.v
Samples.v
SockQueue.v
Control.v
Congestion.v
Timer.v
Handshake.v
Teardown.v
Transfer.v
TimerThread.v
Kernel.v
Api.v
Host.v
Sender.v
System.v
Receiver.v
Server.v
Network.v
App.v
Chan.v
ChanLogic.v
ChanProgs.v
ChanRefine.v
ChanTheorems.v
Rendezvous.v
RendezvousTheorems.v
RbTree.v
RbFun.v
RbLogic.v
RbInsert.v
RbErase.v
RbRemove.v
RbAdequacy.v
RbWalk.v
RbTheorems.v
Pool.v
PoolLogic.v
PoolState.v
PoolProofs.v
PoolRuns.v
PoolTheorems.v
Aco.v
AcoProofs.v
AcoInv.v
AcoSteps.v
AcoAlloc.v
AcoDemo.v
AcoTheorems.v
