(* ===== verification/Prelude.v ===== *)
(** * TrivialTCP: a verification of the user-space TCP stack

    TrivialTCP runs a TCP-like protocol between two hosts, [server] (10.0.0.3)
    and [client] (10.0.0.2), on top of one UDP socket per host.  Three kinds of
    threads share the sockets: the application, which calls src/api.c; the
    receive thread, which takes datagrams from the UDP socket and dispatches
    them (src/kernel.c); and, per connection, the send thread (src/tju_tcp.c)
    and the timer threads (src/timer.c).

    ** The files

    - Prelude.v: record update, machine integers, little-endian bytes, blocks of
      memory ([mem_read], [mem_write]), the tactics of the library.
    - Consts.v: include/consts.h.
    - Packet.v: src/tju_packet.c and the checksum of src/tju_tcp.c.  A packet is a
      header record and an optional payload; on the wire it is a list of bytes.
    - RingQueue.v: src/queue.c, and the bounded FIFO it implements.
    - CFloat.v: C's [float] and [double], on the Standard Library's SpecFloat.
    - Machine.v: the data structures of include/tju_tcp.h, timer.h, sockqueue.h
      and tcp_manager.h, the heap they live in, threads, mutexes, and the monad
      in which every stateful function is written; the tactic [run] executes a
      function symbolically on a partly known heap.
    - Samples.v: concrete sockets and heaps for the instances of the theorems.
    - SockQueue.v: src/sockqueue.c, a linked list in the heap.
    - Control.v: [sendToLayer3] and [cal_hash] of src/kernel.c, and the functions
      that send a segment without payload.
    - Congestion.v: [handle_success_ack] and [handle_loss_ack].
    - Timer.v, TimerThread.v: src/timer.c and src/utils.c.
    - Handshake.v: [tcp_rcv_state_server] and [tcp_rcv_state_client].
    - Teardown.v: [tcp_state_close] and [tcp_close].
    - Transfer.v: [tju_handle_packet], the send thread, retransmission.
    - Kernel.v: src/tcp_manager.c, [onTCPPocket] and the receive thread.
    - Api.v: src/api.c.
    - Threads.v: a logic for threads that switch at waits and preemption points, by
      rely and guarantee; the rely may depend on the world, which is how a
      scheduler's choices enter.
    - Host.v: a scheduler for the threads of one host, from the start of its
      program, and the rule by which an invariant holds in all states it reaches.
    - Sender.v, System.v: the invariant of the client's connection and that every
      function that runs on it keeps it; src/app/client.c under the scheduler.
    - Receiver.v, Server.v: the same for the server, its listening socket and the
      connection it accepts; src/app/server.c under the scheduler.
    - Network.v: both hosts and the network between them.
    - App.v: the loops of the two applications, and the transfer of a file.
    - Chan.v: src/chan.c as interaction trees and a scheduler for the threads that
      use a channel.
    - ChanLogic.v, ChanProgs.v, ChanRefine.v: the abstract channel, a program logic
      for its threads, the functions in that logic, and the simulation.
    - ChanTheorems.v: what a buffered channel promises, and sample executions.
    - Rendezvous.v, RendezvousTheorems.v: the unbuffered channel, followed by the
      program points of its functions, and that it is synchronous communication.
    - RbTree.v: src/rb_tree.c pointer by pointer, on a heap of nodes and roots.
    - RbFun.v: the same algorithms as functions on trees with zippers, their
      invariants, and what it means that a heap holds a tree.
    - RbLogic.v, RbInsert.v, RbErase.v, RbRemove.v: a separation logic for the
      pointer code (on Iris) and the proofs that it computes those functions.
    - RbAdequacy.v, RbWalk.v, RbTheorems.v: from the logic to plain heaps, the
      walks through a tree, and what src/rb_tree.c promises.
    - Pool.v: src/thpool.c as interaction trees, and the threads of a process.
    - PoolLogic.v, PoolState.v, PoolProofs.v: a concurrent separation logic for
      those threads (on Iris), the bookkeeping of the jobs, and the specifications
      of the functions of the pool.
    - PoolRuns.v, PoolTheorems.v: single schedules, and what holds in all of them.
    - Aco.v: the coroutines of src/libaco and the programs that call them, on blocks
      of memory.
    - AcoProofs.v, AcoInv.v, AcoSteps.v, AcoAlloc.v: what each function does, the
      invariant and the image of a coroutine, and that every call keeps them.
    - AcoDemo.v, AcoTheorems.v: a sample system, and what src/libaco promises.

    ** The model

    A C object is a cell of a heap: one finite map per type, indexed by
    addresses that one counter hands out, so that two pointers to one socket
    alias ([tcp_accept] copies a socket whose windows stay shared).  A byte block
    is a list of integers in [0, 256); every access is checked against its
    bounds.  Integers are in [Z] with the conversions of the C types written out
    ([u8], [u16], [u32], [i32]); a signed addition that leaves [int] is undefined
    behaviour ([int_result]).

    A function is a value of [M A]: from a world it returns ([Done]), waits
    ([Wait]: a mutex that is taken, a join, a sleep, a busy loop), executes
    undefined behaviour ([Undef], with its reason), calls [exit] ([Exit]), or, in
    the one loop that is not structural on its data, runs out of fuel
    ([OutOfFuel]).  The continuation of a [Wait] takes any world in which its guard
    holds: the other threads may have changed everything else.  Threads are switched
    where one waits, and at each [preempt], a wait for nothing: between the statements
    of [tcp_connect] from the entry of the socket in the table on, and of [tcp_accept]
    behind its wait, where the code publishes a socket before it has set its sequence
    numbers.  Elsewhere a thread runs on from one wait to the next; finer
    interleavings, which unlocked accesses to shared fields allow, are not modelled.
    Two races at these places break the stream.  Each has a run that shows it
    ([early_timer_sends] in System.v, [early_segment_corrupts] in Network.v), and the
    theorems about whole programs are about schedulers that avoid them ([client_sched],
    [server_sched]).

    What the code does not determine is the class [Env] of Machine.v: the name
    of the host, and the content of the memory that [malloc] returns, about
    which nothing is assumed.  [malloc]
    and [pthread_create] do not fail, and addresses are not used again.  Output
    on the terminal is left out.  The UDP socket is the list [w_sent] of the
    datagrams handed to it and the list of datagrams the receive loop is given.

    The channels, the red-black tree, the thread pool and libaco, on which the stack does not
    depend, have heaps and monads of their own (Chan.v, RbTree.v, Pool.v, Aco.v); the
    threads of a channel and of a pool interleave at every access to a field, and in
    Pool.v [malloc] and [pthread_create] can fail, freed memory is used again, and a
    worker takes a pending SIGUSR1 at any time.
    libaco has a state of its own too (Aco.v): a pointer is a block and an offset, an
    access out of a block, to a freed one or a write to a guard page is undefined, and
    what the allocator and the system answer is the class [AcoEnv].  A program is any
    sequence of calls; between them the code of a coroutine changes the registers and
    its own stack ([Act_run]).  [acosw] of acosw.S, in assembly, is the exchange of
    abstract registers.
    The word of a node of the tree, its parent with the colour in the lowest bit, is
    kept as a word, and the bit operations of the header are the ones of the model.

    ** Fuel

    [timeout_fuel] is [TCP_RTO_MAX + 1]: the polling loop sleeps a second per
    iteration and a timeout is at most [TCP_RTO_MAX] seconds;
    [tcp_check_timeout_ends] shows that it is enough.  The walks along a
    connection queue have [node_fuel], one more than the nodes in the heap, and
    the specifications of the queue operations show that they return.  The loops of
    src/rb_tree.c have their fuel as an argument; 2 log2(n+1) + 1 iterations are
    enough for a tree of n nodes.  The doubling of a save stack has [double_fuel], one
    more than the bits of a size: after 64 doublings the size is 0 and an assertion
    fails; [aco_calls_defined] shows that the fuel never runs out.

    ** What is shown

    - Data transfer: the receiver refines an abstract go-back-N receiver, and
      delivers a prefix of the stream whatever the network loses, duplicates or
      reorders ([data_segment_refines], [received_is_prefix]); what an iteration
      of the send thread and a retransmission send, and where they lose data.
    - The two programs: from their start, in every interleaving of the threads of
      both hosts that the schedulers above allow, and for every behaviour of the
      network, what the server reads is a prefix of a stream of bytes the client's
      [tcp_send] accepted ([transfer_correct]), and every step is simulated by an
      abstract stream ([network_refines_stream]).  Each host by itself: every datagram
      of the client carries a piece of that stream, whatever arrives
      ([stream_integrity]); the server reads a prefix of any stream whose pieces arrive
      ([server_reads_prefix]), and with the loops of the applications what becomes of
      the lines of the file ([file_transfer]).
    - Channels: a buffered channel is a bounded FIFO, atomic if nobody closes it;
      otherwise a send is two steps ([chan_refines]), and what a close does between
      them ([close_races_with_send]); no lost wakeups and progress
      ([chan_no_lost_wakeup], [chan_pipeline_completes]).  Without a close, and unless a
      sender whose value has not been taken wakes up spuriously, an unbuffered channel
      is synchronous communication and adds no deadlock
      ([unbuffered_refines_rendezvous], [unbuffered_no_lost_wakeup]); such a wakeup
      loses a value and doubles another ([spurious_wakeup_loses_value]).
    - The red-black tree: insertion and removal compute the functional ones, keep
      the balance and change exactly one node ([rb_insert_equiv],
      [rb_erase_equiv]); iteration and augmentation ([rb_walk_inorder],
      [rb_augment_path_spec]).
    - The thread pool: every accepted job is executed once before [thpool_wait]
      returns, in every interleaving, whenever the workers are paused and resumed
      ([thpool_executes_once]); what goes wrong when the pool is destroyed, when two
      threads wait, when a pool is resumed too early and when a worker cannot be made
      ([thpool_destroy_use_after_free], [thpool_wait_second_waiter],
      [thpool_resume_lost], [thpool_init_missing_worker]).
    - Coroutines: one that yields is resumed with the registers and the bytes of its
      stack as it left them, whatever other coroutines did to the stack they share
      ([resume_restores]); no call of libaco is undefined behaviour, and a call aborts
      exactly when one of the requests for memory it makes is refused, or a main or an
      ended coroutine is resumed ([aco_calls_defined]); the layout of a stack
      ([aco_share_stack_new2_layout]) and the copying macro
      ([optimized_memcpy_is_memcpy]).
    - Handshake and closing: what every packet does in every state, for both
      sides.
    - Timer: starting, stopping, termination of the timer thread, and what the
      RTT estimator computes in binary32.
    - Congestion control: an invariant of all reachable states and the exact
      effect of ACKs and timeouts.
    - Packets: serialization and parsing are inverse; what the checksum detects
      and what it cannot.
    - Dispatch: which handler gets which packet; the receive loop.
    - Queues: the circular buffer refines a bounded FIFO; the connection queue
      represents a list.
    - The socket interface: [tcp_socket], [tcp_accept], [tcp_send], [tcp_recv].

    Where the code does something it does not mean to do, the theorem states what
    it does.

    ** Not modelled

    The creation of the UDP sockets in [startSimulation]; src/trivial_epoll.c,
    which is empty, and include/co_routine.h, a header of another project that no
    function of the stack uses; of libaco the assembly, the i386 and valgrind variants
    and the test of the compiler; of the applications the printing, the pauses and the
    unused [echo]; the tests.  In Host.v, System.v, Server.v and Network.v an
    application makes any sequence of calls; App.v has the calls of the two programs. *)

From Stdlib Require Export ZArith Lia.
From stdpp Require Export base gmap list strings numbers.

Declare Scope c_scope.
Delimit Scope c_scope with C.
#[global] Open Scope Z_scope.

(** ** Record update

    [r⟨ f := v ⟩] is [r] with field [f] replaced.  A record type opts in by
    giving its eta-expansion as an instance of [Eta]; the setter of a field is
    then computed from it by abstracting the field. *)

Class Eta (R : Type) := eta_expand : R → R.
Class Setter {R T : Type} (proj : R → T) := set_field : (T → T) → R → R.
Arguments set_field {_ _} _ {_} _ _ /.

Ltac solve_setter :=
  match goal with
  | |- @Setter ?R ?T ?proj =>
      let e := constr:(fun r : R => ltac:(
         let t := eval cbv [eta_expand] in (@eta_expand R _ r) in
         let t := eval hnf in t in
         let p := eval pattern (proj r) in t in
         match p with ?f _ => exact f end)) in
      exact (fun (f : T → T) (r : R) => e r (f (proj r)))
  end.
#[export] Hint Extern 1 (Setter _) => solve_setter : typeclass_instances.

Notation "r ⟨ f := v ⟩" := (set_field f (fun _ => v) r)
  (at level 1, left associativity, f at level 99, v at level 200,
   format "r ⟨ f  :=  v ⟩").

(** ** Machine integers

    Every C integer is a [Z]; the conversions below are the ones the compiler
    inserts when a value is stored in, or passed as, a narrower type. *)

Definition u8 (z : Z) : Z := z mod 2 ^ 8.
Definition u16 (z : Z) : Z := z mod 2 ^ 16.
Definition u32 (z : Z) : Z := z mod 2 ^ 32.

(** Conversion to [int]: reduction modulo 2^32 into the signed range (the
    implementation-defined conversion of gcc). *)
Definition i32 (z : Z) : Z := (z + 2 ^ 31) mod 2 ^ 32 - 2 ^ 31.

(** [char] is signed on the target: the value of a byte read through [char*]. *)
Definition schar (b : Z) : Z := if b <? 128 then b else b - 256.

Definition is_byte (b : Z) : Prop := 0 <= b < 256.
Definition is_u8 (z : Z) : Prop := 0 <= z < 2 ^ 8.
Definition is_u16 (z : Z) : Prop := 0 <= z < 2 ^ 16.
Definition is_u32 (z : Z) : Prop := 0 <= z < 2 ^ 32.
Definition is_int (z : Z) : Prop := - 2 ^ 31 <= z < 2 ^ 31.

(** Signed arithmetic is undefined when the result leaves the [int] range. *)
Definition int_result (z : Z) : option Z :=
  if (- 2 ^ 31 <=? z) && (z <? 2 ^ 31) then Some z else None.

#[export] Instance is_byte_dec b : Decision (is_byte b).
Proof. unfold is_byte. apply _. Defined.
#[export] Instance is_u8_dec b : Decision (is_u8 b).
Proof. unfold is_u8. apply _. Defined.
#[export] Instance is_u16_dec b : Decision (is_u16 b).
Proof. unfold is_u16. apply _. Defined.
#[export] Instance is_u32_dec b : Decision (is_u32 b).
Proof. unfold is_u32. apply _. Defined.
#[export] Instance is_int_dec b : Decision (is_int b).
Proof. unfold is_int. apply _. Defined.

(** ** Byte order

    The target is little-endian: an integer of [n] bytes is stored least
    significant byte first, and [htons]/[htonl] swap the bytes. *)

Fixpoint le_bytes (n : nat) (x : Z) : list Z :=
  match n with
  | O => []
  | S n' => x mod 256 :: le_bytes n' (x / 256)
  end.

Fixpoint le_value (bs : list Z) : Z :=
  match bs with
  | [] => 0
  | b :: bs' => b + 256 * le_value bs'
  end.

Definition htons (x : Z) : Z :=
  Z.lor (Z.shiftl (Z.land x 255) 8) (Z.land (Z.shiftr x 8) 255).
Definition ntohs (x : Z) : Z := htons x.

Definition htonl (x : Z) : Z :=
  Z.lor (Z.shiftl (Z.land x 255) 24)
   (Z.lor (Z.shiftl (Z.land (Z.shiftr x 8) 255) 16)
    (Z.lor (Z.shiftl (Z.land (Z.shiftr x 16) 255) 8)
           (Z.land (Z.shiftr x 24) 255))).
Definition ntohl (x : Z) : Z := htonl x.

(** ** Memory blocks

    A malloc'd block of bytes is the list of its bytes.  An access outside the
    block is undefined behaviour, here [None]. *)

Definition blen {A} (l : list A) : Z := Z.of_nat (length l).

Definition mem_read {A} (buf : list A) (off n : Z) : option (list A) :=
  if (0 <=? off) && (0 <=? n) && (off + n <=? blen buf)
  then Some (take (Z.to_nat n) (drop (Z.to_nat off) buf))
  else None.

Definition mem_write {A} (buf : list A) (off : Z) (bs : list A) : option (list A) :=
  if (0 <=? off) && (off + blen bs <=? blen buf)
  then Some (take (Z.to_nat off) buf ++ bs ++ drop (Z.to_nat off + length bs) buf)
  else None.

(** ** Tactics *)

(** Turns the boolean tests of the code into arithmetic facts. *)
Ltac zbool :=
  repeat match goal with
  | H : _ && _ = true |- _ => apply andb_true_iff in H as [? ?]
  | H : _ && _ = false |- _ => apply andb_false_iff in H
  | H : _ || _ = false |- _ => apply orb_false_iff in H as [? ?]
  | H : _ || _ = true |- _ => apply orb_true_iff in H
  | H : (_ <=? _) = true |- _ => apply Z.leb_le in H
  | H : (_ <=? _) = false |- _ => apply Z.leb_gt in H
  | H : (_ <? _) = true |- _ => apply Z.ltb_lt in H
  | H : (_ <? _) = false |- _ => apply Z.ltb_ge in H
  | H : (_ =? _) = true |- _ => apply Z.eqb_eq in H
  | H : (_ =? _) = false |- _ => apply Z.eqb_neq in H
  | H : (_ >? _) = _ |- _ => rewrite Z.gtb_ltb in H
  | H : (_ >=? _) = _ |- _ => rewrite Z.geb_leb in H
  | H : negb _ = true |- _ => apply negb_true_iff in H
  | H : negb _ = false |- _ => apply negb_false_iff in H
  end.

(** Decides the boolean comparison [b] of the goal by [lia]. *)
Ltac zdecide_true b :=
  replace b with true by (symmetry; rewrite ?andb_true_iff, ?Z.gtb_ltb, ?Z.geb_leb,
    ?Z.leb_le, ?Z.ltb_lt, ?Z.eqb_eq; lia).
Ltac zdecide_false b :=
  replace b with false by (symmetry; rewrite ?Z.gtb_ltb, ?Z.geb_leb,
    ?Z.leb_gt, ?Z.ltb_ge, ?Z.eqb_neq; lia).

(** Resolves, by [lia], every conditional of the goal on an integer test. *)
Ltac zif :=
  repeat match goal with
  | |- context [if ?b then _ else _] =>
      first [ progress (zdecide_true b) | progress (zdecide_false b) ]
  end.

(** [option] binds that must succeed. *)
Ltac opt_inv :=
  repeat match goal with
  | H : mbind _ ?o = Some _ |- _ => apply bind_Some in H as (? & ? & H)
  | H : Some _ = Some _ |- _ => injection H as H; subst
  | H : Some _ = None |- _ => discriminate H
  | H : None = Some _ |- _ => discriminate H
  end.

(** ** Lemmas on integers *)

Lemma pow2_8 : 2 ^ 8 = 256. Proof. reflexivity. Qed.
Lemma pow2_16 : 2 ^ 16 = 65536. Proof. reflexivity. Qed.
Lemma pow2_31 : 2 ^ 31 = 2147483648. Proof. reflexivity. Qed.
Lemma pow2_32 : 2 ^ 32 = 4294967296. Proof. reflexivity. Qed.

(** Exposes every width of the context and the goal as a literal. *)
Ltac widths :=
  unfold is_byte, is_u8, is_u16, is_u32, is_int, u8, u16, u32 in *;
  rewrite ?pow2_8, ?pow2_16, ?pow2_31, ?pow2_32 in *.

(** Arithmetic with [mod]/[div] by literals. *)
Ltac modlia := widths; Z.div_mod_to_equations; lia.

Lemma u8_id z : is_u8 z → u8 z = z.
Proof. intros; unfold u8; apply Z.mod_small; exact H. Qed.
Lemma u16_id z : is_u16 z → u16 z = z.
Proof. intros; unfold u16; apply Z.mod_small; exact H. Qed.
Lemma u32_id z : is_u32 z → u32 z = z.
Proof. intros; unfold u32; apply Z.mod_small; exact H. Qed.
Lemma i32_id z : is_int z → i32 z = z.
Proof. unfold i32, is_int; intros; rewrite Z.mod_small; lia. Qed.
Lemma u8_range z : is_u8 (u8 z).
Proof. apply Z.mod_pos_bound; lia. Qed.
Lemma u16_range z : is_u16 (u16 z).
Proof. apply Z.mod_pos_bound; lia. Qed.
Lemma u32_range z : is_u32 (u32 z).
Proof. apply Z.mod_pos_bound; lia. Qed.
Lemma i32_range z : is_int (i32 z).
Proof.
  unfold i32, is_int. pose proof (Z.mod_pos_bound (z + 2 ^ 31) (2 ^ 32)); lia.
Qed.

Lemma int_result_ok z : is_int z → int_result z = Some z.
Proof. unfold int_result, is_int; intros; zif; done. Qed.
Lemma int_result_Some z v : int_result z = Some v → v = z ∧ is_int z.
Proof.
  unfold int_result, is_int. destruct (_ && _) eqn:E; intros H; inversion H; subst.
  zbool; lia.
Qed.

(** ** Lemmas on byte order *)

Lemma land_255 x : Z.land x 255 = x mod 256.
Proof. change 255 with (Z.ones 8). by rewrite Z.land_ones. Qed.

Lemma lor_shiftl_add a b k :
  0 <= k → 0 <= b < 2 ^ k → Z.lor (Z.shiftl a k) b = a * 2 ^ k + b.
Proof.
  intros Hk Hb. rewrite <- Z.shiftl_mul_pow2 by lia. symmetry.
  apply Z.add_nocarry_lor, Z.bits_inj'.
  intros i Hi. rewrite Z.land_spec, Z.bits_0.
  destruct (decide (i < k)); [by rewrite Z.shiftl_spec_low|].
  apply andb_false_iff; right.
  destruct (decide (b = 0)) as [->|]; [apply Z.bits_0|].
  apply Z.bits_above_log2; [lia|].
  apply Z.lt_le_trans with k; [apply Z.log2_lt_pow2; lia|lia].
Qed.

Lemma htons_eq x : htons x = x mod 256 * 256 + x / 256 mod 256.
Proof.
  unfold htons. rewrite !land_255, lor_shiftl_add by modlia.
  by rewrite Z.shiftr_div_pow2.
Qed.

Lemma htons_range x : is_u16 (htons x).
Proof. rewrite htons_eq. modlia. Qed.

Lemma length_le_bytes n x : length (le_bytes n x) = n.
Proof. revert x; induction n; simpl; auto. Qed.

Lemma le_value_bytes n x : le_value (le_bytes n x) = x mod 256 ^ Z.of_nat n.
Proof.
  revert x; induction n as [|n IH]; intros x.
  { simpl. by rewrite Z.mod_1_r. }
  cbn [le_bytes le_value]. rewrite IH.
  rewrite Nat2Z.inj_succ, Z.pow_succ_r by lia.
  rewrite (Z.rem_mul_r x 256 (256 ^ Z.of_nat n)) by lia. lia.
Qed.

Lemma le_bytes_value bs n :
  Forall is_byte bs → length bs = n → le_bytes n (le_value bs) = bs.
Proof.
  intros H <-. induction H as [|b bs Hb H IH]; [done|].
  cbn [le_bytes le_value length]. f_equal; [modlia|].
  etransitivity; [|exact IH]. f_equal. modlia.
Qed.

Lemma le_bytes_byte n x : Forall is_byte (le_bytes n x).
Proof. revert x; induction n; intros; constructor; auto. modlia. Qed.

(** Both swaps reverse the bytes of the stored integer. *)
Lemma htons_rev x : htons x = le_value (rev (le_bytes 2 x)).
Proof. rewrite htons_eq. cbn [le_bytes rev app le_value]. lia. Qed.

Lemma htonl_rev x : htonl x = le_value (rev (le_bytes 4 x)).
Proof.
  unfold htonl. rewrite !land_255, !Z.shiftr_div_pow2 by lia.
  cbn [le_bytes rev app le_value]. rewrite !Z.div_div by lia.
  change (2 ^ 8) with 256. change (2 ^ 16) with (256 * 256).
  change (2 ^ 24) with (256 * (256 * 256)).
  generalize (x / (256 * (256 * 256))) (x / (256 * 256)) (x / 256). intros a b c.
  pose proof (Z.mod_pos_bound x 256). pose proof (Z.mod_pos_bound a 256).
  pose proof (Z.mod_pos_bound b 256). pose proof (Z.mod_pos_bound c 256).
  rewrite (lor_shiftl_add _ _ 8), (lor_shiftl_add _ _ 16), (lor_shiftl_add _ _ 24);
    change (2 ^ 8) with 256; change (2 ^ 16) with 65536; change (2 ^ 24) with 16777216; lia.
Qed.

Lemma le_bytes_rev_value n x :
  le_bytes n (le_value (rev (le_bytes n x))) = rev (le_bytes n x).
Proof.
  apply le_bytes_value.
  - apply Forall_rev, le_bytes_byte.
  - by rewrite length_rev, length_le_bytes.
Qed.

Lemma ntohs_htons x : is_u16 x → ntohs (htons x) = x.
Proof.
  intros. unfold ntohs. rewrite !htons_rev, le_bytes_rev_value, rev_involutive, le_value_bytes.
  by apply u16_id.
Qed.

Lemma ntohl_htonl x : is_u32 x → ntohl (htonl x) = x.
Proof.
  intros. unfold ntohl. rewrite !htonl_rev, le_bytes_rev_value, rev_involutive, le_value_bytes.
  by apply u32_id.
Qed.

(** A 16-bit (32-bit) value survives the store of its swapped representation. *)
Lemma ntohs_le_value x : is_u16 x → ntohs (le_value (le_bytes 2 (htons x))) = x.
Proof.
  intros. rewrite le_value_bytes, Z.mod_small; [by apply ntohs_htons|].
  pose proof (htons_range x). exact H0.
Qed.

Lemma htonl_range x : is_u32 (htonl x).
Proof.
  rewrite htonl_rev. cbn [le_bytes rev app le_value].
  assert (H : forall y, 0 <= y mod 256 < 256) by (intros; modlia).
  pose proof (H x). pose proof (H (x / 256)). pose proof (H (x / 256 / 256)).
  pose proof (H (x / 256 / 256 / 256)). unfold is_u32. lia.
Qed.

Lemma ntohl_le_value x : is_u32 x → ntohl (le_value (le_bytes 4 (htonl x))) = x.
Proof.
  intros. rewrite le_value_bytes, Z.mod_small; [by apply ntohl_htonl|].
  pose proof (htonl_range x). exact H0.
Qed.

(** Conversely, re-encoding what was decoded gives the bytes back. *)
Lemma le_bytes_htons_ntohs bs :
  Forall is_byte bs → length bs = 2%nat → le_bytes 2 (htons (ntohs (le_value bs))) = bs.
Proof.
  intros Hb Hl. unfold ntohs. rewrite (htons_rev (htons _)), le_bytes_rev_value.
  rewrite htons_rev, le_bytes_rev_value, rev_involutive. by apply le_bytes_value.
Qed.

Lemma le_bytes_htonl_ntohl bs :
  Forall is_byte bs → length bs = 4%nat → le_bytes 4 (htonl (ntohl (le_value bs))) = bs.
Proof.
  intros Hb Hl. unfold ntohl. rewrite (htonl_rev (htonl _)), le_bytes_rev_value.
  rewrite htonl_rev, le_bytes_rev_value, rev_involutive. by apply le_bytes_value.
Qed.

(** ** Lemmas on memory blocks *)

Lemma blen_nonneg {A} (l : list A) : 0 <= blen l.
Proof. unfold blen; lia. Qed.

Lemma blen_zero {A} (l : list A) : blen l = 0 → l = [].
Proof. destruct l; [done|]. unfold blen; cbn [length]; lia. Qed.

Lemma blen_app {A} (l k : list A) : blen (l ++ k) = blen l + blen k.
Proof. unfold blen; rewrite length_app; lia. Qed.

Lemma blen_cons {A} (x : A) l : blen (x :: l) = 1 + blen l.
Proof. unfold blen; cbn [length]; lia. Qed.

Lemma mem_read_Some {A} (buf : list A) off n bs :
  mem_read buf off n = Some bs ↔
  0 <= off ∧ 0 <= n ∧ off + n <= blen buf ∧
  bs = take (Z.to_nat n) (drop (Z.to_nat off) buf).
Proof.
  unfold mem_read. split.
  - destruct (_ && _) eqn:E; intros H; inversion H; subst. zbool. lia || auto.
  - intros (? & ? & ? & ->). by zif.
Qed.

Lemma mem_read_length {A} (buf : list A) off n bs :
  mem_read buf off n = Some bs → blen bs = n.
Proof.
  intros (? & ? & H & ->)%mem_read_Some. unfold blen in *.
  rewrite length_take, length_drop. lia.
Qed.

Lemma mem_read_defined {A} (buf : list A) off n :
  0 <= off → 0 <= n → off + n <= blen buf → is_Some (mem_read buf off n).
Proof. intros. eexists. apply mem_read_Some; eauto. Qed.

(** Reading exactly the middle of three blocks. *)
Lemma mem_read_app {A} (l m r : list A) off n :
  off = blen l → n = blen m → mem_read (l ++ m ++ r) off n = Some m.
Proof.
  intros -> ->. apply mem_read_Some. rewrite !blen_app.
  pose proof (blen_nonneg l). pose proof (blen_nonneg m). pose proof (blen_nonneg r).
  split_and!; [lia..|]. unfold blen. rewrite !Nat2Z.id.
  by rewrite drop_app_length, take_app_length.
Qed.

Lemma mem_read_full {A} (buf : list A) n :
  n = blen buf → mem_read buf 0 n = Some buf.
Proof.
  intros ->. apply mem_read_Some. pose proof (blen_nonneg buf).
  split_and!; [lia..|]. rewrite drop_0. unfold blen. by rewrite Nat2Z.id, firstn_all.
Qed.

Lemma mem_write_Some {A} (buf : list A) off bs buf' :
  mem_write buf off bs = Some buf' ↔
  0 <= off ∧ off + blen bs <= blen buf ∧
  buf' = take (Z.to_nat off) buf ++ bs ++ drop (Z.to_nat off + length bs) buf.
Proof.
  unfold mem_write. split.
  - destruct (_ && _) eqn:E; intros H; inversion H; subst. zbool. lia || auto.
  - intros (? & ? & ->). by zif.
Qed.

Lemma mem_write_defined {A} (buf : list A) off bs :
  0 <= off → off + blen bs <= blen buf → is_Some (mem_write buf off bs).
Proof. intros. eexists. apply mem_write_Some; eauto. Qed.

Lemma mem_write_length {A} (buf : list A) off bs buf' :
  mem_write buf off bs = Some buf' → blen buf' = blen buf.
Proof.
  intros (? & ? & ->)%mem_write_Some. unfold blen in *.
  rewrite !length_app, length_take, length_drop. lia.
Qed.

(** Writing exactly over the middle of three blocks. *)
Lemma mem_write_app {A} (l m r bs : list A) off :
  off = blen l → blen bs = blen m → mem_write (l ++ m ++ r) off bs = Some (l ++ bs ++ r).
Proof.
  intros -> Hl. apply mem_write_Some. rewrite !blen_app.
  pose proof (blen_nonneg l). pose proof (blen_nonneg m). pose proof (blen_nonneg r).
  split_and!; [lia..|]. unfold blen in *. rewrite Nat2Z.id, take_app_length. do 2 f_equal.
  assert (length bs = length m) as -> by lia.
  by rewrite <- drop_drop, drop_app_length, drop_app_length.
Qed.

(** A write followed by a read of the prefix up to the end of the write. *)
Lemma mem_write_read_prefix {A} (buf : list A) off bs buf' :
  mem_write buf off bs = Some buf' →
  mem_read buf' 0 (off + blen bs) = Some (take (Z.to_nat off) buf ++ bs).
Proof.
  intros (? & ? & ->)%mem_write_Some. rewrite app_assoc.
  rewrite <- (app_nil_l ((_ ++ _) ++ _)).
  apply mem_read_app; [done|]. rewrite blen_app. f_equal.
  unfold blen in *. rewrite length_take. lia.
Qed.

(** A read that stays in the first of two blocks. *)
Lemma mem_read_prefix {A} (l r : list A) off n :
  off + n <= blen l → mem_read (l ++ r) off n = mem_read l off n.
Proof.
  intros Hn. unfold mem_read. rewrite blen_app. pose proof (blen_nonneg r).
  destruct ((0 <=? off) && (0 <=? n)) eqn:E; [|done]. zbool. zif.
  unfold blen in *. rewrite drop_app_le by lia. by rewrite take_app_le by (rewrite length_drop; lia).
Qed.

(** A read that starts after the first of two blocks. *)
Lemma mem_read_suffix {A} (l r : list A) off n :
  blen l <= off → mem_read (l ++ r) off n = mem_read r (off - blen l) n.
Proof.
  intros Hn. pose proof (blen_nonneg l). unfold mem_read. rewrite blen_app.
  destruct (Z.leb_spec 0 n); [|by rewrite !andb_false_r].
  zdecide_true (0 <=? off). zdecide_true (0 <=? off - blen l). cbn [andb].
  destruct (Z.leb_spec (off + n) (blen l + blen r)); zif; [|done].
  unfold blen in *. do 2 f_equal. rewrite drop_app_ge by lia. f_equal. lia.
Qed.

Lemma replicate_Z_add {A} a b (x : A) :
  0 <= a → 0 <= b →
  replicate (Z.to_nat (a + b)) x = replicate (Z.to_nat a) x ++ replicate (Z.to_nat b) x.
Proof. intros. by rewrite Z2Nat.inj_add, replicate_add by lia. Qed.

Lemma blen_replicate {A} n (x : A) : 0 <= n → blen (replicate (Z.to_nat n) x) = n.
Proof. intros. unfold blen. rewrite length_replicate. lia. Qed.

Lemma mem_read_extends {A} (S p d : list A) :
  p `prefix_of` S → mem_read S (blen p) (blen d) = Some d → p ++ d `prefix_of` S.
Proof.
  intros [k ->] (_ & _ & _ & Hd)%mem_read_Some. unfold blen in Hd. rewrite !Nat2Z.id, drop_app_length in Hd.
  exists (drop (length d) k). rewrite <- app_assoc. f_equal. rewrite Hd at 1. by rewrite take_drop.
Qed.

Lemma mem_write_tail {A} (l m bs : list A) off :
  off = blen l → blen bs = blen m → mem_write (l ++ m) off bs = Some (l ++ bs).
Proof.
  intros. rewrite <- (app_nil_r m), mem_write_app by done. by rewrite app_nil_r.
Qed.

Lemma mem_read_tail {A} (l m : list A) off n :
  off = blen l → n = blen m → mem_read (l ++ m) off n = Some m.
Proof. intros. rewrite <- (app_nil_r m) at 1. by apply mem_read_app. Qed.

(** Equality of truncations is congruence. *)
Lemma u16_eq_iff a b : u16 a = u16 b ↔ (b - a) mod 65536 = 0.
Proof.
  unfold u16. change (2 ^ 16) with 65536. rewrite Z.mod_divide by lia. split.
  - intros H. exists (b / 65536 - a / 65536).
    rewrite (Z.div_mod a 65536), (Z.div_mod b 65536) at 1 by lia. lia.
  - intros [k H]. replace b with (a + k * 65536) by lia. by rewrite Z.mod_add.
Qed.

(** Truncations inside a truncation of the same width vanish. *)
Lemma u32_i32 z : u32 (i32 z) = u32 z.
Proof. unfold u32, i32. rewrite Zminus_mod_idemp_l. f_equal. lia. Qed.
Lemma u32_u32 z : u32 (u32 z) = u32 z.
Proof. apply u32_id, u32_range. Qed.
Lemma u32_add_l a b : u32 (u32 a + b) = u32 (a + b).
Proof. unfold u32. apply Zplus_mod_idemp_l. Qed.
Lemma u32_add_r a b : u32 (a + u32 b) = u32 (a + b).
Proof. unfold u32. apply Zplus_mod_idemp_r. Qed.
Lemma u32_sub_l a b : u32 (u32 a - b) = u32 (a - b).
Proof. unfold u32. apply Zminus_mod_idemp_l. Qed.
Lemma i32_u32 z : i32 (u32 z) = i32 z.
Proof. unfold u32, i32. by rewrite Zplus_mod_idemp_l. Qed.

(** ** Sums over finite maps *)

(** The sum of [f] over the values. *)
Definition msum {A} (f : A → Z) (m : gmap nat A) : Z := map_fold (fun _ r acc => f r + acc) 0 m.

Section msum.
Context {A : Type} (f : A → Z).
Implicit Types (m : gmap nat A).

Lemma msum_empty : msum f ∅ = 0.
Proof. apply map_fold_empty. Qed.
Lemma msum_insert_new m i r : m !! i = None → msum f (<[i := r]> m) = f r + msum f m.
Proof. intros Hi. unfold msum. rewrite map_fold_insert_L; [done|intros; lia|done]. Qed.
Lemma msum_delete m i r : m !! i = Some r → msum f m = f r + msum f (delete i m).
Proof.
  intros Hi. rewrite <- (insert_delete_id m i r) at 1 by done.
  by rewrite msum_insert_new by apply lookup_delete_eq.
Qed.
Lemma msum_insert m i r r' : m !! i = Some r → msum f (<[i := r']> m) = msum f m - f r + f r'.
Proof.
  intros Hi. rewrite <- insert_delete_eq, msum_insert_new by apply lookup_delete_eq.
  rewrite (msum_delete m i r Hi). lia.
Qed.
Lemma msum_nonneg m : (∀ i r, m !! i = Some r → 0 <= f r) → 0 <= msum f m.
Proof.
  induction m as [|i r m Hi IH] using map_ind; intros Hf; [by rewrite msum_empty|].
  rewrite msum_insert_new by done. pose proof (Hf i r (lookup_insert_eq _ _ _)).
  assert (0 <= msum f m); [|lia]. apply IH. intros j r' Hj. apply (Hf j). rewrite lookup_insert_ne; congruence.
Qed.
Lemma msum_le_size m : (∀ i r, m !! i = Some r → f r <= 1) → msum f m <= Z.of_nat (base.size m).
Proof.
  induction m as [|i r m Hi IH] using map_ind; intros Hf; [by rewrite msum_empty|].
  rewrite msum_insert_new, map_size_insert_None by done.
  pose proof (Hf i r (lookup_insert_eq _ _ _)).
  assert (msum f m <= Z.of_nat (base.size m)); [|lia].
  apply IH. intros j r' Hj. apply (Hf j). rewrite lookup_insert_ne; congruence.
Qed.
Lemma msum_lookup m i r :
  (∀ i r, m !! i = Some r → 0 <= f r) → m !! i = Some r → f r <= msum f m.
Proof.
  intros Hf Hi. rewrite (msum_delete m i r Hi).
  assert (0 <= msum f (delete i m)); [|lia]. apply msum_nonneg.
  intros j r' [_ Hj]%lookup_delete_Some. by apply (Hf j).
Qed.
End msum.

Lemma msum_sub {A} (f g : A → Z) m : msum (fun r => f r - g r) m = msum f m - msum g m.
Proof.
  induction m as [|i r m Hi IH] using map_ind; [by rewrite !msum_empty|].
  rewrite !msum_insert_new by done. lia.
Qed.
Lemma msum_zero {A} (f : A → Z) (m : gmap nat A) : (∀ i r, m !! i = Some r → f r = 0) → msum f m = 0.
Proof.
  induction m as [|i r m Hi IH] using map_ind; intros Hf; [by rewrite msum_empty|].
  rewrite msum_insert_new by done. rewrite (Hf i r) by (by rewrite lookup_insert_eq).
  rewrite IH; [done|]. intros j r' Hj. apply (Hf j). rewrite lookup_insert_ne; congruence.
Qed.
Lemma msum_mono {A} (f g : A → Z) m : (∀ r, f r <= g r) → msum f m <= msum g m.
Proof.
  intros Hfg. pose proof (msum_nonneg (fun r => g r - f r) m ltac:(intros i r _; specialize (Hfg r); lia)) as H.
  rewrite msum_sub in H. lia.
Qed.
Lemma msum_fmap {A B} (f : B → Z) (g : A → B) m : msum f (g <$> m) = msum (f ∘ g) m.
Proof.
  induction m as [|i r m Hi IH] using map_ind; [by rewrite fmap_empty, !msum_empty|].
  rewrite fmap_insert, !msum_insert_new by (done || by rewrite lookup_fmap, Hi). by rewrite IH.
Qed.
Lemma msum_ext {A} (f g : A → Z) m : (∀ r, f r = g r) → msum f m = msum g m.
Proof.
  intros Hfg. induction m as [|i r m Hi IH] using map_ind; [by rewrite !msum_empty|].
  rewrite !msum_insert_new by done. by rewrite Hfg, IH.
Qed.
