(* ===== verification/Consts.v ===== *)
(** * Constants of include/consts.h

    The values are the ones the preprocessor substitutes; the object-like
    macros whose body is a C expression are written as that expression, so
    [ALPHA] is the integer quotient [1/8]. *)

From S2P Require Import Prelude.

Definition MSL : Z := 1.

Definition SIZE32 : Z := 4.
Definition SIZE16 : Z := 2.
Definition SIZE8 : Z := 1.

Definition NO_FLAG : Z := 0.
Definition TRUE : Z := 1.
Definition FALSE : Z := 0.

(** Largest payload and largest packet. *)
Definition MAX_DLEN : Z := 1375.
Definition MAX_LEN : Z := 1400.

(** Connection states. *)
Definition CLOSED : Z := 0.
Definition LISTEN : Z := 1.
Definition SYN_SENT : Z := 2.
Definition SYN_RECV : Z := 3.
Definition ESTABLISHED : Z := 4.
Definition FIN_WAIT_1 : Z := 5.
Definition FIN_WAIT_2 : Z := 6.
Definition CLOSE_WAIT : Z := 7.
Definition CLOSING : Z := 8.
Definition LAST_ACK : Z := 9.
Definition TIME_WAIT : Z := 10.

(** Flag bits of a packet. *)
Definition FIN : Z := Z.shiftl 1 0.
Definition SYN : Z := Z.shiftl 1 1.
Definition RST : Z := Z.shiftl 1 2.
Definition PSH : Z := Z.shiftl 1 3.
Definition ACK : Z := Z.shiftl 1 4.
Definition URG : Z := Z.shiftl 1 5.
Definition HEAD : Z := Z.shiftl 1 6.
Definition BACKHEAD : Z := Z.shiftl 1 7.

(** Congestion-control states. *)
Definition SLOW_START : Z := 0.
Definition CONGESTION_AVOIDANCE : Z := 1.
Definition FAST_RECOVERY : Z := 2.

(** Window and buffer sizes. *)
Definition TCP_RECVWN_SIZE : Z := 32 * MAX_DLEN.
Definition TCP_RECV_WINDOW_SIZE : Z := 128 * MAX_DLEN.
Definition TCP_SEND_WINDOW_SIZE : Z := 128 * MAX_DLEN.
Definition TCP_SEND_BUFFER_SIZE : Z := 128 * MAX_DLEN.
Definition TCP_RECV_BUFFER_SIZE : Z := 100.

Definition MAX_SOCK_SIZE : Z := 1024.

(** Timer constants: [1/8] and [1/4] are integer divisions in C. *)
Definition ALPHA : Z := 1 ÷ 8.
Definition BETA : Z := 1 ÷ 4.
Definition TCP_RTO_MAX : Z := 100.

Definition RETRANSMIT_LIMIT : Z := 10.

Definition DEFAULT_HEADER_LEN : Z := 22.
Definition HEADER_LEN : Z := 22.

(** Congestion-control windows. *)
Definition IW : Z := 3 * MAX_LEN.
Definition SMSS : Z := 1 * MAX_LEN.

(** include/sockqueue.h *)
Definition MAX_QUEUE : Z := 1024.
