(* ===== verification/Packet.v ===== *)
(** * Packets: src/tju_packet.c, include/tju_packet.h and the checksum of
    src/tju_tcp.c

    A packet in memory is a header record and an optional payload block; on
    the wire it is a block of bytes.  Each accessor and each serializer is a
    function on those blocks, [None] being an access outside a block. *)

From S2P Require Import Prelude Consts.

(** ** Data *)

Record tju_header_t := mk_header {
  source_port : Z;
  destination_port : Z;
  seq_num : Z;
  ack_num : Z;
  hlen : Z;
  plen : Z;
  flags : Z;
  advertised_window : Z;
  ext : Z;
  checksum : Z
}.

#[export] Instance eta_header : Eta tju_header_t := fun h =>
  mk_header (source_port h) (destination_port h) (seq_num h) (ack_num h) (hlen h)
    (plen h) (flags h) (advertised_window h) (ext h) (checksum h).

(** [sent_time] is never read nor written by the program and is left out;
    [data] is [None] for the null pointer. *)
Record tju_packet_t := mk_packet {
  header : tju_header_t;
  data : option (list Z)
}.

#[export] Instance eta_packet : Eta tju_packet_t := fun p =>
  mk_packet (header p) (data p).

(** ** Checksum *)

(** The loop [while(data_len > 0) cksum += *data; data += 1; ...]: [n] bytes
    are left, and reading past the block is undefined. *)
Fixpoint checksum_data (n : nat) (bs : list Z) (cksum : Z) : option Z :=
  match n, bs with
  | O, _ => Some cksum
  | S n', b :: bs' => checksum_data n' bs' (u16 (cksum + schar b))
  | S _, [] => None
  end.

(** The header part of [tcp_compute_checksum], one line per statement. *)
Definition checksum_header (h : tju_header_t) : Z :=
  let cksum := 0 in
  let cksum := u16 (cksum + Z.land (Z.shiftr (source_port h) 16) 65535) in
  let cksum := u16 (cksum + Z.land (source_port h) 65535) in
  let cksum := u16 (cksum + Z.land (Z.shiftr (destination_port h) 16) 65535) in
  let cksum := u16 (cksum + Z.land (destination_port h) 65535) in
  let cksum := u16 (u32 (cksum + seq_num h)) in
  let cksum := u16 (u32 (cksum + ack_num h)) in
  let cksum := u16 (cksum + htons (hlen h)) in
  let cksum := u16 (cksum + htons (plen h)) in
  let cksum := u16 (cksum + flags h) in
  let cksum := u16 (cksum + advertised_window h) in
  u16 (cksum + ext h).

Definition tcp_compute_checksum (pkt : tju_packet_t) : option Z :=
  let cksum := checksum_header (header pkt) in
  let data_len := plen (header pkt) - hlen (header pkt) in
  cksum ← checksum_data (Z.to_nat data_len) (default [] (data pkt)) cksum;
  let cksum := u16 (Z.shiftr cksum 16 + Z.land cksum 65535) in
  Some (u16 (Z.lnot cksum)).

Definition set_checksum (pkt : tju_packet_t) : option tju_packet_t :=
  cksum ← tcp_compute_checksum pkt;
  Some (pkt⟨header := (header pkt)⟨checksum := cksum⟩⟩).

Definition tcp_check (pkt : tju_packet_t) : option Z :=
  cksum ← tcp_compute_checksum pkt;
  Some (if negb (checksum (header pkt) =? cksum) then FALSE else TRUE).

(** ** Construction *)

(** The caller's pointer [data] is the list of the bytes readable from it; a
    copy of [len] bytes is made only when [len > 0].  The arguments are
    converted to the parameter types on entry. *)
Definition create_packet (src dst seq ack hlen plen flags adv_window ext : Z)
    (data : list Z) (len : Z) : option tju_packet_t :=
  new_data ← (if 0 <? len then Some <$> mem_read data 0 len else Some None);
  set_checksum (mk_packet
    (mk_header (u16 src) (u16 dst) (u32 seq) (u32 ack) (u16 hlen) (u16 plen) (u8 flags)
       (u16 adv_window) (u8 ext) 0)
    new_data).

(** ** Accessors on the wire format *)

Definition get_u16 (msg : list Z) (offset : Z) : option Z :=
  bs ← mem_read msg offset SIZE16; Some (ntohs (le_value bs)).
Definition get_u32 (msg : list Z) (offset : Z) : option Z :=
  bs ← mem_read msg offset SIZE32; Some (ntohl (le_value bs)).
Definition get_u8 (msg : list Z) (offset : Z) : option Z :=
  bs ← mem_read msg offset SIZE8; Some (le_value bs).

Definition get_src (msg : list Z) : option Z := get_u16 msg 0.
Definition get_dst (msg : list Z) : option Z := get_u16 msg 2.
Definition get_seq (msg : list Z) : option Z := get_u32 msg 4.
Definition get_ack (msg : list Z) : option Z := get_u32 msg 8.
Definition get_hlen (msg : list Z) : option Z := get_u16 msg 12.
Definition get_plen (msg : list Z) : option Z := get_u16 msg 14.
Definition get_flags (msg : list Z) : option Z := get_u8 msg 16.
Definition get_advertised_window (msg : list Z) : option Z := get_u16 msg 17.
Definition get_ext (msg : list Z) : option Z := get_u8 msg 19.
Definition get_checksum (msg : list Z) : option Z := get_u16 msg 20.

Definition is_fin (pkt : list Z) : option bool :=
  f ← get_flags pkt; Some (f =? Z.lor ACK FIN).

(** ** Serialization *)

(** [memcpy(msg+index, &temp, SIZE); index += SIZE;] *)
Definition put_field (bs : list Z) (st : list Z * Z) : option (list Z * Z) :=
  msg ← mem_write (fst st) (snd st) bs; Some (msg, snd st + blen bs).

Definition header_in_char (src dst seq ack hlen plen flags adv_window ext cksum : Z)
    : option (list Z) :=
  let msg := replicate (Z.to_nat plen) 0 in
  st ← put_field (le_bytes 2 (htons src)) (msg, 0);
  st ← put_field (le_bytes 2 (htons dst)) st;
  st ← put_field (le_bytes 4 (htonl seq)) st;
  st ← put_field (le_bytes 4 (htonl ack)) st;
  st ← put_field (le_bytes 2 (htons hlen)) st;
  st ← put_field (le_bytes 2 (htons plen)) st;
  st ← put_field (le_bytes 1 flags) st;
  st ← put_field (le_bytes 2 (htons adv_window)) st;
  st ← put_field (le_bytes 1 ext) st;
  st ← put_field (le_bytes 2 (htons cksum)) st;
  Some (fst st).

Definition packet_to_buf (p : tju_packet_t) : option (list Z) :=
  let h := header p in
  msg ← header_in_char (source_port h) (destination_port h) (seq_num h) (ack_num h)
          (hlen h) (plen h) (flags h) (advertised_window h) (ext h) (checksum h);
  if hlen h <? plen h
  then bs ← mem_read (default [] (data p)) 0 (plen h - hlen h);
       mem_write msg (hlen h) bs
  else Some msg.

Definition buf_to_packet (buf : list Z) : option tju_packet_t :=
  source_port ← get_src buf;
  destination_port ← get_dst buf;
  ack_num ← get_ack buf;
  seq_num ← get_seq buf;
  hlen ← get_hlen buf;
  plen ← get_plen buf;
  flags ← get_flags buf;
  advertised_window ← get_advertised_window buf;
  ext ← get_ext buf;
  checksum ← get_checksum buf;
  let len := plen - hlen in
  data ← (if 0 <? len then Some <$> mem_read buf hlen len else Some None);
  Some (mk_packet
    (mk_header source_port destination_port seq_num ack_num hlen plen flags
       advertised_window ext checksum) data).

Definition create_packet_buf (src dst seq ack hlen plen flags adv_window ext : Z)
    (data : list Z) (len : Z) : option (list Z) :=
  temp ← create_packet src dst seq ack hlen plen flags adv_window ext data len;
  packet_to_buf temp.

(** The reply to a received packet: its length and its bytes. *)
Definition build_state_pkt (recv_pkt : list Z) (flags : Z) : option (Z * list Z) :=
  let len := HEADER_LEN in
  s ← get_seq recv_pkt;
  let seq := i32 (s + len) in
  let ack := i32 (s + 1) in
  let adv_wnd := TCP_RECV_BUFFER_SIZE in
  dst ← get_dst recv_pkt;
  src ← get_src recv_pkt;
  send_pkt ← create_packet_buf dst src seq ack len len flags adv_wnd 0 [] 0;
  Some (len, send_pkt).

(** ** Well-formed headers and packets *)

Definition header_ok (h : tju_header_t) : Prop :=
  is_u16 (source_port h) ∧ is_u16 (destination_port h) ∧
  is_u32 (seq_num h) ∧ is_u32 (ack_num h) ∧
  is_u16 (hlen h) ∧ is_u16 (plen h) ∧ is_u8 (flags h) ∧
  is_u16 (advertised_window h) ∧ is_u8 (ext h) ∧ is_u16 (checksum h).

(** The payload block is exactly what the two length fields announce. *)
Definition packet_ok (p : tju_packet_t) : Prop :=
  header_ok (header p) ∧ HEADER_LEN <= hlen (header p) <= plen (header p) ∧
  match data p with
  | Some d => Forall is_byte d ∧ 0 < blen d ∧ blen d = plen (header p) - hlen (header p)
  | None => plen (header p) = hlen (header p)
  end.

(** The 22 header bytes, in wire order. *)
Definition wire_header (h : tju_header_t) : list Z :=
  le_bytes 2 (htons (source_port h)) ++ le_bytes 2 (htons (destination_port h)) ++
  le_bytes 4 (htonl (seq_num h)) ++ le_bytes 4 (htonl (ack_num h)) ++
  le_bytes 2 (htons (hlen h)) ++ le_bytes 2 (htons (plen h)) ++
  le_bytes 1 (flags h) ++ le_bytes 2 (htons (advertised_window h)) ++
  le_bytes 1 (ext h) ++ le_bytes 2 (htons (checksum h)).

(** The sum the checksum is taken from, before any truncation. *)
Definition header_sum (h : tju_header_t) : Z :=
  source_port h + destination_port h + seq_num h + ack_num h + htons (hlen h)
  + htons (plen h) + flags h + advertised_window h + ext h.

Definition data_sum (d : list Z) : Z := foldr Z.add 0 (schar <$> d).

Definition payload (p : tju_packet_t) : list Z := default [] (data p).

Definition packet_sum (p : tju_packet_t) : Z :=
  header_sum (header p) + data_sum (payload p).

(** ** Lemmas *)

Lemma length_wire_header h : blen (wire_header h) = HEADER_LEN.
Proof. reflexivity. Qed.

Lemma put_field_fill l k bs :
  blen bs <= k →
  put_field bs (l ++ replicate (Z.to_nat k) 0, blen l) =
  Some ((l ++ bs) ++ replicate (Z.to_nat (k - blen bs)) 0, blen (l ++ bs)).
Proof.
  intros Hk. pose proof (blen_nonneg bs). unfold put_field. cbn [fst snd].
  replace k with (blen bs + (k - blen bs)) at 1 by lia.
  rewrite replicate_Z_add, mem_write_app by (rewrite ?blen_replicate; lia).
  cbn [mbind option_bind]. by rewrite <- app_assoc, blen_app.
Qed.

Lemma blen_le_bytes n x : blen (le_bytes n x) = Z.of_nat n.
Proof. unfold blen. by rewrite length_le_bytes. Qed.

Lemma header_in_char_layout h :
  HEADER_LEN <= plen h →
  header_in_char (source_port h) (destination_port h) (seq_num h) (ack_num h) (hlen h)
    (plen h) (flags h) (advertised_window h) (ext h) (checksum h) =
  Some (wire_header h ++ replicate (Z.to_nat (plen h - HEADER_LEN)) 0).
Proof.
  unfold HEADER_LEN. intros Hp. unfold header_in_char.
  change (replicate (Z.to_nat (plen h)) 0, 0)
    with ([] ++ replicate (Z.to_nat (plen h)) 0, blen (A:=Z) []).
  do 10 (rewrite put_field_fill by (rewrite !blen_le_bytes; lia); cbn [mbind option_bind]).
  cbn [fst]. rewrite !blen_le_bytes. unfold wire_header.
  rewrite <- !app_assoc, app_nil_l, <- !Z.sub_add_distr. reflexivity.
Qed.

(** Reading the fields back from a block that starts with a wire header. *)
Lemma mem_read_header h rest off n bs :
  mem_read (wire_header h) off n = Some bs → mem_read (wire_header h ++ rest) off n = Some bs.
Proof.
  intros H. rewrite mem_read_prefix; [done|]. by apply mem_read_Some in H as (_ & _ & ? & _).
Qed.

Lemma get_u16_header h rest off x :
  mem_read (wire_header h) off 2 = Some (le_bytes 2 (htons x)) → is_u16 x →
  get_u16 (wire_header h ++ rest) off = Some x.
Proof.
  intros H Hx. unfold get_u16. change SIZE16 with 2.
  erewrite mem_read_header by exact H. cbn [mbind option_bind]. by rewrite ntohs_le_value.
Qed.

Lemma get_u32_header h rest off x :
  mem_read (wire_header h) off 4 = Some (le_bytes 4 (htonl x)) → is_u32 x →
  get_u32 (wire_header h ++ rest) off = Some x.
Proof.
  intros H Hx. unfold get_u32. change SIZE32 with 4.
  erewrite mem_read_header by exact H. cbn [mbind option_bind]. by rewrite ntohl_le_value.
Qed.

Lemma get_u8_header h rest off x :
  mem_read (wire_header h) off 1 = Some (le_bytes 1 x) → is_u8 x →
  get_u8 (wire_header h ++ rest) off = Some x.
Proof.
  intros H Hx. unfold get_u8. change SIZE8 with 1.
  erewrite mem_read_header by exact H. cbn [mbind option_bind].
  rewrite le_value_bytes. f_equal. by apply u8_id.
Qed.

(** Every accessor returns its field. *)
Record fields_of (msg : list Z) (h : tju_header_t) : Prop := {
  fo_src : get_src msg = Some (source_port h);
  fo_dst : get_dst msg = Some (destination_port h);
  fo_seq : get_seq msg = Some (seq_num h);
  fo_ack : get_ack msg = Some (ack_num h);
  fo_hlen : get_hlen msg = Some (hlen h);
  fo_plen : get_plen msg = Some (plen h);
  fo_flags : get_flags msg = Some (flags h);
  fo_window : get_advertised_window msg = Some (advertised_window h);
  fo_ext : get_ext msg = Some (ext h);
  fo_checksum : get_checksum msg = Some (checksum h)
}.

Lemma wire_header_fields h rest : header_ok h → fields_of (wire_header h ++ rest) h.
Proof.
  intros (? & ? & ? & ? & ? & ? & ? & ? & ? & ?). split;
    first [ apply get_u16_header | apply get_u32_header | apply get_u8_header ];
    first [ reflexivity | assumption ].
Qed.

(** The bytes of a well-formed packet: header, padding up to [hlen], payload. *)
Lemma packet_to_buf_layout p :
  packet_ok p →
  packet_to_buf p = Some (wire_header (header p) ++
    replicate (Z.to_nat (hlen (header p) - HEADER_LEN)) 0 ++ payload p).
Proof.
  destruct p as [h d]. unfold packet_ok, packet_to_buf, payload. cbn [header data].
  intros (Hh & [Hl1 Hl2] & Hd). rewrite header_in_char_layout by lia. cbn [mbind option_bind].
  replace (plen h - HEADER_LEN) with ((hlen h - HEADER_LEN) + (plen h - hlen h)) by lia.
  rewrite replicate_Z_add by lia.
  destruct d as [d|]; cbn [from_option id].
  - destruct Hd as (_ & Hd0 & Hd). zif.
    rewrite mem_read_full by lia. cbn [mbind option_bind].
    rewrite !app_assoc. rewrite mem_write_tail; [done| |].
    + rewrite blen_app, length_wire_header, blen_replicate; lia.
    + rewrite blen_replicate; lia.
  - zif. replace (plen h - hlen h) with 0 by lia. done.
Qed.

Lemma header_of_packet_ok p : packet_ok p → header_ok (header p).
Proof. by intros []. Qed.

Lemma packet_to_buf_length p buf :
  packet_ok p → packet_to_buf p = Some buf → blen buf = plen (header p).
Proof.
  intros Hok. rewrite packet_to_buf_layout by done. intros <-%(inj Some).
  rewrite !blen_app, length_wire_header.
  destruct p as [h [d|]]; destruct Hok as (_ & ? & Hd); unfold payload;
    cbn [header data from_option id] in *; rewrite blen_replicate by lia; [lia|].
  change (blen (A:=Z) []) with 0. lia.
Qed.

Lemma buf_to_packet_layout h gap d :
  header_ok h → HEADER_LEN <= hlen h → blen gap = hlen h - HEADER_LEN →
  blen d = Z.max 0 (plen h - hlen h) →
  buf_to_packet (wire_header h ++ gap ++ d) =
  Some (mk_packet h (if 0 <? blen d then Some d else None)).
Proof.
  intros Hh Hl Hg Hd. destruct (wire_header_fields h (gap ++ d) Hh) as [].
  unfold buf_to_packet.
  rewrite fo_src0, fo_dst0, fo_ack0, fo_seq0, fo_hlen0, fo_plen0, fo_flags0, fo_window0,
    fo_ext0, fo_checksum0. cbn [mbind option_bind].
  destruct (Z.ltb_spec 0 (plen h - hlen h)).
  - zif. rewrite app_assoc, mem_read_tail.
    + cbn. by destruct h.
    + rewrite blen_app, length_wire_header. lia.
    + lia.
  - zif. cbn. by destruct h.
Qed.

Lemma packet_roundtrip_ok p :
  packet_ok p →
  ∃ buf, packet_to_buf p = Some buf ∧ blen buf = plen (header p) ∧ buf_to_packet buf = Some p.
Proof.
  intros Hok. eexists. split; [by apply packet_to_buf_layout|]. split.
  { eapply packet_to_buf_length; [done|]. by apply packet_to_buf_layout. }
  destruct p as [h d]. destruct Hok as (Hh & [Hl1 Hl2] & Hd). cbn [header data payload] in *.
  unfold payload; cbn [data]. rewrite buf_to_packet_layout; try done.
  - destruct d as [d|]; cbn [from_option id]; [|done]. destruct Hd as (_ & Hd & _). by zif.
  - apply blen_replicate. lia.
  - destruct d as [d|]; cbn [from_option id]; [lia|]. change (blen (A:=Z) []) with 0. lia.
Qed.

(** C12: serialization and parsing are inverse: the block built for a
    well-formed packet has the announced length, and parsing it gives the
    packet back, field by field and byte by byte. *)
Theorem packet_roundtrip p :
  packet_ok p →
  ∃ buf, packet_to_buf p = Some buf ∧ blen buf = plen (header p) ∧ buf_to_packet buf = Some p.
Proof. apply packet_roundtrip_ok. Qed.

(** ** The checksum *)

Lemma u16_add_l a b : u16 (u16 a + b) = u16 (a + b).
Proof. unfold u16. apply Zplus_mod_idemp_l. Qed.
Lemma u16_u32 a : u16 (u32 a) = u16 a.
Proof. modlia. Qed.
Lemma u16_u16 a : u16 (u16 a) = u16 a.
Proof. apply u16_id, u16_range. Qed.

Lemma checksum_header_eq h :
  is_u16 (source_port h) → is_u16 (destination_port h) →
  checksum_header h = u16 (header_sum h).
Proof.
  intros Hs Hd. unfold checksum_header, header_sum.
  assert (Hport : ∀ p, is_u16 p → Z.land (Z.shiftr p 16) 65535 = 0 ∧ Z.land p 65535 = p).
  { intros p Hp. change 65535 with (Z.ones 16). rewrite !Z.land_ones, Z.shiftr_div_pow2 by lia.
    split; modlia. }
  destruct (Hport _ Hs) as [-> ->], (Hport _ Hd) as [-> ->].
  rewrite !u16_u32. repeat first [ rewrite u16_add_l | rewrite <- Z.add_assoc ]. f_equal.
Qed.

Lemma checksum_data_eq bs n c :
  (n <= length bs)%nat → is_u16 c →
  checksum_data n bs c = Some (u16 (c + data_sum (take n bs))).
Proof.
  revert bs c; induction n as [|n IH]; intros bs c Hn Hc.
  { rewrite take_0. cbn. by rewrite Z.add_0_r, u16_id. }
  destruct bs as [|b bs]; cbn in Hn; [lia|].
  cbn [checksum_data take]. rewrite IH by (apply u16_range || lia).
  rewrite u16_add_l. unfold data_sum. cbn. do 2 f_equal. lia.
Qed.

(** Closed form: the complement of the sum of all fields and of the payload
    bytes taken as signed characters, modulo 2^16. *)
Lemma tcp_compute_checksum_eq p :
  is_u16 (source_port (header p)) → is_u16 (destination_port (header p)) →
  blen (payload p) = Z.max 0 (plen (header p) - hlen (header p)) →
  tcp_compute_checksum p = Some (65535 - u16 (packet_sum p)).
Proof.
  intros Hs Hd Hl. unfold tcp_compute_checksum.
  rewrite checksum_header_eq by done. fold (payload p). unfold blen in Hl.
  rewrite checksum_data_eq by (apply u16_range || lia).
  rewrite take_ge by lia. cbn [mbind option_bind].
  rewrite u16_add_l. fold (packet_sum p). pose proof (u16_range (packet_sum p)) as Hr.
  revert Hr. generalize (u16 (packet_sum p)). intros s Hr. f_equal.
  change 65535 with (Z.ones 16). rewrite Z.land_ones, Z.shiftr_div_pow2 by lia.
  change (Z.ones 16) with 65535. unfold Z.lnot. modlia.
Qed.

Lemma packet_ok_payload p :
  packet_ok p → blen (payload p) = Z.max 0 (plen (header p) - hlen (header p)).
Proof.
  destruct p as [h [d|]]; intros (_ & ? & Hd); unfold payload; cbn in *; [lia|].
  change (blen (A:=Z) []) with 0. lia.
Qed.

Lemma set_checksum_eq p :
  is_u16 (source_port (header p)) → is_u16 (destination_port (header p)) →
  blen (payload p) = Z.max 0 (plen (header p) - hlen (header p)) →
  set_checksum p =
  Some (p⟨header := (header p)⟨checksum := 65535 - u16 (packet_sum p)⟩⟩).
Proof. intros. unfold set_checksum. by rewrite tcp_compute_checksum_eq. Qed.

(** [tcp_check] accepts exactly the packets whose stored checksum is the
    closed form. *)
Lemma tcp_check_eq p :
  packet_ok p →
  tcp_check p =
  Some (if checksum (header p) =? 65535 - u16 (packet_sum p) then TRUE else FALSE).
Proof.
  intros Hok. unfold tcp_check. rewrite tcp_compute_checksum_eq.
  - cbn. by destruct (_ =? _).
  - apply (header_of_packet_ok _ Hok).
  - apply (header_of_packet_ok _ Hok).
  - by apply packet_ok_payload.
Qed.

(** The header [create_packet] fills in, before and after the checksum. *)
Definition built_header (src dst seq ack hlen plen flags adv_window ext : Z) : tju_header_t :=
  mk_header (u16 src) (u16 dst) (u32 seq) (u32 ack) (u16 hlen) (u16 plen) (u8 flags)
    (u16 adv_window) (u8 ext) 0.

Definition built_packet (src dst seq ack hlen plen flags adv_window ext : Z)
    (d : list Z) : tju_packet_t :=
  let p := mk_packet (built_header src dst seq ack hlen plen flags adv_window ext)
             (if 0 <? blen d then Some d else None) in
  p⟨header := (header p)⟨checksum := 65535 - u16 (packet_sum p)⟩⟩.

(** The header checksum field does not enter the sum. *)
Lemma packet_sum_checksum p c :
  packet_sum (p⟨header := (header p)⟨checksum := c⟩⟩) = packet_sum p.
Proof. reflexivity. Qed.

Lemma checksum_value_range s : is_u16 (65535 - u16 s).
Proof. pose proof (u16_range s). widths. lia. Qed.

Lemma built_packet_ok src dst seq ack hl pl fl win ex d :
  HEADER_LEN <= u16 hl → u16 pl = u16 hl + blen d → Forall is_byte d →
  packet_ok (built_packet src dst seq ack hl pl fl win ex d).
Proof.
  intros H1 H2 H3. pose proof (blen_nonneg d).
  unfold packet_ok, header_ok, built_packet, built_header. cbn. split_and!;
    eauto using u8_range, u16_range, u32_range, checksum_value_range; try lia.
  destruct (Z.ltb_spec 0 (blen d)); [split_and!; [done|lia|lia]|lia].
Qed.

Lemma create_packet_eq src dst seq ack hl pl fl win ex buf d :
  HEADER_LEN <= u16 hl → u16 pl = u16 hl + blen d → mem_read buf 0 (blen d) = Some d →
  create_packet src dst seq ack hl pl fl win ex buf (blen d) =
  Some (built_packet src dst seq ack hl pl fl win ex d).
Proof.
  intros H1 H2 H3. unfold create_packet. pose proof (blen_nonneg d).
  assert ((if 0 <? blen d then Some <$> mem_read buf 0 (blen d) else Some None) =
          Some (if 0 <? blen d then Some d else None)) as ->.
  { rewrite H3. by destruct (0 <? blen d). }
  cbn [mbind option_bind]. rewrite set_checksum_eq; [reflexivity|apply u16_range..|].
  unfold payload. cbn. destruct (Z.ltb_spec 0 (blen d)); cbn; [lia|].
  change (blen (A:=Z) []) with 0. lia.
Qed.

(** whatever arguments the stack passes, as long as the length fields
    describe the payload, the segment it builds is accepted by the peer's
    checksum test and parses to exactly those arguments. *)
Theorem create_packet_buf_accepted src dst seq ack hl pl fl win ex buf d :
  HEADER_LEN <= u16 hl → u16 pl = u16 hl + blen d →
  mem_read buf 0 (blen d) = Some d → Forall is_byte d →
  ∃ msg pkt,
    create_packet_buf src dst seq ack hl pl fl win ex buf (blen d) = Some msg ∧
    blen msg = u16 pl ∧ buf_to_packet msg = Some pkt ∧ tcp_check pkt = Some TRUE ∧
    pkt = built_packet src dst seq ack hl pl fl win ex d ∧ payload pkt = d.
Proof.
  intros H1 H2 H3 H4. pose proof (built_packet_ok src dst seq ack hl pl fl win ex d H1 H2 H4) as Hok.
  destruct (packet_roundtrip_ok _ Hok) as (msg & Hm & Hl & Hp).
  exists msg, (built_packet src dst seq ack hl pl fl win ex d). split_and!; try done.
  - unfold create_packet_buf. by rewrite create_packet_eq.
  - rewrite tcp_check_eq by done. f_equal. apply Z.eqb_refl || by rewrite Z.eqb_refl.
  - unfold payload. cbn. destruct (Z.ltb_spec 0 (blen d)); cbn; [done|].
    destruct d; [done|]. rewrite blen_cons in *. pose proof (blen_nonneg d). lia.
Qed.

(** ** Parsing first *)

(** Any 22 bytes are the wire form of exactly the header they parse to. *)
Lemma wire_header_surj hdr :
  Forall is_byte hdr → blen hdr = HEADER_LEN → ∃ h, header_ok h ∧ wire_header h = hdr.
Proof.
  intros Hb Hl. unfold blen, HEADER_LEN in Hl.
  do 22 (destruct hdr as [|? hdr]; [cbn in Hl; lia|]).
  destruct hdr; [|cbn in Hl; lia]. clear Hl.
  repeat match goal with H : Forall is_byte (_ :: _) |- _ => inversion H; clear H; subst end.
  match goal with
  | |- ∃ _, _ ∧ _ = [?b0;?b1;?b2;?b3;?b4;?b5;?b6;?b7;?b8;?b9;?b10;?b11;?b12;?b13;?b14;?b15;
                     ?b16;?b17;?b18;?b19;?b20;?b21] =>
    exists (mk_header (ntohs (le_value [b0; b1])) (ntohs (le_value [b2; b3]))
         (ntohl (le_value [b4; b5; b6; b7])) (ntohl (le_value [b8; b9; b10; b11]))
         (ntohs (le_value [b12; b13])) (ntohs (le_value [b14; b15])) b16
         (ntohs (le_value [b17; b18])) b19 (ntohs (le_value [b20; b21])))
  end.
  split.
  - unfold header_ok, is_u8; cbn -[ntohs ntohl le_value Z.pow].
    split_and!; try apply htons_range; try apply htonl_range;
      change (2 ^ 8) with 256; unfold is_byte in *; lia.
  - unfold wire_header.
    cbn [source_port destination_port seq_num ack_num hlen plen flags advertised_window
         ext checksum].
    rewrite !le_bytes_htons_ntohs, !le_bytes_htonl_ntohl by
      first [ reflexivity | repeat apply Forall_cons_2; first [ assumption | apply Forall_nil_2 ] ].
    cbn [le_bytes app]. unfold is_byte in *. by rewrite !Z.mod_small by lia.
Qed.

(** parsing loses nothing: a received block with the standard header
    length and an honest length field is rebuilt byte for byte from the packet
    [buf_to_packet] makes of it. *)
Theorem parse_roundtrip msg :
  Forall is_byte msg → HEADER_LEN <= blen msg →
  get_hlen msg = Some HEADER_LEN → get_plen msg = Some (blen msg) →
  ∃ p, buf_to_packet msg = Some p ∧ packet_ok p ∧ packet_to_buf p = Some msg.
Proof.
  intros Hb Hl Hh Hp. unfold blen, HEADER_LEN in Hl.
  rewrite <- (take_drop 22 msg) in *. remember (take 22 msg) as hdr.
  remember (drop 22 msg) as d. apply Forall_app in Hb as [Hb1 Hb2].
  assert (Hlh : blen hdr = HEADER_LEN).
  { subst. unfold blen. rewrite length_take. unfold HEADER_LEN.
    rewrite length_app, length_take, length_drop in Hl. lia. }
  clear Heqhdr Heqd. destruct (wire_header_surj _ Hb1 Hlh) as (h & Hok & <-).
  pose proof (wire_header_fields h d Hok) as Hf.
  rewrite (fo_hlen _ _ Hf) in Hh. rewrite (fo_plen _ _ Hf) in Hp.
  apply (inj Some) in Hh, Hp. rewrite blen_app, length_wire_header in Hp.
  pose proof (blen_nonneg d).
  exists (mk_packet h (if 0 <? blen d then Some d else None)).
  assert (Hpok : packet_ok (mk_packet h (if 0 <? blen d then Some d else None))).
  { split; [done|]. cbn. split; [lia|]. destruct (Z.ltb_spec 0 (blen d)); [|lia].
    split_and!; [done|lia|lia]. }
  split_and!; [|done|].
  - rewrite <- (buf_to_packet_layout h [] d); try done; [lia| |lia].
    change (blen (A:=Z) []) with 0. lia.
  - rewrite packet_to_buf_layout by done. cbn [header]. rewrite Hh. cbn.
    unfold payload. cbn. destruct (Z.ltb_spec 0 (blen d)); cbn; [done|].
    destruct d; [done|]. rewrite blen_cons in *. pose proof (blen_nonneg d). lia.
Qed.

(** ** What the checksum detects *)

(** Two well-formed packets carrying the same checksum value are
    indistinguishable to [tcp_check] exactly when their sums agree modulo
    2^16. *)
Lemma tcp_check_same_checksum p q :
  packet_ok p → packet_ok q → checksum (header q) = checksum (header p) →
  tcp_check p = Some TRUE →
  tcp_check q = Some TRUE ↔ (packet_sum q - packet_sum p) mod 65536 = 0.
Proof.
  intros Hp Hq Hc. rewrite !tcp_check_eq, Hc by done.
  rewrite <- u16_eq_iff.
  destruct (Z.eqb_spec (checksum (header p)) (65535 - u16 (packet_sum p))) as [E|];
    [intros _|discriminate].
  destruct (Z.eqb_spec (checksum (header p)) (65535 - u16 (packet_sum q))) as [E'|E'].
  - split; [intros _; lia|done].
  - split; [discriminate|intros Hm; lia].
Qed.

Lemma data_sum_cons x d : data_sum (x :: d) = schar x + data_sum d.
Proof. reflexivity. Qed.

Lemma data_sum_insert d i b b' :
  d !! i = Some b → data_sum (<[i := b']> d) = data_sum d - schar b + schar b'.
Proof.
  revert d; induction i as [|i IH]; intros [|x d] H; try discriminate.
  - injection H as ->. cbn [insert list_insert]. rewrite !data_sum_cons. lia.
  - change (<[S i := b']> (x :: d)) with (x :: <[i := b']> d).
    rewrite !data_sum_cons, (IH _ H). lia.
Qed.

Lemma packet_sum_data p d :
  packet_sum (p⟨data := Some d⟩) = header_sum (header p) + data_sum d.
Proof. reflexivity. Qed.

Lemma schar_inj_mod b b' :
  is_byte b → is_byte b' → (schar b' - schar b) mod 65536 = 0 → b = b'.
Proof.
  unfold schar, is_byte. intros ? ? H. apply Z.mod_divide in H as [k H]; [|lia].
  destruct (b' <? 128) eqn:?, (b <? 128) eqn:?; zbool; lia.
Qed.

(** C37: a corrupted payload byte is always caught: if an accepted packet has
    one byte of its payload replaced by a different value, [tcp_check] answers
    FALSE. *)
Theorem tcp_check_detects_payload_byte p d i b b' :
  packet_ok p → tcp_check p = Some TRUE → data p = Some d →
  d !! i = Some b → is_byte b' → b' ≠ b →
  tcp_check (p⟨data := Some (<[i := b']> d)⟩) = Some FALSE.
Proof.
  intros Hok Hc Hd Hi Hb' Hne.
  assert (Hb : is_byte b).
  { destruct Hok as (_ & _ & Hdat). rewrite Hd in Hdat. destruct Hdat as [Hf _].
    by eapply Forall_lookup_1. }
  assert (Hok' : packet_ok (p⟨data := Some (<[i := b']> d)⟩)).
  { destruct p as [h dd]. cbn in *. subst dd. destruct Hok as (? & ? & Hf & Hl1 & Hl2). cbn in *.
    split; [done|]. split; [done|]. cbn. unfold blen in *. rewrite length_insert.
    split; [|done]. by apply Forall_insert. }
  pose proof (tcp_check_same_checksum p _ Hok Hok' eq_refl Hc) as [Hiff _].
  rewrite tcp_check_eq in * by done.
  destruct (checksum _ =? _) in Hiff |- *; [|done].
  specialize (Hiff eq_refl). exfalso. apply Hne. symmetry. apply schar_inj_mod; try done.
  rewrite packet_sum_data, (data_sum_insert _ _ _ _ Hi) in Hiff.
  unfold packet_sum, payload in Hiff. rewrite Hd in Hiff. cbn [from_option id] in Hiff.
  match type of Hiff with ?x mod _ = 0 =>
    replace x with (schar b' - schar b) in Hiff by lia end. done.
Qed.

(** the checksum adds the 32-bit sequence and acknowledgement numbers into
    a 16-bit accumulator, so their upper halves are not protected: any
    sequence and acknowledgement numbers with the same lower halves are
    accepted in place of the sent ones. *)
Theorem tcp_check_ignores_high_halves p s a :
  packet_ok p → tcp_check p = Some TRUE → is_u32 s → is_u32 a →
  u16 s = u16 (seq_num (header p)) → u16 a = u16 (ack_num (header p)) →
  tcp_check (p⟨header := (header p)⟨seq_num := s⟩⟨ack_num := a⟩⟩) = Some TRUE.
Proof.
  intros Hok Hc Hs Ha Es Ea.
  assert (Hok' : packet_ok (p⟨header := (header p)⟨seq_num := s⟩⟨ack_num := a⟩⟩)).
  { destruct p as [h dd]. destruct Hok as (Hh & ? & ?). unfold packet_ok, header_ok in *.
    cbn in *. tauto. }
  apply (tcp_check_same_checksum p _ Hok Hok' eq_refl Hc).
  apply u16_eq_iff in Es, Ea. apply Z.mod_divide in Es as [k Es], Ea as [j Ea]; [|lia..].
  apply Z.mod_divide; [lia|]. exists (- k - j).
  unfold packet_sum, payload, header_sum. simpl. lia.
Qed.

Lemma data_sum_perm d d' : d ≡ₚ d' → data_sum d = data_sum d'.
Proof. induction 1; rewrite ?data_sum_cons in *; lia. Qed.

(** the checksum is a plain sum, so a payload whose bytes arrive in
    another order is accepted. *)
Theorem tcp_check_ignores_payload_order p d d' :
  packet_ok p → tcp_check p = Some TRUE → data p = Some d → d ≡ₚ d' →
  tcp_check (p⟨data := Some d'⟩) = Some TRUE.
Proof.
  intros Hok Hc Hd Hp.
  assert (Hok' : packet_ok (p⟨data := Some d'⟩)).
  { destruct p as [h dd]. cbn in *. subst dd. destruct Hok as (? & ? & Hf & Hl1 & Hl2).
    split; [done|]. split; [done|]. cbn in *. unfold blen in *.
    rewrite <- (Permutation_length Hp). split; [by eapply Forall_Permutation; [..|exact Hf]|done]. }
  apply (tcp_check_same_checksum p _ Hok Hok' eq_refl Hc).
  unfold packet_sum at 2, payload. rewrite packet_sum_data, Hd. cbn [from_option id].
  rewrite (data_sum_perm _ _ Hp).
  by rewrite Z.sub_diag.
Qed.

(** ** Witnesses *)

Definition sample_payload : list Z := [104; 105; 200].
Definition sample_packet : tju_packet_t :=
  built_packet 5678 1234 70000 3 22 25 16 100 0 sample_payload.

Lemma sample_packet_ok : packet_ok sample_packet.
Proof. apply built_packet_ok; [done|done|repeat constructor; lia]. Qed.

Lemma packet_roundtrip_witness :
  ∃ buf, packet_to_buf sample_packet = Some buf ∧ blen buf = 25 ∧
         buf_to_packet buf = Some sample_packet.
Proof. exact (packet_roundtrip sample_packet sample_packet_ok). Defined.

Lemma create_packet_buf_accepted_witness :
  ∃ msg pkt,
    create_packet_buf 5678 1234 70000 3 22 25 16 100 0 sample_payload 3 = Some msg ∧
    blen msg = 25 ∧ buf_to_packet msg = Some pkt ∧ tcp_check pkt = Some TRUE ∧
    pkt = sample_packet ∧ payload pkt = sample_payload.
Proof.
  apply (create_packet_buf_accepted 5678 1234 70000 3 22 25 16 100 0 sample_payload
           sample_payload); [done|done|done|repeat constructor; lia].
Defined.

Definition sample_msg : list Z := default [] (packet_to_buf sample_packet).

Lemma parse_roundtrip_witness :
  ∃ p, buf_to_packet sample_msg = Some p ∧ packet_ok p ∧ packet_to_buf p = Some sample_msg.
Proof.
  apply (parse_roundtrip sample_msg); [|vm_compute; congruence|reflexivity|reflexivity].
  apply (bool_decide_unpack _). vm_compute. exact I.
Defined.


Lemma tcp_check_detects_payload_byte_witness :
  tcp_check (sample_packet⟨data := Some (<[1%nat := 7]> sample_payload)⟩) = Some FALSE.
Proof.
  apply (tcp_check_detects_payload_byte sample_packet sample_payload 1 105 7);
    [exact sample_packet_ok|reflexivity|reflexivity|reflexivity|split; lia|lia].
Defined.

Lemma tcp_check_ignores_high_halves_witness :
  tcp_check (sample_packet⟨header := (header sample_packet)⟨seq_num := 4464⟩⟨ack_num := 65539⟩⟩)
  = Some TRUE.
Proof.
  apply (tcp_check_ignores_high_halves sample_packet 4464 65539);
    [exact sample_packet_ok|reflexivity|split; lia|split; lia|reflexivity|reflexivity].
Defined.

Lemma tcp_check_ignores_payload_order_witness :
  tcp_check (sample_packet⟨data := Some [105; 104; 200]⟩) = Some TRUE.
Proof.
  apply (tcp_check_ignores_payload_order sample_packet sample_payload [105; 104; 200]);
    [exact sample_packet_ok|reflexivity|reflexivity|constructor].
Defined.

(** ** Header-only segments *)

Definition segment_header (src dst seq ack flags win : Z) : tju_header_t :=
  header (built_packet src dst seq ack HEADER_LEN HEADER_LEN flags win 0 []).

Definition segment (src dst seq ack flags win : Z) : list Z :=
  wire_header (segment_header src dst seq ack flags win).

Lemma segment_eq src dst seq ack fl win :
  create_packet_buf src dst seq ack HEADER_LEN HEADER_LEN fl win 0 [] 0 =
  Some (segment src dst seq ack fl win).
Proof.
  unfold create_packet_buf. change 0 with (blen (A:=Z) []) at 2.
  rewrite create_packet_eq by done. cbn [mbind option_bind].
  rewrite packet_to_buf_layout by (apply built_packet_ok; done || constructor).
  unfold segment, segment_header, payload.
  cbn [built_packet header data set_field blen from_option]. simpl. done.
Qed.

Lemma segment_length src dst seq ack fl win : blen (segment src dst seq ack fl win) = HEADER_LEN.
Proof. reflexivity. Qed.

Lemma segment_fields src dst seq ack fl win :
  fields_of (segment src dst seq ack fl win) (segment_header src dst seq ack fl win).
Proof.
  unfold segment. rewrite <- (app_nil_r (wire_header _)). apply wire_header_fields.
  apply (built_packet_ok src dst seq ack HEADER_LEN HEADER_LEN fl win 0 []); done || constructor.
Qed.

(** ** Data segments *)

Definition data_header (src dst seq fl win : Z) (d : list Z) : tju_header_t :=
  header (built_packet src dst seq 0 DEFAULT_HEADER_LEN (u16 (DEFAULT_HEADER_LEN + blen d)) fl win 0 d).

Definition data_segment (src dst seq fl win : Z) (d : list Z) : list Z :=
  wire_header (data_header src dst seq fl win d) ++ d.

Section data_segments.
Context (src dst seq fl win : Z) (d : list Z).
Hypothesis Hlen : DEFAULT_HEADER_LEN + blen d < 2 ^ 16.
Hypothesis Hbytes : Forall is_byte d.

Lemma data_plen : u16 (u16 (DEFAULT_HEADER_LEN + blen d)) = u16 DEFAULT_HEADER_LEN + blen d.
Proof using Hlen.
  clear Hbytes. pose proof (blen_nonneg d).
  assert (is_u16 (DEFAULT_HEADER_LEN + blen d)) as Hu
    by (clear - Hlen H; unfold DEFAULT_HEADER_LEN in *; widths; lia).
  rewrite (u16_id _ Hu), (u16_id _ Hu). done.
Qed.

Lemma data_packet_ok :
  packet_ok (built_packet src dst seq 0 DEFAULT_HEADER_LEN
               (u16 (DEFAULT_HEADER_LEN + blen d)) fl win 0 d).
Proof using Hlen Hbytes. by apply built_packet_ok; [|apply data_plen|]. Qed.

Lemma data_segment_eq :
  create_packet_buf src dst seq 0 DEFAULT_HEADER_LEN (u16 (DEFAULT_HEADER_LEN + blen d)) fl win 0
    d (blen d) = Some (data_segment src dst seq fl win d).
Proof using Hlen Hbytes.
  unfold create_packet_buf. rewrite create_packet_eq;
    [|done|apply data_plen|by apply mem_read_full]. cbn [mbind option_bind].
  rewrite packet_to_buf_layout by apply data_packet_ok. unfold data_segment, data_header. do 2 f_equal.
  unfold payload, built_packet. cbn. pose proof (blen_nonneg d) as H0.
  destruct (Z.ltb_spec 0 (blen d)) as [H1|H1]; cbn; [done|].
  symmetry. apply blen_zero. lia.
Qed.

Lemma data_segment_length : blen (data_segment src dst seq fl win d) = DEFAULT_HEADER_LEN + blen d.
Proof using. unfold data_segment. by rewrite blen_app. Qed.

Lemma data_segment_fields :
  fields_of (data_segment src dst seq fl win d) (data_header src dst seq fl win d).
Proof using Hlen Hbytes. apply wire_header_fields. apply header_of_packet_ok, data_packet_ok. Qed.

Lemma data_segment_payload :
  mem_read (data_segment src dst seq fl win d) DEFAULT_HEADER_LEN (blen d) = Some d.
Proof using. by apply mem_read_tail. Qed.

Lemma data_header_plen : plen (data_header src dst seq fl win d) = DEFAULT_HEADER_LEN + blen d.
Proof using Hlen. unfold data_header. cbn. rewrite data_plen. done. Qed.

End data_segments.

(** A length that does not fit the 16-bit [plen] cuts the payload. *)
Lemma checksum_data_take n d c :
  (n <= length d)%nat → checksum_data n (take n d) c = checksum_data n d c.
Proof.
  revert d c. induction n as [|n IH]; intros [|x d] c Hn; cbn in *; try done; try lia.
  apply IH. lia.
Qed.

Lemma put_field_Some bs m o m' o' :
  put_field bs (m, o) = Some (m', o') → o' = o + blen bs ∧ o' <= blen m' ∧ blen m' = blen m.
Proof.
  unfold put_field. cbn. intros Hp. opt_inv.
  match goal with H : mem_write _ _ _ = Some _ |- _ =>
    pose proof (mem_write_length _ _ _ _ H); apply mem_write_Some in H as (_ & ? & _) end. lia.
Qed.

Lemma header_in_char_plen src dst seq ack hl pl fl win ex ck msg :
  header_in_char src dst seq ack hl pl fl win ex ck = Some msg → 0 <= pl → HEADER_LEN <= pl.
Proof.
  unfold header_in_char. intros Hm Hpl. opt_inv.
  repeat match goal with x : (list Z * Z)%type |- _ => destruct x end.
  repeat match goal with H : put_field _ _ = Some _ |- _ => apply put_field_Some in H as (? & ? & ?) end.
  subst. rewrite !blen_le_bytes in *. rewrite blen_replicate in * by lia.
  unfold HEADER_LEN. cbn [fst] in *. lia.
Qed.

Lemma packet_to_buf_cut h d d' :
  0 <= plen h - hlen h → d' = take (Z.to_nat (plen h - hlen h)) d → plen h - hlen h <= blen d →
  packet_to_buf (mk_packet h (Some d)) =
  packet_to_buf (mk_packet h (if 0 <? blen d' then Some d' else None)).
Proof.
  intros H0 -> Hd. unfold packet_to_buf. cbn [header data from_option id].
  destruct (header_in_char _ _ _ _ _ _ _ _ _ _) as [msg|]; [|done]. cbn [mbind option_bind].
  destruct (Z.ltb_spec (hlen h) (plen h)) as [Hlt|]; [|done].
  assert (blen (take (Z.to_nat (plen h - hlen h)) d) = plen h - hlen h) as Hl
    by (unfold blen in *; rewrite length_take; lia).
  rewrite Hl. zdecide_true (0 <? plen h - hlen h). cbn [from_option id].
  set (e := take _ d) in *.
  rewrite (mem_read_full e) by done.
  assert (mem_read d 0 (plen h - hlen h) = Some e) as ->; [|done].
  apply mem_read_Some. split_and!; [lia..|]. by rewrite drop_0.
Qed.

Lemma set_checksum_cut h d d' :
  0 <= plen h - hlen h → d' = take (Z.to_nat (plen h - hlen h)) d → plen h - hlen h <= blen d →
  ∃ c, set_checksum (mk_packet h (Some d)) = Some (mk_packet (h⟨checksum := c⟩) (Some d)) ∧
       set_checksum (mk_packet h (if 0 <? blen d' then Some d' else None)) =
         Some (mk_packet (h⟨checksum := c⟩) (if 0 <? blen d' then Some d' else None)).
Proof.
  intros H0 -> Hd. set (e := take _ d).
  assert (default [] (if 0 <? blen e then Some e else None) = e) as He.
  { destruct (Z.ltb_spec 0 (blen e)); [done|]. pose proof (blen_nonneg e).
    symmetry. cbn. apply blen_zero. lia. }
  assert (length e = Z.to_nat (plen h - hlen h)) as Hl
    by (unfold e, blen in *; rewrite length_take; lia).
  unfold set_checksum, tcp_compute_checksum. cbn [header data]. rewrite He.
  assert (∀ c0, checksum_data (Z.to_nat (plen h - hlen h)) d c0 =
                checksum_data (Z.to_nat (plen h - hlen h)) e c0) as Hct
    by (intros c0; symmetry; apply checksum_data_take; unfold blen in *; lia).
  cbn [from_option id]. rewrite Hct. rewrite <- Hl. generalize (checksum_header h). clear.
  assert (∀ l c, ∃ c', checksum_data (length l) l c = Some c') as Hc.
  { clear. induction l as [|x l IH]; intros c; cbn; eauto. }
  intros c. destruct (Hc e c) as [c' ->]. cbn. eauto.
Qed.

Lemma create_packet_buf_cut src dst seq fl win d msg :
  Forall is_byte d → 2 ^ 16 <= DEFAULT_HEADER_LEN + blen d →
  create_packet_buf src dst seq 0 DEFAULT_HEADER_LEN (u16 (DEFAULT_HEADER_LEN + blen d)) fl win 0
    d (blen d) = Some msg →
  ∃ d', d' `prefix_of` d ∧ DEFAULT_HEADER_LEN + blen d' < 2 ^ 16 ∧
        u16 (DEFAULT_HEADER_LEN + blen d) = DEFAULT_HEADER_LEN + blen d' ∧
        msg = data_segment src dst seq fl win d'.
Proof.
  set (pl := u16 (DEFAULT_HEADER_LEN + blen d)). intros Hb Hlen Hmsg.
  pose proof (u16_range (DEFAULT_HEADER_LEN + blen d)) as Hr. fold pl in Hr.
  assert (u16 pl = pl) as Hpl by by apply u16_id.
  unfold create_packet_buf, create_packet in Hmsg. rewrite Hpl in Hmsg.
  replace (0 <? blen d) with true in Hmsg
    by (symmetry; apply Z.ltb_lt; unfold DEFAULT_HEADER_LEN in *; lia).
  rewrite mem_read_full in Hmsg by done. cbn [mbind option_bind fmap option_fmap option_map] in Hmsg.
  match type of Hmsg with context [mk_packet ?h0 _] => set (h := h0) in Hmsg end.
  assert (plen h - hlen h = pl - DEFAULT_HEADER_LEN) as Hk by reflexivity.
  assert (DEFAULT_HEADER_LEN <= pl) as Hpl22.
  { unfold set_checksum in Hmsg. opt_inv. unfold packet_to_buf in Hmsg. opt_inv.
    match goal with E : header_in_char _ _ _ _ _ _ _ _ _ _ = Some _ |- _ =>
      apply header_in_char_plen in E; [exact E|apply Hr] end. }
  set (d' := take (Z.to_nat (pl - DEFAULT_HEADER_LEN)) d).
  assert (pl - DEFAULT_HEADER_LEN <= blen d) as Hle by (widths; unfold DEFAULT_HEADER_LEN in *; lia).
  assert (blen d' = pl - DEFAULT_HEADER_LEN) as Hd'
    by (unfold d', blen in *; rewrite length_take; lia).
  exists d'. split; [apply prefix_take|]. split; [widths; lia|]. split; [lia|].
  assert (Forall is_byte d') as Hb' by by apply Forall_take.
  pose proof (data_segment_eq src dst seq fl win d' ltac:(widths; lia) Hb') as Heq.
  replace (DEFAULT_HEADER_LEN + blen d') with pl in Heq by lia. rewrite Hpl in Heq.
  unfold create_packet_buf, create_packet in Heq. rewrite Hpl in Heq.
  destruct (set_checksum_cut h d d') as (c & E1 & E2); [lia|done|lia|].
  assert ((if 0 <? blen d' then Some <$> mem_read d' 0 (blen d') else Some None) =
          Some (if 0 <? blen d' then Some d' else None)) as E3.
  { rewrite mem_read_full by done. by destruct (0 <? blen d'). }
  rewrite E3 in Heq. cbn [mbind option_bind] in Heq. fold h in Heq.
  rewrite E1 in Hmsg. rewrite E2 in Heq. cbn [mbind option_bind] in Hmsg, Heq.
  rewrite (packet_to_buf_cut _ d d') in Hmsg; [congruence| |reflexivity|].
  - change (0 <= pl - DEFAULT_HEADER_LEN). lia.
  - exact Hle.
Qed.
