(* ===== verification/RingQueue.v ===== *)
(** * The circular buffer of src/queue.c

    [queue_t] is a bounded FIFO stored in an array that wraps around.  The
    operations below follow the code statement by statement; [Fifo] is the
    abstract queue they implement, and [queue_refines_fifo] is the refinement. *)

From S2P Require Import Prelude.

(** ** Abstract bounded queue *)

Module Fifo.

Record fifo (V : Type) := mk_fifo { bound : Z; items : list V }.
Arguments mk_fifo {V} _ _.
Arguments bound {V} _.
Arguments items {V} _.

Definition add {V} (v : V) (f : fifo V) : bool * fifo V :=
  if bound f <=? blen (items f) then (false, f)
  else (true, mk_fifo (bound f) (items f ++ [v])).

Definition remove {V} (f : fifo V) : option V * fifo V :=
  match items f with
  | [] => (None, f)
  | v :: vs => (Some v, mk_fifo (bound f) vs)
  end.

Definition peek {V} (f : fifo V) : option V := head (items f).

End Fifo.

(** ** The implementation *)

Inductive errno_t := EINVAL | ENOMEM | ENOBUFS | EPIPE.

#[export] Instance errno_eq_dec : EqDecision errno_t.
Proof. solve_decision. Defined.

Definition INT_MAX : Z := 2147483647.
Definition sizeof_ptr : Z := 8.

Section queue.
Context {V : Type} (NULL : V).

Record queue_t := mk_queue {
  size : Z;
  next : Z;
  capacity : Z;
  qdata : list V
}.

#[local] Instance eta_queue : Eta queue_t := fun q =>
  mk_queue (size q) (next q) (capacity q) (qdata q).

Definition queue_at_capacity (q : queue_t) : bool := capacity q <=? size q.

(** [queue_ok] and [data_ok] say whether the two [malloc]s succeed, [garbage]
    is the content of the array [malloc] returns. *)
Definition queue_init (cap : Z) (queue_ok data_ok : bool) (garbage : list V)
    : queue_t + errno_t :=
  if INT_MAX / sizeof_ptr <? cap then inr EINVAL
  else if negb queue_ok || negb data_ok then inr ENOMEM
  else inl (mk_queue 0 0 cap garbage).

(** The result is the return value with the [errno] set, and the queue;
    [None] is an [int] overflow or a store outside the array. *)
Definition queue_add (q : queue_t) (value : V) : option ((Z * option errno_t) * queue_t) :=
  if queue_at_capacity q then Some ((-1, Some ENOBUFS), q)
  else
    pos ← int_result (next q + size q);
    pos ← (if capacity q <=? pos then int_result (pos - capacity q) else Some pos);
    data ← mem_write (qdata q) pos [value];
    size' ← int_result (size q + 1);
    Some ((0, None), q⟨qdata := data⟩⟨size := size'⟩).

Definition queue_remove (q : queue_t) : option (V * queue_t) :=
  if 0 <? size q then
    value ← mem_read (qdata q) (next q) 1;
    value ← head value;
    next' ← int_result (next q + 1);
    size' ← int_result (size q - 1);
    let q := q⟨next := next'⟩⟨size := size'⟩ in
    let q := if capacity q <=? next q then q⟨next := next q - capacity q⟩ else q in
    Some (value, q)
  else Some (NULL, q).

Definition queue_peek (q : queue_t) : option V :=
  if negb (size q =? 0)
  then value ← mem_read (qdata q) (next q) 1; head value
  else Some NULL.

(** ** Invariant and abstraction *)

Definition queue_wf (q : queue_t) : Prop :=
  0 <= size q <= capacity q ∧ capacity q <= INT_MAX / sizeof_ptr ∧
  blen (qdata q) = capacity q ∧ 0 <= next q ∧ (next q < capacity q ∨ capacity q = 0 ∧ next q = 0).

(** The elements from [next] on, wrapping around. *)
Definition queue_items (q : queue_t) : list V :=
  take (Z.to_nat (size q)) (drop (Z.to_nat (next q)) (qdata q ++ qdata q)).

Definition queue_abs (q : queue_t) : Fifo.fifo V := Fifo.mk_fifo (capacity q) (queue_items q).

(** Operations as data, and whole runs of them. *)
Inductive op := OpAdd (v : V) | OpRemove | OpPeek.
Inductive reply := RAdd (ret : Z) (err : option errno_t) | RValue (v : V).

Definition exec (o : op) (q : queue_t) : option (reply * queue_t) :=
  match o with
  | OpAdd v => r ← queue_add q v; Some (RAdd (fst (fst r)) (snd (fst r)), snd r)
  | OpRemove => r ← queue_remove q; Some (RValue (fst r), snd r)
  | OpPeek => v ← queue_peek q; Some (RValue v, q)
  end.

Fixpoint exec_all (os : list op) (q : queue_t) : option (list reply * queue_t) :=
  match os with
  | [] => Some ([], q)
  | o :: os => r ← exec o q; rs ← exec_all os (snd r); Some (fst r :: fst rs, snd rs)
  end.

Definition exec_fifo (o : op) (f : Fifo.fifo V) : reply * Fifo.fifo V :=
  match o with
  | OpAdd v =>
      let r := Fifo.add v f in
      (if fst r then RAdd 0 None else RAdd (-1) (Some ENOBUFS), snd r)
  | OpRemove => let r := Fifo.remove f in (RValue (default NULL (fst r)), snd r)
  | OpPeek => (RValue (default NULL (Fifo.peek f)), f)
  end.

Fixpoint exec_fifo_all (os : list op) (f : Fifo.fifo V) : list reply * Fifo.fifo V :=
  match os with
  | [] => ([], f)
  | o :: os => let r := exec_fifo o f in let rs := exec_fifo_all os (snd r) in
               (fst r :: fst rs, snd rs)
  end.

(** ** Lemmas *)

Lemma max_capacity : INT_MAX / sizeof_ptr = 268435455.
Proof. reflexivity. Qed.

Lemma blen_items q : queue_wf q → blen (queue_items q) = size q.
Proof.
  unfold queue_wf, queue_items, blen. rewrite max_capacity. intros.
  rewrite length_take, length_drop, length_app. lia.
Qed.

(** The [i]-th item sits in slot [next + i], minus [capacity] past the end. *)
Lemma items_lookup q i :
  queue_wf q → 0 <= i < size q →
  queue_items q !! Z.to_nat i =
  qdata q !! Z.to_nat (if capacity q <=? next q + i then next q + i - capacity q else next q + i).
Proof.
  unfold queue_wf, queue_items, blen. intros (? & ? & Hd & ? & ?) ?.
  rewrite lookup_take_lt, lookup_drop by lia.
  destruct (Z.leb_spec (capacity q) (next q + i)).
  - rewrite lookup_app_r by lia. f_equal. lia.
  - rewrite lookup_app_l by lia. f_equal. lia.
Qed.

Lemma mem_write_one (l : list V) i v :
  0 <= i < blen l → mem_write l i [v] = Some (<[Z.to_nat i := v]> l).
Proof.
  intros Hi. apply mem_write_Some. unfold blen in *. cbn [length]. split_and!; [lia|lia|].
  rewrite Nat.add_1_r. apply insert_take_drop. lia.
Qed.

Lemma mem_read_one (l : list V) i v :
  0 <= i → l !! Z.to_nat i = Some v → mem_read l i 1 = Some [v].
Proof.
  intros Hi Hv. pose proof (lookup_lt_Some _ _ _ Hv).
  apply mem_read_Some. unfold blen. split_and!; [lia..|].
  by rewrite (drop_S _ _ _ Hv).
Qed.

Lemma queue_init_wf cap garbage :
  0 <= cap <= INT_MAX / sizeof_ptr → blen garbage = cap →
  queue_init cap true true garbage = inl (mk_queue 0 0 cap garbage) ∧
  queue_wf (mk_queue 0 0 cap garbage) ∧ queue_items (mk_queue 0 0 cap garbage) = [].
Proof.
  intros ? ?. unfold queue_init, queue_wf. cbn. zif. split_and!; try done; lia.
Qed.

Lemma queue_wf_bounds q :
  queue_wf q → 0 <= size q ∧ size q <= capacity q ∧ 0 <= next q ∧ next q <= capacity q ∧
  capacity q <= 268435455 ∧ Z.of_nat (length (qdata q)) = capacity q ∧
  (0 < capacity q → next q < capacity q).
Proof. unfold queue_wf, blen. rewrite max_capacity. lia. Qed.

Ltac queue_int :=
  repeat rewrite int_result_ok by (unfold is_int; lia); cbn [mbind option_bind].

(** [queue_add] on a queue with room: appends the value, keeps the invariant. *)
Lemma queue_add_room q v :
  queue_wf q → size q < capacity q →
  ∃ q', queue_add q v = Some ((0, None), q') ∧ queue_wf q' ∧ capacity q' = capacity q ∧
        queue_items q' = queue_items q ++ [v].
Proof.
  intros Hwf Hroom. pose proof (queue_wf_bounds q Hwf) as (? & ? & ? & ? & ? & Hl & Hn).
  unfold queue_add, queue_at_capacity. zif. queue_int.
  set (pos := if capacity q <=? next q + size q then next q + size q - capacity q
              else next q + size q).
  assert (Hpos : 0 <= pos < capacity q)
    by (subst pos; destruct (Z.leb_spec (capacity q) (next q + size q)); lia).
  assert ((if capacity q <=? next q + size q then int_result (next q + size q - capacity q)
           else Some (next q + size q)) = Some pos) as ->.
  { subst pos. destruct (Z.leb_spec (capacity q) (next q + size q)); [|done].
    apply int_result_ok. unfold is_int. lia. }
  cbn [mbind option_bind]. rewrite mem_write_one by (unfold blen; lia).
  cbn [mbind option_bind]. queue_int. eexists. split; [reflexivity|].
  assert (Hwf' : queue_wf (q⟨qdata := <[Z.to_nat pos:=v]> (qdata q)⟩⟨size := size q + 1⟩)).
  { unfold queue_wf, blen in *. simpl. rewrite length_insert, max_capacity. lia. }
  split_and!; [done|done|]. apply list_eq_same_length with (n := Z.to_nat (size q + 1)).
  - rewrite length_app. pose proof (blen_items q Hwf). unfold blen in *. simpl. lia.
  - pose proof (blen_items _ Hwf'). unfold blen in *. simpl in *. lia.
  - intros i x y Hi Hx Hy. rewrite <- (Nat2Z.id i) in Hx.
    rewrite items_lookup in Hx by (simpl; first [done | lia]). simpl in Hx.
    destruct (decide (Z.of_nat i = size q)) as [E|].
    + rewrite E in Hx. fold pos in Hx. rewrite list_lookup_insert_eq in Hx by lia.
      rewrite lookup_app_r in Hy by (pose proof (blen_items q Hwf); unfold blen in *; lia).
      replace (i - length (queue_items q))%nat with 0%nat in Hy
        by (pose proof (blen_items q Hwf); unfold blen in *; lia).
      cbn in Hy. congruence.
    + rewrite lookup_app_l in Hy by (pose proof (blen_items q Hwf); unfold blen in *; lia).
      rewrite <- (Nat2Z.id i), items_lookup in Hy by (first [done | lia]).
      rewrite list_lookup_insert_ne in Hx; [congruence|].
      intros Ei. subst pos.
      destruct (Z.leb_spec (capacity q) (next q + size q)),
        (Z.leb_spec (capacity q) (next q + Z.of_nat i)); lia.
Qed.

Lemma queue_add_full q v :
  queue_wf q → size q = capacity q → queue_add q v = Some ((-1, Some ENOBUFS), q).
Proof. intros ? ?. unfold queue_add, queue_at_capacity. by zif. Qed.

Lemma queue_items_nil q : queue_wf q → size q = 0 → queue_items q = [].
Proof. intros _ E. unfold queue_items. by rewrite E. Qed.

(** The oldest item is in slot [next]. *)
Lemma queue_head q :
  queue_wf q → 0 < size q →
  ∃ v, qdata q !! Z.to_nat (next q) = Some v ∧ head (queue_items q) = Some v.
Proof.
  intros Hwf Hs. pose proof (queue_wf_bounds q Hwf) as (? & ? & ? & ? & ? & Hl & Hn).
  assert (Hlt : (Z.to_nat (next q) < length (qdata q))%nat) by lia.
  destruct (lookup_lt_is_Some_2 _ _ Hlt) as [v Hv]. exists v. split; [done|].
  rewrite head_lookup. change 0%nat with (Z.to_nat 0).
  rewrite items_lookup, Z.add_0_r by (first [done | lia]). by zif.
Qed.

Lemma queue_remove_some q :
  queue_wf q → 0 < size q →
  ∃ v vs q', queue_remove q = Some (v, q') ∧ queue_wf q' ∧ capacity q' = capacity q ∧
             queue_items q = v :: vs ∧ queue_items q' = vs.
Proof.
  intros Hwf Hs. pose proof (queue_wf_bounds q Hwf) as (? & ? & ? & ? & ? & Hl & Hn).
  destruct (queue_head q Hwf Hs) as (v & Hv & Hh).
  destruct (queue_items q) as [|v' vs] eqn:Hit; [done|]. injection Hh as ->.
  unfold queue_remove. zif. erewrite mem_read_one by (first [exact Hv | lia]).
  cbn [mbind option_bind head]. queue_int. simpl.
  set (q1 := if capacity q <=? next q + 1 then _ else _).
  assert (Hq1 : size q1 = size q - 1 ∧ capacity q1 = capacity q ∧ qdata q1 = qdata q ∧
    next q1 = if capacity q <=? next q + 1 then next q + 1 - capacity q else next q + 1).
  { subst q1. by destruct (capacity q <=? next q + 1). }
  destruct Hq1 as (Hs1 & Hc1 & Hd1 & Hn1). exists v, vs, q1.
  assert (Hwf1 : queue_wf q1).
  { unfold queue_wf, blen. rewrite Hs1, Hc1, Hd1, Hn1, max_capacity.
    destruct (Z.leb_spec (capacity q) (next q + 1)); lia. }
  pose proof (blen_items _ Hwf1) as Hb1. pose proof (blen_items _ Hwf) as Hb.
  rewrite Hit, blen_cons in Hb. unfold blen in Hb, Hb1.
  split_and!; try done. apply list_eq_same_length with (n := length vs); [done|lia|].
  intros i x y Hi Hx Hy.
  rewrite <- (Nat2Z.id i), items_lookup in Hx by (first [done | lia]).
  rewrite Hc1, Hd1, Hn1 in Hx.
  assert (Hy' : queue_items q !! Z.to_nat (Z.of_nat i + 1) = Some y).
  { rewrite Hit. replace (Z.to_nat (Z.of_nat i + 1)) with (S i) by lia. done. }
  rewrite items_lookup in Hy' by (first [done | lia]).
  assert (Some x = Some y) as Exy; [|congruence]. rewrite <- Hx, <- Hy'. f_equal. f_equal.
  destruct (Z.leb_spec (capacity q) (next q + 1)),
    (Z.leb_spec (capacity q) (next q + (Z.of_nat i + 1)));
  repeat match goal with |- context [?a <=? ?b] => destruct (Z.leb_spec a b) end; lia.
Qed.

Lemma queue_remove_none q :
  queue_wf q → size q = 0 → queue_remove q = Some (NULL, q).
Proof. intros ? E. unfold queue_remove. by rewrite E. Qed.

Lemma queue_peek_abs q :
  queue_wf q → queue_peek q = Some (default NULL (head (queue_items q))).
Proof.
  intros Hwf. pose proof (queue_wf_bounds q Hwf) as (? & ? & ? & ? & ? & Hl & Hn).
  unfold queue_peek. destruct (Z.eqb_spec (size q) 0); cbn [negb].
  - by rewrite queue_items_nil.
  - destruct (queue_head q Hwf) as (v & Hv & ->); [lia|].
    erewrite mem_read_one by (first [exact Hv | lia]). done.
Qed.

(** One operation: the implementation answers what the abstract queue answers
    and stays related to it. *)
Lemma exec_refines o q :
  queue_wf q →
  ∃ q', exec o q = Some (fst (exec_fifo o (queue_abs q)), q') ∧ queue_wf q' ∧
        queue_abs q' = snd (exec_fifo o (queue_abs q)).
Proof.
  intros Hwf. pose proof (queue_wf_bounds q Hwf) as (? & ? & ? & ? & ? & Hl & Hn).
  pose proof (blen_items q Hwf) as Hb. destruct o as [v| |]; cbn [exec exec_fifo].
  - unfold Fifo.add, queue_abs. cbn [Fifo.bound Fifo.items]. rewrite Hb.
    destruct (Z.leb_spec (capacity q) (size q)).
    + rewrite queue_add_full by (first [done | lia]). eexists. by split_and!.
    + destruct (queue_add_room q v Hwf) as (q' & -> & Hwf' & Hc & Hi); [done|].
      exists q'. cbn. rewrite Hc, Hi. by split_and!.
  - unfold Fifo.remove, queue_abs. cbn [Fifo.bound Fifo.items].
    destruct (Z.eqb_spec (size q) 0).
    + rewrite queue_remove_none, queue_items_nil by done. exists q. split_and!; try done.
      cbn. by rewrite queue_items_nil.
    + destruct (queue_remove_some q Hwf) as (v & vs & q' & -> & Hwf' & Hc & -> & Hi); [lia|].
      exists q'. cbn. rewrite Hc, Hi. by split_and!.
  - rewrite queue_peek_abs by done. eexists. by split_and!.
Qed.

(** Every sequence of operations on a queue satisfying the invariant. *)
Lemma exec_all_refines os q :
  queue_wf q →
  ∃ q', exec_all os q = Some (fst (exec_fifo_all os (queue_abs q)), q') ∧ queue_wf q' ∧
        queue_abs q' = snd (exec_fifo_all os (queue_abs q)).
Proof.
  revert q; induction os as [|o os IH]; intros q Hwf; cbn [exec_all exec_fifo_all].
  - exists q. by split_and!.
  - destruct (exec_refines o q Hwf) as (q1 & -> & Hwf1 & Habs1). cbn [mbind option_bind snd fst].
    destruct (IH q1 Hwf1) as (q2 & -> & Hwf2 & Habs2). cbn [mbind option_bind snd fst].
    rewrite Habs1 in *. exists q2. by split_and!.
Qed.

(** C13: refinement of the circular buffer: any sequence of adds, removes and
    peeks on a freshly initialised queue runs without an access outside the
    array or an [int] overflow, and returns exactly what a FIFO of the same
    capacity returns. *)
Theorem queue_refines_fifo cap garbage os :
  0 <= cap <= INT_MAX / sizeof_ptr → blen garbage = cap →
  ∃ q0 q', queue_init cap true true garbage = inl q0 ∧ queue_wf q0 ∧
    exec_all os q0 = Some (fst (exec_fifo_all os (Fifo.mk_fifo cap [])), q') ∧ queue_wf q' ∧
    queue_abs q' = snd (exec_fifo_all os (Fifo.mk_fifo cap [])).
Proof.
  intros Hc Hg. destruct (queue_init_wf cap garbage Hc Hg) as (-> & Hwf & Hi).
  destruct (exec_all_refines os _ Hwf) as (q' & H & Hwf' & Habs).
  assert (queue_abs (mk_queue 0 0 cap garbage) = Fifo.mk_fifo cap []) as Ha.
  { unfold queue_abs. by rewrite Hi. }
  rewrite Ha in *.
  exists (mk_queue 0 0 cap garbage), q'. by split_and!.
Qed.

(** The error branches of [queue_init]: an oversized capacity and a failed
    allocation are reported with their [errno]. *)
Lemma queue_init_errors cap qok dok garbage :
  queue_init cap qok dok garbage =
  if INT_MAX / sizeof_ptr <? cap then inr EINVAL
  else if qok && dok then inl (mk_queue 0 0 cap garbage) else inr ENOMEM.
Proof. unfold queue_init. destruct (_ <? _), qok, dok; reflexivity. Qed.

End queue.

(** ** The promise to the users of the queue *)

(** What a client may rely on: the laws of a bounded FIFO over the contents,
    without the array or the position of its first element. *)
Class BoundedFifo {V Q : Type} (NULL : V) (size capacity : Q → Z)
    (add : Q → V → option ((Z * option errno_t) * Q)) (remove : Q → option (V * Q)) := {
  fifo_wf : Q → Prop;
  fifo_items : Q → list V;
  fifo_size q : fifo_wf q → size q = blen (fifo_items q) ∧ size q <= capacity q;
  fifo_add q v : fifo_wf q → size q < capacity q → ∃ q', add q v = Some ((0, None), q') ∧
    fifo_wf q' ∧ capacity q' = capacity q ∧ fifo_items q' = fifo_items q ++ [v];
  fifo_remove q : fifo_wf q → 0 < size q → ∃ v vs q', remove q = Some (v, q') ∧
    fifo_wf q' ∧ capacity q' = capacity q ∧ fifo_items q = v :: vs ∧ fifo_items q' = vs
}.

#[export] Instance queue_bounded_fifo {V} (NULL : V) :
  BoundedFifo NULL size capacity queue_add (queue_remove NULL).
Proof.
  refine {| fifo_wf := queue_wf; fifo_items := queue_items |}.
  - intros q Hwf. by rewrite (blen_items q Hwf); pose proof (queue_wf_bounds q Hwf); intuition.
  - intros q v Hwf Hroom. by apply queue_add_room.
  - intros q Hwf Hs. by apply queue_remove_some.
Defined.

Lemma queue_refines_fifo_witness :
  ∃ q0 q', queue_init 2 true true [7; 7] = inl q0 ∧ queue_wf q0 ∧
    exec_all 0 [OpAdd 1; OpAdd 2; OpAdd 3; OpRemove; OpAdd 4; OpRemove; OpPeek] q0 =
    Some ([RAdd 0 None; RAdd 0 None; RAdd (-1) (Some ENOBUFS); RValue 1; RAdd 0 None;
           RValue 2; RValue 4], q') ∧ queue_wf q' ∧ queue_abs q' = Fifo.mk_fifo 2 [4].
Proof.
  apply (queue_refines_fifo 0 2 [7; 7]
    [OpAdd 1; OpAdd 2; OpAdd 3; OpRemove; OpAdd 4; OpRemove; OpPeek]);
    [vm_compute; intuition congruence|reflexivity].
Defined.
