(* ===== verification/CFloat.v ===== *)
(** * C floating point

    [float] is IEEE-754 binary32 and [double] is binary64; both are computed
    with the Standard Library's executable specification [SpecFloat]. *)

From Stdlib Require Export Floats.SpecFloat.
From S2P Require Import Prelude.

Definition f32 : Type := spec_float.
Definition f64 : Type := spec_float.

Definition f32_add (x y : f32) : f32 := SFadd 24 128 x y.
Definition f32_sub (x y : f32) : f32 := SFsub 24 128 x y.
Definition f32_mul (x y : f32) : f32 := SFmul 24 128 x y.
Definition f32_div (x y : f32) : f32 := SFdiv 24 128 x y.

(** Conversions from the integer types and between the two formats. *)
Definition f32_of_Z (z : Z) : f32 := binary_normalize 24 128 z 0 false.
Definition f64_of_Z (z : Z) : f64 := binary_normalize 53 1024 z 0 false.

Definition round_to (prec emax : Z) (x : spec_float) : spec_float :=
  match x with
  | S754_finite s m e => binary_normalize prec emax (if s then Z.neg m else Z.pos m) e s
  | _ => x
  end.
Definition f64_of_f32 (x : f32) : f64 := round_to 53 1024 x.
Definition f32_of_f64 (x : f64) : f32 := round_to 24 128 x.

(** Conversion to [int] truncates toward zero and is undefined when the
    result does not fit. *)
Definition float_trunc (x : spec_float) : option Z :=
  match x with
  | S754_zero _ => Some 0
  | S754_finite s m e =>
      let a := if 0 <=? e then Z.pos m * 2 ^ e else Z.pos m / 2 ^ (- e) in
      Some (if s then - a else a)
  | _ => None
  end.
Definition int_of_float (x : spec_float) : option Z :=
  z ← float_trunc x; int_result z.

(** The [double] literal [0.1]. *)
Definition f64_tenth : f64 := SFdiv 53 1024 (f64_of_Z 1) (f64_of_Z 10).
(** The [double] literal [0.25]. *)
Definition f64_quarter : f64 := SFdiv 53 1024 (f64_of_Z 1) (f64_of_Z 4).

Example tenth_value : f64_tenth = S754_finite false 7205759403792794 (-56).
Proof. reflexivity. Qed.
Example third_trunc : int_of_float (f32_div (f32_of_Z 1400) (f32_of_Z 3)) = Some 466.
Proof. reflexivity. Qed.

(** Signed zero is the only subtlety of adding a product by the integer 0:
    adding a zero to a non-zero finite number is exact. *)
Lemma f32_add_zero_r s m e z : f32_add (S754_finite s m e) (S754_zero z) = S754_finite s m e.
Proof. reflexivity. Qed.

Definition is_finite (x : spec_float) : bool :=
  match x with S754_zero _ | S754_finite _ _ _ => true | _ => false end.

Lemma f32_mul_zero_finite x :
  is_finite x = true → ∃ b, f32_mul (f32_of_Z 0) x = S754_zero b.
Proof. destruct x; try discriminate; intros _; eexists; reflexivity. Qed.

(** ** Integers as [double]s

    Integers below 2^53 are exact, so comparing their conversions compares the
    integers. *)

Lemma digits2_pos_spec p :
  2 ^ (Z.pos (digits2_pos p) - 1) <= Z.pos p < 2 ^ Z.pos (digits2_pos p).
Proof.
  induction p as [p IH|p IH|]; [..|done]; cbn [digits2_pos]; rewrite Pos2Z.inj_succ.
  all: unfold Z.succ; rewrite Z.add_simpl_r, Z.pow_add_r by lia.
  all: replace (Z.pos (digits2_pos p)) with (1 + (Z.pos (digits2_pos p) - 1)) at 1 by lia.
  all: rewrite Z.pow_add_r by lia; lia.
Qed.

Lemma iter_xO_value p k : Z.pos (Pos.iter xO p k) = Z.pos p * 2 ^ Z.pos k.
Proof.
  induction k as [|k IH] using Pos.peano_ind; [cbn; lia|].
  rewrite Pos.iter_succ, Pos2Z.inj_xO, IH, Pos2Z.inj_succ, Z.pow_succ_r; lia.
Qed.

Lemma digits2_iter_xO p k : digits2_pos (Pos.iter xO p k) = (digits2_pos p + k)%positive.
Proof.
  induction k as [|k IH] using Pos.peano_ind; [cbn; lia|].
  rewrite Pos.iter_succ. cbn [digits2_pos]. rewrite IH. lia.
Qed.

Lemma round_53 m e :
  Z.pos (digits2_pos m) = 53 → -1074 <= e <= 971 →
  binary_round_aux 53 1024 false (Z.pos m) e loc_Exact = S754_finite false m e.
Proof.
  intros Hd He. unfold binary_round_aux, shr_fexp, Zdigits2. rewrite Hd.
  assert (fexp 53 1024 (53 + e) - e = 0) as Hf by (unfold fexp, emin; lia).
  rewrite Hf. cbn [shr shr_record_of_loc shr_m loc_of_shr_record round_nearest_even].
  rewrite Hd, Hf. cbn [shr shr_record_of_loc shr_m]. by zif.
Qed.

(** The exact representation: mantissa of 53 bits, exponent by the number of digits. *)
Lemma f64_of_pos d :
  Z.pos d < 2 ^ 53 →
  ∃ m, f64_of_Z (Z.pos d) = S754_finite false m (Z.pos (digits2_pos d) - 53) ∧
       Z.pos m = Z.pos d * 2 ^ (53 - Z.pos (digits2_pos d)).
Proof.
  intros Hd. unfold f64_of_Z. cbn [binary_normalize]. unfold binary_round, shl_align.
  pose proof (digits2_pos_spec d) as Hs.
  assert (Z.pos (digits2_pos d) <= 53) as Hle.
  { enough (Z.pos (digits2_pos d) - 1 < 53) by lia. apply (Z.pow_lt_mono_r_iff 2); lia. }
  replace (fexp 53 1024 (Z.pos (digits2_pos d) + 0)) with (Z.pos (digits2_pos d) - 53)
    by (unfold fexp, emin; lia).
  rewrite Z.sub_0_r. destruct (Z.pos (digits2_pos d) - 53) as [|k|k] eqn:E; [| lia |].
  - exists d. split; [apply round_53; lia|].
    replace (53 - Z.pos (digits2_pos d)) with 0 by lia. lia.
  - exists (Pos.iter xO d k). split; [apply round_53; [rewrite digits2_iter_xO|]; lia|].
    rewrite iter_xO_value. f_equal. f_equal. lia.
Qed.

Lemma SFltb_f64_of_Z a b :
  0 <= a < 2 ^ 53 → 0 <= b < 2 ^ 53 → SFltb (f64_of_Z a) (f64_of_Z b) = (a <? b).
Proof.
  intros Ha Hb. destruct a as [|p|p], b as [|q|q]; try lia; [done|..].
  - pose proof (f64_of_pos q ltac:(lia)) as (n & Eq & _). by rewrite Eq.
  - pose proof (f64_of_pos p ltac:(lia)) as (m & Ep & _). by rewrite Ep.
  - pose proof (f64_of_pos p ltac:(lia)) as (m & Ep & Hm).
    pose proof (f64_of_pos q ltac:(lia)) as (n & Eq & Hn). rewrite Ep, Eq. clear Ep Eq.
    pose proof (digits2_pos_spec p) as Hp. pose proof (digits2_pos_spec q) as Hq.
    set (dp := Z.pos (digits2_pos p)) in *. set (dq := Z.pos (digits2_pos q)) in *.
    unfold SFltb, SFcompare. destruct (Z.compare_spec (dp - 53) (dq - 53)) as [E|E|E].
    + assert (dp = dq) as Edq by lia. rewrite Edq in *. clear E Edq dp.
      change (PosDef.Pos.compare_cont Eq m n) with (Z.pos m ?= Z.pos n). rewrite Hm, Hn.
      assert (0 < 2 ^ (53 - dq)) as Hpow.
      { apply Z.pow_pos_nonneg; [lia|].
        enough (dq - 1 < 53) by lia. apply (Z.pow_lt_mono_r_iff 2); lia. }
      rewrite <- Zmult_compare_compat_r by lia. unfold Z.ltb. by destruct (_ ?= _).
    + symmetry. apply Z.ltb_lt. assert (2 ^ dp <= 2 ^ (dq - 1)); [|lia].
      apply Z.pow_le_mono_r; lia.
    + symmetry. apply Z.ltb_ge. assert (2 ^ dq <= 2 ^ (dp - 1)); [|lia].
      apply Z.pow_le_mono_r; lia.
Qed.

(** ** Sign

    Rounding keeps the sign, so products and quotients of floats that are not
    negative are not negative. *)

Definition nonneg_float (x : spec_float) : bool :=
  match x with
  | S754_finite true _ _ | S754_infinity true | S754_zero true => false
  | _ => true
  end.

Lemma binary_round_aux_nonneg prec emax m e l :
  nonneg_float (binary_round_aux prec emax false m e l) = true.
Proof.
  unfold binary_round_aux. repeat (case_match; try done).
Qed.

Lemma f32_of_Z_nonneg z : 0 <= z → nonneg_float (f32_of_Z z) = true.
Proof.
  intros Hz. unfold f32_of_Z. destruct z as [|p|p]; [done| |lia].
  cbn [binary_normalize]. unfold binary_round. case_match. apply binary_round_aux_nonneg.
Qed.

Lemma f32_mul_nonneg x y :
  nonneg_float x = true → nonneg_float y = true → nonneg_float (f32_mul x y) = true.
Proof.
  unfold f32_mul, SFmul. destruct x as [[]|[]| |[] ? ?], y as [[]|[]| |[] ? ?]; try done.
  intros _ _. apply binary_round_aux_nonneg.
Qed.

Lemma f32_div_nonneg x y :
  nonneg_float x = true → nonneg_float y = true → nonneg_float (f32_div x y) = true.
Proof.
  unfold f32_div, SFdiv. destruct x as [[]|[]| |[] ? ?], y as [[]|[]| |[] ? ?]; try done.
  intros _ _. case_match. case_match. apply binary_round_aux_nonneg.
Qed.

Lemma int_of_float_nonneg x z : nonneg_float x = true → int_of_float x = Some z → 0 <= z.
Proof.
  unfold int_of_float. intros Hx Hz. opt_inv. apply int_result_Some in Hz as [-> _].
  destruct x as [[]|[]| |[] m e]; cbn in *; try discriminate; opt_inv; try lia.
  case_match; zbool.
  - apply Z.mul_nonneg_nonneg; [lia|]. apply Z.pow_nonneg. lia.
  - apply Z.div_pos; [lia|]. apply Z.pow_pos_nonneg; lia.
Qed.
