(* ===== verification/Machine.v ===== *)
(** * The machine: sockets, heap, threads and the effects of the code

    The data structures of include/tju_tcp.h, include/timer.h,
    include/sockqueue.h and include/tcp_manager.h, the heap they live in, and
    the monad the functions of the stack are written in. *)

From S2P Require Import Prelude Consts CFloat.

(** ** Data *)

Abbreviation loc := positive.

Record tju_sock_addr := mk_addr { ip : Z; port : Z }.

#[export] Instance addr_eq_dec : EqDecision tju_sock_addr.
Proof. solve_decision. Defined.

(** [ack_cnt] and its lock are never used by the code. *)
Record sender_window_t := mk_snd {
  send_windows : loc;
  window_size : Z;
  base : Z;
  nextseq : Z;
  rwnd : Z
}.
#[export] Instance eta_snd : Eta sender_window_t := fun r =>
  mk_snd (send_windows r) (window_size r) (base r) (nextseq r) (rwnd r).

(** The arrays [buf] and [marked] are never used by the code. *)
Record receiver_window_t := mk_rcv {
  receiver_window : loc;
  expect_seq : Z
}.
#[export] Instance eta_rcv : Eta receiver_window_t := fun r =>
  mk_rcv (receiver_window r) (expect_seq r).

(** The only callback ever registered. *)
Inductive callback_t := Cb_tcp_write_timer_handler.

Record rtt_timer_t := mk_timer {
  estimated_rtt : f32;
  dev_rtt : f32;
  timeout : f32;
  callback : callback_t;
  timer_thread : option loc;
  started : Z;
  timer_lock : bool
}.
#[export] Instance eta_timer : Eta rtt_timer_t := fun r =>
  mk_timer (estimated_rtt r) (dev_rtt r) (timeout r) (callback r) (timer_thread r)
    (started r) (timer_lock r).

(** A pointer that may be null is an [option loc]; a mutex is the boolean "is
    held"; the condition variable [wait_cond] is never used. *)
Record tju_tcp_t := mk_sock {
  state : Z;
  bind_addr : tju_sock_addr;
  established_local_addr : tju_sock_addr;
  established_remote_addr : tju_sock_addr;
  send_lock : bool;
  send_thread : option loc;
  sending_buf : loc;
  sending_len : Z;
  sending_capacity : Z;
  recv_lock : bool;
  received_buf : option loc;
  received_len : Z;
  received_capacity : Z;
  wnd_send : loc;
  wnd_recv : loc;
  saved_syn : Z;
  signal_lock : bool;
  interrupt_signal : Z;
  rtt_timer : loc;
  timeout_counts : Z;
  syn_queue : loc;
  accept_queue : loc;
  con_status : Z;
  cwnd : Z;
  ssthresh : Z;
  listen_state : list Z;
  finished_handshake : Z
}.
#[export] Instance eta_sock : Eta tju_tcp_t := fun r =>
  mk_sock (state r) (bind_addr r) (established_local_addr r) (established_remote_addr r)
    (send_lock r) (send_thread r) (sending_buf r) (sending_len r) (sending_capacity r)
    (recv_lock r) (received_buf r) (received_len r) (received_capacity r)
    (wnd_send r) (wnd_recv r) (saved_syn r) (signal_lock r) (interrupt_signal r)
    (rtt_timer r) (timeout_counts r) (syn_queue r) (accept_queue r)
    (con_status r) (cwnd r) (ssthresh r) (listen_state r) (finished_handshake r).

Record sock_node := mk_node { node_data : loc; node_next : option loc }.
#[export] Instance eta_node : Eta sock_node := fun r => mk_node (node_data r) (node_next r).

Record sock_queue := mk_sockqueue { q_size : Z; q_base : option loc }.
#[export] Instance eta_sockqueue : Eta sock_queue := fun r => mk_sockqueue (q_size r) (q_base r).

Record tcp_manager_t := mk_manager {
  listen_queue : list (option loc);
  established_queue : list (option loc);
  connect_sock : list (option loc);
  is_server : Z
}.
#[export] Instance eta_manager : Eta tcp_manager_t := fun r =>
  mk_manager (listen_queue r) (established_queue r) (connect_sock r) (is_server r).

(** ** The world

    [thread] records what a created thread runs; [th_done] is set when its
    function returns. *)

Inductive thread_body :=
  | Run_tcp_check_timeout (s : loc)
  | Run_tcp_send_stream (s : loc)
  | Run_receive_thread.
Record thread := mk_thread { th_body : thread_body; th_done : bool }.
#[export] Instance eta_thread : Eta thread := fun r => mk_thread (th_body r) (th_done r).

Record world := mk_world {
  w_socks : gmap loc tju_tcp_t;
  w_snds : gmap loc sender_window_t;
  w_rcvs : gmap loc receiver_window_t;
  w_timers : gmap loc rtt_timer_t;
  w_queues : gmap loc sock_queue;
  w_nodes : gmap loc sock_node;
  w_bufs : gmap loc (list Z);
  w_threads : gmap loc thread;
  w_next : loc;
  w_manager : option tcp_manager_t;
  w_self : option loc;
  w_clock : Z;
  w_sent : list (list Z)
}.
#[export] Instance eta_world : Eta world := fun r =>
  mk_world (w_socks r) (w_snds r) (w_rcvs r) (w_timers r) (w_queues r) (w_nodes r) (w_bufs r)
    (w_threads r) (w_next r) (w_manager r) (w_self r) (w_clock r) (w_sent r).

(** The host the program runs on, by [gethostname]. *)
Inductive host_t := Host_server | Host_client | Host_other.

(** What the program takes from its environment: the host, and the
    unspecified content of the memory [malloc] returns at each address. *)
Class Env := {
  env_host : host_t;
  junk_sock : loc → tju_tcp_t;
  junk_snd : loc → sender_window_t;
  junk_rcv : loc → receiver_window_t;
  junk_timer : loc → rtt_timer_t;
  junk_byte : loc → nat → Z;
  junk_is_server : Z
}.

Definition junk_block `{Env} (p : loc) (n : Z) : list Z :=
  junk_byte p <$> seq 0 (Z.to_nat n).

(** ** Effects

    A function runs until it returns ([Done]), waits for a condition that other
    threads must establish ([Wait]: a mutex, a join, a sleep or a busy loop; it
    may resume in any world where the guard holds), executes undefined
    behaviour ([Undef]) or calls [exit] ([Exit]).  The loops of the model that
    are not structural carry fuel; [OutOfFuel] is its exhaustion. *)

Inductive ub :=
  | BadPointer      (* null, dangling or wild pointer *)
  | OutOfBounds     (* access outside a block or an array *)
  | OverlappingCopy (* memcpy between overlapping regions *)
  | BadMutex        (* unlocking a mutex that is not held *)
  | IntOverflow     (* signed overflow, or a float outside the int range *)
  | BadJoin         (* joining something that is not a thread *)
  | Uninitialized.  (* reading an uninitialised local variable *)

Inductive outcome (A : Type) :=
  | Done (a : A) (w : world)
  | Wait (guard : world → option bool) (w : world) (k : world → outcome A)
  | Undef (u : ub)
  | Exit (code : Z) (w : world)
  | OutOfFuel.
Arguments Done {A} _ _.
Arguments Wait {A} _ _ _.
Arguments Undef {A} _.
Arguments Exit {A} _ _.
Arguments OutOfFuel {A}.

Definition M (A : Type) : Type := world → outcome A.

Fixpoint obind {A B} (f : A → M B) (o : outcome A) : outcome B :=
  match o with
  | Done a w => f a w
  | Wait g w k => Wait g w (fun w' => obind f (k w'))
  | Undef u => Undef u
  | Exit c w => Exit c w
  | OutOfFuel => OutOfFuel
  end.

#[export] Instance M_ret : MRet M := fun A a w => Done a w.
#[export] Instance M_bind : MBind M := fun A B f m w => obind f (m w).

Definition undef {A} (u : ub) : M A := fun _ => Undef u.
Definition out_of_fuel {A} : M A := fun _ => OutOfFuel.
Definition exit {A} (code : Z) : M A := fun w => Exit code w.
Definition lift {A} (u : ub) (o : option A) : M A :=
  match o with Some a => mret a | None => undef u end.
Definition get_world : M world := fun w => Done w w.
Definition update (f : world → world) : M unit := fun w => Done tt (f w).

(** Waits until [g]; a guard that cannot be evaluated is undefined. *)
Definition await (g : world → option bool) : M unit := fun w =>
  match g w with
  | None => Undef BadPointer
  | Some true => Done tt w
  | Some false => Wait g w (fun w' => Done tt w')
  end.

(** A preemption point: the scheduler may let any other thread run here, and this
    one goes on whenever its turn comes. *)
Definition preempt : M unit := fun w => Wait (fun _ => Some true) w (fun w' => Done tt w').

(** What becomes of a thread that is never interrupted while it can go on. *)
Fixpoint alone {A} (o : outcome A) : outcome A :=
  match o with
  | Wait g w k => match g w with Some true => alone (k w) | _ => Wait g w k end
  | _ => o
  end.

(** ** Typed heap access *)

Class Heap (T : Type) := {
  heap_of : world → gmap loc T;
  heap_upd : (gmap loc T → gmap loc T) → world → world
}.

#[export] Instance heap_socks : Heap tju_tcp_t := {
  heap_of := w_socks; heap_upd f w := w⟨w_socks := f (w_socks w)⟩ }.
#[export] Instance heap_snds : Heap sender_window_t := {
  heap_of := w_snds; heap_upd f w := w⟨w_snds := f (w_snds w)⟩ }.
#[export] Instance heap_rcvs : Heap receiver_window_t := {
  heap_of := w_rcvs; heap_upd f w := w⟨w_rcvs := f (w_rcvs w)⟩ }.
#[export] Instance heap_timers : Heap rtt_timer_t := {
  heap_of := w_timers; heap_upd f w := w⟨w_timers := f (w_timers w)⟩ }.
#[export] Instance heap_queues : Heap sock_queue := {
  heap_of := w_queues; heap_upd f w := w⟨w_queues := f (w_queues w)⟩ }.
#[export] Instance heap_nodes : Heap sock_node := {
  heap_of := w_nodes; heap_upd f w := w⟨w_nodes := f (w_nodes w)⟩ }.
#[export] Instance heap_bufs : Heap (list Z) := {
  heap_of := w_bufs; heap_upd f w := w⟨w_bufs := f (w_bufs w)⟩ }.
#[export] Instance heap_threads : Heap thread := {
  heap_of := w_threads; heap_upd f w := w⟨w_threads := f (w_threads w)⟩ }.

Section heap.
Context {T : Type} `{Heap T}.

Definition load (p : loc) : M T := fun w =>
  match heap_of w !! p with Some x => Done x w | None => Undef BadPointer end.
Definition store (p : loc) (x : T) : M unit := fun w =>
  match heap_of w !! p with
  | Some _ => Done tt (heap_upd <[p := x]> w)
  | None => Undef BadPointer
  end.
Definition modify (p : loc) (f : T → T) : M unit := x ← load p; store p (f x).
Definition free (p : loc) : M unit := fun w =>
  match heap_of w !! p with
  | Some _ => Done tt (heap_upd (delete p) w)
  | None => Undef BadPointer
  end.
(** [malloc] of one object; it returns a fresh address and does not fail. *)
Definition alloc (x : loc → T) : M loc := fun w =>
  let p := w_next w in
  Done p (heap_upd <[p := x p]> w⟨w_next := Pos.succ p⟩).

(** Mutexes stored in a field. *)
Definition pthread_mutex_lock (p : loc) (f : T → bool) `{!Setter f} : M unit :=
  await (fun w => x ← heap_of w !! p; Some (negb (f x)));;
  modify p (set_field f (fun _ => true)).
Definition pthread_mutex_unlock (p : loc) (f : T → bool) `{!Setter f} : M unit :=
  x ← load p;
  if f x then store p (set_field f (fun _ => false) x) else undef BadMutex.
End heap.

Abbreviation load_sock := (load (T := tju_tcp_t)).
Abbreviation load_snd := (load (T := sender_window_t)).
Abbreviation load_rcv := (load (T := receiver_window_t)).
Abbreviation load_timer := (load (T := rtt_timer_t)).
Abbreviation load_queue := (load (T := sock_queue)).
Abbreviation load_node := (load (T := sock_node)).
Abbreviation load_buf := (load (T := list Z)).

(** ** Byte blocks, threads, time *)

Definition malloc `{Env} (n : Z) : M loc := alloc (fun p => junk_block p n).

(** [memcpy] into the block [p]. *)
Definition copy_in (p : loc) (off : Z) (bs : list Z) : M unit :=
  buf ← load p; buf' ← lift OutOfBounds (mem_write buf off bs); store p buf'.
(** [memcpy] out of the block [p]. *)
Definition copy_out (p : loc) (off n : Z) : M (list Z) :=
  buf ← load p; lift OutOfBounds (mem_read buf off n).
(** [memcpy] inside one block: the two regions may not overlap. *)
Definition copy_within (p : loc) (dst src n : Z) : M unit :=
  bs ← copy_out p src n;
  if (dst <? src + n) && (src <? dst + n) then undef OverlappingCopy else copy_in p dst bs.

(** [realloc]: a zero size frees the block and returns the null pointer
    (glibc); otherwise the content moves to a new block. *)
Definition realloc `{Env} (p : loc) (n : Z) : M (option loc) :=
  old ← load (T := list Z) p;
  free (T := list Z) p;;
  if n =? 0 then mret None
  else q ← alloc (fun q => take (Z.to_nat n) old ++ drop (length old) (junk_block q n));
       mret (Some q).

Definition pthread_create (b : thread_body) : M loc := alloc (fun _ => mk_thread b false).

(** A thread that joins itself gets an error at once; any other caller waits
    until the thread has returned. *)
Definition pthread_join (t : option loc) : M unit :=
  match t with
  | None => undef BadJoin
  | Some t =>
      w ← get_world;
      if bool_decide (w_self w = Some t) then mret tt
      else await (fun w => th ← w_threads w !! t; Some (th_done th))
  end.

Definition time_NULL : M Z := fun w => Done (w_clock w) w.

(** [sleep n]: waits until [n] seconds have passed. *)
Definition sleep (n : Z) : M unit := fun w =>
  await (fun w' => Some (w_clock w + n <=? w_clock w')) w.

(** The global [tcp_manager]. *)
Definition get_tcp_manager : M tcp_manager_t := fun w =>
  match w_manager w with Some m => Done m w | None => Undef BadPointer end.
Definition set_tcp_manager (m : tcp_manager_t) : M unit :=
  update (fun w => w⟨w_manager := Some m⟩).

(** Array accesses of the manager and of [listen_state]. *)
Definition array_get {A} (l : list A) (i : Z) : M A :=
  lift OutOfBounds (if 0 <=? i then l !! Z.to_nat i else None).
Definition array_set {A} (l : list A) (i : Z) (x : A) : M (list A) :=
  lift OutOfBounds (if (0 <=? i) && (i <? blen l) then Some (<[Z.to_nat i := x]> l) else None).

(** ** Symbolic execution

    [run] executes the next statement of a function on a world whose relevant
    cells are known from the hypotheses. *)

Lemma bind_done {A B} (m : M A) (f : A → M B) w a w' :
  m w = Done a w' → (m ≫= f) w = f a w'.
Proof. intros E. unfold mbind, M_bind. by rewrite E. Qed.

Lemma bind_undef {A B} (m : M A) (f : A → M B) w u :
  m w = Undef u → (m ≫= f) w = Undef u.
Proof. intros E. unfold mbind, M_bind. by rewrite E. Qed.

Lemma bind_exit {A B} (m : M A) (f : A → M B) w c w' :
  m w = Exit c w' → (m ≫= f) w = Exit c w'.
Proof. intros E. unfold mbind, M_bind. by rewrite E. Qed.

Lemma bind_wait {A B} (m : M A) (f : A → M B) w g w' k :
  m w = Wait g w' k → (m ≫= f) w = Wait g w' (fun w'' => obind f (k w'')).
Proof. intros E. unfold mbind, M_bind. by rewrite E. Qed.

Section heap_lemmas.
Context {T : Type} `{Heap T}.
Implicit Types (p : loc) (x : T).

Lemma load_ok p w x : heap_of w !! p = Some x → load p w = Done x w.
Proof. intros E. unfold load. by rewrite E. Qed.
Lemma load_bad p w : heap_of w !! p = None → load (T := T) p w = Undef BadPointer.
Proof. intros E. unfold load. by rewrite E. Qed.
Lemma store_ok p w x y :
  heap_of w !! p = Some y → store p x w = Done tt (heap_upd <[p := x]> w).
Proof. intros E. unfold store. by rewrite E. Qed.
Lemma modify_ok p w x f :
  heap_of w !! p = Some x → modify p f w = Done tt (heap_upd <[p := f x]> w).
Proof. intros E. unfold modify. erewrite bind_done by (by apply load_ok). by eapply store_ok. Qed.
Lemma free_ok p w x :
  heap_of w !! p = Some x → free (T := T) p w = Done tt (heap_upd (delete p) w).
Proof. intros E. unfold free. by rewrite E. Qed.
End heap_lemmas.

(** Every allocated address is below the allocation pointer. *)
Definition below {T} (p : loc) (h : gmap loc T) : Prop := ∀ q, is_Some (h !! q) → (q < p)%positive.

Lemma below_fresh {T} p (h : gmap loc T) : below p h → h !! p = None.
Proof. intros Hb. destruct (h !! p) eqn:E; [|done]. pose proof (Hb p ltac:(eauto)). lia. Qed.
Lemma below_ne {T} p (h : gmap loc T) q x : below p h → h !! q = Some x → q ≠ p.
Proof. intros Hb Hq. pose proof (Hb q ltac:(eauto)). lia. Qed.

Lemma below_succ {T} p (h : gmap loc T) : below p h → below (Pos.succ p) h.
Proof. intros Hb q Hq. specialize (Hb q Hq). lia. Qed.

Lemma below_le {T} p p' (h : gmap loc T) : (p <= p')%positive → below p h → below p' h.
Proof. intros Hp Hb q Hq. specialize (Hb q Hq). lia. Qed.
Lemma below_insert {T} p (h : gmap loc T) q x : (q < p)%positive → below p h → below p (<[q := x]> h).
Proof.
  intros Hq Hb r [y Hr]. apply lookup_insert_Some in Hr as [[<- _]|[_ Hr]]; [done|]. apply Hb. eauto.
Qed.

Lemma below_dom {T} p (h h' : gmap loc T) : dom h' ⊆ dom h → below p h → below p h'.
Proof. intros Hd Hb q Hq%elem_of_dom. apply Hb, elem_of_dom. set_solver. Qed.

Lemma below_check {T} p (h : gmap loc T) :
  forallb (fun q => (q <? p)%positive) (map_to_list h).*1 = true → below p h.
Proof.
  intros Hc q [x Hx]. apply elem_of_map_to_list in Hx.
  apply Pos.ltb_lt. apply (proj1 (forallb_forall _ _) Hc), list_elem_of_In.
  apply list_elem_of_fmap. by exists (q, x).
Qed.

Lemma mret_ok {A} (a : A) w : (mret a : M A) w = Done a w.
Proof. reflexivity. Qed.
Lemma lift_ok {A} u (o : option A) a w : o = Some a → lift u o w = Done a w.
Proof. by intros ->. Qed.
(** A preemption point is no obstacle to a thread that runs alone. *)
Lemma alone_preempt {A} (f : unit → M A) w : alone ((preempt ≫= f) w) = alone (f tt w).
Proof. done. Qed.
Lemma alone_bind_done {A B} (m : M A) (f : A → M B) w a w' :
  m w = Done a w' → alone ((m ≫= f) w) = alone (f a w').
Proof. intros E. unfold mbind, M_bind. by rewrite E. Qed.

Lemma await_ok g w : g w = Some true → await g w = Done tt w.
Proof. intros E. unfold await. by rewrite E. Qed.
Lemma await_wait g w : g w = Some false → await g w = Wait g w (fun w' => Done tt w').
Proof. intros E. unfold await. by rewrite E. Qed.

Lemma array_get_ok {A} (l : list A) i x : 0 <= i → l !! Z.to_nat i = Some x →
  ∀ w, array_get l i w = Done x w.
Proof. intros Hi Hx w. unfold array_get. zif. by rewrite Hx. Qed.

Lemma array_set_ok {A} (l : list A) i x : 0 <= i < blen l →
  ∀ w, array_set l i x w = Done (<[Z.to_nat i := x]> l) w.
Proof.
  intros Hi w. unfold array_set. zdecide_true (0 <=? i). zdecide_true (i <? blen l). done.
Qed.

Lemma sleep_eq n w : 0 < n →
  sleep n w = Wait (fun w' => Some (w_clock w + n <=? w_clock w')) w (fun w' => Done tt w').
Proof. intros Hn. apply await_wait. f_equal. apply Z.leb_gt. lia. Qed.

Lemma sleep_wait n w : 0 < n → ∃ g, sleep n w = Wait g w (fun w' => Done tt w') ∧
  ∀ w', g w' = Some (w_clock w + n <=? w_clock w').
Proof.
  intros Hn. unfold sleep. eexists. split; [apply await_wait|done].
  cbv beta. f_equal. apply Z.leb_gt. lia.
Qed.

Section mutex_lemmas.
Context {T : Type} `{Heap T} (p : loc) (f : T → bool) `{!Setter f}.

Lemma lock_ok w x :
  heap_of w !! p = Some x → f x = false →
  pthread_mutex_lock p f w = Done tt (heap_upd <[p := set_field f (fun _ => true) x]> w).
Proof.
  intros Hx Hf. unfold pthread_mutex_lock.
  erewrite bind_done by (apply await_ok; by rewrite Hx; cbn; rewrite Hf).
  by apply modify_ok.
Qed.

(** A mutex that is held blocks its next owner. *)
Lemma lock_wait w x :
  heap_of w !! p = Some x → f x = true →
  ∃ g k, pthread_mutex_lock p f w = Wait g w k ∧
         ∀ w' x', heap_of w' !! p = Some x' → g w' = Some (negb (f x')).
Proof.
  intros Hx Hf. unfold pthread_mutex_lock.
  erewrite bind_wait by (apply await_wait; by rewrite Hx; cbn; rewrite Hf).
  do 2 eexists. split; [done|]. intros w' x' Hx'. cbv beta. by rewrite Hx'.
Qed.

Lemma unlock_ok w x :
  heap_of w !! p = Some x → f x = true →
  pthread_mutex_unlock p f w = Done tt (heap_upd <[p := set_field f (fun _ => false) x]> w).
Proof.
  intros Hx Hf. unfold pthread_mutex_unlock. erewrite bind_done by (by apply load_ok).
  rewrite Hf. by eapply store_ok.
Qed.
End mutex_lemmas.

(** *** Byte blocks *)

Lemma copy_in_ok p off bs w buf buf' :
  w_bufs w !! p = Some buf → mem_write buf off bs = Some buf' →
  copy_in p off bs w = Done tt (w⟨w_bufs := <[p := buf']> (w_bufs w)⟩).
Proof.
  intros Hp Hw. unfold copy_in. erewrite bind_done by (by apply load_ok).
  erewrite bind_done by (by apply lift_ok). exact (store_ok p w buf' buf Hp).
Qed.

Lemma copy_in_bad p off bs w buf :
  w_bufs w !! p = Some buf → mem_write buf off bs = None → copy_in p off bs w = Undef OutOfBounds.
Proof.
  intros Hp Hw. unfold copy_in. erewrite bind_done by (by apply load_ok). by rewrite Hw.
Qed.

Lemma copy_out_ok p off n w buf bs :
  w_bufs w !! p = Some buf → mem_read buf off n = Some bs → copy_out p off n w = Done bs w.
Proof.
  intros Hp Hr. unfold copy_out. erewrite bind_done by (by apply load_ok). by apply lift_ok.
Qed.

Lemma copy_within_ok p dst src n w buf bs buf' :
  w_bufs w !! p = Some buf → mem_read buf src n = Some bs →
  dst + n <= src → mem_write buf dst bs = Some buf' →
  copy_within p dst src n w = Done tt (w⟨w_bufs := <[p := buf']> (w_bufs w)⟩).
Proof.
  intros Hp Hr Hlt Hw. unfold copy_within. erewrite bind_done by (by eapply copy_out_ok).
  zdecide_false (src <? dst + n). rewrite andb_false_r. by eapply copy_in_ok.
Qed.

Lemma copy_within_overlap p dst src n w buf bs :
  w_bufs w !! p = Some buf → mem_read buf src n = Some bs → dst < src + n → src < dst + n →
  copy_within p dst src n w = Undef OverlappingCopy.
Proof.
  intros Hp Hr H1 H2. unfold copy_within. erewrite bind_done by (by eapply copy_out_ok).
  zdecide_true (dst <? src + n). zdecide_true (src <? dst + n). done.
Qed.

(** The block a non-zero [realloc] returns. *)
Definition realloc_block `{Env} (q : loc) (old : list Z) (n : Z) : list Z :=
  take (Z.to_nat n) old ++ drop (length old) (junk_block q n).

Lemma blen_junk_block `{Env} q n : 0 <= n → blen (junk_block q n) = n.
Proof. intros Hn. unfold junk_block, blen. rewrite length_fmap, length_seq. lia. Qed.

Lemma blen_realloc_block `{Env} q old n : 0 <= n → blen (realloc_block q old n) = n.
Proof.
  intros Hn. unfold realloc_block. pose proof (blen_junk_block q n Hn) as Hj.
  rewrite blen_app. unfold blen in *. rewrite length_take, length_drop. lia.
Qed.

Lemma realloc_block_prefix `{Env} q old bs rest n :
  old = bs ++ rest → blen bs <= n → ∃ rest', realloc_block q old n = bs ++ rest'.
Proof.
  intros -> Hn. unfold realloc_block. unfold blen in Hn.
  rewrite take_app_ge by lia. rewrite <- app_assoc. by eexists.
Qed.

Lemma realloc_zero `{Env} p w old :
  w_bufs w !! p = Some old →
  realloc p 0 w = Done None (w⟨w_bufs := delete p (w_bufs w)⟩).
Proof.
  intros Hp. unfold realloc. erewrite bind_done by (by apply load_ok).
  erewrite bind_done by exact (free_ok p w old Hp). done.
Qed.

Lemma realloc_ok `{Env} p n w old :
  w_bufs w !! p = Some old → n ≠ 0 →
  realloc p n w = Done (Some (w_next w))
    (w⟨w_bufs := <[w_next w := realloc_block (w_next w) old n]> (delete p (w_bufs w))⟩
      ⟨w_next := Pos.succ (w_next w)⟩).
Proof.
  intros Hp Hn. unfold realloc. erewrite bind_done by (by apply load_ok).
  erewrite bind_done by exact (free_ok p w old Hp). zdecide_false (n =? 0). done.
Qed.

(** *** Fuel

    [no_oof o]: whatever the other threads do while [o] waits, as long as the
    clock does not run backwards, [o] does not end in [OutOfFuel]. *)

Definition clock_bound : Z := 2 ^ 53.
Definition clock_rely (w w' : world) : Prop := w_clock w <= w_clock w' < clock_bound.

Fixpoint no_oof {A} (o : outcome A) : Prop :=
  match o with
  | OutOfFuel => False
  | Wait g w k => ∀ w', clock_rely w w' → g w' = Some true → no_oof (k w')
  | _ => True
  end.
Definition never_oof {A} (m : M A) : Prop := ∀ w, no_oof (m w).

Lemma no_oof_bind {A B} (o : outcome A) (f : A → M B) :
  no_oof o → (∀ a, never_oof (f a)) → no_oof (obind f o).
Proof.
  intros Ho Hf. induction o as [a w|g w k IH|u|c w|]; cbn in *; try done; [by apply Hf|auto].
Qed.

Lemma never_oof_bind {A B} (m : M A) (f : A → M B) :
  never_oof m → (∀ a, never_oof (f a)) → never_oof (m ≫= f).
Proof. intros Hm Hf w. by apply no_oof_bind. Qed.

Lemma never_oof_ret {A} (a : A) : never_oof (mret a).
Proof. by intros w. Qed.
Lemma never_oof_undef {A} u : never_oof (undef (A := A) u).
Proof. by intros w. Qed.
Lemma never_oof_exit {A} c : never_oof (exit (A := A) c).
Proof. by intros w. Qed.
Lemma never_oof_lift {A} u (o : option A) : never_oof (lift u o).
Proof. by destruct o; intros w. Qed.
Lemma never_oof_update f : never_oof (update f).
Proof. by intros w. Qed.
Lemma never_oof_get_world : never_oof get_world.
Proof. by intros w. Qed.
Lemma never_oof_time : never_oof time_NULL.
Proof. by intros w. Qed.
Lemma never_oof_await g : never_oof (await g).
Proof. intros w. unfold await. by destruct (g w) as [[]|]. Qed.
Lemma never_oof_sleep n : never_oof (sleep n).
Proof. intros w. apply never_oof_await. Qed.

Create HintDb oof.
#[export] Hint Resolve never_oof_bind never_oof_ret never_oof_undef never_oof_exit never_oof_lift
  never_oof_update never_oof_get_world never_oof_time never_oof_await never_oof_sleep : oof.

(** Splits a program into its primitive statements. *)
Ltac oof :=
  repeat first
    [ solve [eauto 2 with oof nocore]
    | apply never_oof_bind; [|intros ?]
    | match goal with |- never_oof (if ?b then _ else _) => destruct b end
    | match goal with |- never_oof (match ?o with _ => _ end) => destruct o end ].

Section never_oof_heap.
Context {T : Type} `{Heap T}.
Lemma never_oof_load p : never_oof (load (T := T) p).
Proof. intros w. unfold load. by destruct (_ !! _). Qed.
Lemma never_oof_store p (x : T) : never_oof (store p x).
Proof. intros w. unfold store. by destruct (_ !! _). Qed.
Lemma never_oof_free p : never_oof (free (T := T) p).
Proof. intros w. unfold free. by destruct (_ !! _). Qed.
Lemma never_oof_alloc (x : loc → T) : never_oof (alloc x).
Proof. by intros w. Qed.
Lemma never_oof_modify p (f : T → T) : never_oof (modify p f).
Proof. apply never_oof_bind; [apply never_oof_load|intros; apply never_oof_store]. Qed.
Lemma never_oof_lock p f `{!Setter f} : never_oof (pthread_mutex_lock (T := T) p f).
Proof. apply never_oof_bind; [apply never_oof_await|intros; apply never_oof_modify]. Qed.
Lemma never_oof_unlock p f `{!Setter f} : never_oof (pthread_mutex_unlock (T := T) p f).
Proof.
  apply never_oof_bind; [apply never_oof_load|]. intros x.
  destruct (f x); [apply never_oof_store|apply never_oof_undef].
Qed.
End never_oof_heap.
#[export] Hint Resolve never_oof_load never_oof_store never_oof_free never_oof_alloc
  never_oof_modify never_oof_lock never_oof_unlock : oof.

Lemma never_oof_copy_in p off bs : never_oof (copy_in p off bs).
Proof. unfold copy_in. oof. Qed.
Lemma never_oof_copy_out p off n : never_oof (copy_out p off n).
Proof. unfold copy_out. oof. Qed.
#[export] Hint Resolve never_oof_copy_in never_oof_copy_out : oof.
Lemma never_oof_join t : never_oof (pthread_join t).
Proof. unfold pthread_join. oof. Qed.
Lemma never_oof_create b : never_oof (pthread_create b).
Proof. apply never_oof_alloc. Qed.
#[export] Hint Resolve never_oof_join never_oof_create : oof.

(** Reduces projections of updated worlds and records. *)
Ltac rsimpl := cbn [heap_of heap_upd heap_socks heap_snds heap_rcvs heap_timers heap_queues
  heap_nodes heap_bufs heap_threads set_field fst snd
  w_socks w_snds w_rcvs w_timers w_queues w_nodes w_bufs w_threads w_next w_manager w_self
  w_clock w_sent
  state bind_addr established_local_addr established_remote_addr send_lock send_thread
  sending_buf sending_len sending_capacity recv_lock received_buf received_len
  received_capacity wnd_send wnd_recv saved_syn signal_lock interrupt_signal rtt_timer
  timeout_counts syn_queue accept_queue con_status cwnd ssthresh listen_state
  finished_handshake send_windows window_size base nextseq rwnd receiver_window expect_seq
  estimated_rtt dev_rtt timeout callback timer_thread started timer_lock q_size q_base
  node_data node_next th_body th_done listen_queue established_queue connect_sock is_server
  ip port].

(** An assumption, found syntactically. *)
Ltac known := match goal with H : ?o = Some _ |- ?o = Some _ => exact H end.

(** Finds the content of a cell in an updated heap. *)
Ltac lookup_tac :=
  rsimpl;
  repeat first
    [ known
    | rewrite lookup_insert_eq; reflexivity
    | rewrite lookup_insert_ne by (first [done | congruence | lia])
    | rewrite lookup_delete_ne by (first [done | congruence | lia]) ].

(** Specifications of the functions already verified, tried on each call; their
    premises are looked up or decided. *)
Create HintDb exec.
#[export] Hint Constants Opaque : exec.
#[export] Hint Extern 1 (_ !! _ = Some _) => solve [lookup_tac] : exec.
#[export] Hint Extern 1 (is_int _) => first [assumption | unfold is_int; lia] : exec.
#[export] Hint Resolve int_result_ok : exec.

Ltac prim :=
  lazymatch goal with
  | |- mret _ _ = _ => apply mret_ok
  | |- pthread_mutex_lock _ _ _ = _ =>
      eapply lock_ok; [solve [lookup_tac]|rsimpl; first [reflexivity|assumption]]
  | |- pthread_mutex_unlock _ _ _ = _ =>
      eapply unlock_ok; [solve [lookup_tac]|rsimpl; first [reflexivity|assumption]]
  | |- pthread_create _ _ = _ => reflexivity
  | |- array_get _ _ _ = _ => apply array_get_ok; [lia|known]
  | |- array_set _ _ _ _ = _ => apply array_set_ok; lia
  | |- load _ _ = _ => apply load_ok; solve [lookup_tac]
  | |- modify _ _ _ = _ => eapply modify_ok; solve [lookup_tac]
  | |- store _ _ _ = _ => eapply store_ok; solve [lookup_tac]
  | |- free _ _ = _ => eapply free_ok; solve [lookup_tac]
  | |- lift _ (Some _) _ = _ => apply lift_ok; reflexivity
  | |- lift _ _ _ = _ => apply lift_ok; first [known | solve [typeclasses eauto 5 with exec nocore]]
  | |- get_world _ = _ => reflexivity
  | |- alloc _ _ = _ => reflexivity
  | |- malloc _ _ = _ => reflexivity
  | |- update _ _ = _ => reflexivity
  | |- time_NULL _ = _ => reflexivity
  | |- mbind _ _ _ = _ => erewrite bind_done by prim; cbv beta; rsimpl; prim
  | |- _ => solve [typeclasses eauto 5 with exec nocore]
  end.

Ltac run1 := first [ erewrite bind_done by prim | rewrite mret_ok ]; cbv beta iota; rsimpl; rewrite ?insert_insert_eq.
Ltac run := repeat run1.
(** Evaluates the equality tests between the constants of the code. *)
Ltac const_tests :=
  repeat match goal with
  | |- context [?a =? ?b] =>
      let v := eval vm_compute in (a =? b) in
      lazymatch v with
      | true => change (a =? b) with true
      | false => change (a =? b) with false
      end
  end; cbv iota.

(** Executes a final call and compares the results. *)
Ltac final := eapply eq_trans; [ prim | rsimpl; rewrite ?insert_insert_eq; reflexivity ].

(** Collapses repeated stores to one cell. *)
Lemma world_eta w :
  w = mk_world (w_socks w) (w_snds w) (w_rcvs w) (w_timers w) (w_queues w) (w_nodes w)
        (w_bufs w) (w_threads w) (w_next w) (w_manager w) (w_self w) (w_clock w) (w_sent w).
Proof. by destruct w. Qed.
Ltac world_eq :=
  rsimpl; rewrite ?insert_insert_eq; first [ reflexivity | repeat f_equal; try reflexivity ].
