(* ===== verification/Threads.v ===== *)
(** * Reasoning about threads

    A rely-guarantee logic for the monad of Machine.v.  An invariant [I] over
    the world and a ghost state holds whenever a thread waits or may be preempted;
    until it goes on, the other threads move the ghost state along [rely] and keep
    [I], and the thread itself moves it along [guar].  [rely] also says in which
    worlds the scheduler lets the thread go on. *)

From S2P Require Import Prelude Consts CFloat Machine.

Section rely_guarantee.
Context {G : Type} (I : G → world → Prop) (rely : G → G → world → Prop) (guar : G → G → Prop).
Context `{!PreOrder guar}.

(** [safe Q g o]: run to its end from the ghost state [g], the outcome [o] keeps
    the invariant at every wait and returns in [Q].  Undefined behaviour and
    [exit] end the process, and nothing is claimed after them. *)
Fixpoint safe {A} (Q : A → G → world → Prop) (g : G) (o : outcome A) : Prop :=
  match o with
  | Done a w => ∃ g', guar g g' ∧ Q a g' w
  | Wait c w k => ∃ g', guar g g' ∧ I g' w ∧
      ∀ g2 w2, rely g' g2 w2 → I g2 w2 → c w2 = Some true → safe Q g2 (k w2)
  | Undef _ | Exit _ _ | OutOfFuel => True
  end.

Lemma safe_done {A} (Q : A → G → world → Prop) g a w : Q a g w → safe Q g (Done a w).
Proof using All. intros HQ. by exists g. Qed.

Lemma safe_done_at {A} (Q : A → G → world → Prop) g g' a w : guar g g' → Q a g' w → safe Q g (Done a w).
Proof using All. intros Hg HQ. by exists g'. Qed.

Lemma safe_guar {A} (Q : A → G → world → Prop) g g' o : guar g g' → safe Q g' o → safe Q g o.
Proof using All.
  intros Hg. destruct o; cbn; try done; intros (g2 & Hg2 & H); exists g2; (split; [by etrans|done]).
Qed.

Lemma safe_bind {A B} (P : A → G → world → Prop) (Q : B → G → world → Prop) g (o : outcome A) f :
  safe P g o → (∀ a g w, P a g w → safe Q g (f a w)) → safe Q g (obind f o).
Proof using All.
  intros Ho Hf. revert g Ho. induction o as [a w|c w k IH|u|z w|]; intros g Ho; cbn in *; try done.
  - destruct Ho as (g' & Hg & HP). apply (safe_guar _ _ _ _ Hg). by apply Hf.
  - destruct Ho as (g' & Hg & HI & Hk). exists g'. split; [done|]. split; [done|].
    intros g2 w2 H1 H2 H3. apply IH. by apply Hk.
Qed.

Lemma safe_weaken {A} (P Q : A → G → world → Prop) g o :
  safe P g o → (∀ a g w, P a g w → Q a g w) → safe Q g o.
Proof using All.
  intros Ho HPQ. revert g Ho. induction o as [a w|c w k IH|u|z w|]; intros g Ho; cbn in *; try done.
  - destruct Ho as (g' & ? & ?). eauto.
  - destruct Ho as (g' & Hg & HI & Hk). exists g'. eauto 10.
Qed.

(** What both relations preserve holds at the end. *)
Lemma safe_frame {A} (F : G → Prop) (Q : A → G → world → Prop) g o :
  (∀ g g', F g → guar g g' → F g') → (∀ g g' w, F g → rely g g' w → F g') →
  F g → safe Q g o → safe (fun a g w => F g ∧ Q a g w) g o.
Proof using All.
  intros H1 H2. revert g. induction o as [a w|c w k IH|u|z w|]; intros g HF Ho; cbn in *; try done.
  - destruct Ho as (g' & Hg & HQ). exists g'. eauto.
  - destruct Ho as (g' & Hg & HI & Hk). exists g'. split; [done|]. split; [done|]. eauto.
Qed.

(** [keeps m φ]: from the invariant, [m] keeps it and returns a value in [φ]. *)
Definition keeps {A} (m : M A) (φ : A → Prop) : Prop :=
  ∀ g w, I g w → safe (fun a g w => I g w ∧ φ a) g (m w).

Lemma keeps_bind {A B} (m : M A) (f : A → M B) (φ : A → Prop) (ψ : B → Prop) :
  keeps m φ → (∀ a, φ a → keeps (f a) ψ) → keeps (m ≫= f) ψ.
Proof using All.
  intros Hm Hf g w HI. apply (safe_bind _ _ _ _ _ (Hm g w HI)). intros a g' w' [HI' Ha]. by apply Hf.
Qed.
Lemma keeps_weaken {A} (m : M A) (φ ψ : A → Prop) : keeps m φ → (∀ a, φ a → ψ a) → keeps m ψ.
Proof using All.
  intros Hm Hi g w HI. apply (safe_weaken _ _ _ _ (Hm g w HI)). intros a g' w' []. auto.
Qed.
Lemma keeps_any {A} (m : M A) (φ : A → Prop) : keeps m φ → keeps m (fun _ => True).
Proof using All. intros Hm. by apply (keeps_weaken m φ). Qed.
Lemma keeps_ret {A} (a : A) (φ : A → Prop) : φ a → keeps (mret a) φ.
Proof using All. intros Ha g w HI. by apply safe_done. Qed.
Lemma keeps_undef {A} u (φ : A → Prop) : keeps (undef u) φ.
Proof using All. done. Qed.
Lemma keeps_exit {A} c (φ : A → Prop) : keeps (exit c) φ.
Proof using All. done. Qed.
Lemma keeps_lift {A} u (o : option A) : keeps (lift u o) (fun a => o = Some a).
Proof using All. intros g w HI. destruct o; [by apply safe_done|done]. Qed.
Lemma keeps_get_world : keeps get_world (fun _ => True).
Proof using All. intros g w HI. by apply safe_done. Qed.
Lemma keeps_time : keeps time_NULL (fun _ => True).
Proof using All. intros g w HI. by apply safe_done. Qed.
Lemma keeps_out_of_fuel {A} (φ : A → Prop) : keeps out_of_fuel φ.
Proof using All. done. Qed.
Lemma keeps_await c : keeps (await c) (fun _ => True).
Proof using All.
  intros g w HI. unfold await. destruct (c w) as [[]|]; [by apply safe_done| |done].
  exists g. split; [done|]. split; [done|]. intros g2 w2 _ HI2 _. by apply safe_done.
Qed.
Lemma keeps_preempt : keeps preempt (fun _ => True).
Proof using All.
  intros g w HI. exists g. split; [done|]. split; [done|]. intros g2 w2 _ HI2 _. by apply safe_done.
Qed.
Lemma keeps_sleep n : keeps (sleep n) (fun _ => True).
Proof using All. intros g w. apply keeps_await. Qed.
Lemma keeps_join t : keeps (pthread_join t) (fun _ => True).
Proof using All.
  destruct t as [t|]; [|apply keeps_undef]. eapply keeps_bind; [apply keeps_get_world|].
  intros w _. destruct (bool_decide _); [by apply keeps_ret|apply keeps_await].
Qed.
Lemma keeps_get_manager : keeps get_tcp_manager (fun _ => True).
Proof using All.
  intros g w HI. unfold get_tcp_manager. destruct (w_manager w); [by apply safe_done|done].
Qed.
Lemma keeps_array_get {A} (l : list A) i : keeps (array_get l i) (fun a => a ∈ l).
Proof using All.
  eapply keeps_weaken; [apply keeps_lift|]. intros a Ha. destruct (0 <=? i); [|done].
  by eapply list_elem_of_lookup_2.
Qed.
Lemma keeps_array_set {A} (l : list A) i x : keeps (array_set l i x) (fun _ => True).
Proof using All. eapply keeps_any, keeps_lift. Qed.

Section heap.
Context {T : Type} `{Heap T}.

Lemma keeps_load p : keeps (load (T := T) p) (fun _ => True).
Proof using All. intros g w HI. unfold load. destruct (_ !! _); [by apply safe_done|done]. Qed.
Lemma keeps_load_with p (φ : T → Prop) :
  (∀ g w x, I g w → heap_of w !! p = Some x → φ x) → keeps (load p) φ.
Proof using All.
  intros Hx g w HI. unfold load. destruct (_ !! _) eqn:E; [|done]. apply safe_done. eauto.
Qed.
Lemma keeps_store p (x : T) :
  (∀ g w y, I g w → heap_of w !! p = Some y → I g (heap_upd <[p := x]> w)) →
  keeps (store p x) (fun _ => True).
Proof using All.
  intros Hx g w HI. unfold store. destruct (_ !! _) eqn:E; [|done]. apply safe_done. eauto.
Qed.
Lemma keeps_modify p (f : T → T) :
  (∀ g w y, I g w → heap_of w !! p = Some y → I g (heap_upd <[p := f y]> w)) →
  keeps (modify p f) (fun _ => True).
Proof using All.
  intros Hx g w HI. unfold modify, mbind, M_bind, load. destruct (_ !! _) eqn:E; [|done]. cbn.
  unfold store. rewrite E. apply safe_done. eauto.
Qed.
Lemma keeps_lock p f `{!Setter f} :
  keeps (modify p (set_field f (fun _ => true))) (fun _ => True) →
  keeps (pthread_mutex_lock (T := T) p f) (fun _ => True).
Proof using All. intros Hm. eapply keeps_bind; [apply keeps_await|]. by intros _ _. Qed.
Lemma keeps_unlock p f `{!Setter f} :
  keeps (modify p (set_field f (fun _ => false))) (fun _ => True) →
  keeps (pthread_mutex_unlock (T := T) p f) (fun _ => True).
Proof using All.
  intros Hm g w HI. specialize (Hm g w HI). revert Hm.
  unfold pthread_mutex_unlock, modify, mbind, M_bind, load.
  destruct (_ !! _) as [x|] eqn:E; [|done]. cbn. by destruct (f x).
Qed.
End heap.

End rely_guarantee.

(** The other threads move along [r], and the thread may go on whenever [may]. *)
Definition when {G} (r : G → G → Prop) (may : G → world → Prop) (g g' : G) (w : world) : Prop :=
  r g g' ∧ may g' w.

(** A thread with a smaller guarantee has the larger one. *)
Lemma safe_relax {G A} I (rely : G → G → world → Prop) (guar guar' : G → G → Prop) (Q : A → G → world → Prop) g o :
  (∀ g g', guar g g' → guar' g g') → safe I rely guar Q g o → safe I rely guar' Q g o.
Proof.
  intros Hg. revert g. induction o as [a w|c w k IH|u|z w|]; intros g Ho; cbn in *; try done.
  - destruct Ho as (g' & ? & ?). eauto.
  - destruct Ho as (g' & ? & HI & Hk). exists g'. eauto 10.
Qed.

(** An invariant may be strengthened by what the other threads preserve. *)
Lemma safe_restrict {G A} (I : G → world → Prop) (F : G → Prop) (rely : G → G → world → Prop) (guar : G → G → Prop)
    (Q : A → G → world → Prop) g o :
  (∀ g g' w, rely g g' w → F g → F g') →
  safe (fun g w => I g w ∧ F g) rely guar Q g o → safe I rely guar Q g o.
Proof.
  intros HF. revert g. induction o as [a w|c w k IH|u|z w|]; intros g Ho; cbn in *; try done.
  destruct Ho as (g' & ? & [HI Hg'] & Hk). exists g'. split; [done|]. split; [done|].
  intros g2 w2 Hr HI2 Hc. apply IH, Hk; [done|split; [done|by eapply HF]|done].
Qed.

(** One statement of a program whose end is not a matter of [keeps]. *)
Lemma safe_step {G A B} (I : G → world → Prop) (F : G → Prop) (rely : G → G → world → Prop) (guar : G → G → Prop) `{!PreOrder guar}
    (m : M A) (f : A → M B) (φ : A → Prop) Q g w :
  (∀ g g' w, rely g g' w → F g → F g') → keeps (fun g w => I g w ∧ F g) rely guar m φ →
  I g w → F g → (∀ a g w, φ a → I g w → F g → safe I rely guar Q g (f a w)) →
  safe I rely guar Q g ((m ≫= f) w).
Proof.
  intros HF Hm HI Hg Hf. eapply safe_bind; [apply _|by eapply safe_restrict, Hm|].
  intros a g' w' [[HI' Hg'] Ha]. by apply Hf.
Qed.

(** ** Automation

    The statements every invariant survives are in [keep]; a file that proves an
    invariant adds those its invariant survives. *)
Create HintDb keep.
#[export] Hint Constants Opaque : keep.
#[export] Hint Transparent Setter : keep.
#[export] Hint Resolve keeps_undef keeps_exit keeps_get_world keeps_time keeps_preempt keeps_sleep keeps_join
  keeps_get_manager keeps_array_get keeps_array_set : keep.
#[export] Hint Resolve keeps_load keeps_lift keeps_await | 5 : keep.

(** Splits a program into statements that keep the invariant. *)
Ltac keep1 :=
  match goal with
  | |- keeps _ _ _ (mret _) _ => apply keeps_ret; [done|by try exact I]
  | |- keeps _ _ _ out_of_fuel _ => apply keeps_out_of_fuel; done
  | |- keeps _ _ _ (if ?b then _ else _) _ => destruct b eqn:?
  | |- keeps _ _ _ (match ?o with _ => _ end) _ => destruct o eqn:?
  | |- keeps _ _ _ (mbind _ _) _ =>
      eapply keeps_bind; [done|solve [typeclasses eauto 5 with keep nocore]|intros ? ?; cbv beta in *; destruct_and?]
  | |- keeps _ _ _ (mbind _ _) _ =>
      eapply (keeps_bind _ _ _ _ _ (fun _ => True)); [|intros ? _; cbv beta]
  | |- keeps _ _ _ _ _ => solve [typeclasses eauto 5 with keep nocore]
  | |- keeps _ _ _ _ (fun _ => True) => eapply keeps_any; [done|solve [typeclasses eauto 5 with keep nocore]]
  end.
Ltac keep := repeat keep1.
