(* ===== verification/Samples.v ===== *)
(** * Concrete hosts, sockets and worlds

    The values on which the theorems of the library are instantiated. *)

From S2P Require Import Prelude Consts CFloat Machine.

Definition zero_addr : tju_sock_addr := mk_addr 0 0.

(** A socket whose parts are at the addresses 2 (sending buffer), 3 (received
    buffer), 4 and 5 (windows), 6 (timer), 7 and 8 (queues). *)
Definition sample_sock : tju_tcp_t :=
  mk_sock CLOSED zero_addr zero_addr zero_addr false None 2 0 TCP_SEND_BUFFER_SIZE false
    (Some 3%positive) 0 TCP_RECV_BUFFER_SIZE 4 5 0 false 0 6 0 7 8 SLOW_START SMSS IW
    (replicate (Z.to_nat MAX_SOCK_SIZE) CLOSED) 0.

Definition sample_snd : sender_window_t := mk_snd 9 (u16 TCP_SEND_WINDOW_SIZE) 0 0 SMSS.
Definition sample_rcv : receiver_window_t := mk_rcv 10 0.
Definition sample_timer : rtt_timer_t :=
  mk_timer (f32_of_Z 3) (f32_of_Z 3) (f32_of_Z 3) Cb_tcp_write_timer_handler None 0 false.

(** The memory of a host whose [malloc] returns zeroed blocks. *)
Definition env_at (h : host_t) : Env := {|
  env_host := h;
  junk_sock _ := sample_sock;
  junk_snd _ := sample_snd;
  junk_rcv _ := sample_rcv;
  junk_timer _ := sample_timer;
  junk_byte _ _ := 0;
  junk_is_server := 0
|}.

Definition empty_manager : tcp_manager_t :=
  let empty := replicate (Z.to_nat MAX_SOCK_SIZE) None in mk_manager empty empty empty 0.

(** One socket at address 1, with [buf] bytes in its receive buffer. *)
Definition sample_world (s : tju_tcp_t) (snd : sender_window_t) (rcv : receiver_window_t)
    (sbuf rbuf swin : list Z) : world :=
  mk_world {[1%positive := s]} {[4%positive := snd]} {[5%positive := rcv]}
    {[6%positive := sample_timer]}
    {[7%positive := mk_sockqueue 0 None; 8%positive := mk_sockqueue 0 None]} ∅
    {[2%positive := sbuf; 3%positive := rbuf; 9%positive := swin]} ∅ 11
    (Some empty_manager) None 0 [].

(** Two sockets and a queue that holds them, oldest first. *)
Definition queue_world : world :=
  mk_world {[1%positive := sample_sock; 2%positive := sample_sock⟨state := ESTABLISHED⟩;
             3%positive := sample_sock]} ∅ ∅ ∅
    {[7%positive := mk_sockqueue 2 (Some 11%positive); 8%positive := mk_sockqueue 0 None]}
    {[11%positive := mk_node 1 (Some 12%positive); 12%positive := mk_node 2 None]}
    ∅ ∅ 13 None None 0 [].
