(* ===== verification/SockQueue.v ===== *)
(** * Connection queues: src/sockqueue.c

    A singly linked list of nodes in the heap; the nodes hold pointers to
    sockets, and removal copies the socket into the caller's. *)

From S2P Require Import Prelude Consts Machine Samples.

Section sockqueue.
Context `{Env}.

Definition sockqueue_init : M loc := alloc (fun _ => mk_sockqueue 0 None).

Definition sockqueue_size (q : loc) : M Z := x ← load_queue q; mret (q_size x).

Definition sockqueue_is_empty (q : loc) : M bool := x ← load_queue q; mret (q_size x =? 0).

(** [while(node->next != NULL) node = node->next;] *)
Fixpoint last_node (fuel : nat) (node : loc) : M loc :=
  match fuel with
  | O => out_of_fuel
  | S fuel =>
      x ← load_node node;
      match node_next x with
      | None => mret node
      | Some next => last_node fuel next
      end
  end.

(** Fuel for the walk: no acyclic chain is longer than the node heap. *)
Definition node_fuel (w : world) : nat := S (base.size (w_nodes w)).

Definition sockqueue_push (q : loc) (sock : loc) : M Z :=
  x ← load_queue q;
  if q_size x =? MAX_QUEUE then mret (-1)
  else
    match q_base x with
    | None =>
        node ← alloc (fun _ => mk_node sock None);
        modify q (fun x => x⟨q_base := Some node⟩⟨q_size := q_size x + 1⟩);;
        mret 0
    | Some first =>
        w ← get_world;
        node ← last_node (node_fuel w) first;
        new_node ← alloc (fun _ => mk_node sock None);
        modify node (fun n => n⟨node_next := Some new_node⟩);;
        modify q (fun x => x⟨q_size := q_size x + 1⟩);;
        x ← load_queue q;
        mret (q_size x - 1)
    end.

(** [*sock = *(node->data)] *)
Definition copy_sock (dst src : loc) : M unit := x ← load_sock src; store dst x.

Definition sockqueue_pop (q : loc) (sock : loc) : M Z :=
  empty ← sockqueue_is_empty q;
  if (empty : bool) then mret (-1)
  else
    x ← load_queue q;
    node ← lift BadPointer (q_base x);
    n ← load_node node;
    modify q (fun x => x⟨q_base := node_next n⟩);;
    copy_sock sock (node_data n);;
    free (T := sock_node) node;;
    modify q (fun x => x⟨q_size := q_size x - 1⟩);;
    mret 0.

(** [for(int i = 1; i < index; i++) { node = node->next; if(node == NULL) return -1; }]
    with [k] iterations left; [None] is the early return. *)
Fixpoint skip_nodes (k : nat) (node : loc) : M (option loc) :=
  match k with
  | O => mret (Some node)
  | S k =>
      n ← load_node node;
      match node_next n with
      | None => mret None
      | Some next => skip_nodes k next
      end
  end.

Definition sockqueue_remove (q : loc) (sock : loc) (index : Z) : M Z :=
  empty ← sockqueue_is_empty q;
  if (empty : bool) then mret (-1)
  else
    x ← load_queue q;
    if index =? 0 then
      node ← lift BadPointer (q_base x);
      n ← load_node node;
      copy_sock sock (node_data n);;
      free (T := sock_node) node;;
      modify q (fun x => x⟨q_base := None⟩);;
      mret 0
    else
      first ← lift BadPointer (q_base x);
      r ← skip_nodes (Z.to_nat (index - 1)) first;
      match r with
      | None => mret (-1)
      | Some prev =>
          p ← load_node prev;
          match node_next p with
          | None => mret (-1)
          | Some node =>
              n ← load_node node;
              modify prev (fun p => p⟨node_next := node_next n⟩);;
              copy_sock sock (node_data n);;
              free (T := sock_node) node;;
              modify q (fun x => x⟨q_size := q_size x - 1⟩);;
              mret 0
          end
      end.

(** ** Representation

    [chain nodes p l]: following [next] from [p] visits the nodes of [l], each
    paired with the socket it holds. *)

Fixpoint chain (nodes : gmap loc sock_node) (p : option loc) (l : list (loc * loc)) : Prop :=
  match l with
  | [] => p = None
  | (n, d) :: l => p = Some n ∧ ∃ x, nodes !! n = Some x ∧ node_data x = d ∧
                   chain nodes (node_next x) l
  end.

(** The same up to the node [m]. *)
Fixpoint chain_to (nodes : gmap loc sock_node) (p : option loc) (l : list (loc * loc))
    (m : option loc) : Prop :=
  match l with
  | [] => p = m
  | (n, d) :: l => p = Some n ∧ ∃ x, nodes !! n = Some x ∧ node_data x = d ∧
                   chain_to nodes (node_next x) l m
  end.

(** The queue at [q] holds the sockets of [l], oldest first. *)
Definition queue_rep (w : world) (q : loc) (l : list (loc * loc)) : Prop :=
  ∃ x, w_queues w !! q = Some x ∧ q_size x = blen l ∧ chain (w_nodes w) (q_base x) l ∧
       NoDup l.*1.

(** Nodes outside [l] are those of the other queues. *)
Definition nodes_frame (l : list (loc * loc)) (nodes nodes' : gmap loc sock_node) : Prop :=
  ∀ p, p ∉ l.*1 → nodes' !! p = nodes !! p.

(** ** Lemmas *)

Lemma chain_frame nodes nodes' p l :
  (∀ n, n ∈ l.*1 → nodes' !! n = nodes !! n) → chain nodes p l → chain nodes' p l.
Proof using.
  revert p; induction l as [|[n d] l IH]; intros p Hf; cbn; [done|].
  intros (-> & x & Hx & Hd & Hc). split; [done|]. exists x. split_and!; [|done|].
  - rewrite Hf; [done|]. cbn. set_solver.
  - apply IH; [|done]. intros m Hm. apply Hf. cbn. by right.
Qed.

Lemma chain_to_frame nodes nodes' p l m :
  (∀ n, n ∈ l.*1 → nodes' !! n = nodes !! n) → chain_to nodes p l m → chain_to nodes' p l m.
Proof using.
  revert p; induction l as [|[n d] l IH]; intros p Hf; cbn; [done|].
  intros (-> & x & Hx & Hd & Hc). split; [done|]. exists x. split_and!; [|done|].
  - rewrite Hf; [done|]. cbn. set_solver.
  - apply IH; [|done]. intros k Hk. apply Hf. cbn. by right.
Qed.

Lemma chain_in_nodes nodes p l n : chain nodes p l → n ∈ l.*1 → n ∈ dom nodes.
Proof using.
  revert p; induction l as [|[m d] l IH]; intros p; cbn; [set_solver|].
  intros (_ & x & Hx & _ & Hc) [->|Hn]%elem_of_cons; [by eapply elem_of_dom_2|eauto].
Qed.

Lemma chain_length nodes p l :
  chain nodes p l → NoDup l.*1 → (length l <= base.size nodes)%nat.
Proof using.
  intros Hc Hn. rewrite <- size_dom, <- (length_fmap fst).
  rewrite <- (size_list_to_set (C := gset loc) l.*1) by done.
  apply subseteq_size. intros n Hin%elem_of_list_to_set. by eapply chain_in_nodes.
Qed.

Lemma chain_app nodes p l k :
  chain nodes p (l ++ k) ↔ ∃ m, chain_to nodes p l m ∧ chain nodes m k.
Proof using.
  revert p; induction l as [|[n d] l IH]; intros p; cbn.
  - split; [intros; eauto|]. by intros (m & -> & ?).
  - split.
    + intros (-> & x & Hx & Hd & Hc). apply IH in Hc as (m & Ht & Hc). eauto 10.
    + intros (m & (-> & x & Hx & Hd & Ht) & Hc).
      split; [done|]. exists x. split_and!; [done..|]. apply IH. eauto.
Qed.

(** The walk to the end reaches the last node. *)
Lemma last_node_chain fuel w p l m d :
  chain (w_nodes w) (Some p) (l ++ [(m, d)]) → (length l < fuel)%nat →
  last_node fuel p w = Done m w.
Proof using.
  revert p l; induction fuel as [|fuel IH]; intros p l Hc Hf; [lia|].
  destruct l as [|[n e] l]; cbn in Hc; destruct Hc as ([= ->] & x & Hx & _ & Hc);
    cbn [last_node]; run.
  - by rewrite Hc.
  - destruct (node_next x) as [q|] eqn:E; [|by destruct l as [|[]]; cbn in Hc; destruct Hc].
    apply (IH q l Hc). cbn in Hf. lia.
Qed.

(** Skipping [k] links of a longer chain. *)
Lemma skip_nodes_chain k w p l m r :
  chain_to (w_nodes w) (Some p) l (Some m) → length l = k →
  chain (w_nodes w) (Some m) r → r ≠ [] →
  skip_nodes k p w = Done (Some m) w.
Proof using.
  intros Hc <- Hm Hr. revert p Hc. induction l as [|[n d] l IH]; intros p; cbn.
  - intros [= ->]. done.
  - intros ([= ->] & x & Hx & _ & Hc). run.
    destruct (node_next x) as [q|] eqn:E; [by apply IH|].
    destruct l as [|[]]; cbn in Hc; [done|by destruct Hc].
Qed.

Lemma chain_snoc nodes nodes' p l m d e x y n :
  chain nodes p (l ++ [(m, d)]) →
  (∀ k, k ∈ l.*1 → nodes' !! k = nodes !! k) →
  nodes' !! m = Some x → node_data x = d → node_next x = Some n →
  nodes' !! n = Some y → node_data y = e → node_next y = None →
  chain nodes' p ((l ++ [(m, d)]) ++ [(n, e)]).
Proof using.
  intros Hc Hf ? ? Hn ? ? ?. apply chain_app in Hc as (k & Ht & Hm & _).
  rewrite <- app_assoc. apply chain_app. exists k. split; [by eapply chain_to_frame|].
  cbn. split; [done|]. exists x. split_and!; [done..|].
  exists y. by split_and!.
Qed.

Lemma chain_snoc_inv nodes p l m d :
  chain nodes p (l ++ [(m, d)]) →
  ∃ first z, p = Some first ∧ nodes !! m = Some z ∧ node_data z = d ∧ node_next z = None.
Proof using.
  intros (k & Ht & -> & z & Hz & Hd & Hn)%chain_app.
  destruct l as [|[n e] l]; cbn in Ht; [subst; eauto 10|].
  destruct Ht as (-> & _). eauto 10.
Qed.

Lemma queue_rep_below w q l p :
  queue_rep w q l → below (w_next w) (w_nodes w) → p ∈ l.*1 → (p < w_next w)%positive.
Proof using.
  intros (x & _ & _ & Hc & _) Hb Hp. apply Hb, elem_of_dom. by eapply chain_in_nodes.
Qed.

Lemma elem_of_delete_fst (l : list (loc * loc)) k p : p ∈ (delete k l).*1 → p ∈ l.*1.
Proof using.
  intros (x & -> & Hx)%list_elem_of_fmap. apply list_elem_of_fmap. exists x. split; [done|].
  eapply elem_of_submseteq; [exact Hx|]. apply sublist_submseteq, sublist_delete.
Qed.

(** A queue none of whose nodes changes. *)
Lemma queue_rep_frame w w' q l :
  w_queues w' !! q = w_queues w !! q → (∀ n, n ∈ l.*1 → w_nodes w' !! n = w_nodes w !! n) →
  queue_rep w q l → queue_rep w' q l.
Proof using.
  intros Hq Hn (x & Hx & Hsz & Hc & Hnd). exists x. rewrite Hq. split_and!; [done|done| |done].
  by eapply chain_frame.
Qed.

Lemma sockqueue_push_ok w q s l :
  queue_rep w q l → below (w_next w) (w_nodes w) → blen l < MAX_QUEUE →
  ∃ nodes' x',
    let w' := w⟨w_nodes := nodes'⟩⟨w_queues := <[q := x']> (w_queues w)⟩
               ⟨w_next := Pos.succ (w_next w)⟩ in
    sockqueue_push q s w = Done (blen l) w' ∧
    queue_rep w' q (l ++ [(w_next w, s)]) ∧
    nodes_frame (l ++ [(w_next w, s)]) (w_nodes w) nodes'.
Proof using.
  intros (x & Hx & Hsz & Hc & Hnd) Hb Hlen. unfold sockqueue_push. run. rewrite Hsz. zif.
  pose proof (below_fresh _ _ Hb) as Hfr.
  destruct l as [|nd l'] using rev_ind.
  - cbn in Hc. rewrite Hc. do 2 eexists. cbn beta zeta. split; [run; world_eq|].
    split.
    + eexists; rsimpl. split_and!; [by rewrite lookup_insert_eq| |..].
      * rsimpl. by rewrite Hsz.
      * cbn. split; [done|]. eexists. by rewrite lookup_insert_eq.
      * cbn. apply list.NoDup_singleton.
    + intros p Hp. cbn in Hp. rewrite lookup_insert_ne by set_solver. done.
  - clear IHl'. destruct nd as [m d].
    destruct (chain_snoc_inv _ _ _ _ _ Hc) as (first & z & Hf & Hm & Hd & Hne).
    pose proof (below_ne _ _ _ _ Hb Hm) as Hmn.
    pose proof (chain_length _ _ _ Hc Hnd) as Hl.
    rewrite Hf in Hc |- *. run.
    erewrite bind_done by (eapply last_node_chain; [exact Hc|];
      rewrite length_app in Hl; unfold node_fuel; cbn in Hl; lia).
    do 2 eexists. cbn beta zeta. split; [run; f_equal; lia|].
    rewrite fmap_app in Hnd. apply list.NoDup_app in Hnd as (Hnl & Hml & _). split.
    + eexists; rsimpl. split_and!; [by rewrite lookup_insert_eq| |..]; rsimpl.
      * rewrite Hsz, !blen_app. done.
      * rewrite Hf. eapply chain_snoc; [exact Hc| |lookup_tac|done|done|lookup_tac|done|done].
        intros k Hk. specialize (Hml k Hk).
        assert (is_Some (w_nodes w !! k)) as Hks.
        { eapply elem_of_dom, chain_in_nodes; [exact Hc|]. set_solver. }
        rewrite !lookup_insert_ne; [done|..]; [specialize (Hb k Hks); lia|set_solver].
      * rewrite !fmap_app. cbn. apply list.NoDup_app. split_and!; [..|apply list.NoDup_singleton].
        -- apply list.NoDup_app. split_and!; [done..|apply list.NoDup_singleton].
        -- intros k Hk ->%list_elem_of_singleton.
           assert (w_next w ∈ dom (w_nodes w)) as [? ?]%elem_of_dom; [|congruence].
           eapply chain_in_nodes; [exact Hc|]. rewrite fmap_app. done.
    + intros p Hp. rewrite !fmap_app in Hp. cbn in Hp.
      rewrite !lookup_insert_ne by set_solver. done.
Qed.

Lemma blen_pos_eqb {A} (x : A) l : (blen (x :: l) =? 0) = false.
Proof using. apply Z.eqb_neq. rewrite blen_cons. pose proof (blen_nonneg l). lia. Qed.

Lemma sockqueue_is_empty_rep w q l :
  queue_rep w q l → sockqueue_is_empty q w = Done (bool_decide (l = [])) w.
Proof using.
  intros (x & Hx & Hsz & _). unfold sockqueue_is_empty. run. rewrite Hsz.
  destruct l; [done|]. by rewrite blen_pos_eqb.
Qed.

(** Deleting a node leaves a chain that does not visit it. *)
Lemma chain_delete nodes p l n :
  n ∉ l.*1 → chain nodes p l → chain (delete n nodes) p l.
Proof using.
  intros Hn. apply chain_frame. intros m Hm. rewrite lookup_delete_ne; [done|]. by intros ->.
Qed.

Lemma sockqueue_pop_ok w q dst n d l sd sd' :
  queue_rep w q ((n, d) :: l) → w_socks w !! d = Some sd → w_socks w !! dst = Some sd' →
  ∃ x', let w' := w⟨w_queues := <[q := x']> (w_queues w)⟩⟨w_nodes := delete n (w_nodes w)⟩
                   ⟨w_socks := <[dst := sd]> (w_socks w)⟩ in
        sockqueue_pop q dst w = Done 0 w' ∧ queue_rep w' q l.
Proof using.
  intros Hrep Hd Hdst. unfold sockqueue_pop.
  erewrite bind_done by (by apply sockqueue_is_empty_rep).
  destruct Hrep as (x & Hx & Hsz & (Hb & y & Hy & Hyd & Hc) & Hnd).
  cbn [bool_decide decide_rel]. rewrite bool_decide_false by done.
  apply list.NoDup_cons in Hnd as [Hn Hnd].
  run. unfold copy_sock. subst d. run.
  eexists. split; [run; world_eq|].
  eexists; rsimpl. split_and!; [by rewrite lookup_insert_eq|..]; rsimpl; [|by apply chain_delete|done].
  rewrite Hsz, blen_cons. lia.
Qed.

Lemma chain_to_app nodes p l1 l2 m :
  chain_to nodes p (l1 ++ l2) m ↔ ∃ k, chain_to nodes p l1 k ∧ chain_to nodes k l2 m.
Proof using.
  revert p; induction l1 as [|[n d] l IH]; intros p; cbn.
  - split; [intros; eauto|]. by intros (k & -> & ?).
  - split.
    + intros (-> & x & Hx & Hd & Hc). apply IH in Hc as (k & ? & ?). eauto 10.
    + intros (k & (-> & x & Hx & Hd & Ht) & Hc).
      split; [done|]. exists x. split_and!; [done..|]. apply IH. eauto.
Qed.

(** Unlinking a node that is not the first one. *)
Lemma chain_unlink nodes p l1 m e n d l2 x y :
  chain nodes p ((l1 ++ [(m, e)]) ++ (n, d) :: l2) →
  NoDup ((l1 ++ [(m, e)]) ++ (n, d) :: l2).*1 →
  nodes !! m = Some x → nodes !! n = Some y →
  chain (delete n (<[m := x⟨node_next := node_next y⟩]> nodes)) p ((l1 ++ [(m, e)]) ++ l2).
Proof using.
  intros Hc Hnd Hx Hy. rewrite !fmap_app in Hnd. cbn in Hnd.
  rewrite <- !app_assoc in *. cbn in *.
  apply list.NoDup_app in Hnd as (_ & Hl1 & Hnd).
  apply list.NoDup_cons in Hnd as [Hm Hnd]. apply list.NoDup_cons in Hnd as [Hn _].
  apply chain_app in Hc as (k & Ht & -> & x' & Hx' & He & Hn2 & y' & Hy' & Hd & Hc).
  simplify_eq. apply chain_app. exists (Some m). split.
  - eapply chain_to_frame; [|exact Ht]. intros k Hk. specialize (Hl1 k Hk).
    rewrite lookup_delete_ne, lookup_insert_ne; [done|..]; set_solver.
  - cbn. split; [done|]. eexists. rewrite lookup_delete_ne, lookup_insert_eq by set_solver.
    split_and!; [done|done|]. rsimpl. apply chain_delete; [set_solver|].
    eapply chain_frame; [|exact Hc]. intros k Hk. rewrite lookup_insert_ne; [done|]. set_solver.
Qed.

Lemma sockqueue_remove_ok w q dst l1 m e n d l2 sd sd' :
  let l := l1 ++ [(m, e)] in
  queue_rep w q (l ++ (n, d) :: l2) → w_socks w !! d = Some sd → w_socks w !! dst = Some sd' →
  ∃ x' nodes',
    let w' := w⟨w_queues := <[q := x']> (w_queues w)⟩⟨w_nodes := nodes'⟩
               ⟨w_socks := <[dst := sd]> (w_socks w)⟩ in
    sockqueue_remove q dst (blen l) w = Done 0 w' ∧ queue_rep w' q (l ++ l2) ∧
    nodes_frame (l ++ (n, d) :: l2) (w_nodes w) nodes' ∧ dom nodes' ⊆ dom (w_nodes w).
Proof using.
  intros l Hrep Hd Hdst. unfold sockqueue_remove.
  erewrite bind_done by (by apply sockqueue_is_empty_rep).
  rewrite bool_decide_false by (by destruct l).
  destruct Hrep as (x & Hx & Hsz & Hc & Hnd).
  assert (blen l = blen l1 + 1) as Hl by (by unfold l; rewrite blen_app).
  pose proof (blen_nonneg l1). run. zif.
  pose proof Hc as (k & Hto & -> & y & Hy & Hyd & _)%chain_app.
  pose proof Hto as (k & Ht1 & -> & z & Hz & Hzd & Hzn)%chain_to_app. cbn in Hzn.
  destruct (q_base x) as [first|] eqn:Hb; [|by destruct l1 as [|[]]; cbn in Ht1; [|destruct Ht1]].
  run. erewrite bind_done.
  2: { eapply (skip_nodes_chain _ _ _ l1 m ([(m, e)] ++ (n, d) :: l2)); [exact Ht1| | |done].
       - rewrite Hl. unfold blen. lia.
       - unfold l in Hc. rewrite <- app_assoc in Hc. apply chain_app in Hc as (k & Hk & Hc).
         pose proof Hc as [-> _]. done. }
  assert (n ≠ m) as Hnm.
  { unfold l in Hnd. rewrite !fmap_app in Hnd. apply list.NoDup_app in Hnd as (_ & Hnd & _).
    intros ->. apply (Hnd m); cbn; set_solver. }
  cbv beta iota. run. rewrite Hzn. subst d. unfold copy_sock. run.
  do 2 eexists. split; [world_eq|]. split_and!.
  - eexists; rsimpl. split_and!; [by rewrite lookup_insert_eq|..]; rsimpl.
    + rewrite Hsz, !blen_app, blen_cons. lia.
    + rewrite Hb. by apply (chain_unlink _ _ _ _ e _ (node_data y)).
    + eapply list.sublist_NoDup; [exact Hnd|]. rewrite !fmap_app. cbn.
      apply list.sublist_app; [done|]. by apply list.sublist_cons.
  - intros p Hp. unfold l in Hp. rewrite !fmap_app in Hp. cbn in Hp.
    rewrite lookup_delete_ne, lookup_insert_ne by set_solver. done.
  - rewrite dom_delete, dom_insert_lookup_L by eauto. set_solver.
Qed.

(** What [sockqueue_remove] at index [i] leaves of a queue that held [l]. *)
Definition after_remove (w : world) (q : loc) (l : list (loc * loc)) (i : nat) : Prop :=
  if decide (i = 0%nat) then w_queues w !! q = Some (mk_sockqueue (blen l) None)
  else queue_rep w q (delete i l).

Lemma sockqueue_remove_any w q dst l i n d sd sd' :
  queue_rep w q l → l !! i = Some (n, d) → w_socks w !! d = Some sd → w_socks w !! dst = Some sd' →
  ∃ x' nodes',
    let w' := w⟨w_queues := <[q := x']> (w_queues w)⟩⟨w_nodes := nodes'⟩
               ⟨w_socks := <[dst := sd]> (w_socks w)⟩ in
    sockqueue_remove q dst (Z.of_nat i) w = Done 0 w' ∧ after_remove w' q l i ∧
    nodes_frame l (w_nodes w) nodes' ∧ dom nodes' ⊆ dom (w_nodes w).
Proof using.
  intros Hr Hl Hd Hdst. destruct (decide (i = 0%nat)) as [->|Hi].
  - destruct l as [|nd l]; [done|]. cbn in Hl. injection Hl as ->.
    unfold sockqueue_remove. erewrite bind_done by (by apply sockqueue_is_empty_rep).
    rewrite bool_decide_false by done.
    destruct Hr as (x & Hx & Hsz & (Hb & y & Hy & Hyd & Hc) & Hnd).
    cbv iota. run. subst d. unfold copy_sock. zif. run.
    do 2 eexists. split; [world_eq|]. unfold after_remove. rewrite decide_True by done. rsimpl.
    rewrite lookup_insert_eq, <- Hsz. split_and!; [done| |].
    + intros p Hp. cbn in Hp. rewrite lookup_delete_ne by set_solver. done.
    + rewrite dom_delete_L. set_solver.
  - pose proof (lookup_lt_Some _ _ _ Hl) as Hlt.
    assert (∃ m e, take i l = take (pred i) l ++ [(m, e)]) as (m & e & Ht).
    { destruct (lookup_lt_is_Some_2 l (pred i)) as [[m e] Hm]; [lia|].
      exists m, e. rewrite <- (take_S_r _ _ _ Hm). f_equal. lia. }
    assert (l = (take (pred i) l ++ [(m, e)]) ++ (n, d) :: drop (S i) l) as El.
    { rewrite <- Ht. symmetry. by apply take_drop_middle. }
    rewrite El in Hr. destruct (sockqueue_remove_ok _ _ _ _ _ _ _ _ _ _ _ Hr Hd Hdst)
      as (x' & nodes' & E & Hr' & Hf & Hdom). rewrite <- El in Hf.
    rewrite <- Ht in E, Hr'. unfold blen in E. rewrite length_take, Nat.min_l in E by lia.
    do 2 eexists. split; [exact E|]. unfold after_remove. rewrite decide_False by done.
    by rewrite delete_take_drop.
Qed.

(** One handshake after another on a half-open queue: the SYN pushes a socket,
    the ACK removes the index the push returned. *)
Definition half_open_cycle (q s dst : loc) : M Z :=
  index ← sockqueue_push q s; sockqueue_remove q dst index.

Fixpoint half_open_cycles (n : nat) (q s dst : loc) : M Z :=
  match n with
  | O => mret 0
  | S n => half_open_cycle q s dst;; half_open_cycles n q s dst
  end.

(** Removing index 0 unlinks the whole queue and leaves its size. *)
Lemma half_open_cycle_ok w q s dst k x y :
  w_queues w !! q = Some (mk_sockqueue k None) → 0 <= k < MAX_QUEUE →
  w_socks w !! s = Some x → w_socks w !! dst = Some y →
  ∃ w', half_open_cycle q s dst w = Done 0 w' ∧
        w_queues w' !! q = Some (mk_sockqueue (k + 1) None) ∧
        w_socks w' !! s = Some x ∧ is_Some (w_socks w' !! dst).
Proof using.
  intros Hq Hk Hs Hd. unfold half_open_cycle.
  erewrite bind_done by (unfold sockqueue_push; run; zif; run; reflexivity).
  unfold sockqueue_remove, sockqueue_is_empty. run. zif. run. unfold copy_sock. run.
  eexists. split; [reflexivity|]. rsimpl. rewrite !lookup_insert_eq. split_and!; [done| |eauto].
  destruct (decide (s = dst)) as [->|]; [by rewrite lookup_insert_eq|by rewrite lookup_insert_ne].
Qed.

Lemma half_open_cycles_ok n w q s dst k x y :
  w_queues w !! q = Some (mk_sockqueue k None) → 0 <= k → k + Z.of_nat n <= MAX_QUEUE →
  w_socks w !! s = Some x → w_socks w !! dst = Some y →
  ∃ w', half_open_cycles n q s dst w = Done 0 w' ∧
        w_queues w' !! q = Some (mk_sockqueue (k + Z.of_nat n) None).
Proof using.
  revert w k y; induction n as [|n IH]; intros w k y Hq H0 Hk Hs Hd; cbn [half_open_cycles].
  - exists w. by rewrite Z.add_0_r.
  - destruct (half_open_cycle_ok w q s dst k x y) as (w1 & E & Hq1 & Hs1 & [y' Hd1]); [done|lia|done..|].
    erewrite bind_done by exact E.
    destruct (IH w1 (k + 1) y') as (w2 & E2 & Hq2); [done|lia|lia|done..|].
    exists w2. rewrite E2, Hq2. split; [done|]. do 2 f_equal. lia.
Qed.

(** ** Properties *)

(** C29: [sockqueue_push] appends the socket at the end of the list the queue
    represents and returns its index, the previous length; the other cells of
    the heap and the nodes of other queues do not change.  A queue that holds
    [MAX_QUEUE] sockets is left alone and the result is -1. *)
Theorem sockqueue_push_spec w q s l :
  queue_rep w q l → below (w_next w) (w_nodes w) →
  (blen l = MAX_QUEUE → sockqueue_push q s w = Done (-1) w) ∧
  (blen l < MAX_QUEUE → ∃ nodes' x',
     let w' := w⟨w_nodes := nodes'⟩⟨w_queues := <[q := x']> (w_queues w)⟩
                ⟨w_next := Pos.succ (w_next w)⟩ in
     sockqueue_push q s w = Done (blen l) w' ∧ queue_rep w' q (l ++ [(w_next w, s)]) ∧
     nodes_frame (l ++ [(w_next w, s)]) (w_nodes w) nodes').
Proof using.
  intros Hr Hb. split; [|by apply sockqueue_push_ok].
  intros Hl. destruct Hr as (x & Hx & Hsz & _). unfold sockqueue_push. run.
  rewrite Hsz, Hl. done.
Qed.

(** [sockqueue_pop] on a queue that represents [(n, d) :: l] copies the
    socket at [d], the oldest, into the caller's socket, frees the node and
    leaves [l]; on an empty queue it returns -1 and changes nothing. *)
Theorem sockqueue_pop_spec w q dst l :
  queue_rep w q l → is_Some (w_socks w !! dst) →
  match l with
  | [] => sockqueue_pop q dst w = Done (-1) w
  | (n, d) :: l' => ∀ sd, w_socks w !! d = Some sd →
      ∃ w', sockqueue_pop q dst w = Done 0 w' ∧ queue_rep w' q l' ∧
            w_socks w' = <[dst := sd]> (w_socks w) ∧ w_nodes w' = delete n (w_nodes w)
  end.
Proof using.
  intros Hr [sd' Hdst]. destruct l as [|[n d] l'].
  - unfold sockqueue_pop. erewrite bind_done by (by apply sockqueue_is_empty_rep).
    by rewrite bool_decide_true.
  - intros sd Hd. destruct (sockqueue_pop_ok _ _ _ _ _ _ _ _ Hr Hd Hdst) as (x' & E & Hr').
    eexists. split; [exact E|]. by split.
Qed.

(** [sockqueue_remove] at an index [i > 0] inside the queue copies the
    [i]-th socket into the caller's and leaves the queue without that element. *)
Theorem sockqueue_remove_spec w q dst l i n d sd :
  queue_rep w q l → (0 < i)%nat → l !! i = Some (n, d) →
  w_socks w !! d = Some sd → is_Some (w_socks w !! dst) →
  ∃ w', sockqueue_remove q dst (Z.of_nat i) w = Done 0 w' ∧ queue_rep w' q (delete i l) ∧
        w_socks w' = <[dst := sd]> (w_socks w).
Proof using.
  intros Hr Hi Hl Hd [sd' Hdst].
  destruct (sockqueue_remove_any _ _ _ _ _ _ _ _ _ Hr Hl Hd Hdst) as (x' & nodes' & E & Ha & _).
  unfold after_remove in Ha. rewrite decide_False in Ha by lia.
  eexists. split; [exact E|]. by split.
Qed.

(** [sockqueue_remove] at index 0 empties the list but leaves [size]: every
    push of a first socket and removal of the returned index 0 uses up one of
    the [MAX_QUEUE] places, and after [MAX_QUEUE] of them the empty queue
    refuses every further socket. *)
Theorem sockqueue_remove_first_leaks w q s dst :
  w_queues w !! q = Some (mk_sockqueue 0 None) →
  is_Some (w_socks w !! s) → is_Some (w_socks w !! dst) →
  ∃ w', half_open_cycles (Z.to_nat MAX_QUEUE) q s dst w = Done 0 w' ∧
        w_queues w' !! q = Some (mk_sockqueue MAX_QUEUE None) ∧
        sockqueue_push q s w' = Done (-1) w'.
Proof using.
  intros Hq [x Hs] [y Hd].
  destruct (half_open_cycles_ok (Z.to_nat MAX_QUEUE) w q s dst 0 x y) as (w' & E & Hq'); try done.
  exists w'. split_and!; [done|done|]. unfold sockqueue_push. by run.
Qed.

End sockqueue.

(** ** Instances *)

Lemma queue_world_rep : queue_rep queue_world 7 [(11%positive, 1%positive); (12%positive, 2%positive)].
Proof.
  eexists. split_and!; [reflexivity|reflexivity| |].
  - cbn. split; [done|]. eexists. split_and!; [reflexivity|done|done|].
    eexists. split_and!; [reflexivity|done|done].
  - by apply (bool_decide_unpack _); vm_compute.
Qed.

Lemma queue_world_below : below (w_next queue_world) (w_nodes queue_world).
Proof. by apply below_check. Qed.

Lemma sockqueue_push_spec_witness :
  let l := [(11%positive, 1%positive); (12%positive, 2%positive)] in
  ∃ w', sockqueue_push 7 3 queue_world = Done 2 w' ∧
        queue_rep w' 7 (l ++ [(13%positive, 3%positive)]).
Proof.
  cbn zeta.
  destruct (proj2 (sockqueue_push_spec queue_world 7 3 _ queue_world_rep queue_world_below)
    eq_refl) as (nodes' & x' & E & Hr & _).
  eexists. exact (conj E Hr).
Defined.

Lemma sockqueue_pop_spec_witness :
  ∃ w', sockqueue_pop 7 3 queue_world = Done 0 w' ∧
        queue_rep w' 7 [(12%positive, 2%positive)].
Proof.
  destruct (sockqueue_pop_spec queue_world 7 3 _ queue_world_rep (ex_intro _ _ eq_refl) _ eq_refl)
    as (w' & E & Hr & _).
  exists w'. exact (conj E Hr).
Defined.

Lemma sockqueue_remove_spec_witness :
  ∃ w', sockqueue_remove 7 3 1 queue_world = Done 0 w' ∧
        queue_rep w' 7 [(11%positive, 1%positive)].
Proof.
  destruct (sockqueue_remove_spec queue_world 7 3 _ 1 _ _ _ queue_world_rep
    (le_n 1) eq_refl eq_refl (ex_intro _ _ eq_refl)) as (w' & E & Hr & _).
  exists w'. exact (conj E Hr).
Defined.

Lemma sockqueue_remove_first_leaks_witness :
  ∃ w', half_open_cycles (Z.to_nat MAX_QUEUE) 8 1 3 queue_world = Done 0 w' ∧
        sockqueue_push 8 1 w' = Done (-1) w'.
Proof.
  destruct (sockqueue_remove_first_leaks queue_world 8 1 3 eq_refl
    (ex_intro _ _ eq_refl) (ex_intro _ _ eq_refl)) as (w' & E & _ & Hp).
  exists w'. exact (conj E Hp).
Defined.
