(* ===== verification/Control.v ===== *)
(** * The lower layer and the header-only segments

    [sendToLayer3] and [cal_hash] of src/kernel.c, and the functions of
    src/tju_tcp.c and src/kernel.c that send a segment without payload. *)

From S2P Require Import Prelude Consts Packet Machine.

Section control.
Context `{Env}.

(** The datagram handed to the UDP socket is recorded in [w_sent]. *)
Definition sendToLayer3 (packet_buf : list Z) (packet_len : Z) : M unit :=
  if MAX_LEN <? packet_len then mret tt
  else
    match env_host with
    | Host_other => exit (-1)
    | _ =>
        dgram ← lift OutOfBounds (mem_read packet_buf 0 packet_len);
        update (fun w => w⟨w_sent := w_sent w ++ [dgram]⟩)
    end.

(** The conversions to [int] wrap, the additions overflow, and [%] has the
    sign of the dividend. *)
Definition cal_hash (local_ip local_port remote_ip remote_port : Z) : option Z :=
  s ← int_result (i32 local_ip + i32 local_port);
  s ← int_result (s + i32 remote_ip);
  s ← int_result (s + i32 remote_port);
  Some (Z.rem s MAX_SOCK_SIZE).

Definition tcp_send_fin_ack (s : loc) : M unit :=
  sock ← load_sock s;
  rcv ← load_rcv (wnd_recv sock);
  let seq := i32 (expect_seq rcv) in
  let ack := seq in
  let flags := Z.lor ACK FIN in
  send_pkt ← lift OutOfBounds (create_packet_buf (port (established_local_addr sock))
    (port (established_remote_addr sock)) seq ack HEADER_LEN HEADER_LEN flags 0 0 [] 0);
  sendToLayer3 send_pkt HEADER_LEN.

Definition tcp_send_syn (s : loc) : M unit :=
  sock ← load_sock s;
  rcv ← load_rcv (wnd_recv sock);
  let seq := i32 (expect_seq rcv) in
  let ack := seq in
  let flags := SYN in
  send_pkt ← lift OutOfBounds (create_packet_buf (port (established_local_addr sock))
    (port (established_remote_addr sock)) seq ack HEADER_LEN HEADER_LEN flags 0 0 [] 0);
  sendToLayer3 send_pkt HEADER_LEN.

Definition tcp_send_syn_ack (s : loc) : M unit :=
  sock ← load_sock s;
  rcv ← load_rcv (wnd_recv sock);
  let seq := i32 (expect_seq rcv) in
  let ack := seq in
  let flags := Z.lor SYN ACK in
  send_pkt ← lift OutOfBounds (create_packet_buf (port (established_local_addr sock))
    (port (established_remote_addr sock)) seq ack HEADER_LEN HEADER_LEN flags 0 0 [] 0);
  sendToLayer3 send_pkt HEADER_LEN.

Definition tcp_send_ack (s : loc) : M unit :=
  sock ← load_sock s;
  rcv ← load_rcv (wnd_recv sock);
  let seq := expect_seq rcv in
  let ack := seq in
  rwnd ← lift IntOverflow (int_result (TCP_RECV_BUFFER_SIZE - received_len sock));
  send_pkt ← lift OutOfBounds (create_packet_buf (port (established_local_addr sock))
    (port (established_remote_addr sock)) seq ack HEADER_LEN HEADER_LEN ACK rwnd 0 [] 0);
  sendToLayer3 send_pkt HEADER_LEN.

Definition tcp_send_rst (s : loc) : M unit :=
  sock ← load_sock s;
  rcv ← load_rcv (wnd_recv sock);
  let seq := expect_seq rcv in
  let ack := seq in
  send_pkt ← lift OutOfBounds (create_packet_buf (port (established_local_addr sock))
    (port (established_remote_addr sock)) seq ack HEADER_LEN HEADER_LEN RST 0 0 [] 0);
  sendToLayer3 send_pkt HEADER_LEN.

(** Window probes: a header-only segment, and the answer to one. *)
Definition send_only_header (s : loc) : M unit :=
  sock ← load_sock s;
  diff ← lift IntOverflow (int_result (TCP_RECV_BUFFER_SIZE - received_len sock));
  let adv_wnd := u16 diff in
  let plen := DEFAULT_HEADER_LEN in
  snd ← load_snd (wnd_send sock);
  let seq := nextseq snd in
  msg ← lift OutOfBounds (create_packet_buf (port (established_local_addr sock))
    (port (established_remote_addr sock)) seq 0 DEFAULT_HEADER_LEN plen HEAD adv_wnd 0 [] 0);
  sendToLayer3 msg plen.

Definition back_only_header (s : loc) : M unit :=
  sock ← load_sock s;
  diff ← lift IntOverflow (int_result (TCP_RECV_BUFFER_SIZE - received_len sock));
  let adv_wnd := u16 diff in
  let plen := DEFAULT_HEADER_LEN in
  snd ← load_snd (wnd_send sock);
  let seq := nextseq snd in
  msg ← lift OutOfBounds (create_packet_buf (port (established_local_addr sock))
    (port (established_remote_addr sock)) seq 0 DEFAULT_HEADER_LEN plen BACKHEAD adv_wnd 0 [] 0);
  sendToLayer3 msg plen.

Definition keep_alive (s : loc) : M unit :=
  sock ← load_sock s;
  snd ← load_snd (wnd_send sock);
  let seq := nextseq snd in
  let plen := HEADER_LEN in
  msg ← lift OutOfBounds (create_packet_buf (port (established_local_addr sock))
    (port (established_remote_addr sock)) seq 0 DEFAULT_HEADER_LEN plen NO_FLAG 1 0 [] 0);
  sendToLayer3 msg plen.

Definition tcp_init_listener (s : loc) : M unit :=
  modify s (fun sock => sock⟨state := LISTEN⟩);;
  sock ← load_sock s;
  modify (wnd_recv sock) (fun r => r⟨expect_seq := 0⟩);;
  modify (wnd_send sock) (fun r => r⟨base := 0⟩);;
  modify (wnd_send sock) (fun r => r⟨nextseq := 0⟩).

(** [int expected_seq = get_seq(pkt) + get_plen(pkt) - get_hlen(pkt)]: the sum
    is unsigned, the variable is [int], the field is unsigned again. *)
Definition tcp_update_expected_seq (s : loc) (pkt : list Z) : M unit :=
  seq ← lift OutOfBounds (get_seq pkt);
  plen ← lift OutOfBounds (get_plen pkt);
  hlen ← lift OutOfBounds (get_hlen pkt);
  let expected_seq := i32 (u32 (u32 (seq + plen) - hlen)) in
  sock ← load_sock s;
  modify (wnd_recv sock) (fun r => r⟨expect_seq := u32 expected_seq⟩).

(** It falls off its end, without a value, except on an ACK; nothing calls it. *)
Definition tcp_check_seq (pkt : tju_packet_t) (s : loc) : M (option Z) :=
  sock ← load_sock s;
  rcv ← load_rcv (wnd_recv sock);
  if flags (header pkt) =? ACK then
    if seq_num (header pkt) =? expect_seq rcv then mret (Some 0) else mret (Some (-1))
  else mret None.

(** ** Lemmas *)

Context (Hhost : env_host ≠ Host_other).

Lemma sendToLayer3_ok pkt len w :
  blen pkt = len → len <= MAX_LEN →
  sendToLayer3 pkt len w = Done tt (w⟨w_sent := w_sent w ++ [pkt]⟩).
Proof using Hhost.
  intros Hl Hm. unfold sendToLayer3. zif.
  destruct env_host; [..|done]; run; by rewrite mem_read_full.
Qed.

(** The segments of a socket: from its local to its remote port. *)
Definition sock_segment (sock : tju_tcp_t) (seq ack fl win : Z) : list Z :=
  segment (port (established_local_addr sock)) (port (established_remote_addr sock))
    seq ack fl win.

Lemma send_segment_ok src dst seq ack fl win w :
  sendToLayer3 (segment src dst seq ack fl win) HEADER_LEN w =
  Done tt (w⟨w_sent := w_sent w ++ [segment src dst seq ack fl win]⟩).
Proof using Hhost. by apply sendToLayer3_ok. Qed.
(** The same, under the other name of the header length. *)
Lemma segment_default_eq src dst seq ack fl win :
  create_packet_buf src dst seq ack DEFAULT_HEADER_LEN DEFAULT_HEADER_LEN fl win 0 [] 0 =
  Some (segment src dst seq ack fl win).
Proof using. exact (segment_eq src dst seq ack fl win). Qed.
Lemma send_segment_default_ok src dst seq ack fl win w :
  sendToLayer3 (segment src dst seq ack fl win) DEFAULT_HEADER_LEN w =
  Done tt (w⟨w_sent := w_sent w ++ [segment src dst seq ack fl win]⟩).
Proof using Hhost. by apply sendToLayer3_ok. Qed.
#[local] Hint Resolve send_segment_ok segment_eq segment_default_eq send_segment_default_ok
  : exec.

Lemma tcp_send_ack_ok s w sock rcv :
  w_socks w !! s = Some sock → w_rcvs w !! wnd_recv sock = Some rcv →
  is_int (TCP_RECV_BUFFER_SIZE - received_len sock) →
  tcp_send_ack s w = Done tt (w⟨w_sent := w_sent w ++
    [sock_segment sock (expect_seq rcv) (expect_seq rcv) ACK
       (TCP_RECV_BUFFER_SIZE - received_len sock)]⟩).
Proof using Hhost. intros. unfold tcp_send_ack. run. final. Qed.

Lemma tcp_send_fin_ack_ok s w sock rcv :
  w_socks w !! s = Some sock → w_rcvs w !! wnd_recv sock = Some rcv →
  tcp_send_fin_ack s w = Done tt (w⟨w_sent := w_sent w ++
    [sock_segment sock (i32 (expect_seq rcv)) (i32 (expect_seq rcv)) (Z.lor ACK FIN) 0]⟩).
Proof using Hhost. intros. unfold tcp_send_fin_ack. run. final. Qed.

Lemma tcp_send_syn_ok s w sock rcv :
  w_socks w !! s = Some sock → w_rcvs w !! wnd_recv sock = Some rcv →
  tcp_send_syn s w = Done tt (w⟨w_sent := w_sent w ++
    [sock_segment sock (i32 (expect_seq rcv)) (i32 (expect_seq rcv)) SYN 0]⟩).
Proof using Hhost. intros. unfold tcp_send_syn. run. final. Qed.

Lemma tcp_send_syn_ack_ok s w sock rcv :
  w_socks w !! s = Some sock → w_rcvs w !! wnd_recv sock = Some rcv →
  tcp_send_syn_ack s w = Done tt (w⟨w_sent := w_sent w ++
    [sock_segment sock (i32 (expect_seq rcv)) (i32 (expect_seq rcv)) (Z.lor SYN ACK) 0]⟩).
Proof using Hhost. intros. unfold tcp_send_syn_ack. run. final. Qed.

Lemma back_only_header_ok s w sock snd :
  w_socks w !! s = Some sock → w_snds w !! wnd_send sock = Some snd →
  is_int (TCP_RECV_BUFFER_SIZE - received_len sock) →
  back_only_header s w = Done tt (w⟨w_sent := w_sent w ++
    [sock_segment sock (nextseq snd) 0 BACKHEAD (u16 (TCP_RECV_BUFFER_SIZE - received_len sock))]⟩).
Proof using Hhost. intros. unfold back_only_header. run. final. Qed.

Lemma send_only_header_ok s w sock snd :
  w_socks w !! s = Some sock → w_snds w !! wnd_send sock = Some snd →
  is_int (TCP_RECV_BUFFER_SIZE - received_len sock) →
  send_only_header s w = Done tt (w⟨w_sent := w_sent w ++
    [sock_segment sock (nextseq snd) 0 HEAD (u16 (TCP_RECV_BUFFER_SIZE - received_len sock))]⟩).
Proof using Hhost. intros. unfold send_only_header. run. final. Qed.

(** The expected sequence number after a segment: its sequence number plus
    its payload length. *)
Definition segment_end (h : tju_header_t) : Z := u32 (seq_num h + plen h - hlen h).

Lemma update_expected_value seq pl hl :
  u32 (i32 (u32 (u32 (seq + pl) - hl))) = u32 (seq + pl - hl).
Proof. by rewrite u32_i32, u32_u32, u32_sub_l. Qed.

Lemma tcp_update_expected_seq_ok s w sock rcv pkt h :
  w_socks w !! s = Some sock → w_rcvs w !! wnd_recv sock = Some rcv → fields_of pkt h →
  tcp_update_expected_seq s pkt w =
  Done tt (w⟨w_rcvs := <[wnd_recv sock := rcv⟨expect_seq := segment_end h⟩]> (w_rcvs w)⟩).
Proof using.
  intros Hs Hr [? ? Hseq ? Hhl Hpl]. unfold tcp_update_expected_seq. run.
  erewrite modify_ok by lookup_tac. by rewrite update_expected_value.
Qed.

End control.

#[export] Hint Resolve send_segment_ok segment_eq segment_default_eq send_segment_default_ok
  tcp_send_ack_ok tcp_send_fin_ack_ok
  tcp_send_syn_ok tcp_send_syn_ack_ok back_only_header_ok send_only_header_ok
  tcp_update_expected_seq_ok : exec.

(** ** The connection tables' index *)

Section cal_hash.

Lemma i32_small z : 0 <= z < 2 ^ 31 → i32 z = z.
Proof using. intros. apply i32_id. unfold is_int. lia. Qed.

Lemma cal_hash_ok lip lp rip rp :
  0 <= lip → 0 <= rip → is_u16 lp → is_u16 rp → lip + rip < 2 ^ 31 - 2 ^ 17 →
  cal_hash lip lp rip rp = Some ((lip + lp + rip + rp) mod MAX_SOCK_SIZE).
Proof using.
  intros. unfold cal_hash. widths.
  rewrite !i32_small by (rewrite pow2_31; lia).
  do 3 (rewrite int_result_ok by (widths; lia); cbn [mbind option_bind]).
  f_equal. apply Z.rem_mod_nonneg; [lia|done].
Qed.

(** [cal_hash] on addresses below 64.0.0.0, which the stack's own 10.0.0.2,
    10.0.0.3 and 0 are, never overflows and is an index of the tables of
    [MAX_SOCK_SIZE] entries: the sum of its arguments modulo their length. *)
Theorem cal_hash_in_table lip lp rip rp :
  0 <= lip < 2 ^ 30 → 0 <= rip < 2 ^ 30 - 2 ^ 17 → is_u16 lp → is_u16 rp →
  ∃ h, cal_hash lip lp rip rp = Some h ∧ 0 <= h < MAX_SOCK_SIZE ∧
       h = (lip + lp + rip + rp) mod MAX_SOCK_SIZE.
Proof using.
  intros. eexists. split; [apply cal_hash_ok; lia || done|].
  split; [by apply Z.mod_pos_bound|done].
Qed.

Lemma cal_hash_in_table_witness :
  ∃ h, cal_hash (10 * 2 ^ 24 + 3) 1234 (10 * 2 ^ 24 + 2) 5678 = Some h ∧ 0 <= h < MAX_SOCK_SIZE.
Proof.
  destruct (cal_hash_in_table (10 * 2 ^ 24 + 3) 1234 (10 * 2 ^ 24 + 2) 5678)
    as (h & E & Hr & _); [done|done|done|done|]. exists h. exact (conj E Hr).
Defined.

End cal_hash.
