(* ===== verification/Congestion.v ===== *)
(** * Congestion control

    [handle_success_ack] (src/kernel.c) and [handle_loss_ack] (src/timer.c)
    update the congestion state of a socket; both are functions on the socket
    record, [None] being an [int] overflow or a float that is not an [int]. *)

From S2P Require Import Prelude Consts CFloat Machine Samples.

(** [(int)(SMSS*((float)SMSS/sock->cwnd))] with [SMSS] expanded to [1*MAX_LEN]:
    [1*1400*((float)1*1400/cwnd)]. *)
Definition congestion_increment (cwnd : Z) : option Z :=
  int_of_float
    (f32_mul (f32_of_Z (1 * MAX_LEN))
       (f32_div (f32_mul (f32_of_Z 1) (f32_of_Z MAX_LEN)) (f32_of_Z cwnd))).

Definition handle_success_ack (sock : tju_tcp_t) : option tju_tcp_t :=
  if con_status sock =? SLOW_START then
    c ← int_result (cwnd sock + SMSS);
    let sock := sock⟨cwnd := c⟩ in
    Some (if ssthresh sock <? cwnd sock
          then sock⟨con_status := CONGESTION_AVOIDANCE⟩ else sock)
  else if con_status sock =? CONGESTION_AVOIDANCE then
    d ← congestion_increment (cwnd sock);
    c ← int_result (cwnd sock + d);
    Some (sock⟨cwnd := c⟩)
  else if con_status sock =? FAST_RECOVERY then
    c ← int_result (cwnd sock + SMSS);
    Some (sock⟨cwnd := c⟩)
  else Some sock.

Definition handle_loss_ack (sock : tju_tcp_t) : option tju_tcp_t :=
  let timeout_counts := Z.rem (timeout_counts sock) 4 in
  if con_status sock =? SLOW_START then
    t ← int_result (cwnd sock + 1);
    let sock := sock⟨ssthresh := t ÷ 2⟩⟨cwnd := 1 * SMSS⟩ in
    Some (if ssthresh sock <? cwnd sock
          then sock⟨con_status := CONGESTION_AVOIDANCE⟩ else sock)
  else if (con_status sock =? CONGESTION_AVOIDANCE) && (timeout_counts =? 3) then
    t ← int_result (cwnd sock + 1);
    let sock := sock⟨ssthresh := t ÷ 2⟩ in
    c ← int_result (ssthresh sock + 3 * SMSS);
    Some (sock⟨cwnd := c⟩⟨con_status := FAST_RECOVERY⟩)
  else if con_status sock =? FAST_RECOVERY then
    t ← int_result (cwnd sock + 1);
    Some (sock⟨ssthresh := t ÷ 2⟩⟨cwnd := 1⟩⟨con_status := SLOW_START⟩)
  else Some sock.

(** ** Properties

    The states a socket goes through: [tcp_socket] sets the initial one, an ACK
    and a timeout are the only changes; the fields the two functions do not
    touch may change freely in between, as may [timeout_counts]. *)

Definition cc_fields (s : tju_tcp_t) : Z * Z * Z := (con_status s, cwnd s, ssthresh s).

Inductive cc_reachable : Z * Z * Z → Prop :=
  | cc_init : cc_reachable (SLOW_START, SMSS, IW)
  | cc_ack s s' : cc_reachable (cc_fields s) → handle_success_ack s = Some s' →
                  cc_reachable (cc_fields s')
  | cc_loss s s' : cc_reachable (cc_fields s) → handle_loss_ack s = Some s' →
                   cc_reachable (cc_fields s').

(** The congestion state agrees with the comparison of the two windows. *)
Definition cc_inv (x : Z * Z * Z) : Prop :=
  let '(st, c, t) := x in
  1 <= c < 2 ^ 31 ∧ 0 <= t ∧
  ((st = SLOW_START ∧ c <= t) ∨
   ((st = CONGESTION_AVOIDANCE ∨ st = FAST_RECOVERY) ∧ t < c)).

Lemma congestion_increment_nonneg c d : 0 <= c → congestion_increment c = Some d → 0 <= d.
Proof.
  intros Hc. apply int_of_float_nonneg, f32_mul_nonneg; [done|].
  apply f32_div_nonneg; [done|]. by apply f32_of_Z_nonneg.
Qed.

(** Splits the conditionals of the two handlers. *)
Ltac cc_cases :=
  repeat match goal with
  | H : (if ?b then _ else _) = Some _ |- _ => destruct b eqn:?
  | H : context [if ?b then _ else _] |- _ => destruct b eqn:?
  | |- context [if ?b then _ else _] => destruct b eqn:?
  end; zbool.

Ltac cc_solve :=
  opt_inv; repeat match goal with H : int_result _ = Some _ |- _ => apply int_result_Some in H as [-> H] end;
  cc_cases; opt_inv; rsimpl; unfold cc_inv, is_int, SMSS, MAX_LEN, SLOW_START, CONGESTION_AVOIDANCE,
    FAST_RECOVERY in *; rsimpl; Z.quot_rem_to_equations; lia.

Lemma cc_inv_ack s s' : cc_inv (cc_fields s) → handle_success_ack s = Some s' → cc_inv (cc_fields s').
Proof.
  unfold handle_success_ack, cc_fields. intros Hi Hs.
  assert (0 <= cwnd s) as Hpos by (unfold cc_inv in Hi; lia).
  cc_cases; try (opt_inv; match goal with
    | H : congestion_increment _ = Some _ |- _ => apply congestion_increment_nonneg in H; [|done] end);
  cc_solve.
Qed.

Lemma cc_inv_loss s s' : cc_inv (cc_fields s) → handle_loss_ack s = Some s' → cc_inv (cc_fields s').
Proof. unfold handle_loss_ack, cc_fields. intros Hi Hs. cc_cases; cc_solve. Qed.

(** C16: in every state of the congestion-control machine, however ACKs and
    timeouts alternate, [con_status] is one of the three states, the window is
    positive and fits an [int], and the state agrees with the windows: slow
    start while [cwnd <= ssthresh], congestion avoidance or fast recovery only
    when [cwnd > ssthresh]. *)
Theorem congestion_invariant st c t :
  cc_reachable (st, c, t) →
  1 <= c < 2 ^ 31 ∧ 0 <= t ∧
  (st = SLOW_START ∧ c <= t ∨ (st = CONGESTION_AVOIDANCE ∨ st = FAST_RECOVERY) ∧ t < c).
Proof.
  intros H. change (cc_inv (st, c, t)). revert H. generalize (st, c, t). intros x H.
  induction H as [|s s' _ IH Hs|s s' _ IH Hs].
  - unfold cc_inv, SMSS, IW, MAX_LEN. lia.
  - by eapply cc_inv_ack.
  - by eapply cc_inv_loss.
Qed.

(** ACKs, and timeouts with the values of [timeout_counts] then. *)
Fixpoint cc_run (es : list (option Z)) (s : tju_tcp_t) : option tju_tcp_t :=
  match es with
  | [] => Some s
  | None :: es => s' ← handle_success_ack s; cc_run es s'
  | Some n :: es => s' ← handle_loss_ack (s⟨timeout_counts := n⟩); cc_run es s'
  end.

Lemma cc_run_reachable es s s' :
  cc_reachable (cc_fields s) → cc_run es s = Some s' → cc_reachable (cc_fields s').
Proof.
  revert s. induction es as [|[n|] es IH]; intros s Hs; cbn; [by intros [= <-]|..].
  - destruct (handle_loss_ack _) as [s1|] eqn:E; [|done]. cbn. apply IH.
    by apply (cc_loss (s⟨timeout_counts := n⟩)).
  - destruct (handle_success_ack s) as [s1|] eqn:E; [|done]. cbn. apply IH. by eapply cc_ack.
Qed.

(** A timeout, two ACKs and the third timeout after it lead to fast recovery. *)
Lemma congestion_invariant_witness :
  ∃ s c t, cc_run [Some 0; None; None; Some 1; Some 3] sample_sock = Some s ∧
    cc_fields s = (FAST_RECOVERY, c, t) ∧ 1 <= c < 2 ^ 31 ∧ 0 <= t ∧
    (FAST_RECOVERY = SLOW_START ∧ c <= t ∨
     (FAST_RECOVERY = CONGESTION_AVOIDANCE ∨ FAST_RECOVERY = FAST_RECOVERY) ∧ t < c).
Proof.
  destruct (cc_run [Some 0; None; None; Some 1; Some 3] sample_sock) as [s|] eqn:E;
    [|exfalso; revert E; vm_compute; discriminate].
  assert (cc_fields sample_sock = (SLOW_START, SMSS, IW)) as E0 by reflexivity.
  assert (cc_reachable (cc_fields s)) as Hr.
  { refine (cc_run_reachable _ _ _ _ E). rewrite E0. exact cc_init. }
  assert (con_status s = FAST_RECOVERY) as Hst.
  { assert (option_map con_status (cc_run [Some 0; None; None; Some 1; Some 3] sample_sock) =
      Some FAST_RECOVERY) as E1 by (vm_compute; reflexivity).
    rewrite E in E1. by injection E1. }
  assert (cc_fields s = (FAST_RECOVERY, cwnd s, ssthresh s)) as Ef by (rewrite <- Hst; reflexivity).
  rewrite Ef in Hr. exists s, (cwnd s), (ssthresh s). split; [reflexivity|]. split; [exact Ef|]. exact (congestion_invariant _ _ _ Hr).
Defined.

(** an ACK never shrinks the window and never changes the threshold; the
    only change of state it makes is from slow start to congestion avoidance,
    once the window has passed the threshold.  Fast recovery is never left by
    an ACK. *)
Theorem success_ack_monotone s s' :
  0 <= cwnd s → handle_success_ack s = Some s' →
  cwnd s <= cwnd s' ∧ ssthresh s' = ssthresh s ∧
  (con_status s' = con_status s ∨
   con_status s = SLOW_START ∧ con_status s' = CONGESTION_AVOIDANCE ∧ ssthresh s < cwnd s').
Proof.
  unfold handle_success_ack. intros Hpos Hs.
  cc_cases; try (opt_inv; match goal with
    | H : congestion_increment _ = Some _ |- _ => apply congestion_increment_nonneg in H; [|done] end);
  cc_solve.
Qed.

Lemma success_ack_monotone_witness :
  ∃ s', handle_success_ack sample_sock = Some s' ∧ cwnd sample_sock <= cwnd s'.
Proof.
  eexists. split; [vm_compute; reflexivity|].
  eapply (success_ack_monotone sample_sock); [done|vm_compute; reflexivity].
Defined.

(** what a timeout does to the window.  In slow start the threshold becomes
    half the window and the window one segment; in congestion avoidance only
    every fourth timeout has an effect, a window of half its size plus three
    segments and fast recovery; in fast recovery the window collapses to one
    byte (not one segment) and slow start begins again.  No timeout overflows. *)
Theorem loss_ack_spec s :
  0 <= cwnd s < 2 ^ 31 - 1 →
  let half := (cwnd s + 1) / 2 in
  handle_loss_ack s =
    if con_status s =? SLOW_START then
      Some (let s' := s⟨ssthresh := half⟩⟨cwnd := SMSS⟩ in
            if half <? SMSS then s'⟨con_status := CONGESTION_AVOIDANCE⟩ else s')
    else if con_status s =? CONGESTION_AVOIDANCE then
      if Z.rem (timeout_counts s) 4 =? 3
      then Some (s⟨ssthresh := half⟩⟨cwnd := half + 3 * SMSS⟩⟨con_status := FAST_RECOVERY⟩)
      else Some s
    else if con_status s =? FAST_RECOVERY then
      Some (s⟨ssthresh := half⟩⟨cwnd := 1⟩⟨con_status := SLOW_START⟩)
    else Some s.
Proof.
  intros Hc half. unfold handle_loss_ack.
  assert ((cwnd s + 1) ÷ 2 = half) as Eh by (apply Z.quot_div_nonneg; lia).
  assert (0 <= half <= 2 ^ 30) as Hh by (unfold half; Z.div_mod_to_equations; lia).
  rewrite int_result_ok by (widths; lia). cbn [mbind option_bind]. rsimpl. rewrite Eh.
  destruct (con_status s =? SLOW_START); [done|].
  destruct (con_status s =? CONGESTION_AVOIDANCE) eqn:E; cbn [andb]; [|done].
  apply Z.eqb_eq in E. rewrite E.
  destruct (Z.rem _ 4 =? 3); [|done].
  rewrite int_result_ok by (unfold SMSS, MAX_LEN; widths; lia). done.
Qed.

Lemma loss_ack_spec_witness :
  handle_loss_ack sample_sock =
  Some (sample_sock⟨ssthresh := 700⟩⟨cwnd := SMSS⟩⟨con_status := CONGESTION_AVOIDANCE⟩).
Proof. rewrite (loss_ack_spec sample_sock); [vm_compute; reflexivity|done]. Defined.

(** In congestion avoidance the window grows by [SMSS * SMSS / cwnd] bytes
    for an ACK: the [float] computation of the code is exact for every window
    from one segment to two. *)
Lemma congestion_increment_exact c :
  SMSS <= c <= 2 * SMSS → congestion_increment c = Some (SMSS * SMSS / c).
Proof.
  intros Hc.
  assert (forallb (fun k => bool_decide
    (congestion_increment (SMSS + Z.of_nat k) = Some (SMSS * SMSS / (SMSS + Z.of_nat k))))
    (seq 0 (Z.to_nat (SMSS + 1))) = true) as Hall by (vm_compute; reflexivity).
  pose proof (proj1 (forallb_forall _ _) Hall (Z.to_nat (c - SMSS))) as Hk.
  cbv beta in Hk. rewrite Z2Nat.id in Hk by lia.
  replace (SMSS + (c - SMSS)) with c in Hk by lia.
  apply (bool_decide_unpack _). rewrite Hk; [done|]. apply in_seq. lia.
Qed.

