(* ===== verification/Timer.v ===== *)
(** * The retransmission timer: src/timer.c, except its thread

    RTT estimation on the timer record, and starting and stopping the timer.
    The function the timer thread runs is in TimerThread.v. *)

From S2P Require Import Prelude Consts CFloat Machine Samples.

(** src/utils.c *)
Definition max (a b : f32) : f32 := if SFltb b a then a else b.
Definition min (a b : Z) : Z := if a <? b then a else b.
Definition min_among_3 (a b c : Z) : Z :=
  let temp := if a <? b then a else b in
  if temp <? c then temp else c.

(** include/consts.h: [CLOCK_G] is a [double]. *)
Definition CLOCK_G : f64 := f64_tenth.

(** [abs] is the integer function: its argument is converted to [int] first. *)
Definition c_abs (x : f32) : option Z := z ← int_of_float x; int_result (Z.abs z).

Definition tcp_set_estimator (t : rtt_timer_t) (mrtt_us : f32) : option rtt_timer_t :=
  let t := t⟨estimated_rtt := f32_add (f32_mul (f32_of_Z (1 - ALPHA)) (estimated_rtt t))
                                      (f32_mul (f32_of_Z ALPHA) mrtt_us)⟩ in
  a ← c_abs (f32_sub (estimated_rtt t) mrtt_us);
  b ← int_result (BETA * a);
  Some (t⟨dev_rtt := f32_add (f32_mul (f32_of_Z (1 - BETA)) (dev_rtt t)) (f32_of_Z b)⟩).

Definition tcp_bound_rto (t : rtt_timer_t) : rtt_timer_t :=
  if SFltb (f32_of_Z TCP_RTO_MAX) (timeout t)
  then t⟨timeout := f32_of_Z TCP_RTO_MAX⟩ else t.

(** [timeout = estimated_rtt = max(CLOCK_G, 4 * dev_rtt)]: both fields are assigned. *)
Definition tcp_set_rto (t : rtt_timer_t) : rtt_timer_t :=
  let v := max (f32_of_f64 CLOCK_G) (f32_mul (f32_of_Z 4) (dev_rtt t)) in
  tcp_bound_rto (t⟨estimated_rtt := v⟩⟨timeout := v⟩).

Definition tcp_ack_update_rtt (t : rtt_timer_t) (seq_rtt_us sack_rtt_us : f32)
    : option rtt_timer_t :=
  let seq_rtt_us := if SFltb seq_rtt_us (f32_of_Z 0) then sack_rtt_us else seq_rtt_us in
  t ← tcp_set_estimator t seq_rtt_us;
  Some (tcp_set_rto t).

Section timer.
Context `{Env}.

(** The timer record is allocated, then filled; [timer_thread = 0]. *)
Definition tcp_init_rtt (s : loc) : M unit :=
  t ← alloc junk_timer;
  modify s (fun sock => sock⟨rtt_timer := t⟩);;
  modify t (fun r => r⟨estimated_rtt := f32_of_Z 3⟩);;
  modify t (fun r => r⟨dev_rtt := f32_of_Z 3⟩);;
  modify t (fun r => r⟨timeout := f32_of_Z 3⟩);;
  modify t (fun r => r⟨timer_thread := None⟩).

Definition tcp_init_timer (s : loc) (retransmit_handler : callback_t) : M unit :=
  tcp_init_rtt s;;
  sock ← load_sock s;
  modify (rtt_timer sock) (fun r => r⟨callback := retransmit_handler⟩);;
  modify (rtt_timer sock) (fun r => r⟨started := 0⟩);;
  modify (rtt_timer sock) (fun r => r⟨timer_lock := false⟩).

Definition tcp_stop_timer (s : loc) : M unit :=
  sock ← load_sock s;
  let t := rtt_timer sock in
  r ← load_timer t;
  if started r =? 0 then mret tt
  else
    pthread_mutex_lock t timer_lock;;
    modify t (fun r => r⟨started := 0⟩);;
    pthread_mutex_unlock t timer_lock;;
    pthread_mutex_lock s signal_lock;;
    modify s (fun sock => sock⟨interrupt_signal := 1⟩);;
    pthread_mutex_unlock s signal_lock;;
    r ← load_timer t;
    pthread_join (timer_thread r).

Definition tcp_start_timer (s : loc) : M unit :=
  sock ← load_sock s;
  let t := rtt_timer sock in
  r ← load_timer t;
  (if started r =? 1 then tcp_stop_timer s else mret tt);;
  pthread_mutex_lock t timer_lock;;
  modify t (fun r => r⟨started := 1⟩);;
  pthread_mutex_unlock t timer_lock;;
  pthread_mutex_lock s signal_lock;;
  modify s (fun sock => sock⟨interrupt_signal := 0⟩);;
  pthread_mutex_unlock s signal_lock;;
  th ← pthread_create (Run_tcp_check_timeout s);
  modify t (fun r => r⟨timer_thread := Some th⟩).

(** ** Lemmas *)

(** A socket whose timer is stopped and whose locks are free. *)
Record timer_idle (w : world) (s : loc) (sock : tju_tcp_t) (r : rtt_timer_t) : Prop := {
  idle_sock : w_socks w !! s = Some sock;
  idle_timer : w_timers w !! rtt_timer sock = Some r;
  idle_started : started r = 0;
  idle_timer_lock : timer_lock r = false;
  idle_signal_lock : signal_lock sock = false
}.

(** The world with the timer of [s] running in a new thread. *)
Definition timer_running (w : world) (s : loc) (sock : tju_tcp_t) (r : rtt_timer_t) : world :=
  w⟨w_socks := <[s := sock⟨signal_lock := false⟩⟨interrupt_signal := 0⟩]> (w_socks w)⟩
   ⟨w_timers := <[rtt_timer sock := r⟨started := 1⟩⟨timer_lock := false⟩
                                     ⟨timer_thread := Some (w_next w)⟩]> (w_timers w)⟩
   ⟨w_threads := <[w_next w := mk_thread (Run_tcp_check_timeout s) false]> (w_threads w)⟩
   ⟨w_next := Pos.succ (w_next w)⟩.

Lemma tcp_start_timer_ok w s sock r :
  timer_idle w s sock r → tcp_start_timer s w = Done tt (timer_running w s sock r).
Proof using.
  intros [Hs Hr H0 Hl Hsl]. unfold tcp_start_timer, timer_running. run.
  rewrite H0. cbn [Z.eqb]. run. final. 
Qed.

Lemma tcp_stop_timer_idle w s sock r :
  w_socks w !! s = Some sock → w_timers w !! rtt_timer sock = Some r → started r = 0 →
  tcp_stop_timer s w = Done tt w.
Proof using. intros Hs Hr H0. unfold tcp_stop_timer. run. by rewrite H0. Qed.

(** A socket whose timer runs in the thread [th]. *)
Record timer_active (w : world) (s : loc) (sock : tju_tcp_t) (r : rtt_timer_t) (th : loc)
    : Prop := {
  active_sock : w_socks w !! s = Some sock;
  active_timer : w_timers w !! rtt_timer sock = Some r;
  active_started : started r ≠ 0;
  active_thread : timer_thread r = Some th;
  active_timer_lock : timer_lock r = false;
  active_signal_lock : signal_lock sock = false
}.

(** The world after the timer was told to stop. *)
Definition timer_stopped (w : world) (s : loc) (sock : tju_tcp_t) (r : rtt_timer_t) : world :=
  w⟨w_socks := <[s := sock⟨signal_lock := false⟩⟨interrupt_signal := 1⟩]> (w_socks w)⟩
   ⟨w_timers := <[rtt_timer sock := r⟨started := 0⟩⟨timer_lock := false⟩]> (w_timers w)⟩.

Lemma tcp_stop_timer_join w s sock r th :
  timer_active w s sock r th →
  tcp_stop_timer s w = pthread_join (Some th) (timer_stopped w s sock r).
Proof using.
  intros [Hs Hr H0 Ht Hl Hsl]. unfold tcp_stop_timer, timer_stopped. run.
  zdecide_false (started r =? 0). run. by rewrite Ht.
Qed.

Lemma pthread_join_self w th : w_self w = Some th → pthread_join (Some th) w = Done tt w.
Proof using. intros E. unfold pthread_join. run. by rewrite bool_decide_true. Qed.

Lemma pthread_join_other w th x :
  w_self w ≠ Some th → w_threads w !! th = Some x →
  pthread_join (Some th) w =
  await (fun w => th ← w_threads w !! th; Some (th_done th)) w.
Proof using. intros Hn E. unfold pthread_join. run. by rewrite bool_decide_false. Qed.

(** The timer thread itself may restart the timer: its join returns at once. *)
Lemma tcp_start_timer_self w s sock r th :
  timer_active w s sock r th → started r = 1 → w_self w = Some th →
  tcp_start_timer s w =
  Done tt (timer_running (timer_stopped w s sock r) s
    (sock⟨signal_lock := false⟩⟨interrupt_signal := 1⟩) (r⟨started := 0⟩⟨timer_lock := false⟩)).
Proof using.
  intros Ha H1 Hself. pose proof Ha as [Hs Hr H0 Ht Hl Hsl].
  unfold tcp_start_timer, timer_running. run. rewrite H1. const_tests.
  erewrite bind_done.
  2: { rewrite (tcp_stop_timer_join _ _ _ _ _ Ha). by apply pthread_join_self. }
  unfold timer_stopped. rsimpl. run. final.
Qed.

(** ** Properties *)

(** [tcp_start_timer] on a stopped timer starts exactly one new thread that
    runs [tcp_check_timeout] on the socket, records it in the timer, clears the
    interrupt signal, and leaves both locks free. *)
Theorem tcp_start_timer_spec w s sock r :
  timer_idle w s sock r →
  ∃ w', tcp_start_timer s w = Done tt w' ∧
    w_threads w' = <[w_next w := mk_thread (Run_tcp_check_timeout s) false]> (w_threads w) ∧
    timer_active w' s (sock⟨interrupt_signal := 0⟩)
      (r⟨started := 1⟩⟨timer_thread := Some (w_next w)⟩) (w_next w) ∧
    w_sent w' = w_sent w.
Proof using.
  intros Hi. exists (timer_running w s sock r). split; [by apply tcp_start_timer_ok|].
  destruct Hi as [Hs Hr H0 Hl Hsl]. unfold timer_running. rsimpl.
  split; [done|]. split; [|done]. constructor; rsimpl; rewrite ?lookup_insert_eq; try done.
  - do 2 f_equal. by rewrite Hsl.
  - do 2 f_equal. by rewrite Hl.
Qed.

(** [tcp_stop_timer] does nothing when the timer is stopped.  Otherwise it
    marks it stopped, raises the interrupt signal and joins the timer thread:
    at once when the caller is that thread or the thread is done, and else only
    in a world where the thread is done. *)
Theorem tcp_stop_timer_spec w s sock r :
  w_socks w !! s = Some sock → w_timers w !! rtt_timer sock = Some r →
  (started r = 0 → tcp_stop_timer s w = Done tt w) ∧
  (∀ th x, timer_active w s sock r th → w_threads w !! th = Some x →
    let w' := timer_stopped w s sock r in
    (w_self w = Some th ∨ th_done x = true → tcp_stop_timer s w = Done tt w') ∧
    (w_self w ≠ Some th → th_done x = false →
       ∃ g k, tcp_stop_timer s w = Wait g w' k ∧
         (∀ w2, g w2 = Some true → ∃ x2, w_threads w2 !! th = Some x2 ∧ th_done x2 = true) ∧
         (∀ w2, k w2 = Done tt w2))).
Proof using.
  intros Hs Hr. split; [by eapply tcp_stop_timer_idle|].
  intros th x Ha Hx w'. rewrite (tcp_stop_timer_join _ _ _ _ _ Ha). fold w'.
  assert (w_threads w' !! th = Some x) as Hx' by exact Hx.
  assert (w_self w' = w_self w) as Hself by reflexivity.
  destruct (decide (w_self w = Some th)) as [E|E].
  - split; [|done]. intros _. apply pthread_join_self. by rewrite Hself.
  - rewrite (pthread_join_other _ _ x) by (rewrite ?Hself; done). split.
    + intros [?|Hd]; [done|]. apply await_ok. rewrite Hx'. cbn. by rewrite Hd.
    + intros _ Hd. do 2 eexists. split; [apply await_wait; rewrite Hx'; cbn; by rewrite Hd|].
      split; [|done]. cbv beta. intros w2 Hg. destruct (w_threads w2 !! th) as [x2|]; [|done].
      exists x2. cbn in Hg. by simplify_eq.
Qed.

End timer.

(** The estimator as a function of the measured round-trip times. *)
Fixpoint measure_rtts (t : rtt_timer_t) (zs : list Z) : option rtt_timer_t :=
  match zs with
  | [] => Some t
  | z :: zs => t ← tcp_ack_update_rtt t (f32_of_Z z) (f32_of_Z 1000); measure_rtts t zs
  end.

(** The values the estimated round-trip time takes. *)
Definition rtt_values : list f32 := [f32_of_Z 3; f32_of_Z 12].

(** What one measurement of [z] seconds does to the fields. *)
Definition estimator_step (est : f32) (z : Z) : option Z :=
  if SFltb (f32_of_Z z) (f32_of_Z 0) then None
  else
    let est := f32_add (f32_mul (f32_of_Z (1 - ALPHA)) est) (f32_mul (f32_of_Z ALPHA) (f32_of_Z z)) in
    a ← c_abs (f32_sub est (f32_of_Z z)); int_result (BETA * a).

Lemma estimator_step_ok est z :
  est ∈ rtt_values → 0 <= z <= TCP_RTO_MAX → estimator_step est z = Some 0.
Proof.
  intros He Hz.
  assert (forallb (fun e => forallb (fun k => bool_decide (estimator_step e (Z.of_nat k) = Some 0))
    (seq 0 (Z.to_nat (TCP_RTO_MAX + 1)))) rtt_values = true) as Hall by (vm_compute; reflexivity).
  pose proof (proj1 (forallb_forall _ _) Hall est) as H1.
  rewrite <- list_elem_of_In in H1. specialize (H1 He).
  pose proof (proj1 (forallb_forall _ _) H1 (Z.to_nat z)) as H2. cbv beta in H2.
  rewrite Z2Nat.id in H2 by lia. apply (bool_decide_unpack _).
  rewrite H2; [done|]. apply in_seq. unfold TCP_RTO_MAX in *. lia.
Qed.

Lemma rtt_update_ok t z :
  estimated_rtt t ∈ rtt_values → dev_rtt t = f32_of_Z 3 → 0 <= z <= TCP_RTO_MAX →
  tcp_ack_update_rtt t (f32_of_Z z) (f32_of_Z 1000) =
  Some (t⟨dev_rtt := f32_of_Z 3⟩⟨estimated_rtt := f32_of_Z 12⟩⟨timeout := f32_of_Z 12⟩).
Proof.
  intros He Hd Hz. pose proof (estimator_step_ok _ _ He Hz) as Hs.
  unfold estimator_step in Hs. unfold tcp_ack_update_rtt.
  destruct (SFltb _ _); [done|]. unfold tcp_set_estimator. rsimpl.
  destruct (c_abs _) as [a|]; [|done]. cbn [mbind option_bind] in *. rewrite Hs.
  cbn [mbind option_bind]. unfold tcp_set_rto, tcp_bound_rto. rsimpl. rewrite Hd. reflexivity.
Qed.

(** [ALPHA] and [BETA] are integer quotients and both 0, so the estimator
    never learns: from the values [tcp_init_rtt] sets, any non-empty sequence of
    measured round-trip times of 0 to [TCP_RTO_MAX] seconds leaves the deviation
    at 3 and sets estimate and timeout to 12 seconds, whatever was measured. *)
Theorem rto_ignores_measurements t zs :
  estimated_rtt t = f32_of_Z 3 → dev_rtt t = f32_of_Z 3 →
  zs ≠ [] → Forall (fun z => 0 <= z <= TCP_RTO_MAX) zs →
  ∃ t', measure_rtts t zs = Some t' ∧ timeout t' = f32_of_Z 12 ∧
        estimated_rtt t' = f32_of_Z 12 ∧ dev_rtt t' = f32_of_Z 3.
Proof.
  intros He Hd Hne Hzs. assert (estimated_rtt t ∈ rtt_values) as Hin by (rewrite He; left).
  clear He. revert t Hd Hin Hne. induction Hzs as [|z zs Hz Hzs IH]; intros t Hd Hin Hne; [done|].
  cbn [measure_rtts]. rewrite rtt_update_ok by done. cbn [mbind option_bind].
  destruct zs as [|z' zs]; [by eexists|].
  apply IH; [done|right; left|done].
Qed.

Lemma rto_ignores_measurements_witness :
  ∃ t', measure_rtts sample_timer [0; 1; 57; 100] = Some t' ∧ timeout t' = f32_of_Z 12.
Proof.
  destruct (rto_ignores_measurements sample_timer [0; 1; 57; 100]) as (t' & E & Ht & _);
    [done|done|done|repeat constructor; done|]. exists t'. exact (conj E Ht).
Defined.

Lemma tcp_start_timer_spec_witness :
  let w := sample_world sample_sock sample_snd sample_rcv [] [] [] in
  ∃ w', @tcp_start_timer 1 w = Done tt w' ∧ w_sent w' = [].
Proof.
  cbn zeta. destruct (tcp_start_timer_spec
    (sample_world sample_sock sample_snd sample_rcv [] [] []) 1 sample_sock sample_timer)
    as (w' & E & _ & _ & Hs); [by constructor|]. exists w'. exact (conj E Hs).
Defined.

(** A socket with a running timer whose thread has just returned. *)
Definition active_world : world :=
  let w := sample_world sample_sock sample_snd sample_rcv [] [] [] in
  w⟨w_timers := {[6%positive := sample_timer⟨started := 1⟩⟨timer_thread := Some 20%positive⟩]}⟩
   ⟨w_threads := {[20%positive := mk_thread (Run_tcp_check_timeout 1) true]}⟩.

Lemma tcp_stop_timer_spec_witness :
  ∃ w', tcp_stop_timer 1 active_world = Done tt w'.
Proof.
  destruct (tcp_stop_timer_spec active_world 1 sample_sock
    (sample_timer⟨started := 1⟩⟨timer_thread := Some 20%positive⟩) eq_refl eq_refl) as [_ Ha].
  destruct (Ha 20%positive (mk_thread (Run_tcp_check_timeout 1) true)) as [Hd _];
    [by constructor|reflexivity|].
  eexists. exact (Hd (or_intror eq_refl)).
Defined.
