(* ===== verification/Handshake.v ===== *)
(** * The three-way handshake: src/tju_tcp.c

    [tcp_rcv_state_server] runs on the listening socket, [tcp_rcv_state_client]
    on the connecting one. *)

From S2P Require Import Prelude Consts Packet Machine SockQueue Control Timer Samples.

Section handshake.
Context `{Env}.

(** The branch [case LISTEN] with the flag SYN. *)
Definition server_listen_syn (s : loc) (pkt : list Z) (conn_addr : tju_sock_addr)
    (hashval : Z) : M Z :=
  conn_sock ← alloc junk_sock;
  modify conn_sock (fun c => c⟨bind_addr := conn_addr⟩);;
  modify s (fun sock => sock⟨established_remote_addr := conn_addr⟩);;
  tcp_update_expected_seq s pkt;;
  sock ← load_sock s;
  states ← array_set (listen_state sock) hashval SYN_RECV;
  modify s (fun sock => sock⟨listen_state := states⟩);;
  index ← sockqueue_push (syn_queue sock) conn_sock;
  if index <? 0 then mret (-1)
  else
    modify s (fun sock => sock⟨saved_syn := index⟩);;
    reply ← lift OutOfBounds (build_state_pkt pkt (Z.lor SYN ACK));
    tcp_start_timer s;;
    sendToLayer3 (snd reply) (fst reply);;
    mret 0.

(** The branch [case SYN_RECV] with the flag ACK, after the timer has stopped. *)
Definition server_complete (s : loc) (pkt : list Z) (hashval : Z) : M Z :=
  sock ← load_sock s;
  states ← array_set (listen_state sock) hashval ESTABLISHED;
  modify s (fun sock => sock⟨listen_state := states⟩);;
  tcp_update_expected_seq s pkt;;
  sock ← load_sock s;
  let index := saved_syn sock in
  conn_sock ← alloc junk_sock;
  sockqueue_remove (syn_queue sock) conn_sock index;;
  modify conn_sock (fun c => c⟨state := ESTABLISHED⟩);;
  sockqueue_push (accept_queue sock) conn_sock;;
  mret 0.

Definition server_syn_recv_ack (s : loc) (pkt : list Z) (hashval : Z) : M Z :=
  tcp_stop_timer s;;
  server_complete s pkt hashval.

Definition tcp_rcv_state_server (s : loc) (pkt : list Z) (conn_addr : tju_sock_addr) : M Z :=
  flags ← lift OutOfBounds (get_flags pkt);
  sock ← load_sock s;
  rwnd' ← lift OutOfBounds (get_advertised_window pkt);
  modify (wnd_send sock) (fun r => r⟨rwnd := rwnd'⟩);;
  hashval ← lift IntOverflow (cal_hash (ip (bind_addr sock)) (port (bind_addr sock))
                                (ip conn_addr) (port conn_addr));
  st ← array_get (listen_state sock) hashval;
  if st =? CLOSED then mret (-1)
  else if st =? LISTEN then
    if flags =? SYN then server_listen_syn s pkt conn_addr hashval
    else if flags =? RST then mret 0
    else mret (-1)
  else if st =? SYN_RECV then
    if flags =? ACK then server_syn_recv_ack s pkt hashval
    else mret (-1)    (* RST falls through to the default case *)
  else mret (-1).

(** The branch [case (SYN | ACK)] in the state SYN_SENT, after the timer has stopped. *)
Definition client_establish (s : loc) (pkt : list Z) (conn_sock : tju_sock_addr) : M Z :=
  tcp_update_expected_seq s pkt;;
  rseq ← lift OutOfBounds (get_seq pkt);
  let seq := i32 (u32 (rseq + 1)) in
  let ack := i32 (u32 (rseq + 1)) in
  sock ← load_sock s;
  diff ← lift IntOverflow (int_result (TCP_RECV_BUFFER_SIZE - received_len sock));
  let adv_wnd := u16 diff in
  send_pkt ← lift OutOfBounds (create_packet_buf (port (established_local_addr sock))
    (port conn_sock) seq ack HEADER_LEN HEADER_LEN ACK adv_wnd 0 [] 0);
  sendToLayer3 send_pkt HEADER_LEN;;
  modify s (fun sock => sock⟨state := ESTABLISHED⟩);;
  mret 0.

Definition tcp_rcv_state_client (s : loc) (pkt : list Z) (conn_sock : tju_sock_addr) : M Z :=
  flags ← lift OutOfBounds (get_flags pkt);
  sock ← load_sock s;
  rwnd' ← lift OutOfBounds (get_advertised_window pkt);
  modify (wnd_send sock) (fun r => r⟨rwnd := rwnd'⟩);;
  if flags =? Z.lor SYN ACK then
    if state sock =? SYN_SENT then
      tcp_stop_timer s;;
      client_establish s pkt conn_sock
    else mret (-1)
  else mret (-1).

(** ** Lemmas *)

(** What the listening socket owns, and the index [i] its connection state
    machine uses for the peer. *)
Record listener (w : world) (s : loc) (sock : tju_tcp_t) (snd : sender_window_t)
    (rcv : receiver_window_t) (i : Z) : Prop := {
  l_sock : w_socks w !! s = Some sock;
  l_snd : w_snds w !! wnd_send sock = Some snd;
  l_rcv : w_rcvs w !! wnd_recv sock = Some rcv;
  l_states : blen (listen_state sock) = MAX_SOCK_SIZE;
  l_index : 0 <= i < MAX_SOCK_SIZE;
  l_socks_below : below (w_next w) (w_socks w);
  l_nodes_below : below (w_next w) (w_nodes w);
  l_threads_below : below (w_next w) (w_threads w)
}.

(** The first statements of [tcp_rcv_state_server]: they record the peer's
    window and find the state of its connection. *)
Lemma tcp_rcv_state_server_start w s sock snd rcv i pkt h addr st :
  listener w s sock snd rcv i → fields_of pkt h →
  cal_hash (ip (bind_addr sock)) (port (bind_addr sock)) (ip addr) (port addr) = Some i →
  listen_state sock !! Z.to_nat i = Some st →
  let w' := w⟨w_snds := <[wnd_send sock := snd⟨rwnd := advertised_window h⟩]> (w_snds w)⟩ in
  tcp_rcv_state_server s pkt addr w =
    if st =? CLOSED then Done (-1) w'
    else if st =? LISTEN then
      if flags h =? SYN then server_listen_syn s pkt addr i w'
      else if flags h =? RST then Done 0 w' else Done (-1) w'
    else if st =? SYN_RECV then
      if flags h =? ACK then server_syn_recv_ack s pkt i w' else Done (-1) w'
    else Done (-1) w'.
Proof using.
  intros [Hs Hsnd _ Hl Hi _ _ _] [? ? ? ? ? ? ? ? ? ?] Hh Hst. unfold tcp_rcv_state_server. run.
    repeat case_match; done.
Qed.

(** The packets a handshake answers with. *)
Definition syn_ack_reply (h : tju_header_t) : list Z :=
  segment (destination_port h) (source_port h) (i32 (seq_num h + HEADER_LEN))
    (i32 (seq_num h + 1)) (Z.lor SYN ACK) TCP_RECV_BUFFER_SIZE.

Lemma build_state_pkt_ok pkt h :
  fields_of pkt h → build_state_pkt pkt (Z.lor SYN ACK) = Some (HEADER_LEN, syn_ack_reply h).
Proof using.
  intros [Hsrc Hdst Hseq _ _ _ _ _ _ _]. unfold build_state_pkt. rewrite Hseq. cbn [mbind option_bind].
  rewrite Hdst. cbn [mbind option_bind]. rewrite Hsrc. cbn [mbind option_bind].
  rewrite segment_eq. done.
Qed.

Context (Hhost : env_host ≠ Host_other).

(** One new thread, which watches the timer of [s], and the timer on. *)
Definition timer_started (w w' : world) (s : loc) (sock : tju_tcp_t) (r : rtt_timer_t) : Prop :=
  ∃ th, w_threads w' = <[th := mk_thread (Run_tcp_check_timeout s) false]> (w_threads w) ∧
    w_timers w' !! rtt_timer sock =
      Some (r⟨started := 1⟩⟨timer_lock := false⟩⟨timer_thread := Some th⟩).

Lemma server_listen_syn_ok w s sock snd rcv i pkt h addr l r :
  listener w s sock snd rcv i → fields_of pkt h → queue_rep w (syn_queue sock) l →
  blen l < MAX_QUEUE → timer_idle w s sock r →
  ∃ w' y, let c := w_next w in
    server_listen_syn s pkt addr i w = Done 0 w' ∧
    w_socks w' !! c = Some y ∧ bind_addr y = addr ∧
    queue_rep w' (syn_queue sock) (l ++ [(Pos.succ c, c)]) ∧
    w_socks w' !! s = Some (sock⟨established_remote_addr := addr⟩
      ⟨listen_state := <[Z.to_nat i := SYN_RECV]> (listen_state sock)⟩⟨saved_syn := blen l⟩
      ⟨signal_lock := false⟩⟨interrupt_signal := 0⟩) ∧
    w_rcvs w' !! wnd_recv sock = Some (rcv⟨expect_seq := segment_end h⟩) ∧
    timer_started w w' s sock r ∧
    w_sent w' = w_sent w ++ [syn_ack_reply h].
Proof using Hhost.
  intros [Hs Hsnd Hrcv Hst Hi Hsb Hnb Htb] Hf Hq Hl [_ Hr H0 Htl Hsl].
  pose proof (below_ne _ _ _ _ Hsb Hs) as Hsc. pose proof (below_fresh _ _ Hsb) as Hcf.
  unfold server_listen_syn. run.
  match goal with |- context [(sockqueue_push ?q ?c ≫= _) ?w1] =>
    destruct (sockqueue_push_ok w1 q c l) as (nodes' & x' & E & Hq' & _) end;
    [exact Hq|by apply below_succ|done|].
  pose proof (blen_nonneg l). erewrite bind_done by exact E. rsimpl. zif. run.
  erewrite bind_done by (apply lift_ok, build_state_pkt_ok, Hf).
  erewrite bind_done by (apply tcp_start_timer_ok; constructor; [lookup_tac..|done|done|done]).
  unfold timer_running, syn_ack_reply. rsimpl. rewrite ?insert_insert_eq. run.
  do 2 eexists. split; [reflexivity|]. rsimpl. split_and!.
  - by rewrite lookup_insert_ne, lookup_insert_eq by done.
  - done.
  - exact Hq'.
  - by rewrite lookup_insert_eq.
  - by rewrite lookup_insert_eq.
  - eexists. rsimpl. split; [done|]. rewrite lookup_insert_eq. done.
  - done.
Qed.

(** The two queues of a listening socket do not share nodes. *)
Record two_queues (w : world) (sock : tju_tcp_t) (l la : list (loc * loc)) : Prop := {
  tq_syn : queue_rep w (syn_queue sock) l;
  tq_accept : queue_rep w (accept_queue sock) la;
  tq_ne : accept_queue sock ≠ syn_queue sock;
  tq_disjoint : l.*1 ## la.*1
}.

Lemma server_complete_ok w s sock snd rcv i pkt h l la k n d half :
  listener w s sock snd rcv i → fields_of pkt h → two_queues w sock l la →
  blen la < MAX_QUEUE → saved_syn sock = Z.of_nat k → l !! k = Some (n, d) →
  w_socks w !! d = Some half → d ≠ s →
  ∃ w', let c := w_next w in
    server_complete s pkt i w = Done 0 w' ∧
    w_socks w' !! c = Some (half⟨state := ESTABLISHED⟩) ∧
    queue_rep w' (accept_queue sock) (la ++ [(Pos.succ c, c)]) ∧
    after_remove w' (syn_queue sock) l k ∧
    w_socks w' !! s =
      Some (sock⟨listen_state := <[Z.to_nat i := ESTABLISHED]> (listen_state sock)⟩) ∧
    w_rcvs w' !! wnd_recv sock = Some (rcv⟨expect_seq := segment_end h⟩) ∧
    w_sent w' = w_sent w.
Proof using.
  clear Hhost. intros [Hs Hsnd Hrcv Hst Hi Hsb Hnb Htb] Hf [Hq Ha Hne Hdis] Hl Hk Hlk Hd Hds.
  pose proof (below_ne _ _ _ _ Hsb Hs) as Hsc. pose proof (below_ne _ _ _ _ Hsb Hd) as Hdc.
  unfold server_complete. run. rewrite Hk.
  match goal with |- context [(sockqueue_remove ?q ?c _ ≫= _) ?w1] =>
    destruct (sockqueue_remove_any w1 q c l k n d half (junk_sock (w_next w)))
      as (x1 & nodes1 & E & Haft & Hfr1 & Hdom1) end;
    [exact Hq|done|lookup_tac|lookup_tac|].
  erewrite bind_done by exact E. rsimpl. run.
  match goal with |- context [(sockqueue_push ?q ?c ≫= _) ?w2] =>
    destruct (sockqueue_push_ok w2 q c la) as (nodes2 & x2 & E2 & Ha2 & Hfr2) end;
    [ | | done |].
  { eapply (queue_rep_frame w); [rsimpl; by rewrite lookup_insert_ne| |done]. rsimpl.
    intros p Hp. apply Hfr1. set_solver. }
  { by apply below_succ, (below_dom _ _ _ Hdom1). }
  erewrite bind_done by exact E2. rsimpl. run.
  eexists. split; [reflexivity|]. rsimpl. split_and!.
  - by rewrite lookup_insert_eq.
  - exact Ha2.
  - unfold after_remove in *. rsimpl. case_decide.
    + by rewrite lookup_insert_ne.
    + eapply queue_rep_frame; [..|exact Haft]; rsimpl; [by rewrite lookup_insert_ne|].
      intros p Hp%elem_of_delete_fst. apply Hfr2. rewrite fmap_app. cbn.
      pose proof (queue_rep_below _ _ _ _ Hq Hnb Hp) as Hlt.
      intros [?|Hn%list_elem_of_singleton]%elem_of_app; [by eapply Hdis|lia].
  - by rewrite lookup_insert_ne, lookup_insert_eq by done.
  - by rewrite lookup_insert_eq.
  - done.
Qed.

(** The third segment of the handshake. *)
Definition ack_reply (sock : tju_tcp_t) (addr : tju_sock_addr) (h : tju_header_t) : list Z :=
  segment (port (established_local_addr sock)) (port addr) (i32 (u32 (seq_num h + 1)))
    (i32 (u32 (seq_num h + 1))) ACK (u16 (TCP_RECV_BUFFER_SIZE - received_len sock)).

(** The client's world once it has answered the SYN|ACK with the header [h]. *)
Definition established_world (w : world) (s : loc) (sock : tju_tcp_t) (rcv : receiver_window_t)
    (addr : tju_sock_addr) (h : tju_header_t) : world :=
  w⟨w_rcvs := <[wnd_recv sock := rcv⟨expect_seq := segment_end h⟩]> (w_rcvs w)⟩
   ⟨w_sent := w_sent w ++ [ack_reply sock addr h]⟩
   ⟨w_socks := <[s := sock⟨state := ESTABLISHED⟩]> (w_socks w)⟩.

Lemma client_establish_ok w s sock rcv pkt h addr :
  w_socks w !! s = Some sock → w_rcvs w !! wnd_recv sock = Some rcv → fields_of pkt h →
  is_int (TCP_RECV_BUFFER_SIZE - received_len sock) →
  client_establish s pkt addr w =
  Done 0 (established_world w s sock rcv addr h).
Proof using Hhost.
  intros Hs Hr Hf Hi. unfold client_establish, established_world, ack_reply. run.
  destruct Hf as [? ? Hseq ? ? ? ? ? ? ?]. run. done.
Qed.

(** Recording the peer's window keeps the shape of the listening socket. *)
Definition with_rwnd (w : world) (sock : tju_tcp_t) (snd : sender_window_t) (h : tju_header_t)
    : world :=
  w⟨w_snds := <[wnd_send sock := snd⟨rwnd := advertised_window h⟩]> (w_snds w)⟩.

Lemma listener_rwnd w s sock snd rcv i h :
  listener w s sock snd rcv i →
  listener (with_rwnd w sock snd h) s sock (snd⟨rwnd := advertised_window h⟩) rcv i.
Proof using.
  intros [? ? ? ? ? ? ? ?]. constructor; try done. unfold with_rwnd. rsimpl.
  by rewrite lookup_insert_eq.
Qed.

(** ** Properties *)

(** C9: first and second message at the server.  A SYN for a connection in the
    state LISTEN moves that connection to SYN_RECV, appends a new half-open
    socket bound to the peer to the queue, remembers its index, takes the next
    expected sequence number from the segment, starts the timer -- marked as
    started, with one new thread that runs [tcp_check_timeout] on the socket --
    and answers with exactly one SYN|ACK that acknowledges the SYN. *)
Theorem server_accepts_syn w s sock snd rcv i pkt h addr l r :
  listener w s sock snd rcv i → fields_of pkt h → flags h = SYN →
  cal_hash (ip (bind_addr sock)) (port (bind_addr sock)) (ip addr) (port addr) = Some i →
  listen_state sock !! Z.to_nat i = Some LISTEN →
  queue_rep w (syn_queue sock) l → blen l < MAX_QUEUE → timer_idle w s sock r →
  ∃ w' y, let c := w_next w in
    tcp_rcv_state_server s pkt addr w = Done 0 w' ∧
    w_socks w' !! c = Some y ∧ bind_addr y = addr ∧
    queue_rep w' (syn_queue sock) (l ++ [(Pos.succ c, c)]) ∧
    w_socks w' !! s = Some (sock⟨established_remote_addr := addr⟩
      ⟨listen_state := <[Z.to_nat i := SYN_RECV]> (listen_state sock)⟩⟨saved_syn := blen l⟩
      ⟨signal_lock := false⟩⟨interrupt_signal := 0⟩) ∧
    w_rcvs w' !! wnd_recv sock = Some (rcv⟨expect_seq := segment_end h⟩) ∧
    timer_started w w' s sock r ∧
    w_sent w' = w_sent w ++ [syn_ack_reply h].
Proof using Hhost.
  intros Hl Hf Hfl Hh Hst Hq Hlen Hi.
  rewrite (tcp_rcv_state_server_start _ _ _ _ _ _ _ _ _ _ Hl Hf Hh Hst), Hfl. cbn [Z.eqb].
  apply (server_listen_syn_ok (with_rwnd w sock snd h) s sock
    (snd⟨rwnd := advertised_window h⟩) rcv i pkt h addr l r);
    [by apply listener_rwnd|done|exact Hq|done|]. by destruct Hi.
Qed.

(** C10: third message at the server.  An ACK for a connection in SYN_RECV first
    stops the timer, waiting for its thread; in every later world in which the
    thread is done, the half-open socket at the remembered index leaves the
    half-open queue, and a copy of it, ESTABLISHED, is appended to the accept
    queue.  The address the ACK comes from plays no part in the choice. *)
Theorem server_accepts_ack w s sock snd rcv i pkt h addr r th x :
  listener w s sock snd rcv i → fields_of pkt h → flags h = ACK →
  cal_hash (ip (bind_addr sock)) (port (bind_addr sock)) (ip addr) (port addr) = Some i →
  listen_state sock !! Z.to_nat i = Some SYN_RECV →
  timer_active w s sock r th → w_threads w !! th = Some x → th_done x = false →
  w_self w ≠ Some th →
  ∃ g k, tcp_rcv_state_server s pkt addr w = Wait g (timer_stopped (with_rwnd w sock snd h) s sock r) k ∧
    (∀ w2 x2, w_threads w2 !! th = Some x2 → g w2 = Some (th_done x2)) ∧
    ∀ w2 sock2 snd2 rcv2 l la j n d half,
      listener w2 s sock2 snd2 rcv2 i → two_queues w2 sock2 l la →
      blen la < MAX_QUEUE → saved_syn sock2 = Z.of_nat j → l !! j = Some (n, d) →
      w_socks w2 !! d = Some half → d ≠ s →
      ∃ w', let c := w_next w2 in
        k w2 = Done 0 w' ∧
        w_socks w' !! c = Some (half⟨state := ESTABLISHED⟩) ∧
        queue_rep w' (accept_queue sock2) (la ++ [(Pos.succ c, c)]) ∧
        after_remove w' (syn_queue sock2) l j ∧
        w_socks w' !! s =
          Some (sock2⟨listen_state := <[Z.to_nat i := ESTABLISHED]> (listen_state sock2)⟩) ∧
        w_rcvs w' !! wnd_recv sock2 = Some (rcv2⟨expect_seq := segment_end h⟩) ∧
        w_sent w' = w_sent w2.
Proof using.
  clear Hhost. intros Hl Hf Hfl Hh Hst Ht Hth Hd Hself.
  rewrite (tcp_rcv_state_server_start _ _ _ _ _ _ _ _ _ _ Hl Hf Hh Hst), Hfl. cbn [Z.eqb].
  fold (with_rwnd w sock snd h). unfold server_syn_recv_ack.
  assert (timer_active (with_rwnd w sock snd h) s sock r th) as Ht' by (by destruct Ht).
  erewrite bind_wait.
  2: { rewrite (tcp_stop_timer_join _ _ _ _ _ Ht'), (pthread_join_other _ _ x) by done.
       apply await_wait. unfold timer_stopped, with_rwnd. rsimpl. rewrite Hth. cbn. by rewrite Hd. }
  do 2 eexists. split; [reflexivity|]. split.
  { intros w2 x2 Hx2. cbv beta. by rewrite Hx2. }
  intros w2 sock2 snd2 rcv2 l la j n d half Hl2 Htq Hla Hj Hlj Hhalf Hds.
  cbn [obind]. exact (server_complete_ok _ _ _ _ _ _ _ _ _ _ _ _ _ _ Hl2 Hf Htq Hla Hj Hlj Hhalf Hds).
Qed.

Lemma tcp_rcv_state_client_start w s sock snd pkt h addr :
  w_socks w !! s = Some sock → w_snds w !! wnd_send sock = Some snd → fields_of pkt h →
  flags h = Z.lor SYN ACK →
  tcp_rcv_state_client s pkt addr w =
    if state sock =? SYN_SENT then
      (tcp_stop_timer s;; client_establish s pkt addr) (with_rwnd w sock snd h)
    else Done (-1) (with_rwnd w sock snd h).
Proof using.
  intros Hs Hsnd [? ? ? ? ? ? ? ? ? ?] Hfl. unfold tcp_rcv_state_client. run. rewrite Hfl.
  change (Z.lor SYN ACK =? Z.lor SYN ACK) with true. cbv iota. by destruct (state sock =? SYN_SENT).
Qed.

(** C11: second and third message at the client.  A SYN|ACK in SYN_SENT while
    the timer runs in another thread records the peer's window, clears the
    timer's flag, raises the interrupt signal and waits until that thread has
    returned; in every later world in which it has, the next expected sequence
    number is taken from the segment, one ACK of its sequence number plus one is
    sent, and the connection is ESTABLISHED.  When the timer is already stopped
    the same happens without a wait.  In any other state the segment is refused
    and only the peer's window is recorded. *)
Theorem client_accepts_syn_ack w s sock snd pkt h addr :
  w_socks w !! s = Some sock → w_snds w !! wnd_send sock = Some snd →
  fields_of pkt h → flags h = Z.lor SYN ACK →
  let w1 := with_rwnd w sock snd h in
  (state sock ≠ SYN_SENT → tcp_rcv_state_client s pkt addr w = Done (-1) w1) ∧
  (∀ r rcv, state sock = SYN_SENT → w_timers w !! rtt_timer sock = Some r → started r = 0 →
     w_rcvs w !! wnd_recv sock = Some rcv → is_int (TCP_RECV_BUFFER_SIZE - received_len sock) →
     tcp_rcv_state_client s pkt addr w = Done 0 (established_world w1 s sock rcv addr h)) ∧
  (∀ r th x, state sock = SYN_SENT → timer_active w s sock r th →
     w_threads w !! th = Some x → th_done x = false → w_self w ≠ Some th →
     ∃ g k, tcp_rcv_state_client s pkt addr w = Wait g (timer_stopped w1 s sock r) k ∧
       (∀ w2 x2, w_threads w2 !! th = Some x2 → g w2 = Some (th_done x2)) ∧
       ∀ w2 sock2 rcv2, w_socks w2 !! s = Some sock2 → w_rcvs w2 !! wnd_recv sock2 = Some rcv2 →
         is_int (TCP_RECV_BUFFER_SIZE - received_len sock2) →
         k w2 = Done 0 (established_world w2 s sock2 rcv2 addr h)).
Proof using Hhost.
  intros Hs Hsnd Hf Hfl w1. rewrite (tcp_rcv_state_client_start _ _ _ _ _ _ _ Hs Hsnd Hf Hfl). fold w1.
  split; [|split].
  - intros Hst. by destruct (Z.eqb_spec (state sock) SYN_SENT).
  - intros r rcv Hst Hr H0 Hrcv Hi. rewrite Hst. change (SYN_SENT =? SYN_SENT) with true. cbv iota.
    erewrite bind_done by (eapply tcp_stop_timer_idle; [exact Hs|exact Hr|done]).
    by rewrite (client_establish_ok _ _ sock rcv pkt h addr).
  - intros r th x Hst Ht Hth Hd Hself. rewrite Hst. change (SYN_SENT =? SYN_SENT) with true. cbv iota.
    assert (timer_active w1 s sock r th) as Ht' by (by destruct Ht).
    erewrite bind_wait.
    2: { rewrite (tcp_stop_timer_join _ _ _ _ _ Ht'), (pthread_join_other _ _ x) by done.
         apply await_wait. unfold timer_stopped, w1, with_rwnd. rsimpl. rewrite Hth. cbn. by rewrite Hd. }
    do 2 eexists. split; [reflexivity|]. split; [by intros w2 x2 Hx2; cbv beta; rewrite Hx2|].
    intros w2 sock2 rcv2 Hs2 Hrcv2 Hi. cbn [obind]. by apply client_establish_ok.
Qed.

(** C36: every packet that is not a SYN in LISTEN or an ACK in SYN_RECV changes
    nothing at the listening socket but the recorded window of the peer, and the
    result is -1, or 0 for a reset in LISTEN.  In particular a connection whose
    handshake is complete stays so: no packet takes it back to LISTEN; and an RST in
    SYN_RECV is refused like any other packet, although a comment says that it resets
    the connection. *)
Theorem server_refuses_others w s sock snd rcv i pkt h addr st :
  listener w s sock snd rcv i → fields_of pkt h →
  cal_hash (ip (bind_addr sock)) (port (bind_addr sock)) (ip addr) (port addr) = Some i →
  listen_state sock !! Z.to_nat i = Some st →
  (st ≠ LISTEN ∨ flags h ≠ SYN) → (st ≠ SYN_RECV ∨ flags h ≠ ACK) →
  tcp_rcv_state_server s pkt addr w =
    Done (if (st =? LISTEN) && (flags h =? RST) then 0 else -1) (with_rwnd w sock snd h).
Proof using.
  clear Hhost. intros Hl Hf Hh Hst H1 H2.
  rewrite (tcp_rcv_state_server_start _ _ _ _ _ _ _ _ _ _ Hl Hf Hh Hst).
  fold (with_rwnd w sock snd h).
  destruct (Z.eqb_spec st CLOSED) as [->|]; [done|].
  destruct (Z.eqb_spec st LISTEN) as [->|].
  - destruct (Z.eqb_spec (flags h) SYN); [by destruct H1|]. cbn [andb].
    by destruct (flags h =? RST).
  - destruct (Z.eqb_spec st SYN_RECV); [|done].
    destruct (Z.eqb_spec (flags h) ACK); [by destruct H2|done].
Qed.

End handshake.

(** ** Instances *)

(** A server listening on 10.0.0.3:1234 and the packets of a client. *)
Definition server_sock : tju_tcp_t :=
  sample_sock⟨state := LISTEN⟩⟨bind_addr := mk_addr (10 * 2 ^ 24 + 3) 1234⟩
    ⟨listen_state := replicate (Z.to_nat MAX_SOCK_SIZE) LISTEN⟩.
Definition client_addr : tju_sock_addr := mk_addr (10 * 2 ^ 24 + 2) 5678.
Definition server_index : Z := 773.
Definition server_world : world := sample_world server_sock sample_snd sample_rcv [] [] [].

Example server_index_ok :
  cal_hash (10 * 2 ^ 24 + 3) 1234 (10 * 2 ^ 24 + 2) 5678 = Some server_index.
Proof. reflexivity. Qed.

Lemma server_listener : listener server_world 1 server_sock sample_snd sample_rcv server_index.
Proof. constructor; first [reflexivity|done|by apply below_check]. Qed.

Lemma empty_queue_rep w q : w_queues w !! q = Some (mk_sockqueue 0 None) → queue_rep w q [].
Proof. intros Hq. eexists. split_and!; [exact Hq|done|done|constructor]. Qed.

Lemma server_accepts_syn_witness :
  ∃ w', @tcp_rcv_state_server (env_at Host_server) 1 (segment 5678 1234 0 0 SYN 100)
          client_addr server_world = Done 0 w' ∧
        w_sent w' = [syn_ack_reply (segment_header 5678 1234 0 0 SYN 100)].
Proof.
  destruct (@server_accepts_syn (env_at Host_server) ltac:(done) server_world 1 server_sock
    sample_snd sample_rcv server_index (segment 5678 1234 0 0 SYN 100)
    (segment_header 5678 1234 0 0 SYN 100) client_addr [] sample_timer)
    as (w' & y & E & _ & _ & _ & _ & _ & _ & Hsent);
    [exact server_listener|apply segment_fields|reflexivity|exact server_index_ok|reflexivity
    |by apply empty_queue_rep|done|by constructor|].
  exists w'. exact (conj E Hsent).
Defined.

(** A client that has sent its SYN, the timer running. *)
Definition connecting_sock : tju_tcp_t := sample_sock⟨state := SYN_SENT⟩.
Definition connecting_world (done : bool) : world :=
  (sample_world connecting_sock sample_snd sample_rcv [] [] [])
    ⟨w_timers := {[6%positive := sample_timer⟨started := 1⟩⟨timer_thread := Some 20%positive⟩]}⟩
    ⟨w_threads := {[20%positive := mk_thread (Run_tcp_check_timeout 1) done]}⟩.

Lemma client_accepts_syn_ack_witness :
  ∃ g w1 k w', @tcp_rcv_state_client (env_at Host_client) 1 (segment 1234 5678 22 1 (Z.lor SYN ACK) 100)
      (mk_addr (10 * 2 ^ 24 + 3) 1234) (connecting_world false) = Wait g w1 k ∧
    g (connecting_world true) = Some true ∧ k (connecting_world true) = Done 0 w' ∧
    w_socks w' !! 1%positive = Some (connecting_sock⟨state := ESTABLISHED⟩).
Proof.
  destruct (@client_accepts_syn_ack (env_at Host_client) ltac:(done) (connecting_world false) 1
    connecting_sock sample_snd (segment 1234 5678 22 1 (Z.lor SYN ACK) 100)
    (segment_header 1234 5678 22 1 (Z.lor SYN ACK) 100) (mk_addr (10 * 2 ^ 24 + 3) 1234)
    eq_refl eq_refl (segment_fields _ _ _ _ _ _) eq_refl) as (_ & _ & Hrun).
  destruct (Hrun (sample_timer⟨started := 1⟩⟨timer_thread := Some 20%positive⟩) 20%positive
    (mk_thread (Run_tcp_check_timeout 1) false)) as (g & k & E & Hg & Hk);
    [reflexivity|by constructor|reflexivity|reflexivity|done|].
  do 4 eexists. split; [exact E|]. split; [exact (Hg (connecting_world true) _ eq_refl)|].
  split; [exact (Hk (connecting_world true) connecting_sock sample_rcv eq_refl eq_refl ltac:(by vm_compute))|].
  reflexivity.
Defined.

Lemma server_refuses_others_witness :
  ∃ w', @tcp_rcv_state_server (env_at Host_server) 1 (segment 5678 1234 0 0 ACK 100)
          client_addr server_world = Done (-1) w'.
Proof.
  eexists. apply (@server_refuses_others (env_at Host_server) server_world 1 server_sock
    sample_snd sample_rcv server_index (segment 5678 1234 0 0 ACK 100)
    (segment_header 5678 1234 0 0 ACK 100) client_addr LISTEN);
    [exact server_listener|apply segment_fields|exact server_index_ok|reflexivity
    |by right|by left].
Defined.

(** The same server after a SYN: one half-open socket, the timer running. *)
Definition half_open_sock : tju_tcp_t :=
  server_sock⟨listen_state := <[Z.to_nat server_index := SYN_RECV]> (listen_state server_sock)⟩.
Definition half_open_world (done : bool) : world :=
  let w := sample_world half_open_sock sample_snd sample_rcv [] [] [] in
  w⟨w_socks := {[1%positive := half_open_sock; 12%positive := sample_sock⟨bind_addr := client_addr⟩]}⟩
   ⟨w_queues := {[7%positive := mk_sockqueue 1 (Some 11%positive); 8%positive := mk_sockqueue 0 None]}⟩
   ⟨w_nodes := {[11%positive := mk_node 12 None]}⟩
   ⟨w_timers := {[6%positive := sample_timer⟨started := 1⟩⟨timer_thread := Some 20%positive⟩]}⟩
   ⟨w_threads := {[20%positive := mk_thread (Run_tcp_check_timeout 1) done]}⟩
   ⟨w_next := 21%positive⟩.

Lemma half_open_listener b :
  listener (half_open_world b) 1 half_open_sock sample_snd sample_rcv server_index.
Proof. constructor; first [reflexivity|done|by apply below_check]. Qed.

Lemma server_accepts_ack_witness :
  ∃ k w', @tcp_rcv_state_server (env_at Host_server) 1 (segment 5678 1234 1 1 ACK 100)
            client_addr (half_open_world false) = k ∧
          (∃ g w1 k', k = Wait g w1 k' ∧ k' (half_open_world true) = Done 0 w') ∧
          w_sent w' = [].
Proof.
  destruct (@server_accepts_ack (env_at Host_server) (half_open_world false) 1 half_open_sock
    sample_snd sample_rcv server_index (segment 5678 1234 1 1 ACK 100)
    (segment_header 5678 1234 1 1 ACK 100) client_addr
    (sample_timer⟨started := 1⟩⟨timer_thread := Some 20%positive⟩) 20
    (mk_thread (Run_tcp_check_timeout 1) false)) as (g & k & E & _ & Hk);
    [apply half_open_listener|apply segment_fields|reflexivity|exact server_index_ok|reflexivity
    |by constructor|reflexivity|done|done|].
  destruct (Hk (half_open_world true) half_open_sock sample_snd sample_rcv [(11%positive, 12%positive)]
    [] 0%nat 11%positive 12%positive (sample_sock⟨bind_addr := client_addr⟩))
    as (w' & Ek & _ & _ & _ & _ & _ & Hs);
    [apply half_open_listener| |done|reflexivity|reflexivity|reflexivity|done|].
  - constructor; [|by apply empty_queue_rep|done|set_solver].
    eexists. split_and!; [reflexivity|reflexivity| |apply list.NoDup_singleton].
    cbn. split; [done|]. by eexists.
  - do 2 eexists. split; [exact E|]. split; [do 3 eexists; exact (conj eq_refl Ek)|exact Hs].
Defined.
