(* ===== verification/Teardown.v ===== *)
(** * Closing a connection

    [tcp_state_close] (src/tju_tcp.c) is the receiving side of the close
    handshake, [tcp_close] (src/api.c) the call that starts it. *)

From S2P Require Import Prelude Consts Packet CFloat Machine Control Samples.

Section teardown.
Context `{Env}.

Definition tcp_state_close (local_sock : loc) (recv_pkt : list Z) : M Z :=
  flags ← lift OutOfBounds (get_flags recv_pkt);
  sock ← load_sock local_sock;
  if state sock =? ESTABLISHED then
    if flags =? Z.lor FIN ACK then
      modify local_sock (fun sock => sock⟨state := CLOSE_WAIT⟩);;
      tcp_send_ack local_sock;;
      sleep (MSL * 2);;
      modify local_sock (fun sock => sock⟨state := LAST_ACK⟩);;
      tcp_send_fin_ack local_sock;;
      mret 0
    else mret (-1)
  else if state sock =? FIN_WAIT_1 then
    if flags =? ACK then
      modify local_sock (fun sock => sock⟨state := FIN_WAIT_2⟩);;
      mret 0
    else mret (-1)
  else if state sock =? FIN_WAIT_2 then
    if flags =? Z.lor FIN ACK then
      tcp_send_ack local_sock;;
      modify local_sock (fun sock => sock⟨state := TIME_WAIT⟩);;
      sleep (2 * MSL);;
      free (T := tju_tcp_t) local_sock;;
      mret 0
    else mret (-1)
  else if state sock =? LAST_ACK then
    if flags =? ACK then
      modify local_sock (fun sock => sock⟨state := CLOSED⟩);;
      free (T := tju_tcp_t) local_sock;;
      mret 0
    else mret (-1)
  else mret (-1).

(** [while(sock->received_buf != NULL) { free; ... = NULL; }] runs its body at
    most once; the last loop waits for another thread to close the socket. *)
Definition tcp_close (s : loc) : M unit :=
  sock ← load_sock s;
  (match received_buf sock with
   | Some b =>
       free (T := list Z) b;;
       modify s (fun sock => sock⟨received_len := 0⟩);;
       modify s (fun sock => sock⟨received_buf := None⟩)
   | None => mret tt
   end);;
  modify s (fun sock => sock⟨state := FIN_WAIT_1⟩);;
  tcp_send_fin_ack s;;
  await (fun w => sock ← w_socks w !! s; Some (state sock =? CLOSED)).

(** ** Lemmas *)

Context (Hhost : env_host ≠ Host_other).

(** What the close handshake needs of a socket. *)
Record closable (w : world) (s : loc) (sock : tju_tcp_t) (rcv : receiver_window_t) : Prop := {
  cl_sock : w_socks w !! s = Some sock;
  cl_rcv : w_rcvs w !! wnd_recv sock = Some rcv;
  cl_len : is_int (TCP_RECV_BUFFER_SIZE - received_len sock)
}.

(** The two segments of the close handshake. *)
Definition close_ack (sock : tju_tcp_t) (rcv : receiver_window_t) : list Z :=
  sock_segment sock (expect_seq rcv) (expect_seq rcv) ACK (TCP_RECV_BUFFER_SIZE - received_len sock).
Definition close_fin (sock : tju_tcp_t) (rcv : receiver_window_t) : list Z :=
  sock_segment sock (i32 (expect_seq rcv)) (i32 (expect_seq rcv)) (Z.lor ACK FIN) 0.

Lemma tcp_state_close_flags pkt h w s sock :
  fields_of pkt h → w_socks w !! s = Some sock →
  (state sock = ESTABLISHED → flags h ≠ Z.lor FIN ACK) →
  (state sock = FIN_WAIT_1 → flags h ≠ ACK) → (state sock = FIN_WAIT_2 → flags h ≠ Z.lor FIN ACK) →
  (state sock = LAST_ACK → flags h ≠ ACK) →
  tcp_state_close s pkt w = Done (-1) w.
Proof using.
  clear Hhost. intros [? ? ? ? ? ? ? ? ? ?] Hs H1 H2 H3 H4. unfold tcp_state_close. run.
  repeat match goal with
  | |- context [if ?a =? ?b then _ else _] => destruct (Z.eqb_spec a b)
  end; first [done | by destruct H1 | by destruct H2 | by destruct H3 | by destruct H4].
Qed.

Lemma last_ack_frees w s sock pkt h :
  w_socks w !! s = Some sock → state sock = LAST_ACK → fields_of pkt h → flags h = ACK →
  tcp_state_close s pkt w = Done 0 (w⟨w_socks := delete s (w_socks w)⟩).
Proof using.
  clear Hhost. intros Hs Hst Hf Hfl. pose proof (fo_flags _ _ Hf) as Hfo.
  unfold tcp_state_close. run. rewrite Hst, Hfl.
  const_tests. run. by rewrite delete_insert_eq.
Qed.

Lemma fin_wait_1_ack w s sock pkt h :
  w_socks w !! s = Some sock → state sock = FIN_WAIT_1 → fields_of pkt h → flags h = ACK →
  tcp_state_close s pkt w =
  Done 0 (w⟨w_socks := <[s := sock⟨state := FIN_WAIT_2⟩]> (w_socks w)⟩).
Proof using.
  clear Hhost. intros Hs Hst Hf Hfl. pose proof (fo_flags _ _ Hf) as Hfo.
  unfold tcp_state_close. run. rewrite Hst, Hfl. const_tests. by run.
Qed.

Lemma fin_wait_2_frees w s sock rcv pkt h :
  closable w s sock rcv → state sock = FIN_WAIT_2 → fields_of pkt h → flags h = Z.lor FIN ACK →
  ∃ g w1 k, tcp_state_close s pkt w = Wait g w1 k ∧
    w1 = w⟨w_socks := <[s := sock⟨state := TIME_WAIT⟩]> (w_socks w)⟩
          ⟨w_sent := w_sent w ++ [close_ack sock rcv]⟩ ∧
    ∀ w2 sock2, w_socks w2 !! s = Some sock2 →
      k w2 = Done 0 (w2⟨w_socks := delete s (w_socks w2)⟩).
Proof using Hhost.
  intros [Hs Hr Hi] Hst Hf Hfl. pose proof (fo_flags _ _ Hf) as Hfo.
  unfold tcp_state_close. run. rewrite Hst, Hfl. const_tests. run.
  match goal with |- context [(sleep ?n ≫= _) ?w1] =>
    destruct (sleep_wait n w1) as (g & E & _) end; [done|].
  erewrite bind_wait by exact E. do 3 eexists. split; [reflexivity|]. split; [reflexivity|].
  intros w2 sock2 Hs2. cbn [obind]. by run.
Qed.

(** ** Properties *)

(** C35: passive close.  A FIN|ACK on an established connection moves it to
    CLOSE_WAIT and is acknowledged at once; after [MSL * 2] seconds the
    connection, whatever has happened to it meanwhile, is in LAST_ACK and has
    sent its own FIN|ACK.  The ACK of that one frees the socket. *)
Theorem passive_close w s sock rcv pkt h :
  closable w s sock rcv → fields_of pkt h → flags h = Z.lor FIN ACK → state sock = ESTABLISHED →
  ∃ g k, let w1 := w⟨w_socks := <[s := sock⟨state := CLOSE_WAIT⟩]> (w_socks w)⟩
                    ⟨w_sent := w_sent w ++ [close_ack sock rcv]⟩ in
    tcp_state_close s pkt w = Wait g w1 k ∧
    (∀ w2, g w2 = Some (w_clock w + MSL * 2 <=? w_clock w2)) ∧
    (∀ w2 sock2 rcv2, closable w2 s sock2 rcv2 →
       k w2 = Done 0 (w2⟨w_socks := <[s := sock2⟨state := LAST_ACK⟩]> (w_socks w2)⟩
                         ⟨w_sent := w_sent w2 ++ [close_fin sock2 rcv2]⟩)) ∧
    (∀ w3 sock3 pkt' h', w_socks w3 !! s = Some sock3 → state sock3 = LAST_ACK →
       fields_of pkt' h' → flags h' = ACK →
       tcp_state_close s pkt' w3 = Done 0 (w3⟨w_socks := delete s (w_socks w3)⟩)).
Proof using Hhost.
  intros [Hs Hr Hi] Hf Hfl Hst. pose proof (fo_flags _ _ Hf) as Hfo.
  unfold tcp_state_close at 1. run.
  rewrite Hst, Hfl. const_tests. run.
  destruct (sleep_wait (MSL * 2)
    (w⟨w_socks := <[s := sock⟨state := CLOSE_WAIT⟩]> (w_socks w)⟩
      ⟨w_sent := w_sent w ++ [close_ack sock rcv]⟩)) as (g & E & Hg); [done|].
  erewrite bind_wait by exact E. do 2 eexists. split; [reflexivity|]. split; [exact Hg|]. split.
  - intros w2 sock2 rcv2 [Hs2 Hr2 Hi2]. cbn [obind]. run. done.
  - clear. intros w3 sock3 pkt' h' Hs3 Hst3 Hf3 Hfl3. by eapply last_ack_frees.
Qed.

(** C40: active close never completes.  [tcp_close] discards the receive buffer,
    moves the connection to FIN_WAIT_1, sends a FIN|ACK and waits for the state
    CLOSED.  The receive thread answers the peer's ACK by FIN_WAIT_2 and its
    FIN|ACK by TIME_WAIT, and [2 * MSL] seconds later frees the socket: the
    state CLOSED is never entered and the waiting call reads freed memory. *)
Theorem active_close_reads_freed w s sock rcv b buf :
  closable w s sock rcv → received_buf sock = Some b → w_bufs w !! b = Some buf →
  let sock1 := sock⟨received_len := 0⟩⟨received_buf := None⟩⟨state := FIN_WAIT_1⟩ in
  ∃ g w1 k, tcp_close s w = Wait g w1 k ∧
    w1 = w⟨w_bufs := delete b (w_bufs w)⟩⟨w_socks := <[s := sock1]> (w_socks w)⟩
          ⟨w_sent := w_sent w ++ [close_fin sock1 rcv]⟩ ∧
    (∀ w2, g w2 = match w_socks w2 !! s with Some x => Some (state x =? CLOSED) | None => None end) ∧
    (∀ pkt h, fields_of pkt h → flags h = ACK →
       tcp_state_close s pkt w1 =
         Done 0 (w1⟨w_socks := <[s := sock1⟨state := FIN_WAIT_2⟩]> (w_socks w1)⟩)) ∧
    (∀ w3 sock3 rcv3 pkt h, closable w3 s sock3 rcv3 → state sock3 = FIN_WAIT_2 →
       fields_of pkt h → flags h = Z.lor FIN ACK →
       ∃ g' w4 k', tcp_state_close s pkt w3 = Wait g' w4 k' ∧
         (∃ sock4, w_socks w4 !! s = Some sock4 ∧ state sock4 = TIME_WAIT) ∧ g w4 = Some false ∧
         ∀ w5 sock5, w_socks w5 !! s = Some sock5 →
           ∃ w6, k' w5 = Done 0 w6 ∧ g w6 = None).
Proof using Hhost.
  intros [Hs Hr Hi] Hb Hbuf sock1. unfold tcp_close. run. rewrite Hb.
  erewrite bind_done by (run; prim). rsimpl. rewrite ?insert_insert_eq. run.
  erewrite await_wait by (rsimpl; by rewrite lookup_insert_eq).
  do 3 eexists. split; [reflexivity|]. split; [reflexivity|]. split; [|split].
  - intros w2. by destruct (w_socks w2 !! s).
  - intros pkt h Hf Hfl. eapply fin_wait_1_ack; [rsimpl; by rewrite lookup_insert_eq|done|exact Hf|done].
  - intros w3 sock3 rcv3 pkt h Hc Hst Hf Hfl.
    destruct (fin_wait_2_frees w3 s sock3 rcv3 pkt h Hc Hst Hf Hfl) as (g' & w4 & k' & E & E4 & Hk).
    exists g', w4, k'. split; [done|]. rewrite E4. rsimpl. rewrite lookup_insert_eq.
    split; [by eexists|]. split; [done|].
    intros w5 sock5 H5. eexists. split; [by eapply Hk|]. rsimpl. by rewrite lookup_delete_eq.
Qed.

(** In every other combination of state and flags a packet changes nothing
    and the result is -1. *)
Lemma close_refuses_others w s sock pkt h :
  w_socks w !! s = Some sock → fields_of pkt h →
  (state sock = ESTABLISHED → flags h ≠ Z.lor FIN ACK) →
  (state sock = FIN_WAIT_1 → flags h ≠ ACK) →
  (state sock = FIN_WAIT_2 → flags h ≠ Z.lor FIN ACK) →
  (state sock = LAST_ACK → flags h ≠ ACK) →
  tcp_state_close s pkt w = Done (-1) w.
Proof using. clear Hhost. intros. by eapply tcp_state_close_flags. Qed.

End teardown.
(** ** Instances *)

Definition closing_sock (st : Z) : tju_tcp_t := sample_sock⟨state := st⟩.
Definition closing_world (st : Z) : world :=
  sample_world (closing_sock st) sample_snd sample_rcv [] [1; 2; 3] [].

Lemma closing_world_closable st : closable (closing_world st) 1 (closing_sock st) sample_rcv.
Proof. constructor; [reflexivity|reflexivity|by vm_compute]. Qed.

Lemma passive_close_witness :
  ∃ g w1 k, @tcp_state_close (env_at Host_server) 1 (segment 5678 1234 7 7 (Z.lor FIN ACK) 0)
              (closing_world ESTABLISHED) = Wait g w1 k.
Proof.
  destruct (@passive_close (env_at Host_server) ltac:(done) (closing_world ESTABLISHED) 1
    (closing_sock ESTABLISHED) sample_rcv (segment 5678 1234 7 7 (Z.lor FIN ACK) 0)
    (segment_header 5678 1234 7 7 (Z.lor FIN ACK) 0)) as (g & k & E & _);
    [apply closing_world_closable|apply segment_fields|reflexivity|reflexivity|].
  do 3 eexists. exact E.
Defined.

Lemma active_close_reads_freed_witness :
  ∃ g w1 k, @tcp_close (env_at Host_client) 1 (closing_world ESTABLISHED) = Wait g w1 k.
Proof.
  destruct (@active_close_reads_freed (env_at Host_client) ltac:(done) (closing_world ESTABLISHED) 1
    (closing_sock ESTABLISHED) sample_rcv 3 [1; 2; 3]) as (g & w1 & k & E & _);
    [apply closing_world_closable|reflexivity|reflexivity|].
  do 3 eexists. exact E.
Defined.

