(* ===== verification/Transfer.v ===== *)
(** * Data transfer

    The receive path [tju_handle_packet] (src/kernel.c), the send thread
    [tcp_send_stream] and the buffer functions of src/tju_tcp.c, and the
    retransmission [tcp_retransmit_timer] (src/timer.c). *)

From S2P Require Import Prelude Consts CFloat Packet Machine Control Congestion Timer Samples.

Section transfer.
Context `{Env}.

(** ** Receiving *)

(** The last part of [tju_handle_packet]: the payload goes to the buffer. *)
Definition store_payload (s : loc) (pkt : list Z) : M Z :=
  plen ← lift OutOfBounds (get_plen pkt);
  let data_len := u32 (plen - DEFAULT_HEADER_LEN) in
  pthread_mutex_lock s recv_lock;;
  sock ← load_sock s;
  let total := u32 (received_len sock + data_len) in
  buf ← match received_buf sock with
        | None => p ← malloc data_len; mret (Some p)
        | Some p => realloc p total
        end;
  modify s (fun sock => sock⟨received_buf := buf⟩);;
  data ← lift OutOfBounds (mem_read pkt DEFAULT_HEADER_LEN data_len);
  (if data_len =? 0 then mret tt
   else p ← lift BadPointer buf; copy_in p (received_len sock) data);;
  modify s (fun sock => sock⟨received_len := i32 total⟩);;
  pthread_mutex_unlock s recv_lock;;
  mret 0.

(** The branch [flag == ACK] up to the piggybacked data. *)
Definition handle_ack (s : loc) (pkt : list Z) : M Z :=
  sock ← load_sock s;
  sock ← lift IntOverflow (handle_success_ack sock);
  store s sock;;
  seq ← lift OutOfBounds (get_seq pkt);
  modify (wnd_send sock) (fun r => r⟨base := seq⟩);;
  snd ← load_snd (wnd_send sock);
  (if base snd =? nextseq snd then tcp_stop_timer s else tcp_start_timer s);;
  plen ← lift OutOfBounds (get_plen pkt);
  hlen ← lift OutOfBounds (get_hlen pkt);
  if plen <? hlen then exit 0
  else if plen =? hlen then mret 0
  else store_payload s pkt.

(** The last branch: a data segment. *)
Definition handle_data (s : loc) (pkt : list Z) (seq : Z) : M Z :=
  sock ← load_sock s;
  rcv ← load_rcv (wnd_recv sock);
  let expected_seq := expect_seq rcv in
  if expected_seq <? seq then mret 0
  else if seq =? expected_seq then
    plen ← lift OutOfBounds (get_plen pkt);
    hlen ← lift OutOfBounds (get_hlen pkt);
    let len := plen - hlen in
    modify (wnd_recv sock) (fun r => r⟨expect_seq := u32 (expect_seq r + len)⟩);;
    tcp_send_ack s;;
    store_payload s pkt
  else
    tcp_send_ack s;;
    mret 0.

Definition tju_handle_packet (s : loc) (pkt : list Z) : M Z :=
  flag ← lift OutOfBounds (get_flags pkt);
  seq ← lift OutOfBounds (get_seq pkt);
  adv_wnd ← lift OutOfBounds (get_advertised_window pkt);
  sock ← load_sock s;
  modify (wnd_send sock) (fun r => r⟨rwnd := u16 adv_wnd⟩);;
  if flag =? HEAD then back_only_header s;; mret 0
  else if flag =? BACKHEAD then mret 0
  else if flag =? ACK then handle_ack s pkt
  else handle_data s pkt seq.

(** ** Sending *)

(** One iteration of the loop of the send thread. *)
Definition tcp_send_stream_iteration (s : loc) : M unit :=
  sock ← load_sock s;
  (if 0 <? sending_len sock then
     pthread_mutex_lock s send_lock;;
     sock ← load_sock s;
     let len := sending_len sock in
     buf ← copy_out (sending_buf sock) 0 len;
     left_size ← lift IntOverflow (int_result (sending_len sock - len));
     (if 0 <? left_size then copy_within (sending_buf sock) 0 len left_size else mret tt);;
     modify s (fun sock => sock⟨sending_len := sending_len sock - len⟩);;
     pthread_mutex_unlock s send_lock;;
     let plen := u16 (DEFAULT_HEADER_LEN + len) in
     snd ← load_snd (wnd_send sock);
     let seq := nextseq snd in
     let base := base snd in
     let window_size := window_size snd in
     if seq <? u32 (base + window_size) then
       sock ← load_sock s;
       diff ← lift IntOverflow (int_result (TCP_RECV_BUFFER_SIZE - received_len sock));
       let adv_wnd := u16 diff in
       copy_in (send_windows snd) (nextseq snd) buf;;
       msg ← lift OutOfBounds (create_packet_buf (port (established_local_addr sock))
         (port (established_remote_addr sock)) seq 0 DEFAULT_HEADER_LEN plen NO_FLAG adv_wnd 0
         buf len);
       sendToLayer3 msg plen;;
       (if seq =? base then tcp_start_timer s else mret tt);;
       modify (wnd_send sock) (fun r => r⟨nextseq := u32 (nextseq r + len)⟩)
     else sleep 1
   else sleep 1);;
  sleep 1.

(** Retransmission of everything between [base] and [nextseq] in one segment. *)
Definition tcp_retransmit_timer (s : loc) : M unit :=
  sock ← load_sock s;
  snd ← load_snd (wnd_send sock);
  let base := base snd in
  let next_seq := nextseq snd in
  let len := i32 (u32 (next_seq - base)) in
  if len <? 0 then exit 0
  else if MAX_LEN <? len then exit 0
  else
    buf ← copy_out (send_windows snd) base len;
    let plen := u16 (DEFAULT_HEADER_LEN + len) in
    let seq := base in
    msg ← lift OutOfBounds (create_packet_buf (port (established_local_addr sock))
      (port (established_remote_addr sock)) seq 0 DEFAULT_HEADER_LEN plen NO_FLAG 1 0 buf len);
    tcp_start_timer s;;
    sendToLayer3 msg plen.

(** ** Flow control *)

(** [rwnd<0.1 || (rwnd-data_on_way)/rwnd < IMPROVED_WINDOW_THRESHOLD]: floats,
    compared with [double] literals. *)
Definition improve_test (rwnd nextseq base : Z) : bool :=
  let rwnd := f32_of_Z rwnd in
  let data_on_way := f32_sub (f32_of_Z nextseq) (f32_of_Z base) in
  SFltb (f64_of_f32 rwnd) f64_tenth ||
  SFltb (f64_of_f32 (f32_div (f32_sub rwnd data_on_way) rwnd)) f64_quarter.

Definition improve_send_wnd (s : loc) : M Z :=
  sock ← load_sock s;
  snd ← load_snd (wnd_send sock);
  if improve_test (rwnd snd) (nextseq snd) (base snd)
  then send_only_header s;; mret 0
  else mret 1.

(** It takes [send_lock] and releases [recv_lock]. *)
Definition load_data_to_sending_buffer (s : loc) (buffer : list Z) (len : Z) : M unit :=
  pthread_mutex_lock s send_lock;;
  sock ← load_sock s;
  total ← lift IntOverflow (int_result (sending_len sock + len));
  if TCP_RECVWN_SIZE <? total then exit (-1)
  else
    bs ← lift OutOfBounds (mem_read buffer 0 len);
    copy_in (sending_buf sock) (sending_len sock) bs;;
    modify s (fun sock => sock⟨sending_len := sending_len sock + len⟩);;
    pthread_mutex_unlock s recv_lock.

(** The loop over the full packets: [i] is the loop variable, [k] the
    iterations left. *)
Fixpoint send_full_packets (s : loc) (full_pkt_nums left_data_len i : Z) (k : nat) : M unit :=
  match k with
  | O => mret tt
  | S k =>
      sock ← load_sock s;
      send_data ← copy_out (sending_buf sock) (i * MAX_DLEN) MAX_DLEN;
      let seq := 0 in
      let ack := 0 in
      let plen := u16 (DEFAULT_HEADER_LEN + MAX_DLEN) in
      let flags := if (i =? full_pkt_nums - 1) && (left_data_len =? 0) then PSH else NO_FLAG in
      msg ← lift OutOfBounds (create_packet_buf (port (established_local_addr sock))
        (port (established_remote_addr sock)) seq ack DEFAULT_HEADER_LEN plen flags 2000 0
        send_data MAX_DLEN);
      sendToLayer3 msg plen;;
      send_full_packets s full_pkt_nums left_data_len (i + 1) k
  end.

Definition sending_buffer_to_layer3 (s : loc) (len push_bit_flag : Z) : M unit :=
  let full_pkt_nums := len ÷ MAX_DLEN in
  let left_data_len := Z.rem len MAX_DLEN in
  send_full_packets s full_pkt_nums left_data_len 0 (Z.to_nat full_pkt_nums);;
  (if negb (left_data_len =? 0) then
     sock ← load_sock s;
     send_data ← copy_out (sending_buf sock) (full_pkt_nums * MAX_DLEN) left_data_len;
     let plen := u16 (DEFAULT_HEADER_LEN + left_data_len) in
     msg ← lift OutOfBounds (create_packet_buf (port (established_local_addr sock))
       (port (established_remote_addr sock)) 0 0 DEFAULT_HEADER_LEN plen PSH 2000 0
       send_data left_data_len);
     sendToLayer3 msg plen
   else mret tt);;
  pthread_mutex_lock s send_lock;;
  sock ← load_sock s;
  copy_within (sending_buf sock) 0 len (sending_len sock - len);;
  modify s (fun sock => sock⟨sending_len := sending_len sock - len⟩);;
  pthread_mutex_unlock s recv_lock.

(** ** Lemmas *)

(** The bytes received and not yet read by the application: a prefix of the
    block [received_buf] points to. *)
Definition recv_rep (w : world) (sock : tju_tcp_t) (bs : list Z) : Prop :=
  received_len sock = blen bs ∧
  match received_buf sock with
  | Some b => ∃ rest, w_bufs w !! b = Some (bs ++ rest)
  | None => bs = []
  end.

(** A segment that carries [d] after a header of the default length. *)
Record carries (pkt : list Z) (h : tju_header_t) (d : list Z) : Prop := {
  ca_fields : fields_of pkt h;
  ca_hlen : hlen h = DEFAULT_HEADER_LEN;
  ca_plen : plen h = DEFAULT_HEADER_LEN + blen d;
  ca_data : mem_read pkt DEFAULT_HEADER_LEN (blen d) = Some d
}.

(** The copy of the payload behind the bytes already received. *)
Lemma store_tail_ok p bs m d w :
  w_bufs w !! p = Some (bs ++ m) → blen m = blen d →
  (if blen d =? 0 then mret tt
   else p ← lift BadPointer (Some p); copy_in p (blen bs) d) w =
  Done tt (w⟨w_bufs := <[p := bs ++ d]> (w_bufs w)⟩).
Proof using.
  intros Hp Hm. destruct (Z.eqb_spec (blen d) 0) as [E|E].
  - apply blen_zero in E as ->. apply blen_zero in Hm as ->.
    rewrite insert_id by done. by destruct w.
  - run. eapply copy_in_ok; [done|]. by apply mem_write_tail.
Qed.

Lemma store_payload_ok w s sock bs pkt h d :
  w_socks w !! s = Some sock → recv_lock sock = false → recv_rep w sock bs →
  below (w_next w) (w_bufs w) → carries pkt h d → blen bs + blen d < 2 ^ 31 →
  ∃ bufs' b' next',
    let sock' := sock⟨received_buf := b'⟩⟨received_len := blen (bs ++ d)⟩⟨recv_lock := false⟩ in
    let w' := w⟨w_bufs := bufs'⟩⟨w_socks := <[s := sock']> (w_socks w)⟩⟨w_next := next'⟩ in
    store_payload s pkt w = Done 0 w' ∧ recv_rep w' sock' (bs ++ d) ∧
    below next' bufs' ∧ (w_next w <= next')%positive.
Proof using.
  intros Hs Hlk [Hlen Hbuf] Hb [Hf Hh Hp Hd] Hmax.
  pose proof (blen_nonneg bs). pose proof (blen_nonneg d).
  pose proof (fo_plen _ _ Hf) as Hpl.
  unfold store_payload. run. rewrite Hp.
  replace (u32 (DEFAULT_HEADER_LEN + blen d - DEFAULT_HEADER_LEN)) with (blen d)
    by (rewrite Z.add_simpl_l, u32_id; [done|unfold is_u32; lia]).
  rewrite Hlen. rewrite u32_id by (unfold is_u32; lia).
  destruct (received_buf sock) as [b|] eqn:Eb.
  - destruct Hbuf as [rest Hbuf]. destruct (decide (blen bs + blen d = 0)) as [Hz|Hnz].
    + rewrite Hz. erewrite bind_done by (eapply realloc_zero; lookup_tac). run.
      assert (bs = []) as -> by (apply blen_zero; lia). assert (d = []) as -> by (apply blen_zero; lia).
      const_tests. run. do 3 eexists. split; [reflexivity|]. split; [by split|]. split; [|done].
      intros q Hq. apply Hb. by apply lookup_delete_is_Some in Hq as [_ Hq].
    + erewrite bind_done by (eapply realloc_ok; [lookup_tac|done]).
      destruct (realloc_block_prefix (w_next w) _ bs rest (blen bs + blen d) eq_refl) as [m Em]; [lia|].
      pose proof (blen_realloc_block (w_next w) (bs ++ rest) (blen bs + blen d)) as Hm.
      rewrite Em, blen_app in Hm. rsimpl. rewrite Em. run.
      erewrite bind_done by (apply (store_tail_ok _ bs m d); [lookup_tac|lia]). run.
      do 3 eexists. split; [rewrite blen_app, i32_id by (unfold is_int; lia); world_eq|].
      split; [split; [done|]|split; [|lia]].
      * rsimpl. exists []. by rewrite lookup_insert_eq, app_nil_r.
      * intros q [x Hq]. apply lookup_insert_Some in Hq as [[<- _]|[_ Hq]]; [lia|].
        apply lookup_delete_Some in Hq as [_ Hq]. specialize (Hb q ltac:(eauto)). lia.
  - subst bs. run.
    pose proof (blen_junk_block (w_next w) (blen d)) as Hm.
    erewrite bind_done by (apply (store_tail_ok _ [] (junk_block (w_next w) (blen d)) d);
      [lookup_tac|lia]). run.
    do 3 eexists. split; [cbn [app]; rewrite i32_id by (unfold is_int; lia); world_eq|].
    split; [split; [done|]|split; [|lia]].
    + rsimpl. exists []. by rewrite lookup_insert_eq, app_nil_r.
    + intros q [x Hq]. apply lookup_insert_Some in Hq as [[<- _]|[_ Hq]]; [lia|].
      specialize (Hb q ltac:(eauto)). lia.
Qed.

(** A connection that holds the bytes [bs] for its application. *)
Record receiving (w : world) (s : loc) (sock : tju_tcp_t) (snd : sender_window_t)
    (rcv : receiver_window_t) (bs : list Z) : Prop := {
  rx_sock : w_socks w !! s = Some sock;
  rx_snd : w_snds w !! wnd_send sock = Some snd;
  rx_rcv : w_rcvs w !! wnd_recv sock = Some rcv;
  rx_lock : recv_lock sock = false;
  rx_rep : recv_rep w sock bs;
  rx_below : below (w_next w) (w_bufs w)
}.

(** What the receive path leaves alone. *)
Record rx_frame (w w' : world) (s : loc) (sock' : tju_tcp_t) : Prop := {
  rf_socks : w_socks w' = <[s := sock']> (w_socks w);
  rf_queues : w_queues w' = w_queues w;
  rf_threads : w_threads w' = w_threads w;
  rf_manager : w_manager w' = w_manager w;
  rf_next : (w_next w <= w_next w')%positive
}.

(** The flags of a data segment are those of no control branch. *)
Definition data_flags (fl : Z) : Prop := fl ≠ HEAD ∧ fl ≠ BACKHEAD ∧ fl ≠ ACK.

(** The specification of the receiver: the next expected sequence number and
    the bytes received so far; what a segment does to them; what is answered. *)
Definition rx_next (st : Z * list Z) (seg : Z * list Z) : Z * list Z :=
  if seg.1 =? st.1 then (u32 (st.1 + blen seg.2), st.2 ++ seg.2) else st.
Definition rx_reply (st : Z * list Z) (seg : Z * list Z) : list Z :=
  if st.1 <? seg.1 then [] else [(rx_next st seg).1].

(** The world after the peer's window was recorded. *)
Definition rx_rwnd (w : world) (sock : tju_tcp_t) (snd : sender_window_t) (h : tju_header_t)
    : world :=
  w⟨w_snds := <[wnd_send sock := snd⟨rwnd := u16 (advertised_window h)⟩]> (w_snds w)⟩.

Lemma receiving_rwnd w s sock snd rcv bs h :
  receiving w s sock snd rcv bs →
  receiving (rx_rwnd w sock snd h) s sock (snd⟨rwnd := u16 (advertised_window h)⟩) rcv bs.
Proof using.
  intros [? ? ? ? ? ?]. constructor; try done. unfold rx_rwnd. rsimpl. by rewrite lookup_insert_eq.
Qed.

Lemma tju_handle_packet_start w s sock snd rcv bs pkt h :
  receiving w s sock snd rcv bs → fields_of pkt h →
  tju_handle_packet s pkt w =
    (if flags h =? HEAD then back_only_header s;; mret 0
     else if flags h =? BACKHEAD then mret 0
     else if flags h =? ACK then handle_ack s pkt
     else handle_data s pkt (seq_num h)) (rx_rwnd w sock snd h).
Proof using.
  intros [Hs Hsnd _ _ _ _] [? ? ? ? ? ? ? ? ? ?]. unfold tju_handle_packet. run. done.
Qed.

Context (Hhost : env_host ≠ Host_other).

Lemma handle_data_ok w s sock snd rcv bs pkt h d :
  receiving w s sock snd rcv bs → carries pkt h d → blen bs + blen d < 2 ^ 31 - 2 ^ 8 →
  ∃ w' sock' rcv', handle_data s pkt (seq_num h) w = Done 0 w' ∧
    let st' := rx_next (expect_seq rcv, bs) (seq_num h, d) in
    expect_seq rcv' = st'.1 ∧ receiving w' s sock' snd rcv' st'.2 ∧
    sock' = sock⟨received_buf := received_buf sock'⟩⟨received_len := blen st'.2⟩ ∧
    rx_frame w w' s sock' ∧
    w_sent w' = w_sent w ++ ((fun e => sock_segment sock e e ACK (TCP_RECV_BUFFER_SIZE - blen bs))
                             <$> rx_reply (expect_seq rcv, bs) (seq_num h, d)).
Proof using Hhost.
  intros Hrx Hca Hmax. pose proof Hrx as [Hs Hsnd Hrcv Hlk [Hlen Hbuf] Hb].
  pose proof (fo_plen _ _ (ca_fields _ _ _ Hca)) as Hpl.
  pose proof (fo_hlen _ _ (ca_fields _ _ _ Hca)) as Hhl.
  pose proof (blen_nonneg bs). pose proof (blen_nonneg d).
  assert (is_int (TCP_RECV_BUFFER_SIZE - received_len sock)) as Hi.
  { rewrite Hlen. unfold is_int, TCP_RECV_BUFFER_SIZE. lia. }
  unfold handle_data, rx_next, rx_reply. rsimpl. run.
  destruct (Z.ltb_spec (expect_seq rcv) (seq_num h)).
  - zdecide_false (seq_num h =? expect_seq rcv). do 2 eexists. exists rcv. split; [reflexivity|].
    split; [done|]. split; [exact Hrx|]. split; [rsimpl; rewrite <- Hlen; by destruct sock|].
    split; [by constructor; [rewrite insert_id|..]|]. by rewrite app_nil_r.
  - destruct (Z.eqb_spec (seq_num h) (expect_seq rcv)) as [E|E].
    + run. rewrite (ca_plen _ _ _ Hca), (ca_hlen _ _ _ Hca), Z.add_simpl_l.
      match goal with |- context [store_payload _ _ ?w1] =>
        destruct (store_payload_ok w1 s sock bs pkt h d) as (bufs' & b' & next' & Est & Hrep' & Hb' & Hnx)
      end; [done|done|by split|done|done|lia|].
      eexists. exists (sock⟨received_buf := b'⟩⟨received_len := blen (bs ++ d)⟩⟨recv_lock := false⟩).
      exists (rcv⟨expect_seq := u32 (expect_seq rcv + blen d)⟩).
      split; [exact Est|]. split; [reflexivity|]. split; [|split; [|split]].
      * constructor; rsimpl; rewrite ?lookup_insert_eq;
          first [reflexivity|exact Hsnd|exact Hrep'|exact Hb'].
      * rsimpl. by destruct sock; cbn in *; subst.
      * by constructor.
      * rewrite <- Hlen. unfold rx_next. rsimpl. by rewrite E, Z.eqb_refl.
    + run. do 2 eexists. exists rcv. split; [reflexivity|]. split; [done|]. split; [|split; [|split]].
      * by constructor.
      * rsimpl. rewrite <- Hlen. by destruct sock.
      * by constructor; [rsimpl; rewrite insert_id|..].
      * rewrite <- Hlen. unfold rx_next. rsimpl. by zdecide_false (seq_num h =? expect_seq rcv).
Qed.

Lemma handle_data_segment_ok w s sock snd rcv bs pkt h d :
  receiving w s sock snd rcv bs → carries pkt h d → data_flags (flags h) →
  blen bs + blen d < 2 ^ 31 - 2 ^ 8 →
  ∃ w' sock' rcv', tju_handle_packet s pkt w = Done 0 w' ∧
    let st' := rx_next (expect_seq rcv, bs) (seq_num h, d) in
    expect_seq rcv' = st'.1 ∧
    receiving w' s sock' (snd⟨rwnd := u16 (advertised_window h)⟩) rcv' st'.2 ∧
    sock' = sock⟨received_buf := received_buf sock'⟩⟨received_len := blen st'.2⟩ ∧
    rx_frame w w' s sock' ∧
    w_sent w' = w_sent w ++ ((fun e => sock_segment sock e e ACK (TCP_RECV_BUFFER_SIZE - blen bs))
                             <$> rx_reply (expect_seq rcv, bs) (seq_num h, d)).
Proof using Hhost.
  intros Hrx Hca (Hf1 & Hf2 & Hf3) Hmax.
  rewrite (tju_handle_packet_start _ _ _ _ _ _ _ _ Hrx (ca_fields _ _ _ Hca)).
  zdecide_false (flags h =? HEAD). zdecide_false (flags h =? BACKHEAD). zdecide_false (flags h =? ACK).
  destruct (handle_data_ok _ _ _ _ _ _ _ _ _ (receiving_rwnd _ _ _ _ _ _ h Hrx) Hca Hmax)
    as (w' & sock' & rcv' & E & He & Hrx' & Hso & Hf & Hse). exists w', sock', rcv'.
  split_and!; try done. by destruct Hf.
Qed.

(** The packets the receive thread hands to a connection one after another. *)
Fixpoint deliver (s : loc) (pkts : list (list Z)) : M Z :=
  match pkts with
  | [] => mret 0
  | pkt :: pkts => tju_handle_packet s pkt;; deliver s pkts
  end.

(** A segment that carries a piece of the stream [S] at its offset. *)
Definition stream_segment (S : list Z) (pkt : list Z) : Prop :=
  ∃ h d, carries pkt h d ∧ data_flags (flags h) ∧ 0 <= seq_num h ∧
         mem_read S (seq_num h) (blen d) = Some d.

Lemma data_segment_carries src dst seq fl win d :
  DEFAULT_HEADER_LEN + blen d < 2 ^ 16 → Forall is_byte d →
  carries (data_segment src dst seq fl win d) (data_header src dst seq fl win d) d.
Proof using.
  clear Hhost. intros Hl Hd. constructor; [by apply data_segment_fields|done|by apply data_header_plen|].
  apply data_segment_payload.
Qed.

Lemma take_mem_read (S d : list Z) n :
  0 <= n → mem_read S n (blen d) = Some d →
  take (Z.to_nat n) S ++ d = take (Z.to_nat (n + blen d)) S ∧ n + blen d <= blen S.
Proof using.
  clear Hhost. intros Hn (_ & Hl & Hle & Hd)%mem_read_Some. split; [|done].
  rewrite Z2Nat.inj_add by lia. rewrite Hd at 1. apply take_take_drop.
Qed.

(** The receiver, by induction on the packets. *)
Lemma deliver_stream_ok S pkts w s sock snd rcv n :
  blen S < 2 ^ 30 - 2 ^ 8 → Forall (stream_segment S) pkts →
  0 <= n <= blen S → expect_seq rcv = n → receiving w s sock snd rcv (take (Z.to_nat n) S) →
  ∃ w' sock' snd' rcv' n', deliver s pkts w = Done 0 w' ∧
    n <= n' <= blen S ∧ expect_seq rcv' = n' ∧
    receiving w' s sock' snd' rcv' (take (Z.to_nat n') S).
Proof using Hhost.
  intros HS Hall. revert w sock snd rcv n.
  induction Hall as [|pkt pkts (h & d & Hca & Hfl & H0 & Hd) _ IH]; intros w sock snd rcv n Hn He Hrx.
  { exists w, sock, snd, rcv, n. by split_and!; try lia. }
  cbn [deliver]. destruct (take_mem_read _ _ _ H0 Hd) as [Happ Hle].
  assert (blen (take (Z.to_nat n) S) = n) as Hlen by (unfold blen in *; rewrite length_take; lia).
  pose proof (blen_nonneg d).
  destruct (handle_data_segment_ok _ _ _ _ _ _ _ _ _ Hrx Hca Hfl)
    as (w' & sock' & rcv' & E & He' & Hrx' & _ & _ & _).
  { lia. }
  erewrite bind_done by exact E. unfold rx_next in *. cbn [Datatypes.fst Datatypes.snd] in *.
  destruct (Z.eqb_spec (seq_num h) (expect_seq rcv)) as [Es|Es]; cbn [Datatypes.fst Datatypes.snd] in *.
  - rewrite u32_id in He' by (unfold is_u32; lia).
    assert (n + blen d = expect_seq rcv') as Hn' by lia.
    replace (Z.to_nat n) with (Z.to_nat (seq_num h)) in Hrx' by lia. rewrite Happ in Hrx'.
    destruct (IH w' sock' (snd⟨rwnd := u16 (advertised_window h)⟩) rcv' (n + blen d)) as (w2 & sock2 & snd2 & rcv2 & n2 & E2 & H2);
      [lia|done|by replace (n + blen d) with (seq_num h + blen d) by lia|].
    exists w2, sock2, snd2, rcv2, n2. split; [done|]. split; [lia|]. apply H2.
  - destruct (IH w' sock' (snd⟨rwnd := u16 (advertised_window h)⟩) rcv' n) as (w2 & sock2 & snd2 & rcv2 & n2 & E2 & H2); [lia|lia|done|].
    exists w2, sock2, snd2, rcv2, n2. split; [done|]. split; [lia|]. apply H2.
Qed.

(** What the send thread has before it: [d] in the sending buffer, [swin] in the
    window buffer. *)
Record sending (w : world) (s : loc) (sock : tju_tcp_t) (snd : sender_window_t)
    (d rest swin : list Z) : Prop := {
  tx_sock : w_socks w !! s = Some sock;
  tx_snd : w_snds w !! wnd_send sock = Some snd;
  tx_lock : send_lock sock = false;
  tx_len : sending_len sock = blen d;
  tx_buf : w_bufs w !! sending_buf sock = Some (d ++ rest);
  tx_win : w_bufs w !! send_windows snd = Some swin;
  tx_ne : send_windows snd ≠ sending_buf sock;
  tx_bytes : Forall is_byte d;
  tx_recv : is_int (TCP_RECV_BUFFER_SIZE - received_len sock)
}.

(** The segment the send thread builds for [d]. *)
Definition stream_packet (sock : tju_tcp_t) (seq win : Z) (d : list Z) : list Z :=
  data_segment (port (established_local_addr sock)) (port (established_remote_addr sock)) seq
    NO_FLAG win d.

(** [sendToLayer3] drops what is longer than [MAX_LEN]. *)
Definition layer3_takes (pkt : list Z) : list (list Z) :=
  if MAX_LEN <? blen pkt then [] else [pkt].

Lemma sendToLayer3_any pkt len w :
  blen pkt = len → sendToLayer3 pkt len w = Done tt (w⟨w_sent := w_sent w ++ layer3_takes pkt⟩).
Proof using Hhost.
  intros Hl. unfold layer3_takes. rewrite Hl. destruct (Z.ltb_spec MAX_LEN len).
  - unfold sendToLayer3. zif. rewrite app_nil_r. by destruct w.
  - by apply sendToLayer3_ok.
Qed.

Lemma send_iteration_ok w s sock snd d rest swin swin' r :
  sending w s sock snd d rest swin → 0 < blen d → DEFAULT_HEADER_LEN + blen d < 2 ^ 16 →
  nextseq snd < u32 (base snd + window_size snd) → mem_write swin (nextseq snd) d = Some swin' →
  (nextseq snd = base snd → timer_idle w s sock r) →
  let sock1 := sock⟨send_lock := false⟩⟨sending_len := 0⟩ in
  let w1 := w⟨w_socks := <[s := sock1]> (w_socks w)⟩
             ⟨w_bufs := <[send_windows snd := swin']> (w_bufs w)⟩
             ⟨w_sent := w_sent w ++ layer3_takes (stream_packet sock (nextseq snd)
                 (u16 (TCP_RECV_BUFFER_SIZE - received_len sock)) d)⟩ in
  let w2 := if nextseq snd =? base snd then timer_running w1 s sock1 r else w1 in
  tcp_send_stream_iteration s w =
  sleep 1 (w2⟨w_snds := <[wnd_send sock := snd⟨nextseq := u32 (nextseq snd + blen d)⟩]> (w_snds w)⟩).
Proof using Hhost.
  intros [Hs Hsnd Hlk Hlen Hbuf Hwin Hne Hby Hi] H0 Hmax Hopen Hwr Ht sock1 w1 w2.
  unfold tcp_send_stream_iteration. run. zif.
  erewrite bind_done; [reflexivity|].
  run. erewrite bind_done by (eapply copy_out_ok; [lookup_tac|]; rewrite Hlen; by apply (mem_read_app [] d)).
  run. rewrite Z.sub_diag. cbn [Z.ltb Z.compare]. run. zif. run.
  erewrite bind_done by (eapply copy_in_ok; [lookup_tac|exact Hwr]). rsimpl. rewrite Hlen.
  erewrite bind_done by (apply lift_ok, data_segment_eq; done).
  erewrite bind_done.
  2: { apply sendToLayer3_any. rewrite data_segment_length, u16_id; [done|].
       unfold is_u16, DEFAULT_HEADER_LEN in *. lia. }
  rsimpl. rewrite Z.sub_diag. fold (stream_packet sock (nextseq snd)
    (u16 (TCP_RECV_BUFFER_SIZE - received_len sock)) d).
  match goal with |- (_ ≫= _) ?w' = _ => change w' with w1 end. unfold w2.
  destruct (Z.eqb_spec (nextseq snd) (base snd)) as [E|E].
  - erewrite bind_done by (apply tcp_start_timer_ok with (sock := sock1) (r := r);
      destruct (Ht E) as [_ Hr Hst Htl Hsl]; constructor;
      [apply lookup_insert_eq|exact Hr|exact Hst|exact Htl|exact Hsl]).
    eapply eq_trans; [eapply modify_ok; exact Hsnd|reflexivity].
  - run. eapply eq_trans; [eapply modify_ok; exact Hsnd|reflexivity].
Qed.



(** ** Properties *)

(** C7: one data segment refines one step of the receiver's specification.  An
    in-order segment is appended to the received bytes and acknowledged with
    the next expected sequence number, an old one is only acknowledged again,
    one from the future changes nothing and gets no answer. *)
Theorem data_segment_refines w s sock snd rcv bs pkt h d :
  receiving w s sock snd rcv bs → carries pkt h d → data_flags (flags h) →
  blen bs + blen d < 2 ^ 31 - 2 ^ 8 →
  ∃ w' sock' rcv', tju_handle_packet s pkt w = Done 0 w' ∧
    let st' := rx_next (expect_seq rcv, bs) (seq_num h, d) in
    expect_seq rcv' = st'.1 ∧
    receiving w' s sock' (snd⟨rwnd := u16 (advertised_window h)⟩) rcv' st'.2 ∧
    w_sent w' = w_sent w ++ ((fun e => sock_segment sock e e ACK (TCP_RECV_BUFFER_SIZE - blen bs))
                             <$> rx_reply (expect_seq rcv, bs) (seq_num h, d)).
Proof using Hhost.
  intros Hrx Hca Hf Hmax.
  destruct (handle_data_segment_ok _ _ _ _ _ _ _ _ _ Hrx Hca Hf Hmax)
    as (w' & sock' & rcv' & E & He & Hrx' & _ & _ & Hs). by exists w', sock', rcv'.
Qed.

(** C6: reliable in-order delivery.  Whatever segments of a stream arrive, in
    whatever order, with losses and duplicates, the bytes the connection holds
    for its application are always a prefix of the stream, and the next
    expected sequence number is the length of that prefix. *)
Theorem received_is_prefix S pkts w s sock snd rcv n :
  blen S < 2 ^ 30 - 2 ^ 8 → Forall (stream_segment S) pkts →
  0 <= n <= blen S → expect_seq rcv = n → receiving w s sock snd rcv (take (Z.to_nat n) S) →
  ∃ w' sock' snd' rcv' n', deliver s pkts w = Done 0 w' ∧
    n <= n' <= blen S ∧ expect_seq rcv' = n' ∧
    receiving w' s sock' snd' rcv' (take (Z.to_nat n') S).
Proof using Hhost. apply deliver_stream_ok. Qed.

(** C8: the send thread, window open.  It takes everything that is in the
    sending buffer, copies it to the window buffer at offset [nextseq], hands
    one segment that carries exactly those bytes at that sequence number to
    layer 3, starts the timer if nothing was in flight, and advances [nextseq]
    by the number of bytes.  Layer 3 drops the segment when it is longer than
    [MAX_LEN]; buffer and [nextseq] move on all the same. *)
Theorem send_iteration_spec w s sock snd d rest swin swin' r :
  sending w s sock snd d rest swin → 0 < blen d → DEFAULT_HEADER_LEN + blen d < 2 ^ 16 →
  nextseq snd < u32 (base snd + window_size snd) → mem_write swin (nextseq snd) d = Some swin' →
  (nextseq snd = base snd → timer_idle w s sock r) →
  ∃ g w', tcp_send_stream_iteration s w = Wait g w' (fun w2 => Done tt w2) ∧
    w_sent w' = w_sent w ++ (if MAX_LEN <? DEFAULT_HEADER_LEN + blen d then []
                             else [stream_packet sock (nextseq snd)
                                     (u16 (TCP_RECV_BUFFER_SIZE - received_len sock)) d]) ∧
    w_bufs w' = <[send_windows snd := swin']> (w_bufs w) ∧
    w_snds w' = <[wnd_send sock := snd⟨nextseq := u32 (nextseq snd + blen d)⟩]> (w_snds w) ∧
    (∃ sock', w_socks w' !! s = Some sock' ∧ sending_len sock' = 0 ∧ send_lock sock' = false) ∧
    (if nextseq snd =? base snd then w_threads w' !! w_next w =
       Some (mk_thread (Run_tcp_check_timeout s) false)
     else w_threads w' = w_threads w).
Proof using Hhost.
  intros Hs H0 Hmax Hopen Hwr Ht.
  rewrite (send_iteration_ok _ _ _ _ _ _ _ _ r Hs H0 Hmax Hopen Hwr Ht).
  match goal with |- context [sleep 1 ?w1] => destruct (sleep_wait 1 w1) as (g & -> & _) end;
    [done|].
  do 2 eexists. split; [reflexivity|].
  unfold layer3_takes, stream_packet. rewrite data_segment_length.
  destruct (nextseq snd =? base snd); unfold timer_running; rsimpl; split_and!; try done.
  - eexists. by rewrite lookup_insert_eq.
  - by rewrite lookup_insert_eq.
  - eexists. by rewrite lookup_insert_eq.
Qed.

(** the send thread, window full.  The data leaves the sending buffer and is
    lost: nothing is sent, stored in the window or kept. *)
Theorem send_iteration_drops w s sock snd d rest swin :
  sending w s sock snd d rest swin → 0 < blen d < 2 ^ 31 →
  u32 (base snd + window_size snd) <= nextseq snd →
  ∃ g k, let w' := w⟨w_socks := <[s := sock⟨send_lock := false⟩⟨sending_len := 0⟩]> (w_socks w)⟩ in
    tcp_send_stream_iteration s w = Wait g w' k ∧
    ∀ w2, ∃ g2, k w2 = Wait g2 w2 (fun w3 => Done tt w3).
Proof using.
  clear Hhost. intros [Hs Hsnd Hlk Hlen Hbuf Hwin Hne Hby Hi] H0 Hfull.
  unfold tcp_send_stream_iteration. run. zif.
  erewrite bind_wait.
  2: { run. erewrite bind_done by (eapply copy_out_ok; [lookup_tac|]; rewrite Hlen; by apply (mem_read_app [] d)).
       run. rewrite Z.sub_diag. cbn [Z.ltb Z.compare]. run. zif. rewrite Hlen, Z.sub_diag.
       by apply sleep_eq. }
  do 2 eexists. split; [reflexivity|]. intros w2. cbn [obind]. eexists. by apply sleep_eq.
Qed.

(** the window buffer is not a ring.  Once the connection has sent so much
    that the next piece does not fit behind offset [nextseq] of the buffer of
    [TCP_SEND_WINDOW_SIZE] bytes, the send thread writes past its end, although
    every earlier byte may have been acknowledged. *)
Theorem send_iteration_overflow w s sock snd d rest swin :
  sending w s sock snd d rest swin → 0 < blen d < 2 ^ 31 →
  nextseq snd < u32 (base snd + window_size snd) →
  blen swin = TCP_SEND_WINDOW_SIZE → TCP_SEND_WINDOW_SIZE < nextseq snd + blen d →
  tcp_send_stream_iteration s w = Undef OutOfBounds.
Proof using.
  clear Hhost. intros [Hs Hsnd Hlk Hlen Hbuf Hwin Hne Hby Hi] H0 Hopen Hsz Hover.
  unfold tcp_send_stream_iteration. run. zif. apply bind_undef.
  run. erewrite bind_done by (eapply copy_out_ok; [lookup_tac|]; rewrite Hlen; by apply (mem_read_app [] d)).
  run. rewrite Z.sub_diag. cbn [Z.ltb Z.compare]. run. zif. run.
  apply bind_undef. eapply copy_in_bad; [lookup_tac|].
  unfold mem_write. rewrite Hsz. zdecide_false (nextseq snd + blen d <=? TCP_SEND_WINDOW_SIZE).
  by rewrite andb_false_r.
Qed.

(** C32: what [tcp_retransmit_timer] does, which a timeout reaches in ESTABLISHED once
    [finished_handshake] is set and while the timeouts are within the limit (before, a
    timeout sends an ACK only: [timeout_without_retransmission] in TimerThread.v).
    The timer starts anew in any case that returns.  With at most 1378 bytes in
    flight, those from [base] to [nextseq] go out again in exactly one segment with
    sequence number [base]; with 1379 to 1400 bytes [sendToLayer3] drops the segment,
    nothing is sent, and the process goes on.  More than [MAX_LEN] bytes in flight, or
    a [base] the peer has moved past [nextseq], end the process with status 0. *)
Theorem retransmit_spec w s sock snd d pre rest r th :
  w_socks w !! s = Some sock → w_snds w !! wnd_send sock = Some snd →
  is_u32 (base snd) → is_u32 (nextseq snd) →
  (base snd + blen d = nextseq snd → blen d <= MAX_LEN →
   w_bufs w !! send_windows snd = Some (pre ++ d ++ rest) → blen pre = base snd →
   Forall is_byte d → timer_active w s sock r th → started r = 1 → w_self w = Some th →
   ∃ w', tcp_retransmit_timer s w = Done tt w' ∧
     w_sent w' = w_sent w ++ (if MAX_LEN <? DEFAULT_HEADER_LEN + blen d then []
                              else [stream_packet sock (base snd) 1 d]) ∧
     w_snds w' = w_snds w ∧ w_bufs w' = w_bufs w ∧
     w_threads w' = <[w_next w := mk_thread (Run_tcp_check_timeout s) false]> (w_threads w)) ∧
  (MAX_LEN < nextseq snd - base snd < 2 ^ 31 → tcp_retransmit_timer s w = Exit 0 w) ∧
  (- 2 ^ 31 <= nextseq snd - base snd < 0 → tcp_retransmit_timer s w = Exit 0 w).
Proof using Hhost.
  intros Hs Hsnd Hb Hn. unfold tcp_retransmit_timer. split; [|split].
  - intros Hd Hmax Hbuf Hpre Hby Ht H1 Hself. pose proof (blen_nonneg d). run.
    replace (i32 (u32 (nextseq snd - base snd))) with (blen d)
      by (rewrite i32_u32, i32_id; unfold is_int, MAX_LEN in *; lia). zif.
    erewrite bind_done by (eapply copy_out_ok; [lookup_tac|by apply mem_read_app]).
    assert (DEFAULT_HEADER_LEN + blen d < 2 ^ 16) as Hlen by (unfold DEFAULT_HEADER_LEN, MAX_LEN in *; lia).
    erewrite bind_done by (apply lift_ok, data_segment_eq; done).
    erewrite bind_done by (by eapply tcp_start_timer_self).
    erewrite sendToLayer3_any.
    2: { rewrite data_segment_length, u16_id; [done|]. unfold is_u16, DEFAULT_HEADER_LEN in *. lia. }
    eexists. split; [reflexivity|]. unfold timer_running, timer_stopped, layer3_takes, stream_packet.
    rewrite data_segment_length. by rsimpl.
  - intros Hm. run. rewrite i32_u32, i32_id by (unfold is_int, MAX_LEN in *; lia).
    unfold MAX_LEN in *. by zif.
  - intros Hm. run. rewrite i32_u32, i32_id by (unfold is_int; lia). by zif.
Qed.

End transfer.

(** ** Instances *)

(** An established connection with nothing received and [d] to send. *)
Definition stream_sock (d : list Z) : tju_tcp_t :=
  sample_sock⟨state := ESTABLISHED⟩⟨sending_len := blen d⟩.
Definition stream_world (d swin : list Z) (snd : sender_window_t) : world :=
  sample_world (stream_sock d) snd sample_rcv (d ++ [0; 0]) [0; 0; 0] swin.

Lemma stream_world_receiving d swin :
  receiving (stream_world d swin sample_snd) 1 (stream_sock d) sample_snd sample_rcv [].
Proof.
  constructor; try reflexivity; [|by apply below_check].
  split; [done|]. by exists [0; 0; 0].
Qed.

Lemma stream_world_sending d swin snd :
  send_windows snd = 9%positive → Forall is_byte d →
  sending (stream_world d swin snd) 1 (stream_sock d) snd d [0; 0] swin.
Proof. intros E Hd. constructor; rewrite ?E; try done. Qed.

Definition piece (seq : Z) (d : list Z) : list Z := data_segment 5678 1234 seq NO_FLAG 100 d.

Lemma piece_carries seq d : blen d < 1000 → Forall is_byte d →
  carries (piece seq d) (data_header 5678 1234 seq NO_FLAG 100 d) d.
Proof.
  intros Hl Hd. unfold piece. apply data_segment_carries; [|done].
  change DEFAULT_HEADER_LEN with 22. lia.
Qed.

Lemma data_segment_refines_witness :
  ∃ w', @tju_handle_packet (env_at Host_server) 1 (piece 0 [7; 8; 9])
          (stream_world [] [] sample_snd) = Done 0 w'.
Proof.
  destruct (@data_segment_refines (env_at Host_server) ltac:(done) (stream_world [] [] sample_snd) 1
    (stream_sock []) sample_snd sample_rcv [] (piece 0 [7; 8; 9])
    (data_header 5678 1234 0 NO_FLAG 100 [7; 8; 9]) [7; 8; 9]) as (w' & sock' & rcv' & E & _);
    [apply stream_world_receiving|by apply piece_carries; [|repeat constructor]|done|done|].
  exists w'. exact E.
Defined.

Lemma piece_of_stream (S d : list Z) seq :
  0 <= seq < 2 ^ 32 → blen d < 1000 → Forall is_byte d → mem_read S seq (blen d) = Some d →
  stream_segment S (piece seq d).
Proof.
  intros Hs Hl Hd Hr. exists (data_header 5678 1234 seq NO_FLAG 100 d), d.
  assert (seq_num (data_header 5678 1234 seq NO_FLAG 100 d) = seq) as Es
    by exact (u32_id _ Hs).
  rewrite Es. split; [by apply piece_carries|]. split; [done|]. split; [lia|done].
Qed.

Lemma received_is_prefix_witness :
  ∃ w', @deliver (env_at Host_server) 1 [piece 2 [3; 4]; piece 0 [1; 2]; piece 0 [1; 2]; piece 2 [3]]
          (stream_world [] [] sample_snd) = Done 0 w'.
Proof.
  destruct (@received_is_prefix (env_at Host_server) ltac:(done) [1; 2; 3; 4; 5]
    [piece 2 [3; 4]; piece 0 [1; 2]; piece 0 [1; 2]; piece 2 [3]] (stream_world [] [] sample_snd) 1
    (stream_sock []) sample_snd sample_rcv 0) as (w' & sock' & snd' & rcv' & n' & E & _);
    [done| |done|done|apply stream_world_receiving|].
  - do 4 (constructor; [apply piece_of_stream; [lia|done|repeat constructor; lia|reflexivity]|]).
    constructor.
  - exists w'. exact E.
Defined.

Lemma send_iteration_spec_witness :
  ∃ g w', @tcp_send_stream_iteration (env_at Host_client) 1
            (stream_world [1; 2; 3] [0; 0; 0; 0] sample_snd) = Wait g w' (fun w2 => Done tt w2) ∧
          w_bufs w' !! 9%positive = Some [1; 2; 3; 0].
Proof.
  destruct (@send_iteration_spec (env_at Host_client) ltac:(done)
    (stream_world [1; 2; 3] [0; 0; 0; 0] sample_snd) 1 (stream_sock [1; 2; 3]) sample_snd [1; 2; 3]
    [0; 0] [0; 0; 0; 0] [1; 2; 3; 0] sample_timer) as (g & w' & E & _ & Hb & _);
    [apply stream_world_sending; [done|by repeat constructor]|done|done|done|reflexivity
    |by constructor|].
  exists g, w'. split; [exact E|]. rewrite Hb. reflexivity.
Defined.

Lemma send_iteration_drops_witness :
  ∃ g w' k, @tcp_send_stream_iteration (env_at Host_client) 1
              (stream_world [1; 2; 3] [] (sample_snd⟨nextseq := 44928⟩)) = Wait g w' k ∧ w_sent w' = [].
Proof.
  destruct (@send_iteration_drops (env_at Host_client)
    (stream_world [1; 2; 3] [] (sample_snd⟨nextseq := 44928⟩)) 1 (stream_sock [1; 2; 3])
    (sample_snd⟨nextseq := 44928⟩) [1; 2; 3] [0; 0] []) as (g & k & E & _);
    [apply stream_world_sending; [done|by repeat constructor]|done|by vm_compute|].
  do 3 eexists. split; [exact E|reflexivity].
Defined.

Lemma send_iteration_overflow_witness :
  let snd := sample_snd⟨base := 175998⟩⟨nextseq := 175998⟩ in
  @tcp_send_stream_iteration (env_at Host_client) 1
    (stream_world [1; 2; 3] (replicate (Z.to_nat TCP_SEND_WINDOW_SIZE) 0) snd) = Undef OutOfBounds.
Proof.
  cbn zeta. apply (@send_iteration_overflow (env_at Host_client)
    (stream_world [1; 2; 3] (replicate (Z.to_nat TCP_SEND_WINDOW_SIZE) 0)
      (sample_snd⟨base := 175998⟩⟨nextseq := 175998⟩)) 1 (stream_sock [1; 2; 3])
    (sample_snd⟨base := 175998⟩⟨nextseq := 175998⟩) [1; 2; 3] [0; 0]
    (replicate (Z.to_nat TCP_SEND_WINDOW_SIZE) 0));
    [apply stream_world_sending; [done|by repeat constructor]|done|by vm_compute
    |by apply blen_replicate|done].
Defined.

(** Three bytes in flight from offset 1, the timer thread 20 running. *)
Definition flight_snd : sender_window_t := sample_snd⟨base := 1⟩⟨nextseq := 4⟩.
Definition flight_world : world :=
  (stream_world [] [9; 1; 2; 3; 0] flight_snd)
    ⟨w_timers := {[6%positive := sample_timer⟨started := 1⟩⟨timer_thread := Some 20%positive⟩]}⟩
    ⟨w_threads := {[20%positive := mk_thread (Run_tcp_check_timeout 1) false]}⟩
    ⟨w_self := Some 20%positive⟩.

Lemma retransmit_spec_witness :
  ∃ w', @tcp_retransmit_timer (env_at Host_client) 1 flight_world = Done tt w' ∧
        w_sent w' = [stream_packet (stream_sock []) 1 1 [1; 2; 3]].
Proof.
  destruct (@retransmit_spec (env_at Host_client) ltac:(done) flight_world 1 (stream_sock []) flight_snd
    [1; 2; 3] [9] [0] (sample_timer⟨started := 1⟩⟨timer_thread := Some 20%positive⟩) 20 eq_refl eq_refl
    ltac:(by vm_compute) ltac:(by vm_compute)) as [Hr _].
  destruct Hr as (w' & E & Hs & _);
    [done|done|reflexivity|done|by repeat constructor|by constructor|done|done|].
  exists w'. exact (conj E Hs).
Defined.
