(* ===== verification/TimerThread.v ===== *)
(** * The timer thread and its callback: src/timer.c *)

From S2P Require Import Prelude Consts CFloat Machine Control Congestion Timer Teardown Transfer Samples.

Section timer_thread.
Context `{Env}.

Definition tcp_outlimit_retransmit (s : loc) : M unit := tcp_close s.

Definition tcp_write_timer_handler (s : loc) : M unit :=
  sock ← load_sock s;
  if state sock =? SYN_SENT then
    tcp_start_timer s;; tcp_send_syn s
  else if state sock =? SYN_RECV then
    tcp_start_timer s;; tcp_send_syn_ack s
  else if state sock =? ESTABLISHED then
    if finished_handshake sock =? 0 then
      modify s (fun sock => sock⟨finished_handshake := 1⟩);;
      tcp_send_ack s
    else if RETRANSMIT_LIMIT <? timeout_counts sock then
      tcp_outlimit_retransmit s
    else
      sock ← lift IntOverflow (handle_loss_ack sock);
      store s sock;;
      modify s (fun sock => sock⟨timeout_counts := u8 (timeout_counts sock + 1)⟩);;
      tcp_retransmit_timer s
  else mret tt.

Definition run_callback (c : callback_t) (s : loc) : M unit :=
  match c with Cb_tcp_write_timer_handler => tcp_write_timer_handler s end.

(** [difftime(time(NULL), cur_time) < timeout]: a [double] against a [float]. *)
Definition before_timeout (now cur_time : Z) (timeout : f32) : bool :=
  SFltb (f64_of_Z (now - cur_time)) (f64_of_f32 timeout).

(** The polling loop; every iteration that does not leave it sleeps one second. *)
Fixpoint check_timeout_loop (fuel : nat) (s : loc) (timeout : f32) (cur_time : Z) : M unit :=
  match fuel with
  | O => out_of_fuel
  | S fuel =>
      now ← time_NULL;
      if before_timeout now cur_time timeout then
        sock ← load_sock s;
        if interrupt_signal sock =? 1 then
          now ← time_NULL;
          r ← load_timer (rtt_timer sock);
          r ← lift IntOverflow (tcp_ack_update_rtt r (f32_of_Z (now - cur_time)) (f32_of_Z 1000));
          store (rtt_timer sock) r
        else sleep 1;; check_timeout_loop fuel s timeout cur_time
      else
        sock ← load_sock s;
        r ← load_timer (rtt_timer sock);
        run_callback (callback r) s
  end.

(** The timeout never exceeds [TCP_RTO_MAX] seconds, so [TCP_RTO_MAX + 1]
    iterations leave the loop. *)
Definition timeout_fuel : nat := Z.to_nat (TCP_RTO_MAX + 1).

Definition tcp_check_timeout (s : loc) : M unit :=
  sock ← load_sock s;
  r ← load_timer (rtt_timer sock);
  let timeout := timeout r in
  cur_time ← time_NULL;
  check_timeout_loop timeout_fuel s timeout cur_time.

(** ** Lemmas *)

Lemma never_oof_sendToLayer3 pkt len : never_oof (sendToLayer3 pkt len).
Proof using. unfold sendToLayer3. oof. Qed.
#[local] Hint Resolve never_oof_sendToLayer3 : oof.

Lemma never_oof_stop_timer s : never_oof (tcp_stop_timer s).
Proof using. unfold tcp_stop_timer. oof. Qed.
#[local] Hint Resolve never_oof_stop_timer : oof.
Lemma never_oof_start_timer s : never_oof (tcp_start_timer s).
Proof using. unfold tcp_start_timer. oof. Qed.
#[local] Hint Resolve never_oof_start_timer : oof.

Lemma never_oof_callback c s : never_oof (run_callback c s).
Proof using.
  destruct c. cbn [run_callback].
  unfold tcp_write_timer_handler, tcp_send_syn, tcp_send_syn_ack, tcp_send_ack,
    tcp_outlimit_retransmit, tcp_close, tcp_send_fin_ack, tcp_retransmit_timer.
  oof.
Qed.

(** The timeouts a timer can hold are whole numbers of seconds up to the bound:
    3 at first, 12 after a measurement. *)
Definition whole_timeout (t : f32) : Prop :=
  ∃ n, 0 <= n <= TCP_RTO_MAX ∧ f64_of_f32 t = f64_of_Z n.

Lemma before_timeout_whole now cur n t :
  0 <= now - cur < clock_bound → 0 <= n <= TCP_RTO_MAX → f64_of_f32 t = f64_of_Z n →
  before_timeout now cur t = (now - cur <? n).
Proof using.
  intros Hd Hn Ht. unfold before_timeout. rewrite Ht.
  apply SFltb_f64_of_Z; unfold clock_bound, TCP_RTO_MAX in *; lia.
Qed.

(** Every iteration but the last lets at least one second pass. *)
Lemma check_timeout_loop_ends fuel s t cur n w :
  0 <= n <= TCP_RTO_MAX → f64_of_f32 t = f64_of_Z n → 0 <= cur <= w_clock w →
  w_clock w < clock_bound → Z.max 0 (n - (w_clock w - cur)) < Z.of_nat fuel →
  no_oof (check_timeout_loop fuel s t cur w).
Proof using.
  intros Hn Ht. revert w. induction fuel as [|fuel IH]; intros w Hc Hb Hf; [lia|].
  cbn [check_timeout_loop]. erewrite bind_done by reflexivity.
  rewrite (before_timeout_whole _ _ n) by (try done; lia).
  destruct (Z.ltb_spec (w_clock w - cur) n).
  - destruct (w_socks w !! s) as [sock|] eqn:Es.
    2: { erewrite bind_undef by (apply load_bad; exact Es). done. }
    run. destruct (interrupt_signal sock =? 1).
    + revert w Hc Hb Hf H0 Es. intros w _ _ _ _ _. generalize w.
      match goal with |- ∀ w, no_oof (?m w) => change (never_oof m) end. oof.
    + erewrite bind_wait by (apply sleep_eq; lia). intros w' [Hle Hlt] Hg. cbn [obind].
      assert (w_clock w + 1 <= w_clock w') by (apply Z.leb_le; congruence).
      apply IH; lia.
  - generalize w. match goal with |- ∀ w, no_oof (?m w) => change (never_oof m) end.
    apply never_oof_bind; [apply never_oof_load|]. intros sock.
    apply never_oof_bind; [apply never_oof_load|]. intros r. apply never_oof_callback.
Qed.

(** ** Properties *)

(** C34: the timer thread ends.  [tcp_check_timeout] polls once a second; from a
    timer whose timeout is a whole number of seconds up to [TCP_RTO_MAX], and
    whatever the other threads do between its polls, it leaves the loop after at
    most [TCP_RTO_MAX + 1] iterations: the fuel of the model is never used up. *)
Theorem tcp_check_timeout_ends s w sock r :
  w_socks w !! s = Some sock → w_timers w !! rtt_timer sock = Some r → whole_timeout (timeout r) →
  0 <= w_clock w < clock_bound → no_oof (tcp_check_timeout s w).
Proof using.
  intros Hs Hr (n & Hn & Ht) Hc. unfold tcp_check_timeout. run.
  apply (check_timeout_loop_ends _ _ _ _ n); try done; try lia.
  unfold timeout_fuel. rewrite Z2Nat.id; lia.
Qed.

(** two timeouts after which nothing is retransmitted.  The first timeout of
    an ESTABLISHED connection whose [finished_handshake] is 0 only sends an ACK
    and sets the flag, although data may be in flight: no segment goes out again
    and no timer is started.  A timeout on the listening socket, whose [state]
    is LISTEN during every handshake, does nothing at all: the SYN|ACK is never
    sent again. *)
Theorem timeout_without_retransmission (Hhost : env_host ≠ Host_other) s w sock rcv :
  w_socks w !! s = Some sock → w_rcvs w !! wnd_recv sock = Some rcv →
  is_int (TCP_RECV_BUFFER_SIZE - received_len sock) →
  (state sock = ESTABLISHED → finished_handshake sock = 0 →
   tcp_write_timer_handler s w =
     Done tt (w⟨w_socks := <[s := sock⟨finished_handshake := 1⟩]> (w_socks w)⟩
       ⟨w_sent := w_sent w ++ [sock_segment sock (expect_seq rcv) (expect_seq rcv) ACK
                                 (TCP_RECV_BUFFER_SIZE - received_len sock)]⟩)) ∧
  (state sock = LISTEN → tcp_write_timer_handler s w = Done tt w).
Proof using.
  intros Hs Hr Hi. unfold tcp_write_timer_handler. split.
  - intros Hst Hf. run. rewrite Hst, Hf. const_tests. run.
    erewrite tcp_send_ack_ok; [|exact Hhost|rsimpl; apply lookup_insert_eq|exact Hr|exact Hi].
    rsimpl. by rewrite <- Hst.
  - intros Hst. run. rewrite Hst. const_tests. done.
Qed.

End timer_thread.

(** ** Instances *)

Lemma tcp_check_timeout_ends_witness :
  no_oof (@tcp_check_timeout (env_at Host_client) 1
            (sample_world sample_sock sample_snd sample_rcv [] [] [])).
Proof.
  apply (@tcp_check_timeout_ends (env_at Host_client) 1
    (sample_world sample_sock sample_snd sample_rcv [] [] []) sample_sock sample_timer);
    [reflexivity|reflexivity| |done].
  exists 3. split; [done|reflexivity].
Defined.

Lemma timeout_without_retransmission_witness :
  let w := sample_world (sample_sock⟨state := LISTEN⟩) sample_snd sample_rcv [] [] [] in
  @tcp_write_timer_handler (env_at Host_server) 1 w = Done tt w.
Proof.
  cbn zeta. apply (@timeout_without_retransmission (env_at Host_server) ltac:(done) 1
    (sample_world (sample_sock⟨state := LISTEN⟩) sample_snd sample_rcv [] [] [])
    (sample_sock⟨state := LISTEN⟩) sample_rcv); [reflexivity|reflexivity|by vm_compute|reflexivity].
Defined.
