(* ===== verification/Kernel.v ===== *)
(** * Packet dispatch: src/kernel.c and src/tcp_manager.c *)

From S2P Require Import Prelude Consts Packet CFloat Machine Control Handshake Teardown Transfer Samples.

(** [inet_network("10.0.0.3")] and [inet_network("10.0.0.2")]. *)
Definition server_ip : Z := 10 * 2 ^ 24 + 3.
Definition client_ip : Z := 10 * 2 ^ 24 + 2.

Section kernel.
Context `{Env}.

(** ** src/tcp_manager.c *)

Definition tcp_manager_init : M unit :=
  let empty := replicate (Z.to_nat MAX_SOCK_SIZE) None in
  set_tcp_manager (mk_manager empty empty empty junk_is_server).

Definition get_listen_sock (index : Z) : M (option loc) :=
  m ← get_tcp_manager; array_get (listen_queue m) index.
Definition get_established_sock (index : Z) : M (option loc) :=
  m ← get_tcp_manager; array_get (established_queue m) index.
Definition get_connect_sock (index : Z) : M (option loc) :=
  m ← get_tcp_manager; array_get (connect_sock m) index.

(** ** Dispatch *)

(** Local and remote address and role, by the host name; another host leaves
    the variables uninitialised. *)
Definition host_addresses : option (Z * Z * bool) :=
  match env_host with
  | Host_server => Some (server_ip, client_ip, true)
  | Host_client => Some (client_ip, server_ip, false)
  | Host_other => None
  end.

(** [p != NULL && (is_fin(pkt) || test(p->state))] *)
Definition closing (p : option loc) (fin : bool) (test : Z → bool) : M bool :=
  match p with
  | None => mret false
  | Some s => if fin then mret true else sock ← load_sock s; mret (test (state sock))
  end.

(** The part of [onTCPPocket] after the checksum test. *)
Definition dispatch (pkt : list Z) (remote_port local_port : Z) : M Z :=
  addrs ← lift Uninitialized host_addresses;
  let '(local_ip, remote_ip, is_server_host) := addrs in
  m ← get_tcp_manager;
  h0 ← lift IntOverflow (cal_hash local_ip local_port 0 0);
  listen_sock ← array_get (listen_queue m) h0;
  h1 ← lift IntOverflow (cal_hash local_ip local_port remote_ip remote_port);
  csock ← array_get (connect_sock m) h1;
  established ← array_get (established_queue m) h1;
  fin ← lift OutOfBounds (is_fin pkt);
  let server := negb (is_server m =? 0) in
  server_close ← (if server then closing established fin (fun st => negb (st =? ESTABLISHED))
                  else mret false);
  if (server_close : bool) then
    e ← lift BadPointer established; tcp_state_close e pkt
  else
    client_close ← (if server then mret false
      else closing csock fin (fun st => negb (st =? ESTABLISHED) && negb (st =? SYN_SENT)));
    if (client_close : bool) then
      c ← lift BadPointer csock; tcp_state_close c pkt
    else
      match server, established with
      | true, Some e => tju_handle_packet e pkt
      | _, _ =>
          direct ← (if server then mret None
            else c ← lift BadPointer csock;
                 sock ← load_sock c;
                 mret (if state sock =? ESTABLISHED then Some c else None));
          match direct with
          | Some c => tju_handle_packet c pkt
          | None =>
              let conn_addr := mk_addr remote_ip remote_port in
              match listen_sock, is_server_host, csock with
              | Some l, true, _ => tcp_rcv_state_server l pkt conn_addr
              | _, false, Some c => tcp_rcv_state_client c pkt conn_addr
              | _, _, _ => mret (-1)
              end
          end
      end.

Definition onTCPPocket (pkt : list Z) : M Z :=
  remote_port ← lift OutOfBounds (get_src pkt);
  local_port ← lift OutOfBounds (get_dst pkt);
  packet ← lift OutOfBounds (buf_to_packet pkt);
  ok ← lift OutOfBounds (tcp_check packet);
  if ok =? 0 then mret (-1) else dispatch pkt remote_port local_port.

(** ** The receive thread

    [dgrams] is the socket's queue of datagrams.  The inner loop fills [plen]
    bytes; a datagram longer than what is missing is cut. *)

Fixpoint recv_loop (dgrams : list (list Z)) (pkt : list Z) (plen : Z)
    : option (list Z * list (list Z)) :=
  if plen <=? blen pkt then Some (pkt, dgrams)
  else
    match dgrams with
    | [] => None
    | d :: dgrams => recv_loop dgrams (pkt ++ take (Z.to_nat (plen - blen pkt)) d) plen
    end.

(** One iteration of the outer loop: it waits when the queue is empty or the
    packet is incomplete, spins when the first datagram is shorter than a
    header (it was only peeked at), and otherwise yields a packet. *)
Inductive recv_result :=
  | Recv_blocked
  | Recv_spin
  | Recv_packet (pkt : list Z) (rest : list (list Z)).

Definition receive_iteration (dgrams : list (list Z)) : recv_result :=
  match dgrams with
  | [] => Recv_blocked
  | d :: _ =>
      let hdr := take (Z.to_nat DEFAULT_HEADER_LEN) d in
      if blen hdr <? DEFAULT_HEADER_LEN then Recv_spin
      else
        match get_plen hdr with
        | None => Recv_spin
        | Some plen =>
            match recv_loop dgrams [] plen with
            | None => Recv_blocked
            | Some (pkt, rest) => Recv_packet pkt rest
            end
        end
  end.

(** [startSimulation]; the arguments say which system calls succeed. *)
Definition startSimulation (socket_ok bind_ok thread_ok : bool) : M unit :=
  tcp_manager_init;;
  if negb socket_ok then exit (-1)
  else if negb bind_ok then exit (-1)
  else if negb thread_ok then exit (-1)
  else pthread_create Run_receive_thread;; mret tt.

(** ** The specification of the dispatch *)

(** Which handler a packet goes to. *)
Inductive route :=
  | To_close (s : loc)
  | To_data (s : loc)
  | To_listen (l : loc)
  | To_connect (c : loc)
  | To_nobody
  | Null_dereference.

(** The role of the host, the entries of the three tables for the packet, the
    states of the connected sockets and the FIN bit decide. *)
Definition opening_route (listen connect : option loc) (server_host : bool) : route :=
  match server_host, listen, connect with
  | true, Some l, _ => To_listen l
  | false, _, Some c => To_connect c
  | _, _, _ => To_nobody
  end.

Definition server_route (listen established connect : option loc) (st : Z)
    (fin server_host : bool) : route :=
  match established with
  | Some e => if fin || negb (st =? ESTABLISHED) then To_close e else To_data e
  | None => opening_route listen connect server_host
  end.

Definition client_route (listen connect : option loc) (st : Z) (fin server_host : bool) : route :=
  match connect with
  | None => Null_dereference
  | Some c =>
      if fin || (negb (st =? ESTABLISHED) && negb (st =? SYN_SENT)) then To_close c
      else if st =? ESTABLISHED then To_data c
      else opening_route listen connect server_host
  end.

Definition run_route (r : route) (pkt : list Z) (conn_addr : tju_sock_addr) : M Z :=
  match r with
  | To_close s => tcp_state_close s pkt
  | To_data s => tju_handle_packet s pkt
  | To_listen l => tcp_rcv_state_server l pkt conn_addr
  | To_connect c => tcp_rcv_state_client c pkt conn_addr
  | To_nobody => mret (-1)
  | Null_dereference => undef BadPointer
  end.

(** The tables of the manager at the two indices of a packet. *)
Record tables (w : world) (h0 h1 : Z) (m : tcp_manager_t) (listen established connect : option loc)
    : Prop := {
  tb_manager : w_manager w = Some m;
  tb_h0 : 0 <= h0;
  tb_h1 : 0 <= h1;
  tb_listen : listen_queue m !! Z.to_nat h0 = Some listen;
  tb_established : established_queue m !! Z.to_nat h1 = Some established;
  tb_connect : connect_sock m !! Z.to_nat h1 = Some connect
}.

(** The state of the socket an entry points to. *)
Definition entry_state (w : world) (p : option loc) (st : Z) : Prop :=
  match p with None => True | Some s => ∃ sock, w_socks w !! s = Some sock ∧ state sock = st end.

(** ** Lemmas *)

Lemma get_tcp_manager_ok w m : w_manager w = Some m → get_tcp_manager w = Done m w.
Proof using. intros E. unfold get_tcp_manager. by rewrite E. Qed.

Lemma closing_ok w p fin test st :
  entry_state w p st →
  closing p fin test w = Done (match p with None => false | Some _ => fin || test st end) w.
Proof using.
  destruct p as [s|]; [|done]. intros (sock & Hs & Hst). unfold closing.
  destruct fin; [done|]. run. by rewrite Hst.
Qed.

Lemma dispatch_start w h0 h1 m listen established connect lip rip sh rport lport pkt fin :
  host_addresses = Some (lip, rip, sh) → cal_hash lip lport 0 0 = Some h0 →
  cal_hash lip lport rip rport = Some h1 → tables w h0 h1 m listen established connect →
  is_fin pkt = Some fin →
  (is_server m ≠ 0 → ∀ st, entry_state w established st →
     dispatch pkt rport lport w =
       run_route (server_route listen established connect st fin sh) pkt (mk_addr rip rport) w) ∧
  (is_server m = 0 → ∀ st, entry_state w connect st →
     dispatch pkt rport lport w =
       run_route (client_route listen connect st fin sh) pkt (mk_addr rip rport) w).
Proof using.
  intros Hhost Hh0 Hh1 [Hm H0 H1 Hl He Hc] Hfin. unfold dispatch. rewrite Hhost.
  erewrite bind_done by reflexivity. cbv beta iota.
  erewrite bind_done by (by apply get_tcp_manager_ok). run.
  split.
  - intros Hsv st Hst. zdecide_false (is_server m =? 0). cbn [negb].
    erewrite bind_done by (by apply closing_ok). cbv beta.
    unfold server_route, opening_route. destruct established as [e|]; cbv iota.
    + destruct (fin || _); cbv iota; run; done.
    + run. by destruct listen, sh, connect.
  - intros Hsv st Hst. rewrite Hsv. cbn [Z.eqb negb]. run.
    erewrite bind_done by (by apply closing_ok). cbv beta.
    unfold client_route, opening_route. destruct connect as [c|]; cbv iota.
    + destruct (fin || _); cbv iota; [run; done|].
      destruct Hst as (sock & Hc' & Hst). erewrite bind_done by (run; apply mret_ok). rewrite Hst.
      by destruct (st =? ESTABLISHED), listen, sh.
    + done.
Qed.


(** On a server: either the dispatch is undefined, or it follows a route. *)
Lemma dispatch_server w m lip rip rport lport pkt :
  host_addresses = Some (lip, rip, true) → w_manager w = Some m → is_server m ≠ 0 →
  (∃ u, dispatch pkt rport lport w = Undef u) ∨
  ∃ listen established st fin,
    (∀ p, listen = Some p → Some p ∈ listen_queue m) ∧
    (∀ p, established = Some p → Some p ∈ established_queue m ∧
       ∃ sock, w_socks w !! p = Some sock ∧ state sock = st) ∧
    dispatch pkt rport lport w =
      run_route (server_route listen established None st fin true) pkt (mk_addr rip rport) w.
Proof using.
  intros Hhost Hm Hsv. unfold dispatch. rewrite Hhost. erewrite bind_done by reflexivity. cbv beta iota.
  erewrite bind_done by (by apply get_tcp_manager_ok). unfold array_get.
  destruct (cal_hash lip lport 0 0) as [h0|]; [|by left; eexists].
  erewrite bind_done by (apply lift_ok; reflexivity).
  destruct (if 0 <=? h0 then _ else _) as [listen|] eqn:El; [|by left; eexists].
  erewrite bind_done by (apply lift_ok; reflexivity).
  destruct (cal_hash lip lport rip rport) as [h1|]; [|by left; eexists].
  erewrite bind_done by (apply lift_ok; reflexivity).
  destruct (if 0 <=? h1 then connect_sock m !! Z.to_nat h1 else None) as [connect|] eqn:Ec; [|by left; eexists].
  erewrite bind_done by (apply lift_ok; reflexivity).
  destruct (if 0 <=? h1 then established_queue m !! Z.to_nat h1 else None) as [established|] eqn:Ee; [|by left; eexists].
  erewrite bind_done by (apply lift_ok; reflexivity).
  destruct (is_fin pkt) as [fin|] eqn:Ef; [|by left; eexists].
  erewrite bind_done by (apply lift_ok; reflexivity).
  zdecide_false (is_server m =? 0). cbn [negb].
  assert (∀ p, listen = Some p → Some p ∈ listen_queue m) as Hl
    by (intros p ->; destruct (0 <=? h0); [by eapply list_elem_of_lookup_2|done]).
  destruct established as [e|].
  2: { right. exists listen, None, 0, fin. split_and!; [done|done|]. erewrite bind_done by reflexivity.
    cbv beta iota. erewrite bind_done by reflexivity. cbv beta iota. erewrite bind_done by reflexivity.
    by destruct listen, connect. }
  destruct (w_socks w !! e) as [sock|] eqn:Es.
  - right. exists listen, (Some e), (state sock), fin. split_and!; [done| |].
    { intros p [= ->]. split; [|by exists sock].
      destruct (0 <=? h1); [by eapply list_elem_of_lookup_2|done]. }
    unfold closing, server_route. destruct fin; cbn [orb]; cbv beta iota; [by run|].
    erewrite bind_done by (run; apply mret_ok). by destruct (state sock =? ESTABLISHED).
  - left. unfold closing. unfold is_fin in Ef. destruct fin.
    + erewrite bind_done by reflexivity. cbv beta iota. erewrite bind_done by reflexivity.
      unfold tcp_state_close. destruct (get_flags pkt); [|done]. erewrite bind_done by (apply lift_ok; reflexivity).
      eexists. by apply bind_undef, load_bad.
    + eexists. apply bind_undef, bind_undef, load_bad. exact Es.
Qed.

Lemma get_u16_range msg off x : get_u16 msg off = Some x → is_u16 x.
Proof using. unfold get_u16, ntohs. intros Hx. opt_inv. apply htons_range. Qed.

Lemma buf_to_packet_fields pkt p :
  buf_to_packet pkt = Some p →
  get_src pkt = Some (source_port (header p)) ∧ get_dst pkt = Some (destination_port (header p)) ∧
  get_flags pkt = Some (flags (header p)).
Proof using. unfold buf_to_packet. intros Hp. opt_inv. done. Qed.

(** What [onTCPPocket] does before the dispatch. *)
Lemma onTCPPocket_start w pkt p ok :
  buf_to_packet pkt = Some p → tcp_check p = Some ok →
  onTCPPocket pkt w =
    if ok =? 0 then Done (-1) w
    else dispatch pkt (source_port (header p)) (destination_port (header p)) w.
Proof using.
  intros Hp Hc. destruct (buf_to_packet_fields _ _ Hp) as (Hs & Hd & _).
  unfold onTCPPocket. run. by destruct (ok =? 0).
Qed.

Lemma recv_loop_length dgrams pkt plen pkt' rest :
  recv_loop dgrams pkt plen = Some (pkt', rest) → blen pkt <= plen → blen pkt' = plen.
Proof using.
  revert pkt. induction dgrams as [|d dgrams IH]; intros pkt; cbn [recv_loop];
    destruct (Z.leb_spec plen (blen pkt)) as [E|E]; intros Hr Hle; try done.
  - injection Hr as <- <-. lia.
  - injection Hr as <- <-. lia.
  - apply (IH _ Hr). rewrite blen_app. unfold blen in *. rewrite length_take. lia.
Qed.

Lemma recv_loop_one d rest plen :
  0 < plen <= blen d → recv_loop (d :: rest) [] plen = Some (take (Z.to_nat plen) d, rest).
Proof using.
  intros Hp. cbn [recv_loop]. change (blen (A:=Z) []) with 0. zif.
  rewrite Z.sub_0_r. cbn [app].
  assert (blen (take (Z.to_nat plen) d) = plen) as Hl by (unfold blen in *; rewrite length_take; lia).
  destruct rest; cbn [recv_loop]; rewrite Hl; by zif.
Qed.

(** A datagram that is one packet. *)
Lemma receive_datagram d rest h dat :
  carries d h dat → blen d = DEFAULT_HEADER_LEN + blen dat → receive_iteration (d :: rest) = Recv_packet d rest.
Proof using.
  intros [[_ _ _ _ _ Hp _ _ _ _] _ Hpl _] Hd. pose proof (blen_nonneg dat) as Hn.
  unfold DEFAULT_HEADER_LEN in *. unfold receive_iteration.
  assert (blen (take (Z.to_nat DEFAULT_HEADER_LEN) d) = 22) as Hh.
  { unfold blen, DEFAULT_HEADER_LEN in *. rewrite length_take. lia. }
  unfold DEFAULT_HEADER_LEN in *. rewrite Hh.
  rewrite <- (take_drop (Z.to_nat 22) d) in Hp at 1. unfold get_plen, get_u16, SIZE16 in Hp |- *.
  rewrite mem_read_prefix in Hp by lia. rewrite Hp, recv_loop_one by lia.
  zif. rewrite Hpl, <- Hd, take_ge; [done|]. unfold blen. lia.
Qed.

(** ** Properties *)

(** a packet whose checksum does not match is dropped: the result is -1, and
    no socket, buffer, timer or queue changes and nothing is sent. *)
Theorem corrupted_packet_dropped w pkt p :
  buf_to_packet pkt = Some p → tcp_check p = Some FALSE → onTCPPocket pkt w = Done (-1) w.
Proof using. intros Hp Hc. by rewrite (onTCPPocket_start _ _ _ _ Hp Hc). Qed.

(** C30: an accepted packet reaches exactly the handler its route names.  On a
    server the established socket of the four addresses comes first, and gets a
    FIN, or any packet once it is closing, through the close handler; then the
    listening socket of the local address.  On a client every packet for which
    no connect socket is registered dereferences the null pointer. *)
Theorem accepted_packet_routed w pkt p m listen established connect lip rip sh :
  let src := source_port (header p) in
  let dst := destination_port (header p) in
  let fin := flags (header p) =? Z.lor ACK FIN in
  host_addresses = Some (lip, rip, sh) → buf_to_packet pkt = Some p → tcp_check p = Some TRUE →
  tables w ((lip + dst) mod MAX_SOCK_SIZE) ((lip + dst + rip + src) mod MAX_SOCK_SIZE)
    m listen established connect →
  (is_server m ≠ 0 → ∀ st, entry_state w established st →
     onTCPPocket pkt w =
       run_route (server_route listen established connect st fin sh) pkt (mk_addr rip src) w) ∧
  (is_server m = 0 → ∀ st, entry_state w connect st →
     onTCPPocket pkt w =
       run_route (client_route listen connect st fin sh) pkt (mk_addr rip src) w).
Proof using.
  intros src dst fin Hhost Hp Hc Ht. rewrite (onTCPPocket_start _ _ _ _ Hp Hc). const_tests.
  destruct (buf_to_packet_fields _ _ Hp) as (Hs & Hd & Hf).
  assert (is_u16 src ∧ is_u16 dst) as [Hs16 Hd16] by (split; by eapply get_u16_range).
  assert (0 <= lip <= server_ip ∧ 0 <= rip <= server_ip) as [Hl Hr]
    by (revert Hhost; unfold host_addresses, server_ip, client_ip; destruct env_host; intros [= <- <- <-]; lia).
  apply (dispatch_start w ((lip + dst) mod MAX_SOCK_SIZE)
    ((lip + dst + rip + src) mod MAX_SOCK_SIZE) m listen established connect lip rip sh); try done.
  - rewrite cal_hash_ok by (unfold server_ip in *; widths; lia). by rewrite !Z.add_0_r.
  - apply cal_hash_ok; unfold server_ip in *; widths; lia.
  - unfold is_fin. rewrite Hf. done.
Qed.

(** the receive thread yields packets of exactly the announced length, one
    per datagram when the datagram holds one packet.  A first datagram shorter
    than a header is never consumed and the thread spins on it; one that
    announces length 0 is not consumed either, and the kernel is handed an empty
    block whose header it reads out of bounds. *)
Theorem receive_iteration_spec d rest :
  (blen d < DEFAULT_HEADER_LEN → receive_iteration (d :: rest) = Recv_spin) ∧
  (∀ plen, DEFAULT_HEADER_LEN <= blen d →
    get_plen (take (Z.to_nat DEFAULT_HEADER_LEN) d) = Some plen →
    (0 < plen <= blen d →
       receive_iteration (d :: rest) = Recv_packet (take (Z.to_nat plen) d) rest) ∧
    (plen = 0 → receive_iteration (d :: rest) = Recv_packet [] (d :: rest) ∧
                ∀ w, onTCPPocket [] w = Undef OutOfBounds) ∧
    (∀ pkt rest', receive_iteration (d :: rest) = Recv_packet pkt rest' → blen pkt = plen)).
Proof using.
  unfold receive_iteration. set (hdr := take (Z.to_nat DEFAULT_HEADER_LEN) d).
  assert (blen hdr = Z.min DEFAULT_HEADER_LEN (blen d)) as Hh.
  { unfold hdr, blen. rewrite length_take. unfold DEFAULT_HEADER_LEN. lia. }
  split; [intros Hd; zdecide_true (blen hdr <? DEFAULT_HEADER_LEN); done|]. intros plen Hd Hp.
  zdecide_false (blen hdr <? DEFAULT_HEADER_LEN). rewrite Hp. split_and!.
  - intros Hpl. by rewrite recv_loop_one.
  - intros ->. split; [done|reflexivity].
  - intros pkt rest'. destruct (recv_loop _ _ _) as [[pkt' r]|] eqn:E; [|done].
    intros [= <- <-]. apply (recv_loop_length _ _ _ _ _ E).
    pose proof (get_u16_range _ _ _ Hp) as [? _]. done.
Qed.

End kernel.
(** ** Instances *)

Definition sample_data : tju_packet_t := built_packet 5678 1234 0 0 22 25 NO_FLAG 100 0 [7; 8; 9].
Definition damaged_data : tju_packet_t := sample_data⟨data := Some [7; 8; 10]⟩.

Lemma corrupted_packet_dropped_witness :
  ∃ pkt, packet_to_buf damaged_data = Some pkt ∧
         @onTCPPocket (env_at Host_server) pkt server_world = Done (-1) server_world.
Proof.
  eexists. split; [vm_compute; reflexivity|].
  apply (@corrupted_packet_dropped (env_at Host_server) server_world _ damaged_data);
    vm_compute; reflexivity.
Defined.

(** A server with one established connection, to the client of [sample_data]. *)
Definition connection_world : world :=
  (stream_world [] [] sample_snd)⟨w_manager := Some (empty_manager⟨is_server := 1⟩
    ⟨established_queue := <[Z.to_nat server_index := Some 1%positive]> (established_queue empty_manager)⟩)⟩.

Lemma accepted_packet_routed_witness :
  @onTCPPocket (env_at Host_server) (piece 0 [7; 8; 9]) connection_world =
  @tju_handle_packet (env_at Host_server) 1 (piece 0 [7; 8; 9]) connection_world.
Proof.
  apply (@accepted_packet_routed (env_at Host_server) connection_world (piece 0 [7; 8; 9]) sample_data
    (empty_manager⟨is_server := 1⟩
      ⟨established_queue := <[Z.to_nat server_index := Some 1%positive]> (established_queue empty_manager)⟩)
    None (Some 1%positive) None server_ip client_ip true) with (st := ESTABLISHED);
    [reflexivity|vm_compute; reflexivity|vm_compute; reflexivity| |done|].
  - constructor; first [done|vm_compute; reflexivity].
  - exists (stream_sock []). done.
Defined.

Lemma receive_iteration_spec_witness :
  receive_iteration [piece 0 [7; 8; 9]; piece 3 [1]] = Recv_packet (piece 0 [7; 8; 9]) [piece 3 [1]].
Proof.
  exact (proj1 (proj2 (@receive_iteration_spec (env_at Host_server) (piece 0 [7; 8; 9]) [piece 3 [1]])
    25 ltac:(done) ltac:(vm_compute; reflexivity)) ltac:(done)).
Defined.
