(* ===== verification/Api.v ===== *)
(** * The socket interface: src/api.c *)

From S2P Require Import Prelude Consts CFloat Packet Machine SockQueue Control Congestion Timer Kernel.
From S2P Require Import Handshake Transfer Samples.

Section api.
Context `{Env}.

Definition tcp_socket : M loc :=
  s ← alloc junk_sock;
  modify s (fun sock => sock⟨state := CLOSED⟩);;
  modify s (fun sock => sock⟨send_lock := false⟩);;
  sb ← malloc TCP_SEND_BUFFER_SIZE;
  modify s (fun sock => sock⟨sending_buf := sb⟩);;
  modify s (fun sock => sock⟨sending_len := 0⟩);;
  modify s (fun sock => sock⟨sending_capacity := TCP_SEND_BUFFER_SIZE⟩);;
  modify s (fun sock => sock⟨recv_lock := false⟩);;
  rb ← malloc TCP_RECV_BUFFER_SIZE;
  modify s (fun sock => sock⟨received_buf := Some rb⟩);;
  modify s (fun sock => sock⟨received_len := 0⟩);;
  modify s (fun sock => sock⟨received_capacity := TCP_RECV_BUFFER_SIZE⟩);;
  wr ← alloc junk_rcv;
  modify s (fun sock => sock⟨wnd_recv := wr⟩);;
  ws ← alloc junk_snd;
  modify s (fun sock => sock⟨wnd_send := ws⟩);;
  swin ← malloc TCP_SEND_WINDOW_SIZE;
  modify ws (fun r => r⟨send_windows := swin⟩);;
  rwin ← malloc TCP_RECV_WINDOW_SIZE;
  modify wr (fun r => r⟨receiver_window := rwin⟩);;
  modify ws (fun r => r⟨window_size := u16 TCP_SEND_WINDOW_SIZE⟩);;
  modify ws (fun r => r⟨rwnd := u16 (1 * SMSS)⟩);;
  tcp_init_timer s Cb_tcp_write_timer_handler;;
  modify s (fun sock => sock⟨signal_lock := false⟩);;
  modify s (fun sock => sock⟨interrupt_signal := 0⟩);;
  sq ← sockqueue_init;
  modify s (fun sock => sock⟨syn_queue := sq⟩);;
  aq ← sockqueue_init;
  modify s (fun sock => sock⟨accept_queue := aq⟩);;
  modify s (fun sock => sock⟨ssthresh := IW⟩);;
  modify s (fun sock => sock⟨cwnd := SMSS⟩);;
  modify s (fun sock => sock⟨con_status := SLOW_START⟩);;
  modify s (fun sock => sock⟨listen_state := replicate (Z.to_nat MAX_SOCK_SIZE) CLOSED⟩);;
  mret s.

Definition tcp_bind (s : loc) (addr : tju_sock_addr) : M Z :=
  modify s (fun sock => sock⟨bind_addr := addr⟩);;
  mret 0.

Definition tcp_listen (s : loc) : M Z :=
  modify s (fun sock => sock⟨state := LISTEN⟩);;
  sock ← load_sock s;
  hashval ← lift IntOverflow (cal_hash (ip (bind_addr sock)) (port (bind_addr sock)) 0 0);
  m ← get_tcp_manager;
  lq ← array_set (listen_queue m) hashval (Some s);
  modify s (fun sock => sock⟨listen_state := replicate (Z.to_nat MAX_SOCK_SIZE) LISTEN⟩);;
  set_tcp_manager (m⟨listen_queue := lq⟩⟨is_server := 1⟩);;
  mret 0.

(** The part of [tcp_accept] after the wait for a connection.  Another thread may run
    between any two of its statements: the connection is in the table of the
    established ones before its sequence numbers are set. *)
Definition accept_connection (listen_sock conn_sock : loc) : M Z :=
  sock ← alloc junk_sock;
  l ← load_sock listen_sock;
  status ← sockqueue_pop (accept_queue l) sock;
  preempt;;
  if status <? 0 then mret (-1)
  else
    l ← load_sock listen_sock;
    c ← load_sock sock;
    let local_addr := mk_addr (ip (bind_addr l)) (port (bind_addr l)) in
    let remote_addr := mk_addr (ip (bind_addr c)) (port (bind_addr c)) in
    modify conn_sock (fun x => x⟨established_local_addr := local_addr⟩);;
    preempt;;
    modify conn_sock (fun x => x⟨established_remote_addr := remote_addr⟩);;
    preempt;;
    modify conn_sock (fun x => x⟨state := ESTABLISHED⟩);;
    preempt;;
    hashval ← lift IntOverflow (cal_hash (ip local_addr) (port local_addr)
                                  (ip remote_addr) (port remote_addr));
    m ← get_tcp_manager;
    eq ← array_set (established_queue m) hashval (Some conn_sock);
    set_tcp_manager (m⟨established_queue := eq⟩);;
    preempt;;
    x ← load_sock conn_sock;
    modify (wnd_recv x) (fun r => r⟨expect_seq := 0⟩);;
    preempt;;
    x ← load_sock conn_sock;
    modify (wnd_send x) (fun r => r⟨base := 0⟩);;
    preempt;;
    x ← load_sock conn_sock;
    modify (wnd_send x) (fun r => r⟨nextseq := 0⟩);;
    preempt;;
    th ← pthread_create (Run_tcp_send_stream conn_sock);
    modify conn_sock (fun x => x⟨send_thread := Some th⟩);;
    mret 0.

Definition tcp_accept (listen_sock conn_sock : loc) : M Z :=
  copy_sock conn_sock listen_sock;;
  await (fun w => l ← w_socks w !! listen_sock;
                  q ← w_queues w !! accept_queue l;
                  Some (negb (q_size q =? 0)));;
  accept_connection listen_sock conn_sock.

(** The part of [tcp_connect] after the handshake.  Another thread may run between
    any two of its statements: the sequence numbers are set last. *)
Definition finish_connect (s : loc) (local_addr : tju_sock_addr) : M Z :=
  th ← pthread_create (Run_tcp_send_stream s);
  modify s (fun sock => sock⟨send_thread := Some th⟩);;
  preempt;;
  sock ← load_sock s;
  hashval ← lift IntOverflow (cal_hash (ip local_addr) (port local_addr)
    (ip (established_remote_addr sock)) (port (established_remote_addr sock)));
  m ← get_tcp_manager;
  cs ← array_set (connect_sock m) hashval (Some s);
  set_tcp_manager (m⟨connect_sock := cs⟩);;
  preempt;;
  sock ← load_sock s;
  modify (wnd_recv sock) (fun r => r⟨expect_seq := 0⟩);;
  preempt;;
  sock ← load_sock s;
  modify (wnd_send sock) (fun r => r⟨base := 0⟩);;
  preempt;;
  sock ← load_sock s;
  modify (wnd_send sock) (fun r => r⟨nextseq := 0⟩);;
  mret 0.

(** From the entry of the socket in the table on, other threads may run between
    the statements. *)
Definition tcp_connect (s : loc) (target_addr : tju_sock_addr) : M Z :=
  modify s (fun sock => sock⟨established_remote_addr := target_addr⟩);;
  let local_addr := mk_addr client_ip 5678 in
  modify s (fun sock => sock⟨established_local_addr := local_addr⟩);;
  modify s (fun sock => sock⟨bind_addr := target_addr⟩);;
  modify s (fun sock => sock⟨finished_handshake := 0⟩);;
  modify s (fun sock => sock⟨state := SYN_SENT⟩);;
  m ← get_tcp_manager;
  hashval ← lift IntOverflow (cal_hash (ip local_addr) (port local_addr)
                                (ip target_addr) (port target_addr));
  cs ← array_set (connect_sock m) hashval (Some s);
  set_tcp_manager (m⟨is_server := 0⟩⟨connect_sock := cs⟩);;
  preempt;;
  sock ← load_sock s;
  diff ← lift IntOverflow (int_result (TCP_RECV_BUFFER_SIZE - received_len sock));
  let adv_wnd := u16 diff in
  send_pkt ← lift OutOfBounds (create_packet_buf (port local_addr) (port target_addr) 0 0
    HEADER_LEN HEADER_LEN SYN adv_wnd 0 [] 0);
  preempt;;
  tcp_start_timer s;;
  preempt;;
  sendToLayer3 send_pkt HEADER_LEN;;
  preempt;;
  await (fun w => sock ← w_socks w !! s; Some (state sock =? ESTABLISHED));;
  preempt;;
  finish_connect s local_addr.

(** On a full buffer the function returns with [send_lock] held. *)
Definition tcp_send (s : loc) (buffer : list Z) (len : Z) : M Z :=
  data ← lift OutOfBounds (mem_read buffer 0 len);
  pthread_mutex_lock s send_lock;;
  sock ← load_sock s;
  total ← lift IntOverflow (int_result (sending_len sock + len));
  if total <=? sending_capacity sock then
    copy_in (sending_buf sock) (sending_len sock) data;;
    modify s (fun sock => sock⟨sending_len := total⟩);;
    pthread_mutex_unlock s send_lock;;
    mret 0
  else mret (-1).

(** The return value, and the bytes stored in the caller's buffer. *)
Definition tcp_recv (s : loc) (len : Z) : M (Z * list Z) :=
  await (fun w => sock ← w_socks w !! s; Some (0 <? received_len sock));;
  pthread_mutex_lock s recv_lock;;
  sock ← load_sock s;
  let read_len := if len <=? received_len sock then len else received_len sock in
  b ← lift BadPointer (received_buf sock);
  out ← copy_out b 0 read_len;
  (if read_len <? received_len sock then
     copy_within b 0 read_len (received_len sock - read_len);;
     modify s (fun sock => sock⟨received_len := received_len sock - read_len⟩)
   else modify s (fun sock => sock⟨received_len := 0⟩));;
  pthread_mutex_unlock s recv_lock;;
  mret (0, out).

(** ** Lemmas *)

(** The sending buffer holds [pending], not yet taken by the send thread. *)
Record pending_data (w : world) (s : loc) (sock : tju_tcp_t) (pending rest : list Z) : Prop := {
  pd_sock : w_socks w !! s = Some sock;
  pd_lock : send_lock sock = false;
  pd_len : sending_len sock = blen pending;
  pd_buf : w_bufs w !! sending_buf sock = Some (pending ++ rest);
  pd_cap : sending_capacity sock = blen (pending ++ rest)
}.

(** ** Properties *)

(** C14: [tcp_send] appends the caller's bytes behind those that wait to be sent
    when they fit in the buffer, and leaves the lock free.  When they do not fit
    it returns -1 and still holds [send_lock]: every later call blocks until
    another thread releases a lock it does not own. *)
Theorem tcp_send_spec w s sock pending rest buffer data :
  pending_data w s sock pending rest → mem_read buffer 0 (blen data) = Some data →
  blen pending + blen data < 2 ^ 31 →
  (blen data <= blen rest →
     ∃ w' sock' rest', tcp_send s buffer (blen data) w = Done 0 w' ∧
       pending_data w' s sock' (pending ++ data) rest') ∧
  (blen rest < blen data →
     ∃ w', tcp_send s buffer (blen data) w = Done (-1) w' ∧
       w_socks w' !! s = Some (sock⟨send_lock := true⟩) ∧ w_bufs w' = w_bufs w ∧
       ∀ buffer' data', mem_read buffer' 0 (blen data') = Some data' →
         ∃ g k, tcp_send s buffer' (blen data') w' = Wait g w' k ∧
           ∀ w2 sock2, w_socks w2 !! s = Some sock2 → g w2 = Some (negb (send_lock sock2))).
Proof using.
  intros [Hs Hlk Hlen Hbuf Hcap] Hd Hmax.
  pose proof (blen_nonneg pending). pose proof (blen_nonneg data).
  rewrite blen_app in Hcap. unfold tcp_send. rewrite Hd.
  assert (is_int (sending_len sock + blen data)) as Hi by (rewrite Hlen; unfold is_int; lia).
  split; intros Hfit.
  - assert (mem_write (pending ++ rest) (sending_len sock) data =
      Some (pending ++ data ++ drop (length data) rest)) as Hw.
    { rewrite Hlen, <- (take_drop (length data) rest) at 1. apply mem_write_app; [done|].
      unfold blen in *. rewrite length_take. lia. }
    eexists. exists (sock⟨send_lock := false⟩⟨sending_len := sending_len sock + blen data⟩),
      (drop (length data) rest). split.
    + run. zif. run. erewrite bind_done by (eapply copy_in_ok; [lookup_tac|exact Hw]).
      run. reflexivity.
    + constructor; rsimpl; rewrite ?lookup_insert_eq; try done.
      * by rewrite Hlen, blen_app.
      * by rewrite <- app_assoc.
      * rewrite Hcap, !blen_app. unfold blen in *. rewrite length_drop. lia.
  - eexists. split; [run; zif; by run|]. rsimpl. rewrite lookup_insert_eq.
    split; [done|]. split; [done|]. intros buffer' data' Hd'. rewrite Hd'. run.
    match goal with |- context [(pthread_mutex_lock s send_lock ≫= _) ?w1] =>
      destruct (lock_wait s send_lock w1 (sock⟨send_lock := true⟩)) as (g & k & E & Hg) end;
      [rsimpl; apply lookup_insert_eq|done|].
    erewrite bind_wait by exact E. do 2 eexists. split; [reflexivity|].
    intros w2 sock2 Hs2. by apply Hg.
Qed.

(** Reading the first [r] bytes, when something is left over or not. *)
Lemma recv_rest_write (bs rest : list Z) r :
  0 <= r <= blen bs →
  mem_read (bs ++ rest) 0 r = Some (take (Z.to_nat r) bs) ∧
  mem_read (bs ++ rest) r (blen bs - r) = Some (drop (Z.to_nat r) bs) ∧
  ∃ rest', mem_write (bs ++ rest) 0 (drop (Z.to_nat r) bs) = Some (drop (Z.to_nat r) bs ++ rest').
Proof using.
  intros Hr. pose proof (blen_nonneg rest). split_and!.
  - rewrite mem_read_prefix by lia. apply mem_read_Some. split_and!; [lia..|]. by rewrite drop_0.
  - rewrite mem_read_prefix by lia. apply mem_read_Some. split_and!; try lia.
    rewrite take_ge; [done|]. unfold blen in *. rewrite length_drop. lia.
  - eexists. apply mem_write_Some. split_and!; [lia| |by rewrite take_0].
    rewrite blen_app. unfold blen in *. rewrite length_drop. lia.
Qed.

Lemma tcp_recv_ok w s sock bs len :
  w_socks w !! s = Some sock → recv_lock sock = false → recv_rep w sock bs → bs ≠ [] →
  blen bs < 2 ^ 31 → 0 <= len →
  (blen bs - len <= len →
     ∃ bufs', let rest := drop (Z.to_nat len) bs in
       let sock' := sock⟨recv_lock := false⟩⟨received_len := blen rest⟩ in
       let w' := w⟨w_socks := <[s := sock']> (w_socks w)⟩⟨w_bufs := bufs'⟩ in
       tcp_recv s len w = Done (0, take (Z.to_nat len) bs) w' ∧ recv_rep w' sock' rest ∧
       ∀ p, below p (w_bufs w) → below p bufs') ∧
  (len < blen bs - len → tcp_recv s len w = Undef OverlappingCopy).
Proof using.
  intros Hs Hlk [Hlen Hbuf] Hne Hmax Hl.
  assert (0 < blen bs) as H0
    by (destruct bs; [done|]; rewrite blen_cons; pose proof (blen_nonneg bs); lia).
  destruct (received_buf sock) as [b|] eqn:Eb; [|done]. destruct Hbuf as [rest Hbuf].
  unfold tcp_recv.
  erewrite bind_done by (apply await_ok; rewrite Hs; cbn; rewrite Hlen; f_equal; apply Z.ltb_lt; lia).
  run. rewrite Hlen.
  assert (∀ l, blen l = 0 → recv_rep (w⟨w_socks := <[s := sock⟨recv_lock := false⟩
    ⟨received_len := blen l⟩]> (w_socks w)⟩⟨w_bufs := w_bufs w⟩)
    (sock⟨recv_lock := false⟩⟨received_len := blen l⟩) l) as Hempty.
  { intros l ->%blen_zero. split; rsimpl; [done|]. rewrite Eb. by exists (bs ++ rest). }
  destruct (Z.leb_spec len (blen bs)) as [Hle|Hgt].
  - destruct (recv_rest_write bs rest len) as (Hr1 & Hr2 & rest' & Hw); [lia|].
    assert (blen (drop (Z.to_nat len) bs) = blen bs - len) as Hdl
      by (unfold blen in *; rewrite length_drop; lia).
    erewrite bind_done by (eapply copy_out_ok; [lookup_tac|exact Hr1]).
    destruct (Z.ltb_spec len (blen bs)) as [Hlt|Hge]; split; intros Hcut; try lia.
    + exists (<[b := drop (Z.to_nat len) bs ++ rest']> (w_bufs w)). rewrite Hdl. split.
      { erewrite bind_done by (erewrite bind_done by (eapply copy_within_ok;
          [lookup_tac|exact Hr2|lia|exact Hw]); rsimpl; eapply modify_ok; lookup_tac).
        rsimpl. rewrite ?insert_insert_eq. run. world_eq. }
      split; [split; rsimpl; [by rewrite Hdl|]|].
      * rewrite Eb. exists rest'. by rewrite lookup_insert_eq.
      * intros p Hp q [x Hq]. apply lookup_insert_Some in Hq as [[<- _]|[_ Hq]]; apply Hp; eauto.
    + erewrite bind_undef; [done|]. erewrite bind_undef; [done|].
      eapply copy_within_overlap; [lookup_tac|exact Hr2|lia|lia].
    + assert (len = blen bs) as -> by lia. exists (w_bufs w). rewrite Z.sub_diag in Hdl.
      split; [run; rewrite Hdl; world_eq|]. split; [|done]. by apply Hempty.
  - destruct (recv_rest_write bs rest (blen bs)) as (Hr1 & _); [lia|].
    erewrite bind_done by (eapply copy_out_ok; [lookup_tac|exact Hr1]).
    rewrite Z.ltb_irrefl. split; intros Hcut; [|lia]. exists (w_bufs w).
    rewrite !take_ge, drop_ge by (unfold blen in *; lia).
    split; [run; world_eq|]. split; [|done]. by apply Hempty.
Qed.

(** C15: [tcp_recv] on a connection that holds [bs].  It stores a prefix of
    [bs], of at most [len] bytes, in the caller's buffer and keeps the rest; its
    result is 0 whatever the number of bytes.  When more than [len] bytes are
    left over, moving them to the front of the buffer is a [memcpy] between
    overlapping regions, which is undefined. *)
Theorem tcp_recv_spec w s sock snd rcv bs len :
  receiving w s sock snd rcv bs → bs ≠ [] → blen bs < 2 ^ 31 → 0 <= len →
  (blen bs - len <= len →
     ∃ w' sock', tcp_recv s len w = Done (0, take (Z.to_nat len) bs) w' ∧
       receiving w' s sock' snd rcv (drop (Z.to_nat len) bs)) ∧
  (len < blen bs - len → tcp_recv s len w = Undef OverlappingCopy).
Proof using.
  intros [Hs Hsnd Hrcv Hlk Hrep Hb] Hne Hmax Hl.
  destruct (tcp_recv_ok w s sock bs len Hs Hlk Hrep Hne Hmax Hl) as [Hok Hbad]. split; [|exact Hbad].
  intros Hcut. destruct (Hok Hcut) as (bufs' & E & Hrep' & Hb'). do 2 eexists. split; [exact E|].
  constructor; rsimpl; rewrite ?lookup_insert_eq; try done. by apply Hb'.
Qed.

(** Every heap is below the allocation pointer. *)
Record world_ok (w : world) : Prop := {
  wk_socks : below (w_next w) (w_socks w);
  wk_snds : below (w_next w) (w_snds w);
  wk_rcvs : below (w_next w) (w_rcvs w);
  wk_timers : below (w_next w) (w_timers w);
  wk_queues : below (w_next w) (w_queues w);
  wk_bufs : below (w_next w) (w_bufs w)
}.

(** What [tcp_socket] changes: a socket, its parts, and nothing else. *)
Record new_socket (w w' : world) (s : loc) (sock : tju_tcp_t) (snd : sender_window_t)
    (rcv : receiver_window_t) (r : rtt_timer_t) (b : loc) : Prop := {
  ns_socks : w_socks w' = <[s := sock]> (w_socks w);
  ns_snd : w_snds w' !! wnd_send sock = Some snd;
  ns_rcv : w_rcvs w' !! wnd_recv sock = Some rcv;
  ns_timer : w_timers w' !! rtt_timer sock = Some r;
  ns_recvbuf : received_buf sock = Some b;
  ns_recvblock : ∃ rest, w_bufs w' !! b = Some rest;
  ns_sendblock : ∃ rest, w_bufs w' !! sending_buf sock = Some rest ∧ blen rest = TCP_SEND_BUFFER_SIZE;
  ns_window : ∃ swin, w_bufs w' !! send_windows snd = Some swin ∧ blen swin = TCP_SEND_WINDOW_SIZE;
  ns_queues : w_queues w' !! syn_queue sock = Some (mk_sockqueue 0 None) ∧
              w_queues w' !! accept_queue sock = Some (mk_sockqueue 0 None) ∧
              syn_queue sock ≠ accept_queue sock;
  ns_distinct : (b < sending_buf sock ∨ sending_buf sock < b)%positive ∧ b ≠ send_windows snd ∧
                sending_buf sock ≠ send_windows snd;
  ns_fresh : (s < w_next w' ∧ b < w_next w' ∧ sending_buf sock < w_next w' ∧
              send_windows snd < w_next w')%positive;
  ns_state : state sock = CLOSED ∧ sending_len sock = 0 ∧ sending_capacity sock = TCP_SEND_BUFFER_SIZE ∧
             received_len sock = 0 ∧ received_capacity sock = TCP_RECV_BUFFER_SIZE ∧
             timeout_counts sock = timeout_counts (junk_sock s) ∧
             finished_handshake sock = finished_handshake (junk_sock s);
  ns_locks : send_lock sock = false ∧ recv_lock sock = false ∧ signal_lock sock = false ∧
             timer_lock r = false ∧ started r = 0;
  ns_rtt : estimated_rtt r = f32_of_Z 3 ∧ dev_rtt r = f32_of_Z 3 ∧ timeout r = f32_of_Z 3;
  ns_cc : cc_fields sock = (SLOW_START, SMSS, IW);
  ns_listen : listen_state sock = replicate (Z.to_nat MAX_SOCK_SIZE) CLOSED;
  ns_nextseq : nextseq snd = nextseq (junk_snd (wnd_send sock)) ∧
               base snd = base (junk_snd (wnd_send sock));
  ns_size : window_size snd = TCP_SEND_WINDOW_SIZE - 2 ^ 17;
  ns_expect : expect_seq rcv = expect_seq (junk_rcv (wnd_recv sock));
  ns_ok : world_ok w → world_ok w';
  ns_frame : w_nodes w' = w_nodes w ∧ w_threads w' = w_threads w ∧ w_manager w' = w_manager w ∧
             w_self w' = w_self w ∧ w_clock w' = w_clock w ∧ w_sent w' = w_sent w ∧
             w_next w' = (w_next w + 10)%positive
}.

Lemma tcp_socket_ok w :
  ∃ w' sock snd rcv r b, tcp_socket w = Done (w_next w) w' ∧ new_socket w w' (w_next w) sock snd rcv r b.
Proof using.
  unfold tcp_socket, sockqueue_init. run.
  erewrite bind_done by (unfold tcp_init_timer; erewrite bind_done by (unfold tcp_init_rtt; run; prim);
    rsimpl; rewrite ?insert_insert_eq; run; prim).
  rsimpl. rewrite ?insert_insert_eq. run.
  do 6 eexists. split; [reflexivity|].
  constructor; rsimpl; [reflexivity|lookup_tac|lookup_tac|lookup_tac|..]; rsimpl; try reflexivity;
    try solve [split_and!; first [reflexivity|lia|lookup_tac]];
    try solve [eexists; lookup_tac].
  - eexists. split; [lookup_tac|by apply blen_junk_block].
  - eexists. split; [lookup_tac|by apply blen_junk_block].
  - intros [H1 H2 H3 H4 H5 H6].
    constructor; rsimpl; repeat (apply below_insert; [lia|]); (eapply below_le; [|eassumption]); lia.
Qed.

(** C38: what [tcp_socket] returns: a new closed socket.  It holds no data in either
    direction, its locks are free, its timer is stopped with estimate, deviation and
    timeout of 3 seconds, its two queues are distinct and empty, and congestion
    control is in its initial state.  The window buffer has [TCP_SEND_WINDOW_SIZE] =
    176000 bytes but [window_size], 16 bits wide, is that minus 2^17.  What
    [tcp_socket] does not set is what [malloc] returned: [base] and [nextseq] of the
    sending window, the expected sequence number, the timeout counter and
    [finished_handshake].  A connection has to set them before it sends or
    receives. *)
Theorem tcp_socket_spec w :
  world_ok w →
  let s := w_next w in
  ∃ w' sock snd rcv r, tcp_socket w = Done s w' ∧ w_socks w !! s = None ∧
    receiving w' s sock snd rcv [] ∧ timer_idle w' s sock r ∧ state sock = CLOSED ∧
    (∃ rest, pending_data w' s sock [] rest ∧ blen rest = TCP_SEND_BUFFER_SIZE) ∧
    (∃ swin, w_bufs w' !! send_windows snd = Some swin ∧ blen swin = TCP_SEND_WINDOW_SIZE) ∧
    window_size snd = TCP_SEND_WINDOW_SIZE - 2 ^ 17 ∧
    estimated_rtt r = f32_of_Z 3 ∧ dev_rtt r = f32_of_Z 3 ∧ timeout r = f32_of_Z 3 ∧
    queue_rep w' (syn_queue sock) [] ∧ queue_rep w' (accept_queue sock) [] ∧
    syn_queue sock ≠ accept_queue sock ∧
    cc_fields sock = (SLOW_START, SMSS, IW) ∧
    listen_state sock = replicate (Z.to_nat MAX_SOCK_SIZE) CLOSED ∧
    timeout_counts sock = timeout_counts (junk_sock s) ∧
    finished_handshake sock = finished_handshake (junk_sock s) ∧
    base snd = base (junk_snd (wnd_send sock)) ∧ nextseq snd = nextseq (junk_snd (wnd_send sock)) ∧
    expect_seq rcv = expect_seq (junk_rcv (wnd_recv sock)).
Proof using.
  intros Hw s. destruct (tcp_socket_ok w) as (w' & sock & snd & rcv & r & b & E & N).
  exists w', sock, snd, rcv, r. split; [exact E|]. split; [by apply below_fresh, wk_socks|].
  assert (w_socks w' !! s = Some sock) as Hs by (rewrite (ns_socks _ _ _ _ _ _ _ _ N); apply lookup_insert_eq).
  destruct N as [_ Hsnd Hrcv Ht Hb [rest Hrb] (srest & Hsr & Hsl) Hwin (Hq1 & Hq2 & Hq) _ _
    (Hst & Hsz & Hcap & Hrl & _ & Hto & Hfin) (Hl1 & Hl2 & Hl3 & Hl4 & Hl5) (Hr1 & Hr2 & Hr3) Hcc Hls (Hns & Hba)
    Hws He Hok _].
  split_and!; try done; try (by apply empty_queue_rep).
  - constructor; try done; [|by apply Hok]. split; [done|]. rewrite Hb. by exists rest.
  - exists srest. split; [|done]. constructor; cbn [app]; try done. congruence.
Qed.

Lemma tcp_bind_ok w s sock addr :
  w_socks w !! s = Some sock →
  tcp_bind s addr w = Done 0 (w⟨w_socks := <[s := sock⟨bind_addr := addr⟩]> (w_socks w)⟩).
Proof using. intros Hs. unfold tcp_bind. by run. Qed.

(** [tcp_listen] enters the socket in the table and resets the table of states. *)
Lemma tcp_listen_ok w s sock m h :
  w_socks w !! s = Some sock → w_manager w = Some m → 0 <= h < blen (listen_queue m) →
  cal_hash (ip (bind_addr sock)) (port (bind_addr sock)) 0 0 = Some h →
  tcp_listen s w = Done 0
    (w⟨w_manager := Some (m⟨listen_queue := <[Z.to_nat h := Some s]> (listen_queue m)⟩⟨is_server := 1⟩)⟩
      ⟨w_socks := <[s := sock⟨state := LISTEN⟩⟨listen_state := replicate (Z.to_nat MAX_SOCK_SIZE) LISTEN⟩]>
                    (w_socks w)⟩).
Proof using.
  intros Hs Hm Hh Eh. unfold tcp_listen. run.
  erewrite bind_done by (apply get_tcp_manager_ok; exact Hm).
  erewrite bind_done by (by apply array_set_ok). run. by rewrite ?insert_insert_eq.
Qed.

(** What [accept_connection] does in the world [w], uninterrupted: the oldest
    connection [c] of the accept queue goes into the socket [conn]. *)
Lemma accept_connection_ok w ls conn l cs n c la x snd rcv m h :
  w_socks w !! ls = Some l → w_socks w !! conn = Some cs → below (w_next w) (w_socks w) →
  queue_rep w (accept_queue l) ((n, c) :: la) → w_socks w !! c = Some x → c ≠ conn → conn ≠ ls →
  w_snds w !! wnd_send cs = Some snd → w_rcvs w !! wnd_recv cs = Some rcv →
  w_manager w = Some m → blen (established_queue m) = MAX_SOCK_SIZE →
  cal_hash (ip (bind_addr l)) (port (bind_addr l)) (ip (bind_addr x)) (port (bind_addr x)) = Some h →
  0 <= h < MAX_SOCK_SIZE →
  ∃ w' th, alone (accept_connection ls conn w) = Done 0 w' ∧
    w_socks w' !! conn = Some (cs⟨established_local_addr := bind_addr l⟩
      ⟨established_remote_addr := bind_addr x⟩⟨state := ESTABLISHED⟩⟨send_thread := Some th⟩) ∧
    w_threads w' !! th = Some (mk_thread (Run_tcp_send_stream conn) false) ∧
    w_manager w' = Some (m⟨established_queue := <[Z.to_nat h := Some conn]> (established_queue m)⟩) ∧
    queue_rep w' (accept_queue l) la ∧
    w_rcvs w' !! wnd_recv cs = Some (rcv⟨expect_seq := 0⟩) ∧
    w_snds w' !! wnd_send cs = Some (snd⟨base := 0⟩⟨nextseq := 0⟩).
Proof using.
  intros Hl Hc Hb Hq Hx Hcc Hne Hsnd Hrcv Hm Hlen Hh Hhr.
  pose proof (below_ne _ _ _ _ Hb Hl) as Hln. pose proof (below_ne _ _ _ _ Hb Hc) as Hcn.
  pose proof (below_ne _ _ _ _ Hb Hx) as Hxn.
  unfold accept_connection. run.
  match goal with |- context [(sockqueue_pop ?q ?d ≫= _) ?w1] =>
    destruct (sockqueue_pop_ok w1 q d n c la x (junk_sock (w_next w))) as (q' & Epop & Hq') end;
    [exact Hq|lookup_tac|lookup_tac|].
  erewrite bind_done by exact Epop. rewrite alone_preempt. change (0 <? 0) with false. cbv iota. rsimpl.
  rewrite ?insert_insert_eq.
  run. rewrite alone_preempt. run. rewrite alone_preempt. run. rewrite alone_preempt. run.
  zif. run.
  erewrite bind_done by (apply get_tcp_manager_ok; exact Hm). run.
  erewrite bind_done by reflexivity. rewrite alone_preempt. run. rewrite alone_preempt.
  run. rewrite alone_preempt. run. rewrite alone_preempt. run. cbn [alone].
  eexists _, (Pos.succ (w_next w)). split; [reflexivity|]. rsimpl.
  split_and!; [|lookup_tac|reflexivity| |lookup_tac|lookup_tac].
  + rewrite lookup_insert_eq. by destruct (bind_addr l), (bind_addr x).
  + destruct Hq' as (q1 & Hq1 & Hs1 & Hc1 & Hn1). cbn in Hq1. exists q1. by split_and!.
Qed.

(** C31: [tcp_accept].  It makes the caller's socket a copy of the listening one and
    waits, if the accept queue is empty, for the queue of the listening socket to be
    not empty, and then does what it does at once when the queue is not empty:
    [accept_connection].  In any world this takes, if no other thread comes between
    its statements, the oldest completed handshake from the queue, fills in the two
    addresses, makes the socket ESTABLISHED, registers it in the table of established
    connections, resets the sequence numbers of its windows and starts its send
    thread.  The copy shares everything behind a pointer: windows, buffers, timer and
    queues are those of the listening socket, so each accepted connection resets the
    sequence numbers of all earlier ones. *)
Theorem tcp_accept_spec w ls conn l cs :
  w_socks w !! ls = Some l → w_socks w !! conn = Some cs → conn ≠ ls →
  let w1 := w⟨w_socks := <[conn := l]> (w_socks w)⟩ in
  (queue_rep w (accept_queue l) [] →
     ∃ g k, tcp_accept ls conn w = Wait g w1 k ∧
       (∀ w2 l2 q2, w_socks w2 !! ls = Some l2 → w_queues w2 !! accept_queue l2 = Some q2 →
          g w2 = Some (negb (q_size q2 =? 0))) ∧
       ∀ w2, k w2 = accept_connection ls conn w2) ∧
  (∀ e la, queue_rep w (accept_queue l) (e :: la) → tcp_accept ls conn w = accept_connection ls conn w1) ∧
  (∀ w2 l2 cs2 n c la x snd rcv m h,
     w_socks w2 !! ls = Some l2 → w_socks w2 !! conn = Some cs2 → below (w_next w2) (w_socks w2) →
     queue_rep w2 (accept_queue l2) ((n, c) :: la) → w_socks w2 !! c = Some x → c ≠ conn →
     w_snds w2 !! wnd_send cs2 = Some snd → w_rcvs w2 !! wnd_recv cs2 = Some rcv →
     w_manager w2 = Some m → blen (established_queue m) = MAX_SOCK_SIZE →
     cal_hash (ip (bind_addr l2)) (port (bind_addr l2)) (ip (bind_addr x)) (port (bind_addr x)) = Some h →
     0 <= h < MAX_SOCK_SIZE →
     ∃ w' th, alone (accept_connection ls conn w2) = Done 0 w' ∧
       w_socks w' !! conn = Some (cs2⟨established_local_addr := bind_addr l2⟩
         ⟨established_remote_addr := bind_addr x⟩⟨state := ESTABLISHED⟩⟨send_thread := Some th⟩) ∧
       w_threads w' !! th = Some (mk_thread (Run_tcp_send_stream conn) false) ∧
       w_manager w' = Some (m⟨established_queue := <[Z.to_nat h := Some conn]> (established_queue m)⟩) ∧
       queue_rep w' (accept_queue l2) la ∧
       w_rcvs w' !! wnd_recv cs2 = Some (rcv⟨expect_seq := 0⟩) ∧
       w_snds w' !! wnd_send cs2 = Some (snd⟨base := 0⟩⟨nextseq := 0⟩)).
Proof using.
  intros Hl Hc Hne w1. unfold tcp_accept.
  assert (copy_sock conn ls w = Done tt w1) as Ecopy by (unfold copy_sock; run; by erewrite store_ok by exact Hc).
  assert (w_socks w1 !! ls = Some l) as Hl1 by (unfold w1; rsimpl; by rewrite lookup_insert_ne).
  assert (w_queues w1 = w_queues w) as Hq1 by reflexivity.
  erewrite bind_done by exact Ecopy. split; [|split].
  - intros (q & Hq & Hsz & _).
    erewrite bind_wait by (apply await_wait; rewrite Hl1; cbn [mbind option_bind]; rewrite Hq1, Hq;
      cbn [mbind option_bind]; rewrite Hsz; reflexivity).
    do 2 eexists. split; [reflexivity|]. split; [|done]. intros w2 l2 q2 -> H2. cbn. by rewrite H2.
  - intros e la (q & Hq & Hsz & _).
    by erewrite bind_done by (apply await_ok; rewrite Hl1; cbn [mbind option_bind]; rewrite Hq1, Hq;
      cbn [mbind option_bind]; by rewrite Hsz, blen_pos_eqb).
  - intros. by eapply accept_connection_ok.
Qed.

End api.

(** ** Instances *)

(** One socket with two bytes to send, two free ones, and five received. *)
Definition buffer_sock : tju_tcp_t :=
  sample_sock⟨state := ESTABLISHED⟩⟨sending_len := 2⟩⟨sending_capacity := 4⟩⟨received_len := 5⟩.
Definition buffer_world : world :=
  sample_world buffer_sock sample_snd sample_rcv [1; 2; 0; 0] [1; 2; 3; 4; 5; 0] [].

Lemma tcp_send_spec_witness :
  (∃ w', tcp_send 1 [7; 8] 2 buffer_world = Done 0 w') ∧
  (∃ w', tcp_send 1 [7; 8; 9] 3 buffer_world = Done (-1) w').
Proof.
  assert (pending_data buffer_world 1 buffer_sock [1; 2] [0; 0]) as Hp by by constructor.
  split.
  - destruct (tcp_send_spec buffer_world 1 buffer_sock [1; 2] [0; 0] [7; 8] [7; 8]
      Hp eq_refl eq_refl) as [Hfit _].
    destruct Hfit as (w' & sock' & rest' & E & _); [done|]. by exists w'.
  - destruct (tcp_send_spec buffer_world 1 buffer_sock [1; 2] [0; 0] [7; 8; 9]
      [7; 8; 9] Hp eq_refl eq_refl) as [_ Hfull].
    destruct Hfull as (w' & E & _); [done|]. by exists w'.
Defined.

Lemma tcp_recv_spec_witness :
  (∃ w', tcp_recv 1 3 buffer_world = Done (0, [1; 2; 3]) w') ∧
  tcp_recv 1 2 buffer_world = Undef OverlappingCopy.
Proof.
  assert (receiving buffer_world 1 buffer_sock sample_snd sample_rcv [1; 2; 3; 4; 5]) as Hp.
  { constructor; try reflexivity; [|by apply below_check]. split; [done|]. by exists [0]. }
  split.
  - destruct (tcp_recv_spec buffer_world 1 buffer_sock sample_snd sample_rcv
      [1; 2; 3; 4; 5] 3 Hp) as [Hok _]; [done..|].
    destruct Hok as (w' & sock' & E & _); [done|]. by exists w'.
  - apply (tcp_recv_spec buffer_world 1 buffer_sock sample_snd sample_rcv
      [1; 2; 3; 4; 5] 2 Hp); done.
Defined.

Lemma tcp_socket_spec_witness :
  ∃ w', @tcp_socket (env_at Host_client) buffer_world = Done 11%positive w'.
Proof.
  destruct (@tcp_socket_spec (env_at Host_client) buffer_world) as (w' & ? & ? & ? & ? & E & _).
  { constructor; by apply below_check. }
  by exists w'.
Defined.

(** A listening socket 1 with the completed handshake of the socket 3 in its
    accept queue, and the socket 2 to be connected. *)
Definition accepting_sock : tju_tcp_t :=
  sample_sock⟨state := LISTEN⟩⟨bind_addr := mk_addr server_ip 1234⟩.
Definition accepting_world : world :=
  (sample_world accepting_sock sample_snd sample_rcv [] [] [])
    ⟨w_socks := {[1%positive := accepting_sock; 2%positive := sample_sock;
                  3%positive := sample_sock⟨bind_addr := mk_addr client_ip 5678⟩]}⟩
    ⟨w_queues := {[7%positive := mk_sockqueue 0 None; 8%positive := mk_sockqueue 1 (Some 11%positive)]}⟩
    ⟨w_nodes := {[11%positive := mk_node 3 None]}⟩⟨w_next := 12%positive⟩.

Lemma accepting_queue :
  queue_rep accepting_world 8 [(11%positive, 3%positive)].
Proof.
  eexists. split; [reflexivity|]. split; [done|]. split; [|apply list.NoDup_singleton].
  split; [done|]. eexists. split; [reflexivity|done].
Qed.

Lemma tcp_accept_spec_witness :
  ∃ w', alone (@tcp_accept (env_at Host_server) 1 2 accepting_world) = Done 0 w'.
Proof.
  destruct (@tcp_accept_spec (env_at Host_server) accepting_world 1 2 accepting_sock sample_sock)
    as (_ & Hstart & Hacc); [reflexivity|reflexivity|done|].
  rewrite (Hstart _ _ accepting_queue).
  destruct (Hacc (accepting_world⟨w_socks := <[2%positive := accepting_sock]> (w_socks accepting_world)⟩)
    accepting_sock accepting_sock 11%positive 3%positive [] (sample_sock⟨bind_addr := mk_addr client_ip 5678⟩)
    sample_snd sample_rcv empty_manager (default 0 (cal_hash server_ip 1234 client_ip 5678)))
    as (w' & th & E & _); try done.
  - by apply below_check.
  - destruct accepting_queue as (q & H1 & H2 & H3 & H4). exists q. split_and!; try done.
  - exists w'. exact E.
Defined.
