(* ===== verification/Host.v ===== *)
(** * A host as a system of threads

    A scheduler runs the threads of one host from wait to wait, in any order,
    while datagrams of any content arrive; and the rule by which an invariant of
    all threads holds in every state that is reached. *)

From S2P Require Import Prelude Consts Machine Threads Transfer Teardown TimerThread Kernel Api.

(** ** The two programs

    The ports of src/app/client.c and src/app/server.c, and the entry of the socket
    tables for the connection between them. *)
Definition client_port : Z := 5678.
Definition server_port : Z := 1234.
Definition connection_index : Z := 773.

(** ** The scheduler *)

(** The application, the receive thread, the send thread, the timer threads. *)
Inductive task_id := T_app | T_receive | T_send | T_timer (th : loc).

#[export] Instance task_id_eq_dec : EqDecision task_id.
Proof. solve_decision. Defined.
#[export] Instance task_id_countable : Countable task_id.
Proof.
  apply (inj_countable'
    (fun t => match t with T_app => inl 0 | T_receive => inl 1 | T_send => inl 2 | T_timer th => inr th end)
    (fun x => match x with inl n => if n =? 0 then T_app else if n =? 1 then T_receive else T_send
                         | inr th => T_timer th end)).
  by intros [].
Defined.

(** What a task reports when it ends: the bytes [tcp_send] accepted, and the
    bytes [tcp_recv] returned. *)
Record io := mk_io { io_sent : list Z; io_read : list Z }.
Definition no_io : io := mk_io [] [].

(** A thread that waits: its guard and what it does then. *)
Definition blocked : Type := (world → option bool) * (world → outcome io).

(** [sy_ready]: the program has connected, or accepted a connection.  [sy_accepted]
    are the bytes for which [tcp_send] has returned 0, [sy_read] those [tcp_recv] has
    stored in the caller's buffers. *)
Record system := mk_system {
  sy_world : world;
  sy_tasks : gmap task_id blocked;
  sy_ready : bool;
  sy_accepted : list Z;
  sy_read : list Z
}.

(** The calls of an application. *)
Inductive app_call := Call_send (data : list Z) | Call_recv (len : Z) | Call_close.

Inductive event :=
  | Ev_call (c : app_call)          (* the application calls the stack *)
  | Ev_receive (pkt : list Z)       (* a packet arrives *)
  | Ev_send (th : loc)              (* an iteration of the send thread begins *)
  | Ev_timer (th : loc)             (* a new timer thread begins *)
  | Ev_resume (t : task_id)         (* a waiting thread goes on *)
  | Ev_tick (n : nat).              (* seconds pass *)

Section host.
Context `{Env}.

(** What [pthread_self] is for each task. *)
Definition task_self (t : task_id) : option loc :=
  match t with T_timer th => Some th | _ => None end.

(** A thread that has returned is done; the send thread has more iterations. *)
Definition mark_done (t : task_id) (w : world) : world :=
  match t with
  | T_timer th => w⟨w_threads := alter (fun x => x⟨th_done := true⟩) th (w_threads w)⟩
  | _ => w
  end.

(** Undefined behaviour and [exit] end the process: no state follows.  Connecting,
    or accepting, is the first thing the application ends. *)
Definition settle (t : task_id) (o : outcome io) (sy : system) : option system :=
  match o with
  | Done x w => Some (mk_system (mark_done t w) (delete t (sy_tasks sy))
                        (sy_ready sy || bool_decide (t = T_app)) (sy_accepted sy ++ io_sent x) (sy_read sy ++ io_read x))
  | Wait c w k => Some (mk_system w (<[t := (c, k)]> (sy_tasks sy)) (sy_ready sy) (sy_accepted sy) (sy_read sy))
  | _ => None
  end.

Definition start (t : task_id) (m : M io) (sy : system) : option system :=
  match sy_tasks sy !! t with
  | Some _ => None
  | None => settle t (m ((sy_world sy)⟨w_self := task_self t⟩)) sy
  end.

(** A call on the socket [s]. *)
Definition run_call (s : loc) (c : app_call) : M io :=
  match c with
  | Call_send data => r ← tcp_send s data (blen data); mret (mk_io (if r =? 0 then data else []) [])
  | Call_recv len => r ← tcp_recv s len; mret (mk_io [] (snd r))
  | Call_close => tcp_close s;; mret no_io
  end.

(** The application uses the socket [s]. *)
Definition exec_event (s : loc) (e : event) (sy : system) : option system :=
  match e with
  | Ev_call c => start T_app (run_call s c) sy
  | Ev_receive pkt => start T_receive (onTCPPocket pkt;; mret no_io) sy
  | Ev_send th =>
      match w_threads (sy_world sy) !! th with
      | Some (mk_thread (Run_tcp_send_stream p) false) =>
          start T_send (tcp_send_stream_iteration p;; mret no_io) sy
      | _ => None
      end
  | Ev_timer th =>
      match w_threads (sy_world sy) !! th with
      | Some (mk_thread (Run_tcp_check_timeout p) false) =>
          start (T_timer th) (tcp_check_timeout p;; mret no_io) sy
      | _ => None
      end
  | Ev_resume t =>
      match sy_tasks sy !! t with
      | Some (c, k) =>
          let w := (sy_world sy)⟨w_self := task_self t⟩ in
          match c w with Some true => settle t (k w) sy | _ => None end
      | None => None
      end
  | Ev_tick n =>
      let w := sy_world sy in
      Some (mk_system (w⟨w_clock := w_clock w + Z.of_nat n⟩) (sy_tasks sy) (sy_ready sy) (sy_accepted sy)
              (sy_read sy))
  end.

(** The states a host reaches from [sy0] by events the scheduler may choose. *)
Inductive reachable (s : loc) (ok : system → event → Prop) (sy0 : system) : system → Prop :=
  | reach_start : reachable s ok sy0 sy0
  | reach_step e sy sy' :
      reachable s ok sy0 sy → ok sy e → exec_event s e sy = Some sy' → reachable s ok sy0 sy'.

(** A run, if each of its events is among those the scheduler may choose. *)
Fixpoint exec_events (s : loc) (sched : system → event → bool) (es : list event) (sy : system) : option system :=
  match es with
  | [] => Some sy
  | e :: es => if sched sy e then sy' ← exec_event s e sy; exec_events s sched es sy' else None
  end.

Lemma reachable_exec s ok P sched sy0 es sy sy' :
  (∀ sy e, P e → sched sy e = true → ok sy e) →
  reachable s ok sy0 sy → Forall P es → exec_events s sched es sy = Some sy' → reachable s ok sy0 sy'.
Proof using.
  intros Hok Hr Hes. revert sy Hr. induction Hes as [|e es He _ IH]; intros sy Hr E; cbn in E.
  - by injection E as <-.
  - destruct (sched sy e) eqn:Es; [|done]. opt_inv. eapply IH; [|exact E]. eapply reach_step; eauto.
Qed.

(** What was accepted and read only grows. *)
Definition logs_grow (sy sy' : system) : Prop :=
  sy_accepted sy `prefix_of` sy_accepted sy' ∧ sy_read sy `prefix_of` sy_read sy'.
Lemma settle_logs t o sy sy' : settle t o sy = Some sy' → logs_grow sy sy'.
Proof using. destruct o; intros [= <-]; split; cbn; done || by apply prefix_app_r. Qed.
Lemma exec_logs s e sy sy' : exec_event s e sy = Some sy' → logs_grow sy sy'.
Proof using.
  destruct e; cbn [exec_event]; unfold start; repeat case_match; try done; try apply settle_logs.
  by intros [= <-].
Qed.

(** A process starts with no memory allocated and runs [main]. *)
Definition initial_world : world := mk_world ∅ ∅ ∅ ∅ ∅ ∅ ∅ ∅ 1 None None 0 [].
Definition boot (main : M unit) : option system :=
  start T_app (main;; mret no_io) (mk_system initial_world ∅ false [] []).

(** [startSimulation] on a fresh process. *)
Definition started_world : world :=
  let empty := replicate (Z.to_nat MAX_SOCK_SIZE) None in
  initial_world⟨w_threads := {[1%positive := mk_thread Run_receive_thread false]}⟩
    ⟨w_next := 2%positive⟩⟨w_manager := Some (mk_manager empty empty empty junk_is_server)⟩.

Lemma startSimulation_initial :
  startSimulation true true true (initial_world⟨w_self := None⟩) = Done tt started_world.
Proof using. reflexivity. Qed.

Lemma started_empty : w_socks started_world = ∅ ∧ w_sent started_world = [].
Proof using. unfold started_world. by rsimpl. Qed.
Lemma started_threads th x : w_threads started_world !! th = Some x → x = mk_thread Run_receive_thread false.
Proof using. unfold started_world. rsimpl. by intros [_ <-]%lookup_singleton_Some. Qed.

(** Its tables are empty. *)
Definition empty_table (l : list (option loc)) : Prop := blen l = MAX_SOCK_SIZE ∧ ∀ p, Some p ∉ l.
Lemma empty_table_insert l i s p : empty_table l → Some p ∈ <[i := Some s]> l → p = s.
Proof using.
  intros [_ Hn] [j Hj]%list_elem_of_lookup. revert Hj.
  intros [(_ & [= ->] & _)|[_ Hj]]%list_lookup_insert_Some; [done|].
  by destruct (Hn p); eapply list_elem_of_lookup_2.
Qed.
Lemma started_manager : ∃ m, w_manager started_world = Some m ∧
  empty_table (listen_queue m) ∧ empty_table (established_queue m) ∧ empty_table (connect_sock m).
Proof using.
  assert (empty_table (replicate (Z.to_nat MAX_SOCK_SIZE) None)) as He.
  { split; [by apply blen_replicate|]. intros p [i [? _]%lookup_replicate]%list_elem_of_lookup. done. }
  eexists. split; [reflexivity|]. by split_and!.
Qed.

End host.

(** ** Threads in parallel

    Each task [t] has a rely and a guarantee on the ghost state, [may t] says when the
    scheduler lets it run, [idle t] is what holds while it does not run, and
    [finish t x] how the ghost state moves when it returns [x].  If what each task
    guarantees is what the others rely on, the invariant holds in every state the
    scheduler reaches. *)
Class Parallel {G : Type} (I : G → world → Prop) := {
  pl_rely : task_id → G → G → Prop;
  pl_guar : task_id → G → G → Prop;
  pl_may : task_id → G → world → Prop;
  pl_finish : task_id → io → G → G → Prop;
  pl_idle : task_id → G → Prop;
  pl_log : G → list Z → list Z → Prop;
  pl_evolve : G → G → Prop;
  pl_guar_preorder t :: PreOrder (pl_guar t);
  pl_evolve_preorder :: PreOrder pl_evolve;
  pl_evolve_ready g g' : pl_evolve g g' → pl_idle T_app g → pl_idle T_app g';
  pl_rely_trans t : Transitive (pl_rely t);
  pl_rely_refl t : Reflexive (pl_rely t);
  pl_rely_idle t g g' : pl_rely t g g' → pl_idle t g → pl_idle t g';
  pl_guar_rely t t' g g' : t ≠ t' → pl_guar t g g' → pl_rely t' g g';
  pl_guar_log t g g' a r : pl_guar t g g' → pl_log g a r → pl_log g' a r;
  pl_guar_evolve t g g' : pl_guar t g g' → pl_evolve g g';
  pl_finish_rely t t' x g g' : t ≠ t' → pl_finish t x g g' → pl_rely t' g g';
  pl_finish_idle t x g g' : pl_finish t x g g' → pl_idle t g';
  pl_finish_log t x g g' a r :
    pl_finish t x g g' → pl_log g a r → pl_log g' (a ++ io_sent x) (r ++ io_read x);
  pl_finish_evolve t x g g' : pl_finish t x g g' → pl_evolve g g';
  pl_self g w x : I g w → I g (w⟨w_self := x⟩);
  pl_clock g w x : I g w → I g (w⟨w_clock := x⟩);
  pl_done g w th : I g w → I g (w⟨w_threads := alter (fun x => x⟨th_done := true⟩) th (w_threads w)⟩)
}.

Section parallel.
Context `{Env} {G : Type} (I : G → world → Prop) `{!Parallel I}.

(** What a task must end in. *)
Definition finished (t : task_id) : io → G → world → Prop :=
  fun x g w => ∃ g', pl_finish t x g g' ∧ I g' w.
Definition task_safe (t : task_id) (g : G) (o : outcome io) : Prop :=
  safe I (when (pl_rely t) (pl_may t)) (pl_guar t) (finished t) g o.

(** What a waiting task needs to go on. *)
Definition task_ok (g : G) (t : task_id) (b : blocked) : Prop :=
  ∀ g2 w2, pl_rely t g g2 → pl_may t g2 w2 → I g2 w2 → fst b w2 = Some true → task_safe t g2 (snd b w2).

Record sys_inv (g : G) (sy : system) : Prop := {
  sv_log : pl_log g (sy_accepted sy) (sy_read sy);
  sv_world : I g (sy_world sy);
  sv_tasks : ∀ t b, sy_tasks sy !! t = Some b → task_ok g t b;
  sv_idle : ∀ t, sy_tasks sy !! t = None → pl_idle t g;
  sv_ready : sy_ready sy = true → pl_idle T_app g
}.

Lemma task_ok_mono g g' t b : task_ok g t b → pl_rely t g g' → task_ok g' t b.
Proof using. intros Ht Hg g2 w2 Hg2. apply Ht. by eapply (pl_rely_trans t). Qed.

Lemma inv_mark_done g w t : I g w → I g (mark_done t w).
Proof using Parallel0. destruct t; [done..|apply pl_done]. Qed.

Lemma settle_inv t o g sy sy' :
  pl_log g (sy_accepted sy) (sy_read sy) →
  (∀ t' b, t' ≠ t → sy_tasks sy !! t' = Some b → task_ok g t' b) →
  (∀ t', t' ≠ t → sy_tasks sy !! t' = None → pl_idle t' g) →
  (sy_ready sy = true → pl_idle T_app g) →
  task_safe t g o → settle t o sy = Some sy' → ∃ g', sys_inv g' sy' ∧ pl_evolve g g'.
Proof using.
  intros Hl Htk Hid Hrd Ho Hs. destruct o as [x w|c w k|u|z w|]; try done; injection Hs as <-.
  - destruct Ho as (g1 & Hg1 & g2 & Hg2 & HI). exists g2. split.
    2: { etrans; [by eapply pl_guar_evolve|by eapply pl_finish_evolve]. }
    assert (∀ t', t' ≠ t → pl_rely t' g g2) as Hr.
    { intros t' Hne. eapply (pl_rely_trans t'); [eapply pl_guar_rely|eapply pl_finish_rely]; done. }
    constructor; cbn.
    + eapply pl_finish_log, pl_guar_log; done.
    + by apply inv_mark_done.
    + intros t' b [Hne Hb]%lookup_delete_Some. eapply task_ok_mono; [by apply Htk|by apply Hr].
    + intros t' [<-|Hn]%lookup_delete_None; [by eapply pl_finish_idle|].
      destruct (decide (t' = t)) as [->|Hne]; [by eapply pl_finish_idle|].
      eapply pl_rely_idle; [by apply Hr|by apply Hid].
    + intros [Hy|Ht%bool_decide_eq_true]%orb_prop; [|subst t; by eapply pl_finish_idle].
      eapply pl_evolve_ready; [etrans; [by eapply pl_guar_evolve|by eapply pl_finish_evolve]|by apply Hrd].
  - destruct Ho as (g' & Hg & HI & Hk). exists g'. split; [|by eapply pl_guar_evolve].
    constructor; cbn.
    + by eapply pl_guar_log.
    + done.
    + intros t' b [[<- <-]|[Hne Hb]]%lookup_insert_Some; [by intros ? ? ? ?; apply Hk|].
      eapply task_ok_mono; [by apply Htk|by eapply pl_guar_rely].
    + intros t' [Hn Hne]%lookup_insert_None. eapply pl_rely_idle; [by eapply pl_guar_rely|by apply Hid].
    + intros Hy. eapply pl_evolve_ready; [by eapply pl_guar_evolve|by apply Hrd].
Qed.

(** A task begins. *)
Lemma start_inv t m g sy sy' (w := (sy_world sy)⟨w_self := task_self t⟩) :
  sys_inv g sy → (I g w → pl_idle t g → task_safe t g (m w)) →
  start t m sy = Some sy' → ∃ g', sys_inv g' sy' ∧ pl_evolve g g'.
Proof using.
  intros [Hl HI Htk Hid Hrd] Hm. unfold start. destruct (sy_tasks sy !! t) eqn:E; [done|].
  apply settle_inv; [done|by intros; apply Htk|by intros; apply Hid|done|].
  apply Hm; [by apply pl_self|by apply Hid].
Qed.

(** The process starts. *)
Lemma boot_inv (main : M unit) g sy :
  pl_log g [] [] → (∀ t, t ≠ T_app → pl_idle t g) →
  task_safe T_app g ((main;; mret no_io) (initial_world⟨w_self := None⟩)) →
  boot main = Some sy → ∃ g', sys_inv g' sy ∧ pl_evolve g g'.
Proof using.
  intros Hl Hid Hm. unfold boot, start. cbn [sy_tasks sy_world]. rewrite lookup_empty.
  apply settle_inv; cbn; [done|by intros|by intros; apply Hid|done|exact Hm].
Qed.

(** A waiting task goes on, or time passes. *)
Lemma resume_inv s t g sy sy' :
  sys_inv g sy → pl_may t g ((sy_world sy)⟨w_self := task_self t⟩) →
  exec_event s (Ev_resume t) sy = Some sy' → ∃ g', sys_inv g' sy' ∧ pl_evolve g g'.
Proof using Parallel0.
  intros [Hl HI Htk Hid Hrd] Hmay. cbn [exec_event]. destruct (sy_tasks sy !! t) as [[c k]|] eqn:Et; [|done].
  destruct (c _) as [[]|] eqn:Ec; try done.
  apply settle_inv; [done|by intros; apply Htk|by intros; apply Hid|done|].
  apply (Htk _ _ Et); [by apply (pl_rely_refl t)|done|by apply pl_self|done].
Qed.
Lemma tick_inv s n g sy sy' :
  sys_inv g sy → exec_event s (Ev_tick n) sy = Some sy' → ∃ g', sys_inv g' sy' ∧ pl_evolve g g'.
Proof using Parallel0.
  intros [Hl HI Htk Hid Hrd] [= <-]. exists g. split; [|done]. constructor; cbn; try done. by apply pl_clock.
Qed.

(** A task whose ghost state stands still when it ends. *)
Lemma keeps_task {A} t (m : M A) (φ : A → Prop) g w :
  (∀ g', pl_idle t g' → pl_finish t no_io g' g') →
  keeps I (when (pl_rely t) (pl_may t)) eq m φ → I g w → pl_idle t g → task_safe t g ((m;; mret no_io) w).
Proof using Parallel0.
  intros Hf Hm HI Hid. unfold task_safe.
  eapply safe_bind; [apply _| |].
  { eapply (safe_relax _ _ eq); [by intros ? ? <-|].
    eapply (safe_frame _ _ _ (pl_idle t)); [by intros ? ? ? <-|intros ? ? ? ? []; by eapply pl_rely_idle|exact Hid|by apply Hm]. }
  intros a g' w' (Hid' & HI' & _). apply safe_done; [apply _|]. exists g'. eauto.
Qed.

End parallel.
