(* ===== verification/Sender.v ===== *)
(** * The sending host as a system of threads

    The invariant of a connected client, whatever its threads do and whatever
    datagrams arrive: what it has handed to the network is consistent with one
    stream, and that stream is what the application asked to send, in order. *)

From S2P Require Import Prelude Consts CFloat Packet Machine Threads Control Congestion Timer Handshake.
From S2P Require Import Teardown Transfer TimerThread Kernel Api Samples.

(** The ghost state: the bytes given a sequence number, the bytes [tcp_send]
    accepted, and how many bytes of the stream [nextseq] does not count yet
    while the send thread starts the timer; and whether [tcp_connect] has set
    [nextseq], which holds what [malloc] returned before. *)
Record ghost := mk_ghost {
  g_stream : list Z; g_accepted : list Z; g_mid : Z; g_started : bool
}.

Section sender.
Context `{Env} (s ws sb wb : loc) (lp : Z).

(** What the host sends from the port [lp]: headers alone, and pieces of the
    stream at the offset of their sequence number. *)
Definition bare_header (pkt : list Z) : Prop :=
  ∃ dst seq ack fl win, pkt = segment lp dst seq ack fl win.
Definition stream_piece (S : list Z) (pkt : list Z) : Prop :=
  ∃ dst seq win d, pkt = data_segment lp dst seq NO_FLAG win d ∧ 0 <= seq < 2 ^ 32 ∧
    mem_read S seq (blen d) = Some d ∧ Forall is_byte d ∧ DEFAULT_HEADER_LEN + blen d < 2 ^ 16.
Definition sent_ok (S : list Z) (pkt : list Z) : Prop := stream_piece S pkt ∨ bare_header pkt.

(** A receive buffer that is neither the sending buffer nor the window. *)
Definition apart (p : option loc) : Prop := p ≠ Some sb ∧ p ≠ Some wb.

(** The socket, if it was not freed, with the bytes that wait to be sent. *)
Record sender_sock (g : ghost) (w : world) (sock : tju_tcp_t) : Prop := {
  ss_window : wnd_send sock = ws;
  ss_sendbuf : sending_buf sock = sb;
  ss_recvbuf : apart (received_buf sock);
  ss_port : port (established_local_addr sock) = lp;
  ss_pending : ∃ pending rest, w_bufs w !! sb = Some (pending ++ rest) ∧
    sending_len sock = blen pending ∧ Forall is_byte pending ∧
    g_stream g ++ pending `sublist_of` g_accepted g
}.

Record sender_inv (g : ghost) (w : world) : Prop := {
  si_socks : ∀ sock, w_socks w !! s = Some sock → sender_sock g w sock;
  si_stream : g_stream g `sublist_of` g_accepted g;
  si_bytes : Forall is_byte (g_stream g);
  si_mid : 0 <= g_mid g <= blen (g_stream g);
  si_snd : ∃ snd, w_snds w !! ws = Some snd ∧ send_windows snd = wb ∧
             (g_started g = true → nextseq snd + g_mid g = blen (g_stream g));
  si_window : ∃ rest, w_bufs w !! wb = Some (g_stream g ++ rest) ∧
                blen (g_stream g ++ rest) = TCP_SEND_WINDOW_SIZE;
  si_sent : Forall (sent_ok (g_stream g)) (w_sent w);
  si_distinct : sb ≠ wb;
  si_fresh : (sb < w_next w)%positive ∧ (wb < w_next w)%positive;
  si_threads : ∀ th x, w_threads w !! th = Some x →
    th_body x = Run_tcp_check_timeout s ∨ th_body x = Run_receive_thread ∨
    th_body x = Run_tcp_send_stream s;
  si_unstarted : g_started g = false →
    g_stream g = [] ∧ ∀ sock, w_socks w !! s = Some sock → sending_len sock = 0;
  si_manager : ∃ m, w_manager w = Some m ∧ is_server m = 0 ∧
    ∀ p, Some p ∈ connect_sock m → p = s
}.

Lemma stream_piece_segment S pkt : stream_piece S pkt → stream_segment S pkt.
Proof using.
  intros (dst & seq & win & d & -> & Hn & Hr & Hb & Hl). exists (data_header lp dst seq NO_FLAG win d), d.
  assert (seq_num (data_header lp dst seq NO_FLAG win d) = seq) as Es by exact (u32_id _ Hn).
  rewrite Es. split; [by apply data_segment_carries|]. split; [done|]. by split; [lia|].
Qed.
Lemma bare_header_length pkt : bare_header pkt → blen pkt = HEADER_LEN.
Proof using. by intros (dst & seq & ack & fl & win & ->). Qed.

(** The stream fits the window buffer. *)
Lemma stream_bound g w : sender_inv g w → blen (g_stream g) <= TCP_SEND_WINDOW_SIZE.
Proof using.
  intros HI. destruct (si_window _ _ HI) as (rest & _ & <-). rewrite blen_app. pose proof (blen_nonneg rest). lia.
Qed.

(** ** What does not concern the invariant *)

Lemma sender_sock_frame g w w' sock :
  w_bufs w' !! sb = w_bufs w !! sb → sender_sock g w sock → sender_sock g w' sock.
Proof using. intros E []. constructor; try done. by rewrite E. Qed.

Ltac frame_inv :=
  intros []; constructor; try done; rsimpl;
  try (intros ? ?; eapply sender_sock_frame; [|by eauto]; reflexivity).

Lemma inv_self g w x : sender_inv g w → sender_inv g (w⟨w_self := x⟩).
Proof using. frame_inv. Qed.
Lemma inv_clock g w x : sender_inv g w → sender_inv g (w⟨w_clock := x⟩).
Proof using. frame_inv. Qed.
Lemma inv_timers g w x : sender_inv g w → sender_inv g (w⟨w_timers := x⟩).
Proof using. frame_inv. Qed.
Lemma inv_rcvs g w x : sender_inv g w → sender_inv g (w⟨w_rcvs := x⟩).
Proof using. frame_inv. Qed.

(** The fields of the socket the invariant is about. *)
Definition same_transport (x y : tju_tcp_t) : Prop :=
  wnd_send y = wnd_send x ∧ sending_buf y = sending_buf x ∧ sending_len y = sending_len x ∧
  established_local_addr y = established_local_addr x ∧
  (received_buf y = received_buf x ∨ apart (received_buf y)).

Lemma inv_sock g w p x y :
  sender_inv g w → w_socks w !! p = Some x → same_transport x y →
  sender_inv g (w⟨w_socks := <[p := y]> (w_socks w)⟩).
Proof using.
  intros HI Hx (E1 & E2 & E3 & E5 & E4). revert HI. frame_inv.
  - intros sock [[-> ->]|[_ Hk]]%lookup_insert_Some.
    + destruct (si_socks0 x Hx) as [? ? Hr Hl Hp].
      constructor; try congruence; [|by rewrite E3]. by destruct E4 as [->|].
    + eapply sender_sock_frame; [|by eauto]. reflexivity.
  - intros Hst. destruct (si_unstarted0 Hst) as [HS Hl]. split; [done|].
    intros sock [[-> ->]|[_ Hk]]%lookup_insert_Some; [rewrite E3|]; by apply Hl.
Qed.
Lemma inv_free_sock g w p : sender_inv g w → sender_inv g (w⟨w_socks := delete p (w_socks w)⟩).
Proof using.
  frame_inv.
  - intros sock [_ Hk]%lookup_delete_Some. eapply sender_sock_frame; [|by eauto]. reflexivity.
  - intros Hst. destruct (si_unstarted0 Hst) as [HS Hl]. split; [done|].
    intros sock [_ Hk]%lookup_delete_Some. by apply Hl.
Qed.
Lemma inv_snd g w p x y :
  sender_inv g w → w_snds w !! p = Some x → send_windows y = send_windows x → nextseq y = nextseq x →
  sender_inv g (w⟨w_snds := <[p := y]> (w_snds w)⟩).
Proof using.
  intros HI Hx E1 E2. revert HI. frame_inv.
  destruct si_snd0 as (snd & Hsnd & Hw & Hn). destruct (decide (p = ws)) as [->|Hne].
  - exists y. rewrite lookup_insert_eq. assert (x = snd) as -> by congruence. rewrite E1, E2. by split_and!.
  - exists snd. by rewrite lookup_insert_ne.
Qed.

(** A block that is neither of the two may change and go. *)
Lemma inv_bufs g w bufs next :
  sender_inv g w → bufs !! sb = w_bufs w !! sb → bufs !! wb = w_bufs w !! wb →
  (w_next w <= next)%positive →
  sender_inv g (w⟨w_bufs := bufs⟩⟨w_next := next⟩).
Proof using.
  intros HI E1 E2 Hn. revert HI. frame_inv.
  - intros sock Hk. eapply sender_sock_frame; [|by eauto]. exact E1.
  - by rewrite E2.
  - destruct si_fresh0. lia.
Qed.
Lemma inv_create g w b : sender_inv g w → b = Run_tcp_check_timeout s ∨ b = Run_tcp_send_stream s →
  sender_inv g (w⟨w_threads := <[w_next w := mk_thread b false]> (w_threads w)⟩
                 ⟨w_next := Pos.succ (w_next w)⟩).
Proof using.
  intros HI Hb. revert HI. frame_inv; [destruct si_fresh0; lia|].
  intros th x [[_ <-]|[_ Hx]]%lookup_insert_Some; [cbn; tauto|by apply (si_threads0 th)].
Qed.
Lemma inv_manager g w m : sender_inv g w → is_server m = 0 → (∀ p, Some p ∈ connect_sock m → p = s) →
  sender_inv g (w⟨w_manager := Some m⟩).
Proof using. intros HI Hs Hc. revert HI. frame_inv. by exists m. Qed.
Lemma inv_send g w pkt :
  sender_inv g w → sent_ok (g_stream g) pkt → sender_inv g (w⟨w_sent := w_sent w ++ [pkt]⟩).
Proof using.
  intros HI Hp. revert HI. frame_inv. apply Forall_app_2; [done|]. by apply Forall_singleton.
Qed.

(** ** What the send thread does *)

Lemma stream_piece_grows S S' pkt :
  S `prefix_of` S' → stream_piece S pkt → stream_piece S' pkt.
Proof using.
  intros [r ->] (dst & seq & win & d & -> & H0 & Hd & Hb & Hl). exists dst, seq, win, d. split_and!; try lia; try done.
  pose proof Hd as (_ & _ & Hle & _)%mem_read_Some. by rewrite mem_read_prefix by lia.
Qed.

(** The pending bytes leave the sending buffer. *)
Lemma inv_take g w sock y :
  sender_inv g w → w_socks w !! s = Some sock → wnd_send y = wnd_send sock →
  sending_buf y = sending_buf sock → received_buf y = received_buf sock → sending_len y = 0 →
  established_local_addr y = established_local_addr sock →
  sender_inv g (w⟨w_socks := <[s := y]> (w_socks w)⟩).
Proof using.
  intros HI Hs E1 E2 E3 E4 E5. destruct (si_socks _ _ HI sock Hs) as [Hw Hb Hr Hpt (p & rest & Hp & _)].
  pose proof (si_stream _ _ HI) as Hsub. revert HI. frame_inv.
  - intros x [[_ <-]|[Hne _]]%lookup_insert_Some; [|done].
    constructor; [congruence|congruence|by rewrite E3|congruence|].
    exists [], (p ++ rest). rewrite app_nil_r. by split_and!.
  - intros Hst. destruct (si_unstarted0 Hst) as [HS Hl]. split; [done|].
    intros x [[_ <-]|[Hne _]]%lookup_insert_Some; [done|done].
Qed.

(** The bytes [p] enter the window behind the stream. *)
Lemma inv_extend g w p rest swin :
  sender_inv g w → g_mid g = 0 → g_started g = true → w_bufs w !! wb = Some (g_stream g ++ rest) →
  (∀ sock, w_socks w !! s = Some sock → sending_len sock = 0) →
  mem_write (g_stream g ++ rest) (blen (g_stream g)) p = Some swin →
  Forall is_byte p → g_stream g ++ p `sublist_of` g_accepted g →
  sender_inv (mk_ghost (g_stream g ++ p) (g_accepted g) (blen p) true)
    (w⟨w_bufs := <[wb := swin]> (w_bufs w)⟩).
Proof using.
  intros HI Hmid Hst Hwin Hlen Hwr Hp Hsub. pose proof (si_distinct _ _ HI) as Hne.
  pose proof (mem_write_length _ _ _ _ Hwr) as Hsz. pose proof (blen_nonneg (g_stream g)).
  pose proof (blen_nonneg p). apply mem_write_Some in Hwr as (_ & _ & Hwr). revert HI.
  intros []. constructor; rsimpl; try done; cbn [g_stream g_accepted g_mid g_started] in *.
  - intros sock Hs. destruct (si_socks0 sock Hs) as [? ? ? ? (q & r & Hq & Hql & _)].
    constructor; try done. exists [], (q ++ r). rsimpl. cbn [g_stream g_accepted app].
    rewrite lookup_insert_ne, app_nil_r by done. by rewrite (Hlen _ Hs).
  - by apply Forall_app.
  - rewrite blen_app. lia.
  - destruct si_snd0 as (snd & ? & ? & Hn). exists snd. rewrite blen_app. specialize (Hn Hst).
    split_and!; [done..|lia].
  - destruct si_window0 as (r & Hr & Hl). rewrite Hwin in Hr. injection Hr as Hr.
    assert (swin = (g_stream g ++ p) ++ drop (length (g_stream g) + length p) (g_stream g ++ rest)) as E.
    { rewrite Hwr. unfold blen. by rewrite Nat2Z.id, take_app_length, app_assoc. }
    eexists. rewrite lookup_insert_eq, <- E. split; [done|]. rewrite Hsz. congruence.
  - eapply list.Forall_impl; [exact si_sent0|]. intros pkt [Hk|Hk]; [left|by right].
    eapply stream_piece_grows; [|exact Hk]. by apply prefix_app_r.
Qed.

(** [nextseq] catches up. *)
Lemma inv_advance g w snd n :
  sender_inv g w → w_snds w !! ws = Some snd → n = blen (g_stream g) →
  sender_inv (mk_ghost (g_stream g) (g_accepted g) 0 (g_started g)) (w⟨w_snds := <[ws := snd⟨nextseq := n⟩]> (w_snds w)⟩).
Proof using.
  intros [] Hsnd ->. constructor; rsimpl; try done; cbn [g_stream g_accepted g_mid g_started] in *.
  - intros sock Hs. destruct (si_socks0 sock Hs). by constructor.
  - lia.
  - destruct si_snd0 as (x & Hx & ? & ?). assert (x = snd) as -> by congruence.
    eexists. rewrite lookup_insert_eq. split_and!; [done|done|]. rsimpl. lia.
Qed.

(** [tcp_connect] has set [nextseq]: nothing was sent before. *)
Lemma inv_start g w snd snd' :
  sender_inv g w → g_started g = false → w_snds w !! ws = Some snd →
  send_windows snd' = send_windows snd → nextseq snd' = 0 →
  sender_inv (mk_ghost [] (g_accepted g) 0 true) (w⟨w_snds := <[ws := snd']> (w_snds w)⟩).
Proof using.
  intros HI Hst Hsnd Hwb Hn. destruct (si_unstarted _ _ HI Hst) as [HS _]. revert HI.
  intros []. constructor; rsimpl; try done; cbn [g_stream g_accepted g_mid g_started] in *; rewrite ?HS in *;
    try (by constructor); try apply sublist_nil_l; try done.
  - intros sock Hs. destruct (si_socks0 sock Hs) as [? ? ? ? Hp]. constructor; try done. by rewrite HS in Hp.
  - exists snd'. rewrite lookup_insert_eq. destruct si_snd0 as (x & Hx & ? & _).
    split_and!; [done|congruence|by rewrite Hn].
Qed.

(** ** Threads that only add headers

    Nothing here depends on the relations between the threads, except that the
    stream grows. *)

Context (rely : ghost → ghost → world → Prop) (guar : ghost → ghost → Prop) `{!PreOrder guar}.

Abbreviation Keeps := (keeps sender_inv rely guar).

Lemma keeps_load_s :
  Keeps (load_sock s) (fun x => apart (received_buf x) ∧ port (established_local_addr x) = lp).
Proof using All.
  apply keeps_load_with; [done|]. intros g w x HI Hx. by destruct (si_socks _ _ HI x Hx).
Qed.
Lemma keeps_modify_sock p f : (∀ x, same_transport x (f x)) →
  Keeps (modify (T := tju_tcp_t) p f) (fun _ => True).
Proof using All.
  intros Hf. apply keeps_modify; [done|]. intros g w y HI Hy. by apply (inv_sock g w p y).
Qed.
Lemma keeps_modify_snd p f :
  (∀ x, send_windows (f x) = send_windows x ∧ nextseq (f x) = nextseq x) →
  Keeps (modify (T := sender_window_t) p f) (fun _ => True).
Proof using All.
  intros Hf. apply keeps_modify; [done|]. intros g w y HI Hy. by apply (inv_snd g w p y); try apply Hf.
Qed.
Lemma keeps_modify_rcv p f : Keeps (modify (T := receiver_window_t) p f) (fun _ => True).
Proof using All. apply keeps_modify; [done|]. intros g w y HI Hy. by apply inv_rcvs. Qed.
Lemma keeps_modify_timer p f : Keeps (modify (T := rtt_timer_t) p f) (fun _ => True).
Proof using All. apply keeps_modify; [done|]. intros g w y HI Hy. by apply inv_timers. Qed.
Lemma keeps_store_timer p (x : rtt_timer_t) : Keeps (store p x) (fun _ => True).
Proof using All. apply keeps_store; [done|]. intros g w y HI Hy. by apply inv_timers. Qed.
Lemma keeps_free_sock p : Keeps (free (T := tju_tcp_t) p) (fun _ => True).
Proof using All.
  intros g w HI. unfold free. destruct (_ !! _); [|done].
  apply safe_done; [done|]. split; [|done]. by apply inv_free_sock.
Qed.

(** One block changes or goes. *)
Lemma inv_buf_insert g w p b : sender_inv g w → apart (Some p) →
  sender_inv g (w⟨w_bufs := <[p := b]> (w_bufs w)⟩).
Proof using.
  intros HI [? ?].
  apply (inv_bufs g w (<[p := b]> (w_bufs w)) (w_next w)); [done|apply lookup_insert_ne; congruence..|lia].
Qed.
Lemma inv_buf_delete g w p : sender_inv g w → apart (Some p) →
  sender_inv g (w⟨w_bufs := delete p (w_bufs w)⟩).
Proof using.
  intros HI [? ?].
  apply (inv_bufs g w (delete p (w_bufs w)) (w_next w)); [done|apply lookup_delete_ne; congruence..|lia].
Qed.
Lemma keeps_free_buf p : apart (Some p) → Keeps (free (T := list Z) p) (fun _ => True).
Proof using All.
  intros Hp g w HI. unfold free. destruct (_ !! _); [|done].
  apply safe_done; [done|]. split; [|done]. by apply inv_buf_delete.
Qed.
Lemma keeps_alloc_buf f : Keeps (alloc (T := list Z) f) (fun p => apart (Some p)).
Proof using All.
  intros g w HI. apply safe_done; [done|]. pose proof (si_fresh _ _ HI) as [? ?]. split.
  - apply (inv_bufs g w (<[w_next w := f (w_next w)]> (w_bufs w)) (Pos.succ (w_next w)));
      [done|apply lookup_insert_ne; lia..|lia].
  - split; intros [= E]; lia.
Qed.
Lemma keeps_malloc n : Keeps (malloc n) (fun p => apart (Some p)).
Proof using All. apply keeps_alloc_buf. Qed.
Lemma keeps_realloc p n : apart (Some p) → Keeps (realloc p n) apart.
Proof using All.
  intros Hp. unfold realloc. eapply keeps_bind; [done|by apply keeps_load|]. intros old _.
  eapply keeps_bind; [done|by apply keeps_free_buf|]. intros _ _. destruct (n =? 0).
  - by apply keeps_ret.
  - eapply keeps_bind; [done|apply keeps_alloc_buf|]. intros q Hq. by apply keeps_ret.
Qed.
Lemma keeps_copy_in p off bs : apart (Some p) → Keeps (copy_in p off bs) (fun _ => True).
Proof using All.
  intros Hp. unfold copy_in. eapply keeps_bind; [done|by apply keeps_load|]. intros buf _.
  eapply keeps_bind; [done|by apply keeps_lift|]. intros buf' _. apply keeps_store; [done|].
  intros g w y HI _. by apply inv_buf_insert.
Qed.
Lemma keeps_copy_out p off n : Keeps (copy_out p off n) (fun _ => True).
Proof using All.
  unfold copy_out. eapply keeps_bind; [done|by apply keeps_load|]. intros buf _.
  eapply keeps_any; [done|by apply keeps_lift].
Qed.
Lemma keeps_copy_within p dst src n : apart (Some p) → Keeps (copy_within p dst src n) (fun _ => True).
Proof using All.
  intros Hp. unfold copy_within. eapply keeps_bind; [done|apply keeps_copy_out|]. intros bs _.
  destruct (_ && _); [by apply keeps_undef|by apply keeps_copy_in].
Qed.
Lemma keeps_create b : b = Run_tcp_check_timeout s ∨ b = Run_tcp_send_stream s →
  Keeps (pthread_create b) (fun _ => True).
Proof using All.
  intros Hb g w HI. apply safe_done; [done|]. split; [|done]. exact (inv_create g w b HI Hb).
Qed.
Lemma keeps_send pkt : bare_header pkt → Keeps (sendToLayer3 pkt HEADER_LEN) (fun _ => True).
Proof using All.
  intros Hl g w HI. unfold sendToLayer3. change (MAX_LEN <? HEADER_LEN) with false. cbv iota.
  rewrite mem_read_full by (destruct Hl as (? & ? & ? & ? & ? & ->); reflexivity).
  destruct env_host; try done; (apply safe_done; [done|]; split; [|done]; apply inv_send; [done|by right]).
Qed.
Lemma keeps_header u src dst seq ack fl win : src = lp →
  Keeps (lift u (create_packet_buf src dst seq ack HEADER_LEN HEADER_LEN fl win 0 [] 0)) bare_header.
Proof using All.
  intros ->. eapply keeps_weaken; [done|by apply keeps_lift|]. cbv beta. rewrite segment_eq.
  intros ? [= <-]. by do 5 eexists.
Qed.

(** The same, under the other name of the header length. *)
Lemma keeps_send_default pkt :
  bare_header pkt → Keeps (sendToLayer3 pkt DEFAULT_HEADER_LEN) (fun _ => True).
Proof using All. exact (keeps_send pkt). Qed.
Lemma keeps_header_default u src dst seq ack fl win : src = lp →
  Keeps (lift u (create_packet_buf src dst seq ack DEFAULT_HEADER_LEN DEFAULT_HEADER_LEN fl win 0 [] 0))
        bare_header.
Proof using All. exact (keeps_header u src dst seq ack fl win). Qed.

(** A statement that replaces the socket by an updated copy. *)
Lemma keeps_update {A} u f (k : tju_tcp_t → M A) (φ : A → Prop) :
  (∀ x y, f x = Some y → same_transport x y) → (∀ y, Keeps (k y) φ) →
  Keeps (x ← load_sock s; y ← lift u (f x); store s y;; k y) φ.
Proof using All.
  intros Hf Hk g w HI. unfold mbind, M_bind, load. rsimpl.
  destruct (w_socks w !! s) as [x|] eqn:Hx; [|done]. cbn.
  destruct (f x) as [y|] eqn:Hy; [|done]. cbn. unfold store. rsimpl. rewrite Hx. cbn.
  apply Hk. apply (inv_sock _ _ _ x); auto.
Qed.

(** The mutexes of the socket and of the timer. *)
Lemma keeps_lock_sock p f `{!Setter f} :
  (∀ x, same_transport x (set_field f (fun _ => true) x)) →
  Keeps (pthread_mutex_lock (T := tju_tcp_t) p f) (fun _ => True).
Proof using All. intros Hf. apply keeps_lock; [done|]. by apply keeps_modify_sock. Qed.
Lemma keeps_unlock_sock p f `{!Setter f} :
  (∀ x, same_transport x (set_field f (fun _ => false) x)) →
  Keeps (pthread_mutex_unlock (T := tju_tcp_t) p f) (fun _ => True).
Proof using All. intros Hf. apply keeps_unlock; [done|]. by apply keeps_modify_sock. Qed.
Lemma keeps_lock_timer p f `{!Setter f} :
  Keeps (pthread_mutex_lock (T := rtt_timer_t) p f) (fun _ => True).
Proof using All. apply keeps_lock; [done|]. apply keeps_modify_timer. Qed.
Lemma keeps_unlock_timer p f `{!Setter f} :
  Keeps (pthread_mutex_unlock (T := rtt_timer_t) p f) (fun _ => True).
Proof using All. apply keeps_unlock; [done|]. apply keeps_modify_timer. Qed.

#[local] Hint Resolve PreOrder0 : keep.
#[local] Hint Extern 1 (bare_header _) => assumption : keep.
#[local] Hint Extern 1 (port _ = lp) => assumption : keep.
#[local] Hint Extern 1 (same_transport _ _) => split_and!; first [reflexivity | by left | by right] : keep.
#[local] Hint Extern 1 (∀ _, same_transport _ _) =>
  intros ?; split_and!; first [reflexivity | by left | by right] : keep.
#[local] Hint Extern 1 (apart (Some _)) =>
  first [assumption | match goal with E : ?o = Some _, A : apart ?o |- _ => rewrite <- E; exact A end]
  : keep.
#[local] Hint Extern 1 (send_windows _ = _ ∧ _) => done : keep.
#[local] Hint Extern 1 (Run_tcp_check_timeout _ = _ ∨ _) => by left : keep.
#[local] Hint Resolve keeps_load_s keeps_modify_sock keeps_modify_snd keeps_modify_rcv keeps_modify_timer
  keeps_store_timer keeps_free_sock keeps_free_buf keeps_malloc keeps_realloc keeps_copy_in
  keeps_copy_out keeps_copy_within keeps_create keeps_send keeps_header keeps_send_default
  keeps_header_default keeps_lock_sock keeps_unlock_sock keeps_lock_timer keeps_unlock_timer : keep.

Lemma keeps_stop_timer : Keeps (tcp_stop_timer s) (fun _ => True).
Proof using All. unfold tcp_stop_timer. keep. Qed.
#[local] Hint Resolve keeps_stop_timer : keep.
Lemma keeps_start_timer : Keeps (tcp_start_timer s) (fun _ => True).
Proof using All. unfold tcp_start_timer. keep. Qed.
#[local] Hint Resolve keeps_start_timer : keep.
Lemma keeps_send_ack : Keeps (tcp_send_ack s) (fun _ => True).
Proof using All. unfold tcp_send_ack. keep. Qed.
Lemma keeps_send_fin_ack : Keeps (tcp_send_fin_ack s) (fun _ => True).
Proof using All. unfold tcp_send_fin_ack. keep. Qed.
Lemma keeps_send_syn : Keeps (tcp_send_syn s) (fun _ => True).
Proof using All. unfold tcp_send_syn. keep. Qed.
Lemma keeps_send_syn_ack : Keeps (tcp_send_syn_ack s) (fun _ => True).
Proof using All. unfold tcp_send_syn_ack. keep. Qed.
Lemma keeps_back_only_header : Keeps (back_only_header s) (fun _ => True).
Proof using All. unfold back_only_header. keep. Qed.
#[local] Hint Resolve keeps_send_ack keeps_send_fin_ack keeps_send_syn keeps_send_syn_ack
  keeps_back_only_header : keep.

Lemma keeps_if_timer (b : bool) : Keeps (if b then tcp_start_timer s else mret tt) (fun _ => True).
Proof using All. keep. Qed.

(** The receive path. *)
Lemma keeps_update_expected_seq pkt : Keeps (tcp_update_expected_seq s pkt) (fun _ => True).
Proof using All. unfold tcp_update_expected_seq. keep. Qed.
#[local] Hint Resolve keeps_update_expected_seq : keep.

Lemma keeps_store_payload pkt : Keeps (store_payload s pkt) (fun _ => True).
Proof using All.
  unfold store_payload. keep1. keep1. keep1.
  eapply (keeps_bind _ _ _ _ _ apart); [|intros buf Hbuf].
  - keep.
  - keep.
Qed.
#[local] Hint Resolve keeps_store_payload : keep.

(** The congestion handlers leave the transport fields alone. *)
Lemma same_transport_success x y : handle_success_ack x = Some y → same_transport x y.
Proof using.
  unfold handle_success_ack. intros Hy.
  repeat case_match; opt_inv; repeat case_match; simplify_eq; split_and!; first [reflexivity|by left].
Qed.
Lemma same_transport_loss x y : handle_loss_ack x = Some y → same_transport x y.
Proof using.
  unfold handle_loss_ack. intros Hy.
  repeat case_match; opt_inv; repeat case_match; simplify_eq; split_and!; first [reflexivity|by left].
Qed.

Lemma keeps_handle_ack pkt : Keeps (handle_ack s pkt) (fun _ => True).
Proof using All.
  unfold handle_ack. apply keeps_update; [apply same_transport_success|]. intros y. keep.
Qed.
Lemma keeps_handle_data pkt seq : Keeps (handle_data s pkt seq) (fun _ => True).
Proof using All. unfold handle_data. keep. Qed.
#[local] Hint Resolve keeps_handle_ack keeps_handle_data : keep.
Lemma keeps_tju_handle_packet pkt : Keeps (tju_handle_packet s pkt) (fun _ => True).
Proof using All. unfold tju_handle_packet. keep. Qed.
Lemma keeps_state_close pkt : Keeps (tcp_state_close s pkt) (fun _ => True).
Proof using All. unfold tcp_state_close. keep. Qed.
Lemma keeps_client_establish pkt a : Keeps (client_establish s pkt a) (fun _ => True).
Proof using All. unfold client_establish. keep. Qed.
#[local] Hint Resolve keeps_tju_handle_packet keeps_state_close keeps_client_establish : keep.
Lemma keeps_rcv_state_client pkt a : Keeps (tcp_rcv_state_client s pkt a) (fun _ => True).
Proof using All. unfold tcp_rcv_state_client. keep. Qed.
#[local] Hint Resolve keeps_rcv_state_client : keep.
Lemma keeps_close : Keeps (tcp_close s) (fun _ => True).
Proof using All. unfold tcp_close. keep. Qed.
Lemma keeps_recv len : Keeps (tcp_recv s len) (fun _ => True).
Proof using All. unfold tcp_recv. keep. Qed.
#[local] Hint Resolve keeps_close keeps_recv : keep.

(** ** Retransmission and the timer thread

    The segment is built before [tcp_start_timer] may wait, and sent after it:
    the stream has only grown meanwhile. *)

Context (Hrely : ∀ g g' w, rely g g' w → g_stream g `prefix_of` g_stream g').
Context (Hguar : ∀ g g', guar g g' → g_stream g `prefix_of` g_stream g').

(** The segment that carries [d] at offset [n] of the stream. *)
Lemma stream_piece_ok S dst n win d :
  0 <= n < 2 ^ 32 → mem_read S n (blen d) = Some d → Forall is_byte d →
  DEFAULT_HEADER_LEN + blen d < 2 ^ 16 → stream_piece S (data_segment lp dst n NO_FLAG win d).
Proof using. intros Hn Hr Hb Hl. by exists dst, n, win, d. Qed.

Lemma safe_send g w pkt len :
  sender_inv g w → stream_piece (g_stream g) pkt → blen pkt = len →
  safe sender_inv rely guar (fun _ g w => sender_inv g w ∧ True) g (sendToLayer3 pkt len w).
Proof using PreOrder0.
  intros HI Hp Hl. unfold sendToLayer3. destruct (MAX_LEN <? len); [by apply safe_done; [done|]|].
  rewrite mem_read_full by done.
  destruct env_host; try done; (apply safe_done; [done|]; split; [|done]; apply inv_send; [done|by left]).
Qed.

Lemma safe_start_timer g w :
  sender_inv g w →
  safe sender_inv rely guar
    (fun _ g' w' => g_stream g `prefix_of` g_stream g' ∧ sender_inv g' w' ∧ True) g (tcp_start_timer s w).
Proof using All.
  intros HI. apply safe_frame; [done| | |done|by apply keeps_start_timer].
  - intros g1 g2 Hp Hg. etrans; [exact Hp|]. by apply Hguar.
  - intros g1 g2 w2 Hp Hg. etrans; [exact Hp|]. by eapply Hrely.
Qed.

Lemma safe_retransmit g w :
  sender_inv g w → g_started g = true →
  safe sender_inv rely guar (fun _ g w => sender_inv g w ∧ True) g (tcp_retransmit_timer s w).
Proof using All.
  intros HI Hst. unfold tcp_retransmit_timer.
  destruct (w_socks w !! s) as [sock|] eqn:Hs; [|by erewrite bind_undef by (by apply load_bad)].
  pose proof (ss_window _ _ _ (si_socks _ _ HI _ Hs)) as Hws.
  pose proof (ss_port _ _ _ (si_socks _ _ HI _ Hs)) as Hpt.
  destruct (si_snd _ _ HI) as (snd & Hsnd & Hwb & Hn). specialize (Hn Hst). destruct (si_window _ _ HI) as (rest & Hbuf & Hsz).
  run. rewrite Hws. erewrite bind_done by (apply load_ok; exact Hsnd).
  set (len := i32 _). destruct (Z.ltb_spec len 0) as [|H0]; [done|].
  destruct (Z.ltb_spec MAX_LEN len) as [|Hmax]; [done|]. rewrite Hwb.
  destruct (mem_read (g_stream g ++ rest) (base snd) len) as [d|] eqn:Hd.
  2: { unfold copy_out. erewrite bind_undef; [done|]. erewrite bind_done by (by apply load_ok).
       by rewrite Hd. }
  erewrite bind_done by (eapply copy_out_ok; [exact Hbuf|exact Hd]).
  pose proof (mem_read_length _ _ _ _ Hd) as Hdl. pose proof Hd as (Hb0 & _ & Hble & _)%mem_read_Some.
  pose proof (si_mid _ _ HI) as Hmid. rewrite blen_app in *. pose proof (blen_nonneg rest).
  assert (len = nextseq snd - base snd) as Hlen.
  { unfold len. rewrite i32_u32, i32_id; [done|]. unfold is_int, TCP_SEND_WINDOW_SIZE, MAX_DLEN in *. lia. }
  rewrite mem_read_prefix in Hd by lia.
  assert (Forall is_byte d) as Hby.
  { apply mem_read_Some in Hd as (_ & _ & _ & ->). by apply Forall_take, Forall_drop, (si_bytes _ _ HI). }
  assert (DEFAULT_HEADER_LEN + blen d < 2 ^ 16) as Hsmall
    by (unfold DEFAULT_HEADER_LEN, MAX_LEN in *; lia).
  rewrite <- Hdl. erewrite bind_done by (by apply lift_ok, data_segment_eq).
  eapply safe_bind; [done|by apply safe_start_timer|]. intros [] g' w' (Hpre & HI' & _).
  apply safe_send; [done| |].
  - rewrite Hpt. apply (stream_piece_grows _ _ _ Hpre), stream_piece_ok; try done; [|by rewrite Hdl].
    unfold TCP_SEND_WINDOW_SIZE, MAX_DLEN in *. lia.
  - rewrite data_segment_length, u16_id; [done|]. unfold is_u16, DEFAULT_HEADER_LEN in *.
    pose proof (blen_nonneg d). lia.
Qed.

(** A timer runs before [nextseq] is set only while the connection is not
    established: there would be something to retransmit otherwise. *)
Definition timer_may (g : ghost) (w : world) : Prop :=
  g_started g = true ∨ ∀ sock, w_socks w !! s = Some sock → state sock ≠ ESTABLISHED.

Abbreviation Runs := (fun o g => safe sender_inv rely guar (fun _ g w => sender_inv g w ∧ True) g o).

Lemma safe_write_timer_handler g w :
  sender_inv g w → timer_may g w → Runs (tcp_write_timer_handler s w) g.
Proof using All.
  intros HI Hmay. unfold tcp_write_timer_handler, mbind at 1, M_bind, load. rsimpl.
  destruct (w_socks w !! s) as [sock|] eqn:Hs; [|done]. cbn [obind].
  assert (∀ m : M unit, Keeps m (fun _ => True) → Runs (m w) g) as Hk by (intros m Hm; by apply Hm).
  destruct (state sock =? SYN_SENT); [apply Hk; keep|].
  destruct (state sock =? SYN_RECV); [apply Hk; keep|].
  destruct (Z.eqb_spec (state sock) ESTABLISHED) as [Hest|]; [|apply Hk; keep].
  assert (g_started g = true) as Hst by (destruct Hmay as [|Hn]; [done|by destruct (Hn sock)]).
  destruct (finished_handshake sock =? 0); [apply Hk; keep|].
  destruct (RETRANSMIT_LIMIT <? timeout_counts sock); [apply Hk; unfold tcp_outlimit_retransmit; keep|].
  destruct (handle_loss_ack sock) as [y|] eqn:Hy; [|done].
  unfold lift. erewrite bind_done by reflexivity.
  erewrite bind_done by (eapply store_ok; exact Hs).
  erewrite bind_done by (eapply modify_ok; apply lookup_insert_eq). cbn [heap_upd heap_socks].
  apply safe_retransmit; [|done]. apply (inv_sock _ _ _ y); [|apply lookup_insert_eq|by split_and!; first [reflexivity|by left]].
  apply (inv_sock _ _ _ sock); [done|done|]. by apply same_transport_loss.
Qed.

Lemma safe_check_timeout_loop (Hmay : ∀ g g' w, rely g g' w → timer_may g' w) fuel t cur g w :
  sender_inv g w → timer_may g w → Runs (check_timeout_loop fuel s t cur w) g.
Proof using All.
  revert g w. induction fuel as [|fuel IH]; intros g w HI Hm; cbn [check_timeout_loop]; [done|].
  erewrite bind_done by reflexivity.
  destruct (w_socks w !! s) as [sock|] eqn:Hs.
  2: { destruct (before_timeout _ _ _); by erewrite bind_undef by (by apply load_bad). }
  destruct (before_timeout _ _ _).
  - run. destruct (interrupt_signal sock =? 1).
    + match goal with |- safe _ _ _ _ _ (?m w) => assert (Keeps m (fun _ => True)) as Hk by keep end. by apply Hk.
    + unfold mbind, M_bind, sleep, await.
      destruct (w_clock w + 1 <=? w_clock w); [by apply IH|].
      exists g. split; [done|]. split; [done|]. intros g2 w2 Hr HI2 _. apply IH; [done|by eapply Hmay].
  - run. destruct (w_timers w !! rtt_timer sock) as [r|] eqn:Hr; [|by erewrite bind_undef by (by apply load_bad)].
    run. destruct (callback r). by apply safe_write_timer_handler.
Qed.
Lemma safe_check_timeout (Hmay : ∀ g g' w, rely g g' w → timer_may g' w) g w :
  sender_inv g w → timer_may g w → Runs (tcp_check_timeout s w) g.
Proof using All.
  intros HI Hm. unfold tcp_check_timeout.
  destruct (w_socks w !! s) as [sock|] eqn:Hs; [|by erewrite bind_undef by (by apply load_bad)].
  run. destruct (w_timers w !! rtt_timer sock) as [r|] eqn:Hr; [|by erewrite bind_undef by (by apply load_bad)].
  run. by apply safe_check_timeout_loop.
Qed.

(** ** The receive thread and the client *)

Lemma keeps_closing p fin test :
  (∀ q, p = Some q → q = s) → Keeps (closing p fin test) (fun b => b = true → p = Some s).
Proof using All.
  intros Hp. destruct p as [q|]; cbn [closing]; [|by apply keeps_ret].
  rewrite (Hp q eq_refl). destruct fin; [by apply keeps_ret|].
  eapply keeps_bind; [done|by apply keeps_load_s|]. intros. by apply keeps_ret.
Qed.

Lemma keeps_dispatch (Hhost : env_host = Host_client) pkt rport lport :
  Keeps (dispatch pkt rport lport) (fun _ => True).
Proof using All.
  intros g w HI. destruct (si_manager _ _ HI) as (m & Hm & Hsv & Hc). unfold dispatch, host_addresses.
  rewrite Hhost. unfold lift at 1. erewrite bind_done by reflexivity. cbv beta iota.
  erewrite bind_done by (by apply get_tcp_manager_ok). rewrite Hsv. cbn [negb Z.eqb].
  match goal with |- safe _ _ _ _ _ (?m w) =>
    enough (Keeps m (fun _ => True)) as Hk by (by apply Hk) end.
  clear - Hc PreOrder0 Hrely Hguar.
  do 3 keep1. eapply keeps_bind; [done|by apply keeps_array_get|]. intros csock Hcs.
  do 2 keep1. apply (keeps_bind _ _ _ _ _ (fun b => b = false)); [by apply keeps_ret|]. intros ? ->.
  destruct csock as [c|]; [rewrite (Hc c Hcs) in *; clear Hc Hcs|].
  2: { apply (keeps_bind _ _ _ _ _ (fun b => b = false)); [by apply keeps_ret|]. intros ? ->.
    apply (keeps_bind _ _ _ _ _ (fun _ => False)); [|done].
    apply (keeps_bind _ _ _ _ _ (fun _ => False)); [|done]. by apply keeps_undef. }
  eapply keeps_bind; [done|apply keeps_closing; by intros ? [= <-]|]. intros [] _.
  - unfold lift. eapply keeps_bind; [done|by apply (keeps_ret _ _ _ s (fun x => x = s))|].
    intros ? ->. keep.
  - apply (keeps_bind _ _ _ _ _ (fun d => d = None ∨ d = Some s)).
    + unfold lift. eapply keeps_bind; [done|by apply (keeps_ret _ _ _ s (fun x => x = s))|].
      intros ? ->. keep1. apply keeps_ret; [done|]. destruct (_ =? _); [by right|by left].
    + intros direct Hd. destruct direct as [d|]; [|destruct a0; keep].
      assert (d = s) as -> by (destruct Hd; congruence). keep.
Qed.
#[local] Hint Resolve keeps_dispatch : keep.

Lemma keeps_onTCPPocket (Hhost : env_host = Host_client) pkt : Keeps (onTCPPocket pkt) (fun _ => True).
Proof using All. unfold onTCPPocket. keep. Qed.

End sender.

(** ** The send thread

    It is the only thread that gives bytes a sequence number: while it waits the
    others leave the stream alone. *)

Section send_thread.
Context `{Env} (s ws sb wb : loc) (lp : Z).

Abbreviation Inv := (sender_inv s ws sb wb lp).

Definition rely_send (g g' : ghost) : Prop :=
  g_stream g' = g_stream g ∧ g_mid g' = g_mid g ∧ (g_started g = true → g_started g' = true).
Abbreviation Rely := (when rely_send (fun _ _ => True)).
Definition guar_send (g g' : ghost) : Prop :=
  g_stream g `prefix_of` g_stream g' ∧ g_accepted g' = g_accepted g ∧ g_started g' = g_started g.

#[export] Instance guar_send_preorder : PreOrder guar_send.
Proof.
  split; [by split|]. intros g1 g2 g3 (? & ? & ?) (? & ? & ?). split_and!; [by etrans|congruence..].
Qed.

Lemma send_frame {A} (Q : A → ghost → world → Prop) g (o : outcome A) :
  safe Inv Rely eq Q g o →
  safe Inv Rely guar_send
    (fun a g' w' => rely_send g g' ∧ Q a g' w') g o.
Proof using.
  intros Ho. apply (safe_relax _ _ eq); [by intros ? ? <-|].
  apply (safe_frame _ _ _ (rely_send g)); [| |done|exact Ho].
  - by intros ? ? ? <-.
  - intros g1 g2 w2 (E1 & E2 & E5) [(E3 & E4 & E6) _]. split_and!; [congruence..|auto].
Qed.
Abbreviation Idle := (fun (_ : unit) (g : ghost) (w : world) => Inv g w ∧ g_mid g = 0).

Lemma send_keeps_idle (m : M unit) g w :
  keeps Inv Rely eq m (fun _ => True) → Inv g w → g_mid g = 0 →
  safe Inv Rely guar_send Idle g (m w).
Proof using.
  intros Hm HI H0. eapply safe_weaken; [apply _|by apply send_frame, Hm|].
  intros _ g' w' ((_ & E & _) & HI' & _). split; [done|]. by rewrite E.
Qed.

(** From the open window to the end: copy, segment, timer, [nextseq]. *)
Definition send_piece (sock : loc) (snd : sender_window_t) (x : tju_tcp_t) (buf : list Z) : M unit :=
  let len := blen buf in
  let plen := u16 (DEFAULT_HEADER_LEN + len) in
  copy_in (send_windows snd) (nextseq snd) buf;;
  msg ← lift OutOfBounds (create_packet_buf (port (established_local_addr x))
    (port (established_remote_addr x)) (nextseq snd) 0 DEFAULT_HEADER_LEN plen NO_FLAG
    (u16 (TCP_RECV_BUFFER_SIZE - received_len x)) 0 buf len);
  sendToLayer3 msg plen;;
  (if nextseq snd =? base snd then tcp_start_timer s else mret tt);;
  modify sock (fun r => r⟨nextseq := u32 (nextseq r + len)⟩).

Lemma stream_packet_cut S p dst win msg :
  Forall is_byte p → blen (S ++ p) < 2 ^ 32 →
  create_packet_buf lp dst (blen S) 0 DEFAULT_HEADER_LEN (u16 (DEFAULT_HEADER_LEN + blen p)) NO_FLAG
    win 0 p (blen p) = Some msg →
  stream_piece lp (S ++ p) msg ∧ blen msg = u16 (DEFAULT_HEADER_LEN + blen p).
Proof using.
  intros Hb Hlen Hmsg. rewrite blen_app in Hlen. pose proof (blen_nonneg S). pose proof (blen_nonneg p).
  assert (∃ d, d `prefix_of` p ∧ DEFAULT_HEADER_LEN + blen d < 2 ^ 16 ∧
            u16 (DEFAULT_HEADER_LEN + blen p) = DEFAULT_HEADER_LEN + blen d ∧
            msg = data_segment lp dst (blen S) NO_FLAG win d) as (d & [r ->] & Hd & Hu & ->).
  { destruct (Z.ltb_spec (DEFAULT_HEADER_LEN + blen p) (2 ^ 16)).
    - exists p. rewrite data_segment_eq in Hmsg by done. injection Hmsg as <-.
      split_and!; [done|done| |done]. apply u16_id. unfold is_u16, DEFAULT_HEADER_LEN in *. lia.
    - by apply create_packet_buf_cut. }
  apply Forall_app in Hb as [Hb _]. rewrite data_segment_length, Hu. split; [|done].
  apply stream_piece_ok; [lia| |done|done].
  rewrite app_assoc, mem_read_prefix by (rewrite blen_app; lia). by apply mem_read_tail.
Qed.

Lemma safe_send_piece g w snd x p :
  Inv g w → g_mid g = 0 → g_started g = true → port (established_local_addr x) = lp → w_snds w !! ws = Some snd → Forall is_byte p →
  g_stream g ++ p `sublist_of` g_accepted g →
  (∀ sock, w_socks w !! s = Some sock → sending_len sock = 0) →
  safe Inv Rely guar_send Idle g (send_piece ws snd x p w).
Proof using.
  intros HI Hmid Hst Hpt Hsnd Hp Hsub Hlen. unfold send_piece. rewrite Hpt.
  destruct (si_snd _ _ _ _ _ _ _ HI) as (snd' & Hsnd' & Hwb & Hn).
  assert (snd' = snd) as -> by congruence. specialize (Hn Hst). rewrite Hmid, Z.add_0_r in Hn.
  destruct (si_window _ _ _ _ _ _ _ HI) as (rest & Hwin & Hsz). rewrite Hwb, Hn.
  destruct (mem_write (g_stream g ++ rest) (blen (g_stream g)) p) as [swin|] eqn:Hwr.
  2: { unfold copy_in. erewrite bind_undef; [done|]. erewrite bind_done by (by apply load_ok).
       by rewrite Hwr. }
  erewrite bind_done by (by eapply copy_in_ok). set (w1 := w⟨w_bufs := _⟩).
  pose proof (inv_extend _ _ _ _ _ _ _ _ _ _ HI Hmid Hst Hwin Hlen Hwr Hp Hsub) as HI1.
  set (g1 := mk_ghost _ _ _ _) in HI1. fold w1 in HI1.
  apply (safe_guar _ _ _ _ _ g1); [split_and!; [by eexists|done|done]|].
  assert (blen (g_stream g ++ p) < 2 ^ 32) as Hsmall.
  { apply mem_write_Some in Hwr as (_ & Hle & _). rewrite Hsz in Hle. rewrite blen_app.
    unfold TCP_SEND_WINDOW_SIZE, MAX_DLEN in *. lia. }
  destruct (create_packet_buf _ _ _ _ _ _ _ _ _ _ _) as [msg|] eqn:Hmsg; [|done].
  apply stream_packet_cut in Hmsg as [Hseg Hl]; [|done..].
  unfold lift. erewrite bind_done by reflexivity.
  eapply safe_bind; [apply _|apply send_frame, (safe_send s ws sb wb lp Rely eq); done|]. intros [] g2 w2 ((E2 & M2 & St2) & HI2 & _).
  eapply safe_bind; [apply _| |].
  { eapply send_frame, (keeps_if_timer _ _ _ _ _ _ eq (blen (g_stream g) =? base snd)), HI2. }
  intros [] g3 w3 ((E3 & M3 & St3) & HI3 & _).
  destruct (si_snd _ _ _ _ _ _ _ HI3) as (snd3 & Hsnd3 & _ & Hn3).
  specialize (Hn3 (St3 (St2 eq_refl))).
  erewrite modify_ok by exact Hsnd3.
  assert (u32 (nextseq snd3 + blen p) = blen (g_stream g3)) as ->.
  { rewrite E3, E2, M3, M2 in *. cbn [g_mid g_stream g1] in *. rewrite Hn3, u32_id; [done|].
    pose proof (blen_nonneg (g_stream g ++ p)). unfold is_u32. lia. }
  exists (mk_ghost (g_stream g3) (g_accepted g3) 0 (g_started g3)). split; [by split|].
  split; [|done]. by apply inv_advance.
Qed.

Lemma safe_send_iteration g w :
  Inv g w → g_mid g = 0 → safe Inv Rely guar_send Idle g (tcp_send_stream_iteration s w).
Proof using.
  intros HI Hmid. unfold tcp_send_stream_iteration.
  destruct (w_socks w !! s) as [sock|] eqn:Hs; [|by erewrite bind_undef by (by apply load_bad)].
  run. eapply (safe_bind _ _ _ Idle).
  2: { intros _ g' w' [HI' H0]. apply send_keeps_idle; [|done|done]. apply (keeps_sleep _ _ eq). }
  destruct (0 <? sending_len sock) eqn:Hpend; [|apply send_keeps_idle; [apply (keeps_sleep _ _ eq)|done|done]].
  assert (g_started g = true) as Hst.
  { destruct (g_started g) eqn:Hst; [done|]. destruct (si_unstarted _ _ _ _ _ _ _ HI Hst) as [_ Hl].
    rewrite (Hl sock Hs) in Hpend. done. }
  clear Hpend.
  eapply safe_bind; [apply _| |].
  { eapply send_frame, (keeps_lock_sock s ws sb wb lp _ eq s send_lock); [|exact HI].
    intros x. split_and!; first [reflexivity|by left]. }
  intros [] g1 w1 ((_ & Hmid1 & Hst1) & HI1 & _). rewrite Hmid in Hmid1. specialize (Hst1 Hst). clear sock Hs.
  destruct (w_socks w1 !! s) as [sock|] eqn:Hs; [|by erewrite bind_undef by (by apply load_bad)].
  destruct (si_socks _ _ _ _ _ _ _ HI1 sock Hs) as [Hws Hsb _ Hpt (p & rest & Hbuf & Hlen & Hp & Hsub)].
  destruct (si_snd _ _ _ _ _ _ _ HI1) as (snd & Hsnd & _ & _).
  run. rewrite Hsb, Hlen.
  erewrite bind_done by (eapply copy_out_ok; [exact Hbuf|by apply (mem_read_app [] p)]).
  rewrite Z.sub_diag. erewrite bind_done by (apply lift_ok; reflexivity).
  change (0 <? 0) with false. cbv iota. run. rewrite Hlen, Z.sub_diag.
  destruct (send_lock sock) eqn:Hlk.
  2: { erewrite bind_undef; [done|]. unfold pthread_mutex_unlock. by run. }
  run. rewrite Hws. erewrite bind_done by (apply load_ok; exact Hsnd).
  set (y := mk_sock _ _ _ _ _ _ _ _ _ _ _ _ _ _ _ _ _ _ _ _ _ _ _ _ _ _ _).
  set (w2 := mk_world _ _ _ _ _ _ _ _ _ _ _ _ _).
  assert (w2 = w1⟨w_socks := <[s := y]> (w_socks w1)⟩) as Ew2 by reflexivity.
  assert (Inv g1 w2) as HI2 by (rewrite Ew2; by apply (inv_take _ _ _ _ _ _ _ sock)).
  assert (w_socks w2 !! s = Some y) as Hy by (rewrite Ew2; apply lookup_insert_eq).
  destruct (_ <? _); [|by apply send_keeps_idle; [apply (keeps_sleep _ _ eq)| |]].
  erewrite bind_done by (apply load_ok; exact Hy).
  destruct (int_result _) as [diff|] eqn:Hdiff; [|done]. apply int_result_Some in Hdiff as [-> _].
  erewrite bind_done by (apply lift_ok; reflexivity). 
  apply (safe_send_piece g1 w2 snd y p); try done. intros sock' Hs'.
  rewrite Hy in Hs'. by injection Hs' as <-.
Qed.

(** ** The application sends *)

Definition g_accept (g : ghost) (data : list Z) : ghost :=
  mk_ghost (g_stream g) (g_accepted g ++ data) (g_mid g) (g_started g).

Lemma g_accept_nil g : g_accept g [] = g.
Proof using. destruct g. unfold g_accept. cbn. by rewrite app_nil_r. Qed.

Lemma inv_accept g w sock y p rest data buf :
  Inv g w → g_started g = true → w_socks w !! s = Some sock → w_bufs w !! sb = Some (p ++ rest) →
  sending_len sock = blen p → Forall is_byte p → g_stream g ++ p `sublist_of` g_accepted g →
  Forall is_byte data → mem_write (p ++ rest) (blen p) data = Some buf →
  same_transport sb wb (sock⟨sending_len := blen (p ++ data)⟩) y →
  Inv (g_accept g data)
    (w⟨w_socks := <[s := y]> (w_socks w)⟩⟨w_bufs := <[sb := buf]> (w_bufs w)⟩).
Proof using.
  intros HI Hst Hs Hbuf Hlen Hp Hsub Hd Hwr (E1 & E2 & E3 & E5 & E4). cbn in E1, E2, E3, E4, E5.
  pose proof (si_distinct _ _ _ _ _ _ _ HI) as Hne.
  destruct (si_socks _ _ _ _ _ _ _ HI sock Hs) as [Hws Hsb Hr Hpt _].
  apply mem_write_Some in Hwr as (_ & _ & Hwr). revert HI.
  intros []. constructor; rsimpl; try done; cbn [g_accept g_stream g_accepted g_mid g_started] in *.
  - intros x [[_ <-]|[? _]]%lookup_insert_Some; [|done]. rsimpl.
    constructor; [congruence|congruence|destruct E4 as [->|]; done|congruence|].
    exists (p ++ data), (drop (length p + length data) (p ++ rest)). rsimpl.
    cbn [g_accept g_stream g_accepted].
    rewrite lookup_insert_eq, E3. split_and!; [|done|by apply Forall_app|].
    + rewrite Hwr. unfold blen. by rewrite Nat2Z.id, take_app_length, app_assoc.
    + rewrite app_assoc. by apply sublist_app.
  - by apply sublist_inserts_r.
  - destruct si_window0 as (r & Hr' & Hl). exists r. by rewrite lookup_insert_ne.
  - by rewrite Hst.
Qed.

(** [tcp_send] accepts all of [data] or nothing. *)
Lemma safe_tcp_send rely guar `{!PreOrder guar} data g w :
  (∀ g g', g_started g = true → guar g g' → g_started g' = true) →
  (∀ g g' w, g_started g = true → rely g g' w → g_started g' = true) →
  Inv g w → g_started g = true → Forall is_byte data →
  safe Inv rely guar (fun r g w => Inv (g_accept g (if r =? 0 then data else [])) w) g
    (tcp_send s data (blen data) w).
Proof using All.
  intros Hg1 Hr1 HI Hst Hd. unfold tcp_send. rewrite mem_read_full by done.
  erewrite bind_done by (apply lift_ok; reflexivity).
  eapply safe_bind; [apply _| |].
  { eapply (safe_frame _ _ _ (fun g => g_started g = true)); [exact Hg1|exact Hr1|exact Hst|].
    eapply (keeps_lock_sock s ws sb wb lp _ _ s send_lock); [|exact HI].
    intros x. split_and!; first [reflexivity|by left]. }
  intros [] g1 w1 (Hst1 & HI1 & _). clear g w HI Hst. rename g1 into g, w1 into w, HI1 into HI, Hst1 into Hst.
  destruct (w_socks w !! s) as [sock|] eqn:Hs; [|by erewrite bind_undef by (by apply load_bad)].
  destruct (si_socks _ _ _ _ _ _ _ HI sock Hs) as [Hws Hsb Hr Hpt (p & rest & Hbuf & Hlen & Hp & Hsub)].
  run. rewrite Hlen. destruct (int_result _) as [total|] eqn:Ht; [|done].
  apply int_result_Some in Ht as [-> _]. erewrite bind_done by (apply lift_ok; reflexivity).
  destruct (_ <=? _).
  - rewrite Hsb. destruct (mem_write (p ++ rest) (blen p) data) as [buf|] eqn:Hwr.
    2: { erewrite bind_undef; [done|]. unfold copy_in. erewrite bind_done by (apply load_ok; exact Hbuf).
         by rewrite Hwr. }
    erewrite bind_done by (eapply copy_in_ok; [exact Hbuf|exact Hwr]). run.
    destruct (send_lock sock) eqn:Hlk.
    2: { erewrite bind_undef; [done|]. unfold pthread_mutex_unlock. by run. }
    run. apply safe_done; [done|]. change (0 =? 0) with true. cbv iota.
    eapply (inv_accept g w sock _ p rest data buf); try done.
    split_and!; [done|done|by cbn; rewrite blen_app|done|by left].
  - apply safe_done; [done|]. change (-1 =? 0) with false. cbv iota. by rewrite g_accept_nil.
Qed.

End send_thread.
