(* ===== verification/System.v ===== *)
(** * The client host, all threads together

    The application of src/app/client.c connects and sends; a scheduler runs its
    thread, the receive thread, the send thread and the timer threads in any
    order, while datagrams of any content arrive.  Every state it reaches
    satisfies the invariant of Sender.v, and the bytes a peer takes from it are a
    prefix of one stream. *)

From S2P Require Import Prelude Consts CFloat Packet Machine Threads Control Timer Transfer TimerThread.
From S2P Require Import Kernel Api Host Sender Samples.

(** ** The threads in parallel *)

Section parallel.
Context `{Env} (s ws sb wb : loc) (lp : Z).

Abbreviation Inv := (sender_inv s ws sb wb lp).

(** Only the application sets [nextseq] at the start, and only the send thread gives
    bytes a sequence number. *)
Definition client_rely (t : task_id) (g g' : ghost) : Prop :=
  match t with
  | T_send => rely_send g g'
  | T_app => g_stream g `prefix_of` g_stream g' ∧ g_started g' = g_started g
  | _ => g_stream g `prefix_of` g_stream g'
  end.
Definition guar_app (g g' : ghost) : Prop :=
  g_stream g' = g_stream g ∧ g_accepted g' = g_accepted g ∧ g_mid g' = g_mid g ∧
  (g_started g = true → g_started g' = true).
Definition client_guar (t : task_id) (g g' : ghost) : Prop :=
  match t with T_send => guar_send g g' | T_app => guar_app g g' | _ => g = g' end.
(** The timers run while there is no connection, and once [tcp_connect] is done. *)
Definition client_may (t : task_id) (g : ghost) (w : world) : Prop :=
  match t with T_timer _ => timer_may s g w | _ => True end.
Definition client_finish (t : task_id) (x : io) (g g' : ghost) : Prop :=
  match t with
  | T_app => g' = g_accept g (io_sent x) ∧ g_started g = true
  | T_send => x = no_io ∧ g' = g ∧ g_mid g = 0
  | _ => x = no_io ∧ g' = g
  end.
Definition client_idle (t : task_id) (g : ghost) : Prop :=
  match t with T_app => g_started g = true | T_send => g_mid g = 0 | _ => True end.

#[export] Instance guar_app_preorder : PreOrder guar_app.
Proof.
  split; [by split|]. intros g1 g2 g3 (? & ? & ? & ?) (? & ? & ? & ?). split_and!; [congruence..|auto].
Qed.

#[export, refine] Instance client_parallel : Parallel Inv := {|
  pl_rely := client_rely; pl_guar := client_guar; pl_may := client_may; pl_finish := client_finish;
  pl_idle := client_idle;
  pl_log g a _ := g_accepted g = a;
  pl_evolve g g' := g_stream g `prefix_of` g_stream g' ∧ (g_started g = true → g_started g' = true)
|}.
Proof.
  - intros []; cbn; try apply _; (split; [done|by intros ? ? ? -> ?]).
  - split; [by intros ?|]. intros ? ? ? [] []. split; [by etrans|auto].
  - intros g g' []. auto.
  - intros [] g1 g2 g3; cbn; unfold rely_send; intros; destruct_and?; split_and?; try congruence; eauto; by etrans.
  - intros [] g; cbn; unfold rely_send; by split_and?.
  - intros [] g g'; cbn; try done; [by intros [_ ->]|by intros (_ & -> & _)].
  - intros t t' g g' Hne Hg. destruct t; cbn in Hg; try subst g.
    + destruct Hg as (E1 & _ & E3 & E4). destruct t'; cbn; rewrite ?E1; [done|done|by split_and!|done].
    + destruct t'; cbn; unfold rely_send; by split_and?.
    + destruct Hg as (E1 & _ & E3). destruct t'; cbn; by split_and?.
    + destruct t'; cbn; unfold rely_send; by split_and?.
  - intros [] g g' a r; cbn; [by intros (_ & -> & _)|by intros <-|by intros (_ & -> & _)|by intros <-].
  - intros [] g g'; cbn; [by intros (-> & _ & _ & ?)|by intros <-|by intros (? & _ & ->)|by intros <-].
  - intros t t' x g g' Hne Hg. destruct t; cbn in Hg; destruct_and?; subst;
      destruct t'; cbn; unfold rely_send; by split_and?.
  - intros [] x g g'; cbn; try done; [by intros [-> ?]|by intros (_ & -> & ?)].
  - intros [] x g g' a r; cbn; [by intros [-> _] <-|intros; destruct_and?; subst; by rewrite app_nil_r..].
  - intros [] x g g'; cbn; intros; destruct_and?; by subst.
  - intros. by apply inv_self.
  - intros. by apply inv_clock.
  - intros g w th HI. destruct HI as [Hsocks ? ? ? ? ? ? ? ? Hth ? ?]. constructor; rsimpl; try done.
    + intros sock Hs. eapply sender_sock_frame; [|exact (Hsocks _ Hs)]. reflexivity.
    + intros i x Hx. apply lookup_alter_Some in Hx as [(<- & y & Hy & ->)|[_ Hx]];
        [exact (Hth _ y Hy)|exact (Hth _ x Hx)].
Defined.

(** The application sends bytes. *)
Definition event_ok (e : event) : Prop :=
  match e with Ev_call (Call_send data) => Forall is_byte data | _ => True end.

Context (Hhost : env_host = Host_client).

Lemma client_call_safe c g w :
  event_ok (Ev_call c) → Inv g w → g_started g = true → task_safe Inv T_app g (run_call s c w).
Proof using All.
  intros Hc HI Hst. unfold task_safe.
  assert (∀ g g', g_started g = true → guar_app g g' → g_started g' = true) as Hg1 by (intros ? ? ? (_ & _ & _ & ?); auto).
  assert (∀ g g' w, g_started g = true → when (client_rely T_app) (client_may T_app) g g' w → g_started g' = true) as Hr1
    by (intros ? ? ? ? [[_ ->] _]; done).
  assert (∀ A (m : M A) φ, keeps Inv (when (client_rely T_app) (client_may T_app)) guar_app m φ →
    safe Inv (when (client_rely T_app) (client_may T_app)) guar_app
      (fun _ g w => g_started g = true ∧ Inv g w) g (m w)) as Hk.
  { intros A m φ Hm. eapply safe_weaken;
      [apply _|apply (safe_frame _ _ _ (fun g => g_started g = true)); [exact Hg1|exact Hr1|exact Hst|by apply Hm]|].
    by intros a g' w' (? & ? & _). }
  destruct c as [data|len|]; cbn [run_call].
  - eapply safe_bind; [apply _| |].
    { apply (safe_frame _ _ _ (fun g => g_started g = true)); [exact Hg1|exact Hr1|exact Hst|].
      apply (safe_tcp_send s ws sb wb lp); [apply _|exact Hg1|exact Hr1|exact HI|exact Hst|exact Hc]. }
    intros r g' w' [Hst' HI']. apply safe_done; [apply _|]. eexists. by split.
  - eapply safe_bind; [apply _|exact (Hk _ _ _ (keeps_recv s ws sb wb lp _ _ len))|]. intros [r out] g' w' [Hst' HI'].
    apply safe_done; [apply _|]. exists g'. split; [|done]. split; [|done]. symmetry. apply g_accept_nil.
  - eapply safe_bind; [apply _|exact (Hk _ _ _ (keeps_close s ws sb wb lp _ _))|]. intros [] g' w' [Hst' HI'].
    apply safe_done; [apply _|]. exists g'. split; [|done]. split; [|done]. symmetry. apply g_accept_nil.
Qed.

(** From the second message of the handshake to the end of [tcp_connect] the window
    holds a sequence number that nobody has set, and a timer would send from it. *)
Definition settling (sy : system) : bool :=
  negb (sy_ready sy) &&
  match w_socks (sy_world sy) !! s with Some sock => state sock =? ESTABLISHED | None => false end.
Definition timer_event (e : event) : bool :=
  match e with Ev_timer _ | Ev_resume (T_timer _) => true | _ => false end.
Definition client_sched (sy : system) (e : event) : bool := negb (settling sy && timer_event e).

Lemma timer_may_event g sy th e (w := (sy_world sy)⟨w_self := Some th⟩) :
  sys_inv Inv g sy → client_sched sy e = true → timer_event e = true → timer_may s g w.
Proof using.
  intros Hsy Hs He. unfold client_sched in Hs. rewrite He, andb_true_r in Hs. apply negb_true_iff in Hs.
  unfold settling in Hs. destruct (sy_ready sy) eqn:Hrd; [left; exact (sv_ready _ _ _ Hsy Hrd)|].
  right. intros sock Hk. change (w_socks w) with (w_socks (sy_world sy)) in Hk. rewrite Hk in Hs. by apply Z.eqb_neq.
Qed.

Lemma client_step e g sy sy' :
  sys_inv Inv g sy → event_ok e → client_sched sy e = true → exec_event s e sy = Some sy' →
  ∃ g', sys_inv Inv g' sy' ∧ g_stream g `prefix_of` g_stream g'.
Proof using All.
  intros Hsy He Hsch Hx.
  enough (∃ g', sys_inv Inv g' sy' ∧ pl_evolve g g') as (g' & ? & [? _]) by by exists g'. revert Hx.
  pose proof (sv_world _ _ _ Hsy) as HI. destruct e as [c|pkt|th|th|t|n]; cbn [exec_event].
  - apply (start_inv Inv _ _ _ _ _ Hsy). intros HIw Hst. by apply client_call_safe.
  - apply (start_inv Inv _ _ _ _ _ Hsy). intros HIw _. eapply keeps_task; [by intros| |done|done].
    apply (keeps_onTCPPocket s ws sb wb lp _ eq); [by intros ? ? ? []|by intros ? ? <-|done].
  - destruct (w_threads (sy_world sy) !! th) as [[[p|p|] []]|] eqn:Eth; try done.
    destruct (si_threads _ _ _ _ _ _ _ HI _ _ Eth) as [[=]|[[=]|[= ->]]].
    apply (start_inv Inv _ _ _ _ _ Hsy). intros HIw Hm. unfold task_safe.
    eapply safe_bind; [apply _|by apply safe_send_iteration|]. intros [] g' w' [HI' Hm'].
    apply safe_done; [apply _|]. by exists g'.
  - destruct (w_threads (sy_world sy) !! th) as [[[p|p|] []]|] eqn:Eth; try done.
    destruct (si_threads _ _ _ _ _ _ _ HI _ _ Eth) as [[= ->]|[[=]|[=]]].
    apply (start_inv Inv _ _ _ _ _ Hsy). intros HIw _. unfold task_safe. eapply safe_bind; [apply _| |].
    { apply (safe_check_timeout s ws sb wb lp); [apply _|by intros ? ? ? []|by intros ? ? <-|by intros ? ? ? []|exact HIw|].
      by eapply timer_may_event. }
    intros [] g' w' [HI' _]. apply safe_done; [apply _|]. by exists g'.
  - apply (resume_inv Inv s t g sy sy' Hsy). destruct t as [| | |th]; try done. by eapply timer_may_event.
  - exact (tick_inv Inv s n g sy sy' Hsy).
Qed.

End parallel.

(** ** Connecting *)

(** src/app/client.c up to its loop. *)
Definition target_addr : tju_sock_addr := mk_addr server_ip server_port.
Definition client_main `{Env} : M unit :=
  startSimulation true true true;;
  my_socket ← tcp_socket;
  tcp_connect my_socket target_addr;;
  mret tt.

(** The socket is the second object the program allocates. *)
Definition client_loc : loc := 2.

Section connect.
Context `{Env}.

Abbreviation Inv s ws sb wb := (sender_inv s ws sb wb client_port).
Abbreviation App s := (when (client_rely T_app) (client_may s T_app)).

(** A statement of [tcp_connect] before its last one. *)
Lemma connecting_step {A B} s ws sb wb g w (m : M A) (f : A → M B) (φ : A → Prop) Q :
  keeps (Inv s ws sb wb) (App s) eq m φ → Inv s ws sb wb g w → g_started g = false →
  (∀ a g w, φ a → Inv s ws sb wb g w → g_started g = false → safe (Inv s ws sb wb) (App s) guar_app Q g (f a w)) →
  safe (Inv s ws sb wb) (App s) guar_app Q g ((m ≫= f) w).
Proof using.
  intros Hm HI Hst Hf.
  eapply (safe_bind _ _ _ (fun a g w => g_started g = false ∧ Inv s ws sb wb g w ∧ φ a));
    [|by intros a g' w' (? & ? & ?); auto].
  apply (safe_relax _ _ eq); [by intros ? ? <-|].
  apply (safe_frame _ _ _ (fun g => g_started g = false)); [by intros ? ? ? <-| |done|by apply Hm].
  intros ? ? ? ? [[_ E] _]. congruence.
Qed.

(** The statements of [tcp_connect]. *)
Lemma keeps_client_manager s ws sb wb rely :
  keeps (Inv s ws sb wb) rely eq get_tcp_manager
    (fun m => is_server m = 0 ∧ ∀ p, Some p ∈ connect_sock m → p = s).
Proof using.
  intros g w HI. destruct (si_manager _ _ _ _ _ _ _ HI) as (m & Hm & Hsv).
  unfold get_tcp_manager. rewrite Hm. by apply safe_done; [apply _|].
Qed.
Lemma keeps_set_manager s ws sb wb rely m :
  is_server m = 0 → (∀ p, Some p ∈ connect_sock m → p = s) →
  keeps (Inv s ws sb wb) rely eq (set_tcp_manager m) (fun _ => True).
Proof using. intros H1 H2 g w HI. apply safe_done; [apply _|]. split; [by apply inv_manager|done]. Qed.
Lemma keeps_enter s ws sb wb rely l h :
  (∀ p, Some p ∈ l → p = s) →
  keeps (Inv s ws sb wb) rely eq (array_set l h (Some s)) (fun l' => ∀ p, Some p ∈ l' → p = s).
Proof using.
  intros Hl. unfold array_set. destruct (_ && _); [|by intros g w HI].
  intros g w HI. apply safe_done; [apply _|]. split; [done|].
  intros p [i Hi]%list_elem_of_lookup. revert Hi.
  intros [(_ & [= ->] & _)|[_ Hi]]%list_lookup_insert_Some; [done|]. by eapply Hl, list_elem_of_lookup_2.
Qed.
Lemma keeps_load_client s ws sb wb rely :
  keeps (Inv s ws sb wb) rely eq (load_sock s) (fun x => wnd_send x = ws).
Proof using.
  apply keeps_load_with; [apply _|]. intros g w x HI Hx. by destruct (si_socks _ _ _ _ _ _ _ HI x Hx).
Qed.

Tactic Notation "step" uconstr(lem) :=
  eapply connecting_step; [eapply lem|done|done|];
  match goal with HI : sender_inv _ _ _ _ _ ?g ?w, Hg : g_started ?g = false |- _ => clear g w HI Hg end.

(** [tcp_connect] after its last statement that waits. *)
Lemma connect_established s ws sb wb g w :
  Inv s ws sb wb g w → g_started g = false →
  safe (Inv s ws sb wb) (App s) guar_app (fun _ g w => Inv s ws sb wb g w ∧ g_started g = true) g
    (finish_connect s (mk_addr client_ip client_port) w).
Proof using All.
  intros HI Hst. unfold finish_connect. cbn [ip port].
  step keeps_create; [apply _|by right|]. intros th g w _ HI Hst.
  step keeps_modify_sock; [apply _|intros ?; split_and!; first [reflexivity|by left]|]. intros [] g w _ HI Hst.
  step keeps_preempt; [apply _|]. intros [] g w _ HI Hst.
  step keeps_load; [apply _|]. intros x g w _ HI Hst.
  step keeps_lift; [apply _|]. intros h g w _ HI Hst.
  step keeps_client_manager. intros m g w [Hsv Hc] HI Hst.
  step keeps_enter; [done|]. intros cs g w Hcs HI Hst.
  step keeps_set_manager; [done|done|]. intros [] g w _ HI Hst.
  step keeps_preempt; [apply _|]. intros [] g w _ HI Hst.
  step keeps_load; [apply _|]. intros y g w _ HI Hst.
  step keeps_modify_rcv; [apply _|]. intros [] g w _ HI Hst.
  step keeps_preempt; [apply _|]. intros [] g w _ HI Hst.
  step keeps_load; [apply _|]. intros z g w _ HI Hst.
  step keeps_modify_snd; [apply _|done|]. intros [] g w _ HI Hst.
  step keeps_preempt; [apply _|]. intros [] g w _ HI Hst.
  step keeps_load_client. intros sock g w Hws HI Hst. rewrite Hws.
  destruct (si_snd _ _ _ _ _ _ _ HI) as (snd & Hsnd & _ & _).
  erewrite bind_done by (by eapply modify_ok).
  apply safe_done_at with (mk_ghost [] (g_accepted g) 0 true); [apply _| |].
  - destruct (si_unstarted _ _ _ _ _ _ _ HI Hst) as [HS _]. pose proof (si_mid _ _ _ _ _ _ _ HI) as Hmid.
    rewrite HS in Hmid. change (blen []) with 0 in Hmid. split_and!; cbn; [done|done|lia|done].
  - split; [|done]. by apply (inv_start _ _ _ _ _ _ _ snd).
Qed.

(** The new socket, once [tcp_connect] has filled it in. *)
Lemma connecting_inv w0 w1 w2 s sock snd rcv r b y m :
  w2 = w1⟨w_socks := <[s := y]> (w_socks w1)⟩⟨w_manager := Some m⟩ →
  new_socket w0 w1 s sock snd rcv r b →
  w_socks w0 = ∅ → w_sent w0 = [] → (∀ th x, w_threads w0 !! th = Some x → x = mk_thread Run_receive_thread false) →
  wnd_send y = wnd_send sock → sending_buf y = sending_buf sock → sending_len y = sending_len sock →
  received_buf y = received_buf sock → port (established_local_addr y) = client_port →
  is_server m = 0 → (∀ p, Some p ∈ connect_sock m → p = s) →
  Inv s (wnd_send sock) (sending_buf sock) (send_windows snd) (mk_ghost [] [] 0 false) w2.
Proof using.
  intros -> [Hso Hsnd _ _ Hb _ (srest & Hsr & _) (swin & Hwin & Hwl) _ (Hd1 & Hd2 & Hd3) (_ & Hf1 & Hf2 & Hf3)
    (_ & Hlen & _) _ _ _ _ _ _ _ _ (_ & Hth & _ & _ & _ & Hsent & _)] Hs0 Hsent0 Hth0 E1 E2 E3 E4 Hpt Hsv Hm.
  constructor; rsimpl; cbn [g_stream g_accepted g_mid g_started]; rewrite ?Hsent, ?Hsent0; try done.
  - rewrite Hso, Hs0, insert_insert_eq. intros x [[_ <-]|[? Hx]]%lookup_insert_Some; [|done].
    constructor; [done|done|rewrite E4, Hb; split; intros [=]; subst; [lia|done]|done|].
    exists [], srest. cbn [app g_stream g_accepted]. rewrite E3, Hlen. split_and!; by try constructor.
  - exists snd. by split_and!.
  - by exists swin.
  - intros th x Hx. rewrite Hth in Hx. right. left. by rewrite (Hth0 _ _ Hx).
  - intros _. split; [done|]. rewrite Hso, insert_insert_eq.
    intros x [[_ <-]|[? _]]%lookup_insert_Some; [congruence|done].
  - by exists m.
Qed.

Lemma client_hash : cal_hash client_ip client_port server_ip server_port = Some connection_index.
Proof using. reflexivity. Qed.

(** The program up to the point where the application may use the socket. *)
Lemma client_main_safe :
  ∃ ws sb wb, task_safe (Inv client_loc ws sb wb) T_app (mk_ghost [] [] 0 false)
    ((client_main;; mret no_io) (initial_world⟨w_self := None⟩)).
Proof using.
  destruct (tcp_socket_ok started_world) as (w1 & sock & snd & rcv & r & b & E & N).
  change (w_next started_world) with client_loc in *.
  exists (wnd_send sock), (sending_buf sock), (send_windows snd).
  eapply (safe_bind _ _ _ (fun _ g w =>
    Inv client_loc (wnd_send sock) (sending_buf sock) (send_windows snd) g w ∧ g_started g = true)).
  2: { intros [] g w [HI Hst]. apply safe_done; [apply _|]. exists g. split; [|done].
       split; [|done]. symmetry. apply g_accept_nil. }
  unfold client_main. erewrite bind_done by exact startSimulation_initial.
  erewrite bind_done by exact E.
  eapply (safe_bind _ _ _ (fun _ g w =>
    Inv client_loc (wnd_send sock) (sending_buf sock) (send_windows snd) g w ∧ g_started g = true)).
  2: { intros _ g w HI. by apply safe_done; [apply _|]. }
  assert (w_socks w1 !! client_loc = Some sock) as Hs
    by (rewrite (ns_socks _ _ _ _ _ _ _ _ N); apply lookup_insert_eq).
  pose proof (ns_frame _ _ _ _ _ _ _ _ N) as (_ & _ & Hm & _).
  destruct started_manager as (m & Em & _ & _ & Hc). rewrite Em in Hm. clear Em.
  unfold tcp_connect, target_addr. run. erewrite bind_done by (apply get_tcp_manager_ok; exact Hm).
  cbn [ip port]. 
  erewrite bind_done by (apply lift_ok; exact client_hash).
  assert (0 <= connection_index < blen (connect_sock m)) as Hci
    by (rewrite (proj1 Hc); split; [discriminate|reflexivity]).
  erewrite bind_done by (apply array_set_ok; exact Hci).
  erewrite bind_done by reflexivity. rsimpl. 
  match goal with |- safe _ _ _ _ _ (_ ?w2) => set (w3 := w2) end.
  assert (Inv client_loc (wnd_send sock) (sending_buf sock) (send_windows snd) (mk_ghost [] [] 0 false) w3) as HI.
  { eapply (connecting_inv started_world w1 w3);
      [reflexivity|exact N|exact (proj1 started_empty)|exact (proj2 started_empty)|exact started_threads
      |reflexivity..|].
    intros p. by apply empty_table_insert. }
  clearbody w3. assert (g_started (mk_ghost [] [] 0 false) = false) as Hst by done.
  revert HI Hst. generalize (mk_ghost [] [] 0 false). intros g HI Hst.
  step keeps_preempt; [apply _|]. intros [] g w _ HI Hst.
  step keeps_load; [apply _|]. intros x g w _ HI Hst.
  step keeps_lift; [apply _|]. intros diff g w _ HI Hst.
  step keeps_header; [apply _|done|]. intros pkt g w Hpkt HI Hst.
  step keeps_preempt; [apply _|]. intros [] g w _ HI Hst.
  step keeps_start_timer; [apply _|]. intros [] g w _ HI Hst.
  step keeps_preempt; [apply _|]. intros [] g w _ HI Hst.
  step keeps_send; [apply _|exact Hpkt|]. intros [] g w _ HI Hst.
  step keeps_preempt; [apply _|]. intros [] g w _ HI Hst.
  step keeps_await; [apply _|]. intros [] g w _ HI Hst.
  step keeps_preempt; [apply _|]. intros [] g w _ HI Hst.
  by apply connect_established.
Qed.

End connect.


(** ** Properties *)

Section properties.
Context `{Env} (Hhost : env_host = Host_client).

(** The states of the client: the application connects, then calls the stack.  No
    timer runs from the second message of the handshake to the end of
    [tcp_connect]. *)
Definition client_ok (sy : system) (e : event) : Prop := event_ok e ∧ client_sched client_loc sy e = true.
Definition client_state (sy : system) : Prop :=
  ∃ sy0, boot client_main = Some sy0 ∧ reachable client_loc client_ok sy0 sy.

Abbreviation Inv ws sb wb := (sender_inv client_loc ws sb wb client_port).

Lemma client_boot_inv sy : boot client_main = Some sy → ∃ ws sb wb g, sys_inv (Inv ws sb wb) g sy.
Proof using.
  intros Hb. destruct client_main_safe as (ws & sb & wb & Hm). exists ws, sb, wb.
  destruct (boot_inv (Inv ws sb wb) client_main (mk_ghost [] [] 0 false) sy) as (g & Hg & _);
    [done|by intros [] Ht; cbn; [destruct Ht|..]|exact Hm|exact Hb|].
  by exists g.
Qed.

Lemma client_state_inv sy : client_state sy → ∃ ws sb wb g, sys_inv (Inv ws sb wb) g sy.
Proof using All.
  intros (sy0 & Hb & Hr). induction Hr as [|e sy sy' _ (ws & sb & wb & g & Hg) [He Hsch] Hs].
  - by apply client_boot_inv.
  - destruct (client_step _ _ _ _ _ Hhost e g sy sy' Hg He Hsch Hs) as (g' & Hg' & _). by exists ws, sb, wb, g'.
Qed.

(** C4: stream integrity of the sending host.  From the start of the client
    program, with threads that switch wherever one waits and between the statements
    of [tcp_connect] from the entry of the socket in the table on, whatever memory
    from [malloc] holds, whatever the application calls once it is connected and
    whatever datagrams arrive -- if no timer runs between the second message of the
    handshake and the end of [tcp_connect] -- there is one stream of bytes such that
    every datagram handed to the network is a bare header or carries a piece of that
    stream at the offset of its sequence number; the stream, followed by the bytes
    that wait to be sent, is a subsequence of what [tcp_send] accepted, and it fits
    the window buffer.  With such a timer the claim fails: [early_timer_sends]. *)
Theorem stream_integrity sy :
  client_state sy →
  ∃ S, S `sublist_of` sy_accepted sy ∧ blen S <= TCP_SEND_WINDOW_SIZE ∧
    Forall (sent_ok client_port S) (w_sent (sy_world sy)) ∧
    ∀ sock, w_socks (sy_world sy) !! client_loc = Some sock → ∃ pending rest,
      w_bufs (sy_world sy) !! sending_buf sock = Some (pending ++ rest) ∧
      sending_len sock = blen pending ∧ S ++ pending `sublist_of` sy_accepted sy.
Proof using All.
  intros Hr. destruct (client_state_inv sy Hr) as (ws & sb & wb & g & [Ha HI _ _ _]).
  exists (g_stream g). cbn in Ha. rewrite <- Ha. split; [by eapply si_stream|].
  split; [|split; [by eapply si_sent|]].
  - by eapply stream_bound.
  - intros sock Hs. destruct (si_socks _ _ _ _ _ _ _ HI sock Hs) as [_ -> _ _ (p & rest & ? & ? & _ & ?)].
    by exists p, rest.
Qed.

(** end to end.  The datagrams of that host that carry data reach a fresh
    connection of another host in any order, any number of times or never: what
    that connection holds for its application is a prefix of the one stream the
    sender accepted bytes for. *)
Theorem end_to_end_prefix sy :
  client_state sy →
  ∃ S, S `sublist_of` sy_accepted sy ∧
    ∀ (peer : Env) r w sock snd rcv pkts,
      @env_host peer ≠ Host_other → receiving w r sock snd rcv [] → expect_seq rcv = 0 →
      Forall (fun pkt => pkt ∈ w_sent (sy_world sy) ∧ blen pkt ≠ HEADER_LEN) pkts →
      ∃ w' sock' snd' rcv' n, @deliver peer r pkts w = Done 0 w' ∧ 0 <= n <= blen S ∧
        expect_seq rcv' = n ∧ receiving w' r sock' snd' rcv' (take (Z.to_nat n) S).
Proof using All.
  intros Hr. destruct (client_state_inv sy Hr) as (ws & sb & wb & g & [Ha HI _ _ _]).
  exists (g_stream g). cbn in Ha. rewrite <- Ha. split; [by eapply si_stream|].
  intros peer r w sock snd rcv pkts Hpeer Hrx He Hpk.
  assert (blen (g_stream g) < 2 ^ 30 - 2 ^ 8) as Hlen.
  { pose proof (stream_bound _ _ _ _ _ _ _ HI). unfold TCP_SEND_WINDOW_SIZE, MAX_DLEN in *. lia. }
  destruct (@deliver_stream_ok peer Hpeer (g_stream g) pkts w r sock snd rcv 0)
    as (w' & sock' & snd' & rcv' & n & ? & ? & ? & ?); [done| | |done|done|].
  - eapply list.Forall_impl; [exact Hpk|]. intros pkt [Hin Hl].
    pose proof (si_sent _ _ _ _ _ _ _ HI) as Hsent. rewrite list.Forall_forall in Hsent.
    destruct (Hsent pkt Hin) as [Hp|Hp]; [by eapply stream_piece_segment|].
    by apply bare_header_length in Hp.
  - pose proof (blen_nonneg (g_stream g)). lia.
  - by exists w', sock', snd', rcv', n.
Qed.

End properties.

(** ** Instances *)

(** The handshake; three bytes are sent and the timer runs out once; one more
    byte is sent.  The timer threads are those at the addresses 12 and 14, the
    send thread is the one at 13. *)
Definition sample_events : list event :=
  replicate 4 (Ev_resume T_app) ++
  [Ev_timer 12; Ev_receive (segment 1234 5678 20 1 (Z.lor SYN ACK) 100); Ev_tick 1;
   Ev_resume (T_timer 12); Ev_resume T_receive] ++ replicate 6 (Ev_resume T_app) ++
  [Ev_call (Call_send [1; 2; 3]);
   Ev_send 13; Ev_timer 14; Ev_tick 20; Ev_resume (T_timer 14); Ev_tick 1; Ev_resume T_send;
   Ev_call (Call_send [4]); Ev_send 13].

(** The memory [malloc] returns for a sending window has a [nextseq] that is not 0. *)
#[local] Instance client_env : Env := {|
  env_host := Host_client;
  junk_sock _ := sample_sock;
  junk_snd _ := sample_snd⟨nextseq := 5⟩;
  junk_rcv _ := sample_rcv;
  junk_timer _ := sample_timer;
  junk_byte _ _ := 0;
  junk_is_server := 0
|}.

Definition sample_final : option system := sy0 ← boot client_main; exec_events client_loc (client_sched client_loc) sample_events sy0.

(** The datagrams that carry data. *)
Definition data_datagrams (sy : system) : list (list Z) :=
  filter (fun pkt => blen pkt ≠ HEADER_LEN) (w_sent (sy_world sy)).

Definition sample_check : bool :=
  match sample_final with Some sy => (length (data_datagrams sy) =? 2)%nat | None => false end.

Lemma sample_run : ∃ sy, client_state sy ∧ length (data_datagrams sy) = 2%nat.
Proof.
  assert (sample_check = true) as E by (vm_compute; reflexivity). unfold sample_check, sample_final in E.
  destruct (boot client_main) as [sy0|] eqn:E0; [|done]. cbn [mbind option_bind] in E.
  destruct (exec_events client_loc (client_sched client_loc) sample_events sy0) as [sy|] eqn:E1; [|done]. exists sy.
  split; [|by apply Nat.eqb_eq]. exists sy0. split; [done|].
  refine (reachable_exec _ _ event_ok _ _ sample_events _ _ _ (reach_start _ _ _) _ E1); [by split|].
  unfold sample_events. cbn [replicate app].
  repeat (constructor; [cbn; repeat (constructor; [unfold is_byte; lia|]); done|]). done.
Qed.

Lemma stream_integrity_witness :
  ∃ sy, length (data_datagrams sy) = 2%nat ∧
  ∃ S, S `sublist_of` sy_accepted sy ∧ blen S <= TCP_SEND_WINDOW_SIZE ∧
    Forall (sent_ok client_port S) (w_sent (sy_world sy)) ∧
    ∀ sock, w_socks (sy_world sy) !! client_loc = Some sock → ∃ pending rest,
      w_bufs (sy_world sy) !! sending_buf sock = Some (pending ++ rest) ∧
      sending_len sock = blen pending ∧ S ++ pending `sublist_of` sy_accepted sy.
Proof.
  destruct sample_run as (sy & Hr & El). exists sy. split; [exact El|].
  exact (@stream_integrity client_env eq_refl sy Hr).
Defined.

Lemma end_to_end_prefix_witness :
  ∃ sy w', client_state sy ∧ length (data_datagrams sy) = 2%nat ∧
    @deliver (env_at Host_server) 1 (data_datagrams sy) (stream_world [] [] sample_snd) = Done 0 w'.
Proof.
  destruct sample_run as (sy & Hr & El). exists sy.
  destruct (@end_to_end_prefix client_env eq_refl sy Hr) as (S & _ & HS).
  destruct (HS (env_at Host_server) 1%positive (stream_world [] [] sample_snd) (stream_sock [])
    sample_snd sample_rcv (data_datagrams sy)) as (w' & _ & _ & _ & _ & E & _);
    [done|apply stream_world_receiving|done| |].
  - apply list.Forall_forall. intros pkt [Hl Hin]%list_elem_of_filter. by split.
  - exists w'. by split_and!.
Defined.

(** Why no timer may run before [tcp_connect] has returned: two ACKs arrive, each
    starts the timer because [nextseq] is not [base], and the second timer to run out
    sends a segment of five bytes, although nothing was accepted. *)
Definition early_timer_events : list event :=
  replicate 4 (Ev_resume T_app) ++
  [Ev_timer 12; Ev_receive (segment 1234 5678 20 1 (Z.lor SYN ACK) 100); Ev_tick 1;
   Ev_resume (T_timer 12); Ev_resume T_receive;
   Ev_receive (segment 1234 5678 0 1 ACK 100); Ev_timer 13; Ev_tick 20; Ev_resume (T_timer 13);
   Ev_receive (segment 1234 5678 0 1 ACK 100); Ev_timer 14; Ev_tick 20; Ev_resume (T_timer 14)].
Definition early_timer_final : option system :=
  sy0 ← boot client_main; exec_events client_loc (fun _ _ => true) early_timer_events sy0.
Definition early_timer_check : bool :=
  match early_timer_final with
  | Some sy => bool_decide (sy_accepted sy = []) && (length (data_datagrams sy) =? 1)%nat
  | None => false
  end.

Lemma early_timer_sends : ∃ sy0 sy,
  boot client_main = Some sy0 ∧ reachable client_loc (fun _ => event_ok) sy0 sy ∧
  sy_accepted sy = [] ∧ length (data_datagrams sy) = 1%nat.
Proof.
  assert (early_timer_check = true) as E by (vm_compute; reflexivity).
  unfold early_timer_check, early_timer_final in E.
  destruct (boot client_main) as [sy0|] eqn:E0; [|done]. cbn [mbind option_bind] in E.
  destruct (exec_events client_loc _ early_timer_events sy0) as [sy|] eqn:E1; [|done].
  apply andb_prop in E as [Ha%bool_decide_eq_true Hd%Nat.eqb_eq].
  exists sy0, sy. split_and!; [done| |done|done].
  refine (reachable_exec _ _ event_ok _ _ early_timer_events _ _ _ (reach_start _ _ _) _ E1); [done|].
  unfold early_timer_events. cbn [replicate app]. by repeat constructor.
Qed.
