(* ===== verification/Receiver.v ===== *)
(** * The receiving host: the invariant of the server's connection

    The listening socket and the connection [tcp_accept] makes of it share their
    windows and buffers.  The invariant says that what the application has read,
    followed by what the connection holds, is a prefix of the stream of the peer,
    and that the listening socket cannot disturb it. *)

From S2P Require Import Prelude Consts CFloat Packet Machine Threads SockQueue Control Congestion Timer.
From S2P Require Import Handshake Teardown Transfer TimerThread Kernel Api Host Samples.

(** ** The invariant *)

(** The life of the connection at the server: waiting for the handshake; the
    last packet of the handshake is being handled; the connection is in the accept
    queue; [tcp_accept] has entered it in the table of established ones, then reset
    the expected sequence number, then started its send thread. *)
Inductive phase := Listening | Completing | Completed | Published | Reset | Accepted.
Definition registered (p : phase) : bool :=
  match p with Published | Reset | Accepted => true | _ => false end.
Definition numbered (p : phase) : bool := match p with Reset | Accepted => true | _ => false end.

#[export] Instance phase_eq_dec : EqDecision phase.
Proof. solve_decision. Defined.

(** The ghost state: the phase, the stream the peer sends pieces of, and what the
    application has read. *)
Record sghost := mk_sghost { h_phase : phase; h_stream : list Z; h_read : list Z }.

Section server.
Context `{Env} (l c wr aq sq : loc).

(** The connection: a closing one holds a prefix, an open one expects its end. *)
Record conn_ok (g : sghost) (w : world) (cs : tju_tcp_t) : Prop := {
  co_rcv : wnd_recv cs = wr;
  co_lock : recv_lock cs = false;
  co_send : sending_len cs = 0;
  co_rep : ∃ held, recv_rep w cs held ∧ h_read g ++ held `prefix_of` h_stream g ∧
    (numbered (h_phase g) = true → state cs = ESTABLISHED →
       ∃ rcv, w_rcvs w !! wr = Some rcv ∧ expect_seq rcv = blen (h_read g ++ held)) ∧
    (h_phase g ≠ Accepted → h_read g ++ held = [])
}.

Record listener_ok (g : sghost) (ls : tju_tcp_t) : Prop := {
  lo_state : state ls = LISTEN;
  lo_accept : accept_queue ls = aq;
  lo_syn : syn_queue ls = sq;
  lo_rcv : wnd_recv ls = wr;
  lo_bind : bind_addr ls = mk_addr server_ip server_port;
  lo_states : h_phase g ≠ Listening →
    listen_state ls !! Z.to_nat connection_index = Some ESTABLISHED
}.

Record server_inv (g : sghost) (w : world) : Prop := {
  vi_conn : ∀ cs, w_socks w !! c = Some cs → conn_ok g w cs;
  vi_read : h_read g `prefix_of` h_stream g;
  vi_len : blen (h_stream g) <= TCP_SEND_WINDOW_SIZE;
  vi_listener : ∃ ls, w_socks w !! l = Some ls ∧ listener_ok g ls;
  vi_queue : h_phase g = Listening ∨ h_phase g = Completing →
    ∃ q, w_queues w !! aq = Some q ∧ q_size q = 0;
  vi_distinct : l ≠ c ∧ aq ≠ sq;
  vi_fresh : (l < w_next w ∧ c < w_next w)%positive;
  vi_bufs : below (w_next w) (w_bufs w);
  vi_manager : ∃ m, w_manager w = Some m ∧ is_server m ≠ 0 ∧
    (∀ p, Some p ∈ listen_queue m → p = l) ∧
    (∀ p, Some p ∈ established_queue m → p = c ∧ registered (h_phase g) = true) ∧
    (registered (h_phase g) = true → Some c ∈ established_queue m);
  vi_threads : ∀ th x, w_threads w !! th = Some x →
    th_body x = Run_tcp_check_timeout l ∨ th_body x = Run_tcp_check_timeout c ∨
    th_body x = Run_receive_thread ∨ th_body x = Run_tcp_send_stream c ∧ h_phase g = Accepted
}.

(** ** What does not concern the invariant *)

Lemma conn_ok_frame g w w' cs :
  w_bufs w' = w_bufs w → w_rcvs w' !! wr = w_rcvs w !! wr → conn_ok g w cs → conn_ok g w' cs.
Proof using.
  intros E1 E2 [? ? ? (held & Hr & ? & Ha & ?)]. constructor; try done.
  exists held. split; [unfold recv_rep in *; by rewrite E1|by rewrite E2].
Qed.

Ltac frame_inv :=
  intros []; constructor; try done; rsimpl;
  try (intros ? ?; eapply conn_ok_frame; [..|by eauto]; reflexivity).

Lemma vinv_self g w x : server_inv g w → server_inv g (w⟨w_self := x⟩).
Proof using. frame_inv. Qed.
Lemma vinv_clock g w x : server_inv g w → server_inv g (w⟨w_clock := x⟩).
Proof using. frame_inv. Qed.
Lemma vinv_sent g w x : server_inv g w → server_inv g (w⟨w_sent := x⟩).
Proof using. frame_inv. Qed.
Lemma vinv_timers g w x : server_inv g w → server_inv g (w⟨w_timers := x⟩).
Proof using. frame_inv. Qed.
Lemma vinv_snds g w x : server_inv g w → server_inv g (w⟨w_snds := x⟩).
Proof using. frame_inv. Qed.
Lemma vinv_nodes g w x : server_inv g w → server_inv g (w⟨w_nodes := x⟩).
Proof using. frame_inv. Qed.
Lemma vinv_next g w x : (w_next w <= x)%positive → server_inv g w → server_inv g (w⟨w_next := x⟩).
Proof using. intros Hx. frame_inv; [lia|by eapply below_le]. Qed.
Lemma vinv_rcvs g w x : server_inv g w → numbered (h_phase g) = false → server_inv g (w⟨w_rcvs := x⟩).
Proof using.
  intros HI Hp. revert HI. frame_inv. intros cs Hcs.
  destruct (vi_conn0 cs Hcs) as [? ? ? (held & ? & ? & _ & ?)]. constructor; try done.
  exists held. split_and!; [done|done|by rewrite Hp|done].
Qed.
Lemma vinv_queues g w q x y :
  server_inv g w → w_queues w !! q = Some x →
  (q = aq → h_phase g = Listening ∨ h_phase g = Completing → q_size x = 0 → q_size y = 0) →
  server_inv g (w⟨w_queues := <[q := y]> (w_queues w)⟩).
Proof using.
  intros HI Hx Hq. revert HI. frame_inv. intros Hp. destruct (vi_queue0 Hp) as (z & Hz & H0).
  destruct (decide (q = aq)) as [->|Hne].
  - exists y. rewrite lookup_insert_eq. split; [done|].
    assert (x = z) as -> by congruence. by apply Hq.
  - exists z. by rewrite lookup_insert_ne.
Qed.
Lemma vinv_create g w b : server_inv g w →
  b = Run_tcp_check_timeout l ∨ b = Run_tcp_check_timeout c →
  server_inv g (w⟨w_threads := <[w_next w := mk_thread b false]> (w_threads w)⟩
                 ⟨w_next := Pos.succ (w_next w)⟩).
Proof using.
  intros HI Hb. revert HI. frame_inv; [lia|by apply below_succ|].
  intros t x [[_ <-]|[_ Hx]]%lookup_insert_Some; [|by apply (vi_threads0 t)]. cbn. tauto.
Qed.

(** The fields of a socket the invariant is about. *)
Definition same_server (x y : tju_tcp_t) : Prop :=
  state y = state x ∧ wnd_recv y = wnd_recv x ∧ recv_lock y = recv_lock x ∧
  sending_len y = sending_len x ∧ received_buf y = received_buf x ∧ received_len y = received_len x ∧
  accept_queue y = accept_queue x ∧ syn_queue y = syn_queue x ∧ bind_addr y = bind_addr x ∧
  listen_state y = listen_state x.

(** A connection that closes is no longer bound to the expected number. *)
Definition same_or_closing (p : loc) (x y : tju_tcp_t) : Prop :=
  same_server x y ∨ p = c ∧ same_server (x⟨state := state y⟩) y ∧ state y ≠ ESTABLISHED.

Lemma vinv_sock g w p x y :
  server_inv g w → w_socks w !! p = Some x → same_or_closing p x y →
  server_inv g (w⟨w_socks := <[p := y]> (w_socks w)⟩).
Proof using.
  intros HI Hx Hsame. pose proof (vi_distinct _ _ HI) as [Hlc _]. revert HI. frame_inv.
  - intros cs [[-> ->]|[_ Hk]]%lookup_insert_Some.
    + destruct (vi_conn0 x Hx) as [? ? ? (held & [Hr1 Hr2] & ? & Ha & ?)].
      destruct Hsame as [(E1 & E2 & E3 & E4 & E5 & E6 & _)|(_ & (_ & E2 & E3 & E4 & E5 & E6 & _) & E1)];
        cbn in E2, E3, E4, E5, E6; (constructor; [congruence..|]); exists held; unfold recv_rep; rsimpl;
        rewrite E5, E6; split_and!; try done.
      rewrite E1. exact Ha.
    + eapply conn_ok_frame; [..|by eauto]; reflexivity.
  - destruct vi_listener0 as (ls & Hls & Hl). destruct (decide (p = l)) as [->|Hne].
    + exists y. rewrite lookup_insert_eq. split; [done|]. assert (x = ls) as -> by congruence.
      destruct Hsame as [(E1 & E2 & E3 & E4 & E5 & E6 & E7 & E8 & E9 & E10)|(-> & _)]; [|done].
      destruct Hl. constructor; try congruence. by rewrite E10.
    + exists ls. by rewrite lookup_insert_ne.
Qed.
Lemma vinv_other g w p y : server_inv g w → p ≠ l → p ≠ c →
  server_inv g (w⟨w_socks := <[p := y]> (w_socks w)⟩).
Proof using.
  intros HI H1 H2. revert HI. frame_inv.
  - intros cs Hcs. rewrite lookup_insert_ne in Hcs by done.
    eapply conn_ok_frame; [..|by eauto]; reflexivity.
  - destruct vi_listener0 as (ls & ? & ?). exists ls. by rewrite lookup_insert_ne.
Qed.
Lemma vinv_free g w : server_inv g w → server_inv g (w⟨w_socks := delete c (w_socks w)⟩).
Proof using.
  intros HI. pose proof (vi_distinct _ _ HI) as [Hlc _]. revert HI. frame_inv.
  - intros cs Hcs. by rewrite lookup_delete_eq in Hcs.
  - destruct vi_listener0 as (ls & ? & ?). exists ls. by rewrite lookup_delete_ne.
Qed.

(** [tcp_close] drops what the connection holds. *)
Lemma vinv_closed g w w' x y bufs :
  w' = w⟨w_bufs := bufs⟩⟨w_socks := <[c := y]> (w_socks w)⟩ → server_inv g w → w_socks w !! c = Some x → (∀ p, below p (w_bufs w) → below p bufs) →
  same_server (x⟨state := state y⟩⟨received_buf := None⟩⟨received_len := 0⟩) y → state y ≠ ESTABLISHED →
  server_inv g w'.
Proof using.
  intros -> HI Hx Hb (_ & E2 & E3 & E4 & E5 & E6 & _) E1. cbn in E2, E3, E4, E5, E6.
  pose proof (vi_distinct _ _ HI) as [Hlc _]. revert HI. frame_inv.
  - intros cs [[_ <-]|[? _]]%lookup_insert_Some; [|done].
    destruct (vi_conn0 x Hx) as [? ? ? (held & _ & _ & _ & Hn)]. constructor; [congruence..|].
    exists []. unfold recv_rep. rsimpl. rewrite E5, E6, app_nil_r. split_and!; try done.
    intros Hp. apply Hn in Hp. by apply app_eq_nil in Hp as [-> _].
  - destruct vi_listener0 as (ls & ? & ?). exists ls. by rewrite lookup_insert_ne.
  - by apply Hb.
Qed.

(** Fields of the listening socket the invariant is not about. *)
Lemma vinv_states g w x y :
  server_inv g w → w_socks w !! l = Some x → same_server (x⟨listen_state := listen_state y⟩) y →
  (h_phase g ≠ Listening → listen_state y !! Z.to_nat connection_index = Some ESTABLISHED) →
  server_inv g (w⟨w_socks := <[l := y]> (w_socks w)⟩).
Proof using.
  intros HI Hx (E1 & E2 & E3 & E4 & E5 & E6 & E7 & E8 & E9 & _) Hst. cbn in E1, E2, E3, E4, E5, E6, E7, E8, E9.
  pose proof (vi_distinct _ _ HI) as [Hlc _]. revert HI. frame_inv.
  - intros cs [[? _]|[_ Hk]]%lookup_insert_Some; [done|]. eapply conn_ok_frame; [..|by eauto]; reflexivity.
  - destruct vi_listener0 as (ls & Hls & []). exists y. rewrite lookup_insert_eq. split; [done|].
    assert (x = ls) as -> by congruence. constructor; congruence || done.
Qed.

(** The connection before [tcp_accept] has reset its numbers. *)
Lemma vinv_conn_state g w x y :
  server_inv g w → numbered (h_phase g) = false → w_socks w !! c = Some x →
  same_server (x⟨state := state y⟩) y → server_inv g (w⟨w_socks := <[c := y]> (w_socks w)⟩).
Proof using.
  intros HI Hp Hx (_ & E2 & E3 & E4 & E5 & E6 & _). cbn in E2, E3, E4, E5, E6.
  pose proof (vi_distinct _ _ HI) as [Hlc _]. revert HI. frame_inv.
  - intros cs [[_ <-]|[? _]]%lookup_insert_Some; [|done].
    destruct (vi_conn0 x Hx) as [? ? ? (held & [Hr1 Hr2] & ? & _ & ?)]. constructor; [congruence..|].
    exists held. unfold recv_rep. rsimpl. rewrite E5, E6, Hp. by split_and!.
  - destruct vi_listener0 as (ls & ? & ?). exists ls. by rewrite lookup_insert_ne.
Qed.

(** The handshake goes on. *)
Definition set_phase (g : sghost) (p : phase) : sghost := mk_sghost p (h_stream g) (h_read g).

Lemma vinv_phase g w p :
  server_inv g w → registered (h_phase g) = false → registered p = false →
  (p = Listening ∨ p = Completing → h_phase g = Listening ∨ h_phase g = Completing) →
  (∀ ls, w_socks w !! l = Some ls → p ≠ Listening →
     listen_state ls !! Z.to_nat connection_index = Some ESTABLISHED) →
  server_inv (set_phase g p) w.
Proof using.
  intros [] Hg Hp Hq Hst. constructor; cbn [set_phase h_phase h_stream h_read]; try done.
  - intros cs Hcs. destruct (vi_conn0 cs Hcs) as [? ? ? (held & ? & ? & _ & Hn)]. constructor; try done.
    exists held. split_and!; [done|done|by destruct p|]. intros _. apply Hn. by intros E; rewrite E in Hg.
  - destruct vi_listener0 as (ls & Hls & []). exists ls. split; [done|]. constructor; try done. exact (Hst ls Hls).
  - intros H'. by apply vi_queue0, Hq.
  - destruct vi_manager0 as (m & ? & ? & ? & Hm & _). exists m. split_and!; try done.
    + intros p' Hp'. apply Hm in Hp' as [_ ?]. congruence.
    + cbn. congruence.
  - intros th x Hx. destruct (vi_threads0 th x Hx) as [?|[?|[?|[_ E]]]]; [tauto..|by rewrite E in Hg].
Qed.

(** The application has read the first bytes of what the connection holds. *)
Definition add_read (g : sghost) (out : list Z) : sghost :=
  mk_sghost (h_phase g) (h_stream g) (h_read g ++ out).

Lemma vinv_app_read g w w' x y bufs held out rest :
  w' = w⟨w_socks := <[c := y]> (w_socks w)⟩⟨w_bufs := bufs⟩ →
  server_inv g w → w_socks w !! c = Some x → recv_rep w x held → held = out ++ rest →
  recv_rep w' y rest → (∀ p, below p (w_bufs w) → below p bufs) →
  y = x⟨recv_lock := false⟩⟨received_len := blen rest⟩ → server_inv (add_read g out) w'.
Proof using.
  intros -> HI Hx Hrep -> Hrep' Hb Hy. pose proof (vi_distinct _ _ HI) as [Hlc _]. revert HI.
  intros []. destruct (vi_conn0 x Hx) as [H1 H2 H3 (held & Hr & Hpre & Hexp & Hn)].
  assert (held = out ++ rest) as ->.
  { destruct Hr as [Hr1 Hr2], Hrep as [Hr3 Hr4]. destruct (received_buf x); [|congruence].
    destruct Hr2 as [r2 Hr2], Hr4 as [r4 Hr4]. rewrite Hr2 in Hr4. injection Hr4 as Hr4.
    apply app_inj_1 in Hr4 as [-> _]; [done|]. unfold blen in *. lia. }
  constructor; rsimpl; cbn [add_read h_phase h_stream h_read]; try done.
  - intros cs [[_ <-]|[? _]]%lookup_insert_Some; [|done].
    constructor; [by rewrite Hy|by rewrite Hy|by rewrite Hy|]. exists rest.
    rsimpl. cbn [add_read h_phase h_stream h_read]. rewrite <- !app_assoc. split_and!; try done.
    rewrite Hy. exact Hexp.
  - etrans; [|exact Hpre]. rewrite app_assoc. by apply prefix_app_r.
  - destruct vi_listener0 as (ls & ? & []). exists ls. rewrite lookup_insert_ne by done. by split.
  - by apply Hb.
Qed.

(** [tcp_accept] registers the connection, resets the sequence numbers, and starts
    the send thread. *)
Lemma vinv_published g w m :
  server_inv g w → h_phase g = Completed → is_server m ≠ 0 →
  (∀ p, Some p ∈ listen_queue m → p = l) → (∀ p, Some p ∈ established_queue m → p = c) →
  Some c ∈ established_queue m → server_inv (set_phase g Published) (w⟨w_manager := Some m⟩).
Proof using.
  intros [] Hp Hsv Hl Hest Hin. constructor; rsimpl; cbn [set_phase h_phase h_stream h_read]; try done.
  - intros cs Hcs. destruct (vi_conn0 cs Hcs) as [? ? ? (held & ? & ? & _ & Hn)]. constructor; try done.
    exists held. rewrite Hp in Hn. split_and!; [done|done|done|]. intros _. by apply Hn.
  - destruct vi_listener0 as (ls & ? & Ho). exists ls. split; [done|].
    destruct Ho. constructor; try done. intros _. apply lo_states0. by rewrite Hp.
  - by intros [|].
  - exists m. split_and!; try done. intros p Hk. split; [by apply Hest|done].
  - intros th x Hx. destruct (vi_threads0 th x Hx) as [?|[?|[?|[_ E]]]]; [tauto..|by rewrite E in Hp].
Qed.
Lemma vinv_reset g w rcv :
  server_inv g w → h_phase g = Published → expect_seq rcv = 0 →
  server_inv (set_phase g Reset) (w⟨w_rcvs := <[wr := rcv]> (w_rcvs w)⟩).
Proof using.
  intros [] Hp He. constructor; rsimpl; cbn [set_phase h_phase h_stream h_read]; try done.
  - intros cs Hcs. destruct (vi_conn0 cs Hcs) as [? ? ? (held & ? & ? & _ & Hn)]. constructor; try done.
    rewrite Hp in Hn. specialize (Hn ltac:(done)). exists held. cbn [set_phase h_phase h_stream h_read].
    split_and!; [done|done| |done]. intros _ _. exists rcv. rsimpl. by rewrite lookup_insert_eq, Hn.
  - destruct vi_listener0 as (ls & ? & Ho). exists ls. split; [done|].
    destruct Ho. constructor; try done. intros _. apply lo_states0. by rewrite Hp.
  - by intros [|].
  - destruct vi_manager0 as (m & ? & ? & ? & Hm & Hc). rewrite Hp in Hm, Hc. by exists m.
  - intros th x Hx. destruct (vi_threads0 th x Hx) as [?|[?|[?|[_ E]]]]; [tauto..|by rewrite E in Hp].
Qed.
Lemma vinv_accepted g w :
  server_inv g w → h_phase g = Reset →
  server_inv (set_phase g Accepted)
    (w⟨w_threads := <[w_next w := mk_thread (Run_tcp_send_stream c) false]> (w_threads w)⟩
      ⟨w_next := Pos.succ (w_next w)⟩).
Proof using.
  intros [] Hp. constructor; rsimpl; cbn [set_phase h_phase h_stream h_read]; try done.
  - intros cs Hcs. destruct (vi_conn0 cs Hcs) as [? ? ? (held & ? & ? & Hn & _)]. constructor; try done.
    exists held. rewrite Hp in Hn. by split_and!.
  - destruct vi_listener0 as (ls & ? & Ho). exists ls. split; [done|].
    destruct Ho. constructor; try done. intros _. apply lo_states0. by rewrite Hp.
  - by intros [|].
  - lia.
  - by apply below_succ.
  - destruct vi_manager0 as (m & ? & ? & ? & Hm & Hc). rewrite Hp in Hm, Hc. by exists m.
  - intros t z [[_ <-]|[_ Hz]]%lookup_insert_Some; [cbn; tauto|].
    destruct (vi_threads0 t z Hz) as [?|[?|[?|[? _]]]]; tauto.
Qed.

(** A packet of the peer: a piece of its stream, or a header alone. *)
Definition peer_packet (S pkt : list Z) : Prop :=
  ∃ h d, carries pkt h d ∧ source_port h = client_port ∧ blen d < 2 ^ 16 ∧
    (d = [] ∨ data_flags (flags h) ∧ mem_read S (seq_num h) (blen d) = Some d).

(** The connection after a packet was stored. *)
Lemma vinv_received g w w' cs y snd rcv held :
  server_inv g w → h_phase g = Accepted → w_socks w !! c = Some cs → state cs = ESTABLISHED →
  rx_frame w w' c y → y = cs⟨received_buf := received_buf y⟩⟨received_len := blen held⟩ →
  receiving w' c y snd rcv held → h_read g ++ held `prefix_of` h_stream g →
  expect_seq rcv = blen (h_read g ++ held) →
  server_inv g w'.
Proof using.
  intros HI Hph Hs Hst [Fs Fq Ft Fm Fn] Hy [Hy1 _ Hrcv Hlk Hrep Hb] Hp He.
  destruct (vi_conn _ _ HI cs Hs) as [H1 H2 H3 _].
  pose proof (vi_distinct _ _ HI) as [Hlc _]. destruct HI. constructor; try done.
  - intros x Hx. assert (x = y) as -> by congruence.
    assert (wnd_recv y = wr) as Hw by (rewrite Hy; exact H1).
    constructor; [exact Hw|exact Hlk|by rewrite Hy|]. exists held. split_and!; [done|done| |done].
    intros _ _. exists rcv. by rewrite <- Hw.
  - destruct vi_listener0 as (ls & ? & ?). exists ls. by rewrite Fs, lookup_insert_ne.
  - rewrite Hph. by intros [|].
  - lia.
  - rewrite Fm. exact vi_manager0.
  - by rewrite Ft.
Qed.

(** ** Statements and calls

    [F] is what the caller knows of the ghost state while it runs. *)

Context (F : sghost → Prop) (rely : sghost → sghost → world → Prop) (guar : sghost → sghost → Prop) `{!PreOrder guar}.

Abbreviation Inv := (fun g w => server_inv g w ∧ F g).
Abbreviation Keeps := (keeps Inv rely guar).

Lemma vkeeps_modify_sock p f : (∀ x, same_or_closing p x (f x)) →
  Keeps (modify (T := tju_tcp_t) p f) (fun _ => True).
Proof using All.
  intros Hf. apply keeps_modify; [done|]. intros g w y [HI HF] Hy. split; [|done].
  by apply (vinv_sock g w p y).
Qed.
Lemma vkeeps_modify_snd p f : Keeps (modify (T := sender_window_t) p f) (fun _ => True).
Proof using All. apply keeps_modify; [done|]. intros g w y [HI HF] Hy. split; [by apply vinv_snds|done]. Qed.
Lemma vkeeps_modify_timer p f : Keeps (modify (T := rtt_timer_t) p f) (fun _ => True).
Proof using All. apply keeps_modify; [done|]. intros g w y [HI HF] Hy. split; [by apply vinv_timers|done]. Qed.
Lemma vkeeps_store_timer p (x : rtt_timer_t) : Keeps (store p x) (fun _ => True).
Proof using All. apply keeps_store; [done|]. intros g w y [HI HF] Hy. split; [by apply vinv_timers|done]. Qed.
Lemma vkeeps_free_conn : Keeps (free (T := tju_tcp_t) c) (fun _ => True).
Proof using All.
  intros g w [HI HF]. unfold free. destruct (_ !! _); [|done].
  apply safe_done; [done|]. split; [|done]. split; [by apply vinv_free|done].
Qed.
Lemma vkeeps_create b :
  b = Run_tcp_check_timeout l ∨ b = Run_tcp_check_timeout c →
  Keeps (pthread_create b) (fun _ => True).
Proof using All.
  intros Hb g w [HI HF]. apply safe_done; [done|]. split; [|done]. split; [|done]. exact (vinv_create g w b HI Hb).
Qed.
Lemma vkeeps_send pkt len : Keeps (sendToLayer3 pkt len) (fun _ => True).
Proof using All.
  unfold sendToLayer3. destruct (_ <? _); [by apply keeps_ret|].
  assert (Keeps (dgram ← lift OutOfBounds (mem_read pkt 0 len);
    update (fun w => w⟨w_sent := w_sent w ++ [dgram]⟩)) (fun _ => True)) as Hk; [|by destruct env_host].
  eapply keeps_bind; [done|by apply keeps_lift|]. intros dgram _ g w [HI HF].
  apply safe_done; [done|]. split; [|done]. split; [by apply vinv_sent|done].
Qed.
Lemma vkeeps_lock_sock p f `{!Setter f} :
  (∀ x, same_or_closing p x (set_field f (fun _ => true) x)) →
  Keeps (pthread_mutex_lock (T := tju_tcp_t) p f) (fun _ => True).
Proof using All. intros Hf. apply keeps_lock; [done|]. by apply vkeeps_modify_sock. Qed.
Lemma vkeeps_unlock_sock p f `{!Setter f} :
  (∀ x, same_or_closing p x (set_field f (fun _ => false) x)) →
  Keeps (pthread_mutex_unlock (T := tju_tcp_t) p f) (fun _ => True).
Proof using All. intros Hf. apply keeps_unlock; [done|]. by apply vkeeps_modify_sock. Qed.
Lemma vkeeps_lock_timer p f `{!Setter f} :
  Keeps (pthread_mutex_lock (T := rtt_timer_t) p f) (fun _ => True).
Proof using All. apply keeps_lock; [done|]. apply vkeeps_modify_timer. Qed.
Lemma vkeeps_unlock_timer p f `{!Setter f} :
  Keeps (pthread_mutex_unlock (T := rtt_timer_t) p f) (fun _ => True).
Proof using All. apply keeps_unlock; [done|]. apply vkeeps_modify_timer. Qed.
Lemma vkeeps_copy_out p off n : Keeps (copy_out p off n) (fun _ => True).
Proof using All.
  unfold copy_out. eapply keeps_bind; [done|by apply keeps_load|]. intros buf _.
  eapply keeps_any; [done|by apply keeps_lift].
Qed.

#[local] Hint Resolve PreOrder0 : keep.
#[local] Hint Extern 1 (same_or_closing _ _ _) => left; by split_and! : keep.
#[local] Hint Extern 1 (∀ _, same_or_closing _ _ _) => intros ?; left; by split_and! : keep.
#[local] Hint Extern 1 (Run_tcp_check_timeout _ = _ ∨ _) => tauto : keep.
#[local] Hint Resolve vkeeps_modify_sock vkeeps_modify_snd vkeeps_modify_timer vkeeps_store_timer
  vkeeps_free_conn vkeeps_create vkeeps_send vkeeps_lock_sock vkeeps_unlock_sock vkeeps_lock_timer
  vkeeps_unlock_timer vkeeps_copy_out : keep.

(** The timer and the control segments, of either socket. *)
Lemma vkeeps_stop_timer p : Keeps (tcp_stop_timer p) (fun _ => True).
Proof using All. unfold tcp_stop_timer. keep. Qed.
#[local] Hint Resolve vkeeps_stop_timer : keep.
Lemma vkeeps_start_timer p : p = l ∨ p = c → Keeps (tcp_start_timer p) (fun _ => True).
Proof using All. intros [->| ->]; unfold tcp_start_timer; keep. Qed.
Lemma vkeeps_send_ack p : Keeps (tcp_send_ack p) (fun _ => True).
Proof using All. unfold tcp_send_ack. keep. Qed.
Lemma vkeeps_send_fin_ack p : Keeps (tcp_send_fin_ack p) (fun _ => True).
Proof using All. unfold tcp_send_fin_ack. keep. Qed.
Lemma vkeeps_send_syn p : Keeps (tcp_send_syn p) (fun _ => True).
Proof using All. unfold tcp_send_syn. keep. Qed.
Lemma vkeeps_send_syn_ack p : Keeps (tcp_send_syn_ack p) (fun _ => True).
Proof using All. unfold tcp_send_syn_ack. keep. Qed.
Lemma vkeeps_back_only_header p : Keeps (back_only_header p) (fun _ => True).
Proof using All. unfold back_only_header. keep. Qed.
#[local] Hint Extern 1 (l = l ∨ _) => by left : keep.
#[local] Hint Extern 1 (_ ∨ c = c) => by right : keep.
#[local] Hint Resolve vkeeps_start_timer vkeeps_send_ack vkeeps_send_fin_ack vkeeps_send_syn
  vkeeps_send_syn_ack vkeeps_back_only_header : keep.

(** The close handler of the connection. *)
#[local] Hint Extern 2 (∀ _, same_or_closing c _ _) =>
  intros ?; right; split; [reflexivity|split; [by split_and!|done]] : keep.
Lemma vkeeps_state_close pkt : Keeps (tcp_state_close c pkt) (fun _ => True).
Proof using All. unfold tcp_state_close. keep. Qed.

#[local] Hint Resolve vkeeps_state_close : keep.

Lemma vkeeps_close : Keeps (tcp_close c) (fun _ => True).
Proof using All.
  intros g w [HI HF]. unfold tcp_close.
  destruct (w_socks w !! c) as [cs|] eqn:Hs; [|by erewrite bind_undef by (by apply load_bad)].
  assert (Keeps (tcp_send_fin_ack c;; await (fun w => sock ← w_socks w !! c; Some (state sock =? CLOSED)))
    (fun _ => True)) as Hrest by keep.
  destruct (co_rep _ _ _ (vi_conn _ _ HI cs Hs)) as (held & [Hlen Hbuf] & _).
  run. destruct (received_buf cs) as [b|] eqn:Eb.
  - destruct Hbuf as [rest Hbuf]. erewrite bind_done by (run; prim). run.
    rewrite ?insert_insert_eq. apply Hrest. split; [|done].
    eapply (vinv_closed g w _ cs (cs⟨received_len := 0⟩⟨received_buf := None⟩⟨state := FIN_WAIT_1⟩)
      (delete b (w_bufs w))); [reflexivity|exact HI|exact Hs| |by split_and!|done].
    intros p Hp k [z [_ Hk]%lookup_delete_Some]. apply Hp. eauto.
  - run. apply Hrest. split; [|done]. apply (vinv_sock g w c cs); [done|done|]. right. by split_and!.
Qed.
#[local] Hint Resolve vkeeps_close : keep.

(** A statement that replaces a socket by an updated copy. *)
Lemma vkeeps_update {A} p u f (k : tju_tcp_t → M A) (φ : A → Prop) :
  (∀ x y, f x = Some y → same_server x y) → (∀ y, Keeps (k y) φ) →
  Keeps (x ← load_sock p; y ← lift u (f x); store p y;; k y) φ.
Proof using All.
  intros Hf Hk g w [HI HF]. unfold mbind, M_bind, load. rsimpl.
  destruct (w_socks w !! p) as [x|] eqn:Hx; [|done]. cbn.
  destruct (f x) as [y|] eqn:Hy; [|done]. cbn. unfold store. rsimpl. rewrite Hx. cbn.
  apply Hk. split; [|done]. apply (vinv_sock _ _ _ x); [done|done|]. left. auto.
Qed.

Lemma same_server_success x y : handle_success_ack x = Some y → same_server x y.
Proof using.
  unfold handle_success_ack. intros Hy.
  repeat case_match; opt_inv; repeat case_match; simplify_eq; by split_and!.
Qed.
Lemma same_server_loss x y : handle_loss_ack x = Some y → same_server x y.
Proof using.
  unfold handle_loss_ack. intros Hy.
  repeat case_match; opt_inv; repeat case_match; simplify_eq; by split_and!.
Qed.

(** An ACK without data. *)
Lemma vkeeps_handle_ack pkt n :
  get_plen pkt = Some n → get_hlen pkt = Some n → Keeps (handle_ack c pkt) (fun _ => True).
Proof using All.
  intros Hp Hh. unfold handle_ack. apply vkeeps_update; [apply same_server_success|]. intros y.
  rewrite Hp, Hh. keep; simplify_eq; lia.
Qed.

Lemma vkeeps_retransmit p : p = l ∨ p = c → Keeps (tcp_retransmit_timer p) (fun _ => True).
Proof using All. intros Hp. unfold tcp_retransmit_timer. keep. Qed.
#[local] Hint Resolve vkeeps_retransmit : keep.

(** The timer thread.  The listening socket stays in the state LISTEN, in which
    a timeout does nothing. *)
Lemma vkeeps_write_timer_handler p : p = l ∨ p = c → Keeps (tcp_write_timer_handler p) (fun _ => True).
Proof using All.
  intros [->| ->].
  - intros g w [HI HF]. destruct (vi_listener _ _ HI) as (ls & Hls & [Hst _ _ _ _ _]).
    unfold tcp_write_timer_handler. run. rewrite Hst. const_tests. by apply safe_done.
  - intros g w [HI HF]. unfold tcp_write_timer_handler, mbind at 1, M_bind, load. rsimpl.
    destruct (w_socks w !! c) as [cs|] eqn:Hs; [|done]. cbn [obind].
    assert (∀ m : M unit, Keeps m (fun _ => True) →
      safe Inv rely guar (fun _ g w => Inv g w ∧ True) g (m w)) as Hk by (intros m Hm; by apply Hm).
    destruct (state cs =? SYN_SENT); [apply Hk; keep|].
    destruct (state cs =? SYN_RECV); [apply Hk; keep|].
    destruct (state cs =? ESTABLISHED); [|apply Hk; keep].
    destruct (finished_handshake cs =? 0); [apply Hk; keep|].
    destruct (RETRANSMIT_LIMIT <? timeout_counts cs); [apply Hk; unfold tcp_outlimit_retransmit; keep|].
    destruct (handle_loss_ack cs) as [y|] eqn:Hy; [|done].
    assert (Keeps (modify c (fun sock => sock⟨timeout_counts := u8 (timeout_counts sock + 1)⟩);;
                   tcp_retransmit_timer c) (fun _ => True)) as Hr by keep.
    unfold lift. erewrite bind_done by reflexivity.
    erewrite bind_done by (eapply store_ok; exact Hs).
    apply Hr. split; [|done]. apply (vinv_sock _ _ _ cs); [done|done|]. left. by apply same_server_loss.
Qed.
#[local] Hint Resolve vkeeps_write_timer_handler : keep.

Lemma vkeeps_check_timeout_loop p fuel t cur :
  p = l ∨ p = c → Keeps (check_timeout_loop fuel p t cur) (fun _ => True).
Proof using All.
  intros Hp. induction fuel as [|fuel IH]; cbn [check_timeout_loop]; [by apply keeps_out_of_fuel|].
  keep. unfold run_callback. keep.
Qed.
#[local] Hint Resolve vkeeps_check_timeout_loop : keep.
Lemma vkeeps_check_timeout p : p = l ∨ p = c → Keeps (tcp_check_timeout p) (fun _ => True).
Proof using All. intros Hp. unfold tcp_check_timeout. keep. Qed.

(** The send thread of the connection finds nothing to send. *)
Lemma vkeeps_send_iteration : Keeps (tcp_send_stream_iteration c) (fun _ => True).
Proof using All.
  intros g w [HI HF]. unfold tcp_send_stream_iteration.
  destruct (w_socks w !! c) as [cs|] eqn:Hs; [|by erewrite bind_undef by (by apply load_bad)].
  run. rewrite (co_send _ _ _ (vi_conn _ _ HI cs Hs)). change (0 <? 0) with false. cbv iota.
  assert (Keeps (sleep 1;; sleep 1) (fun _ => True)) as Hk by keep. by apply Hk.
Qed.

(** ** The listening socket *)

Lemma vkeeps_load_l : Keeps (load_sock l) (fun x => accept_queue x = aq ∧ syn_queue x = sq).
Proof using All.
  apply keeps_load_with; [done|]. intros g w x [HI HF] Hx.
  destruct (vi_listener _ _ HI) as (ls & Hls & []). assert (x = ls) as -> by (cbn in Hx; congruence). done.
Qed.
Lemma vkeeps_alloc_sock f : Keeps (alloc (T := tju_tcp_t) f) (fun p => p ≠ l ∧ p ≠ c).
Proof using All.
  intros g w [HI HF]. apply safe_done; [done|]. pose proof (vi_fresh _ _ HI) as [? ?]. split; [|split; lia].
  split; [|done]. apply (vinv_other g (w⟨w_next := Pos.succ (w_next w)⟩)); [|lia..].
  apply vinv_next; [lia|done].
Qed.
Lemma vkeeps_modify_other p f : p ≠ l → p ≠ c → Keeps (modify (T := tju_tcp_t) p f) (fun _ => True).
Proof using All.
  intros H1 H2. apply keeps_modify; [done|]. intros g w y [HI HF] Hy. split; [by apply vinv_other|done].
Qed.
Lemma vkeeps_copy_sock p src : p ≠ l → p ≠ c → Keeps (copy_sock p src) (fun _ => True).
Proof using All.
  intros H1 H2. unfold copy_sock. eapply keeps_bind; [done|by apply keeps_load|]. intros x _.
  apply keeps_store; [done|]. intros g w y [HI HF] Hy. split; [by apply vinv_other|done].
Qed.
Lemma vkeeps_alloc_node f : Keeps (alloc (T := sock_node) f) (fun _ => True).
Proof using All.
  intros g w [HI HF]. apply safe_done; [done|]. split; [|done]. split; [|done].
  apply (vinv_nodes g (w⟨w_next := Pos.succ (w_next w)⟩)). apply vinv_next; [lia|done].
Qed.
Lemma vkeeps_modify_node p f : Keeps (modify (T := sock_node) p f) (fun _ => True).
Proof using All. apply keeps_modify; [done|]. intros g w y [HI HF] Hy. split; [by apply vinv_nodes|done]. Qed.
Lemma vkeeps_free_node p : Keeps (free (T := sock_node) p) (fun _ => True).
Proof using All.
  intros g w [HI HF]. unfold free. destruct (_ !! _); [|done].
  apply safe_done; [done|]. split; [|done]. split; [by apply vinv_nodes|done].
Qed.

(** A queue may change unless it is the accept queue and must be empty. *)
Definition queue_free (q : loc) : Prop :=
  q = sq ∨ ∀ g, F g → h_phase g ≠ Listening ∧ h_phase g ≠ Completing.
Lemma vkeeps_modify_queue q f : queue_free q → Keeps (modify (T := sock_queue) q f) (fun _ => True).
Proof using All.
  intros Hq. apply keeps_modify; [done|]. intros g w y [HI HF] Hy. split; [|done].
  eapply vinv_queues; [done|exact Hy|]. intros -> Hp _. destruct Hq as [Hq|Hq].
  - by destruct (vi_distinct _ _ HI).
  - destruct (Hq g HF), Hp; congruence.
Qed.

#[local] Hint Resolve vkeeps_load_l vkeeps_alloc_sock vkeeps_modify_other vkeeps_copy_sock vkeeps_alloc_node
  vkeeps_modify_node vkeeps_free_node vkeeps_modify_queue : keep.
#[local] Hint Extern 1 (_ ≠ _) => assumption : keep.
#[local] Hint Extern 1 (queue_free _) => assumption : keep.

Lemma vkeeps_last_node fuel p : Keeps (last_node fuel p) (fun _ => True).
Proof using All. revert p. induction fuel as [|fuel IH]; intros p; cbn [last_node]; keep. Qed.
Lemma vkeeps_skip_nodes k p : Keeps (skip_nodes k p) (fun _ => True).
Proof using All. revert p. induction k as [|k IH]; intros p; cbn [skip_nodes]; keep. Qed.
#[local] Hint Resolve vkeeps_last_node vkeeps_skip_nodes : keep.
Lemma vkeeps_is_empty q : Keeps (sockqueue_is_empty q) (fun _ => True).
Proof using All. unfold sockqueue_is_empty. keep. Qed.
#[local] Hint Resolve vkeeps_is_empty : keep.
Lemma vkeeps_push q p : queue_free q → Keeps (sockqueue_push q p) (fun _ => True).
Proof using All. intros Hq. unfold sockqueue_push. keep. Qed.
Lemma vkeeps_pop q p : queue_free q → p ≠ l → p ≠ c → Keeps (sockqueue_pop q p) (fun _ => True).
Proof using All. intros Hq H1 H2. unfold sockqueue_pop. keep. Qed.
Lemma vkeeps_remove q p i : queue_free q → p ≠ l → p ≠ c → Keeps (sockqueue_remove q p i) (fun _ => True).
Proof using All. intros Hq H1 H2. unfold sockqueue_remove. keep. Qed.
#[local] Hint Resolve vkeeps_push vkeeps_pop vkeeps_remove : keep.

Lemma vkeeps_modify_rcv p f : (∀ g, F g → numbered (h_phase g) = false) →
  Keeps (modify (T := receiver_window_t) p f) (fun _ => True).
Proof using All.
  intros Hp. apply keeps_modify; [done|]. intros g w y [HI HF] Hy. split; [|done]. apply vinv_rcvs; auto.
Qed.
Lemma vkeeps_update_expected_seq p pkt : (∀ g, F g → numbered (h_phase g) = false) →
  Keeps (tcp_update_expected_seq p pkt) (fun _ => True).
Proof using All.
  intros Hp. unfold tcp_update_expected_seq. keep. by apply vkeeps_modify_rcv.
Qed.
Lemma vkeeps_set_states states : (∀ g, F g → h_phase g = Listening) →
  Keeps (modify (T := tju_tcp_t) l (fun sock => sock⟨listen_state := states⟩)) (fun _ => True).
Proof using All.
  intros Hp. apply keeps_modify; [done|]. intros g w y [HI HF] Hy. split; [|done].
  apply (vinv_states g w y); [done|done|by split_and!|]. by intros []; auto.
Qed.
Lemma vkeeps_conn_state f : (∀ g, F g → numbered (h_phase g) = false) →
  (∀ x, same_server (x⟨state := state (f x)⟩) (f x)) →
  Keeps (modify (T := tju_tcp_t) c f) (fun _ => True).
Proof using All.
  intros Hp Hf. apply keeps_modify; [done|]. intros g w y [HI HF] Hy. split; [|done].
  apply (vinv_conn_state g w y); auto.
Qed.

#[local] Hint Extern 1 (queue_free _) => left; assumption : keep.
Lemma vkeeps_listen_syn pkt a i : (∀ g, F g → h_phase g = Listening) →
  Keeps (server_listen_syn l pkt a i) (fun _ => True).
Proof using All.
  intros Hp. assert (∀ g, F g → numbered (h_phase g) = false) as Hp' by (intros g HF; by rewrite (Hp g HF)).
  pose proof (fun states => vkeeps_set_states states Hp). pose proof (vkeeps_update_expected_seq l pkt Hp').
  unfold server_listen_syn. keep.
Qed.

(** ** Receiving *)

Context (Hhost : env_host = Host_server).

(** An open connection takes a packet of the peer. *)
Lemma safe_handle_packet g w cs pkt :
  Inv g w → h_phase g = Accepted → w_socks w !! c = Some cs → state cs = ESTABLISHED →
  peer_packet (h_stream g) pkt →
  safe Inv rely guar (fun _ g w => Inv g w ∧ True) g (tju_handle_packet c pkt w).
Proof using All.
  intros [HI HF] Hph Hs Hst (h & d & Hca & _ & Hdl & Hd).
  pose proof (ca_fields _ _ _ Hca) as Hf.
  destruct (vi_conn _ _ HI cs Hs) as [Hwr Hlk Hsl (held & Hrep & Hpre & Hexp & _)].
  destruct (Hexp ltac:(by rewrite Hph) Hst) as (rcv & Hrcv & He).
  destruct (w_snds w !! wnd_send cs) as [snd|] eqn:Hsnd.
  2: { destruct Hf. unfold tju_handle_packet. run. by erewrite bind_undef by (apply bind_undef, load_bad; exact Hsnd). }
  assert (receiving w c cs snd rcv held) as Hrx.
  { constructor; try done; [by rewrite Hwr|exact (vi_bufs _ _ HI)]. }
  rewrite (tju_handle_packet_start _ _ _ _ _ _ _ _ Hrx Hf).
  pose proof (vinv_snds g w (<[wnd_send cs := snd⟨rwnd := u16 (advertised_window h)⟩]> (w_snds w)) HI) as HI1.
  fold (rx_rwnd w cs snd h) in HI1.
  assert (∀ m : M Z, Keeps m (fun _ => True) →
    safe Inv rely guar (fun _ g w => Inv g w ∧ True) g (m (rx_rwnd w cs snd h))) as Hk
    by (intros m Hm; by apply Hm).
  destruct (flags h =? HEAD) eqn:E1; [apply Hk; keep|].
  destruct (flags h =? BACKHEAD) eqn:E2; [by apply safe_done|]. 
  destruct (flags h =? ACK) eqn:E3.
  { destruct Hd as [->|[(_ & _ & Hn) _]]; [|lia]. apply Hk, (vkeeps_handle_ack _ (plen h)); [by destruct Hf|].
    rewrite (ca_plen _ _ _ Hca), Z.add_0_r, <- (ca_hlen _ _ _ Hca). by destruct Hf. }
  assert (blen (h_read g ++ held) <= TCP_SEND_WINDOW_SIZE) as Hlen.
  { destruct Hpre as [k Ek]. pose proof (vi_len _ _ HI) as Hl. rewrite Ek, blen_app in Hl.
    pose proof (blen_nonneg k). lia. }
  assert (blen held <= TCP_SEND_WINDOW_SIZE) as Hlen' by (rewrite blen_app in Hlen; pose proof (blen_nonneg (h_read g)); lia).
  destruct (@handle_data_ok _ ltac:(by rewrite Hhost) _ _ _ _ _ _ _ _ _ (receiving_rwnd _ _ _ _ _ _ h Hrx) Hca)
    as (w' & y & rcv' & E & He' & Hrx' & Hy & Hfr & _).
  { unfold TCP_SEND_WINDOW_SIZE, MAX_DLEN in *. lia. }
  rewrite E. apply safe_done; [done|]. split; [|done]. split; [|done].
  unfold rx_next in *. cbn [Datatypes.fst Datatypes.snd] in *. rewrite He in *.
  destruct (Z.eqb_spec (seq_num h) (blen (h_read g ++ held))) as [Es|Es];
    cbn [Datatypes.fst Datatypes.snd] in *; [|by eapply vinv_received].
  assert (h_read g ++ held ++ d `prefix_of` h_stream g) as Hpre'.
  { rewrite app_assoc. destruct Hd as [->|[_ Hd]]; [by rewrite app_nil_r|].
    apply mem_read_extends; [done|by rewrite <- Es]. }
  eapply vinv_received; try done.
  rewrite He', app_assoc, (blen_app _ d), u32_id; [done|].
  pose proof (blen_nonneg (h_read g ++ held)). pose proof (blen_nonneg d).
  unfold is_u32, TCP_SEND_WINDOW_SIZE, MAX_DLEN in *. lia.
Qed.

End server.

(** ** The threads of the server in parallel

    Only the receive thread takes the handshake forward to [Completed], and only
    the application from there, step by step, to [Accepted]. *)

Definition receive_moves (p p' : phase) : Prop :=
  match p with
  | Listening => p' = Listening ∨ p' = Completing ∨ p' = Completed
  | Completing => p' = Completing ∨ p' = Completed
  | _ => p' = p
  end.
Definition app_moves (p p' : phase) : Prop :=
  match p with
  | Completed => p' ≠ Listening ∧ p' ≠ Completing
  | Published => registered p' = true
  | Reset => numbered p' = true
  | _ => p' = p
  end.

Definition server_rely (t : task_id) (g g' : sghost) : Prop :=
  h_stream g `prefix_of` h_stream g' ∧
  match t with
  | T_app => h_read g' = h_read g ∧ receive_moves (h_phase g) (h_phase g')
  | T_receive => app_moves (h_phase g) (h_phase g')
  | _ => True
  end.
Definition server_guar (t : task_id) (g g' : sghost) : Prop :=
  match t with
  | T_app => h_stream g' = h_stream g ∧ h_read g' = h_read g ∧ app_moves (h_phase g) (h_phase g')
  | T_receive => h_stream g' = h_stream g ∧ h_read g' = h_read g ∧ receive_moves (h_phase g) (h_phase g')
  | _ => g = g'
  end.
Definition server_finish (t : task_id) (x : io) (g g' : sghost) : Prop :=
  match t with T_app => g' = add_read g (io_read x) | _ => x = no_io ∧ g' = g end.

#[export] Instance receive_moves_preorder : PreOrder receive_moves.
Proof. split; [by intros []; cbn; auto|]. intros [] [] []; cbn; intuition congruence. Qed.
#[export] Instance app_moves_preorder : PreOrder app_moves.
Proof. split; [by intros []; cbn|]. intros [] [] []; cbn; intuition congruence. Qed.
#[export] Instance server_rely_preorder t : PreOrder (server_rely t).
Proof.
  split.
  - intros g. split; [done|]. by destruct t.
  - intros g1 g2 g3 [? H1] [? H2]. split; [by etrans|]. destruct t; try done; [|by etrans].
    destruct H1, H2. split; [congruence|by etrans].
Qed.
#[export] Instance server_guar_preorder t : PreOrder (server_guar t).
Proof.
  split.
  - intros g. by destruct t.
  - intros g1 g2 g3. destruct t; cbn; try congruence.
    + intros (? & ? & ?) (? & ? & ?). split_and!; [congruence..|by etrans].
    + intros (? & ? & ?) (? & ? & ?). split_and!; [congruence..|by etrans].
Qed.

#[export, refine] Instance server_parallel `{Env} l c wr aq sq : Parallel (server_inv l c wr aq sq) := {|
  pl_rely := server_rely; pl_guar := server_guar; pl_may _ _ _ := True; pl_finish := server_finish;
  pl_idle _ _ := True;
  pl_log g _ r := h_read g = r;
  pl_evolve g g' := h_stream g' = h_stream g
|}.
Proof.
  - split; [done|]. intros ? ? ?. congruence.
  - done.
  - done.
  - intros t t' g g' Hne Hg. destruct t; cbn in Hg; subst; try done;
      destruct Hg as (E1 & E2 & E3); split; try (by rewrite E1); by destruct t'.
  - intros [] g g' a r; cbn; (by intros (_ & -> & _)) || by intros ->.
  - intros [] g g'; cbn; (by intros (-> & _)) || by intros ->.
  - intros t t' x g g' Hne Hg. destruct t; cbn in Hg; destruct_and?; subst; try done. by destruct t'.
  - done.
  - intros [] x g g' a r; cbn; try (intros [-> ->]; by rewrite app_nil_r). by intros -> <-.
  - intros [] x g g'; cbn; try (by intros [_ ->]). by intros ->.
  - intros. by apply vinv_self.
  - intros. by apply vinv_clock.
  - intros g w th HI. destruct HI as [Hconn ? ? ? ? ? ? ? ? Hth]. constructor; rsimpl; try done.
    + intros cs Hs. eapply conn_ok_frame; [..|exact (Hconn _ Hs)]; reflexivity.
    + intros i x Hx. apply lookup_alter_Some in Hx as [(<- & y & Hy & ->)|[_ Hx]];
        [exact (Hth _ y Hy)|exact (Hth _ x Hx)].
Defined.

Section receive.
Context `{Env} (l c wr aq sq : loc) (Hhost : env_host = Host_server).

Abbreviation I := (server_inv l c wr aq sq).
Abbreviation Rely := (when (server_rely T_receive) (fun _ _ => True)).
Abbreviation Safe := (safe I Rely (server_guar T_receive)).
Abbreviation Kept := (fun (_ : Z) (g : sghost) (w : world) => I g w).

(** The phases in which the receive thread may be at work on the handshake. *)
Lemma rely_phase p g g' w :
  p = Listening ∨ p = Completing → Rely g g' w → h_phase g = p → h_phase g' = p.
Proof using. intros Hp [[_ Hg] _] E. rewrite E in Hg. by destruct Hp; subst p. Qed.
Lemma rely_completed g g' w :
  Rely g g' w → h_phase g ≠ Listening ∧ h_phase g ≠ Completing →
  h_phase g' ≠ Listening ∧ h_phase g' ≠ Completing.
Proof using. intros [[_ Hg] _] []. by destruct (h_phase g), (h_phase g'). Qed.

(** The last packet of the handshake, once the connection is marked. *)
Lemma safe_complete_rest g w pkt :
  I g w → h_phase g = Completing →
  Safe Kept g ((tcp_update_expected_seq l pkt;;
    sock ← load_sock l;
    let index := saved_syn sock in
    conn_sock ← alloc junk_sock;
    sockqueue_remove (syn_queue sock) conn_sock index;;
    modify conn_sock (fun c => c⟨state := ESTABLISHED⟩);;
    sockqueue_push (accept_queue sock) conn_sock;;
    mret 0) w).
Proof using.
  pose (F := fun g : sghost => h_phase g = Completing). intros HI Hp.
  assert (∀ g g' w, Rely g g' w → F g → F g') as HF by (intros ? ? ?; apply rely_phase; auto).
  eapply (safe_step I F); [apply _|exact HF|apply vkeeps_update_expected_seq; [apply _|by intros ? ->]|done|done|].
  clear g w HI Hp. intros [] g w _ HI Hp.
  eapply (safe_step I F); [apply _|exact HF|apply vkeeps_load_l; apply _|done|done|].
  clear g w HI Hp. intros ls g w [Ea Es] HI Hp. cbv zeta.
  eapply (safe_step I F); [apply _|exact HF|apply vkeeps_alloc_sock; apply _|done|done|].
  clear g w HI Hp. intros p g w [H1 H2] HI Hp.
  eapply (safe_step I F); [apply _|exact HF|apply vkeeps_remove; [apply _|by left|done|done]|done|done|].
  clear g w HI Hp. intros _ g w _ HI Hp.
  eapply (safe_step I F); [apply _|exact HF|apply vkeeps_modify_other; [apply _|done|done]|done|done|].
  clear g w HI Hp. intros [] g w _ HI Hp. unfold F in Hp.
  apply (safe_guar _ _ _ _ _ (set_phase g Completed)).
  { split_and!; [done|done|]. rewrite Hp. by right. }
  eapply (safe_step I (fun g => h_phase g ≠ Listening ∧ h_phase g ≠ Completing));
    [apply _|exact rely_completed|apply vkeeps_push; [apply _|by right; intros ? ?]| |done|].
  { apply vinv_phase; try done; [by rewrite Hp|by intros [|]|]. intros x Hx _.
    destruct (vi_listener _ _ _ _ _ _ _ HI) as (y & Hy & Ho). assert (x = y) as -> by congruence.
    apply (lo_states _ _ _ _ _ Ho). by rewrite Hp. }
  intros _ g2 w2 _ HI2 _. by apply safe_done; [apply _|].
Qed.

(** The last packet of the handshake. *)
Lemma safe_complete g w pkt :
  I g w → h_phase g = Listening → Safe Kept g (server_complete l pkt connection_index w).
Proof using.
  intros HI Hp. destruct (vi_listener _ _ _ _ _ _ _ HI) as (ls & Hls & _).
  unfold server_complete. run. unfold array_set.
  destruct ((0 <=? connection_index) && (connection_index <? blen (listen_state ls))) eqn:Eb; [|done].
  apply andb_prop in Eb as [_ Eb]. apply Z.ltb_lt in Eb.
  erewrite bind_done by (apply lift_ok; reflexivity).
  erewrite bind_done by (eapply modify_ok; exact Hls).
  set (y := ls⟨listen_state := <[Z.to_nat connection_index := ESTABLISHED]> (listen_state ls)⟩).
  set (w1 := heap_upd _ _).
  assert (I (set_phase g Completing) w1) as HI1.
  { apply (vinv_phase _ _ _ _ _ g); [|by rewrite Hp|done|..].
    - apply (vinv_states l c wr aq sq g w ls y); [done|done|by split_and!|by rewrite Hp].
    - by auto.
    - assert (w_socks w1 !! l = Some y) as Hy by apply lookup_insert_eq.
      intros x Hx _. assert (x = y) as -> by congruence. unfold y. rsimpl.
      apply list_lookup_insert_eq. unfold blen, connection_index in *. lia. }
  apply (safe_guar _ _ _ _ _ (set_phase g Completing)).
  { split_and!; [done|done|]. rewrite Hp. cbn. auto. }
  by apply safe_complete_rest.
Qed.

(** The listening socket takes a packet of the peer. *)
Lemma safe_rcv_state_server g w pkt h :
  I g w → fields_of pkt h →
  Safe Kept g (tcp_rcv_state_server l pkt (mk_addr client_ip client_port) w).
Proof using.
  pose (F := fun g : sghost => h_phase g = Listening).
  assert (∀ g g' w, Rely g g' w → F g → F g') as HF by (intros ? ? ?; apply rely_phase; auto).
  intros HI [? ? ? ? ? ? ? ? ? ?]. destruct (vi_listener _ _ _ _ _ _ _ HI) as (ls & Hls & Ho).
  unfold tcp_rcv_state_server. run.
  destruct (w_snds w !! wnd_send ls) as [snd|] eqn:Hsnd; [|by erewrite bind_undef by (apply bind_undef, load_bad; exact Hsnd)].
  erewrite bind_done by (eapply modify_ok; exact Hsnd). cbn [heap_upd heap_snds].
  apply (vinv_snds _ _ _ _ _ _ _ (<[wnd_send ls := snd⟨rwnd := advertised_window h⟩]> (w_snds w))) in HI.
  set (w1 := w⟨w_snds := _⟩) in *.
  rewrite (lo_bind _ _ _ _ _ Ho).
  change (cal_hash _ _ _ _) with (cal_hash server_ip server_port client_ip client_port).
  assert (cal_hash server_ip server_port client_ip client_port = Some connection_index) as -> by reflexivity.
  erewrite bind_done by (apply lift_ok; reflexivity).
  unfold array_get. change (0 <=? connection_index) with true. cbv iota.
  destruct (listen_state ls !! Z.to_nat connection_index) as [st|] eqn:Est; [|done].
  erewrite bind_done by (apply lift_ok; reflexivity).
  assert (st ≠ ESTABLISHED → h_phase g = Listening) as Hph.
  { intros Hst. destruct (decide (h_phase g = Listening)) as [|Hn]; [done|].
    pose proof (lo_states _ _ _ _ _ Ho Hn). congruence. }
  destruct (Z.eqb_spec st CLOSED) as [->|_]; [by apply safe_done; [apply _|]|].
  destruct (Z.eqb_spec st LISTEN) as [->|_].
  - specialize (Hph ltac:(done)). destruct (_ =? SYN).
    + eapply (safe_weaken _ _ _ (fun a g w => (I g w ∧ F g) ∧ True)); [|by intros ? ? ? [[] _]].
      apply (safe_restrict _ F); [exact HF|]. by apply vkeeps_listen_syn; [apply _|intros ? ?|].
    + by destruct (_ =? RST); apply safe_done; try apply _.
  - destruct (Z.eqb_spec st SYN_RECV) as [->|_]; [|by apply safe_done; [apply _|]].
    specialize (Hph ltac:(done)). destruct (_ =? ACK); [|by apply safe_done; [apply _|]].
    unfold server_syn_recv_ack.
    eapply (safe_step I F); [apply _|exact HF|apply vkeeps_stop_timer; apply _|done|done|].
    intros [] g' w' _ HI' Hp'. by apply safe_complete.
Qed.

(** What the receive thread does with a packet of the peer, which it does not begin
    to handle while [tcp_accept] is between the table and the send thread. *)
Lemma safe_onTCPPocket g w pkt :
  I g w → (registered (h_phase g) = true → h_phase g = Accepted) → peer_packet (h_stream g) pkt → Safe Kept g (onTCPPocket pkt w).
Proof using All.
  intros HI Hdone Hpk. pose proof Hpk as (h & d & Hca & Hport & _). pose proof (ca_fields _ _ _ Hca) as Hf.
  unfold onTCPPocket. pose proof Hf as [Hsrc Hdst _ _ _ _ _ _ _ _]. run. rewrite Hport.
  destruct (buf_to_packet pkt) as [p|]; [|done]. erewrite bind_done by (apply lift_ok; reflexivity).
  destruct (tcp_check p) as [ok|]; [|done]. erewrite bind_done by (apply lift_ok; reflexivity).
  destruct (ok =? 0); [by apply safe_done; [apply _|]|].
  destruct (vi_manager _ _ _ _ _ _ _ HI) as (m & Hm & Hsv & Hlq & Heq & _).
  destruct (dispatch_server w m server_ip client_ip client_port (destination_port h) pkt)
    as [[u ->]|(listen & established & st & fin & Hl & He & ->)];
    [by unfold host_addresses; rewrite Hhost|done|done|done|].
  assert (∀ m : M Z, keeps (fun g w => I g w ∧ True) Rely (server_guar T_receive) m
    (fun _ => True) → Safe Kept g (m w)) as Hk.
  { intros k Hk. eapply safe_weaken; [apply _|apply (safe_restrict _ (fun _ => True)); [done|by apply Hk]|].
    by intros a g' w' [[] _]. }
  unfold server_route. destruct established as [e|].
  - destruct (He e eq_refl) as (Hin & cs & Hcs & Hst). apply Heq in Hin as [-> Hph%Hdone].
    destruct (fin || negb (st =? ESTABLISHED)) eqn:Ecl; cbn [run_route].
    + apply Hk, vkeeps_state_close. apply _.
    + apply orb_false_elim in Ecl as [_ Ecl]. apply negb_false_iff, Z.eqb_eq in Ecl.
      eapply safe_weaken; [apply _| |].
      * apply (safe_restrict _ (fun _ => True)); [done|].
        apply (safe_handle_packet l c wr aq sq (fun _ => True) _ _ Hhost g w cs); [done|done|done|congruence|done].
      * by intros a g' w' [[] _].
  - unfold opening_route. destruct listen as [q|]; cbn [run_route].
    + rewrite (Hlq q (Hl q eq_refl)). by eapply safe_rcv_state_server.
    + by apply safe_done; [apply _|].
Qed.

End receive.

Section application.
Context `{Env} (l c wr aq sq : loc).

Abbreviation I := (server_inv l c wr aq sq).
Abbreviation Rely := (when (server_rely T_app) (fun _ _ => True)).
Abbreviation Safe := (safe I Rely (server_guar T_app)).
Abbreviation Ends := (finished I T_app).

(** [tcp_recv] on a connection that holds bytes. *)
Lemma safe_recv_ready g w cs len :
  I g w → w_socks w !! c = Some cs → 0 < received_len cs → Safe Ends g (run_call c (Call_recv len) w).
Proof using.
  intros HI Hs H0. destruct (vi_conn _ _ _ _ _ _ _ HI cs Hs) as [_ Hlk _ (held & Hrep & Hpre & _ & _)].
  pose proof Hrep as [Hlen Hbuf]. cbn [run_call].
  destruct (Z.ltb_spec len 0) as [Hneg|Hpos].
  { destruct (received_buf cs) as [b|] eqn:Eb; [|by subst held; rewrite Hlen in H0]. destruct Hbuf as [rest Hbuf].
    erewrite bind_undef; [done|]. unfold tcp_recv.
    erewrite bind_done by (apply await_ok; rewrite Hs; cbn; f_equal; by apply Z.ltb_lt).
    run. zdecide_true (len <=? received_len cs). erewrite bind_undef; [done|].
    unfold copy_out. erewrite bind_done by (apply load_ok; lookup_tac).
    unfold mem_read. zdecide_false (0 <=? len). by rewrite andb_false_r. }
  assert (held ≠ []) as Hne by (intros ->; by rewrite Hlen in H0).
  assert (blen held < 2 ^ 31) as Hmax.
  { destruct Hpre as [k Ek]. pose proof (vi_len _ _ _ _ _ _ _ HI) as Hl. rewrite Ek, !blen_app in Hl.
    pose proof (blen_nonneg k). pose proof (blen_nonneg (h_read g)).
    unfold TCP_SEND_WINDOW_SIZE, MAX_DLEN in *. lia. }
  destruct (tcp_recv_ok w c cs held len Hs Hlk Hrep Hne Hmax Hpos) as [Hok Hbad].
  destruct (Z.leb_spec (blen held - len) len) as [Hle|Hgt]; [|by rewrite (bind_undef _ _ _ _ (Hbad Hgt))].
  destruct (Hok Hle) as (bufs & E & Hrep' & Hb). erewrite bind_done by exact E.
  apply safe_done; [apply _|]. exists (add_read g (take (Z.to_nat len) held)). split; [done|].
  eapply vinv_app_read; [reflexivity|done|done|done| |done|done|done]. by rewrite take_drop.
Qed.

Lemma safe_recv g w len : I g w → Safe Ends g (run_call c (Call_recv len) w).
Proof using.
  intros HI. destruct (w_socks w !! c) as [cs|] eqn:Hs.
  2: { cbn [run_call]. erewrite bind_undef; [done|]. apply bind_undef. unfold await. by rewrite Hs. }
  destruct (Z.ltb_spec 0 (received_len cs)) as [H0|H0]; [by eapply safe_recv_ready|].
  cbn [run_call].
  erewrite bind_wait by (apply bind_wait, await_wait; rewrite Hs; cbn; f_equal; by apply Z.ltb_ge).
  exists g. split; [done|]. split; [done|]. intros g2 w2 _ HI2 Hc. cbn [mbind option_bind] in Hc.
  destruct (w_socks w2 !! c) as [cs2|] eqn:Hs2; [|done]. injection Hc as Hc.
  pose proof (safe_recv_ready g2 w2 cs2 len HI2 Hs2 ltac:(by apply Z.ltb_lt)) as Hsafe.
  cbn [run_call] in Hsafe. unfold tcp_recv, mbind, M_bind in *.
  rewrite await_ok in Hsafe by (rewrite Hs2; cbn; congruence). exact Hsafe.
Qed.

(** The phases as [tcp_accept] moves them: the receive thread leaves them alone. *)
Lemma rely_app p g g' w :
  p ≠ Listening → p ≠ Completing → Rely g g' w → h_phase g = p → h_phase g' = p.
Proof using. intros H1 H2 [(_ & _ & Hm) _] E. rewrite E in Hm. by destruct p. Qed.

Lemma vkeeps_load_conn F rely guar `{!PreOrder guar} :
  keeps (fun g w => I g w ∧ F g) rely guar (load_sock c) (fun x => wnd_recv x = wr).
Proof using.
  apply keeps_load_with; [done|]. intros g w x [HI _] Hx.
  exact (co_rcv _ _ _ _ (vi_conn _ _ _ _ _ _ _ HI x Hx)).
Qed.

(** One statement of [tcp_accept] that stays in the phase. *)
Tactic Notation "step" uconstr(lem) :=
  match goal with HI : server_inv _ _ _ _ _ ?g ?w, Hp : h_phase ?g = ?p |- safe _ _ _ _ ?g _ =>
    eapply (safe_step I (fun g => h_phase g = p));
    [apply _|by intros ? ? ?; apply rely_app|eapply lem|exact HI|exact Hp|clear g w HI Hp] end.

(** The send thread starts. *)
Lemma safe_start_send g w :
  I g w → h_phase g = Reset →
  Safe (fun _ g w => I g w) g
    ((preempt;;
      x ← load_sock c;
      modify (wnd_send x) (fun r => r⟨base := 0⟩);;
      preempt;;
      x ← load_sock c;
      modify (wnd_send x) (fun r => r⟨nextseq := 0⟩);;
      preempt;;
      th ← pthread_create (Run_tcp_send_stream c);
      modify c (fun x => x⟨send_thread := Some th⟩);;
      mret 0) w).
Proof using All.
  intros HI Hp.
  step keeps_preempt; [apply _|]. intros [] g w _ HI Hp.
  step keeps_load; [apply _|]. intros x g w _ HI Hp.
  step vkeeps_modify_snd; [apply _|]. intros [] g w _ HI Hp.
  step keeps_preempt; [apply _|]. intros [] g w _ HI Hp.
  step keeps_load; [apply _|]. intros y g w _ HI Hp.
  step vkeeps_modify_snd; [apply _|]. intros [] g w _ HI Hp.
  step keeps_preempt; [apply _|]. intros [] g w _ HI Hp.
  erewrite bind_done by reflexivity.
  apply (safe_guar _ _ _ _ _ (set_phase g Accepted)); [by split_and!; [..|rewrite Hp]|].
  apply vinv_accepted in HI; [|done]. revert HI. generalize (set_phase g Accepted). intros g' HI.
  assert (keeps (fun g w => I g w ∧ True) Rely (server_guar T_app)
    (modify c (fun x : tju_tcp_t => x⟨send_thread := Some (w_next w)⟩);; mret 0) (fun _ => True)) as Hk.
  { eapply keeps_bind; [apply _|apply vkeeps_modify_sock; [apply _|intros ?; left; by split_and!]|].
    intros ? _. by apply keeps_ret; [apply _|]. }
  eapply safe_weaken; [apply _|apply (safe_restrict _ (fun _ => True)); [done|by apply Hk]|].
  by intros a g2 w2 [[] _].
Qed.

(** The sequence numbers are reset. *)
Lemma safe_reset g w :
  I g w → h_phase g = Published →
  Safe (fun _ g w => I g w) g
    ((preempt;;
      x ← load_sock c;
      modify (wnd_recv x) (fun r => r⟨expect_seq := 0⟩);;
      preempt;;
      x ← load_sock c;
      modify (wnd_send x) (fun r => r⟨base := 0⟩);;
      preempt;;
      x ← load_sock c;
      modify (wnd_send x) (fun r => r⟨nextseq := 0⟩);;
      preempt;;
      th ← pthread_create (Run_tcp_send_stream c);
      modify c (fun x => x⟨send_thread := Some th⟩);;
      mret 0) w).
Proof using All.
  intros HI Hp.
  step keeps_preempt; [apply _|]. intros [] g w _ HI Hp.
  step vkeeps_load_conn; [apply _|]. intros x g w -> HI Hp.
  destruct (w_rcvs w !! wr) as [rcv|] eqn:Hrcv; [|by erewrite bind_undef by (apply bind_undef, load_bad; exact Hrcv)].
  erewrite bind_done by (eapply modify_ok; exact Hrcv).
  apply (safe_guar _ _ _ _ _ (set_phase g Reset)); [by split_and!; [..|rewrite Hp]|].
  apply safe_start_send; [|done]. by apply vinv_reset.
Qed.

(** The rest of [tcp_accept], from the address of the connection on. *)
Lemma safe_register g w h :
  I g w → h_phase g = Completed →
  Safe (fun _ g w => I g w) g
    ((m ← get_tcp_manager;
      eq ← array_set (established_queue m) h (Some c);
      set_tcp_manager (m⟨established_queue := eq⟩);;
      preempt;;
      x ← load_sock c;
      modify (wnd_recv x) (fun r => r⟨expect_seq := 0⟩);;
      preempt;;
      x ← load_sock c;
      modify (wnd_send x) (fun r => r⟨base := 0⟩);;
      preempt;;
      x ← load_sock c;
      modify (wnd_send x) (fun r => r⟨nextseq := 0⟩);;
      preempt;;
      th ← pthread_create (Run_tcp_send_stream c);
      modify c (fun x => x⟨send_thread := Some th⟩);;
      mret 0) w).
Proof using All.
  intros HI Hp. destruct (vi_manager _ _ _ _ _ _ _ HI) as (m & Hm & Hsv & Hlq & Heq & _).
  erewrite bind_done by (by apply get_tcp_manager_ok).
  unfold array_set. destruct ((0 <=? h) && (h <? _)) eqn:Eh; [|done].
  erewrite bind_done by (apply lift_ok; reflexivity). erewrite bind_done by reflexivity.
  apply andb_prop in Eh as [Eh0 Eh]. apply Z.leb_le in Eh0. apply Z.ltb_lt in Eh.
  apply (safe_guar _ _ _ _ _ (set_phase g Published)); [by split_and!; [..|rewrite Hp]|].
  apply safe_reset; [|done]. apply vinv_published; try done; rsimpl.
  - intros p [i Hi]%list_elem_of_lookup. revert Hi.
    intros [(_ & [= ->] & _)|[_ Hi]]%list_lookup_insert_Some; [done|].
    by eapply Heq, list_elem_of_lookup_2.
  - eapply list_elem_of_lookup_2, list_lookup_insert_eq. unfold blen in *. lia.
Qed.

Lemma safe_accept_connection g w :
  I g w → h_phase g = Completed → Safe (fun _ g w => I g w) g (accept_connection l c w).
Proof using All.
  assert (queue_free sq (fun g => h_phase g = Completed) aq) as Hq by (right; by intros ? ->).
  intros HI Hp. unfold accept_connection.
  step vkeeps_alloc_sock; [apply _|]. intros p g w [H1 H2] HI Hp.
  step vkeeps_load_l; [apply _|]. intros ls g w [-> _] HI Hp.
  step vkeeps_pop; [apply _|done|done|done|]. intros status g w _ HI Hp.
  step keeps_preempt; [apply _|]. intros [] g w _ HI Hp.
  destruct (status <? 0); [by apply safe_done; [apply _|]|].
  step vkeeps_load_l; [apply _|]. intros ls2 g w _ HI Hp.
  step keeps_load; [apply _|]. intros cs g w _ HI Hp. cbv zeta.
  step vkeeps_modify_sock; [apply _|intros ?; left; by split_and!|]. intros [] g w _ HI Hp.
  step keeps_preempt; [apply _|]. intros [] g w _ HI Hp.
  step vkeeps_modify_sock; [apply _|intros ?; left; by split_and!|]. intros [] g w _ HI Hp.
  step keeps_preempt; [apply _|]. intros [] g w _ HI Hp.
  step vkeeps_conn_state; [apply _|by intros ? ->|intros ?; by split_and!|]. intros [] g w _ HI Hp.
  step keeps_preempt; [apply _|]. intros [] g w _ HI Hp.
  step keeps_lift; [apply _|]. intros h g w _ HI Hp. by apply safe_register.
Qed.

End application.
