(* ===== verification/Server.v ===== *)
(** * The server host, all threads together

    The application of src/app/server.c listens, accepts one connection and reads
    from it; a scheduler runs its thread, the receive thread, the send thread and
    the timer threads in any order.  In every state it reaches, what the
    application has read is a prefix of the stream whose pieces the peer sends. *)

From S2P Require Import Prelude Consts CFloat Packet Machine Threads SockQueue Control Timer Transfer TimerThread.
From S2P Require Import Kernel Api Host Receiver Samples.

(** ** Listening *)

(** src/app/server.c up to its loop. *)
Definition server_addr : tju_sock_addr := mk_addr server_ip server_port.
Definition server_main `{Env} : M unit :=
  startSimulation true true true;;
  my_server ← tcp_socket;
  tcp_bind my_server server_addr;;
  tcp_listen my_server;;
  conn_sock ← alloc junk_sock;
  tcp_accept my_server conn_sock;;
  mret tt.

(** The listening socket is the second object the program allocates, the
    connection the twelfth. *)
Definition listen_loc : loc := 2.
Definition conn_loc : loc := 12.

Section boot.
Context `{Env}.

Definition ghost0 : sghost := mk_sghost Listening [] [].

(** The two sockets when [tcp_accept] begins to wait. *)
Lemma listening_inv w0 w1 w2 l c sock snd rcv r b y z m states :
  w2 = w1⟨w_next := Pos.succ (w_next w1)⟩⟨w_manager := Some m⟩
         ⟨w_socks := <[c := z]> (<[l := y]> (w_socks w1))⟩ →
  new_socket w0 w1 l sock snd rcv r b →
  world_ok w0 → (∀ th x, w_threads w0 !! th = Some x → x = mk_thread Run_receive_thread false) →
  c = w_next w1 →
  z = y → y = sock⟨bind_addr := server_addr⟩⟨state := LISTEN⟩⟨listen_state := states⟩ →
  is_server m ≠ 0 → (∀ p, Some p ∈ listen_queue m → p = l) → (∀ p, Some p ∉ established_queue m) →
  server_inv l c (wnd_recv sock) (accept_queue sock) (syn_queue sock) ghost0 w2.
Proof using.
  intros -> [_ _ _ _ Hb [rest Hr] _ _ (_ & Hq & Hne) _ (Hf & _)
    (_ & Hsl & _ & Hrl & _) (_ & Hlk & _) _ _ _ _ _ _ Hok (_ & Hth & _)] Hw0 Hth0 -> -> Ey Hsv Hl He.
  specialize (Hok Hw0). destruct Hok as [_ _ _ _ _ Hbufs].
  constructor; rsimpl; cbn [ghost0 h_phase h_stream h_read]; try done.
  - intros cs [[_ <-]|[? _]]%lookup_insert_Some; [|done].
    constructor; [by rewrite Ey..|]. exists []. unfold recv_rep. rsimpl. cbn [ghost0 h_phase h_stream h_read].
    split_and!; try done; [by rewrite Ey|].
    assert (received_buf y = Some b) as -> by by rewrite Ey. by exists rest.
  - exists y. rewrite lookup_insert_ne, lookup_insert_eq by lia. split; [done|]. by subst y.
  - intros _. by eexists.
  - split; [lia|congruence].
  - split; lia.
  - eapply below_le; [|exact Hbufs]. lia.
  - exists m. split_and!; try done. intros p Hp. by apply He in Hp.
  - intros th x Hx. rewrite Hth in Hx. rewrite (Hth0 _ _ Hx). cbn. tauto.
Qed.

(** [tcp_accept] from the wait on. *)
Lemma safe_accept l c wr aq sq g w :
  server_inv l c wr aq sq g w → h_phase g = Listening →
  safe (server_inv l c wr aq sq) (when (server_rely T_app) (fun _ _ => True)) (server_guar T_app)
    (fun _ g w => server_inv l c wr aq sq g w) g
    ((await (fun w => l ← w_socks w !! l; q ← w_queues w !! accept_queue l; Some (negb (q_size q =? 0)));;
      accept_connection l c) w).
Proof using.
  intros HI Hp. destruct (vi_listener _ _ _ _ _ _ _ HI) as (ls & Hls & Hlo).
  destruct (vi_queue _ _ _ _ _ _ _ HI (or_introl Hp)) as (q & Hq & H0).
  erewrite bind_wait by (apply await_wait; rewrite Hls; cbn [mbind option_bind];
    rewrite (lo_accept _ _ _ _ _ Hlo), Hq; cbn; by rewrite H0).
  exists g. split; [done|]. split; [done|]. intros g2 w2 [(_ & _ & Hm) _] HI2 Hc.
  apply safe_accept_connection; [done|].
  destruct (vi_listener _ _ _ _ _ _ _ HI2) as (ls2 & Hls2 & Hlo2). rewrite Hls2 in Hc. cbn [mbind option_bind] in Hc.
  rewrite (lo_accept _ _ _ _ _ Hlo2) in Hc. rewrite Hp in Hm.
  pose proof (vi_queue _ _ _ _ _ _ _ HI2) as Hq2.
  assert (¬ (h_phase g2 = Listening ∨ h_phase g2 = Completing)) as Hn.
  { intros Hph. destruct (Hq2 Hph) as (q2 & Eq2 & E0). rewrite Eq2 in Hc. cbn in Hc. by rewrite E0 in Hc. }
  destruct (h_phase g2); try done; [by destruct Hn; left|by destruct Hn; right|..]; by destruct Hm as [|[|]].
Qed.

Lemma listen_hash : ∃ h, cal_hash server_ip server_port 0 0 = Some h ∧ 0 <= h < MAX_SOCK_SIZE.
Proof using. eexists. split; [reflexivity|done]. Qed.

Lemma started_ok : world_ok started_world.
Proof using.
  unfold started_world, initial_world. constructor; rsimpl; intros p [x Hx]; by rewrite lookup_empty in Hx.
Qed.

(** The program up to the point where the application may use the connection. *)
Lemma server_main_safe :
  ∃ wr aq sq, task_safe (server_inv listen_loc conn_loc wr aq sq) T_app ghost0
    ((server_main;; mret no_io) (initial_world⟨w_self := None⟩)).
Proof using.
  destruct (tcp_socket_ok started_world) as (w1 & sock & snd & rcv & r & b & E & N).
  change (w_next started_world) with listen_loc in *.
  exists (wnd_recv sock), (accept_queue sock), (syn_queue sock).
  set (I := server_inv _ _ _ _ _).
  eapply (safe_bind _ _ _ (fun _ g w => I g w)).
  2: { intros [] g w HI. apply safe_done; [apply _|]. exists g. split; [|done].
       destruct g. unfold pl_finish. cbn. unfold add_read. cbn. by rewrite app_nil_r. }
  unfold server_main. erewrite bind_done by exact startSimulation_initial.
  erewrite bind_done by exact E.
  assert (w_socks w1 !! listen_loc = Some sock) as Hs
    by (rewrite (ns_socks _ _ _ _ _ _ _ _ N); apply lookup_insert_eq).
  pose proof (ns_frame _ _ _ _ _ _ _ _ N) as (_ & _ & Hm & _ & _ & _ & Hn).
  change (w_next started_world + 10)%positive with conn_loc in Hn.
  destruct started_manager as (m & Em & Hl & [_ Hen] & _). rewrite Em in Hm. clear Em.
  destruct listen_hash as (h & Eh & Hh).
  erewrite bind_done by (apply tcp_bind_ok; exact Hs).
  erewrite bind_done by (eapply tcp_listen_ok; [apply lookup_insert_eq|exact Hm|by rewrite (proj1 Hl)|exact Eh]).
  rsimpl. rewrite insert_insert_eq. erewrite bind_done by reflexivity. rsimpl. unfold tcp_accept.
  rewrite Hn. eapply (safe_bind _ _ _ (fun _ g w => I g w)).
  2: { intros _ g w HI. by apply safe_done; [apply _|]. }
  unfold copy_sock. erewrite bind_done by (run; eapply store_ok; rsimpl; lookup_tac). rsimpl.
  rewrite insert_insert_eq. apply safe_accept; [|done].
  eapply (listening_inv started_world w1);
    [by rewrite Hn|exact N|exact started_ok|exact started_threads|by rewrite Hn|reflexivity|reflexivity|done| |exact Hen].
  intros p. by apply empty_table_insert.
Qed.

End boot.

(** ** The threads *)

Section threads.
Context `{Env} (l c wr aq sq : loc).

Abbreviation Inv := (server_inv l c wr aq sq).

(** The peer may send more. *)
Definition set_stream (g : sghost) (S : list Z) : sghost := mk_sghost (h_phase g) S (h_read g).

Lemma server_inv_grow g w S :
  Inv g w → h_stream g `prefix_of` S → blen S <= TCP_SEND_WINDOW_SIZE → Inv (set_stream g S) w.
Proof using.
  intros [Hconn Hread ? Hlist ? ? ? ? ? ?] HS Hlen.
  constructor; cbn [set_stream h_phase h_stream h_read]; try done.
  - intros cs Hs. destruct (Hconn cs Hs) as [? ? ? (held & ? & ? & ? & ?)]. constructor; try done.
    exists held. split_and!; try done. by etrans.
  - by etrans.
  - destruct Hlist as (ls & ? & []). by exists ls.
Qed.

Lemma server_grow g sy S :
  sys_inv Inv g sy → h_stream g `prefix_of` S → blen S <= TCP_SEND_WINDOW_SIZE →
  sys_inv Inv (set_stream g S) sy.
Proof using.
  intros [Hl HI Ht Hid Hrd] HS Hlen. constructor; [done|by apply server_inv_grow| |done|done].
  intros t b Hb. eapply task_ok_mono; [by apply Ht|]. split; [done|].
  destruct t; cbn; by try split.
Qed.

(** Between the statement of [tcp_accept] that enters the connection in the table and
    the one that creates its send thread the connection is half open: a segment it
    took then would be counted from a number that is reset afterwards. *)
Definition runs_send (x : thread) : bool :=
  match th_body x with Run_tcp_send_stream p => bool_decide (p = c) | _ => false end.
Definition half_open (sy : system) : bool :=
  match w_manager (sy_world sy) with
  | Some m => bool_decide (Some c ∈ established_queue m)
  | None => false
  end && negb (existsb (fun '(_, x) => runs_send x) (map_to_list (w_threads (sy_world sy)))).
Definition server_sched (sy : system) (e : event) : bool :=
  negb (half_open sy && match e with Ev_receive _ => true | _ => false end).

(** The receive thread begins only when the connection is not half open. *)
Lemma half_open_phase g sy pkt :
  Inv g (sy_world sy) → server_sched sy (Ev_receive pkt) = true →
  registered (h_phase g) = true → h_phase g = Accepted.
Proof using.
  intros HI Hs Hr. destruct (decide (h_phase g = Accepted)) as [|Hn]; [done|]. exfalso.
  destruct (vi_manager _ _ _ _ _ _ _ HI) as (m & Hm & _ & _ & _ & Hin). specialize (Hin Hr).
  unfold server_sched, half_open in Hs. rewrite Hm, bool_decide_eq_true_2, andb_true_r in Hs by done.
  cbn [andb] in Hs. rewrite negb_involutive in Hs. apply existsb_exists in Hs as ([th x] & Hx & Hrun).
  apply list_elem_of_In, elem_of_map_to_list in Hx. unfold runs_send in Hrun.
  destruct (vi_threads _ _ _ _ _ _ _ HI th x Hx) as [E|[E|[E|[E ?]]]]; [by rewrite E in Hrun..|done].
Qed.

(** The application reads; what arrives is from the peer, which sends pieces of
    [S]. *)
Definition server_event_ok (S : list Z) (e : event) : Prop :=
  match e with
  | Ev_call c => ∃ len, c = Call_recv len
  | Ev_receive pkt => peer_packet S pkt
  | _ => True
  end.

Context (Hhost : env_host = Host_server).

Lemma server_step e g sy sy' :
  sys_inv Inv g sy → server_event_ok (h_stream g) e → server_sched sy e = true → exec_event c e sy = Some sy' →
  ∃ g', sys_inv Inv g' sy' ∧ h_stream g' = h_stream g.
Proof using Hhost.
  intros Hsy He Hsch. pose proof (sv_world _ _ _ Hsy) as HI.
  assert (∀ t (m : M unit) w, t ≠ T_app →
    keeps (fun g w => Inv g w ∧ True) (when (server_rely t) (fun _ _ => True)) eq m (fun _ => True) →
    Inv g w → task_safe Inv t g ((m;; mret no_io) w)) as Hk.
  { intros t m w Ht Hm HIw. eapply (keeps_task _ _ _ (fun _ => True)); [by destruct t| |done|done].
    intros g1 w1 HI1. eapply safe_weaken; [apply _|apply (safe_restrict _ (fun _ => True)); [done|by apply Hm]|].
    by intros a g' w' [[] _]. }
  destruct e as [k|pkt|th|th|t|n]; cbn [exec_event].
  - destruct He as [len ->]. apply (start_inv Inv _ _ _ _ _ Hsy). intros HIw _. by apply safe_recv.
  - apply (start_inv Inv _ _ _ _ _ Hsy). intros HIw _. unfold task_safe.
    eapply safe_bind; [apply _|apply (safe_onTCPPocket l c wr aq sq Hhost g _ pkt HIw); [by eapply half_open_phase|exact He]|].
    intros a g' w' HI'. apply safe_done; [apply _|]. by exists g'.
  - destruct (w_threads (sy_world sy) !! th) as [[[p|p|] []]|] eqn:Eth; try done.
    destruct (vi_threads _ _ _ _ _ _ _ HI _ _ Eth) as [[=]|[[=]|[[=]|[[= ->] _]]]].
    apply (start_inv Inv _ _ _ _ _ Hsy). intros HIw _. apply Hk; [done| |done].
    apply vkeeps_send_iteration, _.
  - destruct (w_threads (sy_world sy) !! th) as [[[p|p|] []]|] eqn:Eth; try done.
    assert (p = l ∨ p = c) as Hp by (destruct (vi_threads _ _ _ _ _ _ _ HI _ _ Eth) as [[=]|[[=]|[[=]|[[=] _]]]]; auto).
    apply (start_inv Inv _ _ _ _ _ Hsy). intros HIw _. apply Hk; [done| |done].
    by apply vkeeps_check_timeout; [apply _|].
  - exact (resume_inv Inv c t g sy sy' Hsy I).
  - exact (tick_inv Inv c n g sy sy' Hsy).
Qed.

End threads.

(** ** Properties *)

Section properties.
Context `{Env} (Hhost : env_host = Host_server).

(** The states of the server while packets of the stream [S] arrive, none of which is
    handled while the connection is half open. *)
Definition server_ok (S : list Z) (sy : system) (e : event) : Prop :=
  server_event_ok S e ∧ server_sched conn_loc sy e = true.
Definition server_state (S : list Z) (sy : system) : Prop :=
  ∃ sy0, boot server_main = Some sy0 ∧ reachable conn_loc (server_ok S) sy0 sy.

Lemma server_boot_inv sy :
  boot server_main = Some sy →
  ∃ wr aq sq g, sys_inv (server_inv listen_loc conn_loc wr aq sq) g sy ∧ h_stream g = [].
Proof using.
  intros Hb. destruct server_main_safe as (wr & aq & sq & Hm). exists wr, aq, sq.
  destruct (boot_inv (server_inv listen_loc conn_loc wr aq sq) server_main ghost0 sy) as (g & Hg & E);
    [done|by intros []|exact Hm|exact Hb|].
  exists g. split; [exact Hg|exact E].
Qed.

Lemma server_state_inv S sy :
  blen S <= TCP_SEND_WINDOW_SIZE → server_state S sy →
  ∃ wr aq sq g, sys_inv (server_inv listen_loc conn_loc wr aq sq) g sy ∧ h_stream g = S.
Proof using All.
  intros HS (sy0 & Hb & Hr). destruct (server_boot_inv _ Hb) as (wr & aq & sq & g0 & H0 & E0).
  exists wr, aq, sq. induction Hr as [|e sy sy' _ (g & Hg & Eg) [He Hsch] Hs].
  - eexists. split; [apply (server_grow _ _ _ _ _ _ _ S H0); [rewrite E0; apply prefix_nil|done]|done].
  - subst S. by eapply server_step.
Qed.

(** C5: the receiving host.  From the start of the server program, with threads that
    switch wherever one waits and between the statements of [tcp_accept] behind its
    wait, while packets of a peer arrive that are bare headers or carry a piece of [S]
    at the offset of their sequence number -- in any order, any number of times,
    before, during and after the handshake, but none of them handled between the
    statement of [tcp_accept] that enters the connection in the table and the one that
    starts its send thread -- what the application has read is a prefix of [S].
    With a packet in that place the claim fails: [early_segment_corrupts] of
    Network.v. *)
Theorem server_reads_prefix S sy :
  blen S <= TCP_SEND_WINDOW_SIZE → server_state S sy → sy_read sy `prefix_of` S.
Proof using All.
  intros HS Hsy. destruct (server_state_inv S sy HS Hsy) as (wr & aq & sq & g & [Hl HI _ _ _] & <-).
  cbn in Hl. rewrite <- Hl. by eapply vi_read.
Qed.

End properties.

(** ** Instances *)

#[local] Instance server_env : Env := env_at Host_server.

(** A peer that sends [1; 2; 3; 4]: the handshake, a segment, a copy of it, and
    one that arrives before the bytes between them. *)
Definition peer_stream : list Z := [1; 2; 3; 4].
Definition peer_segment (seq : Z) (d : list Z) : list Z :=
  data_segment client_port server_port seq NO_FLAG 100 d.
Definition server_events : list event :=
  [Ev_receive (segment client_port server_port 0 0 SYN 100); Ev_timer 15;
   Ev_receive (segment client_port server_port 0 1 ACK 100); Ev_tick 1; Ev_resume (T_timer 15);
   Ev_resume T_receive] ++ replicate 9 (Ev_resume T_app) ++
  [Ev_receive (peer_segment 0 [1; 2]); Ev_receive (peer_segment 0 [1; 2]); Ev_receive (peer_segment 3 [4]); Ev_call (Call_recv 512)].

Definition server_final : option system := sy0 ← boot server_main; exec_events conn_loc (server_sched conn_loc) server_events sy0.
Definition server_check : bool :=
  match server_final with Some sy => bool_decide (sy_read sy = [1; 2]) | None => false end.

Lemma peer_data S seq d :
  blen d < 1000 → Forall is_byte d → 0 <= seq < 2 ^ 32 → mem_read S seq (blen d) = Some d →
  peer_packet S (peer_segment seq d).
Proof.
  intros Hl Hb Hs Hm. exists (data_header client_port server_port seq NO_FLAG 100 d), d.
  split; [unfold peer_segment; apply data_segment_carries; [change DEFAULT_HEADER_LEN with 22; lia|done]|].
  assert (seq_num (data_header client_port server_port seq NO_FLAG 100 d) = seq) as Es by exact (u32_id _ Hs).
  split_and!; [done|lia|]. right. by rewrite Es.
Qed.
Lemma peer_header S seq ack fl : peer_packet S (segment client_port server_port seq ack fl 100).
Proof.
  exists (segment_header client_port server_port seq ack fl 100), [].
  split_and!; [|done..|by left]. by constructor; [apply segment_fields|..].
Qed.

Lemma server_run : ∃ sy, server_state peer_stream sy ∧ sy_read sy = [1; 2].
Proof.
  assert (server_check = true) as E by (vm_compute; reflexivity). unfold server_check, server_final in E.
  destruct (boot server_main) as [sy0|] eqn:E0; [|done]. cbn [mbind option_bind] in E.
  destruct (exec_events conn_loc (server_sched conn_loc) server_events sy0) as [sy|] eqn:E1; [|done]. exists sy.
  split; [|by apply bool_decide_eq_true in E]. exists sy0. split; [done|].
  eapply (reachable_exec _ _ (server_event_ok peer_stream) _ _ server_events); [by split|apply reach_start| |exact E1].
  clear E E0 E1. unfold server_events. cbn [replicate app].
  repeat apply list.Forall_cons_2; cbn [server_event_ok]; try exact I.
  1-2: apply peer_header.
  1-3: apply peer_data; [done| |done|done]; repeat (constructor; [unfold is_byte; lia|]).
  all: first [apply list.Forall_nil_2|by eexists].
Qed.

Lemma server_reads_prefix_witness : ∃ sy, sy_read sy = [1; 2] ∧ sy_read sy `prefix_of` peer_stream.
Proof.
  destruct server_run as (sy & Hr & E). exists sy. split; [exact E|].
  exact (@server_reads_prefix server_env eq_refl peer_stream sy ltac:(done) Hr).
Defined.
