(* ===== verification/Network.v ===== *)
(** * The client, the server and the network between them

    The two programs run from their start on two hosts.  The network may lose,
    repeat and reorder the datagrams each host has sent; the receive thread of
    the other host takes packets from those that arrive.  What the server's
    application has read is a prefix of the stream the client's application has
    sent. *)

From S2P Require Import Prelude Consts CFloat Packet Machine Threads Control Transfer Kernel Api Host Sender.
From S2P Require Import System Receiver Server Samples.

(** ** The network *)

Record network := mk_network { nw_client : system; nw_server : system }.

(** [To_client ds] and [To_server ds]: the socket of the receive thread holds the
    datagrams that the other host sent at the positions [ds], in this order, and
    the thread runs one iteration.  A datagram that no event names is lost or
    late; one that is named twice has arrived twice. *)
Inductive net_event :=
  | On_client (e : event)
  | On_server (e : event)
  | To_client (ds : list nat)
  | To_server (ds : list nat).

Definition arriving (from : system) (ds : list nat) : list (list Z) :=
  omap (fun i => w_sent (sy_world from) !! i) ds.

Section network.
Context (EC ES : Env).

Definition receive (E : Env) (s : loc) (from sy : system) (ds : list nat) : option system :=
  match receive_iteration (arriving from ds) with
  | Recv_packet pkt _ => @exec_event E s (Ev_receive pkt) sy
  | _ => Some sy
  end.

Definition net_exec (e : net_event) (n : network) : option network :=
  match e with
  | On_client e => sy ← @exec_event EC client_loc e (nw_client n); Some (mk_network sy (nw_server n))
  | On_server e => sy ← @exec_event ES conn_loc e (nw_server n); Some (mk_network (nw_client n) sy)
  | To_client ds =>
      sy ← receive EC client_loc (nw_server n) (nw_client n) ds; Some (mk_network sy (nw_server n))
  | To_server ds =>
      sy ← receive ES conn_loc (nw_client n) (nw_server n) ds; Some (mk_network (nw_client n) sy)
  end.

(** The application of the client calls what it likes, that of the server reads.
    Packets come from the other host only. *)
Definition net_event_ok (e : net_event) : Prop :=
  match e with
  | On_client (Ev_receive _) | On_server (Ev_receive _) => False
  | On_client e => event_ok e
  | On_server (Ev_call c) => ∃ len, c = Call_recv len
  | _ => True
  end.

Definition net_boot : option network :=
  c ← boot (@client_main EC); s ← boot (@server_main ES); Some (mk_network c s).

(** What the schedulers of the hosts do not choose: a timer of the client from the
    second message of the handshake to the end of [tcp_connect], and a packet for the
    server while [tcp_accept] has left its connection half open. *)
Definition net_sched (n : network) (e : net_event) : bool :=
  match e with
  | On_client e => client_sched client_loc (nw_client n) e
  | To_server _ => negb (half_open conn_loc (nw_server n))
  | _ => true
  end.
Definition net_ok (n : network) (e : net_event) : Prop := net_event_ok e ∧ net_sched n e = true.

Inductive net_reachable : network → Prop :=
  | net_start n : net_boot = Some n → net_reachable n
  | net_step e n n' : net_reachable n → net_ok n e → net_exec e n = Some n' → net_reachable n'.

(** A run, if [sched] chooses each of its events. *)
Fixpoint net_execs (sched : network → net_event → bool) (es : list net_event) (n : network) : option network :=
  match es with
  | [] => Some n
  | e :: es => if sched n e then n' ← net_exec e n; net_execs sched es n' else None
  end.

Lemma net_reachable_execs es n n' :
  net_reachable n → Forall net_event_ok es → net_execs net_sched es n = Some n' → net_reachable n'.
Proof using.
  intros Hr Hes. revert n Hr. induction Hes as [|e es He _ IH]; intros n Hr E; cbn in E.
  - by injection E as <-.
  - destruct (net_sched n e) eqn:Es; [|done]. opt_inv. eapply IH; [|exact E]. by eapply net_step.
Qed.

(** ** What arrives *)

Lemma sent_ok_peer S pkt :
  sent_ok client_port S pkt →
  peer_packet S pkt ∧ ∃ h d, carries pkt h d ∧ blen pkt = DEFAULT_HEADER_LEN + blen d.
Proof using.
  intros [(dst & seq & win & d & -> & Hn & Hr & Hb & Hl)|(dst & seq & ack & fl & win & ->)].
  - pose proof (data_segment_carries client_port dst seq NO_FLAG win d Hl Hb) as Hc.
    assert (seq_num (data_header client_port dst seq NO_FLAG win d) = seq) as Es by exact (u32_id _ Hn).
    split; [|exists (data_header client_port dst seq NO_FLAG win d), d; split; [done|]].
    + exists (data_header client_port dst seq NO_FLAG win d), d. unfold DEFAULT_HEADER_LEN in Hl.
      split_and!; [done|done|lia|]. right. by rewrite Es.
    + unfold data_segment. by rewrite blen_app.
  - assert (carries (segment client_port dst seq ack fl win) (segment_header client_port dst seq ack fl win) [])
      as Hc by by constructor; [apply segment_fields|..].
    split; [|by do 2 eexists]. do 2 eexists. split_and!; [exact Hc|done|done|by left].
Qed.

Lemma receive_sent S dgrams pkt rest :
  Forall (sent_ok client_port S) dgrams → receive_iteration dgrams = Recv_packet pkt rest →
  peer_packet S pkt.
Proof using.
  intros [|d ds Hd _]; [done|]. destruct (sent_ok_peer S d Hd) as (Hp & h & dat & Hc & Hl).
  rewrite (receive_datagram d ds h dat Hc Hl). by intros [= <- _].
Qed.

Lemma arriving_sent (P : list Z → Prop) from ds :
  Forall P (w_sent (sy_world from)) → Forall P (arriving from ds).
Proof using.
  intros HP. apply list.Forall_forall. intros pkt (i & _ & Hi)%list_elem_of_omap.
  by eapply Forall_lookup_1.
Qed.

(** ** Both hosts *)

Context (Hclient : @env_host EC = Host_client) (Hserver : @env_host ES = Host_server).

(** The two invariants hold, and the server knows the client's stream [S]. *)
Definition net_inv (S : list Z) (n : network) : Prop :=
  ∃ ws sb wb wr aq sq gc gs,
    sys_inv (sender_inv client_loc ws sb wb client_port) gc (nw_client n) ∧
    sys_inv (server_inv listen_loc conn_loc wr aq sq) gs (nw_server n) ∧
    g_stream gc = S ∧ h_stream gs = S.

Lemma net_inv_logs S n :
  net_inv S n →
  sy_read (nw_server n) `prefix_of` S ∧ S `sublist_of` sy_accepted (nw_client n) ∧
  blen S <= TCP_SEND_WINDOW_SIZE ∧ Forall (sent_ok client_port S) (w_sent (sy_world (nw_client n))).
Proof using.
  intros (ws & sb & wb & wr & aq & sq & gc & gs & Hc & Hs & <- & Hst).
  pose proof (sv_world _ _ _ Hc) as HIc. pose proof (sv_world _ _ _ Hs) as HIs. rewrite <- Hst.
  rewrite <- (sv_log _ _ _ Hc : g_accepted gc = _), <- (sv_log _ _ _ Hs : h_read gs = _).
  split_and!; [by eapply vi_read|rewrite Hst; by eapply si_stream|by eapply vi_len|rewrite Hst; by eapply si_sent].
Qed.

Lemma net_boot_inv n : net_boot = Some n → ∃ S, net_inv S n.
Proof using.
  unfold net_boot. destruct (boot (@client_main EC)) as [c|] eqn:Ec; [|done].
  destruct (boot (@server_main ES)) as [s|] eqn:Es; [|done]. cbn [mbind option_bind]. intros [= <-].
  destruct (client_boot_inv c Ec) as (ws & sb & wb & gc & Hc).
  destruct (server_boot_inv s Es) as (wr & aq & sq & gs & Hs & Hst).
  exists (g_stream gc), ws, sb, wb, wr, aq, sq, gc, (set_stream gs (g_stream gc)). split; [exact Hc|]. split; [|split; reflexivity].
  apply server_grow; [exact Hs|rewrite Hst; apply prefix_nil|].
  exact (stream_bound _ _ _ _ _ _ _ (sv_world _ _ _ Hc)).
Qed.

(** A step of the client: the stream may grow. *)
Lemma net_client_inv S c s c' e :
  net_inv S (mk_network c s) → event_ok e → client_sched client_loc c e = true → @exec_event EC client_loc e c = Some c' →
  ∃ S', net_inv S' (mk_network c' s) ∧ S `prefix_of` S'.
Proof using Hclient.
  intros (ws & sb & wb & wr & aq & sq & gc & gs & Hc & Hs & <- & Hst) He Hsch Hx. cbn [nw_client nw_server] in *.
  destruct (client_step _ _ _ _ _ Hclient e gc c c' Hc He Hsch Hx) as (gc' & Hc' & Hpre).
  exists (g_stream gc'). split; [|done].
  exists ws, sb, wb, wr, aq, sq, gc', (set_stream gs (g_stream gc')). split; [exact Hc'|]. split; [|split; reflexivity].
  apply server_grow; [exact Hs|by rewrite Hst|]. exact (stream_bound _ _ _ _ _ _ _ (sv_world _ _ _ Hc')).
Qed.

(** A step of the server, with packets of the stream. *)
Lemma net_server_inv S c s s' e :
  net_inv S (mk_network c s) →
  (Forall (sent_ok client_port S) (w_sent (sy_world c)) → server_event_ok S e) →
  server_sched conn_loc s e = true → @exec_event ES conn_loc e s = Some s' →
  ∃ S', net_inv S' (mk_network c s') ∧ S `prefix_of` S'.
Proof using Hserver.
  intros HI He Hsch Hx. pose proof (net_inv_logs _ _ HI) as (_ & _ & _ & Hsent). cbn [nw_client] in Hsent.
  destruct HI as (ws & sb & wb & wr & aq & sq & gc & gs & Hc & Hs & Hsc & Hst). cbn [nw_client nw_server] in *.
  specialize (He Hsent). rewrite <- Hst in He.
  destruct (server_step _ _ _ _ _ Hserver e gs s s' Hs He Hsch Hx) as (gs' & Hs' & Hst').
  exists S. split; [|done]. exists ws, sb, wb, wr, aq, sq, gc, gs'. split_and!; [exact Hc|exact Hs'|done|congruence].
Qed.

Lemma net_step_inv S e n n' :
  net_inv S n → net_ok n e → net_exec e n = Some n' →
  ∃ S', net_inv S' n' ∧ S `prefix_of` S' ∧
    logs_grow (nw_client n) (nw_client n') ∧ logs_grow (nw_server n) (nw_server n').
Proof using Hclient Hserver.
  destruct n as [c s]. intros HI [He Hsch] Hx.
  assert (∀ sy, logs_grow sy sy) as Hrefl by by split.
  assert (∀ E l from sy sy' ds, receive E l from sy ds = Some sy' → logs_grow sy sy') as Hrx.
  { intros E l from sy sy' ds. unfold receive. destruct (receive_iteration _); [by intros [= <-]..|apply exec_logs]. }
  destruct e as [e|e|ds|ds]; cbn [net_exec nw_client nw_server] in Hx;
    opt_inv; match goal with H : _ = Some ?y |- _ => rename H into Hy end; cbn [nw_client nw_server].
  - assert (event_ok e) as He' by by destruct e.
    destruct (net_client_inv S _ _ _ _ HI He' Hsch Hy) as (S' & ? & ?).
    exists S'. split_and!; [done|done|exact (exec_logs _ _ _ _ Hy)|apply Hrefl].
  - assert (server_event_ok S e) as He' by by destruct e.
    assert (server_sched conn_loc s e = true) as Hs by (destruct e; try done; apply negb_true_iff, andb_false_r).
    destruct (net_server_inv S _ _ _ e HI (fun _ => He') Hs Hy) as (S' & ? & ?).
    exists S'. split_and!; [done|done|apply Hrefl|exact (exec_logs _ _ _ _ Hy)].
  - pose proof (Hrx _ _ _ _ _ _ Hy) as Hl. unfold receive in Hy.
    destruct (receive_iteration _) as [| |pkt rest]; [injection Hy as <-; by exists S..|].
    destruct (net_client_inv S _ _ _ (Ev_receive pkt) HI I (proj2 (negb_true_iff _) (andb_false_r _)) Hy) as (S' & ? & ?). by exists S'.
  - pose proof (Hrx _ _ _ _ _ _ Hy) as Hl. unfold receive in Hy.
    destruct (receive_iteration _) as [| |pkt rest] eqn:Er; [injection Hy as <-; by exists S..|].
    assert (Forall (sent_ok client_port S) (w_sent (sy_world c)) → server_event_ok S (Ev_receive pkt)) as Hpk.
    { intros Hsent. eapply receive_sent; [|exact Er]. by apply arriving_sent. }
    assert (server_sched conn_loc s (Ev_receive pkt) = true) as Hs by (unfold server_sched; by rewrite andb_true_r).
    destruct (net_server_inv S c s _ _ HI Hpk Hs Hy) as (S' & ? & ?). by exists S'.
Qed.

(** ** The abstract stream

    What the two programs implement: the sender's program offers bytes; the stack
    takes some of them, in order, into one stream; the receiver's program gets the
    stream from its beginning on. *)

Record stream_spec := mk_spec { sp_accepted : list Z; sp_stream : list Z; sp_read : list Z }.
Inductive spec_step : stream_spec → stream_spec → Prop :=
  | spec_accept a S r d : spec_step (mk_spec a S r) (mk_spec (a ++ d) S r)
  | spec_send a S r d :
      S ++ d `sublist_of` a → blen (S ++ d) <= TCP_SEND_WINDOW_SIZE →
      spec_step (mk_spec a S r) (mk_spec a (S ++ d) r)
  | spec_read a S r d : r ++ d `prefix_of` S → spec_step (mk_spec a S r) (mk_spec a S (r ++ d)).

(** Any growth within the bounds is a sequence of steps. *)
Lemma spec_steps a S r a' S' r' :
  a `prefix_of` a' → S `prefix_of` S' → r `prefix_of` r' →
  r' `prefix_of` S' → S' `sublist_of` a' → blen S' <= TCP_SEND_WINDOW_SIZE →
  rtc spec_step (mk_spec a S r) (mk_spec a' S' r').
Proof using.
  intros [x ->] [d ->] [y ->] Hr HS Hl. eapply rtc_l; [apply spec_accept|].
  eapply rtc_l; [by apply spec_send|]. eapply rtc_l; [by apply spec_read|]. done.
Qed.

(** [R] is a simulation of the network by the abstract stream, which shows the same
    accepted and the same read bytes. *)
Record simulates (R : network → stream_spec → Prop) : Prop := {
  sm_start n : net_boot = Some n → ∃ σ, rtc spec_step (mk_spec [] [] []) σ ∧ R n σ;
  sm_step e n n' σ :
    R n σ → net_ok n e → net_exec e n = Some n' → ∃ σ', rtc spec_step σ σ' ∧ R n' σ';
  sm_logs n σ : R n σ → sp_accepted σ = sy_accepted (nw_client n) ∧ sp_read σ = sy_read (nw_server n)
}.

Definition represents (n : network) (σ : stream_spec) : Prop :=
  ∃ S, net_inv S n ∧ σ = mk_spec (sy_accepted (nw_client n)) S (sy_read (nw_server n)).

Lemma net_reachable_inv n : net_reachable n → ∃ S, net_inv S n.
Proof using All.
  induction 1 as [n Hb|e n n' _ [S HI] He Hx]; [by apply net_boot_inv|].
  destruct (net_step_inv S e n n' HI He Hx) as (S' & ? & _). by exists S'.
Qed.

(** ** Properties *)

(** C1: the two programs together.  Both programs run from their start.  On each host
    threads are switched, in any order, wherever one waits, and between the statements
    of [tcp_accept] behind its wait and of [tcp_connect] from the entry of the socket
    in the table on; elsewhere a thread runs on.  The client's application calls what
    it likes; memory from [malloc] holds anything; the network loses, repeats and
    reorders datagrams, those of the handshake included.  Two things the schedulers
    do not do, because either breaks the claim: let a timer of the client run between
    the second message of the handshake and the end of [tcp_connect]
    ([early_timer_sends]), and let the server begin with a packet between the
    statement of [tcp_accept] that enters the connection in the table and the one that
    starts its send thread ([early_segment_corrupts]).  Then what the server's
    [tcp_recv] has returned is a prefix of a stream of bytes the client's [tcp_send]
    has accepted, in their order.  The stream is a subsequence of the accepted bytes:
    [tcp_send] accepts more than the stack sends when the window buffer is full. *)
Theorem transfer_correct n :
  net_reachable n →
  ∃ S, sy_read (nw_server n) `prefix_of` S ∧ S `sublist_of` sy_accepted (nw_client n) ∧
    blen S <= TCP_SEND_WINDOW_SIZE ∧ Forall (sent_ok client_port S) (w_sent (sy_world (nw_client n))).
Proof using All. intros [S HI]%net_reachable_inv. exists S. by apply net_inv_logs. Qed.

(** C2: the two programs and the network between them, under the schedulers of C1,
    implement the abstract stream: every step of either host, of the network or of an
    application is simulated by steps that accept bytes, extend the stream by accepted
    bytes, or read the next bytes of the stream. *)
Theorem network_refines_stream : ∃ R, simulates R.
Proof using All.
  exists represents. split.
  - intros n Hb. destruct (net_boot_inv n Hb) as [S HI]. pose proof (net_inv_logs _ _ HI) as (? & ? & ? & _).
    eexists. split; [|exists S; split; [exact HI|reflexivity]]. apply spec_steps; try apply prefix_nil; assumption.
  - intros e n n' σ (S & HI & ->) He Hx.
    destruct (net_step_inv S e n n' HI He Hx) as (S' & HI' & HS & [Ha _] & [_ Hr]).
    pose proof (net_inv_logs _ _ HI') as (? & ? & ? & _). eexists.
    split; [|exists S'; split; [exact HI'|reflexivity]]. apply spec_steps; assumption.
  - intros n σ (S & _ & ->). split; reflexivity.
Qed.

End network.

(** ** Instances *)

#[local] Definition EC : Env := env_at Host_client.
#[local] Definition ES : Env := env_at Host_server.

(** The handshake: SYN, SYN|ACK and ACK, with the timer threads at the addresses
    12 and 15 ending before the handlers that join them go on. *)
Definition handshake_events : list net_event :=
  replicate 4 (On_client (Ev_resume T_app)) ++
  [To_server [0%nat]; On_client (Ev_timer 12); On_server (Ev_timer 15);
   To_client [0%nat]; On_client (Ev_tick 1); On_client (Ev_resume (T_timer 12));
   On_client (Ev_resume T_receive)] ++ replicate 6 (On_client (Ev_resume T_app)) ++
  [To_server [1%nat]; On_server (Ev_tick 1); On_server (Ev_resume (T_timer 15));
   On_server (Ev_resume T_receive)] ++ replicate 9 (On_server (Ev_resume T_app)).

(** Three bytes are sent, a timeout sends them again, two more are sent.  The
    last segment arrives first, the SYN once more, then both copies of the first
    segment and the last one again. *)
Definition transfer_events : list net_event :=
  [On_client (Ev_call (Call_send [1; 2; 3])); On_client (Ev_send 13); On_client (Ev_timer 14);
   On_client (Ev_call (Call_send [4; 5])); On_client (Ev_tick 20); On_client (Ev_resume (T_timer 14));
   On_client (Ev_tick 1); On_client (Ev_resume T_send); On_client (Ev_send 13);
   To_server [4%nat]; To_server [0%nat]; To_server [3%nat; 2%nat]; To_server [2%nat]; To_server [4%nat];
   To_client [1%nat]; On_server (Ev_call (Call_recv 512))].

Definition sample_network : option network :=
  n ← net_boot EC ES; net_execs EC ES net_sched (handshake_events ++ transfer_events) n.

Definition network_check : bool :=
  match sample_network with
  | Some n => bool_decide (sy_read (nw_server n) = [1; 2; 3; 4; 5])
  | None => false
  end.

Lemma network_run : ∃ n, net_reachable EC ES n ∧ sy_read (nw_server n) = [1; 2; 3; 4; 5].
Proof.
  assert (network_check = true) as E by (vm_compute; reflexivity). unfold network_check, sample_network in E.
  destruct (net_boot EC ES) as [n0|] eqn:E0; [|done]. cbn [mbind option_bind] in E.
  destruct (net_execs _ _ _ _) as [n|] eqn:E1; [|done]. exists n. split; [|by apply bool_decide_eq_true in E].
  refine (net_reachable_execs _ _ (handshake_events ++ transfer_events) _ _ (net_start _ _ _ E0) _ E1).
  clear E E0 E1. unfold handshake_events, transfer_events. cbn [replicate app].
  repeat apply list.Forall_cons_2; cbn [net_event_ok event_ok]; try exact I; try (by eexists).
  all: repeat (constructor; [unfold is_byte; lia|]); apply list.Forall_nil_2.
Qed.

Lemma transfer_correct_witness :
  ∃ n, sy_read (nw_server n) = [1; 2; 3; 4; 5] ∧
  ∃ S, sy_read (nw_server n) `prefix_of` S ∧ S `sublist_of` sy_accepted (nw_client n) ∧
    blen S <= TCP_SEND_WINDOW_SIZE ∧ Forall (sent_ok client_port S) (w_sent (sy_world (nw_client n))).
Proof.
  destruct network_run as (n & Hn & E). exists n. split; [exact E|].
  exact (transfer_correct EC ES eq_refl eq_refl n Hn).
Defined.

Lemma network_refines_stream_witness :
  ∃ n R σ, net_boot EC ES = Some n ∧ simulates EC ES R ∧ R n σ ∧ rtc spec_step (mk_spec [] [] []) σ.
Proof.
  destruct (network_refines_stream EC ES eq_refl eq_refl) as [R HR].
  destruct (net_boot EC ES) as [n|] eqn:E.
  - destruct (sm_start _ _ _ HR n E) as (σ & Hs & Hr). exists n, R, σ.
    split; [reflexivity|]. split; [exact HR|]. split; [exact Hr|exact Hs].
  - exfalso. revert E. assert (bool_decide (is_Some (net_boot EC ES)) = true) as Hb by (vm_compute; reflexivity).
    apply bool_decide_eq_true in Hb as [n Hn]. rewrite Hn. discriminate.
Defined.

(** Why no packet may be handled while the connection is half open: the client sends
    23 bytes, which are lost, and one more.  The receive thread of the server handles
    the second segment between the statement of [tcp_accept] that enters the connection
    in the table and the one that resets the expected sequence number, which is 23
    until then, one more than that of the last packet of the handshake.  The server
    reads the byte as the first of the stream, and the expected number is 0 again. *)
Definition early_segment_events : list net_event :=
  replicate 4 (On_client (Ev_resume T_app)) ++
  [To_server [0%nat]; On_client (Ev_timer 12); On_server (Ev_timer 15);
   To_client [0%nat]; On_client (Ev_tick 1); On_client (Ev_resume (T_timer 12));
   On_client (Ev_resume T_receive)] ++ replicate 6 (On_client (Ev_resume T_app)) ++
  [On_client (Ev_call (Call_send (replicate 23 0))); On_client (Ev_send 13);
   On_client (Ev_call (Call_send [9])); On_client (Ev_tick 1); On_client (Ev_resume T_send);
   On_client (Ev_send 13); To_server [1%nat]; On_server (Ev_tick 1); On_server (Ev_resume (T_timer 15));
   On_server (Ev_resume T_receive)] ++ replicate 5 (On_server (Ev_resume T_app)) ++
  [To_server [3%nat]] ++ replicate 4 (On_server (Ev_resume T_app)) ++ [On_server (Ev_call (Call_recv 512))].
Definition early_segment_final : option network :=
  n ← net_boot EC ES; net_execs EC ES (fun _ _ => true) early_segment_events n.
Definition early_segment_check : bool :=
  match early_segment_final with
  | Some n => bool_decide (sy_read (nw_server n) = [9]) &&
      bool_decide (sy_accepted (nw_client n) = replicate 23 0 ++ [9]) &&
      bool_decide (Exists (fun pkt => blen pkt = 45) (w_sent (sy_world (nw_client n))))
  | None => false
  end.

Lemma late_byte n k : 9 :: k `sublist_of` replicate n 0 ++ [9] → k = [].
Proof.
  induction n as [|n IH]; cbn; intros Hs.
  - apply sublist_cons_l in Hs as (k1 & k2 & E & Hk). destruct k1 as [|x k1].
    + injection E as <-. by apply sublist_nil_r in Hk.
    + injection E as _ E. by destruct k1.
  - apply sublist_cons_r in Hs as [Hs|(l & [= ? ?] & _)]. by apply IH.
Qed.

Lemma early_segment_corrupts :
  Forall net_event_ok early_segment_events ∧
  ∃ n0 n, net_boot EC ES = Some n0 ∧
    net_execs EC ES (fun _ _ => true) early_segment_events n0 = Some n ∧
    ¬ ∃ S, sy_read (nw_server n) `prefix_of` S ∧ S `sublist_of` sy_accepted (nw_client n) ∧
        Forall (sent_ok client_port S) (w_sent (sy_world (nw_client n))).
Proof.
  split.
  { unfold early_segment_events. cbn [replicate app].
    repeat apply list.Forall_cons_2; cbn [net_event_ok event_ok]; try exact I; try (by eexists).
    all: repeat (constructor; [unfold is_byte; lia|]); apply list.Forall_nil_2. }
  assert (early_segment_check = true) as E by (vm_compute; reflexivity).
  unfold early_segment_check, early_segment_final in E.
  destruct (net_boot EC ES) as [n0|] eqn:E0; [|done]. cbn [mbind option_bind] in E.
  destruct (net_execs _ _ _ _ n0) as [n|] eqn:E1; [|done]. exists n0, n. split; [done|]. split; [done|].
  rewrite !andb_true_iff, !bool_decide_eq_true in E. destruct E as [[Hr Ha] Hp].
  rewrite Hr, Ha. intros (S & [k ->] & Hsub%late_byte & Hsent).
  apply list.Exists_exists in Hp as (pkt & Hin & Hl). rewrite list.Forall_forall in Hsent. subst k.
  destruct (Hsent pkt Hin) as [(dst & seq & win & d & -> & _ & Hd & _ & Hlen)|Hb%bare_header_length];
    [|by rewrite Hl in Hb].
  rewrite data_segment_length in Hl. apply mem_read_Some in Hd as (H0 & _ & Hle & _).
  change (blen ([9] ++ [])) with 1 in Hle. change DEFAULT_HEADER_LEN with 22 in *. lia.
Qed.
