(* ===== verification/App.v ===== *)
(** * The applications: src/app/client.c and src/app/server.c

    The client reads a file line by line into one buffer and sends the whole buffer
    for each line; the server reads for ever.  What the server has read at any time,
    and what the buffers say of the file. *)

From S2P Require Import Prelude Consts CFloat Packet Machine Threads Control Transfer Kernel Api Host Sender.
From S2P Require Import System Receiver Server Network Samples.

(** ** Reading a file *)

(** At most [k] bytes of the file, up to the end of the line. *)
Fixpoint take_line (k : nat) (rest : list Z) : list Z * list Z :=
  match k, rest with
  | S k, b :: rest => if b =? 10 then ([b], rest) else let '(l, r) := take_line k rest in (b :: l, r)
  | _, _ => ([], rest)
  end.

(** [fgets(buf, n, fp)]: a line, or [n - 1] bytes of it, and a NUL; [None] is the
    null pointer at the end of the file. *)
Definition fgets (buf : list Z) (n : Z) (rest : list Z) : option (list Z * list Z) :=
  match take_line (Z.to_nat (n - 1)) rest with
  | ([], _) => None
  | (l, rest) => buf ← mem_write buf 0 (l ++ [0]); Some (buf, rest)
  end.

(** The client in its loop: the buffer and the rest of the file. *)
Record client_app := mk_client_app { ca_buf : list Z; ca_rest : list Z }.

(** A round of the loop. *)
Definition client_next (a : client_app) : option (app_call * client_app) :=
  '(buf, rest) ← fgets (ca_buf a) (blen (ca_buf a)) (ca_rest a);
  Some (Call_send buf, mk_client_app buf rest).

(** The server makes the same call for ever. *)
Definition server_next : app_call := Call_recv 512.

(** The buffers the client sends; each round takes at least a byte of the file. *)
Fixpoint buffers (fuel : nat) (a : client_app) : list (list Z) :=
  match fuel with
  | O => []
  | S fuel => match client_next a with Some (_, a') => ca_buf a' :: buffers fuel a' | None => [] end
  end.
Definition file_buffers (a : client_app) : list (list Z) := buffers (length (ca_rest a)) a.

(** The string at the beginning of a buffer. *)
Fixpoint c_string (buf : list Z) : list Z :=
  match buf with [] => [] | b :: buf => if b =? 0 then [] else b :: c_string buf end.

(** ** Both programs *)

Record programs := mk_programs { pg_net : network; pg_client : client_app }.

Inductive app_event := Client_call | Server_call | Elsewhere (e : net_event).

(** Not a call of an application. *)
Definition no_call (e : net_event) : bool :=
  match e with On_client (Ev_call _) | On_server (Ev_call _) => false | _ => true end.

Section applications.
Context (EC ES : Env).

Definition app_exec (e : app_event) (p : programs) : option programs :=
  match e with
  | Client_call =>
      '(c, a) ← client_next (pg_client p);
      n ← net_exec EC ES (On_client (Ev_call c)) (pg_net p); Some (mk_programs n a)
  | Server_call =>
      n ← net_exec EC ES (On_server (Ev_call server_next)) (pg_net p); Some (mk_programs n (pg_client p))
  | Elsewhere e =>
      if no_call e then n ← net_exec EC ES e (pg_net p); Some (mk_programs n (pg_client p)) else None
  end.

Definition app_event_ok (e : app_event) : Prop := match e with Elsewhere e => net_event_ok e | _ => True end.
Definition app_sched (p : programs) (e : app_event) : bool :=
  match e with Elsewhere e => net_sched (pg_net p) e | _ => true end.
Definition app_ok (p : programs) (e : app_event) : Prop := app_event_ok e ∧ app_sched p e = true.
Fixpoint app_execs (es : list app_event) (p : programs) : option programs :=
  match es with
  | [] => Some p
  | e :: es => if app_sched p e then p' ← app_exec e p; app_execs es p' else None
  end.

(** The client connects, opens its file and enters the loop with a buffer that
    nothing has set; without the file it ends. *)
Definition app_boot (junk : list Z) (file : option (list Z)) : option programs :=
  n ← net_boot EC ES; f ← file; Some (mk_programs n (mk_client_app junk f)).

Inductive app_reachable (junk : list Z) (file : option (list Z)) : programs → Prop :=
  | app_start p : app_boot junk file = Some p → app_reachable junk file p
  | app_step e p p' : app_reachable junk file p → app_ok p e → app_exec e p = Some p' → app_reachable junk file p'.

(** ** The lines of the file *)

Lemma take_line_app k rest l r : take_line k rest = (l, r) → rest = l ++ r ∧ (length l <= k)%nat.
Proof using.
  revert rest l. induction k as [|k IH]; intros [|b rest] l; cbn; try (intros [= <- <-]; cbn; split; [done|lia]).
  destruct (b =? 10); [intros [= <- <-]; cbn; split; [done|lia]|].
  destruct (take_line k rest) as [l' r'] eqn:E. intros [= <- <-]. destruct (IH rest l' E) as [-> ?]. cbn. split; [done|lia].
Qed.

Lemma take_line_nil k b rest r : take_line (S k) (b :: rest) ≠ ([], r).
Proof using. cbn. destruct (b =? 10); [done|]. by destruct (take_line k rest). Qed.

Lemma c_string_app l r : 0 ∉ l → c_string (l ++ 0 :: r) = l.
Proof using.
  induction l as [|b l IH]; intros H0; cbn; [done|]. apply not_elem_of_cons in H0 as [Hb H0].
  rewrite (proj2 (Z.eqb_neq b 0)) by congruence. by rewrite IH.
Qed.

(** A round of the loop: the next part of the file, and the buffer whose string it
    is. *)
Lemma client_next_spec a c a' :
  2 <= blen (ca_buf a) → client_next a = Some (c, a') →
  ∃ l, l ≠ [] ∧ ca_rest a = l ++ ca_rest a' ∧ c = Call_send (ca_buf a') ∧ blen (ca_buf a') = blen (ca_buf a) ∧
    ∃ r, ca_buf a' = l ++ 0 :: r ∧ r = drop (S (length l)) (ca_buf a).
Proof using.
  intros Hb. unfold client_next, fgets. destruct (take_line _ (ca_rest a)) as [l rest] eqn:El. destruct l as [|b l]; [done|].
  destruct (take_line_app _ _ _ _ El) as [Hr Hk]. set (line := b :: l) in *. intros H. opt_inv.
  match goal with H : mem_write _ _ _ = Some ?x |- _ => rename x into buf; rename H into Hw end.
  exists line. split_and!; [done|done|done|by eapply mem_write_length|]. apply mem_write_Some in Hw as (_ & _ & ->).
  eexists. split; [cbn; by rewrite <- app_assoc|]. cbn. f_equal. unfold blen. rewrite length_app. cbn. lia.
Qed.

Lemma client_next_some a : 2 <= blen (ca_buf a) → ca_rest a ≠ [] → is_Some (client_next a).
Proof using.
  intros Hb Hr. unfold client_next, fgets. destruct (take_line _ (ca_rest a)) as [l rest] eqn:El.
  destruct (take_line_app _ _ _ _ El) as [_ Hk]. destruct l as [|b l].
  - exfalso. destruct (ca_rest a) as [|b0 r0]; [done|]. destruct (Z.to_nat (blen (ca_buf a) - 1)) as [|k] eqn:Ek; [lia|].
    by eapply take_line_nil.
  - destruct (mem_write_defined (ca_buf a) 0 ((b :: l) ++ [0])) as [x ->]; [lia| |by eexists].
    rewrite blen_app. unfold blen in *. cbn [length] in *. lia.
Qed.

(** More rounds than bytes are not needed. *)
Lemma buffers_enough fuel a : 2 <= blen (ca_buf a) → (length (ca_rest a) <= fuel)%nat → buffers fuel a = file_buffers a.
Proof using.
  unfold file_buffers. revert a. assert (∀ n m a, 2 <= blen (ca_buf a) → (length (ca_rest a) <= n)%nat → (length (ca_rest a) <= m)%nat →
    buffers n a = buffers m a) as Hall; [|by intros a ? ?; apply Hall].
  intros n. induction n as [|n IH]; intros [|m] a Hb Hn Hm; cbn [buffers]; try done.
  - destruct (client_next a) as [[c a']|] eqn:E; [|done]. destruct (client_next_spec a c a' Hb E) as ([|? l] & Hl & Hr & _); [done|].
    rewrite Hr in Hn. cbn in Hn. lia.
  - destruct (client_next a) as [[c a']|] eqn:E; [|done]. destruct (client_next_spec a c a' Hb E) as ([|? l] & Hl & Hr & _); [done|].
    rewrite Hr in Hm. cbn in Hm. lia.
  - destruct (client_next a) as [[c a']|] eqn:E; [|done].
    destruct (client_next_spec a c a' Hb E) as ([|b l] & Hl & Hr & _ & Hb' & _); [done|]. f_equal.
    rewrite Hr in Hn, Hm. cbn in Hn, Hm. rewrite length_app in Hn, Hm. apply IH; lia.
Qed.

Lemma file_buffers_next a c a' :
  2 <= blen (ca_buf a) → client_next a = Some (c, a') → file_buffers a = ca_buf a' :: file_buffers a'.
Proof using.
  intros Hb E. destruct (client_next_spec a c a' Hb E) as ([|b l] & Hl & Hr & _ & Hb' & _); [done|].
  unfold file_buffers at 1. rewrite Hr. cbn [length app buffers]. rewrite E. f_equal.
  apply buffers_enough; [lia|]. rewrite length_app. lia.
Qed.

(** The strings of the buffers are the file. *)
Lemma file_buffers_text a :
  2 <= blen (ca_buf a) → 0 ∉ ca_rest a →
  concat (c_string <$> file_buffers a) = ca_rest a ∧ Forall (fun b => blen b = blen (ca_buf a)) (file_buffers a).
Proof using.
  remember (length (ca_rest a)) as n eqn:Hn. revert a Hn. induction (lt_wf n) as [n _ IH]. intros a Hn Hb H0.
  destruct (client_next a) as [[c a']|] eqn:E.
  - rewrite (file_buffers_next a c a' Hb E). destruct (client_next_spec a c a' Hb E) as ([|b l] & Hl & Hr & _ & Hb' & r & Hbuf & _); [done|].
    rewrite Hr in H0. apply not_elem_of_app in H0 as [H0l H0r].
    destruct (IH (length (ca_rest a'))) with (a := a') as [IH1 IH2]; [rewrite Hn, Hr; cbn; rewrite length_app; lia|done|lia|done|].
    split.
    + cbn [fmap list_fmap concat]. rewrite IH1, Hr. f_equal. rewrite Hbuf. by apply c_string_app.
    + constructor; [done|]. by rewrite <- Hb'.
  - assert (ca_rest a = []) as Hr.
    { destruct (ca_rest a) eqn:Er; [done|]. destruct (client_next_some a Hb) as [x Hx]; [by rewrite Er|]. congruence. }
    unfold file_buffers. rewrite Hr. split; [done|constructor].
Qed.

End applications.

(** ** What a task reports *)

(** Whatever happens while it waits, what the task reports when it ends satisfies
    [P]. *)
Fixpoint reports {A} (P : A → Prop) (o : outcome A) : Prop :=
  match o with
  | Done a _ => P a
  | Wait _ _ k => ∀ w, reports P (k w)
  | _ => True
  end.

Lemma reports_bind {A B} (P : B → Prop) (f : A → M B) (o : outcome A) :
  (∀ a w, reports P (f a w)) → reports P (obind f o).
Proof. intros Hf. induction o as [a w|c w k IH| | |]; cbn; auto. Qed.
Lemma reports_mono {A} (P Q : A → Prop) o : reports P o → (∀ a, P a → Q a) → reports Q o.
Proof. intros Ho HPQ. induction o as [a w|c w k IH| | |]; cbn in *; auto. Qed.

(** [pend]: the buffer of the call the application is in. *)
Definition report_ok (t : task_id) (pend : option (list Z)) (x : io) : Prop :=
  io_sent x = [] ∨ t = T_app ∧ pend = Some (io_sent x).

Lemma reports_quiet {A} t pend (m : M A) w : reports (report_ok t pend) ((m;; mret no_io) w).
Proof. apply reports_bind. intros a w'. by left. Qed.

Lemma report_ok_other t pend pend' x : t ≠ T_app → report_ok t pend x → report_ok t pend' x.
Proof. intros Ht [?|[? _]]; [by left|done]. Qed.

(** The accepted bytes are buffers of calls that were made, each as a whole. *)
Definition offered (calls : list (list Z)) (sy : system) : Prop :=
  ∃ made pend bl, calls = made ++ option_list pend ∧ sy_accepted sy = concat bl ∧ bl `sublist_of` made ∧
    ∀ t c k, sy_tasks sy !! t = Some (c, k) → ∀ w, reports (report_ok t pend) (k w).

Lemma settle_offered made pend bl t o sy sy' :
  sy_accepted sy = concat bl → bl `sublist_of` made →
  (∀ t' c k, t' ≠ t → sy_tasks sy !! t' = Some (c, k) → ∀ w, reports (report_ok t' pend) (k w)) →
  reports (report_ok t pend) o → settle t o sy = Some sy' → offered (made ++ option_list pend) sy'.
Proof.
  intros Ha Hbl Htk Ho Hs. destruct o as [x w|c w k|u|z w|]; try done; injection Hs as <-.
  - assert (∀ t' c k, sy_tasks (mk_system (mark_done t w) (delete t (sy_tasks sy)) (sy_ready sy || bool_decide (t = T_app)) (sy_accepted sy ++ io_sent x)
      (sy_read sy ++ io_read x)) !! t' = Some (c, k) → t' ≠ t ∧ ∀ w, reports (report_ok t' pend) (k w)) as Htk'.
    { cbn. intros t' c k [Hne Ht']%lookup_delete_Some. split; [congruence|]. eapply Htk; [congruence|done]. }
    destruct Ho as [Hx|[-> Hx]].
    + exists made, pend, bl. split_and!; [done|cbn; by rewrite Hx, app_nil_r|done|]. intros t' c k Ht'. by destruct (Htk' t' c k Ht').
    + exists (made ++ [io_sent x]), None, (bl ++ [io_sent x]). rewrite Hx. split_and!.
      * by rewrite app_nil_r.
      * cbn. by rewrite concat_app, Ha; cbn; rewrite app_nil_r.
      * by apply sublist_app.
      * intros t' c k Ht' w'. destruct (Htk' t' c k Ht') as [Hne Hr]. eapply reports_mono; [apply Hr|]. intros y. by apply report_ok_other.
  - exists made, pend, bl. split_and!; [done|done|done|]. cbn. intros t' c' k' [[-> [= <- <-]]|[Hne Ht']]%lookup_insert_Some; [exact Ho|].
    eapply Htk; [congruence|done].
Qed.

Section host_calls.
Context `{Env}.

Lemma exec_offered s e calls sy sy' :
  offered calls sy → (∀ c, e ≠ Ev_call c) → exec_event s e sy = Some sy' → offered calls sy'.
Proof using.
  intros (made & pend & bl & -> & Ha & Hbl & Htk) He.
  assert (∀ t (m : M io), (∀ w, reports (report_ok t pend) (m w)) → start t m sy = Some sy' → offered (made ++ option_list pend) sy') as Hstart.
  { intros t m Hm. unfold start. destruct (sy_tasks sy !! t); [done|]. apply (settle_offered made pend bl); try done.
    intros t' c k _. apply Htk. }
  destruct e as [c|pkt|th|th|t|n]; cbn [exec_event].
  - by destruct (He c).
  - apply Hstart. intros w. apply reports_quiet.
  - destruct (w_threads _ !! th) as [[[p|p|] []]|]; try done. apply Hstart. intros w. apply reports_quiet.
  - destruct (w_threads _ !! th) as [[[p|p|] []]|]; try done. apply Hstart. intros w. apply reports_quiet.
  - destruct (sy_tasks sy !! t) as [[c k]|] eqn:Et; [|done]. destruct (c _) as [[]|]; try done.
    apply (settle_offered made pend bl); [done|done| |by eapply Htk]. intros t' c' k' _. apply Htk.
  - intros [= <-]. by exists made, pend, bl.
Qed.

Lemma call_offered s b calls sy sy' :
  offered calls sy → exec_event s (Ev_call (Call_send b)) sy = Some sy' → offered (calls ++ [b]) sy'.
Proof using.
  intros (made & pend & bl & -> & Ha & Hbl & Htk). cbn [exec_event]. unfold start.
  destruct (sy_tasks sy !! T_app) eqn:Et; [done|]. apply (settle_offered (made ++ option_list pend) (Some b) bl); [done| | |].
  - by apply sublist_inserts_r.
  - intros t c k Hne Hk w. eapply reports_mono; [by eapply Htk|]. intros x. by apply report_ok_other.
  - cbn [run_call]. apply reports_bind. intros r w. destruct (r =? 0); [by right|by left].
Qed.

Lemma boot_offered main sy : boot main = Some sy → offered [] sy.
Proof using.
  unfold boot, start. cbn [sy_tasks]. rewrite lookup_empty. apply (settle_offered [] None []); try done.
  apply reports_quiet.
Qed.

End host_calls.

Lemma receive_offered (E : Env) s from sy ds calls sy' : offered calls sy → receive E s from sy ds = Some sy' → offered calls sy'.
Proof.
  unfold receive. intros Ho. destruct (receive_iteration _); [by intros [= <-]..|]. by apply (@exec_offered E).
Qed.

Section files.
Context (EC ES : Env).
Context (Hclient : @env_host EC = Host_client) (Hserver : @env_host ES = Host_server).
Context (junk f : list Z) (Hjunk : 2 <= blen junk) (Hbytes : Forall is_byte junk) (Hfile : Forall is_byte f).

Definition opened : client_app := mk_client_app junk f.

(** Where the program is in its file: the buffers it has passed to [tcp_send]. *)
Definition app_inv (p : programs) : Prop :=
  net_reachable EC ES (pg_net p) ∧ blen (ca_buf (pg_client p)) = blen junk ∧
  Forall is_byte (ca_buf (pg_client p)) ∧ Forall is_byte (ca_rest (pg_client p)) ∧
  ∃ calls, file_buffers opened = calls ++ file_buffers (pg_client p) ∧ offered calls (nw_client (pg_net p)).

Lemma app_reachable_inv p : app_reachable EC ES junk (Some f) p → app_inv p.
Proof using Hjunk Hbytes Hfile.
  induction 1 as [p Hp|e p p' _ (Hn & Hl & Hb & Hr & calls & Hcalls & Ho) [He Hsch] Hx].
  - unfold app_boot in Hp. destruct (net_boot EC ES) as [n|] eqn:En; [|done]. cbn in Hp. injection Hp as <-.
    split_and!; [by apply net_start|done|done|done|]. exists []. split; [done|]. cbn [pg_net].
    unfold net_boot in En. destruct (boot (@client_main EC)) as [c|] eqn:Ec; [|done]. destruct (boot (@server_main ES)) as [s|]; [|done].
    injection En as <-. by eapply boot_offered.
  - destruct p as [n a]. cbn [pg_net pg_client] in *. destruct e as [| |e]; cbn [app_exec pg_net pg_client] in Hx.
    + destruct (client_next a) as [[c a']|] eqn:Ea; [|done]. cbn [mbind option_bind] in Hx.
      destruct (net_exec EC ES _ n) as [n'|] eqn:En; [|done]. cbn in Hx. injection Hx as <-.
      destruct (client_next_spec a c a' ltac:(lia) Ea) as (l & Hne & Hrest & -> & Hl' & r & Hbuf & ->).
      assert (Forall is_byte (ca_buf a') ∧ Forall is_byte (ca_rest a')) as [Hb' Hr'].
      { rewrite Hrest in Hr. apply Forall_app in Hr as [Hl1 Hr1]. split; [|done]. rewrite Hbuf. apply Forall_app. split; [done|].
        constructor; [unfold is_byte; lia|]. by apply Forall_drop. }
      split_and!; [|cbn; lia|done|done|].
      * eapply net_step; [done| |exact En]. split; [done|]. cbn. unfold client_sched. by rewrite andb_false_r.
      * exists (calls ++ [ca_buf a']). cbn [pg_net pg_client]. split.
        -- rewrite Hcalls, (file_buffers_next a _ a' ltac:(lia) Ea). by rewrite <- app_assoc.
        -- cbn [net_exec] in En. destruct (@exec_event EC client_loc _ (nw_client n)) as [sy|] eqn:Ee; [|done]. injection En as <-.
           by eapply (@call_offered EC).
    + destruct (net_exec EC ES _ n) as [n'|] eqn:En; [|done]. cbn in Hx. injection Hx as <-.
      split_and!; [|done|done|done|].
      * eapply net_step; [done| |exact En]. split; [by eexists|done].
      * exists calls. split; [done|]. cbn [net_exec] in En. cbn [pg_net].
        destruct (@exec_event ES conn_loc _ (nw_server n)); [|done]. by injection En as <-.
    + destruct (no_call e) eqn:Ec; [|done]. destruct (net_exec EC ES e n) as [n'|] eqn:En; [|done]. cbn in Hx. injection Hx as <-.
      split_and!; [by eapply net_step; [done|split|]|done|done|done|]. exists calls. split; [done|]. cbn [pg_net].
      destruct e as [e|e|ds|ds]; cbn [net_exec] in En.
      * destruct (@exec_event EC client_loc e (nw_client n)) as [sy|] eqn:Ee; [|done]. injection En as <-.
        eapply (@exec_offered EC); [done| |exact Ee]. intros c Hc. by rewrite Hc in Ec.
      * destruct (@exec_event ES conn_loc e (nw_server n)) as [sy|]; [|done]. by injection En as <-.
      * destruct (receive EC client_loc _ _ ds) as [sy|] eqn:Ee; [|done]. injection En as <-. cbn [nw_client]. exact (receive_offered _ _ _ _ _ _ _ Ho Ee).
      * destruct (receive ES conn_loc _ _ ds) as [sy|]; [|done]. by injection En as <-.
Qed.

(** C3: the file transfer of the two applications, under the schedulers of C1.  The
    client passes to [tcp_send], for each line of its file, the whole buffer; [tcp_send]
    takes all of a buffer or nothing.  At any time the server has read a prefix of a
    stream of bytes of accepted buffers, in order.  The strings in the buffers, one
    after the other, are the file, if it has no NUL. *)
Theorem file_transfer p :
  0 ∉ f → app_reachable EC ES junk (Some f) p →
  ∃ S bl, sy_read (nw_server (pg_net p)) `prefix_of` S ∧ S `sublist_of` concat bl ∧
    sy_accepted (nw_client (pg_net p)) = concat bl ∧ bl `sublist_of` file_buffers opened ∧
    concat (c_string <$> file_buffers opened) = f ∧ Forall (fun b => blen b = blen junk) (file_buffers opened).
Proof using All.
  intros H0 (Hn & _ & _ & _ & calls & Hcalls & made & pend & bl & Hmade & Ha & Hbl & _)%app_reachable_inv.
  destruct (net_reachable_inv EC ES Hclient Hserver _ Hn) as [S HI].
  destruct (net_inv_logs _ _ _ HI) as (Hread & Hsub & _ & _).
  destruct (file_buffers_text opened Hjunk H0) as [Htext Hlen]. exists S, bl. split_and!; try done.
  - by rewrite <- Ha.
  - rewrite Hcalls, Hmade. by do 2 apply sublist_inserts_r.
Qed.

End files.

(** ** Instances *)

#[local] Definition EC : Env := env_at Host_client.
#[local] Definition ES : Env := env_at Host_server.

(** A file of two lines: the first is sent and arrives twice, the second waits. *)
Definition sample_file : list Z := [104; 105; 10; 121; 111; 33; 10].
Definition sample_junk : list Z := replicate 1024 7.
Definition sample_app_events : list app_event :=
  (Elsewhere <$> handshake_events) ++
  [Client_call; Elsewhere (On_client (Ev_send 13)); Client_call;
   Elsewhere (To_server [2%nat; 2%nat]); Elsewhere (To_server [2%nat]); Server_call; Server_call].
Definition sample_programs : option programs :=
  p ← app_boot EC ES sample_junk (Some sample_file); app_execs EC ES sample_app_events p.
Definition sample_app_check : bool :=
  match sample_programs with
  | Some p => bool_decide (c_string (sy_read (nw_server (pg_net p))) = [104; 105; 10]) &&
      (blen (sy_read (nw_server (pg_net p))) =? 1024) && (blen (sy_accepted (nw_client (pg_net p))) =? 2048)
  | None => false
  end.

Lemma app_reachable_execs es junk file p p' :
  app_reachable EC ES junk file p → Forall app_event_ok es → app_execs EC ES es p = Some p' → app_reachable EC ES junk file p'.
Proof.
  intros Hr Hes. revert p Hr. induction Hes as [|e es He _ IH]; intros p Hr E; cbn in E.
  - by injection E as <-.
  - destruct (app_sched p e) eqn:Es; [|done].
    destruct (app_exec EC ES e p) as [p1|] eqn:E1; [|done]. eapply IH; [|exact E]. by eapply app_step.
Qed.

Lemma sample_programs_run : ∃ p, app_reachable EC ES sample_junk (Some sample_file) p ∧
  c_string (sy_read (nw_server (pg_net p))) = [104; 105; 10] ∧ blen (sy_accepted (nw_client (pg_net p))) = 2048.
Proof.
  assert (sample_app_check = true) as E by (vm_compute; reflexivity). unfold sample_app_check, sample_programs in E.
  destruct (app_boot EC ES sample_junk (Some sample_file)) as [p0|] eqn:E0; [|done]. cbn [mbind option_bind] in E.
  destruct (app_execs _ _ _ _) as [p|] eqn:E1; [|done]. rewrite !andb_true_iff in E.
  destruct E as [[H1%bool_decide_eq_true _] H2%Z.eqb_eq]. exists p. split_and!; [|done|done].
  refine (app_reachable_execs _ _ _ _ _ (app_start _ _ _ _ _ E0) _ E1). clear.
  unfold sample_app_events, handshake_events. cbn [app fmap list_fmap replicate].
  repeat apply list.Forall_cons_2; try apply list.Forall_nil_2; exact I.
Qed.

Lemma file_transfer_witness :
  ∃ p S bl, c_string (sy_read (nw_server (pg_net p))) = [104; 105; 10] ∧
    sy_read (nw_server (pg_net p)) `prefix_of` S ∧ S `sublist_of` concat bl ∧
    blen (concat bl) = 2048 ∧ bl `sublist_of` file_buffers (opened sample_junk sample_file).
Proof.
  destruct sample_programs_run as (p & Hp & Hs & Ha).
  destruct (file_transfer EC ES eq_refl eq_refl sample_junk sample_file) with (p := p)
    as (S & bl & H1 & H2 & H3 & H4 & _).
  - discriminate.
  - apply list.Forall_replicate. split; [discriminate|reflexivity].
  - repeat (apply list.Forall_cons_2; [split; [discriminate|reflexivity]|]). apply list.Forall_nil_2.
  - intros H. repeat (apply elem_of_cons in H as [H|H]; [discriminate|]). by apply elem_of_nil in H.
  - exact Hp.
  - exists p, S, bl. rewrite H3 in Ha. exact (conj Hs (conj H1 (conj H2 (conj Ha H4)))).
Defined.
