(* ===== verification/Chan.v ===== *)
(** * Channels: src/chan.c

    A channel is a buffer with a mutex and two condition variables that any
    number of threads share.  A function of chan.c is an interaction tree whose
    events are the accesses to the shared store and the calls of pthreads; the
    scheduler at the end runs threads one event at a time in any order. *)

From S2P Require Import Prelude RingQueue.
From ITree Require Import ITree.

(** ** Data *)

(** A pointer [void*]; [None] is the null pointer. *)
Abbreviation addr := positive.
Abbreviation voidp := (option addr).

#[export] Instance itree_mret E : MRet (itree E) := fun A x => Ret x.
#[export] Instance itree_mbind E : MBind (itree E) := fun A B f t => ITree.bind t f.

Inductive chan_mutex := R_mu | W_mu | M_mu.
Inductive chan_cond := R_cond | W_cond.

#[export] Instance chan_mutex_eq_dec : EqDecision chan_mutex.
Proof. solve_decision. Defined.
#[export] Instance chan_cond_eq_dec : EqDecision chan_cond.
Proof. solve_decision. Defined.

(** A mutex is the number of the thread that holds it.  A condition variable has
    no content: the threads that wait on it are found in the scheduler. *)
Record chan_t := mk_chan {
  queue : option (queue_t (V := voidp));
  r_mu : option nat;
  w_mu : option nat;
  data : voidp;
  m_mu : option nat;
  closed : Z;
  r_waiting : Z;
  w_waiting : Z
}.
#[export] Instance eta_chan : Eta chan_t := fun c =>
  mk_chan (queue c) (r_mu c) (w_mu c) (data c) (m_mu c) (closed c) (r_waiting c) (w_waiting c).

Definition mutex_of (c : chan_t) (m : chan_mutex) : option nat :=
  match m with R_mu => r_mu c | W_mu => w_mu c | M_mu => m_mu c end.
Definition set_mutex (m : chan_mutex) (h : option nat) (c : chan_t) : chan_t :=
  match m with R_mu => c⟨r_mu := h⟩ | W_mu => c⟨w_mu := h⟩ | M_mu => c⟨m_mu := h⟩ end.

(** The store: the channels, and the blocks that hold wrapped values. *)
Record store_t := mk_store {
  st_chans : gmap addr chan_t;
  st_blocks : gmap addr (list Z);
  st_next : addr
}.
#[export] Instance eta_store : Eta store_t := fun s =>
  mk_store (st_chans s) (st_blocks s) (st_next s).

(** ** Events

    [Access] is one access to the store; it is undefined behaviour where the
    function is.  [Sys_ok] is whether an allocation or an initialisation
    succeeds, [Rand] is the result of [rand]. *)
Inductive chanE : Type → Type :=
  | Lock (c : addr) (m : chan_mutex) : chanE unit
  | Unlock (c : addr) (m : chan_mutex) : chanE unit
  | Cond_wait (c : addr) (v : chan_cond) (m : chan_mutex) : chanE unit
  | Cond_signal (c : addr) (v : chan_cond) : chanE unit
  | Cond_broadcast (c : addr) (v : chan_cond) : chanE unit
  | Access {X} (f : store_t → option (X * store_t)) : chanE X
  | Sys_ok : chanE bool
  | Rand : chanE Z.

Definition P : Type → Type := itree chanE.

Definition pthread_mutex_lock (c : addr) (m : chan_mutex) : P unit := ITree.trigger (Lock c m).
Definition pthread_mutex_unlock (c : addr) (m : chan_mutex) : P unit := ITree.trigger (Unlock c m).
Definition pthread_cond_wait (c : addr) (v : chan_cond) (m : chan_mutex) : P unit :=
  ITree.trigger (Cond_wait c v m).
Definition pthread_cond_signal (c : addr) (v : chan_cond) : P unit := ITree.trigger (Cond_signal c v).
Definition pthread_cond_broadcast (c : addr) (v : chan_cond) : P unit :=
  ITree.trigger (Cond_broadcast c v).
Definition sys_ok : P bool := ITree.trigger Sys_ok.
Definition rand : P Z := ITree.trigger Rand.

(** Reading and updating the fields of a channel. *)
Definition on_chan {X} (c : addr) (f : chan_t → option (X * chan_t)) (s : store_t) : option (X * store_t) :=
  ch ← st_chans s !! c; r ← f ch; Some (r.1, s⟨st_chans := <[c := r.2]> (st_chans s)⟩).
Definition with_chan {X} (c : addr) (f : chan_t → option (X * chan_t)) : P X :=
  ITree.trigger (Access (on_chan c f)).
Definition get {X} (c : addr) (f : chan_t → X) : P X := with_chan c (fun ch => Some (f ch, ch)).
Definition put (c : addr) (f : chan_t → chan_t) : P unit := with_chan c (fun ch => Some (tt, f ch)).

(** [x++] and [x--] of an [int] field. *)
Definition add_to (f : chan_t → Z) `{!Setter f} (d : Z) (c : addr) : P unit :=
  with_chan c (fun ch => v ← int_result (f ch + d); Some (tt, set_field f (fun _ => v) ch)).

(** A function of the queue [chan->queue]. *)
Definition on_queue {X} (f : queue_t (V := voidp) → option (X * queue_t)) (ch : chan_t) : option (X * chan_t) :=
  q ← queue ch; r ← f q; Some (r.1, ch⟨queue := Some r.2⟩).
Definition with_queue {X} (c : addr) (f : queue_t → option (X * queue_t)) : P X :=
  with_chan c (on_queue f).
Definition get_queue {X} (c : addr) (f : queue_t → X) : P X :=
  with_queue c (fun q => Some (f q, q)).

(** [while (cond) body]. *)
Definition while (cond : P bool) (body : P unit) : P unit :=
  ITree.iter (fun _ : unit => b ← cond; if (b : bool) then body;; mret (inl tt) else mret (inr tt)) tt.

(** A result with the [errno] a failing call sets. *)
Definition result : Type := Z * option errno_t.

(** ** Creation *)

Definition new_chan : P addr :=
  ITree.trigger (Access (fun s =>
    let p := st_next s in
    Some (p, s⟨st_chans := <[p := mk_chan None None None None None 0 0 0]> (st_chans s)⟩
              ⟨st_next := Pos.succ p⟩))).
Definition free_chan (c : addr) : P unit :=
  ITree.trigger (Access (fun s =>
    _ ← st_chans s !! c; Some (tt, s⟨st_chans := delete c (st_chans s)⟩))).

Definition unbuffered_chan_init (chan : addr) : P Z :=
  ok ← sys_ok;
  if negb ok then mret (-1) else
  ok ← sys_ok;
  if negb ok then mret (-1) else
  ok ← sys_ok;
  if negb ok then mret (-1) else
  ok ← sys_ok;
  if negb ok then mret (-1) else
  ok ← sys_ok;
  if negb ok then mret (-1) else
  put chan (fun _ => mk_chan None None None None None 0 0 0);;
  mret 0.

(** [junk] is the content of the array [malloc] returns. *)
Definition buffered_chan_init (junk : Z → list voidp) (chan : addr) (capacity : Z) : P result :=
  qok ← sys_ok;
  dok ← sys_ok;
  match queue_init capacity qok dok (junk capacity) with
  | inr e => mret (-1, Some e)
  | inl q =>
      r ← unbuffered_chan_init chan;
      if negb (r =? 0) then mret (-1, None)
      else put chan (fun ch => ch⟨queue := Some q⟩);; mret (0, None)
  end.

Definition chan_init (junk : Z → list voidp) (capacity : Z) : P (voidp * option errno_t) :=
  ok ← sys_ok;
  if negb ok then mret (None, Some ENOMEM) else
  chan ← new_chan;
  if 0 <? capacity then
    r ← buffered_chan_init junk chan capacity;
    if negb (fst r =? 0) then free_chan chan;; mret (None, snd r) else mret (Some chan, None)
  else
    r ← unbuffered_chan_init chan;
    if negb (r =? 0) then free_chan chan;; mret (None, None) else mret (Some chan, None).

(** [queue_dispose], the mutexes and the condition variables go with the block. *)
Definition chan_dispose (chan : addr) : P unit := free_chan chan.

(** ** Operations *)

Definition chan_is_buffered (chan : addr) : P bool :=
  get chan (fun ch => bool_decide (queue ch ≠ None)).

Definition chan_close (chan : addr) : P result :=
  pthread_mutex_lock chan M_mu;;
  c ← get chan closed;
  success ←
    (if negb (c =? 0) then mret (-1, Some EPIPE)
     else
       put chan (fun ch => ch⟨closed := 1⟩);;
       pthread_cond_broadcast chan R_cond;;
       pthread_cond_broadcast chan W_cond;;
       mret (0, None));
  pthread_mutex_unlock chan M_mu;;
  mret success.

Definition chan_is_closed (chan : addr) : P Z :=
  pthread_mutex_lock chan M_mu;;
  c ← get chan closed;
  pthread_mutex_unlock chan M_mu;;
  mret c.

Definition buffered_chan_send (chan : addr) (value : voidp) : P result :=
  pthread_mutex_lock chan M_mu;;
  while (get_queue chan (fun q => size q =? capacity q))
    (add_to w_waiting 1 chan;;
     pthread_cond_wait chan W_cond M_mu;;
     add_to w_waiting (-1) chan);;
  success ← with_queue chan (fun q => queue_add q value);
  w ← get chan r_waiting;
  (if 0 <? w then pthread_cond_signal chan R_cond else mret tt);;
  pthread_mutex_unlock chan M_mu;;
  mret success.

(** [out] is whether the caller passes a place for the value; the value is
    returned next to the result. *)
Definition buffered_chan_recv (chan : addr) (out : bool) : P (result * option voidp) :=
  pthread_mutex_lock chan M_mu;;
  stop ← ITree.iter (fun _ : unit =>
    empty ← get_queue chan (fun q => size q =? 0);
    if (empty : bool) then
      c ← get chan closed;
      if negb (c =? 0) then
        pthread_mutex_unlock chan M_mu;; mret (inr true)
      else
        add_to r_waiting 1 chan;;
        pthread_cond_wait chan R_cond M_mu;;
        add_to r_waiting (-1) chan;;
        mret (inl tt)
    else mret (inr false)) tt;
  if (stop : bool) then mret ((-1, Some EPIPE), None) else
  msg ← with_queue chan (queue_remove None);
  w ← get chan w_waiting;
  (if 0 <? w then pthread_cond_signal chan W_cond else mret tt);;
  pthread_mutex_unlock chan M_mu;;
  mret ((0, None), if out then Some msg else None).

Definition unbuffered_chan_send (chan : addr) (value : voidp) : P result :=
  pthread_mutex_lock chan W_mu;;
  pthread_mutex_lock chan M_mu;;
  c ← get chan closed;
  if negb (c =? 0) then
    pthread_mutex_unlock chan M_mu;;
    pthread_mutex_unlock chan W_mu;;
    mret (-1, Some EPIPE)
  else
    put chan (fun ch => ch⟨data := value⟩);;
    add_to w_waiting 1 chan;;
    w ← get chan r_waiting;
    (if 0 <? w then pthread_cond_signal chan R_cond else mret tt);;
    pthread_cond_wait chan W_cond M_mu;;
    pthread_mutex_unlock chan M_mu;;
    pthread_mutex_unlock chan W_mu;;
    mret (0, None).

Definition unbuffered_chan_recv (chan : addr) (out : bool) : P (result * option voidp) :=
  pthread_mutex_lock chan R_mu;;
  pthread_mutex_lock chan M_mu;;
  while (get chan (fun ch => (closed ch =? 0) && (w_waiting ch =? 0)))
    (add_to r_waiting 1 chan;;
     pthread_cond_wait chan R_cond M_mu;;
     add_to r_waiting (-1) chan);;
  c ← get chan closed;
  if negb (c =? 0) then
    pthread_mutex_unlock chan M_mu;;
    pthread_mutex_unlock chan R_mu;;
    mret ((-1, Some EPIPE), None)
  else
    msg ← get chan data;
    add_to w_waiting (-1) chan;;
    pthread_cond_signal chan W_cond;;
    pthread_mutex_unlock chan M_mu;;
    pthread_mutex_unlock chan R_mu;;
    mret ((0, None), if out then Some msg else None).

Definition chan_send (chan : addr) (value : voidp) : P result :=
  c ← chan_is_closed chan;
  if negb (c =? 0) then mret (-1, Some EPIPE)
  else
    b ← chan_is_buffered chan;
    if (b : bool) then buffered_chan_send chan value else unbuffered_chan_send chan value.

Definition chan_recv (chan : addr) (out : bool) : P (result * option voidp) :=
  b ← chan_is_buffered chan;
  if (b : bool) then buffered_chan_recv chan out else unbuffered_chan_recv chan out.

Definition chan_size (chan : addr) : P Z :=
  b ← chan_is_buffered chan;
  if (b : bool) then
    pthread_mutex_lock chan M_mu;;
    n ← get_queue chan size;
    pthread_mutex_unlock chan M_mu;;
    mret n
  else mret 0.

(** ** Select *)

Definition chan_can_recv (chan : addr) : P bool :=
  b ← chan_is_buffered chan;
  if (b : bool) then n ← chan_size chan; mret (0 <? n)
  else
    pthread_mutex_lock chan M_mu;;
    sender ← get chan (fun ch => 0 <? w_waiting ch);
    pthread_mutex_unlock chan M_mu;;
    mret sender.

Definition chan_can_send (chan : addr) : P bool :=
  b ← chan_is_buffered chan;
  if (b : bool) then
    pthread_mutex_lock chan M_mu;;
    send ← get_queue chan (fun q => size q <? capacity q);
    pthread_mutex_unlock chan M_mu;;
    mret send
  else
    pthread_mutex_lock chan M_mu;;
    send ← get chan (fun ch => 0 <? r_waiting ch);
    pthread_mutex_unlock chan M_mu;;
    mret send.

(** [msg_in] is set for a send only. *)
Record select_op_t := mk_select { so_recv : bool; so_chan : addr; so_msg_in : option voidp; so_index : Z }.

Fixpoint recv_candidates (chans : list addr) (i : Z) : P (list select_op_t) :=
  match chans with
  | [] => mret []
  | chan :: chans =>
      b ← chan_can_recv chan;
      ops ← recv_candidates chans (i + 1);
      mret (if (b : bool) then mk_select true chan None i :: ops else ops)
  end.

Fixpoint send_candidates (chans : list (addr * voidp)) (i : Z) : P (list select_op_t) :=
  match chans with
  | [] => mret []
  | (chan, msg) :: chans =>
      b ← chan_can_send chan;
      ops ← send_candidates chans (i + 1);
      mret (if (b : bool) then mk_select false chan (Some msg) i :: ops else ops)
  end.

(** The two loops fill one array of candidates, of which [rand] picks one.  The
    [errno] of a failing operation is kept. *)
Definition chan_select (recv_chans : list addr) (send_chans : list (addr * voidp)) (out : bool)
    : P (result * option voidp) :=
  rs ← recv_candidates recv_chans 0;
  ss ← send_candidates send_chans (blen recv_chans);
  let candidates := rs ++ ss in
  let count := blen candidates in
  if count =? 0 then mret ((-1, None), None) else
  r ← rand;
  match candidates !! Z.to_nat (r mod count) with
  | None => ITree.trigger (Access (fun _ => None))
  | Some select =>
      if so_recv select then
        r ← chan_recv (so_chan select) out;
        if negb (fst (fst r) =? 0) then mret ((-1, snd (fst r)), None)
        else mret ((so_index select, None), snd r)
      else
        r ← chan_send (so_chan select) (default None (so_msg_in select));
        if negb (fst r =? 0) then mret ((-1, snd r), None)
        else mret ((so_index select, None), None)
  end.

(** ** Wrapped values *)

(** [malloc n] filled with [bs]. *)
Definition new_block (bs : list Z) : P addr :=
  ITree.trigger (Access (fun s =>
    let p := st_next s in
    Some (p, s⟨st_blocks := <[p := bs]> (st_blocks s)⟩⟨st_next := Pos.succ p⟩))).
Definition free_block (p : addr) : P unit :=
  ITree.trigger (Access (fun s =>
    _ ← st_blocks s !! p; Some (tt, s⟨st_blocks := delete p (st_blocks s)⟩))).
Definition read_block (p : addr) (n : Z) : P (list Z) :=
  ITree.trigger (Access (fun s =>
    b ← st_blocks s !! p; bs ← mem_read b 0 n; Some (bs, s))).

(** The bytes [bs] in a block of their own, whose address is sent. *)
Definition chan_send_buf (chan : addr) (bs : list Z) : P result :=
  ok ← sys_ok;
  if negb ok then mret (-1, None) else
  wrapped ← new_block bs;
  success ← chan_send chan (Some wrapped);
  (if negb (fst success =? 0) then free_block wrapped else mret tt);;
  mret success.

(** The bytes written to the caller, if any. *)
Definition chan_recv_buf (chan : addr) (n : Z) : P (result * option (list Z)) :=
  r ← chan_recv chan true;
  match default None (snd r) with
  | Some wrapped => bs ← read_block wrapped n; free_block wrapped;; mret (fst r, Some bs)
  | None => mret (fst r, None)
  end.

Definition chan_send_int32 (chan : addr) (data : Z) : P result :=
  chan_send_buf chan (le_bytes 4 (u32 data)).
Definition chan_recv_int32 (chan : addr) : P (result * option Z) :=
  r ← chan_recv_buf chan 4; mret (fst r, i32 ∘ le_value <$> snd r).

Definition u64 (z : Z) : Z := z mod 2 ^ 64.
Definition i64 (z : Z) : Z := (z + 2 ^ 63) mod 2 ^ 64 - 2 ^ 63.

Definition chan_send_int64 (chan : addr) (data : Z) : P result :=
  chan_send_buf chan (le_bytes 8 (u64 data)).
Definition chan_recv_int64 (chan : addr) : P (result * option Z) :=
  r ← chan_recv_buf chan 8; mret (fst r, i64 ∘ le_value <$> snd r).

(** A [double] is its object representation, eight bytes. *)
Definition chan_send_double (chan : addr) (data : list Z) : P result := chan_send_buf chan data.
Definition chan_recv_double (chan : addr) : P (result * option (list Z)) := chan_recv_buf chan 8.

(** ** Calls and threads

    A thread makes a list of calls on channels, one after the other. *)
Inductive call :=
  | Call_send (c : addr) (value : voidp)
  | Call_recv (c : addr)
  | Call_close (c : addr)
  | Call_is_closed (c : addr)
  | Call_size (c : addr).

(** What a call returns: its [int], the [errno] it sets, the value it stores. *)
Record reply := mk_reply { rp_ret : Z; rp_errno : option errno_t; rp_value : option voidp }.

#[export] Instance reply_eq_dec : EqDecision reply.
Proof. solve_decision. Defined.

Definition of_result (r : result) : reply := mk_reply (fst r) (snd r) None.

Definition run_call (c : call) : P reply :=
  match c with
  | Call_send c value => r ← chan_send c value; mret (of_result r)
  | Call_recv c => r ← chan_recv c true; mret (mk_reply (fst (fst r)) (snd (fst r)) (snd r))
  | Call_close c => r ← chan_close c; mret (of_result r)
  | Call_is_closed c => n ← chan_is_closed c; mret (mk_reply n None None)
  | Call_size c => n ← chan_size c; mret (mk_reply n None None)
  end.

(** [Sleeping] is a thread inside [pthread_cond_wait]; [Crashed] one that has
    executed undefined behaviour. *)
Inductive tstatus :=
  | Idle
  | Running (t : P reply)
  | Sleeping (c : addr) (v : chan_cond) (m : chan_mutex) (t : P reply)
  | Crashed.

Record cthread := mk_cthread { t_calls : list call; t_replies : list reply; t_status : tstatus }.
#[export] Instance eta_cthread : Eta cthread := fun t =>
  mk_cthread (t_calls t) (t_replies t) (t_status t).

Record csystem := mk_csystem { cs_store : store_t; cs_threads : gmap nat cthread }.

Definition sleeps_on (c : addr) (v : chan_cond) (t : cthread) : bool :=
  match t_status t with Sleeping c' v' _ _ => bool_decide (c' = c ∧ v' = v) | _ => false end.

(** A thread that is woken has to take the mutex again. *)
Definition wake (t : cthread) : cthread :=
  match t_status t with
  | Sleeping c _ m k => t⟨t_status := Running (pthread_mutex_lock c m;; k)⟩
  | _ => t
  end.

Inductive action :=
  | A_start (i : nat)                (* the next call begins *)
  | A_step (i : nat) (answer : Z) (j : option nat)
                                     (* the next event; [j] is the thread a signal wakes *)
  | A_return (i : nat)               (* the call returns *)
  | A_wake (i : nat).                (* a spurious wakeup *)

Definition RAND_MAX : Z := 2147483647.

(** The new status of thread [i] and the new system, if the event is not blocked. *)
Definition exec_event {X} (e : chanE X) (i : nat) (answer : Z) (j : option nat) (s : csystem)
    : (X → P reply) → option (tstatus * csystem) :=
  let crash := Some (Crashed, s) in
  let store ch c := mk_csystem ((cs_store s)⟨st_chans := <[c := ch]> (st_chans (cs_store s))⟩) (cs_threads s) in
  match e in chanE X return (X → P reply) → option (tstatus * csystem) with
  | Lock c m => fun k =>
      match st_chans (cs_store s) !! c with
      | None => crash
      | Some ch => match mutex_of ch m with
                   | Some _ => None
                   | None => Some (Running (k tt), store (set_mutex m (Some i) ch) c)
                   end
      end
  | Unlock c m => fun k =>
      match st_chans (cs_store s) !! c with
      | None => crash
      | Some ch => if bool_decide (mutex_of ch m = Some i)
                   then Some (Running (k tt), store (set_mutex m None ch) c) else crash
      end
  | Cond_wait c v m => fun k =>
      match st_chans (cs_store s) !! c with
      | None => crash
      | Some ch => if bool_decide (mutex_of ch m = Some i)
                   then Some (Sleeping c v m (k tt), store (set_mutex m None ch) c) else crash
      end
  | Cond_signal c v => fun k =>
      match j with
      | Some j =>
          t ← cs_threads s !! j;
          if sleeps_on c v t
          then Some (Running (k tt), mk_csystem (cs_store s) (<[j := wake t]> (cs_threads s)))
          else None
      | None =>
          if bool_decide (map_Forall (fun _ t => sleeps_on c v t = false) (cs_threads s))
          then Some (Running (k tt), s) else None
      end
  | Cond_broadcast c v => fun k =>
      Some (Running (k tt), mk_csystem (cs_store s)
        ((fun t => if sleeps_on c v t then wake t else t) <$> cs_threads s))
  | Access f => fun k =>
      match f (cs_store s) with
      | None => crash
      | Some (x, st) => Some (Running (k x), mk_csystem st (cs_threads s))
      end
  | Sys_ok => fun k => Some (Running (k (negb (answer =? 0))), s)
  | Rand => fun k => if (0 <=? answer) && (answer <=? RAND_MAX) then Some (Running (k answer), s) else None
  end.

Definition set_thread (i : nat) (t : cthread) (s : csystem) : csystem :=
  mk_csystem (cs_store s) (<[i := t]> (cs_threads s)).

Definition exec_action (a : action) (s : csystem) : option csystem :=
  match a with
  | A_start i =>
      t ← cs_threads s !! i;
      match t_status t, t_calls t with
      | Idle, c :: cs => Some (set_thread i (mk_cthread cs (t_replies t) (Running (run_call c))) s)
      | _, _ => None
      end
  | A_step i answer j =>
      t ← cs_threads s !! i;
      match t_status t with
      | Running p =>
          match observe p with
          | RetF _ => None
          | TauF p' => Some (set_thread i (t⟨t_status := Running p'⟩) s)
          | VisF e k => r ← exec_event e i answer j s k; Some (set_thread i (t⟨t_status := r.1⟩) r.2)
          end
      | _ => None
      end
  | A_return i =>
      t ← cs_threads s !! i;
      match t_status t with
      | Running p =>
          match observe p with
          | RetF r => Some (set_thread i (mk_cthread (t_calls t) (t_replies t ++ [r]) Idle) s)
          | _ => None
          end
      | _ => None
      end
  | A_wake i =>
      t ← cs_threads s !! i;
      match t_status t with
      | Sleeping _ _ _ _ => Some (set_thread i (wake t) s)
      | _ => None
      end
  end.

Fixpoint exec_actions (acts : list action) (s : csystem) : option csystem :=
  match acts with [] => Some s | a :: acts => s' ← exec_action a s; exec_actions acts s' end.

(** The states the threads with the calls [calls] can reach from the store [st]. *)
Definition start_system (st : store_t) (calls : gmap nat (list call)) : csystem :=
  mk_csystem st ((fun cs => mk_cthread cs [] Idle) <$> calls).

Inductive creach (s0 : csystem) : csystem → Prop :=
  | creach_start : creach s0 s0
  | creach_step a s s' : creach s0 s → exec_action a s = Some s' → creach s0 s'.

Lemma creach_exec s0 acts s s' : creach s0 s → exec_actions acts s = Some s' → creach s0 s'.
Proof.
  revert s. induction acts as [|a acts IH]; intros s Hr; cbn; [by intros [= <-]|].
  destruct (exec_action a s) as [s1|] eqn:E; [|done]. cbn. apply IH. by eapply creach_step.
Qed.
