(* ===== verification/ChanLogic.v ===== *)
(** * Reasoning about channels

    What a buffered channel promises, as an abstract system in which every call
    takes effect in one or two atomic steps, and a program logic for the threads
    that use the channel: [safe] follows a thread through its events while the
    others do anything that keeps the invariant. *)

From ITree Require Import ITree.
From S2P Require Import Prelude RingQueue Chan.

(** ** The abstract channel *)

Inductive phase :=
  | Ph_idle
  | Ph_invoked (c : call)
  | Ph_checked (value : voidp)    (* a send that found the channel open *)
  | Ph_done (r : reply).

(** The content, the bound and the closed flag. *)
Record chan_abs := mk_abs { ab_fifo : Fifo.fifo voidp; ab_closed : bool }.

Definition ok_reply : reply := mk_reply 0 None None.
Definition epipe_reply : reply := mk_reply (-1) (Some EPIPE) None.

(** An atomic step of a call. *)
Inductive chan_op : phase → chan_abs → phase → chan_abs → Prop :=
  | op_check c v f : chan_op (Ph_invoked (Call_send c v)) (mk_abs f false) (Ph_checked v) (mk_abs f false)
  | op_refused c v f :
      chan_op (Ph_invoked (Call_send c v)) (mk_abs f true) (Ph_done epipe_reply) (mk_abs f true)
  | op_push v b items x : blen items < b →
      chan_op (Ph_checked v) (mk_abs (Fifo.mk_fifo b items) x)
        (Ph_done ok_reply) (mk_abs (Fifo.mk_fifo b (items ++ [v])) x)
  | op_pop c b v vs x :
      chan_op (Ph_invoked (Call_recv c)) (mk_abs (Fifo.mk_fifo b (v :: vs)) x)
        (Ph_done (mk_reply 0 None (Some v))) (mk_abs (Fifo.mk_fifo b vs) x)
  | op_end c b :
      chan_op (Ph_invoked (Call_recv c)) (mk_abs (Fifo.mk_fifo b []) true)
        (Ph_done epipe_reply) (mk_abs (Fifo.mk_fifo b []) true)
  | op_close c f :
      chan_op (Ph_invoked (Call_close c)) (mk_abs f false) (Ph_done ok_reply) (mk_abs f true)
  | op_close_again c f :
      chan_op (Ph_invoked (Call_close c)) (mk_abs f true) (Ph_done epipe_reply) (mk_abs f true)
  | op_is_closed c f x :
      chan_op (Ph_invoked (Call_is_closed c)) (mk_abs f x)
        (Ph_done (mk_reply (Z.b2z x) None None)) (mk_abs f x)
  | op_size c f x :
      chan_op (Ph_invoked (Call_size c)) (mk_abs f x)
        (Ph_done (mk_reply (blen (Fifo.items f)) None None)) (mk_abs f x).

(** The threads of the abstract system: the calls to come, the replies, and how
    far the current call is. *)
Record athread := mk_athread { at_calls : list call; at_replies : list reply; at_phase : phase }.
Record asystem := mk_asystem { as_chan : chan_abs; as_threads : gmap nat athread }.

(** The system whose calls take effect by the steps [op]. *)
Inductive step_by (op : phase → chan_abs → phase → chan_abs → Prop) : asystem → asystem → Prop :=
  | as_start i c cs rs ch ths :
      ths !! i = Some (mk_athread (c :: cs) rs Ph_idle) →
      step_by op (mk_asystem ch ths) (mk_asystem ch (<[i := mk_athread cs rs (Ph_invoked c)]> ths))
  | as_op i cs rs ph ph' ch ch' ths :
      ths !! i = Some (mk_athread cs rs ph) → op ph ch ph' ch' →
      step_by op (mk_asystem ch ths) (mk_asystem ch' (<[i := mk_athread cs rs ph']> ths))
  | as_return i r cs rs ch ths :
      ths !! i = Some (mk_athread cs rs (Ph_done r)) →
      step_by op (mk_asystem ch ths) (mk_asystem ch (<[i := mk_athread cs (rs ++ [r]) Ph_idle]> ths)).
Abbreviation astep := (step_by chan_op).

(** The same with a send in one step: it appends while the channel is open. *)
Inductive atomic_op : phase → chan_abs → phase → chan_abs → Prop :=
  | ao_send c v b items : blen items < b →
      atomic_op (Ph_invoked (Call_send c v)) (mk_abs (Fifo.mk_fifo b items) false)
        (Ph_done ok_reply) (mk_abs (Fifo.mk_fifo b (items ++ [v])) false)
  | ao_other ph ch ph' ch' :
      chan_op ph ch ph' ch' → (∀ v, ph ≠ Ph_checked v) → (∀ v, ph' ≠ Ph_checked v) →
      atomic_op ph ch ph' ch'.

Definition start_abs (bound : Z) (calls : gmap nat (list call)) : asystem :=
  mk_asystem (mk_abs (Fifo.mk_fifo bound []) false) ((fun cs => mk_athread cs [] Ph_idle) <$> calls).

(** ** Ghost state *)

(** The thread that holds [m_mu]: the channel as it sees it; how far the two
    counters are from the number of threads that wait; how many wakeups of
    readers and of writers it owes; whether it still has to wake all readers
    because it closed the channel. *)
Record hold := mk_hold {
  h_chan : chan_t; h_er : Z; h_ew : Z; h_dr : Z; h_dw : Z; h_closing : bool
}.

Inductive view := Out | In (h : hold).
Inductive role := R_view (v : view) | R_sleep (cv : chan_cond) | R_woken (cv : chan_cond).

(** What a role adds to the sums of the invariant. *)
Definition count_r (r : role) : Z :=
  match r with R_sleep R_cond | R_woken R_cond => 1 | R_view (In h) => h_er h | _ => 0 end.
Definition count_w (r : role) : Z :=
  match r with R_sleep W_cond | R_woken W_cond => 1 | R_view (In h) => h_ew h | _ => 0 end.
Definition sleep_r (r : role) : Z := match r with R_sleep R_cond => 1 | _ => 0 end.
Definition sleep_w (r : role) : Z := match r with R_sleep W_cond => 1 | _ => 0 end.
Definition pend_r (r : role) : Z :=
  match r with R_woken R_cond => 1 | R_view (In h) => h_dr h | _ => 0 end.
Definition pend_w (r : role) : Z :=
  match r with R_woken W_cond => 1 | R_view (In h) => h_dw h | _ => 0 end.

(** ** The buffer, by what its interface promises *)

Abbreviation vqueue := (queue_t (V := voidp)).

Section buffer.
Context `{B : !BoundedFifo (None : voidp) size capacity queue_add (queue_remove None)}.

Definition buffer_wf (q : vqueue) : Prop := fifo_wf (BoundedFifo := B) q.
Definition buffer_items (q : vqueue) : list voidp := fifo_items (BoundedFifo := B) q.

Lemma buffer_size q : buffer_wf q → size q = blen (buffer_items q) ∧ size q <= capacity q.
Proof. apply (fifo_size (BoundedFifo := B)). Qed.
Lemma buffer_add q v : buffer_wf q → size q < capacity q → ∃ q', queue_add q v = Some ((0, None), q') ∧
  buffer_wf q' ∧ capacity q' = capacity q ∧ buffer_items q' = buffer_items q ++ [v] ∧ size q' = size q + 1.
Proof.
  intros Hwf Hs. destruct (fifo_add (BoundedFifo := B) q v Hwf Hs) as (q' & ? & Hwf' & ? & Hi). exists q'. split_and!; try done.
  destruct (fifo_size (BoundedFifo := B) q Hwf) as [-> _], (fifo_size (BoundedFifo := B) q' Hwf') as [-> _]. by rewrite Hi, blen_app.
Qed.
Lemma buffer_remove q : buffer_wf q → 0 < size q → ∃ v vs q', queue_remove None q = Some (v, q') ∧
  buffer_wf q' ∧ capacity q' = capacity q ∧ buffer_items q = v :: vs ∧ buffer_items q' = vs ∧
  size q' = size q - 1.
Proof.
  intros Hwf Hs. destruct (fifo_remove (BoundedFifo := B) q Hwf Hs) as (v & vs & q' & ? & Hwf' & ? & Hi & Hi').
  exists v, vs, q'. split_and!; try done.
  destruct (fifo_size (BoundedFifo := B) q Hwf) as [-> _], (fifo_size (BoundedFifo := B) q' Hwf') as [-> _]. rewrite Hi, Hi', blen_cons. lia.
Qed.
End buffer.
#[global] Arguments buffer_wf : simpl never.
#[global] Arguments buffer_items : simpl never.

(** ** The logic

    [p] is the channel, [cap] its capacity, [N] the number of threads. *)
Section logic.
Context (p : addr) (cap N : Z).

(** The channel abstracted. *)
Definition chan_abs_of (ch : chan_t) (q : queue_t (V := voidp)) : chan_abs :=
  mk_abs (Fifo.mk_fifo cap (buffer_items q)) (negb (closed ch =? 0)).

Definition queue_ok (q : queue_t (V := voidp)) : Prop := buffer_wf q ∧ capacity q = cap.

(** What the holder of [m_mu] knows. *)
Definition hold_ok (h : hold) : Prop :=
  ((∃ q, queue (h_chan h) = Some q ∧ queue_ok q) ∧ 0 <= closed (h_chan h) <= 1) ∧
  0 <= r_waiting (h_chan h) - h_er h < N ∧ 0 <= w_waiting (h_chan h) - h_ew h < N.

Definition taken (ch : chan_t) : hold := mk_hold ch 0 0 0 0 false.
Definition woken (cv : chan_cond) (ch : chan_t) : hold :=
  match cv with R_cond => mk_hold ch 1 0 1 0 false | W_cond => mk_hold ch 0 1 0 1 false end.

(** No wakeup of a reader (a writer) is owed, or none is needed. *)
Definition no_debt_r (h : hold) : Prop :=
  h_dr h <= 0 ∨ r_waiting (h_chan h) <= h_er h ∨
  ∃ q, queue (h_chan h) = Some q ∧ size q <= 0.
Definition no_debt_w (h : hold) : Prop :=
  h_dw h <= 0 ∨ w_waiting (h_chan h) <= h_ew h ∨
  ∃ q, queue (h_chan h) = Some q ∧ cap <= size q.

Definition can_release (h : hold) : Prop :=
  h_er h = 0 ∧ h_ew h = 0 ∧ no_debt_r h ∧ no_debt_w h ∧ h_closing h = false.
(** Who sleeps: a receiver before its step, a sender that found the channel open. *)
Definition wait_phase (cv : chan_cond) (ph : phase) : Prop :=
  match cv, ph with
  | R_cond, Ph_invoked (Call_recv _) | W_cond, Ph_checked _ => True
  | _, _ => False
  end.
(** A reader sleeps on an empty open channel, a writer on a full one. *)
Definition can_wait (cv : chan_cond) (h : hold) : Prop :=
  h_closing h = false ∧
  match cv with
  | R_cond => h_er h = 1 ∧ h_ew h = 0 ∧ closed (h_chan h) = 0 ∧ no_debt_w h ∧
              ∃ q, queue (h_chan h) = Some q ∧ size q <= 0
  | W_cond => h_er h = 0 ∧ h_ew h = 1 ∧ no_debt_r h ∧
              ∃ q, queue (h_chan h) = Some q ∧ cap <= size q
  end.

(** A signal pays one wakeup; a broadcast to the readers pays for the closing. *)
Definition signalled (cv : chan_cond) (h : hold) : hold :=
  match cv with
  | R_cond => mk_hold (h_chan h) (h_er h) (h_ew h) (h_dr h - 1) (h_dw h) (h_closing h)
  | W_cond => mk_hold (h_chan h) (h_er h) (h_ew h) (h_dr h) (h_dw h - 1) (h_closing h)
  end.
Definition broadcasted (cv : chan_cond) (h : hold) : hold :=
  match cv with
  | R_cond => mk_hold (h_chan h) (h_er h) (h_ew h) (h_dr h) (h_dw h) false
  | W_cond => h
  end.

(** An access of the holder: the counters follow the ghost counts, an element
    added or a place freed is a wakeup owed, and the abstract channel stays or
    makes one step of the call. *)
Record hold_step (h : hold) (ph : phase) (h' : hold) (ph' : phase) : Prop := {
  hs_queue q : queue (h_chan h) = Some q → queue_ok q → ∃ q',
    queue (h_chan h') = Some q' ∧ queue_ok q' ∧
    size q' - h_dr h' <= size q - h_dr h ∧ - size q' - h_dw h' <= - size q - h_dw h ∧
    (ph' = ph ∧ chan_abs_of (h_chan h') q' = chan_abs_of (h_chan h) q ∨
     chan_op ph (chan_abs_of (h_chan h) q) ph' (chan_abs_of (h_chan h') q'));
  hs_r : r_waiting (h_chan h') - h_er h' = r_waiting (h_chan h) - h_er h;
  hs_w : w_waiting (h_chan h') - h_ew h' = w_waiting (h_chan h) - h_ew h;
  hs_closed : h_closing h' = true ∧ closed (h_chan h') = 1 ∨
    closed (h_chan h') = closed (h_chan h) ∧ h_closing h' = h_closing h;
  hs_mutex : m_mu (h_chan h') = m_mu (h_chan h)
}.

(** The function [f] of the store is an access to the channel. *)
Definition accesses {X} (f : store_t → option (X * store_t)) (ch : chan_t) (x : X) (ch' : chan_t) : Prop :=
  ∀ st, st_chans st !! p = Some ch → f st = Some (x, st⟨st_chans := <[p := ch']> (st_chans st)⟩).

(** [safe n v ph t Q]: for [n] steps the thread in the view [v], whose call is at
    [ph], keeps the rules of the channel; if it returns, it does so in [Q]. *)
Fixpoint safe (n : nat) {A} (v : view) (ph : phase) (t : P A) (Q : A → view → phase → Prop) : Prop :=
  match n with
  | O => True
  | S n =>
      match observe t with
      | RetF x => Q x v ph
      | TauF t => safe n v ph t Q
      | @VisF _ _ _ X e k =>
          match e in chanE X return (X → P A) → Prop with
          | Lock c m => fun k => c = p ∧ m = M_mu ∧ v = Out ∧
              ∀ ch, hold_ok (taken ch) → safe n (In (taken ch)) ph (k tt) Q
          | Unlock c m => fun k => c = p ∧ m = M_mu ∧
              ∃ h, v = In h ∧ can_release h ∧ safe n Out ph (k tt) Q
          | Cond_wait c cv m => fun k => c = p ∧ m = M_mu ∧
              ∃ h, v = In h ∧ wait_phase cv ph ∧ can_wait cv h ∧
                   ∀ ch, hold_ok (woken cv ch) → safe n (In (woken cv ch)) ph (k tt) Q
          | Cond_signal c cv => fun k => c = p ∧
              ∃ h, v = In h ∧ safe n (In (signalled cv h)) ph (k tt) Q
          | Cond_broadcast c cv => fun k => c = p ∧
              ∃ h, v = In h ∧ safe n (In (broadcasted cv h)) ph (k tt) Q
          | Access f => fun k =>
              (∃ h h' ph' x, v = In h ∧ accesses f (h_chan h) x (h_chan h') ∧
                 hold_step h ph h' ph' ∧ safe n (In h') ph' (k x) Q) ∨
              (∃ x, v = Out ∧ (∀ ch, is_Some (queue ch) → accesses f ch x ch) ∧ safe n v ph (k x) Q)
          | Sys_ok | Rand => fun _ => False
          end k
      end
  end.

Definition always {A} (v : view) (ph : phase) (t : P A) (Q : A → view → phase → Prop) : Prop :=
  ∀ n, safe n v ph t Q.

Lemma safe_observe {A} n v ph (t t' : P A) Q :
  observe t = observe t' → safe n v ph t Q → safe n v ph t' Q.
Proof. intros E. destruct n; [done|]. cbn. by rewrite E. Qed.

Lemma observe_bind {A B} (t : P A) (k : A → P B) :
  observe (t ≫= k) =
  match observe t with
  | RetF x => observe (k x)
  | TauF t => TauF (t ≫= k)
  | VisF e h => VisF e (fun x => h x ≫= k)
  end.
Proof. unfold mbind, itree_mbind, observe. cbn. unfold observe. by destruct (_observe t). Qed.

Lemma safe_le {A} n m v ph (t : P A) Q : (m <= n)%nat → safe n v ph t Q → safe m v ph t Q.
Proof.
  revert m v ph t. induction n as [|n IH]; intros m v ph t Hm H; [by replace m with 0%nat by lia|].
  destruct m as [|m]; [done|]. cbn in *. assert (m <= n)%nat by lia.
  destruct (observe t) as [x|t'|X e k]; [done|by eapply IH|].
  destruct e; try done; naive_solver.
Qed.

Lemma safe_seq {A B} n v ph (t : P A) (k : A → P B) R Q :
  safe n v ph t R →
  (∀ m x v' ph', (m <= n)%nat → R x v' ph' → safe m v' ph' (k x) Q) →
  safe n v ph (t ≫= k) Q.
Proof.
  revert v ph t. induction n as [|n IH]; intros v ph t Ht Hk; [done|].
  assert (∀ v ph t, safe n v ph t R → safe n v ph (t ≫= k) Q) as IH'.
  { intros v' ph' t' Ht'. apply IH; [done|]. intros m x v2 ph2 Hm. apply Hk. lia. }
  cbn in Ht. cbn [safe]. rewrite observe_bind. destruct (observe t) as [x|t'|X e h].
  - exact (Hk (S n) x v ph (le_n _) Ht).
  - by apply IH'.
  - destruct e; try done; naive_solver.
Qed.

(** *** Rules *)

Lemma always_bind {A B} v ph (t : P A) (k : A → P B) Q :
  always v ph t (fun x v' ph' => always v' ph' (k x) Q) → always v ph (t ≫= k) Q.
Proof.
  intros Ht n. eapply safe_seq; [exact (Ht n)|]. intros m x v' ph' _ Hx. exact (Hx m).
Qed.

Lemma always_ret {A} v ph (x : A) (Q : A → view → phase → Prop) : Q x v ph → always v ph (mret x) Q.
Proof. by intros HQ []. Qed.

Lemma always_weaken {A} v ph (t : P A) (R Q : A → view → phase → Prop) :
  always v ph t R → (∀ x v ph, R x v ph → Q x v ph) → always v ph t Q.
Proof.
  intros Ht HRQ n. specialize (Ht n).
  revert v ph t Ht. induction n as [|n IH]; intros v ph t; [done|]. cbn.
  destruct (observe t) as [x|t'|X e k]; [auto|auto|]. destruct e; try done; naive_solver.
Qed.

(** A loop with the invariant [J]. *)
Lemma always_iter {A I} (J : I → view → phase → Prop) (body : I → P (I + A)) (Q : A → view → phase → Prop) :
  (∀ i v ph, J i v ph → always v ph (body i)
     (fun r v' ph' => match r with inl i => J i v' ph' | inr x => Q x v' ph' end)) →
  ∀ i v ph, J i v ph → always v ph (ITree.iter body i) Q.
Proof.
  intros Hb i v ph HJ n. revert i v ph HJ.
  induction n as [n IH] using lt_wf_ind; intros i v ph HJ.
  apply (safe_observe _ _ _
    (body i ≫= fun r => match r with inl i => Tau (ITree.iter body i) | inr x => Ret x end)); [done|].
  eapply safe_seq; [exact (Hb i v ph HJ n)|].
  intros [|m] [i'|x] v' ph' Hm Hr; try done. apply IH; [lia|done].
Qed.

Lemma always_while v ph (J : view → Prop) (cond : P bool) (body : P unit) (Q : unit → view → phase → Prop) :
  (∀ v, J v → always v ph cond (fun b v1 ph1 => ph1 = ph ∧
     if (b : bool) then always v1 ph body (fun _ v2 ph2 => J v2 ∧ ph2 = ph) else Q tt v1 ph)) →
  J v → always v ph (while cond body) Q.
Proof.
  intros Hb HJ. apply (always_iter (fun _ v' ph' => J v' ∧ ph' = ph)); [|done].
  intros [] v' ph' [HJ' ->]. apply always_bind. eapply always_weaken; [by apply Hb|].
  intros [] v1 ph1 [-> H1].
  - apply always_bind. eapply always_weaken; [exact H1|]. intros _ v2 ph2 [? ->]. by apply always_ret.
  - by apply always_ret.
Qed.

Section rules.
Context {A : Type} (ph : phase).

Lemma always_lock (Q : unit → view → phase → Prop) :
  (∀ ch, hold_ok (taken ch) → Q tt (In (taken ch)) ph) → always Out ph (pthread_mutex_lock p M_mu) Q.
Proof. intros HQ [|n]; [done|]. cbn. split_and!; try done. intros ch Hch. destruct n; [done|]. by apply HQ. Qed.

Lemma always_unlock h (Q : unit → view → phase → Prop) :
  can_release h → Q tt Out ph → always (In h) ph (pthread_mutex_unlock p M_mu) Q.
Proof. intros Hh HQ [|n]; [done|]. cbn. split_and!; try done. exists h. split_and!; try done. by destruct n. Qed.

Lemma always_wait cv h (Q : unit → view → phase → Prop) :
  wait_phase cv ph → can_wait cv h → (∀ ch, hold_ok (woken cv ch) → Q tt (In (woken cv ch)) ph) →
  always (In h) ph (pthread_cond_wait p cv M_mu) Q.
Proof.
  intros Hp Hh HQ [|n]; [done|]. cbn. split_and!; try done. exists h. split_and!; try done.
  intros ch Hch. destruct n; [done|]. by apply HQ.
Qed.

Lemma always_signal cv h (Q : unit → view → phase → Prop) :
  Q tt (In (signalled cv h)) ph → always (In h) ph (pthread_cond_signal p cv) Q.
Proof. intros HQ [|n]; [done|]. cbn. split; [done|]. exists h. split; [done|]. by destruct n. Qed.

Lemma always_broadcast cv h (Q : unit → view → phase → Prop) :
  Q tt (In (broadcasted cv h)) ph → always (In h) ph (pthread_cond_broadcast p cv) Q.
Proof. intros HQ [|n]; [done|]. cbn. split; [done|]. exists h. split; [done|]. by destruct n. Qed.

(** An access of the holder: [f] gives [x] and the new channel. *)
Lemma always_with_chan {X} (f : chan_t → option (X * chan_t)) h x ph' h' (Q : X → view → phase → Prop) :
  f (h_chan h) = Some (x, h_chan h') → hold_step h ph h' ph' → Q x (In h') ph' →
  always (In h) ph (with_chan p f) Q.
Proof.
  intros Hf Hs HQ [|n]; [done|]. cbn. left. exists h, h', ph', x. split_and!; try done; [|by destruct n].
  intros st Hst. unfold on_chan. rewrite Hst. cbn. by rewrite Hf.
Qed.

Lemma hold_step_refl h : hold_step h ph h ph.
Proof. constructor; try done; [|by right]. intros q Hq Hok. exists q. split_and!; try done; [lia..|by left]. Qed.

Lemma always_get {X} (f : chan_t → X) h (Q : X → view → phase → Prop) :
  Q (f (h_chan h)) (In h) ph → always (In h) ph (get p f) Q.
Proof. intros HQ. eapply always_with_chan; [done|apply hold_step_refl|done]. Qed.

(** Without the mutex only what never changes can be read. *)
Lemma always_is_buffered (Q : bool → view → phase → Prop) :
  Q true Out ph → always Out ph (chan_is_buffered p) Q.
Proof.
  intros HQ [|n]; [done|]. cbn. right. exists true. split_and!; try done; [|by destruct n].
  intros ch [q Hq] st Hst. unfold on_chan. rewrite Hst. cbn. rewrite Hq.
  rewrite bool_decide_eq_true_2 by done. rewrite insert_id by done. by destruct st.
Qed.
End rules.

End logic.
