(* ===== verification/ChanProgs.v ===== *)
(** * The functions of a buffered channel keep its rules *)

From ITree Require Import ITree.
From S2P Require Import Prelude RingQueue Chan ChanLogic.

Section progs.
Context (p : addr) (cap N : Z) (Hcap : 0 < cap) (HN : N < 2 ^ 31).

Abbreviation always := (always p cap N).
Abbreviation hold_ok := (hold_ok cap N).

(** A final state: the mutex is free, the call has the reply [r]. *)
Definition finished (r : reply) : view → phase → Prop := fun v ph => v = Out ∧ ph = Ph_done r.

Lemma hold_ok_queue h : hold_ok h → ∃ q, queue (h_chan h) = Some q ∧ buffer_wf q ∧ capacity q = cap ∧
  size q = blen (buffer_items q) ∧ 0 <= size q <= cap.
Proof.
  intros [[(q & Hq & Hwf & Hc) _] _]. exists q. destruct (buffer_size q Hwf) as [Hs Hle].
  pose proof (blen_nonneg (buffer_items q)) as Hn.
  split_and!; try done; lia.
Qed.

(** [chan->r_waiting += d], and the same for the writers. *)
Definition count_readers (d : Z) (h : hold) : hold :=
  mk_hold ((h_chan h)⟨r_waiting := r_waiting (h_chan h) + d⟩) (h_er h + d) (h_ew h)
    (h_dr h) (h_dw h) (h_closing h).
Definition count_writers (d : Z) (h : hold) : hold :=
  mk_hold ((h_chan h)⟨w_waiting := w_waiting (h_chan h) + d⟩) (h_er h) (h_ew h + d)
    (h_dr h) (h_dw h) (h_closing h).

Lemma hold_ok_readers d h : hold_ok h → hold_ok (count_readers d h).
Proof using All. intros (Hq & Hr & Hw). split; [exact Hq|]. cbn. lia. Qed.
Lemma hold_ok_writers d h : hold_ok h → hold_ok (count_writers d h).
Proof using All. intros (Hq & Hr & Hw). split; [exact Hq|]. cbn. lia. Qed.

Lemma always_count_readers d h ph (Q : unit → view → phase → Prop) :
  is_int (r_waiting (h_chan h) + d) → Q tt (In (count_readers d h)) ph →
  always (In h) ph (add_to r_waiting d p) Q.
Proof using All.
  intros Hd HQ. eapply (always_with_chan _ _ _ _ _ h tt ph (count_readers d h));
    [by rewrite int_result_ok| |exact HQ].
  constructor; cbn; try done; [|lia|by right].
  intros q Hq Hok. exists q. split_and!; try done; try lia. by left.
Qed.
Lemma always_count_writers d h ph (Q : unit → view → phase → Prop) :
  is_int (w_waiting (h_chan h) + d) → Q tt (In (count_writers d h)) ph →
  always (In h) ph (add_to w_waiting d p) Q.
Proof using All.
  intros Hd HQ. eapply (always_with_chan _ _ _ _ _ h tt ph (count_writers d h));
    [by rewrite int_result_ok| |exact HQ].
  constructor; cbn; try done; [|lia|by right].
  intros q Hq Hok. exists q. split_and!; try done; try lia. by left.
Qed.

(** An access to the queue that leaves it as it is. *)
Lemma always_get_queue {X} (f : vqueue → X) h q ph (Q : X → view → phase → Prop) :
  queue (h_chan h) = Some q → Q (f q) (In h) ph → always (In h) ph (get_queue p f) Q.
Proof using All.
  intros Hq HQ. eapply always_with_chan; [|apply hold_step_refl|exact HQ].
  unfold on_queue. rewrite Hq. cbn. do 2 f_equal. destruct h as [[]]; cbn in *. by rewrite Hq.
Qed.

(** Between two calls of a loop the holder owes nothing but a wakeup it was
    given itself. *)
Definition quiet (h : hold) : Prop :=
  hold_ok h ∧ h_er h = 0 ∧ h_ew h = 0 ∧ h_dr h <= 1 ∧ h_dw h <= 1 ∧ h_closing h = false.

Lemma quiet_taken ch : hold_ok (taken ch) → quiet (taken ch).
Proof using All. intros H. by split_and!. Qed.

(** Sleeping, and waking up with the mutex, as three statements. *)
Definition count_in (cv : chan_cond) (d : Z) : P unit :=
  match cv with R_cond => add_to r_waiting d p | W_cond => add_to w_waiting d p end.

Lemma always_sleep cv h ph (Q : unit → view → phase → Prop) :
  quiet h → wait_phase cv ph → (cv = R_cond → closed (h_chan h) = 0 ∧ h_dw h <= 0) → (cv = W_cond → h_dr h <= 0) →
  (∃ q, queue (h_chan h) = Some q ∧ match cv with R_cond => size q <= 0 | W_cond => cap <= size q end) →
  (∀ h', quiet h' → match cv with R_cond => h_dw h' <= 0 | W_cond => h_dr h' <= 0 end → Q tt (In h') ph) →
  always (In h) ph (count_in cv 1) (fun _ v ph => always v ph (pthread_cond_wait p cv M_mu)
    (fun _ v ph => always v ph (count_in cv (-1)) Q)).
Proof using All.
  intros ((Hq & Hr & Hw) & Her & Hew & Hdr & Hdw & Hcl) Hph HR HW Hqueue HQ. destruct cv; cbn [count_in].
  - destruct (HR eq_refl) as [Hc Hd]. apply always_count_readers; [unfold is_int; lia|].
    apply always_wait; [done| |]. { split; [done|]. cbn. split_and!; try done; try lia. by left. }
    intros ch Hch. apply always_count_readers; [destruct Hch as (_ & ? & _); cbn in *; unfold is_int; lia|].
    apply HQ; [|done]. split; [by apply hold_ok_readers|]. by split_and!.
  - specialize (HW eq_refl). apply always_count_writers; [unfold is_int; lia|].
    apply always_wait; [done| |]. { split; [done|]. cbn. split_and!; try done; try lia. by left. }
    intros ch Hch. apply always_count_writers; [destruct Hch as (_ & _ & ?); cbn in *; unfold is_int; lia|].
    apply HQ; [|done]. split; [by apply hold_ok_writers|]. by split_and!.
Qed.

Lemma sleep_body v ph (m1 m2 m3 : P unit) (Q : unit → view → phase → Prop) :
  always v ph m1 (fun _ v ph => always v ph m2 (fun _ v ph => always v ph m3 Q)) →
  always v ph (m1;; m2;; m3) Q.
Proof using All.
  intros H. apply always_bind. eapply always_weaken; [exact H|]. intros [] v1 ph1 H1. by apply always_bind.
Qed.
Lemma sleep_body_ret {A} v ph (m1 m2 m3 : P unit) (x : A) (Q : A → view → phase → Prop) :
  always v ph m1 (fun _ v ph => always v ph m2 (fun _ v ph => always v ph m3 (fun _ => Q x))) →
  always v ph (m1;; m2;; m3;; mret x) Q.
Proof using All.
  intros H. apply always_bind. eapply always_weaken; [exact H|]. intros [] v1 ph1 H1.
  apply always_bind. eapply always_weaken; [exact H1|]. intros [] v2 ph2 H2.
  apply always_bind. eapply always_weaken; [exact H2|]. intros [] v3 ph3 H3. by apply always_ret.
Qed.

Lemma buffered_chan_send_ok value :
  always Out (Ph_checked value) (buffered_chan_send p value) (fun r => finished (of_result r)).
Proof using All.
  apply always_bind, always_lock. intros ch Hch. apply always_bind.
  apply (always_while _ _ _ _ _ (fun v => ∃ h, v = In h ∧ quiet h ∧ h_dr h <= 0));
    [|exists (taken ch); split_and!; [done|by apply quiet_taken|done]].
  intros _ (h & -> & Hh & Hdr). destruct (hold_ok_queue h) as (q & Hq & Hwf & Hc & Hs & Hle); [apply Hh|].
  eapply always_get_queue; [exact Hq|]. split; [done|]. destruct (Z.eqb_spec (size q) (capacity q)) as [Hf|Hf].
  - apply sleep_body, (always_sleep W_cond); [done|done|done|done|exists q; split; [done|lia]|].
    intros h' Hh' Hd'. split; [|done]. by exists h'.
  - destruct (buffer_add q value Hwf) as (q' & Hadd & Hwf' & Hc' & Hi' & Hs'); [lia|].
    destruct Hh as ((_ & Hr & Hw) & Her & Hew & _ & Hdw & Hcl).
    set (h1 := mk_hold ((h_chan h)⟨queue := Some q'⟩) 0 0 (h_dr h + 1) (h_dw h - 1) false).
    apply always_bind. eapply (always_with_chan _ _ _ _ _ h (0, None) (Ph_done ok_reply) h1).
    { unfold on_queue. rewrite Hq. cbn. by rewrite Hadd. }
    { constructor; cbn; try done; [|lia|lia|right; by split].
      intros q0 Hq0 _. rewrite Hq in Hq0. injection Hq0 as <-. exists q'. split_and!; try done; try lia.
      - by split; [|lia].
      - right. unfold chan_abs_of. cbn. rewrite Hi'. apply op_push. lia. }
    apply always_bind, always_get. apply always_bind. destruct (Z.ltb_spec 0 (r_waiting (h_chan h1))) as [Hrw|Hrw].
    + apply always_signal. apply always_bind, always_unlock; [|by apply always_ret].
      split_and!; try done; cbn; left; cbn; lia.
    + apply always_ret. apply always_bind, always_unlock; [|by apply always_ret].
      split_and!; try done; [by right; left|left; cbn; lia].
Qed.

Lemma can_release_quiet h : quiet h → no_debt_r h → no_debt_w cap h → can_release cap h.
Proof using All. intros (? & ? & ? & ? & ? & ?) ? ?. by split_and!. Qed.

Lemma buffered_chan_recv_ok c :
  always Out (Ph_invoked (Call_recv c)) (buffered_chan_recv p true)
    (fun r => finished (mk_reply (fst (fst r)) (snd (fst r)) (snd r))).
Proof using All.
  apply always_bind, always_lock. intros ch Hch. apply always_bind.
  apply (always_iter _ _ _ (fun _ v ph => ph = Ph_invoked (Call_recv c) ∧
           ∃ h, v = In h ∧ quiet h ∧ h_dw h <= 0));
    [|split; [done|]; exists (taken ch); split_and!; [done|by apply quiet_taken|done]].
  intros _ v ph (-> & h & -> & Hh & Hdw).
  destruct (hold_ok_queue h) as (q & Hq & Hwf & Hc & Hs & Hle); [apply Hh|].
  apply always_bind. eapply always_get_queue; [exact Hq|]. destruct (Z.eqb_spec (size q) 0) as [He|He].
  - assert (buffer_items q = []) as Hnil by (apply blen_zero; lia).
    apply always_bind. destruct (Z.eqb_spec (closed (h_chan h)) 0) as [Hcl|Hcl].
    + apply always_get. rewrite Hcl. apply sleep_body_ret, (always_sleep R_cond); [done|done|done|done| |].
      * exists q. split; [done|lia].
      * intros h' Hh' Hd'. split; [done|]. by exists h'.
    + eapply (always_with_chan _ _ _ _ _ h _ (Ph_done epipe_reply) h); [done| |].
      { constructor; try done; [|by right]. intros q0 Hq0 Hok. exists q0. split_and!; try done; try lia.
        right. rewrite Hq in Hq0. injection Hq0 as <-. unfold chan_abs_of.
        rewrite Hnil, (proj2 (Z.eqb_neq _ _) Hcl). apply op_end. }
      rewrite (proj2 (Z.eqb_neq _ _) Hcl). apply always_bind, always_unlock.
      * apply can_release_quiet; [done|right; right; exists q; split; [done|lia]|by left].
      * apply always_ret, always_ret. done.
  - apply always_ret. destruct (buffer_remove q Hwf) as (msg & vs & q' & Hrem & Hwf' & Hc' & Hi & Hi' & Hs'); [lia|].
    destruct Hh as ((_ & Hr & Hw) & Her & Hew & Hdr & _ & Hcl).
    set (h1 := mk_hold ((h_chan h)⟨queue := Some q'⟩) 0 0 (h_dr h - 1) (h_dw h + 1) false).
    apply always_bind.
    eapply (always_with_chan _ _ _ _ _ h msg (Ph_done (mk_reply 0 None (Some msg))) h1).
    { unfold on_queue. rewrite Hq. cbn. by rewrite Hrem. }
    { constructor; cbn; try done; [|lia|lia|right; by split].
      intros q0 Hq0 _. rewrite Hq in Hq0. injection Hq0 as <-. exists q'. split_and!; try done; try lia.
      - by split; [|lia].
      - right. unfold chan_abs_of. cbn. rewrite Hi, Hi'. apply op_pop. }
    apply always_bind, always_get. apply always_bind. destruct (Z.ltb_spec 0 (w_waiting (h_chan h1))) as [Hww|Hww].
    + apply always_signal. apply always_bind, always_unlock; [|by apply always_ret].
      split_and!; try done; cbn; left; cbn; lia.
    + apply always_ret. apply always_bind, always_unlock; [|by apply always_ret].
      split_and!; try done; [left; cbn; lia|by right; left].
Qed.

(** A read under the lock that is the step of the call. *)
Lemma read_step {X} (f : chan_t → option (X * chan_t)) ch x ph r (Q : X → view → phase → Prop) :
  hold_ok (taken ch) → f ch = Some (x, ch) →
  (∀ q, queue ch = Some q → queue_ok cap q →
     chan_op ph (chan_abs_of cap ch q) r (chan_abs_of cap ch q) ∨ r = ph) →
  Q x (In (taken ch)) r → always (In (taken ch)) ph (with_chan p f) Q.
Proof using All.
  intros Hok Hf Hop HQ. eapply (always_with_chan _ _ _ _ _ (taken ch) x r (taken ch)); [done| |done].
  constructor; try done; [|by right]. intros q Hq Hqok. exists q. split_and!; try done; try lia.
  destruct (Hop q Hq Hqok); [by right|by left].
Qed.

Lemma release_taken ch ph (Q : unit → view → phase → Prop) :
  Q tt Out ph → always (In (taken ch)) ph (pthread_mutex_unlock p M_mu) Q.
Proof using All. intros HQ. apply always_unlock; [|done]. split_and!; try done; by left. Qed.

(** [chan_is_closed], in any call that may look at the flag. *)
Lemma chan_is_closed_ok ph (r : Z → phase) (Q : Z → view → phase → Prop) :
  (∀ f x, chan_op ph (mk_abs f x) (r (Z.b2z x)) (mk_abs f x)) →
  (∀ x : bool, Q (Z.b2z x) Out (r (Z.b2z x))) →
  always Out ph (chan_is_closed p) Q.
Proof using All.
  intros Hop HQ. apply always_bind, always_lock. intros ch Hch. pose proof Hch as [[_ Hcl] _].
  assert (closed ch = Z.b2z (negb (closed ch =? 0))) as Eb.
  { cbn in Hcl. destruct (Z.eqb_spec (closed ch) 0) as [->|]; [done|]. cbn. lia. }
  apply always_bind. eapply (read_step _ ch (closed ch) ph (r (closed ch))); [done|done| |].
  { intros q Hq Hqok. left. unfold chan_abs_of. rewrite Eb at 2. apply Hop. }
  apply always_bind, release_taken, always_ret. rewrite Eb. apply HQ.
Qed.

Lemma chan_close_ok c :
  always Out (Ph_invoked (Call_close c)) (chan_close p) (fun r => finished (of_result r)).
Proof using All.
  apply always_bind, always_lock. intros ch Hch. apply always_bind.
  destruct (Z.eqb_spec (closed ch) 0) as [Hcl|Hcl].
  - eapply (read_step _ ch (closed ch)); [done|done|by right|]. rewrite Hcl. cbn [Z.eqb negb].
    set (h1 := mk_hold (ch⟨closed := 1⟩) 0 0 0 0 true).
    apply always_bind, always_bind.
    eapply (always_with_chan _ _ _ _ _ (taken ch) tt (Ph_done ok_reply) h1); [done| |].
    { constructor; cbn; try done; [|by left]. intros q Hq Hok. exists q. split_and!; try done; try lia.
      right. unfold chan_abs_of. rewrite Hcl. apply op_close. }
    apply always_bind, always_broadcast, always_bind, always_broadcast, always_ret.
    apply always_bind, always_unlock; [|by apply always_ret]. split_and!; try done; by left.
  - eapply (read_step _ ch (closed ch) _ (Ph_done epipe_reply)); [done|done| |].
    { intros q Hq Hok. left. unfold chan_abs_of. rewrite (proj2 (Z.eqb_neq _ _) Hcl). apply op_close_again. }
    rewrite (proj2 (Z.eqb_neq _ _) Hcl). apply always_bind, always_ret, always_bind, release_taken.
    by apply always_ret.
Qed.

Lemma chan_size_ok c :
  always Out (Ph_invoked (Call_size c)) (chan_size p) (fun n => finished (mk_reply n None None)).
Proof using All.
  apply always_bind, always_is_buffered, always_bind, always_lock. intros ch Hch.
  destruct (hold_ok_queue _ Hch) as (q & Hq & Hwf & Hc & Hs & _). cbn in Hq.
  apply always_bind. eapply (read_step _ ch (size q) _ (Ph_done (mk_reply (size q) None None))); [done| | |].
  { unfold on_queue. rewrite Hq. cbn. do 2 f_equal. destruct ch; cbn in *. by rewrite Hq. }
  { intros q0 Hq0 _. left. rewrite Hq in Hq0. injection Hq0 as <-. rewrite Hs. exact (op_size _ _ _). }
  apply always_bind, release_taken. by apply always_ret.
Qed.

Definition call_chan (c : call) : addr :=
  match c with
  | Call_send c _ | Call_recv c | Call_close c | Call_is_closed c | Call_size c => c
  end.

(** Every call keeps the rules and returns the reply of its abstract step. *)
Lemma run_call_ok c :
  call_chan c = p → always Out (Ph_invoked c) (run_call c) finished.
Proof using All.
  intros Hc. destruct c as [c v|c|c|c|c]; cbn in Hc; subst c; apply always_bind.
  - apply always_bind.
    apply chan_is_closed_ok with (r := fun z => if z =? 0 then Ph_checked v else Ph_done epipe_reply).
    { intros f []; constructor. }
    intros []; cbn; [by apply always_ret, always_ret|].
    apply always_bind, always_is_buffered. eapply always_weaken; [apply buffered_chan_send_ok|].
    intros r v' ph' []. by apply always_ret.
  - apply always_bind, always_is_buffered. eapply always_weaken; [apply buffered_chan_recv_ok|].
    intros r v' ph' []. by apply always_ret.
  - eapply always_weaken; [apply chan_close_ok|]. intros r v' ph' []. by apply always_ret.
  - apply chan_is_closed_ok with (r := fun z => Ph_done (mk_reply z None None)); [constructor|].
    intros x. by apply always_ret.
  - eapply always_weaken; [apply chan_size_ok|]. intros r v' ph' []. by apply always_ret.
Qed.

End progs.
