(* ===== verification/ChanRefine.v ===== *)
(** * Buffered channels refine the abstract channel

    The invariant of the shared state, that every step of every thread keeps it,
    and what follows: each call takes effect atomically, and no wakeup is lost. *)

From ITree Require Import ITree.
From S2P Require Import Prelude RingQueue Chan ChanLogic ChanProgs.

(** ** The invariant *)

Section invariant.
Context (p : addr) (cap N : Z).

Record chan_inv (Γ : gmap nat role) (a : chan_abs) (ch : chan_t) : Prop := {
  ci_queue : ∃ q, queue ch = Some q ∧ queue_ok cap q ∧ a = chan_abs_of cap ch q;
  ci_closed : 0 <= closed ch <= 1;
  ci_mutex i : m_mu ch = Some i ↔ ∃ h, Γ !! i = Some (R_view (In h));
  ci_hold i h : Γ !! i = Some (R_view (In h)) → h_chan h = ch;
  ci_r : r_waiting ch = msum count_r Γ;
  ci_w : w_waiting ch = msum count_w Γ;
  ci_lost_r q : queue ch = Some q → msum sleep_r Γ = 0 ∨ size q <= msum pend_r Γ;
  ci_lost_w q : queue ch = Some q → msum sleep_w Γ = 0 ∨ cap - size q <= msum pend_w Γ;
  ci_open : closed ch = 0 ∨ msum sleep_r Γ = 0 ∨
    ∃ i h, Γ !! i = Some (R_view (In h)) ∧ h_closing h = true;
  ci_size : Z.of_nat (base.size Γ) = N
}.

Lemma inv_holder_unique Γ a ch i j h h' :
  chan_inv Γ a ch → Γ !! i = Some (R_view (In h)) → Γ !! j = Some (R_view (In h')) → i = j.
Proof.
  intros HI Hi Hj. pose proof (proj2 (ci_mutex _ _ _ HI i) ltac:(eauto)).
  pose proof (proj2 (ci_mutex _ _ _ HI j) ltac:(eauto)). congruence.
Qed.

(** What the holder knows. *)
Lemma inv_hold_ok Γ a ch i h : chan_inv Γ a ch → Γ !! i = Some (R_view (In h)) → hold_ok cap N h.
Proof.
  intros HI Hi. pose proof (ci_hold _ _ _ HI i h Hi) as Hch. unfold hold_ok. rewrite Hch.
  assert (∀ j r, delete i Γ !! j = Some r → 0 <= count_r r <= 1 ∧ 0 <= count_w r <= 1) as Hd.
  { intros j r [Hne Hj]%lookup_delete_Some. destruct r as [[|h']|[]|[]]; cbn; try lia.
    by pose proof (inv_holder_unique _ _ _ _ _ _ _ HI Hi Hj). }
  pose proof (ci_size _ _ _ HI) as HN. pose proof (map_size_delete_Some i Γ ltac:(eauto)) as Hsz.
  assert (base.size Γ ≠ 0%nat) as Hnz by (intros E%map_size_empty_inv; by rewrite E in Hi).
  rewrite (ci_r _ _ _ HI), (ci_w _ _ _ HI), (msum_delete count_r _ _ _ Hi), (msum_delete count_w _ _ _ Hi).
  pose proof (msum_nonneg count_r (delete i Γ) ltac:(intros; eapply Hd; eauto)).
  pose proof (msum_nonneg count_w (delete i Γ) ltac:(intros; eapply Hd; eauto)).
  pose proof (msum_le_size count_r (delete i Γ) ltac:(intros; eapply Hd; eauto)).
  pose proof (msum_le_size count_w (delete i Γ) ltac:(intros; eapply Hd; eauto)).
  destruct (ci_queue _ _ _ HI) as (q & ? & ? & _). cbn [count_r count_w].
  split_and!; try lia; [by exists q|apply HI|apply HI].
Qed.

Lemma size_insert_Some (Γ : gmap nat role) i r r' : Γ !! i = Some r → base.size (<[i := r']> Γ) = base.size Γ.
Proof. intros Hi. by apply map_size_insert_Some; eauto. Qed.

(** Taking the free mutex, as a newcomer or after having slept. *)
Lemma inv_lock Γ a ch i r h :
  chan_inv Γ a ch → m_mu ch = None → Γ !! i = Some r →
  h_chan h = ch⟨m_mu := Some i⟩ → count_r r = h_er h → count_w r = h_ew h → sleep_r r = 0 →
  sleep_w r = 0 → pend_r r = h_dr h → pend_w r = h_dw h →
  chan_inv (<[i := R_view (In h)]> Γ) a (ch⟨m_mu := Some i⟩).
Proof.
  intros HI Hm Hi Hh H1 H2 H3 H4 H5 H6.
  assert (∀ j h', Γ !! j ≠ Some (R_view (In h'))) as Hno.
  { intros j h' Hj. pose proof (proj2 (ci_mutex _ _ _ HI j) ltac:(eauto)). congruence. }
  constructor; rewrite ?(msum_insert _ _ _ _ _ Hi); cbn.
  - apply HI.
  - apply HI.
  - intros j. split.
    + intros [= <-]. exists h. by rewrite lookup_insert_eq.
    + intros [h' Hj]. destruct (decide (i = j)) as [<-|Hne]; [done|].
      rewrite lookup_insert_ne in Hj by done. by destruct (Hno j h').
  - intros j h' Hj. destruct (decide (i = j)) as [<-|Hne].
    + rewrite lookup_insert_eq in Hj. by injection Hj as <-.
    + rewrite lookup_insert_ne in Hj by done. by destruct (Hno j h').
  - rewrite (ci_r _ _ _ HI). lia.
  - rewrite (ci_w _ _ _ HI). lia.
  - intros q Hq. destruct (ci_lost_r _ _ _ HI q Hq); [left|right]; lia.
  - intros q Hq. destruct (ci_lost_w _ _ _ HI q Hq); [left|right]; lia.
  - destruct (ci_open _ _ _ HI) as [?|[?|(j & h' & Hj & _)]]; [by left|right; left; lia|by destruct (Hno j h')].
  - rewrite (size_insert_Some _ _ _ _ Hi). apply HI.
Qed.

(** Leaving the mutex for a role that is not a holder's. *)
Lemma inv_leave Γ a ch i h r :
  chan_inv Γ a ch → Γ !! i = Some (R_view (In h)) → (∀ h', r ≠ R_view (In h')) →
  count_r r = h_er h → count_w r = h_ew h → h_closing h = false →
  (∀ q, queue ch = Some q → msum sleep_r Γ + sleep_r r = 0 ∨ size q <= msum pend_r Γ - h_dr h + pend_r r) →
  (∀ q, queue ch = Some q → msum sleep_w Γ + sleep_w r = 0 ∨ cap - size q <= msum pend_w Γ - h_dw h + pend_w r) →
  (closed ch = 0 ∨ sleep_r r = 0) →
  chan_inv (<[i := r]> Γ) a (ch⟨m_mu := None⟩).
Proof.
  intros HI Hi Hr H1 H2 H3 H4 H5 H6. 
  assert (∀ j h', <[i := r]> Γ !! j ≠ Some (R_view (In h'))) as Hno.
  { intros j h' [[-> E]|[Hne Hj]]%lookup_insert_Some; [by destruct (Hr h')|].
    by pose proof (inv_holder_unique _ _ _ _ _ _ _ HI Hi Hj). }
  constructor; rewrite ?(msum_insert _ _ _ _ _ Hi); cbn.
  - apply HI.
  - apply HI.
  - intros j. split; [done|]. intros [h' Hj]. by destruct (Hno j h').
  - intros j h' Hj. by destruct (Hno j h').
  - rewrite (ci_r _ _ _ HI). lia.
  - rewrite (ci_w _ _ _ HI). lia.
  - intros q Hq. destruct (H4 q Hq); [left|right]; lia.
  - intros q Hq. destruct (H5 q Hq); [left|right]; lia.
  - destruct (ci_open _ _ _ HI) as [?|[?|(j & h' & Hj & Hc)]]; [by left| |].
    + destruct H6; [by left|right; left; lia].
    + destruct (decide (i = j)) as [<-|Hne]; [congruence|].
      by pose proof (inv_holder_unique _ _ _ _ _ _ _ HI Hi Hj).
  - rewrite (size_insert_Some _ _ _ _ Hi). apply HI.
Qed.

(** No thread sleeps when the counter says so. *)
Lemma inv_no_sleepers Γ a ch i h :
  chan_inv Γ a ch → Γ !! i = Some (R_view (In h)) →
  (r_waiting ch <= h_er h → msum sleep_r Γ = 0) ∧ (w_waiting ch <= h_ew h → msum sleep_w Γ = 0) ∧
  0 <= msum pend_r Γ - h_dr h ∧ 0 <= msum pend_w Γ - h_dw h ∧
  0 <= msum sleep_r Γ ∧ 0 <= msum sleep_w Γ.
Proof.
  intros HI Hi. rewrite (ci_r _ _ _ HI), (ci_w _ _ _ HI), !(msum_delete _ _ _ _ Hi). cbn.
  assert (∀ j r, delete i Γ !! j = Some r → 0 <= sleep_r r <= count_r r ∧ 0 <= sleep_w r <= count_w r ∧
    0 <= pend_r r ∧ 0 <= pend_w r) as Hd.
  { intros j r [Hne Hj]%lookup_delete_Some. destruct r as [[|h']|[]|[]]; cbn; try lia.
    by pose proof (inv_holder_unique _ _ _ _ _ _ _ HI Hi Hj). }
  pose proof (msum_nonneg sleep_r (delete i Γ) ltac:(intros; eapply Hd; eauto)).
  pose proof (msum_nonneg sleep_w (delete i Γ) ltac:(intros; eapply Hd; eauto)).
  pose proof (msum_nonneg pend_r (delete i Γ) ltac:(intros; eapply Hd; eauto)).
  pose proof (msum_nonneg pend_w (delete i Γ) ltac:(intros; eapply Hd; eauto)).
  pose proof (msum_nonneg (fun r => count_r r - sleep_r r) (delete i Γ)
    ltac:(intros j r Hj; pose proof (Hd j r Hj); lia)) as Hr.
  pose proof (msum_nonneg (fun r => count_w r - sleep_w r) (delete i Γ)
    ltac:(intros j r Hj; pose proof (Hd j r Hj); lia)) as Hw.
  rewrite msum_sub in Hr, Hw. split_and!; try lia.
Qed.

(** The wakeups still owed are none, or nobody needs one. *)
Lemma inv_no_debt Γ a ch i h :
  chan_inv Γ a ch → Γ !! i = Some (R_view (In h)) →
  (no_debt_r h → ∀ q, queue ch = Some q → msum sleep_r Γ = 0 ∨ size q <= msum pend_r Γ - h_dr h) ∧
  (no_debt_w cap h → ∀ q, queue ch = Some q → msum sleep_w Γ = 0 ∨ cap - size q <= msum pend_w Γ - h_dw h).
Proof.
  intros HI Hi. destruct (inv_no_sleepers _ _ _ _ _ HI Hi) as (Hr & Hw & Hpr & Hpw & _ & _).
  pose proof (ci_hold _ _ _ HI i h Hi) as Hch. split; intros Hd q Hq.
  - destruct Hd as [Hd|[Hd|(q0 & Hq0 & Hd)]]; rewrite ?Hch in *.
    + destruct (ci_lost_r _ _ _ HI q Hq); [by left|right; lia].
    + left. by apply Hr.
    + right. rewrite Hq in Hq0. injection Hq0 as <-. lia.
  - destruct Hd as [Hd|[Hd|(q0 & Hq0 & Hd)]]; rewrite ?Hch in *.
    + destruct (ci_lost_w _ _ _ HI q Hq); [by left|right; lia].
    + left. by apply Hw.
    + right. rewrite Hq in Hq0. injection Hq0 as <-. lia.
Qed.

Lemma inv_release Γ a ch i h :
  chan_inv Γ a ch → Γ !! i = Some (R_view (In h)) → can_release cap h →
  chan_inv (<[i := R_view Out]> Γ) a (ch⟨m_mu := None⟩).
Proof.
  intros HI Hi (Her & Hew & Hdr & Hdw & Hcl).
  destruct (inv_no_debt _ _ _ _ _ HI Hi) as [Hr Hw].
  eapply inv_leave; try done; cbn; [| |by right].
  - intros q Hq. destruct (Hr Hdr q Hq); [left|right]; lia.
  - intros q Hq. destruct (Hw Hdw q Hq); [left|right]; lia.
Qed.

Lemma inv_wait Γ a ch i h cv :
  chan_inv Γ a ch → Γ !! i = Some (R_view (In h)) → can_wait cap cv h →
  chan_inv (<[i := R_sleep cv]> Γ) a (ch⟨m_mu := None⟩).
Proof.
  intros HI Hi [Hcl Hcv]. destruct (inv_no_debt _ _ _ _ _ HI Hi) as [Hr Hw].
  destruct (inv_no_sleepers _ _ _ _ _ HI Hi) as (_ & _ & Hpr & Hpw & _ & _).
  pose proof (ci_hold _ _ _ HI i h Hi) as Hch. rewrite Hch in Hcv.
  destruct cv; destruct Hcv as (Her & Hew & Hcv).
  - destruct Hcv as (Hopen & Hdw & q0 & Hq0 & Hs). eapply inv_leave; try done; cbn; [| |by left].
    + intros q Hq. right. rewrite Hq in Hq0. injection Hq0 as <-. lia.
    + intros q Hq. destruct (Hw Hdw q Hq); [left|right]; lia.
  - destruct Hcv as (Hdr & q0 & Hq0 & Hs). eapply inv_leave; try done; cbn; [| |by right].
    + intros q Hq. destruct (Hr Hdr q Hq); [left|right]; lia.
    + intros q Hq. right. rewrite Hq in Hq0. injection Hq0 as <-. lia.
Qed.

(** A role that is no holder's, before and after. *)
Lemma insert_not_holder (Γ : gmap nat role) j r r' :
  Γ !! j = Some r → (∀ h, r ≠ R_view (In h)) → (∀ h, r' ≠ R_view (In h)) →
  ∀ i h, <[j := r']> Γ !! i = Some (R_view (In h)) ↔ Γ !! i = Some (R_view (In h)).
Proof.
  intros Hj Hr Hr' i h. destruct (decide (j = i)) as [<-|Hne]; [|by rewrite lookup_insert_ne].
  rewrite lookup_insert_eq. split; [intros [= E]; by destruct (Hr' h)|].
  intros E. rewrite Hj in E. injection E as E. by destruct (Hr h).
Qed.

(** The rules for a change of roles that leaves the channel and the holder. *)
Lemma inv_roles Γ Γ' a ch :
  chan_inv Γ a ch → (∀ i h, Γ' !! i = Some (R_view (In h)) ↔ Γ !! i = Some (R_view (In h))) →
  msum count_r Γ' = msum count_r Γ → msum count_w Γ' = msum count_w Γ →
  msum sleep_r Γ' <= msum sleep_r Γ → msum sleep_w Γ' <= msum sleep_w Γ →
  0 <= msum sleep_r Γ' → 0 <= msum sleep_w Γ' →
  msum pend_r Γ <= msum pend_r Γ' → msum pend_w Γ <= msum pend_w Γ' →
  base.size Γ' = base.size Γ → chan_inv Γ' a ch.
Proof.
  intros HI Hh H1 H2 H3 H4 H5 H6 H7 H8 H9. constructor; rewrite ?H1, ?H2, ?H9; try apply HI.
  - intros i. rewrite (ci_mutex _ _ _ HI). by setoid_rewrite Hh.
  - intros i h. rewrite Hh. apply HI.
  - intros q Hq. destruct (ci_lost_r _ _ _ HI q Hq); [left|right]; lia.
  - intros q Hq. destruct (ci_lost_w _ _ _ HI q Hq); [left|right]; lia.
  - destruct (ci_open _ _ _ HI) as [?|[?|(i & h & Hi & Hc)]]; [by left|right; left; lia|].
    right; right. exists i, h. by rewrite Hh.
Qed.

Lemma sleep_nonneg f : f = sleep_r ∨ f = sleep_w → ∀ Γ, 0 <= msum f Γ.
Proof. intros [->| ->] Γ; apply msum_nonneg; by intros _ [[]|[]|[]] _. Qed.

Lemma inv_wake Γ a ch j cv :
  chan_inv Γ a ch → Γ !! j = Some (R_sleep cv) → chan_inv (<[j := R_woken cv]> Γ) a ch.
Proof.
  intros HI Hj. eapply inv_roles; [exact HI|by eapply insert_not_holder| | | | | | | | |];
    try (apply sleep_nonneg; by auto); rewrite ?(msum_insert _ _ _ _ _ Hj);
    try (destruct cv; cbn; lia). by eapply size_insert_Some.
Qed.

(** The holder's accounts change; the channel does not. *)
Lemma inv_holder Γ a ch i h h' :
  chan_inv Γ a ch → Γ !! i = Some (R_view (In h)) → h_chan h' = ch →
  h_er h' = h_er h → h_ew h' = h_ew h →
  (∀ q, queue ch = Some q → msum sleep_r Γ = 0 ∨ size q <= msum pend_r Γ - h_dr h + h_dr h') →
  (∀ q, queue ch = Some q → msum sleep_w Γ = 0 ∨ cap - size q <= msum pend_w Γ - h_dw h + h_dw h') →
  (h_closing h' = h_closing h ∨ msum sleep_r Γ = 0) →
  chan_inv (<[i := R_view (In h')]> Γ) a ch.
Proof.
  intros HI Hi Hch H1 H2 H3 H4 H5. constructor; rewrite ?(msum_insert _ _ _ _ _ Hi); cbn; try apply HI.
  - intros j. rewrite (ci_mutex _ _ _ HI). destruct (decide (i = j)) as [<-|Hne].
    + rewrite lookup_insert_eq. split; intros _; eauto.
    + by rewrite lookup_insert_ne.
  - intros j h2 [[<- E]|[_ Hj]]%lookup_insert_Some; [by injection E as <-|by eapply ci_hold].
  - rewrite (ci_r _ _ _ HI). lia.
  - rewrite (ci_w _ _ _ HI). lia.
  - intros q Hq. destruct (H3 q Hq); [left|right]; lia.
  - intros q Hq. destruct (H4 q Hq); [left|right]; lia.
  - destruct H5 as [H5|H5]; [|right; left; lia].
    destruct (ci_open _ _ _ HI) as [?|[?|(j & h2 & Hj & Hc)]]; [by left|right; left; lia|].
    right; right. exists i, h'. rewrite lookup_insert_eq. split; [done|].
    pose proof (inv_holder_unique _ _ _ _ _ _ _ HI Hi Hj) as <-. congruence.
  - rewrite (size_insert_Some _ _ _ _ Hi). apply HI.
Qed.

(** A signal that finds a sleeper, and one that finds none. *)
Lemma inv_signal Γ a ch i h j cv :
  chan_inv Γ a ch → Γ !! i = Some (R_view (In h)) → Γ !! j = Some (R_sleep cv) →
  chan_inv (<[i := R_view (In (signalled cv h))]> (<[j := R_woken cv]> Γ)) a ch.
Proof.
  intros HI Hi Hj. assert (i ≠ j) as Hne by congruence.
  assert (<[j := R_woken cv]> Γ !! i = Some (R_view (In h))) as Hi' by (by rewrite lookup_insert_ne).
  pose proof (ci_hold _ _ _ HI i h Hi) as Hch.
  pose proof (sleep_nonneg sleep_r ltac:(auto) (<[j := R_woken cv]> Γ)) as Hs1.
  pose proof (sleep_nonneg sleep_w ltac:(auto) (<[j := R_woken cv]> Γ)) as Hs2.
  rewrite (msum_insert _ _ _ _ _ Hj) in Hs1. rewrite (msum_insert _ _ _ _ _ Hj) in Hs2.
  apply (inv_holder _ _ _ _ _ _ (inv_wake _ _ _ _ _ HI Hj) Hi'); try (by destruct cv).
  - intros q Hq. rewrite !(msum_insert _ _ _ _ _ Hj).
    destruct (ci_lost_r _ _ _ HI q Hq); destruct cv; cbn in *; lia.
  - intros q Hq. rewrite !(msum_insert _ _ _ _ _ Hj).
    destruct (ci_lost_w _ _ _ HI q Hq); destruct cv; cbn in *; lia.
  - left. by destruct cv.
Qed.

Lemma inv_signal_none Γ a ch i h cv :
  chan_inv Γ a ch → Γ !! i = Some (R_view (In h)) →
  msum (match cv with R_cond => sleep_r | W_cond => sleep_w end) Γ = 0 →
  chan_inv (<[i := R_view (In (signalled cv h))]> Γ) a ch.
Proof.
  intros HI Hi Hn. apply (inv_holder _ _ _ _ _ _ HI Hi); try (by destruct cv).
  - by rewrite <- (ci_hold _ _ _ HI i h Hi); destruct cv.
  - intros q Hq. destruct (ci_lost_r _ _ _ HI q Hq); destruct cv; cbn; lia.
  - intros q Hq. destruct (ci_lost_w _ _ _ HI q Hq); destruct cv; cbn; lia.
  - left. by destruct cv.
Qed.

(** Waking all sleepers. *)
Definition wake_role (cv : chan_cond) (r : role) : role :=
  match r with R_sleep cv' => if bool_decide (cv' = cv) then R_woken cv else r | _ => r end.

Lemma inv_wake_all Γ a ch cv : chan_inv Γ a ch → chan_inv (wake_role cv <$> Γ) a ch.
Proof.
  intros HI.
  assert (∀ r, count_r (wake_role cv r) = count_r r ∧ count_w (wake_role cv r) = count_w r ∧
    sleep_r (wake_role cv r) <= sleep_r r ∧ sleep_w (wake_role cv r) <= sleep_w r ∧
    pend_r r <= pend_r (wake_role cv r) ∧ pend_w r <= pend_w (wake_role cv r)) as Hr
    by (intros [[]|[]|[]]; destruct cv; cbn; try case_bool_decide; cbn; try done; lia).
  eapply inv_roles; [exact HI| | | | | | | | | |]; try (apply sleep_nonneg; by auto);
    rewrite ?msum_fmap; try (apply msum_ext; intros r; apply Hr);
    try (apply msum_mono; intros r; apply Hr); [|apply map_size_fmap].
  intros j h'. rewrite lookup_fmap, fmap_Some. split.
  - intros (r & Hj & Er). destruct r as [v|cv'|cv']; cbn in Er; try congruence.
    by destruct (bool_decide _).
  - intros Hj. exists (R_view (In h')). by split.
Qed.

Lemma inv_broadcast Γ a ch i h cv :
  chan_inv Γ a ch → Γ !! i = Some (R_view (In h)) →
  chan_inv (<[i := R_view (In (broadcasted cv h))]> (wake_role cv <$> Γ)) a ch.
Proof.
  intros HI Hi. pose proof (inv_wake_all _ _ _ cv HI) as HI'.
  assert ((wake_role cv <$> Γ) !! i = Some (R_view (In h))) as Hi' by (by rewrite lookup_fmap, Hi).
  apply (inv_holder _ _ _ _ _ _ HI' Hi'); try (by destruct cv).
  - by rewrite <- (ci_hold _ _ _ HI i h Hi); destruct cv.
  - intros q Hq. destruct (ci_lost_r _ _ _ HI' q Hq); destruct cv; cbn [broadcasted h_dr h_dw]; lia.
  - intros q Hq. destruct (ci_lost_w _ _ _ HI' q Hq); destruct cv; cbn [broadcasted h_dr h_dw]; lia.
  - destruct cv; [right|by left]. rewrite msum_fmap. apply msum_zero. by intros _ [[]|[]|[]] _.
Qed.

(** An access of the holder, with the step of the abstract channel it makes. *)
Lemma inv_access Γ a ch i h ph h' ph' :
  chan_inv Γ a ch → Γ !! i = Some (R_view (In h)) → hold_step cap h ph h' ph' →
  ∃ a', chan_inv (<[i := R_view (In h')]> Γ) a' (h_chan h') ∧ (ph' = ph ∧ a' = a ∨ chan_op ph a ph' a').
Proof.
  intros HI Hi Hs. pose proof (ci_hold _ _ _ HI i h Hi) as Hch.
  destruct (ci_queue _ _ _ HI) as (q & Hq & Hok & ->). rewrite <- Hch in Hq.
  destruct (hs_queue _ _ _ _ _ Hs q Hq Hok) as (q' & Hq' & Hok' & Hr & Hw & Hop). rewrite Hch in Hop, Hq.
  pose proof (hs_r _ _ _ _ _ Hs) as H1. pose proof (hs_w _ _ _ _ _ Hs) as H2. rewrite Hch in H1, H2.
  exists (chan_abs_of cap (h_chan h') q'). split; [|done].
  constructor; rewrite ?(msum_insert _ _ _ _ _ Hi); cbn.
  - by exists q'.
  - pose proof (ci_closed _ _ _ HI). destruct (hs_closed _ _ _ _ _ Hs) as [[_ ->]|[-> _]]; [lia|by rewrite Hch].
  - intros j. rewrite (hs_mutex _ _ _ _ _ Hs), Hch, (ci_mutex _ _ _ HI).
    destruct (decide (i = j)) as [<-|Hne]; [|by rewrite lookup_insert_ne].
    rewrite lookup_insert_eq. split; intros _; eauto.
  - intros j h2 [[<- E]|[Hne Hj]]%lookup_insert_Some; [by injection E as <-|].
    by pose proof (inv_holder_unique _ _ _ _ _ _ _ HI Hi Hj).
  - rewrite (ci_r _ _ _ HI) in H1. lia.
  - rewrite (ci_w _ _ _ HI) in H2. lia.
  - intros q0 Hq0. rewrite Hq' in Hq0. injection Hq0 as <-.
    destruct (ci_lost_r _ _ _ HI q Hq); [left|right]; lia.
  - intros q0 Hq0. rewrite Hq' in Hq0. injection Hq0 as <-.
    destruct (ci_lost_w _ _ _ HI q Hq); [left|right]; lia.
  - destruct (hs_closed _ _ _ _ _ Hs) as [[Hc _]|[Hc Hcl]].
    { right; right. exists i, h'. by rewrite lookup_insert_eq. }
    rewrite Hc, Hch. destruct (ci_open _ _ _ HI) as [?|[?|(j & h2 & Hj & Hc2)]]; [by left|right; left; lia|].
    right; right. exists i, h'. rewrite lookup_insert_eq. split; [done|].
    pose proof (inv_holder_unique _ _ _ _ _ _ _ HI Hi Hj) as <-. congruence.
  - rewrite (size_insert_Some _ _ _ _ Hi). apply HI.
Qed.

End invariant.

(** ** The simulation *)

Section simulation.
Context (p : addr) (cap N : Z) (Hcap : 0 < cap) (HN : N < 2 ^ 31).

Abbreviation safe := (safe p cap N).

Definition waits (n : nat) (cv : chan_cond) (ph : phase) (k : P reply) : Prop :=
  ∀ ch, hold_ok cap N (woken cv ch) → safe n (In (woken cv ch)) ph k finished.

(** The status of a thread, its role, and the phase of its call; for [n] steps. *)
Definition status_ok (n : nat) (st : tstatus) (r : role) (ph : phase) : Prop :=
  match st, r with
  | Idle, R_view Out => ph = Ph_idle
  | Running t, R_view v => safe n v ph t finished
  | Running t, R_woken cv => ∃ k, t = (pthread_mutex_lock p M_mu;; k) ∧ waits n cv ph k
  | Sleeping c cv m k, R_sleep cv' => c = p ∧ m = M_mu ∧ cv' = cv ∧ wait_phase cv ph ∧ waits n cv ph k
  | _, _ => False
  end.

Definition thread_ok (n : nat) (t : cthread) (r : role) (a : athread) : Prop :=
  at_calls a = t_calls t ∧ at_replies a = t_replies t ∧ Forall (fun c => call_chan c = p) (t_calls t) ∧
  status_ok n (t_status t) r (at_phase a).

Record sim (n : nat) (s : csystem) (Γ : gmap nat role) (a : asystem) (ch : chan_t) : Prop := {
  sim_chan : st_chans (cs_store s) !! p = Some ch;
  sim_inv : chan_inv cap N Γ (as_chan a) ch;
  sim_threads i :
    match cs_threads s !! i, Γ !! i, as_threads a !! i with
    | None, None, None => True
    | Some t, Some r, Some at_ => thread_ok n t r at_
    | _, _, _ => False
    end
}.

Lemma sim_lookup n s Γ a ch i t :
  sim n s Γ a ch → cs_threads s !! i = Some t →
  ∃ r at_, Γ !! i = Some r ∧ as_threads a !! i = Some at_ ∧ thread_ok n t r at_.
Proof using All.
  intros Hs Hi. pose proof (sim_threads _ _ _ _ _ Hs i) as Ht. rewrite Hi in Ht.
  destruct (Γ !! i) as [r|], (as_threads a !! i) as [at_|]; try done. by exists r, at_.
Qed.

Lemma waits_le n m cv ph k : (m <= n)%nat → waits n cv ph k → waits m cv ph k.
Proof using All. intros Hm Hw ch Hch. eapply safe_le; [exact Hm|by apply Hw]. Qed.

Lemma thread_ok_le n m t r a : (m <= n)%nat → thread_ok n t r a → thread_ok m t r a.
Proof using All.
  intros Hm (? & ? & ? & Hst). split_and!; try done. revert Hst. unfold status_ok.
  destruct (t_status t), r; try done.
  - by apply safe_le.
  - intros (k & -> & Hk). exists k. split; [done|by eapply waits_le].
  - intros (-> & -> & -> & Hp & Hk). split_and!; try done. by eapply waits_le.
Qed.

(** A step of thread [i] alone. *)
Lemma sim_update m n s Γ a ch i t r at_ st' ch' abs' :
  (n <= m)%nat → sim m s Γ a ch → st_chans st' !! p = Some ch' →
  chan_inv cap N (<[i := r]> Γ) abs' ch' → thread_ok n t r at_ →
  sim n (mk_csystem st' (<[i := t]> (cs_threads s))) (<[i := r]> Γ)
    (mk_asystem abs' (<[i := at_]> (as_threads a))) ch'.
Proof using All.
  intros Hn Hs Hst HI Ht. constructor; [done|done|]. intros j. cbn.
  destruct (decide (i = j)) as [<-|Hne]; [by rewrite !lookup_insert_eq|].
  rewrite !lookup_insert_ne by done. pose proof (sim_threads _ _ _ _ _ Hs j) as Hj.
  destruct (cs_threads s !! j), (Γ !! j), (as_threads a !! j); try done. by eapply thread_ok_le.
Qed.

(** The same when the abstract system does nothing. *)
Lemma sim_silent m n s Γ a ch i t r at_ st' ch' :
  (n <= m)%nat → sim m s Γ a ch → as_threads a !! i = Some at_ → st_chans st' !! p = Some ch' →
  chan_inv cap N (<[i := r]> Γ) (as_chan a) ch' → thread_ok n t r at_ →
  sim n (mk_csystem st' (<[i := t]> (cs_threads s))) (<[i := r]> Γ) a ch'.
Proof using All.
  intros Hn Hs Ha Hst HI Ht. pose proof (sim_update m n s Γ a ch i t r at_ st' ch' _ Hn Hs Hst HI Ht) as H.
  rewrite (insert_id (as_threads a)) in H by done. by destruct a.
Qed.

Lemma thread_sleeps n t r a cv : thread_ok n t r a → sleeps_on p cv t = true ↔ r = R_sleep cv.
Proof using All.
  intros (_ & _ & _ & Hst). unfold sleeps_on, status_ok in *.
  destruct (t_status t) as [|t'|c v m k|], r as [[]|cv'|cv']; try done; try (split; [done|congruence]).
  destruct Hst as (-> & _ & -> & _ & _). rewrite bool_decide_eq_true. split; [by intros [_ ->]|by intros [= ->]].
Qed.

Lemma thread_wake n t cv a : thread_ok n t (R_sleep cv) a → thread_ok n (wake t) (R_woken cv) a.
Proof using All.
  intros (Hc & Hr & Hf & Hst). unfold wake. destruct (t_status t) as [|t'|c v m k|] eqn:E; try done.
  destruct Hst as (-> & -> & -> & _ & Hk). split_and!; try done. by exists k.
Qed.

Lemma sim_wake n s Γ a ch j t cv :
  sim n s Γ a ch → cs_threads s !! j = Some t → Γ !! j = Some (R_sleep cv) →
  sim n (mk_csystem (cs_store s) (<[j := wake t]> (cs_threads s))) (<[j := R_woken cv]> Γ) a ch.
Proof using All.
  intros Hs Hj HΓ. destruct (sim_lookup _ _ _ _ _ _ _ Hs Hj) as (r & at_ & Hr & Ha & Ht).
  rewrite HΓ in Hr. injection Hr as <-.
  eapply sim_silent; [done|done|done|apply Hs|apply inv_wake; [apply Hs|done]|by apply thread_wake].
Qed.

Lemma sim_wake_all n s Γ a ch cv :
  sim n s Γ a ch →
  sim n (mk_csystem (cs_store s) ((fun t => if sleeps_on p cv t then wake t else t) <$> cs_threads s))
    (wake_role cv <$> Γ) a ch.
Proof using All.
  intros Hs. constructor; [apply Hs|apply inv_wake_all, Hs|]. intros j. cbn. rewrite !lookup_fmap.
  pose proof (sim_threads _ _ _ _ _ Hs j) as Hj.
  destruct (cs_threads s !! j) as [t|], (Γ !! j) as [r|], (as_threads a !! j) as [at_|]; try done. cbn.
  destruct (sleeps_on p cv t) eqn:E.
  - apply (thread_sleeps _ _ _ _ _ Hj) in E as ->. cbn. rewrite bool_decide_eq_true_2 by done.
    by apply thread_wake.
  - assert (wake_role cv r = r) as ->; [|done]. destruct r as [|cv'|]; cbn; try done.
    case_bool_decide; [subst cv'|done]. by rewrite (proj2 (thread_sleeps _ _ _ _ cv Hj)) in E.
Qed.

Lemma thread_ok_status m n t r r' a st ph' :
  thread_ok m t r a → status_ok n st r' ph' →
  thread_ok n (t⟨t_status := st⟩) r' (mk_athread (at_calls a) (at_replies a) ph').
Proof using All. intros (? & ? & ? & _) Hst. by split_and!. Qed.
Lemma thread_ok_same m n t r r' a st :
  thread_ok m t r a → status_ok n st r' (at_phase a) → thread_ok n (t⟨t_status := st⟩) r' a.
Proof using All. intros Ht Hst. pose proof (thread_ok_status _ _ _ _ _ _ _ _ Ht Hst). by destruct a. Qed.

(** No thread sleeps on a condition variable on which none is found. *)
Lemma no_sleepers n s Γ a ch cv :
  sim n s Γ a ch → map_Forall (fun _ t => sleeps_on p cv t = false) (cs_threads s) →
  msum (match cv with R_cond => sleep_r | W_cond => sleep_w end) Γ = 0.
Proof using All.
  intros Hs Hno. apply msum_zero. intros j r Hj. pose proof (sim_threads _ _ _ _ _ Hs j) as Ht.
  rewrite Hj in Ht. destruct (cs_threads s !! j) as [t|] eqn:Et, (as_threads a !! j); try done.
  pose proof (Hno j t Et) as Hf. cbn in Hf.
  destruct r as [|cv'|]; [by destruct cv| |by destruct cv].
  destruct (decide (cv' = cv)) as [->|Hne]; [|by destruct cv, cv'].
  by rewrite (proj2 (thread_sleeps _ _ _ _ _ Ht)) in Hf.
Qed.

(** What a step leads to. *)
Definition after (n : nat) (s' : csystem) (a : asystem) : Prop :=
  ∃ Γ' a' ch', sim n s' Γ' a' ch' ∧ (a' = a ∨ astep a a').

Lemma after_silent n s' Γ' a ch' : sim n s' Γ' a ch' → after n s' a.
Proof using All. intros H. exists Γ', a, ch'. split; [done|by left]. Qed.

(** A thread takes the mutex. *)
Lemma sim_lock m n s Γ a ch i t r at_ h :
  (n <= m)%nat → sim m s Γ a ch → cs_threads s !! i = Some t → Γ !! i = Some r → as_threads a !! i = Some at_ →
  m_mu ch = None → h_chan h = ch⟨m_mu := Some i⟩ →
  count_r r = h_er h → count_w r = h_ew h → sleep_r r = 0 → sleep_w r = 0 → pend_r r = h_dr h → pend_w r = h_dw h →
  ∀ k, (hold_ok cap N h → safe n (In h) (at_phase at_) k finished) → thread_ok m t r at_ →
  after n (set_thread i (t⟨t_status := Running k⟩)
    (mk_csystem ((cs_store s)⟨st_chans := <[p := ch⟨m_mu := Some i⟩]> (st_chans (cs_store s))⟩) (cs_threads s))) a.
Proof using All.
  intros Hn Hs Hi HΓ Ha Hm Hh H1 H2 H3 H4 H5 H6 k Hk Ht.
  pose proof (inv_lock _ _ _ _ _ _ _ h (sim_inv _ _ _ _ _ Hs) Hm HΓ Hh H1 H2 H3 H4 H5 H6) as HI.
  eapply after_silent. unfold set_thread. cbn [cs_store cs_threads].
  eapply sim_silent; [exact Hn|exact Hs|done| |exact HI|].
  - apply lookup_insert_eq.
  - eapply thread_ok_same; [exact Ht|]. apply Hk. eapply inv_hold_ok; [exact HI|apply lookup_insert_eq].
Qed.

(** An event that leaves the abstract system as it is. *)
Lemma sim_quiet n s Γ a ch i t r r' at_ s1 ch' st1 :
  sim (S n) s Γ a ch → as_threads a !! i = Some at_ → thread_ok (S n) t r at_ →
  cs_threads s1 = cs_threads s → st_chans (cs_store s1) !! p = Some ch' →
  chan_inv cap N (<[i := r']> Γ) (as_chan a) ch' → status_ok n st1 r' (at_phase at_) →
  after n (set_thread i (t⟨t_status := st1⟩) s1) a.
Proof using All.
  intros Hs Ha Ht Hths Hst HI Hok. unfold set_thread. rewrite Hths.
  eapply after_silent, sim_silent; [|exact Hs|done|done|exact HI|by eapply thread_ok_same]. lia.
Qed.

Lemma sim_event {X} n s Γ a ch i t v at_ (e : chanE X) k ans j st1 s1 :
  sim (S n) s Γ a ch → cs_threads s !! i = Some t → Γ !! i = Some (R_view v) → as_threads a !! i = Some at_ →
  thread_ok (S n) t (R_view v) at_ → safe (S n) v (at_phase at_) (Vis e k) finished →
  exec_event e i ans j s k = Some (st1, s1) → after n (set_thread i (t⟨t_status := st1⟩) s1) a.
Proof using All.
  intros Hs Hi HΓ Ha Ht Hsafe Hex. pose proof (sim_chan _ _ _ _ _ Hs) as Hch.
  pose proof (sim_inv _ _ _ _ _ Hs) as HI.
  assert (∀ h, v = In h → m_mu ch = Some i) as Hheld.
  { intros h ->. apply (ci_mutex _ _ _ _ _ HI). eauto. }
  destruct e; cbn in Hsafe, Hex; try done.
  - (* lock *)
    destruct Hsafe as (-> & -> & -> & Hk). rewrite Hch in Hex. cbn in Hex.
    destruct (m_mu ch) eqn:Em; [done|]. injection Hex as <- <-.
    eapply (sim_lock (S n) n _ _ _ _ _ _ _ _ (taken (ch⟨m_mu := Some i⟩))); try done; [lia|].
    intros Hok. by apply Hk.
  - (* unlock *)
    destruct Hsafe as (-> & -> & h & -> & Hrel & Hk). rewrite Hch in Hex. cbn in Hex.
    rewrite (Hheld h eq_refl), bool_decide_eq_true_2 in Hex by done. injection Hex as <- <-.
    eapply sim_quiet; [exact Hs|exact Ha|exact Ht|done|apply lookup_insert_eq|by eapply inv_release|exact Hk].
  - (* wait *)
    destruct Hsafe as (-> & -> & h & -> & Hp & Hw & Hk). rewrite Hch in Hex. cbn in Hex.
    rewrite (Hheld h eq_refl), bool_decide_eq_true_2 in Hex by done. injection Hex as <- <-.
    eapply sim_quiet; [exact Hs|exact Ha|exact Ht|done|apply lookup_insert_eq|by eapply inv_wait|].
    by split_and!.
  - (* signal *)
    destruct Hsafe as (-> & h & -> & Hk). destruct j as [j|].
    + destruct (cs_threads s !! j) as [tj|] eqn:Hj; [|done]. cbn in Hex.
      destruct (sleeps_on p v0 tj) eqn:Esl; [|done]. injection Hex as <- <-.
      destruct (sim_lookup _ _ _ _ _ _ _ Hs Hj) as (rj & aj & Hrj & Haj & Htj).
      apply (thread_sleeps _ _ _ _ _ Htj) in Esl as ->.
      pose proof (inv_signal _ _ _ _ _ _ _ _ _ HI HΓ Hrj) as HI'.
      pose proof (sim_wake _ _ _ _ _ _ _ _ Hs Hj Hrj) as Hs'.
      eapply after_silent, (sim_silent (S n) n (mk_csystem (cs_store s) (<[j := wake tj]> (cs_threads s))) _ _ _ i _ _ at_);
        [lia|exact Hs'|done|done|exact HI'|].
      by eapply thread_ok_same.
    + case_bool_decide as Hno; [|done]. injection Hex as <- <-.
      eapply (sim_quiet _ _ _ _ _ _ _ _ (R_view _)); [exact Hs|exact Ha|exact Ht|done|exact Hch| |exact Hk].
      apply inv_signal_none; [done|done|]. by eapply no_sleepers.
  - (* broadcast *)
    destruct Hsafe as (-> & h & -> & Hk). injection Hex as <- <-.
    pose proof (inv_broadcast _ _ _ _ _ _ _ v0 HI HΓ) as HI'.
    pose proof (sim_wake_all _ _ _ _ _ v0 Hs) as Hs'.
    eapply after_silent, (sim_silent (S n) n (mk_csystem (cs_store s) _) _ _ _ i _ _ at_);
      [lia|exact Hs'|done|done|exact HI'|].
    by eapply thread_ok_same.
  - (* access *)
    destruct Hsafe as [(h & h' & ph' & x & -> & Hf & Hstep & Hk)|(x & -> & Hf & Hk)].
    + pose proof (ci_hold _ _ _ _ _ HI i h HΓ) as Hh. rewrite (Hf (cs_store s)) in Hex by congruence.
      injection Hex as <- <-.
      destruct (inv_access _ _ _ _ _ _ _ _ _ _ HI HΓ Hstep) as (abs' & HI' & Hop).
      exists (<[i := R_view (In h')]> Γ),
        (mk_asystem abs' (<[i := mk_athread (at_calls at_) (at_replies at_) ph']> (as_threads a))), (h_chan h').
      split.
      * unfold set_thread. cbn [cs_store cs_threads].
        eapply (sim_update (S n) n); [lia|exact Hs|apply lookup_insert_eq|exact HI'|].
        by eapply thread_ok_status.
      * destruct a as [abs ths], at_ as [cs rs ph]. cbn in *. destruct Hop as [[-> ->]|Hop].
        -- left. by rewrite insert_id.
        -- right. by eapply as_op.
    + destruct (ci_queue _ _ _ _ _ HI) as (q & Hq & _). rewrite (Hf ch ltac:(eauto) (cs_store s) Hch) in Hex.
      injection Hex as <- <-.
      eapply (sim_quiet _ _ _ _ _ _ _ _ (R_view _)); [exact Hs|exact Ha|exact Ht|done|apply lookup_insert_eq| |exact Hk].
      by rewrite insert_id.
Qed.

(** Every action is a step of the abstract system, or none. *)
Lemma sim_action n act s s' Γ a ch :
  sim (S n) s Γ a ch → exec_action act s = Some s' → after n s' a.
Proof using All.
  intros Hs Hex. destruct act as [i|i ans j|i|i]; cbn in Hex;
    (destruct (cs_threads s !! i) as [t|] eqn:Hi; [|done]); cbn in Hex;
    destruct (sim_lookup _ _ _ _ _ _ _ Hs Hi) as (r & at_ & HΓ & Ha & Ht);
    pose proof Ht as (Hc & Hr & Hf & Hst); destruct s as [st ths], at_ as [cs rs ph];
    pose proof (sim_chan _ _ _ _ _ Hs) as Hch; cbn in *.
  - (* a call begins *)
    destruct t as [[|c calls] replies []]; try done. injection Hex as <-. cbn in *. subst cs rs.
    destruct r as [[]| |]; try done. subst ph. apply list.Forall_cons in Hf as [Hc Hf].
    exists (<[i := R_view Out]> Γ), (mk_asystem (as_chan a) (<[i := mk_athread calls replies (Ph_invoked c)]> (as_threads a))), ch.
    split; [|right; destruct a; by eapply as_start].
    unfold set_thread. eapply (sim_update (S n) n); [lia|exact Hs|done| |].
    + rewrite insert_id by done. apply Hs.
    + split_and!; try done. by apply run_call_ok.
  - (* an event *)
    destruct (t_status t) as [|prog|c v m k|] eqn:Est; try done.
    destruct r as [v|cv|cv]; try done.
    + cbn in Hst. destruct (observe prog) as [x|prog'|X e k] eqn:Eo; try done.
      * injection Hex as <-. eapply (sim_quiet _ _ _ _ _ _ _ _ (R_view v)); [exact Hs|exact Ha|exact Ht|done|exact Hch| |].
        -- rewrite insert_id by done. apply Hs.
        -- exact Hst.
      * destruct (exec_event _ _ _ _ _ _) as [[st1 s1]|] eqn:Ee; [|done]. injection Hex as <-.
        eapply sim_event; [exact Hs|exact Hi|exact HΓ|exact Ha|exact Ht| |exact Ee]. exact Hst.
    + destruct Hst as (k & -> & Hk). cbn in Hex. rewrite Hch in Hex. cbn in Hex.
      destruct (m_mu ch) eqn:Em; [done|]. injection Hex as <-.
      eapply (sim_lock (S n) n (mk_csystem st ths) Γ a ch i t _ _ (woken cv (ch⟨m_mu := Some i⟩)));
        [lia|exact Hs|exact Hi|exact HΓ|exact Ha|done| | | | | | | | |exact Ht]; try (by destruct cv).
      intros Hok. apply safe_observe with (t := k); [done|].
      apply safe_le with (n := S n); [lia|by apply Hk].
  - (* a call returns *)
    destruct (t_status t) as [|prog|c v m k|] eqn:Est; try done.
    destruct r as [v|cv|cv]; try done; [|by destruct Hst as (k & -> & _)].
    cbn in Hst. destruct (observe prog) as [x|prog'|X e k] eqn:Eo; try done.
    injection Hex as <-. destruct Hst as [-> ->]. subst cs rs.
    exists (<[i := R_view Out]> Γ),
      (mk_asystem (as_chan a) (<[i := mk_athread (t_calls t) (t_replies t ++ [x]) Ph_idle]> (as_threads a))), ch.
    split; [|right; destruct a; by eapply as_return].
    unfold set_thread. eapply (sim_update (S n) n); [lia|exact Hs|done| |by split_and!].
    rewrite insert_id by done. apply Hs.
  - (* a spurious wakeup *)
    destruct (t_status t) as [|prog|c v m k|] eqn:Est; try done. injection Hex as <-.
    destruct r as [v'|cv|cv]; try done. destruct Hst as (-> & -> & -> & _ & Hk).
    eapply after_silent. unfold set_thread.
    eapply (sim_silent (S n) n); [lia|exact Hs|exact Ha|exact Hch|apply inv_wake; [apply Hs|done]|].
    eapply thread_ok_le; [|by eapply thread_wake]. lia.
Qed.

End simulation.
