(* ===== verification/ChanTheorems.v ===== *)
(** * What a channel promises

    Linearizability of a buffered channel, that no wakeup is lost and balanced
    programs finish, and what a close does to a sender of an unbuffered one. *)

From ITree Require Import ITree.
From S2P Require Import Prelude RingQueue Chan ChanLogic ChanProgs ChanRefine.

(** ** Producers and consumers, abstractly *)

Definition is_send (c : call) : bool := match c with Call_send _ _ => true | _ => false end.
Definition is_recv (c : call) : bool := match c with Call_recv _ => true | _ => false end.

(** How many calls a thread has not finished that satisfy [f]. *)
Definition calls_of (f : call → bool) (cs : list call) : Z := foldr (fun c n => Z.b2z (f c) + n) 0 cs.
#[global] Arguments calls_of : simpl never.
Definition in_phase (f : call → bool) (ph : phase) : Z :=
  match ph with
  | Ph_invoked c => Z.b2z (f c)
  | Ph_checked v => Z.b2z (f (Call_send 1 v))
  | _ => 0
  end.
Definition unfinished (f : call → bool) (t : athread) : Z :=
  calls_of f (at_calls t) + in_phase f (at_phase t).

Lemma calls_of_cons f c cs : calls_of f (c :: cs) = Z.b2z (f c) + calls_of f cs.
Proof. done. Qed.
Lemma calls_of_nonneg f cs : 0 <= calls_of f cs.
Proof. induction cs as [|c cs IH]; [done|]. rewrite calls_of_cons. destruct (f c); cbn; lia. Qed.
Lemma calls_of_none (f g : call → bool) cs :
  (∀ c, f c = true → g c = false) → Forall (fun c => f c = true) cs → calls_of g cs = 0.
Proof. intros Hfg. induction 1 as [|c l Hc _ IH]; [done|]. by rewrite calls_of_cons, (Hfg c Hc), IH. Qed.
Lemma unfinished_nonneg f t : 0 <= unfinished f t.
Proof.
  unfold unfinished. pose proof (calls_of_nonneg f (at_calls t)).
  destruct (at_phase t) as [|c|v|]; cbn; [lia|destruct (f c)|destruct (f _)|]; cbn; lia.
Qed.

(** A thread that only sends or only receives, successfully so far. *)
Definition one_sided (t : athread) : Prop :=
  Forall (fun r => rp_ret r = 0) (at_replies t) ∧
  (Forall (fun c => is_send c = true) (at_calls t) ∧
     match at_phase t with
     | Ph_idle | Ph_checked _ => True
     | Ph_invoked c => is_send c = true
     | Ph_done r => rp_ret r = 0
     end ∨
   Forall (fun c => is_recv c = true) (at_calls t) ∧
     match at_phase t with
     | Ph_idle => True
     | Ph_checked _ => False
     | Ph_invoked c => is_recv c = true
     | Ph_done r => rp_ret r = 0
     end).

(** As many values are to be sent or in the buffer as are to be received. *)
Record balanced (a : asystem) : Prop := {
  ba_open : ab_closed (as_chan a) = false;
  ba_threads : map_Forall (fun _ t => one_sided t) (as_threads a);
  ba_count : msum (unfinished is_send) (as_threads a) + blen (Fifo.items (ab_fifo (as_chan a))) =
             msum (unfinished is_recv) (as_threads a)
}.

Lemma balanced_step a a' : balanced a → astep a a' → balanced a'.
Proof.
  intros [Ho Ht Hc] Hs. destruct Hs as [i c cs rs ch ths Hi|i cs rs ph ph' ch ch' ths Hi Hop|i r cs rs ch ths Hi];
    cbn in *; pose proof (Ht i _ Hi) as [Hrs Hside]; cbn in *.
  - constructor; cbn; [done| |].
    + apply map_Forall_insert_2; [|done]. split; [done|]. cbn.
      destruct Hside as [[[Hc1 Hcs]%list.Forall_cons _]|[[Hc1 Hcs]%list.Forall_cons _]]; auto.
    + rewrite !(msum_insert _ _ _ _ _ Hi). unfold unfinished at 2 3 5 6. cbn.
      rewrite !calls_of_cons. lia.
  - assert (∀ t', one_sided t' → map_Forall (fun _ t => one_sided t) (<[i := t']> ths)) as Hins.
    { intros t' Ht'. by apply map_Forall_insert_2. }
    destruct Hop; cbn in *; try done; (destruct Hside as [[Hcs E]|[Hcs E]]; try done);
      (constructor; cbn; [done|apply Hins; split; [done|cbn; auto]|]);
      rewrite !(msum_insert _ _ _ _ _ Hi); unfold unfinished at 2 3 5 6; cbn;
      rewrite ?E, ?blen_app, ?blen_cons; rewrite ?blen_cons in Hc; change (blen (@nil voidp)) with 0; cbn; lia.
  - constructor; cbn; [done| |].
    + apply map_Forall_insert_2; [|done]. split; cbn.
      * apply Forall_app. split; [done|]. destruct Hside as [[_ E]|[_ E]]; by constructor.
      * naive_solver.
    + rewrite !(msum_insert _ _ _ _ _ Hi). unfold unfinished at 2 3 5 6. cbn. lia.
Qed.

(** ** A fresh buffered channel *)

(** The store holds at [p] the channel [chan_init] makes for the capacity [cap]. *)
Definition fresh_chan (p : addr) (cap : Z) (junk : list voidp) (st : store_t) : Prop :=
  ∃ q, queue_init cap true true junk = inl q ∧
       st_chans st !! p = Some (mk_chan (Some q) None None None None 0 0 0).

(** The threads make their calls on this channel. *)
Definition calls_on (p : addr) (calls : gmap nat (list call)) : Prop :=
  map_Forall (fun _ cs => Forall (fun c => call_chan c = p) cs) calls.

(** The threads have not crashed and agree with the abstract ones on the calls to
    come and the replies. *)
Definition threads_agree (s : csystem) (ths : gmap nat athread) : Prop :=
  ∀ i t, cs_threads s !! i = Some t → t_status t ≠ Crashed ∧
    ∃ ph, ths !! i = Some (mk_athread (t_calls t) (t_replies t) ph).

(** ** Sends in one step

    As long as nobody closes the channel, the two steps of a send are as good as
    one: the send happens when its value is appended. *)
Section atomic_sends.
Context (p : addr).

(** A call on the channel other than a close. *)
Definition no_close (c : call) : Prop :=
  call_chan c = p ∧ match c with Call_close _ => False | _ => True end.

(** A send that has looked at the flag has not begun to take effect. *)
Definition undecided (ph : phase) : phase :=
  match ph with Ph_checked v => Ph_invoked (Call_send p v) | _ => ph end.
Definition undecided_thread (t : athread) : athread :=
  mk_athread (at_calls t) (at_replies t) (undecided (at_phase t)).
Definition undecided_system (a : asystem) : asystem :=
  mk_asystem (as_chan a) (undecided_thread <$> as_threads a).

Record stays_open (a : asystem) : Prop := {
  so_open : ab_closed (as_chan a) = false;
  so_threads : map_Forall (fun _ t => Forall no_close (at_calls t) ∧
    ∀ c, at_phase t = Ph_invoked c → no_close c) (as_threads a)
}.

Lemma stays_open_step a a' : stays_open a → astep a a' → stays_open a'.
Proof.
  intros [Ho Ht] Hs. destruct Hs as [i c cs rs ch ths Hi|i cs rs ph ph' ch ch' ths Hi Hop|i r cs rs ch ths Hi];
    cbn in *; destruct (Ht i _ Hi) as [Hcs Hph]; cbn in *; (constructor; cbn;
      [|apply map_Forall_insert_2; [split; cbn|done]]); try done.
  - by apply list.Forall_cons in Hcs as [_ ?].
  - intros c' [= <-]. by apply list.Forall_cons in Hcs as [? _].
  - destruct Hop; try done. by destruct (Hph _ eq_refl).
  - by destruct Hop.
Qed.

Lemma undecided_step a a' :
  stays_open a → astep a a' →
  undecided_system a' = undecided_system a ∨ step_by atomic_op (undecided_system a) (undecided_system a').
Proof.
  intros [Ho Ht] Hs. unfold undecided_system. destruct Hs as [i c cs rs ch ths Hi|i cs rs ph ph' ch ch' ths Hi Hop|i r cs rs ch ths Hi];
    cbn [as_chan as_threads] in *; rewrite fmap_insert;
    assert (Hl : (undecided_thread <$> ths) !! i = undecided_thread <$> (ths !! i)) by apply lookup_fmap;
    rewrite Hi in Hl; cbn in Hl.
  - right. by apply (as_start _ _ _ _ _ _ _ Hl).
  - destruct (Ht i _ Hi) as [_ Hph]. cbn in Ho, Hph.
    destruct Hop as [c v f|c v f|v b items x Hlt| | | | | |];
      try (right; apply (as_op _ _ _ _ _ _ _ _ _ Hl), ao_other; by try constructor).
    + left. destruct (Hph _ eq_refl) as [Hc _]. cbn in Hc. subst c. f_equal. by apply insert_id.
    + right. cbn in Ho. subst x. apply (as_op _ _ _ _ _ _ _ _ _ Hl). by apply ao_send.
  - right. by apply (as_return _ _ _ _ _ _ _ Hl).
Qed.

Lemma undecided_steps a a' :
  stays_open a → rtc astep a a' → rtc (step_by atomic_op) (undecided_system a) (undecided_system a').
Proof.
  intros Ha Hs. induction Hs as [a|a b a' Hs _ IH]; [done|].
  specialize (IH (stays_open_step _ _ Ha Hs)).
  destruct (undecided_step _ _ Ha Hs) as [E|E]; [by rewrite <- E|by eapply rtc_l].
Qed.

Lemma stays_open_start cap calls :
  map_Forall (fun _ cs => Forall no_close cs) calls →
  stays_open (start_abs cap calls) ∧ undecided_system (start_abs cap calls) = start_abs cap calls.
Proof.
  intros Hc. split.
  - constructor; [done|]. intros i t Hi. cbn in Hi.
    apply lookup_fmap_Some in Hi as (cs & <- & Hi). split; [by apply (Hc i)|done].
  - unfold undecided_system, start_abs. cbn. f_equal. rewrite <- map_fmap_compose. by apply map_fmap_ext.
Qed.

Lemma undecided_agree s ths : threads_agree s ths → threads_agree s (undecided_thread <$> ths).
Proof.
  intros Hs i t Hi. destruct (Hs i t Hi) as (Hc & ph & E). split; [done|].
  exists (undecided ph). by rewrite lookup_fmap, E.
Qed.

End atomic_sends.

Section buffered.
Context (p : addr) (cap : Z) (junk : list voidp) (st : store_t) (calls : gmap nat (list call)).
Context (Hcap : 0 < cap <= INT_MAX / sizeof_ptr) (Hjunk : blen junk = cap).
Context (Hfresh : fresh_chan p cap junk st) (Hcalls : calls_on p calls).
Context (HN : Z.of_nat (base.size calls) < 2 ^ 31).

Abbreviation N := (Z.of_nat (base.size calls)).
Abbreviation sim := (sim p cap N).

Definition start_roles : gmap nat role := (fun _ => R_view Out) <$> calls.

Lemma sim_start n : ∃ ch, sim n (start_system st calls) start_roles (start_abs cap calls) ch.
Proof using All.
  destruct Hfresh as (q & Hq & Hst). eexists. 
  destruct (queue_init_wf cap junk ltac:(lia) Hjunk) as (Eq & Hwf & Hi). rewrite Hq in Eq. injection Eq as ->.
  assert (∀ f : role → Z, f (R_view Out) = 0 → msum f start_roles = 0) as Hz.
  { intros f Hf. unfold start_roles. rewrite msum_fmap. by apply msum_zero. }
  constructor; [exact Hst| |].
  - constructor; cbn; rewrite ?Hz by done; try done; try (by left).
    + eexists. by split_and!; [done|by split|].
    + intros i. split; [done|]. intros [h Hh]. unfold start_roles in Hh. rewrite lookup_fmap in Hh.
      by destruct (calls !! i).
    + intros i h Hh. unfold start_roles in Hh. rewrite lookup_fmap in Hh. by destruct (calls !! i).
    + unfold start_roles. by rewrite map_size_fmap.
  - intros i. unfold start_roles. cbn. rewrite !lookup_fmap. destruct (calls !! i) as [cs|] eqn:E; [|done].
    cbn. split_and!; try done. by apply (Hcalls i).
Qed.

Lemma sim_reach s : creach (start_system st calls) s →
  ∀ n, ∃ Γ a ch, sim n s Γ a ch ∧ rtc astep (start_abs cap calls) a.
Proof using All.
  induction 1 as [|act s s' _ IH Hs]; intros n.
  - destruct (sim_start n) as [ch Hch]. by do 3 eexists.
  - destruct (IH (S n)) as (Γ & a & ch & Hsim & Ha).
    destruct (sim_action p cap N ltac:(lia) HN _ _ _ _ _ _ _ Hsim Hs) as (Γ' & a' & ch' & Hsim' & Hstep).
    exists Γ', a', ch'. split; [done|]. destruct Hstep as [->|Hstep]; [done|by eapply rtc_r].
Qed.

(** What the channel at [p] and the threads show of an abstract state. *)
Definition shows (s : csystem) (a : asystem) : Prop :=
  ∃ ch q, st_chans (cs_store s) !! p = Some ch ∧ queue ch = Some q ∧
    as_chan a = mk_abs (Fifo.mk_fifo cap (queue_items q)) (negb (closed ch =? 0)) ∧
    threads_agree s (as_threads a).

(** C17: a buffered channel implements a bounded FIFO.  Whatever threads send,
    receive, close and look at it, in every interleaving of their events and with
    spurious wakeups, the replies and the content of the buffer are those of an
    abstract channel, and no thread executes undefined behaviour.  There a receive,
    a close or a look is one atomic step on the FIFO; a send is two, which other
    calls may separate: it finds the closed flag clear (or is refused), and later
    appends.  If no call closes the channel, a send is one atomic step as well. *)
Theorem chan_refines s :
  creach (start_system st calls) s →
  (∃ a, rtc astep (start_abs cap calls) a ∧ shows s a) ∧
  (map_Forall (fun _ cs => Forall (no_close p) cs) calls →
   ∃ a, rtc (step_by atomic_op) (start_abs cap calls) a ∧ shows s a).
Proof using All.
  intros Hr. destruct (sim_reach s Hr 0) as (Γ & a & ch & Hs & Ha).
  destruct (ci_queue _ _ _ _ _ (sim_inv _ _ _ _ _ _ _ _ Hs)) as (q & Hq & _ & E).
  assert (threads_agree s (as_threads a)) as Hag.
  { intros i t Hi.
    destruct (sim_lookup p cap N ltac:(lia) HN _ _ _ _ _ _ _ Hs Hi) as (r & [cs rs ph] & _ & Hat & Hc & Hrs & _ & Hst).
    cbn in Hc, Hrs. subst cs rs. split; [|by exists ph]. intros Ec. by rewrite Ec in Hst. }
  split.
  - exists a. split; [done|]. exists ch, q. by split_and!; [apply Hs|..].
  - intros Hno. destruct (stays_open_start p cap calls Hno) as [Ho E0].
    exists (undecided_system p a). rewrite <- E0. split; [by apply undecided_steps|].
    exists ch, q. split_and!; [apply Hs|done|exact E|]. by apply undecided_agree.
Qed.

(** ** Progress *)

Definition stuck (s : csystem) : Prop :=
  ∀ act s', exec_action act s = Some s' → ∃ i, act = A_wake i.

(** Only a lock can block a thread. *)
Lemma event_enabled {X} (e : chanE X) i s (k : X → P reply) :
  match e with Lock c m => ∀ ch, st_chans (cs_store s) !! c = Some ch → mutex_of ch m = None | _ => True end →
  ∃ ans j r, exec_event e i ans j s k = Some r.
Proof.
  intros He. destruct e; cbn.
  - exists 0, None. destruct (st_chans (cs_store s) !! c) as [ch|] eqn:E; [|eauto]. rewrite (He ch eq_refl). eauto.
  - exists 0, None. destruct (st_chans (cs_store s) !! c); [case_bool_decide|]; eauto.
  - exists 0, None. destruct (st_chans (cs_store s) !! c); [case_bool_decide|]; eauto.
  - destruct (decide (map_Forall (fun _ t => sleeps_on c v t = false) (cs_threads s))) as [Hf|Hf].
    + exists 0, None. rewrite bool_decide_eq_true_2 by done. eauto.
    + apply map_not_Forall in Hf as (j & t' & Hj & Hf); [|solve_decision].
      exists 0, (Some j). rewrite Hj. cbn. destruct (sleeps_on c v t'); [eauto|done].
  - exists 0, None. eauto.
  - exists 0, None. destruct (f (cs_store s)) as [[]|]; eauto.
  - exists 0, None. eauto.
  - exists 0, None. eauto.
Qed.

(** In a stuck state a thread that runs waits for a mutex. *)
Lemma stuck_running s i t prog0 :
  stuck s → cs_threads s !! i = Some t → t_status t = Running prog0 →
  match observe prog0 with
  | VisF e _ =>
      match e with
      | Lock c m => ∃ ch j, st_chans (cs_store s) !! c = Some ch ∧ mutex_of ch m = Some j
      | _ => False
      end
  | _ => False
  end.
Proof.
  intros Hstuck Hi Hst. destruct (observe prog0) as [x|prog'|X e k] eqn:Eo.
  - destruct (Hstuck (A_return i) (set_thread i (mk_cthread (t_calls t) (t_replies t ++ [x]) Idle) s)); [|done].
    cbn. rewrite Hi. cbn. by rewrite Hst, Eo.
  - destruct (Hstuck (A_step i 0 None) (set_thread i (t⟨t_status := Running prog'⟩) s)); [|done].
    cbn. rewrite Hi. cbn. by rewrite Hst, Eo.
  - assert (¬ ∃ ans j r, exec_event e i ans j s k = Some r) as Hno.
    { intros (ans & j & r & Er). destruct (Hstuck (A_step i ans j) (set_thread i (t⟨t_status := r.1⟩) r.2)); [|done].
      cbn. rewrite Hi. cbn. rewrite Hst, Eo. cbn. by rewrite Er. }
    pose proof (fun H => Hno (event_enabled e i s k H)) as Hdis. clear Hno. destruct e; try by destruct Hdis.
    destruct (st_chans (cs_store s) !! c) as [ch|] eqn:E; [|by destruct Hdis].
    destruct (mutex_of ch m) as [j|] eqn:Em; [eauto|]. destruct Hdis. intros ch' [= <-]. done.
Qed.

(** The holder of the mutex goes on. *)
Lemma holder_steps s Γ a ch i h :
  sim 1 s Γ a ch → Γ !! i = Some (R_view (In h)) → ¬ stuck s.
Proof using All.
  intros Hs HΓ Hstuck. pose proof (sim_threads _ _ _ _ _ _ _ _ Hs i) as Ht. rewrite HΓ in Ht.
  destruct (cs_threads s !! i) as [t|] eqn:Hi; [|done]. destruct (as_threads a !! i) as [at_|]; [|done].
  destruct Ht as (_ & _ & _ & Hst). pose proof (sim_chan _ _ _ _ _ _ _ _ Hs) as Hch.
  pose proof (sim_inv _ _ _ _ _ _ _ _ Hs) as HI.
  destruct (t_status t) as [|prog| |] eqn:Est; try done. cbn in Hst.
  pose proof (stuck_running _ _ _ _ Hstuck Hi Est) as Hlock.
  destruct (observe prog) as [x|prog'|X e k]; [done|done|].
  destruct e; try done. by destruct Hst as (_ & _ & ? & _).
Qed.

(** In a stuck state a thread is done or sleeps. *)
Lemma stuck_thread s Γ a ch i t :
  sim 1 s Γ a ch → stuck s → cs_threads s !! i = Some t →
  (t_status t = Idle ∧ t_calls t = [] ∧ Γ !! i = Some (R_view Out) ∧
     as_threads a !! i = Some (mk_athread [] (t_replies t) Ph_idle)) ∨
  ∃ cv ph, sleeps_on p cv t = true ∧ Γ !! i = Some (R_sleep cv) ∧ wait_phase cv ph ∧
     as_threads a !! i = Some (mk_athread (t_calls t) (t_replies t) ph).
Proof using All.
  intros Hs Hstuck Hi.
  destruct (sim_lookup p cap N ltac:(lia) HN _ _ _ _ _ _ _ Hs Hi) as (r & at_ & HΓ & Ha & Ht).
  pose proof Ht as (Hc & Hr & _ & Hst). pose proof (sim_chan _ _ _ _ _ _ _ _ Hs) as Hch.
  pose proof (sim_inv _ _ _ _ _ _ _ _ Hs) as HI.
  assert (m_mu ch = None) as Hm.
  { destruct (m_mu ch) as [j|] eqn:Em; [|done]. apply (ci_mutex _ _ _ _ _ HI) in Em as [h Hh].
    by destruct (holder_steps _ _ _ _ _ _ Hs Hh). }
  assert (∀ act, (∀ i, act ≠ A_wake i) → exec_action act s = None) as Hno.
  { intros act Hact. destruct (exec_action act s) as [s'|] eqn:E; [|done].
    destruct (Hstuck _ _ E) as [j ->]. by destruct (Hact j). }
  destruct (t_status t) as [|prog|c v m k|] eqn:Est; try done.
  - destruct r as [[]| |]; try done. left. cbn in Hst. destruct at_ as [cs rs ph]. cbn in *. subst.
    pose proof (Hno (A_start i) ltac:(done)) as H0. cbn in H0. rewrite Hi in H0. cbn in H0. rewrite Est in H0.
    by destruct (t_calls t).
  - pose proof (Hno (A_step i 0 None) ltac:(done)) as H0. cbn in H0. rewrite Hi in H0. cbn in H0. rewrite Est in H0.
    destruct r as [v|cv|cv]; [|done|].
    + cbn in Hst. destruct (observe prog) as [x|prog'|X e k] eqn:Eo; [|done|].
      * pose proof (Hno (A_return i) ltac:(done)) as H1. cbn in H1. rewrite Hi in H1. cbn in H1.
        by rewrite Est, Eo in H1.
      * destruct v as [|h]; [|by destruct (holder_steps _ _ _ _ _ _ Hs HΓ)]. destruct e; try done.
        -- destruct Hst as (-> & -> & _). cbn in H0. rewrite Hch in H0. cbn in H0. by rewrite Hm in H0.
        -- by destruct Hst as (_ & _ & h & ? & _).
        -- by destruct Hst as (_ & _ & h & ? & _).
        -- by destruct Hst as (_ & h & ? & _).
        -- cbn in H0. by destruct (f (cs_store s)) as [[]|].
    + destruct Hst as (k & -> & _). cbn in H0. rewrite Hch in H0. cbn in H0. by rewrite Hm in H0.
  - right. destruct r as [|cv|]; try done. destruct Hst as (-> & -> & -> & Hp & _). exists v, (at_phase at_).
    split_and!; try done.
    + unfold sleeps_on. rewrite Est. by apply bool_decide_eq_true_2.
    + rewrite Ha. destruct at_. cbn in *. by subst.
Qed.

(** The sleepers of a stuck state sleep for a reason. *)
Lemma stuck_sleepers s Γ a ch q i cv :
  sim 1 s Γ a ch → stuck s → queue ch = Some q → Γ !! i = Some (R_sleep cv) →
  match cv with R_cond => size q = 0 ∧ closed ch = 0 | W_cond => size q = cap end.
Proof using All.
  intros Hs Hstuck Hq Hi. pose proof (sim_inv _ _ _ _ _ _ _ _ Hs) as HI.
  assert (∀ j r, Γ !! j = Some r → r = R_view Out ∨ ∃ cv, r = R_sleep cv) as Hroles.
  { intros j r Hj. pose proof (sim_threads _ _ _ _ _ _ _ _ Hs j) as Ht. rewrite Hj in Ht.
    destruct (cs_threads s !! j) as [t|] eqn:Et; [|done].
    destruct (stuck_thread _ _ _ _ _ _ Hs Hstuck Et) as [(_ & _ & E & _)|(cv' & _ & _ & E & _)];
      rewrite Hj in E; injection E as ->; eauto. }
  destruct (ci_queue _ _ _ _ _ HI) as (q' & Hq' & [Hwf Hc] & _). rewrite Hq in Hq'. injection Hq' as <-.
  destruct (buffer_size q Hwf) as [Hsz Hle]. pose proof (blen_nonneg (buffer_items q)).
  assert (msum pend_r Γ = 0 ∧ msum pend_w Γ = 0) as [Hpr Hpw].
  { split; apply msum_zero; intros j r Hj; destruct (Hroles j r Hj) as [->|[[] ->]]; done. }
  assert (0 < msum (match cv with R_cond => sleep_r | W_cond => sleep_w end) Γ) as Hpos.
  { pose proof (msum_lookup (match cv with R_cond => sleep_r | W_cond => sleep_w end) Γ i _
      ltac:(destruct cv; by intros j [[]|[]|[]] _) Hi) as Hl. destruct cv; cbn in Hl; lia. }
  destruct cv.
  - destruct (ci_lost_r _ _ _ _ _ HI q Hq); [lia|]. split; [lia|].
    destruct (ci_open _ _ _ _ _ HI) as [?|[?|(j & h & Hj & _)]]; [done|lia|].
    by destruct (Hroles j _ Hj) as [?|[? ?]].
  - destruct (ci_lost_w _ _ _ _ _ HI q Hq); [lia|]. lia.
Qed.

(** C18: no wakeup is lost.  When no thread can go on but by a spurious wakeup, the
    mutex is not to blame: every thread has finished its calls, or is a receiver
    that sleeps on an empty open channel, or a sender that sleeps on a full one. *)
Theorem chan_no_lost_wakeup s :
  creach (start_system st calls) s → stuck s →
  ∃ ch q, st_chans (cs_store s) !! p = Some ch ∧ queue ch = Some q ∧
    ∀ i t, cs_threads s !! i = Some t →
      (t_status t = Idle ∧ t_calls t = []) ∨
      (sleeps_on p R_cond t = true ∧ size q = 0 ∧ closed ch = 0) ∨
      (sleeps_on p W_cond t = true ∧ size q = cap).
Proof using All.
  intros Hr Hstuck. destruct (sim_reach s Hr 1) as (Γ & a & ch & Hs & _).
  destruct (ci_queue _ _ _ _ _ (sim_inv _ _ _ _ _ _ _ _ Hs)) as (q & Hq & _ & _).
  exists ch, q. split_and!; [apply Hs|done|]. intros i t Hi.
  destruct (stuck_thread _ _ _ _ _ _ Hs Hstuck Hi) as [(? & ? & _)|(cv & _ & Hsl & HΓ & _)]; [by left|].
  right. pose proof (stuck_sleepers _ _ _ _ _ _ _ Hs Hstuck Hq HΓ). destruct cv; [by left|by right].
Qed.

(** The start of a balanced program. *)
Lemma balanced_start :
  map_Forall (fun _ cs => Forall (fun c => is_send c = true) cs ∨ Forall (fun c => is_recv c = true) cs) calls →
  msum (calls_of is_send) calls = msum (calls_of is_recv) calls → balanced (start_abs cap calls).
Proof using All.
  intros Hsides Hbal. constructor; cbn; [done| |].
  - intros i t. rewrite lookup_fmap_Some. intros (cs & <- & Hcs). split; [done|]. cbn.
    destruct (Hsides i cs Hcs); auto.
  - assert (∀ f, msum (unfinished f) ((fun cs => mk_athread cs [] Ph_idle) <$> calls) =
                 msum (calls_of f) calls) as E.
    { intros f. rewrite msum_fmap. apply msum_ext. intros cs. unfold unfinished. cbn. lia. }
    rewrite !E, Hbal. change (blen (@nil voidp)) with 0. lia.
Qed.

(** The calls of the side that sleeps on [cv], and of the other side. *)
Definition own_side (cv : chan_cond) : call → bool := match cv with R_cond => is_recv | W_cond => is_send end.
Definition other_side (cv : chan_cond) : call → bool := match cv with R_cond => is_send | W_cond => is_recv end.

(** A sleeper has work left for its own side and none for the other. *)
Lemma sleeper_unfinished cv ph cs rs :
  wait_phase cv ph → one_sided (mk_athread cs rs ph) →
  0 < unfinished (own_side cv) (mk_athread cs rs ph) ∧ unfinished (other_side cv) (mk_athread cs rs ph) = 0.
Proof.
  intros Hp [_ Hside]. cbn in Hside. unfold unfinished. cbn [at_calls at_phase].
  pose proof (calls_of_nonneg (own_side cv) cs) as Hn.
  destruct cv, ph as [|[]|v|]; try done; cbn in *.
  - destruct Hside as [[_ ?]|[Hcs _]]; [done|]. rewrite (calls_of_none is_recv is_send _ ltac:(by intros []) Hcs). lia.
  - destruct Hside as [[Hcs _]|[_ ?]]; [|done]. rewrite (calls_of_none is_send is_recv _ ltac:(by intros []) Hcs). lia.
Qed.

(** In a stuck state of a balanced program no thread sleeps: the sleepers of one
    side would all have to wait for work of the other, which is done. *)
Lemma stuck_awake s Γ a ch i cv :
  sim 1 s Γ a ch → stuck s → balanced a → Γ !! i ≠ Some (R_sleep cv).
Proof using All.
  intros Hs Hstuck [_ Hone Hcount] Hi.
  destruct (ci_queue _ _ _ _ _ (sim_inv _ _ _ _ _ _ _ _ Hs)) as (q & Hq & [Hwf _] & Eabs).
  destruct (buffer_size q Hwf) as [Hsz _]. rewrite Eabs in Hcount. cbn in Hcount. rewrite <- Hsz in Hcount.
  pose proof (stuck_sleepers _ _ _ _ _ _ _ Hs Hstuck Hq Hi) as Hw.
  assert (∀ j t r at_, cs_threads s !! j = Some t → Γ !! j = Some r → as_threads a !! j = Some at_ →
    unfinished (other_side cv) at_ = 0 ∧ (r = R_sleep cv → 0 < unfinished (own_side cv) at_)) as Hall.
  { intros j t r at_ Ht Hr Ha.
    destruct (stuck_thread _ _ _ _ _ _ Hs Hstuck Ht) as [(_ & _ & E & Ea)|(cv2 & ph & _ & Hcv2 & Hp & Ea)];
      rewrite Ha in Ea; injection Ea as ->; rewrite Hr in *.
    { injection E as ->. by split. }
    injection Hcv2 as ->.
    pose proof (stuck_sleepers _ _ _ _ _ _ _ Hs Hstuck Hq Hr) as Hw2.
    assert (cv2 = cv) as -> by (destruct cv, cv2; cbn in Hw, Hw2; done || lia).
    destruct (sleeper_unfinished cv ph _ _ Hp (Hone j _ Ha)) as [? ?]. by split. }
  assert (msum (unfinished (other_side cv)) (as_threads a) = 0) as Hzero.
  { apply msum_zero. intros j at_ Ha. pose proof (sim_threads _ _ _ _ _ _ _ _ Hs j) as Hj. rewrite Ha in Hj.
    destruct (cs_threads s !! j) as [t|] eqn:Et, (Γ !! j) as [r|] eqn:Er; try done. by eapply Hall. }
  pose proof (sim_threads _ _ _ _ _ _ _ _ Hs i) as Hthread. rewrite Hi in Hthread.
  destruct (cs_threads s !! i) as [t|] eqn:Et, (as_threads a !! i) as [at_|] eqn:Ea; try done.
  pose proof (proj2 (Hall i t _ at_ Et Hi Ea) eq_refl) as Hpos.
  pose proof (msum_lookup (unfinished (own_side cv)) _ i _ ltac:(intros; apply unfinished_nonneg) Ea) as Hle.
  destruct cv; cbn in *; lia.
Qed.

(** C19: balanced programs finish.  Some threads send, the others receive, as many
    values as are sent, and nobody closes the channel: whatever the interleaving
    and the capacity, when no thread can go on, all calls have returned 0 and the
    buffer is empty. *)
Theorem chan_pipeline_completes s :
  map_Forall (fun _ cs => Forall (fun c => is_send c = true) cs ∨ Forall (fun c => is_recv c = true) cs) calls →
  msum (calls_of is_send) calls = msum (calls_of is_recv) calls →
  creach (start_system st calls) s → stuck s →
  (∃ ch q, st_chans (cs_store s) !! p = Some ch ∧ queue ch = Some q ∧ size q = 0) ∧
  ∀ i t, cs_threads s !! i = Some t →
    t_status t = Idle ∧ t_calls t = [] ∧ Forall (fun r => rp_ret r = 0) (t_replies t).
Proof using All.
  intros Hsides Hbal Hr Hstuck. destruct (sim_reach s Hr 1) as (Γ & a & ch & Hs & Ha).
  assert (balanced a) as Hb.
  { pose proof (balanced_start Hsides Hbal) as Hb0. by induction Ha; eauto using balanced_step. }
  assert (∀ i t, cs_threads s !! i = Some t → t_status t = Idle ∧ t_calls t = [] ∧
    as_threads a !! i = Some (mk_athread [] (t_replies t) Ph_idle)) as Hidle.
  { intros i t Hi. destruct (stuck_thread _ _ _ _ _ _ Hs Hstuck Hi) as [(? & ? & _ & ?)|(cv & _ & _ & HΓ & _)];
      [done|by destruct (stuck_awake _ _ _ _ _ _ Hs Hstuck Hb HΓ)]. }
  split.
  - destruct (ci_queue _ _ _ _ _ (sim_inv _ _ _ _ _ _ _ _ Hs)) as (q & Hq & [Hwf _] & Eabs).
    exists ch, q. split_and!; [apply Hs|done|]. rewrite (proj1 (buffer_size q Hwf)).
    assert (∀ f, msum (unfinished f) (as_threads a) = 0) as Hz.
    { intros f. apply msum_zero. intros j at_ Hj. pose proof (sim_threads _ _ _ _ _ _ _ _ Hs j) as Ht.
      rewrite Hj in Ht. destruct (cs_threads s !! j) as [t|] eqn:Et; [|by destruct (Γ !! j)].
      destruct (Hidle j t Et) as (_ & _ & E). rewrite Hj in E. by injection E as ->. }
    pose proof (ba_count _ Hb) as Hc. rewrite !Hz, Eabs in Hc. exact Hc.
  - intros i t Hi. destruct (Hidle i t Hi) as (? & ? & E). split_and!; try done.
    by destruct (ba_threads _ Hb i _ E).
Qed.

End buffered.

(** ** Executions *)

(** A scheduler: each entry of the list names a thread, which makes its next
    action if it can. *)
Definition try_actions (i : nat) : list action :=
  [A_start i; A_return i; A_step i 1 None; A_step i 1 (Some 0%nat); A_step i 1 (Some 1%nat)].
Fixpoint first_action (acts : list action) (s : csystem) : csystem :=
  match acts with
  | [] => s
  | a :: acts => match exec_action a s with Some s' => s' | None => first_action acts s end
  end.
Definition drive (order : list nat) (s : csystem) : csystem :=
  fold_left (fun s i => first_action (try_actions i) s) order s.

Lemma creach_drive order s0 s : creach s0 s → creach s0 (drive order s).
Proof.
  revert s. induction order as [|i order IH]; intros s Hs; [done|]. cbn [drive fold_left]. apply IH.
  generalize (try_actions i). intros acts. induction acts as [|a acts IHa]; [done|]. cbn.
  destruct (exec_action a s) eqn:E; [exact (creach_step _ _ _ _ Hs E)|done].
Qed.

Definition replies_of (s : csystem) (i : nat) : list reply :=
  match cs_threads s !! i with Some t => t_replies t | None => [] end.

(** A state in which every thread is done or sleeps. *)
Definition quiet_thread (t : cthread) : bool :=
  match t_status t with Idle => bool_decide (t_calls t = []) | Sleeping _ _ _ _ => true | _ => false end.

#[export] Instance call_eq_dec : EqDecision call.
Proof. solve_decision. Defined.

Lemma quiet_stuck s : map_Forall (fun _ t => quiet_thread t = true) (cs_threads s) → stuck s.
Proof.
  intros Hq act s' Hex. destruct act as [i|i ans j|i|i]; cbn in Hex; [..|by exists i];
    (destruct (cs_threads s !! i) as [t|] eqn:Hi; [|done]); pose proof (Hq i t Hi) as Ht;
    unfold quiet_thread in Ht; cbn in Hex; destruct (t_status t); try done.
  apply bool_decide_eq_true in Ht. by rewrite Ht in Hex.
Qed.

(** A channel for two values, a producer of three and a consumer of three. *)
Definition sample_store : store_t :=
  mk_store {[1%positive := mk_chan (Some (mk_queue 0 0 2 [None; None])) None None None None 0 0 0]} ∅ 2.
Definition sample_calls : gmap nat (list call) :=
  {[0%nat := [Call_send 1 (Some 7%positive); Call_send 1 (Some 8%positive); Call_send 1 (Some 9%positive)];
    1%nat := [Call_recv 1; Call_recv 1; Call_recv 1]]}.
Definition alternating (n : nat) : list nat := concat (replicate n [0%nat; 1%nat]).
Definition producer_first (n m : nat) : list nat := replicate n 0%nat ++ replicate m 1%nat ++ replicate n 0%nat ++ replicate m 1%nat.
Definition sample_start : csystem := start_system sample_store sample_calls.

Lemma sample_fresh : fresh_chan 1 2 [None; None] sample_store.
Proof. by eexists. Qed.
Lemma sample_calls_on : calls_on 1 sample_calls.
Proof.
  apply (bool_decide_unpack (map_Forall (fun _ cs => Forall (fun c => call_chan c = 1%positive) cs) sample_calls)).
  by vm_compute.
Qed.
Lemma sample_sides : map_Forall (fun _ cs =>
  Forall (fun c => is_send c = true) cs ∨ Forall (fun c => is_recv c = true) cs) sample_calls.
Proof.
  apply (bool_decide_unpack (map_Forall (fun _ cs =>
    Forall (fun c => is_send c = true) cs ∨ Forall (fun c => is_recv c = true) cs) sample_calls)).
  by vm_compute.
Qed.

Lemma sample_no_close : map_Forall (fun _ cs => Forall (no_close 1) cs) sample_calls.
Proof.
  intros i cs. unfold sample_calls. intros [[_ <-]|[_ [_ <-]%lookup_singleton_Some]]%lookup_insert_Some;
    by repeat constructor.
Qed.

Lemma chan_refines_witness :
  let s := drive (alternating 100) sample_start in
  rp_value <$> replies_of s 1 = [Some (Some 7%positive); Some (Some 8%positive); Some (Some 9%positive)] ∧
  (∃ a, rtc astep (start_abs 2 sample_calls) a ∧ shows 1 2 s a) ∧
  ∃ a, rtc (step_by atomic_op) (start_abs 2 sample_calls) a ∧ shows 1 2 s a.
Proof.
  intros s. split; [vm_compute; reflexivity|].
  destruct (chan_refines 1 2 [None; None] sample_store sample_calls
    ltac:(done) ltac:(done) sample_fresh sample_calls_on ltac:(done) s
    ltac:(apply creach_drive, creach_start)) as [H1 H2].
  split; [exact H1|exact (H2 sample_no_close)].
Defined.

(** A lone receiver. *)
Definition lone_calls : gmap nat (list call) := {[0%nat := [Call_recv 1]]}.

Lemma chan_no_lost_wakeup_witness :
  let s := drive (replicate 20 0%nat) (start_system sample_store lone_calls) in
  stuck s ∧ ∃ ch q, st_chans (cs_store s) !! 1%positive = Some ch ∧ queue ch = Some q ∧
    ∀ i t, cs_threads s !! i = Some t →
      (t_status t = Idle ∧ t_calls t = []) ∨
      (sleeps_on 1 R_cond t = true ∧ size q = 0 ∧ closed ch = 0) ∨
      (sleeps_on 1 W_cond t = true ∧ size q = 2).
Proof.
  intros s. assert (stuck s) as Hs.
  { apply quiet_stuck, (bool_decide_unpack _). vm_compute. exact I. }
  split; [exact Hs|].
  apply (chan_no_lost_wakeup 1 2 [None; None] sample_store lone_calls);
    [done|done|exact sample_fresh| |done|apply creach_drive, creach_start|exact Hs].
  by apply map_Forall_singleton, list.Forall_singleton.
Defined.

Lemma chan_pipeline_completes_witness :
  let s := drive (producer_first 100 100) sample_start in
  stuck s ∧ (∃ ch q, st_chans (cs_store s) !! 1%positive = Some ch ∧ queue ch = Some q ∧ size q = 0) ∧
  ∀ i t, cs_threads s !! i = Some t →
    t_status t = Idle ∧ t_calls t = [] ∧ Forall (fun r => rp_ret r = 0) (t_replies t).
Proof.
  intros s. assert (stuck s) as Hs.
  { apply quiet_stuck, (bool_decide_unpack _). vm_compute. exact I. }
  split; [exact Hs|].
  apply (chan_pipeline_completes 1 2 [None; None] sample_store sample_calls);
    [done|done|exact sample_fresh|exact sample_calls_on|done|exact sample_sides|reflexivity
    |apply creach_drive, creach_start|exact Hs].
Defined.

(** ** Closing *)

Definition unbuffered_store : store_t := mk_store {[1%positive := mk_chan None None None None None 0 0 0]} ∅ 2.
Definition send_and_close (v : voidp) : gmap nat (list call) :=
  {[0%nat := [Call_send 1 v]; 1%nat := [Call_close 1]]}.

(** The values in the buffer of the channel 1, and whether it is closed. *)
Definition buffered_values (s : csystem) : option (list voidp) :=
  ch ← st_chans (cs_store s) !! 1%positive; q ← queue ch; Some (queue_items q).
Definition is_closed (s : csystem) : bool :=
  match st_chans (cs_store s) !! 1%positive with Some ch => negb (closed ch =? 0) | None => false end.

(** C39: what closing does to a concurrent send.  On an unbuffered channel without
    any receiver, a sender that waits is woken by the close and returns 0, success,
    for a value nobody has received.  On a buffered channel a send that has found
    the channel open puts its value into the buffer after the close has returned:
    in a state in which [chan_close] has returned 0, the channel is closed, its buffer
    is empty and the send has not returned; a later state has the value in the buffer
    of the closed channel, and the send has returned 0. *)
Theorem close_races_with_send v :
  (∃ s, creach (start_system unbuffered_store (send_and_close v)) s ∧
        replies_of s 0 = [ok_reply] ∧ replies_of s 1 = [ok_reply]) ∧
  (∃ s1 s2, creach (start_system sample_store (send_and_close v)) s1 ∧
        replies_of s1 0 = [] ∧ replies_of s1 1 = [ok_reply] ∧
        is_closed s1 = true ∧ buffered_values s1 = Some [] ∧
        creach s1 s2 ∧ replies_of s2 0 = [ok_reply] ∧
        is_closed s2 = true ∧ buffered_values s2 = Some [v]).
Proof.
  split.
  - exists (drive (replicate 12 0%nat ++ replicate 30 1%nat ++ replicate 30 0%nat)
             (start_system unbuffered_store (send_and_close v))).
    split; [apply creach_drive, creach_start|]. by split; vm_compute.
  - exists (drive (replicate 5 0%nat ++ replicate 30 1%nat) (start_system sample_store (send_and_close v))).
    exists (drive (replicate 30 0%nat)
      (drive (replicate 5 0%nat ++ replicate 30 1%nat) (start_system sample_store (send_and_close v)))).
    split_and!; [apply creach_drive, creach_start|by vm_compute|by vm_compute|by vm_compute|by vm_compute
      |apply creach_drive, creach_start|by vm_compute|by vm_compute|by vm_compute].
Qed.
