(* ===== verification/Rendezvous.v ===== *)
(** * Unbuffered channels are synchronous communication

    The two mutexes of an unbuffered channel let one sender and one receiver in
    at a time, which meet under the third one.  The threads are followed by the
    program points of the functions of src/chan.c; the invariant says how the
    fields of the channel depend on the points of the two that are in. *)

From ITree Require Import ITree.
From S2P Require Import Prelude RingQueue Chan ChanLogic ChanProgs ChanTheorems.

(** ** The specification: a send and a receive happen at once *)

Abbreviation parties := (gmap nat athread).

(** A call that only looks at an open unbuffered channel. *)
Inductive look_op : phase → phase → Prop :=
  | look_closed c : look_op (Ph_invoked (Call_is_closed c)) (Ph_done (mk_reply 0 None None))
  | look_size c : look_op (Ph_invoked (Call_size c)) (Ph_done (mk_reply 0 None None)).

Inductive rstep : parties → parties → Prop :=
  | rs_start i c cs rs ths :
      ths !! i = Some (mk_athread (c :: cs) rs Ph_idle) →
      rstep ths (<[i := mk_athread cs rs (Ph_invoked c)]> ths)
  | rs_look i cs rs ph ph' ths :
      ths !! i = Some (mk_athread cs rs ph) → look_op ph ph' →
      rstep ths (<[i := mk_athread cs rs ph']> ths)
  | rs_meet i j c v cs rs c' cs' rs' ths :
      ths !! i = Some (mk_athread cs rs (Ph_invoked (Call_send c v))) →
      ths !! j = Some (mk_athread cs' rs' (Ph_invoked (Call_recv c'))) →
      rstep ths (<[j := mk_athread cs' rs' (Ph_done (mk_reply 0 None (Some v)))]>
                 (<[i := mk_athread cs rs (Ph_done ok_reply)]> ths))
  | rs_return i r cs rs ths :
      ths !! i = Some (mk_athread cs rs (Ph_done r)) →
      rstep ths (<[i := mk_athread cs (rs ++ [r]) Ph_idle]> ths).

Definition start_parties (calls : gmap nat (list call)) : parties :=
  (fun cs => mk_athread cs [] Ph_idle) <$> calls.

(** ** Program points *)

(** [Sp_asleep taken]: whether a receiver has taken the value. *)
Inductive spoint :=
  | Sp_acquire | Sp_enter | Sp_check | Sp_data | Sp_count | Sp_look | Sp_signal | Sp_wait
  | Sp_asleep (taken : bool) | Sp_woken | Sp_leave | Sp_exit.

Inductive rpoint :=
  | Rp_acquire | Rp_enter | Rp_test | Rp_count | Rp_wait | Rp_asleep | Rp_woken | Rp_uncount
  | Rp_loop | Rp_check | Rp_read | Rp_take (msg : voidp) | Rp_signal (msg : voidp)
  | Rp_leave (msg : voidp) | Rp_exit (msg : voidp).

(** [U_lock], [U_get], [U_unlock] are [chan_is_closed], in a send or on its own. *)
Inductive upoint :=
  | U_idle
  | U_lock (c : call) | U_get (c : call) | U_unlock (c : call)
  | U_buffered (c : call)
  | U_send (v : voidp) (sp : spoint)
  | U_recv (rp : rpoint)
  | U_done (r : reply).

(** The mutexes a thread holds. *)
Definition send_holds (m : chan_mutex) (sp : spoint) : bool :=
  match m with
  | W_mu => match sp with Sp_acquire => false | _ => true end
  | M_mu => match sp with
            | Sp_check | Sp_data | Sp_count | Sp_look | Sp_signal | Sp_wait | Sp_leave => true
            | _ => false
            end
  | R_mu => false
  end.
Definition recv_holds (m : chan_mutex) (rp : rpoint) : bool :=
  match m with
  | R_mu => match rp with Rp_acquire => false | _ => true end
  | M_mu => match rp with
            | Rp_acquire | Rp_enter | Rp_asleep | Rp_woken | Rp_exit _ => false
            | _ => true
            end
  | W_mu => false
  end.
Definition holds (m : chan_mutex) (pt : upoint) : bool :=
  match pt with
  | U_get _ | U_unlock _ => bool_decide (m = M_mu)
  | U_send _ sp => send_holds m sp
  | U_recv rp => recv_holds m rp
  | _ => false
  end.

(** How far the call is that the thread makes. *)
Definition point_phase (p : addr) (pt : upoint) : phase :=
  match pt with
  | U_idle => Ph_idle
  | U_lock c | U_get c | U_buffered c => Ph_invoked c
  | U_unlock c => match c with Call_is_closed _ => Ph_done (mk_reply 0 None None) | _ => Ph_invoked c end
  | U_send v sp =>
      match sp with
      | Sp_asleep true | Sp_woken | Sp_leave | Sp_exit => Ph_done ok_reply
      | _ => Ph_invoked (Call_send p v)
      end
  | U_recv rp =>
      match rp with
      | Rp_signal m | Rp_leave m | Rp_exit m => Ph_done (mk_reply 0 None (Some m))
      | _ => Ph_invoked (Call_recv p)
      end
  | U_done r => Ph_done r
  end.

(** ** The programs at the points *)

Section points.
Context (p : addr).

Definition after_closed (v : voidp) (c : Z) : P result :=
  if negb (c =? 0) then mret (-1, Some EPIPE)
  else
    b ← chan_is_buffered p;
    if (b : bool) then buffered_chan_send p v else unbuffered_chan_send p v.
Definition from_get : P Z := c ← get p closed; pthread_mutex_unlock p M_mu;; mret c.
Definition from_unlock : P Z := pthread_mutex_unlock p M_mu;; mret 0.

Definition send_leave : P result :=
  pthread_mutex_unlock p M_mu;; pthread_mutex_unlock p W_mu;; mret (0, None).
Definition send_wait : P result := pthread_cond_wait p W_cond M_mu;; send_leave.
Definition send_look : P result :=
  w ← get p r_waiting;
  (if 0 <? w then pthread_cond_signal p R_cond else mret tt);; send_wait.
Definition send_count : P result := add_to w_waiting 1 p;; send_look.
Definition send_data (v : voidp) : P result := put p (fun ch => ch⟨data := v⟩);; send_count.
Definition send_check (v : voidp) : P result :=
  c ← get p closed;
  if negb (c =? 0) then
    pthread_mutex_unlock p M_mu;; pthread_mutex_unlock p W_mu;; mret (-1, Some EPIPE)
  else send_data v.
Definition send_prog (v : voidp) (sp : spoint) : P result :=
  match sp with
  | Sp_acquire => unbuffered_chan_send p v
  | Sp_enter => pthread_mutex_lock p M_mu;; send_check v
  | Sp_check => send_check v
  | Sp_data => send_data v
  | Sp_count => send_count
  | Sp_look => send_look
  | Sp_signal => pthread_cond_signal p R_cond;; send_wait
  | Sp_wait => send_wait
  | Sp_asleep _ | Sp_woken | Sp_leave => send_leave
  | Sp_exit => pthread_mutex_unlock p W_mu;; mret (0, None)
  end.

Definition recv_finish (msg : voidp) : P (result * option voidp) :=
  pthread_mutex_unlock p M_mu;; pthread_mutex_unlock p R_mu;; mret ((0, None), Some msg).
Definition recv_read : P (result * option voidp) :=
  msg ← get p data;
  add_to w_waiting (-1) p;; pthread_cond_signal p W_cond;; recv_finish msg.
Definition recv_check : P (result * option voidp) :=
  c ← get p closed;
  if negb (c =? 0) then
    pthread_mutex_unlock p M_mu;; pthread_mutex_unlock p R_mu;; mret ((-1, Some EPIPE), None)
  else recv_read.
Definition recv_cond : P bool := get p (fun ch => (closed ch =? 0) && (w_waiting ch =? 0)).
Definition recv_body : P unit :=
  add_to r_waiting 1 p;; pthread_cond_wait p R_cond M_mu;; add_to r_waiting (-1) p.
Definition recv_test : P (result * option voidp) := while recv_cond recv_body;; recv_check.
(** The rest of an iteration of the loop, then the loop again. *)
Definition recv_iter (rest : P unit) : P (result * option voidp) :=
  ITree.bind (rest;; mret (inl tt)) (fun lr : unit + unit =>
    match lr with
    | inl l => Tau (ITree.iter (fun _ : unit =>
                 b ← recv_cond; if (b : bool) then recv_body;; mret (inl tt) else mret (inr tt)) l)
    | inr r => Ret r
    end);; recv_check.
Definition recv_prog (rp : rpoint) : P (result * option voidp) :=
  match rp with
  | Rp_acquire => unbuffered_chan_recv p true
  | Rp_enter => pthread_mutex_lock p M_mu;; recv_test
  | Rp_test => recv_test
  | Rp_count => recv_iter recv_body
  | Rp_wait => recv_iter (pthread_cond_wait p R_cond M_mu;; add_to r_waiting (-1) p)
  | Rp_asleep | Rp_woken | Rp_uncount => recv_iter (add_to r_waiting (-1) p)
  | Rp_loop => recv_iter (mret tt)
  | Rp_check => recv_check
  | Rp_read => recv_read
  | Rp_take msg => add_to w_waiting (-1) p;; pthread_cond_signal p W_cond;; recv_finish msg
  | Rp_signal msg => pthread_cond_signal p W_cond;; recv_finish msg
  | Rp_leave msg => recv_finish msg
  | Rp_exit msg => pthread_mutex_unlock p R_mu;; mret ((0, None), Some msg)
  end.

(** [run_call] around a function that sends, receives or looks. *)
Definition send_reply (t : P result) : P reply := r ← t; mret (of_result r).
Definition recv_reply (t : P (result * option voidp)) : P reply :=
  r ← t; mret (mk_reply (fst (fst r)) (snd (fst r)) (snd r)).
Definition look_reply (t : P Z) : P reply := n ← t; mret (mk_reply n None None).

Definition closed_prog (c : call) (t : P Z) : P reply :=
  match c with
  | Call_send _ v => send_reply (c ← t; after_closed v c)
  | _ => look_reply t
  end.

Definition prog (pt : upoint) : P reply :=
  match pt with
  | U_idle => mret ok_reply
  | U_lock c => run_call c
  | U_get c => closed_prog c from_get
  | U_unlock c => closed_prog c from_unlock
  | U_buffered c => match c with Call_send _ v => send_reply (after_closed v 0) | _ => run_call c end
  | U_send v sp => send_reply (send_prog v sp)
  | U_recv rp => recv_reply (recv_prog rp)
  | U_done r => mret r
  end.

(** Where a call begins. *)
Definition start_point (c : call) : upoint :=
  match c with Call_send _ _ | Call_is_closed _ => U_lock c | _ => U_buffered c end.

Lemma start_point_prog c : prog (start_point c) = run_call c.
Proof. by destruct c. Qed.

(** The calls that do not close the channel. *)
Definition keeps_open (c : call) : Prop :=
  call_chan c = p ∧ match c with Call_close _ => False | _ => True end.

(** The calls a point of a looking function can belong to. *)
Definition point_wf (pt : upoint) : Prop :=
  match pt with
  | U_lock c | U_get c | U_unlock c => call_chan c = p ∧ match c with Call_send _ _ | Call_is_closed _ => True | _ => False end
  | U_buffered c => call_chan c = p ∧ match c with Call_send _ _ | Call_recv _ | Call_size _ => True | _ => False end
  | _ => True
  end.

(** The thread is at the point. *)
Definition at_point (st : tstatus) (pt : upoint) : Prop :=
  point_wf pt ∧
  match pt with
  | U_idle => st = Idle
  | U_send _ (Sp_asleep _) =>
      ∃ t, st = Sleeping p W_cond M_mu t ∧ observe t = observe (prog pt)
  | U_recv Rp_asleep => ∃ t, st = Sleeping p R_cond M_mu t ∧ observe t = observe (prog pt)
  | U_send _ Sp_woken | U_recv Rp_woken =>
      ∃ t, st = Running (pthread_mutex_lock p M_mu;; t) ∧ observe t = observe (prog pt)
  | _ => ∃ t, st = Running t ∧ observe t = observe (prog pt)
  end.

End points.

(** ** The invariant *)

(** What the points of the sender and of the receiver that are in say about the
    counters. *)
Definition offers (S : option upoint) : bool :=
  match S with Some (U_send _ (Sp_look | Sp_signal | Sp_wait | Sp_asleep false)) => true | _ => false end.
Definition counted (R : option upoint) : bool :=
  match R with Some (U_recv (Rp_wait | Rp_asleep | Rp_woken | Rp_uncount)) => true | _ => false end.

(** The value a sender has stored and no receiver has taken. *)
Definition stored (S : option upoint) : option voidp :=
  match S with
  | Some (U_send v (Sp_count | Sp_look | Sp_signal | Sp_wait | Sp_asleep false)) => Some v
  | _ => None
  end.

(** A receiver that has counted itself sleeps only while nothing is offered; one
    that has found an offer meets a sleeping sender, and wakes it. *)
Definition meets (S R : option upoint) : Prop :=
  match R with
  | Some (U_recv (Rp_count | Rp_wait)) => ∀ v, S ≠ Some (U_send v (Sp_asleep false))
  | Some (U_recv Rp_asleep) => ∀ v, S ≠ Some (U_send v (Sp_asleep false)) ∧ S ≠ Some (U_send v Sp_wait)
  | Some (U_recv (Rp_check | Rp_read)) => ∃ v, S = Some (U_send v (Sp_asleep false))
  | Some (U_recv (Rp_take m)) => S = Some (U_send m (Sp_asleep false))
  | Some (U_recv (Rp_signal _)) => ∀ v, S ≠ Some (U_send v (Sp_asleep false))
  | _ => True
  end ∧
  ((∃ v, S = Some (U_send v (Sp_asleep true))) → ∃ m, R = Some (U_recv (Rp_signal m))).

Record coherent (S R : option upoint) (ch : chan_t) : Prop := {
  co_w : w_waiting ch = Z.b2z (offers S);
  co_r : r_waiting ch = Z.b2z (counted R);
  co_data v : stored S = Some v → data ch = v;
  co_meets : meets S R
}.

(** The point of the thread that holds a mutex. *)
Definition slot (Γ : gmap nat upoint) (ch : chan_t) (m : chan_mutex) : option upoint :=
  i ← mutex_of ch m; Γ !! i.
#[global] Arguments slot : simpl never.

Record uinv (Γ : gmap nat upoint) (ch : chan_t) : Prop := {
  ui_queue : queue ch = None;
  ui_closed : closed ch = 0;
  ui_mutex m i : mutex_of ch m = Some i ↔ ∃ pt, Γ !! i = Some pt ∧ holds m pt = true;
  ui_slots : coherent (slot Γ ch W_mu) (slot Γ ch R_mu) ch
}.

(** The holder of a mutex after a step from the point [pt] to [pt']. *)
Definition next_slot {X} (m : chan_mutex) (pt pt' : upoint) (new : X) (old : option X) : option X :=
  if holds m pt' then Some new else if holds m pt then None else old.

Lemma slot_holds Γ ch m pt : uinv Γ ch → slot Γ ch m = Some pt → holds m pt = true.
Proof.
  intros HI. unfold slot. destruct (mutex_of ch m) as [i|] eqn:E; [|done]. cbn. intros Hi.
  apply (ui_mutex _ _ HI) in E as (pt' & Hi' & Hh). by rewrite Hi in Hi'; injection Hi' as <-.
Qed.

Lemma slot_own Γ ch m i pt : uinv Γ ch → Γ !! i = Some pt → holds m pt = true → slot Γ ch m = Some pt.
Proof.
  intros HI Hi Hh. unfold slot. by rewrite (proj2 (ui_mutex _ _ HI m i) ltac:(eauto)).
Qed.

(** Nobody else holds [m_mu]. *)
Lemma slot_alone Γ ch m i pt pt' :
  uinv Γ ch → Γ !! i = Some pt → holds M_mu pt = true → holds m pt = false →
  slot Γ ch m = Some pt' → holds M_mu pt' = false.
Proof.
  intros HI Hi Hh Hm. unfold slot. destruct (mutex_of ch m) as [j|] eqn:E; [|done]. cbn. intros Hj.
  destruct (holds M_mu pt') eqn:E'; [|done].
  pose proof (proj2 (ui_mutex _ _ HI M_mu i) ltac:(eauto)) as H1.
  pose proof (proj2 (ui_mutex _ _ HI M_mu j) ltac:(eauto)) as H2. rewrite H1 in H2. injection H2 as ->.
  apply (ui_mutex _ _ HI) in E as (pt2 & Hj2 & ?). congruence.
Qed.

(** What thread [i] knows at the point [pt]: it is the sender or the receiver that
    is in when it holds the mutex, and with [m_mu] it is alone. *)
Record seen (pt : upoint) (S R : option upoint) : Prop := {
  se_w : holds W_mu pt = true → S = Some pt;
  se_r : holds R_mu pt = true → R = Some pt;
  se_ww pt' : S = Some pt' → holds W_mu pt' = true;
  se_rr pt' : R = Some pt' → holds R_mu pt' = true;
  se_alone_w : holds M_mu pt = true → holds W_mu pt = false → ∀ pt', S = Some pt' → holds M_mu pt' = false;
  se_alone_r : holds M_mu pt = true → holds R_mu pt = false → ∀ pt', R = Some pt' → holds M_mu pt' = false
}.

Lemma uinv_seen Γ ch i pt : uinv Γ ch → Γ !! i = Some pt → seen pt (slot Γ ch W_mu) (slot Γ ch R_mu).
Proof.
  intros HI Hi. constructor; eauto using slot_own, slot_holds; intros H1 H2 pt' H3; by eapply slot_alone.
Qed.

(** A step of one thread. *)
Lemma uinv_step Γ ch i pt pt' ch' :
  uinv Γ ch → Γ !! i = Some pt → queue ch' = None → closed ch' = 0 →
  (∀ m, mutex_of ch' m =
     match holds m pt, holds m pt' with true, false => None | false, true => Some i | _, _ => mutex_of ch m end) →
  (∀ m, holds m pt = false → holds m pt' = true → mutex_of ch m = None) →
  (seen pt (slot Γ ch W_mu) (slot Γ ch R_mu) → coherent (slot Γ ch W_mu) (slot Γ ch R_mu) ch →
     (holds W_mu pt = false → holds W_mu pt' = true → slot Γ ch W_mu = None) →
     (holds R_mu pt = false → holds R_mu pt' = true → slot Γ ch R_mu = None) →
     coherent (next_slot W_mu pt pt' pt' (slot Γ ch W_mu)) (next_slot R_mu pt pt' pt' (slot Γ ch R_mu)) ch') →
  uinv (<[i := pt']> Γ) ch'.
Proof.
  intros HI Hi Hq Hc Hm' Hfree Hco.
  assert (∀ m, holds m pt = true → mutex_of ch m = Some i) as Hown by (intros m Hh; apply (ui_mutex _ _ HI); eauto).
  assert (∀ m, mutex_of ch' m = next_slot m pt pt' i (mutex_of ch m)) as Hm.
  { intros m. rewrite Hm'. unfold next_slot. destruct (holds m pt) eqn:E, (holds m pt'); eauto. }
  assert (∀ m, slot (<[i := pt']> Γ) ch' m = next_slot m pt pt' pt' (slot Γ ch m)) as Hslot.
  { intros m. unfold slot. rewrite Hm. unfold next_slot. destruct (holds m pt'); cbn; [by rewrite lookup_insert_eq|].
    destruct (holds m pt) eqn:Eh; [done|]. destruct (mutex_of ch m) as [j|] eqn:E; [|done]. cbn.
    rewrite lookup_insert_ne; [done|]. intros <-. apply (ui_mutex _ _ HI) in E as (pt2 & Hi2 & ?). congruence. }
  constructor; [done|done| |].
  - intros m j. rewrite Hm. unfold next_slot. destruct (decide (i = j)) as [<-|Hne].
    + rewrite lookup_insert_eq. split.
      * destruct (holds m pt') eqn:E; [eauto|]. destruct (holds m pt) eqn:E'; [done|].
        intros (pt2 & Hi2 & ?)%(ui_mutex _ _ HI). congruence.
      * intros (pt2 & [= <-] & ->). done.
    + rewrite lookup_insert_ne, <- (ui_mutex _ _ HI) by done.
      destruct (holds m pt) eqn:E, (holds m pt') eqn:E'; rewrite ?(Hown m E), ?(Hfree m E E'); try done;
        split; congruence.
  - rewrite !Hslot. apply Hco; [by eapply uinv_seen|apply HI| |];
      intros H1 H2; unfold slot; by rewrite (Hfree _ H1 H2).
Qed.
