(* ===== verification/RendezvousTheorems.v ===== *)
(** * What an unbuffered channel promises

    The simulation of the threads that use an unbuffered channel by the
    synchronous communication of Rendezvous.v: every event keeps the invariant,
    and only a receiver that takes a value makes the abstract system step.  Then
    the theorems, and what a spurious wakeup does. *)

From ITree Require Import ITree.
From S2P Require Import Prelude RingQueue Chan ChanLogic ChanProgs ChanTheorems Rendezvous.

(** ** The simulation *)

Section simulation.
Context (p : addr).

Definition thread_at (t : cthread) (pt : upoint) : Prop :=
  at_point p (t_status t) pt ∧ Forall (keeps_open p) (t_calls t).

Record usim (s : csystem) (Γ : gmap nat upoint) (ch : chan_t) : Prop := {
  us_chan : st_chans (cs_store s) !! p = Some ch;
  us_inv : uinv Γ ch;
  us_threads i :
    match cs_threads s !! i, Γ !! i with
    | None, None => True
    | Some t, Some pt => thread_at t pt
    | _, _ => False
    end
}.

(** The parties of the specification. *)
Definition party (t : cthread) (pt : upoint) : athread := mk_athread (t_calls t) (t_replies t) (point_phase p pt).
Definition parties_of (s : csystem) (Γ : gmap nat upoint) : parties := map_zip_with party (cs_threads s) Γ.

Lemma usim_lookup s Γ ch i t :
  usim s Γ ch → cs_threads s !! i = Some t →
  ∃ pt, Γ !! i = Some pt ∧ thread_at t pt ∧ parties_of s Γ !! i = Some (party t pt).
Proof.
  intros Hs Hi. pose proof (us_threads _ _ _ Hs i) as Ht. rewrite Hi in Ht.
  destruct (Γ !! i) as [pt|] eqn:E; [|done]. exists pt. split_and!; [done|done|].
  apply map_lookup_zip_with_Some. eauto.
Qed.

Lemma usim_thread s Γ ch i pt :
  usim s Γ ch → Γ !! i = Some pt → ∃ t, cs_threads s !! i = Some t ∧ thread_at t pt.
Proof.
  intros Hs Hi. pose proof (us_threads _ _ _ Hs i) as Ht. rewrite Hi in Ht.
  destruct (cs_threads s !! i) as [t|]; [by exists t|done].
Qed.

(** What a step leads to. *)
Definition outcome (s' : csystem) (a : parties) : Prop :=
  ∃ Γ' ch', usim s' Γ' ch' ∧ (parties_of s' Γ' = a ∨ rstep a (parties_of s' Γ')).

Lemma usim_update s Γ ch i t pt store ch' :
  usim s Γ ch → st_chans store !! p = Some ch' → uinv (<[i := pt]> Γ) ch' → thread_at t pt →
  usim (mk_csystem store (<[i := t]> (cs_threads s))) (<[i := pt]> Γ) ch' ∧
  parties_of (mk_csystem store (<[i := t]> (cs_threads s))) (<[i := pt]> Γ) = <[i := party t pt]> (parties_of s Γ).
Proof.
  intros Hs Hst HI Ht. split; [constructor; [done|done|]|].
  - intros j. cbn. destruct (decide (i = j)) as [<-|Hne]; [by rewrite !lookup_insert_eq|].
    rewrite !lookup_insert_ne by done. apply Hs.
  - unfold parties_of. cbn. by rewrite map_insert_zip_with.
Qed.

(** A step of thread [i] that is at most a look of its call. *)
Lemma advance s Γ ch i t pt pt' st' store ch' :
  usim s Γ ch → cs_threads s !! i = Some t → Γ !! i = Some pt →
  st_chans store !! p = Some ch' → uinv (<[i := pt']> Γ) ch' → at_point p st' pt' →
  (point_phase p pt' = point_phase p pt ∨ look_op (point_phase p pt) (point_phase p pt')) →
  outcome (set_thread i (t⟨t_status := st'⟩) (mk_csystem store (cs_threads s))) (parties_of s Γ).
Proof.
  intros Hs Hi HΓ Hst HI Hat Hop. destruct (usim_lookup _ _ _ _ _ Hs Hi) as (pt0 & H0 & [_ Hc] & Hpar).
  rewrite HΓ in H0. injection H0 as <-.
  destruct (usim_update s Γ ch i (t⟨t_status := st'⟩) pt' store ch' Hs Hst HI ltac:(by split)) as [Hs' E].
  exists (<[i := pt']> Γ), ch'. split; [exact Hs'|]. unfold set_thread. cbn [cs_store cs_threads].
  rewrite E. destruct Hop as [Hop|Hop].
  - left. apply insert_id. rewrite Hpar. unfold party. cbn. by rewrite Hop.
  - right. by eapply rs_look.
Qed.

(** A sleeper that is woken. *)
Definition woken_point (pt : upoint) : upoint :=
  match pt with
  | U_send v (Sp_asleep _) => U_send v Sp_woken
  | U_recv Rp_asleep => U_recv Rp_woken
  | _ => pt
  end.
Definition sleeping_on (cv : chan_cond) (pt : upoint) : bool :=
  match cv, pt with
  | W_cond, U_send _ (Sp_asleep _) | R_cond, U_recv Rp_asleep => true
  | _, _ => false
  end.

Lemma thread_sleeping t pt cv : thread_at t pt → sleeps_on p cv t = sleeping_on cv pt.
Proof.
  intros [[_ Hat] _]. unfold sleeps_on.
  destruct pt as [| | | | |v []|[]|]; try (destruct Hat as (? & -> & _); by destruct cv);
    try (rewrite Hat; by destruct cv);
    destruct Hat as (? & -> & _); destruct cv; cbn; case_bool_decide; naive_solver.
Qed.

Ltac follow :=
  intros [HW HR HWW HRR HAW HAR] [Hw Hr Hd [Hm1 Hm2]] HNW HNR; cbn in HW, HR, HAW, HAR, HNW, HNR;
  repeat match goal with
  | H : true = true → _ |- _ => specialize (H eq_refl)
  | H : false = false → _ |- _ => specialize (H eq_refl)
  end; subst; unfold next_slot; cbn in *.
Ltac protocol :=
  lazymatch goal with |- seen _ ?S ?R → _ => generalize S R end; intros S R; follow.

(** Waking keeps the invariant, but for a sender nobody has signalled. *)
Lemma uinv_wake Γ ch j pt cv :
  uinv Γ ch → Γ !! j = Some pt → sleeping_on cv pt = true →
  (cv = W_cond → ∃ v, pt = U_send v (Sp_asleep true)) →
  uinv (<[j := woken_point pt]> Γ) ch.
Proof.
  intros HI Hj Hsl Hcv. destruct cv, pt as [| | | | |v []|[]|]; try done.
  - eapply uinv_step; [exact HI|exact Hj|apply HI|apply HI|by intros []|by intros []|].
    protocol. constructor; cbn; try done. split; [done|]. intros Hx. by destruct (Hm2 Hx).
  - destruct (Hcv eq_refl) as (v' & [= -> ->]).
    eapply uinv_step; [exact HI|exact Hj|apply HI|apply HI|by intros []|by intros []|].
    protocol. constructor; cbn; try done. split; [|naive_solver].
    destruct R as [[| | | | | |[]|]|]; naive_solver.
Qed.

(** ** The steps *)

(** The point of a running thread, and how its events are executed. *)
Definition runs (pt : upoint) : bool :=
  match pt with U_idle | U_send _ (Sp_asleep _) | U_recv Rp_asleep => false | _ => true end.

Lemma at_running t pt : runs pt = true → thread_at t pt →
  ∃ prog0, t_status t = Running prog0 ∧
    match pt with
    | U_send _ Sp_woken | U_recv Rp_woken =>
        ∃ k, prog0 = (pthread_mutex_lock p M_mu;; k) ∧ observe k = observe (prog p pt)
    | _ => observe prog0 = observe (prog p pt)
    end.
Proof.
  intros Hr [[_ Hat] _]. destruct pt as [| | | | |v []|[]|]; try done; destruct Hat as (t' & -> & E); eauto.
Qed.

(** Thread [i] is at [pt], its next event is [e]. *)
Record next_event {X} (s : csystem) Γ ch (i : nat) (t : cthread) pt (e : chanE X) (k : X → P reply) : Prop := {
  ne_sim : usim s Γ ch;
  ne_thread : cs_threads s !! i = Some t;
  ne_point : Γ !! i = Some pt;
  ne_runs : ∃ prog0, t_status t = Running prog0 ∧ observe prog0 = VisF e k
}.

Lemma next_event_exec {X} s Γ ch i t pt (e : chanE X) k ans j s' :
  next_event s Γ ch i t pt e k → exec_action (A_step i ans j) s = Some s' →
  ∃ r, exec_event e i ans j s k = Some r ∧ s' = set_thread i (t⟨t_status := r.1⟩) r.2.
Proof.
  intros [_ Hi _ (prog0 & Hst & Ho)]. cbn. rewrite Hi. cbn. rewrite Hst, Ho.
  destruct (exec_event e i ans j s k) as [r|]; [|done]. cbn. intros [= <-]. by exists r.
Qed.

Lemma step_lock s Γ ch i t pt pt' m k ans j s' :
  next_event s Γ ch i t pt (Lock p m) k → exec_action (A_step i ans j) s = Some s' →
  at_point p (Running (k tt)) pt' → point_phase p pt' = point_phase p pt →
  (mutex_of ch m = None → uinv (<[i := pt']> Γ) (set_mutex m (Some i) ch)) →
  outcome s' (parties_of s Γ).
Proof.
  intros He Hex Hat Hph HI. destruct (next_event_exec _ _ _ _ _ _ _ _ _ _ _ He Hex) as (r & Hr & ->).
  destruct He as [Hs Hi HΓ _]. cbn in Hr. rewrite (us_chan _ _ _ Hs) in Hr.
  destruct (mutex_of ch m) eqn:Em; [done|]. injection Hr as <-. cbn.
  eapply advance; [exact Hs|exact Hi|exact HΓ|apply lookup_insert_eq|by apply HI|exact Hat|by left].
Qed.

Lemma step_unlock s Γ ch i t pt pt' m k ans j s' :
  next_event s Γ ch i t pt (Unlock p m) k → exec_action (A_step i ans j) s = Some s' →
  holds m pt = true → at_point p (Running (k tt)) pt' → point_phase p pt' = point_phase p pt →
  uinv (<[i := pt']> Γ) (set_mutex m None ch) → outcome s' (parties_of s Γ).
Proof.
  intros He Hex Hh Hat Hph HI. destruct (next_event_exec _ _ _ _ _ _ _ _ _ _ _ He Hex) as (r & Hr & ->).
  destruct He as [Hs Hi HΓ _]. cbn in Hr. rewrite (us_chan _ _ _ Hs) in Hr.
  rewrite bool_decide_eq_true_2 in Hr by (apply (ui_mutex _ _ (us_inv _ _ _ Hs)); eauto).
  injection Hr as <-. cbn.
  eapply advance; [exact Hs|exact Hi|exact HΓ|apply lookup_insert_eq|exact HI|exact Hat|by left].
Qed.

Lemma step_wait s Γ ch i t pt pt' cv k ans j s' :
  next_event s Γ ch i t pt (Cond_wait p cv M_mu) k → exec_action (A_step i ans j) s = Some s' →
  holds M_mu pt = true → at_point p (Sleeping p cv M_mu (k tt)) pt' → point_phase p pt' = point_phase p pt →
  uinv (<[i := pt']> Γ) (set_mutex M_mu None ch) → outcome s' (parties_of s Γ).
Proof.
  intros He Hex Hh Hat Hph HI. destruct (next_event_exec _ _ _ _ _ _ _ _ _ _ _ He Hex) as (r & Hr & ->).
  destruct He as [Hs Hi HΓ _]. cbn in Hr. rewrite (us_chan _ _ _ Hs) in Hr.
  rewrite bool_decide_eq_true_2 in Hr by (apply (ui_mutex _ _ (us_inv _ _ _ Hs) M_mu); eauto).
  injection Hr as <-. cbn.
  eapply advance; [exact Hs|exact Hi|exact HΓ|apply lookup_insert_eq|exact HI|exact Hat|by left].
Qed.

Lemma step_access {X} s Γ ch i t pt pt' (f : chan_t → option (X * chan_t)) k x ch' ans j s' :
  next_event s Γ ch i t pt (Access (on_chan p f)) k → exec_action (A_step i ans j) s = Some s' →
  f ch = Some (x, ch') → at_point p (Running (k x)) pt' →
  (point_phase p pt' = point_phase p pt ∨ look_op (point_phase p pt) (point_phase p pt')) →
  uinv (<[i := pt']> Γ) ch' → outcome s' (parties_of s Γ).
Proof.
  intros He Hex Hf Hat Hph HI. destruct (next_event_exec _ _ _ _ _ _ _ _ _ _ _ He Hex) as (r & Hr & ->).
  destruct He as [Hs Hi HΓ _]. cbn in Hr. unfold on_chan in Hr. rewrite (us_chan _ _ _ Hs) in Hr. cbn in Hr.
  rewrite Hf in Hr. injection Hr as <-. cbn.
  eapply advance; [exact Hs|exact Hi|exact HΓ|apply lookup_insert_eq|exact HI|exact Hat|exact Hph].
Qed.

(** The mutex a sleeper holds. *)
Definition slot_mutex (cv : chan_cond) : chan_mutex := match cv with R_cond => R_mu | W_cond => W_mu end.

Lemma sleeping_holds cv pt : sleeping_on cv pt = true → holds (slot_mutex cv) pt = true.
Proof. by destruct cv, pt as [| | | | |v []|[]|]. Qed.
Lemma woken_awake cv pt : sleeping_on cv pt = true → sleeping_on cv (woken_point pt) = false.
Proof. by destruct cv, pt as [| | | | |v []|[]|]. Qed.
Lemma woken_holds m cv pt : sleeping_on cv pt = true → holds m (woken_point pt) = holds m pt.
Proof. by destruct m, cv, pt as [| | | | |v []|[]|]. Qed.
Lemma sleeping_slot Γ ch j pt cv :
  uinv Γ ch → Γ !! j = Some pt → sleeping_on cv pt = true → slot Γ ch (slot_mutex cv) = Some pt.
Proof. intros HI Hj Hsl. eapply slot_own; [done|done|by apply sleeping_holds]. Qed.

(** Waking a sleeper that may be woken changes no party. *)
Lemma usim_wake s Γ ch j t pt cv :
  usim s Γ ch → cs_threads s !! j = Some t → Γ !! j = Some pt → sleeping_on cv pt = true →
  (cv = W_cond → ∃ v, pt = U_send v (Sp_asleep true)) →
  usim (mk_csystem (cs_store s) (<[j := wake t]> (cs_threads s))) (<[j := woken_point pt]> Γ) ch ∧
  parties_of (mk_csystem (cs_store s) (<[j := wake t]> (cs_threads s))) (<[j := woken_point pt]> Γ) = parties_of s Γ.
Proof.
  intros Hs Hj HΓ Hsl Hcv. destruct (usim_lookup _ _ _ _ _ Hs Hj) as (pt0 & H0 & Ht & Hpar).
  rewrite HΓ in H0. injection H0 as <-. pose proof (uinv_wake _ _ _ _ _ (us_inv _ _ _ Hs) HΓ Hsl Hcv) as HI.
  assert (thread_at (wake t) (woken_point pt) ∧ party (wake t) (woken_point pt) = party t pt) as [Ht' Hp].
  { destruct Ht as [[_ Hat] Hc], cv, pt as [| | | | |v []|[]|]; try done;
      [..|destruct (Hcv eq_refl) as (? & [= <- ->])]; destruct Hat as (k & E & Ho); unfold thread_at, party, wake;
      rewrite E; (split; [|done]); (split; [|done]); split; try done; by exists k. }
  destruct (usim_update s Γ ch j (wake t) (woken_point pt) (cs_store s) ch Hs (us_chan _ _ _ Hs) HI Ht') as [Hs' E].
  split; [exact Hs'|]. rewrite E, Hp. by apply insert_id.
Qed.

Lemma step_signal s Γ ch i t pt pt' cv k ans j s' :
  next_event s Γ ch i t pt (Cond_signal p cv) k → exec_action (A_step i ans j) s = Some s' →
  at_point p (Running (k tt)) pt' → point_phase p pt' = point_phase p pt → sleeping_on cv pt = false →
  (cv = W_cond → ∀ v b, slot Γ ch W_mu = Some (U_send v (Sp_asleep b)) → b = true) →
  (∀ Γ', uinv Γ' ch → Γ' !! i = Some pt →
     (∀ q, slot Γ' ch (slot_mutex cv) = Some q → sleeping_on cv q = false) → uinv (<[i := pt']> Γ') ch) →
  outcome s' (parties_of s Γ).
Proof.
  intros He Hex Hat Hph Hown Hcv HI. destruct (next_event_exec _ _ _ _ _ _ _ _ _ _ _ He Hex) as (r & Hr & ->).
  destruct He as [Hs Hi HΓ _]. cbn in Hr. pose proof (us_inv _ _ _ Hs) as HIΓ. destruct j as [j|].
  - destruct (cs_threads s !! j) as [tj|] eqn:Hj; [|done]. cbn in Hr.
    destruct (usim_lookup _ _ _ _ _ Hs Hj) as (ptj & HΓj & Htj & _).
    rewrite (thread_sleeping _ _ _ Htj) in Hr. destruct (sleeping_on cv ptj) eqn:Hsl; [|done]. injection Hr as <-.
    pose proof (sleeping_slot _ _ _ _ _ HIΓ HΓj Hsl) as Hslot.
    assert (cv = W_cond → ∃ v, ptj = U_send v (Sp_asleep true)) as Hw.
    { intros ->. destruct ptj as [| | | | |v []|[]|]; try done. exists v. by rewrite (Hcv eq_refl _ _ Hslot). }
    destruct (usim_wake _ _ _ _ _ _ _ Hs Hj HΓj Hsl Hw) as [Hs' E]. rewrite <- E.
    assert (i ≠ j) as Hne by congruence.
    eapply (advance (mk_csystem (cs_store s) (<[j := wake tj]> (cs_threads s)))); [exact Hs'|cbn; by rewrite lookup_insert_ne|by rewrite lookup_insert_ne|apply Hs
      | |exact Hat|by left].
    apply HI; [apply Hs'|by rewrite lookup_insert_ne|]. intros q Hq.
    assert (slot (<[j:=woken_point ptj]> Γ) ch (slot_mutex cv) = Some (woken_point ptj)) as Hq'.
    { eapply slot_own; [apply Hs'|apply lookup_insert_eq|]. rewrite (woken_holds _ _ _ Hsl). by apply sleeping_holds. }
    rewrite Hq' in Hq. injection Hq as <-. by apply woken_awake.
  - case_bool_decide as Hno; [|done]. injection Hr as <-.
    destruct s as [st ths]. eapply (advance (mk_csystem st ths)); [exact Hs|exact Hi|exact HΓ|apply Hs| |exact Hat|by left].
    apply HI; [done|done|]. intros q. unfold slot. destruct (mutex_of ch _) as [l|]; [|done]. cbn. intros Hl.
    destruct (usim_thread _ _ _ _ _ Hs Hl) as (tl & Htl & Hat'). rewrite <- (thread_sleeping _ _ cv Hat').
    exact (Hno l tl Htl).
Qed.

(** The two that meet. *)
Lemma uinv_meet Γ ch i l v :
  uinv Γ ch → Γ !! i = Some (U_recv (Rp_take v)) → Γ !! l = Some (U_send v (Sp_asleep false)) →
  uinv (<[i := U_recv (Rp_signal v)]> (<[l := U_send v (Sp_asleep true)]> Γ)) (ch⟨w_waiting := 0⟩).
Proof.
  intros HI Hi Hl. set (Γ' := <[i := _]> _). assert (i ≠ l) as Hne by congruence.
  assert (Γ' !! i = Some (U_recv (Rp_signal v)) ∧ Γ' !! l = Some (U_send v (Sp_asleep true))) as [Hi' Hl'].
  { unfold Γ'. rewrite lookup_insert_eq, lookup_insert_ne, lookup_insert_eq by done. done. }
  pose proof (proj2 (ui_mutex _ _ HI R_mu i) ltac:(eauto)) as HR.
  pose proof (proj2 (ui_mutex _ _ HI W_mu l) ltac:(eauto)) as HW. cbn in HR, HW.
  constructor; [apply HI|apply HI| |].
  - intros m j. transitivity (mutex_of ch m = Some j); [by destruct m|]. rewrite (ui_mutex _ _ HI m j).
    destruct (decide (i = j)) as [<-|Hij]; [|destruct (decide (l = j)) as [<-|Hlj]].
    + rewrite Hi, Hi'. destruct m; naive_solver.
    + rewrite Hl, Hl'. destruct m; naive_solver.
    + unfold Γ'. by rewrite !lookup_insert_ne.
  - unfold slot. cbn. rewrite HR, HW. cbn. rewrite Hi', Hl'.
    pose proof (co_r _ _ _ (ui_slots _ _ HI)) as Hr. unfold slot in Hr. cbn in Hr. rewrite HR in Hr. cbn in Hr.
    rewrite Hi in Hr. constructor; [done|exact Hr|done|]. split; [done|]. intros _. by exists v.
Qed.

(** A receiver takes the value of the sleeping sender: the two calls meet. *)
Lemma step_take s Γ ch i t v k ans j s' :
  next_event s Γ ch i t (U_recv (Rp_take v))
    (Access (on_chan p (fun ch => c ← int_result (w_waiting ch + -1); Some (tt, ch⟨w_waiting := c⟩)))) k →
  exec_action (A_step i ans j) s = Some s' → at_point p (Running (k tt)) (U_recv (Rp_signal v)) →
  outcome s' (parties_of s Γ).
Proof.
  intros He Hex Hat. destruct (next_event_exec _ _ _ _ _ _ _ _ _ _ _ He Hex) as (r & Hr & ->).
  destruct He as [Hs Hi HΓ _]. pose proof (us_inv _ _ _ Hs) as HI.
  pose proof (uinv_seen _ _ _ _ HI HΓ) as Hseen. pose proof (ui_slots _ _ HI) as [Hw Hr' Hd [Hm1 Hm2]].
  pose proof (se_r _ _ _ Hseen eq_refl) as ER. rewrite ER in Hm1, Hr', Hm2. cbn in Hm1, Hr', Hm2.
  rewrite Hm1 in Hw. cbn in Hw. cbn in Hr. unfold on_chan in Hr. rewrite (us_chan _ _ _ Hs) in Hr. cbn in Hr.
  rewrite Hw in Hr. cbn in Hr. injection Hr as <-. cbn [fst snd].
  pose proof Hm1 as Hslot. unfold slot in Hslot. destruct (mutex_of ch W_mu) as [l|] eqn:El; [|done]. cbn in Hslot.
  assert (i ≠ l) as Hne by congruence.
  destruct (usim_thread _ _ _ _ _ Hs Hslot) as (tl & Htl & Hatl).
  destruct (usim_lookup _ _ _ _ _ Hs Hi) as (pt0 & H0 & [_ Hci] & Hpi). rewrite HΓ in H0. injection H0 as <-.
  destruct (usim_lookup _ _ _ _ _ Hs Htl) as (pt0 & H0 & _ & Hpl). rewrite Hslot in H0. injection H0 as <-.
  set (Γ' := <[i := U_recv (Rp_signal v)]> (<[l := U_send v (Sp_asleep true)]> Γ)).
  exists Γ', (ch⟨w_waiting := 0⟩). split.
  - constructor; [apply lookup_insert_eq| |].
    + by eapply uinv_meet.
    + clear j Hex. intros j. cbn. unfold Γ'. destruct (decide (i = j)) as [<-|Hij]; [by rewrite !lookup_insert_eq|].
      rewrite !lookup_insert_ne by done. destruct (decide (l = j)) as [<-|Hlj].
      * by rewrite Htl, lookup_insert_eq.
      * rewrite lookup_insert_ne by done. apply Hs.
  - right. match goal with |- rstep _ ?a => assert (a = <[i := mk_athread (t_calls t) (t_replies t) (Ph_done (mk_reply 0 None (Some v)))]>
      (<[l := mk_athread (t_calls tl) (t_replies tl) (Ph_done ok_reply)]> (parties_of s Γ))) as -> end.
    { unfold parties_of, set_thread, Γ'. cbn. rewrite <- map_insert_zip_with. f_equal.
      rewrite <- (insert_id _ _ _ Htl) at 1. by rewrite <- map_insert_zip_with. }
    by eapply rs_meet.
Qed.

Definition was_asleep (pt : upoint) : bool :=
  match pt with U_send _ Sp_woken | U_recv Rp_woken => true | _ => false end.

Lemma event_at {X} s Γ ch i t pt (e : chanE X) k :
  usim s Γ ch → cs_threads s !! i = Some t → Γ !! i = Some pt → runs pt = true → was_asleep pt = false →
  observe (prog p pt) = VisF e k → next_event s Γ ch i t pt e k.
Proof.
  intros Hs Hi HΓ Hr Hw Ho. constructor; [done|done|done|].
  destruct (usim_lookup _ _ _ _ _ Hs Hi) as (pt0 & H0 & Ht & _). rewrite HΓ in H0. injection H0 as <-.
  destruct (at_running _ _ Hr Ht) as (t0 & Hst & E). exists t0. split; [done|]. etransitivity; [|exact Ho].
  by destruct pt as [| | | | |v []|[]|].
Qed.

(** The premises of the step lemmas. *)
Ltac whnf_reflexivity :=
  lazymatch goal with |- ?l = ?r =>
    let l' := eval hnf in l in let r' := eval hnf in r in change (l' = r'); reflexivity
  end.
Ltac event := eapply event_at; [eassumption|eassumption|eassumption|done|done|whnf_reflexivity].
Ltac arrive := split; [done || (by split)|eexists; split; [reflexivity|whnf_reflexivity]].
Ltac mutexes := intros []; cbn; (done || congruence || (intros; by eauto)).
Ltac split_point S :=
  lazymatch S with
  | Some _ => idtac
  | None => idtac
  | _ => destruct S as [[| | | | |? []|[]|]|]
  end.
Ltac use_alone :=
  repeat match goal with
  | H : ∀ pt', Some ?pt = Some pt' → _ = _ |- _ => specialize (H _ eq_refl); cbn in H; try discriminate H
  end.
Ltac settle :=
  constructor; cbn in *; [done || congruence || lia|done || congruence || lia|first [done|by intros ? [= <-]|naive_solver]|];
  try done; lazymatch goal with |- meets ?S ?R => split_point S; split_point R end;
  repeat match goal with b : bool |- _ => destruct b end; use_alone; cbn in *; try done; try lia; unfold meets; cbn; split;
  first [done|by eexists|by intros (?&[=])|by intros; eexists|by intros; split; congruence|by intros; congruence
        |match goal with H : (∃ v, Some _ = Some _) → _ |- _ => by destruct (H ltac:(by eexists)) end
        |naive_solver].
Ltac moves HI :=
  eapply uinv_step; [exact HI|eassumption|(by apply HI)|(by apply HI)|mutexes|mutexes|protocol; settle].

(** The same when nobody sleeps on the condition variable, [Hno]. *)
Ltac moves_awake HI Hno :=
  eapply uinv_step; [exact HI|eassumption|(by apply HI)|(by apply HI)|mutexes|mutexes|];
  cbn in Hno; revert Hno; lazymatch goal with |- context [seen _ ?S ?R] => generalize S R end;
  intros S R Hno; follow; settle.

(** [chan_is_closed] and [chan_is_buffered]. *)
Lemma looking_step s Γ ch i t pt ans j s' :
  usim s Γ ch → cs_threads s !! i = Some t → Γ !! i = Some pt →
  match pt with U_lock _ | U_get _ | U_unlock _ | U_buffered _ => True | _ => False end →
  exec_action (A_step i ans j) s = Some s' → outcome s' (parties_of s Γ).
Proof.
  intros Hs Hi HΓ Hpt Hex. pose proof (us_inv _ _ _ Hs) as HI.
  pose proof (ui_closed _ _ HI) as Hc. pose proof (ui_queue _ _ HI) as Hq.
  destruct (usim_lookup _ _ _ _ _ Hs Hi) as (pt0 & H0 & [[Hwf _] _] & _). rewrite HΓ in H0. injection H0 as <-.
  destruct pt as [|c|c|c|c| | |]; try done; destruct c as [c v|c|c|c|c]; destruct Hwf as [Hp Hk]; try done;
    cbn in Hp; subst c.
  - eapply (step_lock _ _ _ _ _ _ (U_get (Call_send p v))); [event|exact Hex|arrive|done|]. intros Hm. moves HI.
  - eapply (step_lock _ _ _ _ _ _ (U_get (Call_is_closed p))); [event|exact Hex|arrive|done|]. intros Hm. moves HI.
  - eapply (step_access _ _ _ _ _ _ (U_unlock (Call_send p v))); [event|exact Hex|cbn; by rewrite Hc|arrive|by left|moves HI].
  - eapply (step_access _ _ _ _ _ _ (U_unlock (Call_is_closed p))); [event|exact Hex|cbn; by rewrite Hc|arrive|right; constructor|moves HI].
  - eapply (step_unlock _ _ _ _ _ _ (U_buffered (Call_send p v))); [event|exact Hex|done|arrive|done|moves HI].
  - eapply (step_unlock _ _ _ _ _ _ (U_done (mk_reply 0 None None))); [event|exact Hex|done|arrive|done|moves HI].
  - eapply (step_access _ _ _ _ _ _ (U_send v Sp_acquire)); [event|exact Hex|cbn; by rewrite Hq|arrive|by left|moves HI].
  - eapply (step_access _ _ _ _ _ _ (U_recv Rp_acquire)); [event|exact Hex|cbn; by rewrite Hq|arrive|by left|moves HI].
  - eapply (step_access _ _ _ _ _ _ (U_done (mk_reply 0 None None))); [event|exact Hex|cbn; by rewrite Hq|arrive|right; constructor|moves HI].
Qed.

(** The program after a sleep. *)
Lemma event_woken s Γ ch i t pt :
  usim s Γ ch → cs_threads s !! i = Some t → Γ !! i = Some pt → was_asleep pt = true →
  ∃ k, next_event s Γ ch i t pt (Lock p M_mu) k ∧ observe (k tt) = observe (prog p pt).
Proof.
  intros Hs Hi HΓ Hw. destruct (usim_lookup _ _ _ _ _ Hs Hi) as (pt0 & H0 & Ht & _).
  rewrite HΓ in H0. injection H0 as <-. assert (runs pt = true) as Hr by (by destruct pt as [| | | | |v []|[]|]).
  destruct (at_running _ _ Hr Ht) as (t0 & Hst & E).
  destruct pt as [| | | | |v []|[]|]; try done; destruct E as (k & -> & Ho);
    (eexists; split; [constructor; [done|done|done|exists (pthread_mutex_lock p M_mu;; k); split; [done|whnf_reflexivity]]|exact Ho]).
Qed.

(** Only running threads have events. *)
Lemma step_runs s Γ ch i t pt ans j s' :
  usim s Γ ch → cs_threads s !! i = Some t → Γ !! i = Some pt →
  exec_action (A_step i ans j) s = Some s' → runs pt = true.
Proof.
  intros Hs Hi HΓ. cbn. rewrite Hi. cbn.
  destruct (usim_lookup _ _ _ _ _ Hs Hi) as (pt0 & H0 & [[_ Hat] _] & _). rewrite HΓ in H0. injection H0 as <-.
  destruct pt as [| | | | |v []|[]|]; try done; [by rewrite Hat|..]; by destruct Hat as (? & -> & _).
Qed.

(** [unbuffered_chan_send]. *)
Lemma sending_step s Γ ch i t v sp ans j s' :
  usim s Γ ch → cs_threads s !! i = Some t → Γ !! i = Some (U_send v sp) →
  exec_action (A_step i ans j) s = Some s' → outcome s' (parties_of s Γ).
Proof.
  intros Hs Hi HΓ Hex. pose proof (us_inv _ _ _ Hs) as HI.
  pose proof (ui_closed _ _ HI) as Hc. pose proof (uinv_seen _ _ _ _ HI HΓ) as Hseen.
  pose proof (ui_slots _ _ HI) as [Hw0 Hr0 _ _].
  destruct sp.
  - eapply (step_lock _ _ _ _ _ _ (U_send v Sp_enter)); [event|exact Hex|arrive|done|]. intros Hm. moves HI.
  - eapply (step_lock _ _ _ _ _ _ (U_send v Sp_check)); [event|exact Hex|arrive|done|]. intros Hm. moves HI.
  - eapply (step_access _ _ _ _ _ _ (U_send v Sp_data)); [event|exact Hex|cbn; by rewrite Hc|arrive|by left|moves HI].
  - eapply (step_access _ _ _ _ _ _ (U_send v Sp_count)); [event|exact Hex|done|arrive|by left|moves HI].
  - rewrite (se_w _ _ _ Hseen eq_refl) in Hw0. cbn in Hw0.
    eapply (step_access _ _ _ _ _ _ (U_send v Sp_look)); [event|exact Hex|cbn; by rewrite Hw0|arrive|by left|moves HI].
  - destruct (counted (slot Γ ch R_mu)) eqn:Ec; cbn in Hr0.
    + eapply (step_access _ _ _ _ _ _ (U_send v Sp_signal)); [event|exact Hex|cbn; by rewrite Hr0|arrive|by left|moves HI].
    + eapply (step_access _ _ _ _ _ _ (U_send v Sp_wait)); [event|exact Hex|cbn; by rewrite Hr0|arrive|by left|moves HI].
  - eapply (step_signal _ _ _ _ _ _ (U_send v Sp_wait)); [event|exact Hex|arrive|done|done|done|].
    intros Γ' HI' HΓ' Hno. moves_awake HI' Hno.
  - eapply (step_wait _ _ _ _ _ _ (U_send v (Sp_asleep false))); [event|exact Hex|done|arrive|done|moves HI].
  - by pose proof (step_runs _ _ _ _ _ _ _ _ _ Hs Hi HΓ Hex).
  - destruct (event_woken _ _ _ _ _ _ Hs Hi HΓ eq_refl) as (k & He & Ho).
    eapply (step_lock _ _ _ _ _ _ (U_send v Sp_leave)); [exact He|exact Hex| |done|intros Hm; moves HI].
    split; [done|]. by exists (k tt).
  - eapply (step_unlock _ _ _ _ _ _ (U_send v Sp_exit)); [event|exact Hex|done|arrive|done|moves HI].
  - eapply (step_unlock _ _ _ _ _ _ (U_done ok_reply)); [event|exact Hex|done|arrive|done|moves HI].
Qed.

(** [unbuffered_chan_recv]. *)
Lemma receiving_step s Γ ch i t rp ans j s' :
  usim s Γ ch → cs_threads s !! i = Some t → Γ !! i = Some (U_recv rp) →
  exec_action (A_step i ans j) s = Some s' → outcome s' (parties_of s Γ).
Proof.
  intros Hs Hi HΓ Hex. pose proof (us_inv _ _ _ Hs) as HI.
  pose proof (ui_closed _ _ HI) as Hc. pose proof (uinv_seen _ _ _ _ HI HΓ) as Hseen.
  pose proof (ui_slots _ _ HI) as [Hw0 Hr0 Hd0 Hm0].
  destruct rp as [| | | | | | | | | | |v|v|v|v];
    try (rewrite (se_r _ _ _ Hseen eq_refl) in Hr0, Hm0; cbn in Hr0).
  - eapply (step_lock _ _ _ _ _ _ (U_recv Rp_enter)); [event|exact Hex|arrive|done|]. intros Hm. moves HI.
  - eapply (step_lock _ _ _ _ _ _ (U_recv Rp_test)); [event|exact Hex|arrive|done|]. intros Hm. moves HI.
  - destruct (offers (slot Γ ch W_mu)) eqn:Eo; cbn in Hw0.
    + eapply (step_access _ _ _ _ _ _ (U_recv Rp_check)); [event|exact Hex|cbn; by rewrite Hc, Hw0|arrive|by left|].
      moves HI.
    + eapply (step_access _ _ _ _ _ _ (U_recv Rp_count)); [event|exact Hex|cbn; by rewrite Hc, Hw0|arrive|by left|].
      moves HI.
  - eapply (step_access _ _ _ _ _ _ (U_recv Rp_wait)); [event|exact Hex|cbn; by rewrite Hr0|arrive|by left|moves HI].
  - eapply (step_wait _ _ _ _ _ _ (U_recv Rp_asleep)); [event|exact Hex|done|arrive|done|moves HI].
  - by pose proof (step_runs _ _ _ _ _ _ _ _ _ Hs Hi HΓ Hex).
  - destruct (event_woken _ _ _ _ _ _ Hs Hi HΓ eq_refl) as (k & He & Ho).
    eapply (step_lock _ _ _ _ _ _ (U_recv Rp_uncount)); [exact He|exact Hex| |done|intros Hm; moves HI].
    split; [done|]. by exists (k tt).
  - eapply (step_access _ _ _ _ _ _ (U_recv Rp_loop)); [event|exact Hex|cbn; by rewrite Hr0|arrive|by left|moves HI].
  - destruct (usim_lookup _ _ _ _ _ Hs Hi) as (pt0 & H0 & Ht & _). rewrite HΓ in H0. injection H0 as <-.
    destruct (at_running _ (U_recv Rp_loop) eq_refl Ht) as (t0 & Hst & Ho).
    assert (observe t0 = TauF (prog p (U_recv Rp_test))) as Ho' by (etransitivity; [exact Ho|whnf_reflexivity]).
    cbn in Hex. rewrite Hi in Hex. cbn in Hex. rewrite Hst, Ho' in Hex. injection Hex as <-. destruct s as [st ths].
    eapply (advance (mk_csystem st ths) _ _ _ _ _ (U_recv Rp_test)); [exact Hs|exact Hi|exact HΓ|apply Hs| |split; [done|by eexists]|by left].
    moves HI.
  - eapply (step_access _ _ _ _ _ _ (U_recv Rp_read)); [event|exact Hex|cbn; by rewrite Hc|arrive|by left|moves HI].
  - destruct Hm0 as [[v Hv] _]. rewrite Hv in Hd0.
    eapply (step_access _ _ _ _ _ _ (U_recv (Rp_take v))); [event|exact Hex|cbn; by rewrite (Hd0 v eq_refl)|arrive|by left|].
    eapply uinv_step; [exact HI|eassumption|(by apply HI)|(by apply HI)|mutexes|mutexes|].
    rewrite Hv. intros Hse [Hw Hr Hd Hm] _ _. rewrite (se_r _ _ _ Hse eq_refl) in Hr.
    constructor; [done|exact Hr|done|]. split; [done|]. by intros (? & [=]).
  - eapply step_take; [event|exact Hex|arrive].
  - eapply (step_signal _ _ _ _ _ _ (U_recv (Rp_leave v))); [event|exact Hex|arrive|done|done| |].
    { intros _ v' [] E; [done|]. rewrite E in Hm0. destruct Hm0 as [Hm0 _]. by destruct (Hm0 v'). }
    intros Γ' HI' HΓ' Hno. moves_awake HI' Hno.
  - eapply (step_unlock _ _ _ _ _ _ (U_recv (Rp_exit v))); [event|exact Hex|done|arrive|done|moves HI].
  - eapply (step_unlock _ _ _ _ _ _ (U_done (mk_reply 0 None (Some v)))); [event|exact Hex|done|arrive|done|moves HI].
Qed.

(** What a running thread does next: it returns, goes round its loop, or has an
    event, which is a lock of [next_lock] if there is one. *)
Definition next_lock (pt : upoint) : option chan_mutex :=
  match pt with
  | U_lock _ | U_send _ (Sp_enter | Sp_woken) | U_recv (Rp_enter | Rp_woken) => Some M_mu
  | U_send _ Sp_acquire => Some W_mu
  | U_recv Rp_acquire => Some R_mu
  | _ => None
  end.

Definition does (pt : upoint) (t : P reply) : Prop :=
  match observe t with
  | RetF r => pt = U_done r
  | TauF _ => pt = U_recv Rp_loop
  | @VisF _ _ _ X e _ =>
      match e with Lock c m => c = p ∧ next_lock pt = Some m | _ => next_lock pt = None end
  end.

Lemma point_does t pt :
  runs pt = true → thread_at t pt → ∃ prog0, t_status t = Running prog0 ∧ does pt prog0.
Proof.
  intros Hr Ht. destruct (at_running _ _ Hr Ht) as (t0 & Hst & Ho). exists t0. split; [done|]. clear Hst.
  destruct Ht as [[Hwf _] _]. unfold does.
  destruct pt as [|c|c|c|c|v []|[]|r]; try done; try (destruct Ho as (k & -> & _); by split);
    try (destruct c as [c v|c|c|c|c]; destruct Hwf as [Hc Hk]; try done; cbn in Hc; subst c);
    rewrite Ho; by repeat split.
Qed.

(** The call that begins. *)
Lemma starting_step s Γ ch i t c cs :
  usim s Γ ch → cs_threads s !! i = Some t → t_status t = Idle → t_calls t = c :: cs →
  outcome (set_thread i (mk_cthread cs (t_replies t) (Running (run_call c))) s) (parties_of s Γ).
Proof.
  intros Hs Hi Hst Hcalls. destruct (usim_lookup _ _ _ _ _ Hs Hi) as (pt & HΓ & [[_ Hat] Hc] & Hpar).
  pose proof (us_inv _ _ _ Hs) as HI. rewrite Hcalls in Hc. apply list.Forall_cons in Hc as [[Hp Hk] Hc].
  assert (pt = U_idle) as -> by (destruct pt as [| | | | |v []|[]|]; try done; destruct Hat as (? & E & _); congruence).
  assert (uinv (<[i := start_point c]> Γ) ch) as HI' by (destruct c; moves HI).
  destruct (usim_update s Γ ch i (mk_cthread cs (t_replies t) (Running (run_call c))) (start_point c) (cs_store s) ch
    Hs (us_chan _ _ _ Hs) HI') as [Hs' E].
  { split; [|done]. split; [by destruct c|]. destruct c; try done; by eexists. }
  exists (<[i := start_point c]> Γ), ch. split; [exact Hs'|]. right. unfold set_thread. rewrite E.
  unfold party in Hpar |- *. rewrite Hcalls in Hpar. cbn in Hpar.
  replace (point_phase p (start_point c)) with (Ph_invoked c) by (by destruct c). by eapply rs_start.
Qed.

(** The call that returns. *)
Lemma returning_step s Γ ch i t prog0 r :
  usim s Γ ch → cs_threads s !! i = Some t → t_status t = Running prog0 → observe prog0 = RetF r →
  outcome (set_thread i (mk_cthread (t_calls t) (t_replies t ++ [r]) Idle) s) (parties_of s Γ).
Proof.
  intros Hs Hi Hst Ho. destruct (usim_lookup _ _ _ _ _ Hs Hi) as (pt & HΓ & Ht & Hpar).
  pose proof (us_inv _ _ _ Hs) as HI.
  assert (pt = U_done r) as ->.
  { destruct (runs pt) eqn:Er.
    - destruct (point_does _ _ Er Ht) as (t0 & E & Hd). rewrite Hst in E. injection E as <-.
      unfold does in Hd. by rewrite Ho in Hd.
    - destruct Ht as [[_ Hat] _], pt as [| | | | |v []|[]|]; try done; [congruence|..];
        destruct Hat as (? & E & _); congruence. }
  assert (uinv (<[i := U_idle]> Γ) ch) as HI' by moves HI.
  destruct (usim_update s Γ ch i (mk_cthread (t_calls t) (t_replies t ++ [r]) Idle) U_idle (cs_store s) ch
    Hs (us_chan _ _ _ Hs) HI') as [Hs' E]; [split; [done|apply Ht]|].
  exists (<[i := U_idle]> Γ), ch. split; [exact Hs'|]. right. unfold set_thread. rewrite E. by eapply rs_return.
Qed.

(** The wakeup that goes wrong: a sender comes out of its wait on [w_cond]
    (src/chan.c, line 323) without a signal, while its value has not been taken. *)
Definition premature (act : action) (s : csystem) : Prop :=
  ∃ i t ch, act = A_wake i ∧ cs_threads s !! i = Some t ∧ sleeps_on p W_cond t = true ∧
    st_chans (cs_store s) !! p = Some ch ∧ w_waiting ch ≠ 0.

(** Any other spurious wakeup changes no party. *)
Lemma waking_step s Γ ch i s' :
  usim s Γ ch → ¬ premature (A_wake i) s → exec_action (A_wake i) s = Some s' →
  outcome s' (parties_of s Γ).
Proof.
  intros Hs Hnp. cbn. destruct (cs_threads s !! i) as [t|] eqn:Hi; [|done]. cbn.
  destruct (usim_lookup _ _ _ _ _ Hs Hi) as (pt & HΓ & Ht & _).
  destruct (t_status t) as [| |c cv m k|] eqn:Hst; try done. intros [= <-].
  pose proof (us_inv _ _ _ Hs) as HI.
  assert (sleeping_on cv pt = true) as Hsl.
  { destruct Ht as [[_ Hat] _].
    destruct pt as [| | | | |v []|[]|]; try (destruct Hat as (? & E & _); congruence); try congruence;
      destruct Hat as (? & E & _); rewrite Hst in E; by injection E as -> -> -> <-. }
  assert (cv = W_cond → ∃ v, pt = U_send v (Sp_asleep true)) as Hw.
  { intros ->. destruct pt as [| | | | |v []|[]|]; try done. exists v. destruct taken; [done|].
    exfalso. apply Hnp. exists i, t, ch. split_and!; [done|done|by rewrite (thread_sleeping _ _ W_cond Ht)|apply Hs|].
    pose proof (sleeping_slot _ _ _ _ _ HI HΓ Hsl) as Hslot. cbn in Hslot.
    by rewrite (co_w _ _ _ (ui_slots _ _ HI)), Hslot. }
  destruct (usim_wake _ _ _ _ _ _ _ Hs Hi HΓ Hsl Hw) as [Hs' E].
  exists (<[i := woken_point pt]> Γ), ch. split; [exact Hs'|]. left. exact E.
Qed.

Lemma usim_action s Γ ch act s' :
  usim s Γ ch → ¬ premature act s → exec_action act s = Some s' → outcome s' (parties_of s Γ).
Proof.
  intros Hs Hsp Hex. destruct act as [i|i ans j|i|i]; [..|by eapply waking_step].
  - cbn in Hex. destruct (cs_threads s !! i) as [t|] eqn:Hi; [|done]. cbn in Hex.
    destruct (t_status t) eqn:Hst, (t_calls t) as [|call0 cs] eqn:Hc; try done. injection Hex as <-.
    by eapply starting_step.
  - destruct (cs_threads s !! i) as [t|] eqn:Hi; [|cbn in Hex; by rewrite Hi in Hex].
    destruct (usim_lookup _ _ _ _ _ Hs Hi) as (pt & HΓ & Ht & _).
    pose proof (step_runs _ _ _ _ _ _ _ _ _ Hs Hi HΓ Hex) as Hr.
    destruct pt as [|c|c|c|c|v sp|rp|r]; [done|by eapply looking_step..|by eapply sending_step|by eapply receiving_step|].
    destruct (at_running _ _ Hr Ht) as (t0 & Hst & Ho). cbn in Hex. rewrite Hi in Hex. cbn in Hex.
    by rewrite Hst, Ho in Hex.
  - cbn in Hex. destruct (cs_threads s !! i) as [t|] eqn:Hi; [|done]. cbn in Hex.
    destruct (t_status t) as [|prog0| |] eqn:Hst; try done.
    destruct (observe prog0) as [r| |] eqn:Ho; try done. injection Hex as <-. by eapply returning_step.
Qed.


(** ** Progress *)

(** Where a thread is in a state in which no thread can go on. *)
Definition blocked (pt : upoint) : bool :=
  match pt with
  | U_idle | U_send _ (Sp_acquire | Sp_asleep false) | U_recv (Rp_acquire | Rp_asleep) => true
  | _ => false
  end.
Definition in_send (pt : upoint) : bool := match pt with U_send _ _ => true | _ => false end.
Definition in_recv (pt : upoint) : bool := match pt with U_recv _ => true | _ => false end.

Lemma stuck_lock s Γ ch i pt :
  usim s Γ ch → stuck s → Γ !! i = Some pt → runs pt = true →
  ∃ m j, next_lock pt = Some m ∧ mutex_of ch m = Some j.
Proof.
  intros Hs Hstuck HΓ Hr. destruct (usim_thread _ _ _ _ _ Hs HΓ) as (t & Hi & Ht).
  destruct (point_does _ _ Hr Ht) as (t0 & Hst & Hd).
  pose proof (stuck_running _ _ _ _ Hstuck Hi Hst) as Hlock. unfold does in Hd.
  destruct (observe t0) as [| |X e k]; [done|done|]. destruct e; try done. destruct Hd as [-> Hm].
  destruct Hlock as (ch' & j & Hch & Hj). rewrite (us_chan _ _ _ Hs) in Hch. injection Hch as <-. by exists m, j.
Qed.

Lemma stuck_free s Γ ch : usim s Γ ch → stuck s → m_mu ch = None.
Proof.
  intros Hs Hstuck. destruct (m_mu ch) as [j|] eqn:E; [|done].
  apply (ui_mutex _ _ (us_inv _ _ _ Hs) M_mu) in E as (pt & Hj & Hh).
  destruct (stuck_lock _ _ _ _ _ Hs Hstuck Hj) as (m & l & Hm & _);
    by destruct pt as [| | | | |v []|[]|].
Qed.

(** Nobody but the two that are in holds a mutex, and these sleep. *)
Lemma stuck_slot s Γ ch i pt m :
  usim s Γ ch → stuck s → Γ !! i = Some pt → holds m pt = true → blocked pt = true.
Proof.
  intros Hs Hstuck HΓ Hh. pose proof (stuck_free _ _ _ Hs Hstuck) as Hfree. pose proof (us_inv _ _ _ Hs) as HI.
  destruct (runs pt) eqn:Er.
  - destruct (stuck_lock _ _ _ _ _ Hs Hstuck HΓ Er) as (m' & j & Hm & Hj).
    assert (m' = M_mu) as -> by (by destruct m, pt as [| | | | |v []|[]|]; cbn in *; congruence).
    cbn in Hj. congruence.
  - destruct pt as [| | | | |v []|[]|]; try done. destruct taken; [|done].
    pose proof (uinv_seen _ _ _ _ HI HΓ) as Hseen. pose proof (co_meets _ _ _ (ui_slots _ _ HI)) as [_ Hm].
    destruct Hm as [msg Hr]; [exists v; by apply (se_w _ _ _ Hseen)|].
    unfold slot in Hr. destruct (mutex_of ch R_mu) as [l|]; [|done]. cbn in Hr.
    by destruct (stuck_lock _ _ _ _ _ Hs Hstuck Hr) as (m' & j & ? & _).
Qed.

Lemma stuck_blocked s Γ ch i pt :
  usim s Γ ch → stuck s → Γ !! i = Some pt →
  blocked pt = true ∧
  (in_send pt = true → ∃ v, slot Γ ch W_mu = Some (U_send v (Sp_asleep false))) ∧
  (in_recv pt = true → slot Γ ch R_mu = Some (U_recv Rp_asleep)).
Proof.
  intros Hs Hstuck HΓ. pose proof (us_inv _ _ _ Hs) as HI. pose proof (uinv_seen _ _ _ _ HI HΓ) as Hseen.
  destruct (holds W_mu pt || holds R_mu pt) eqn:Eh.
  - apply orb_true_iff in Eh as [Eh|Eh];
      (split; [by eapply stuck_slot|]); pose proof (stuck_slot _ _ _ _ _ _ Hs Hstuck HΓ Eh) as Hb.
    + rewrite (se_w _ _ _ Hseen Eh). destruct pt as [| | | | |v [| | | | | | | |[]| | |]|[]|]; try done.
      split; [by exists v|done].
    + rewrite (se_r _ _ _ Hseen Eh). by destruct pt as [| | | | |v [| | | | | | | |[]| | |]|[]|].
  - apply orb_false_iff in Eh as [Ew Er]. destruct (runs pt) eqn:Erun.
    + destruct (stuck_lock _ _ _ _ _ Hs Hstuck HΓ Erun) as (m & j & Hm & Hj).
      assert (m ≠ M_mu) as Hne by (intros ->; cbn in Hj; pose proof (stuck_free _ _ _ Hs Hstuck); congruence).
      pose proof Hj as (pt' & Hj' & Hh)%(ui_mutex _ _ HI).
      pose proof (stuck_slot _ _ _ _ _ _ Hs Hstuck Hj' Hh) as Hb.
      pose proof (slot_own _ _ _ _ _ HI Hj' Hh) as Hslot.
      destruct pt as [| | | | |v []|[]|]; try done; cbn in Hm; injection Hm as <-; rewrite ?Hslot;
        (split; [done|]); destruct pt' as [| | | | |v' [| | | | | | | |[]| | |]|[]|]; try done; by split; [eexists|].
    + by destruct pt as [| | | | |v []|[]|].
Qed.

(** No step of the specification is possible either. *)
Lemma stuck_parties s Γ ch a : usim s Γ ch → stuck s → ¬ rstep (parties_of s Γ) a.
Proof.
  intros Hs Hstuck Hstep.
  assert (∀ i th, parties_of s Γ !! i = Some th → ∃ t pt, cs_threads s !! i = Some t ∧ Γ !! i = Some pt ∧
    th = party t pt ∧ thread_at t pt) as Hpar.
  { intros i th (t & pt & -> & Ht & HΓ)%map_lookup_zip_with_Some. exists t, pt. split_and!; try done.
    destruct (usim_thread _ _ _ _ _ Hs HΓ) as (t' & Ht' & ?). congruence. }
  destruct Hstep as [i c cs rs ths Hi|i cs rs ph ph' ths Hi Hop|i j c v cs rs c' cs' rs' ths Hi Hj|i r cs rs ths Hi].
  - destruct (Hpar _ _ Hi) as (t & pt & Ht & HΓ & [= Hcs _ Hph] & [[_ Hat] _]).
    destruct (stuck_blocked _ _ _ _ _ Hs Hstuck HΓ) as (Hb & _).
    destruct pt as [| | | | |w [| | | | | | | |[]| | |]|[]|]; try done.
    destruct (Hstuck (A_start i) (set_thread i (mk_cthread cs (t_replies t) (Running (run_call c))) s)); [|done].
    cbn. rewrite Ht. cbn. by rewrite Hat, <- Hcs.
  - destruct (Hpar _ _ Hi) as (t & pt & Ht & HΓ & [= _ _ Hph] & _).
    destruct (stuck_blocked _ _ _ _ _ Hs Hstuck HΓ) as (Hb & _). rewrite Hph in Hop.
    by destruct pt as [| | | | |w [| | | | | | | |[]| | |]|[]|]; inversion Hop.
  - destruct (Hpar _ _ Hi) as (t & pt & Ht & HΓ & [= _ _ Hph] & _), (Hpar _ _ Hj) as (t' & pt' & Ht' & HΓ' & [= _ _ Hph'] & _).
    destruct (stuck_blocked _ _ _ _ _ Hs Hstuck HΓ) as (Hb & Hsnd & _).
    destruct (stuck_blocked _ _ _ _ _ Hs Hstuck HΓ') as (Hb' & _ & Hrcv).
    assert (in_send pt = true) as [w Hw]%Hsnd by (by destruct pt as [| | | | |w [| | | | | | | |[]| | |]|[]|]).
    assert (in_recv pt' = true) as Hr%Hrcv by (by destruct pt' as [| | | | |w' [| | | | | | | |[]| | |]|[]|]).
    pose proof (co_meets _ _ _ (ui_slots _ _ (us_inv _ _ _ Hs))) as [Hm _]. rewrite Hw, Hr in Hm.
    by destruct (Hm w).
  - destruct (Hpar _ _ Hi) as (t & pt & Ht & HΓ & [= _ _ Hph] & _).
    destruct (stuck_blocked _ _ _ _ _ Hs Hstuck HΓ) as (Hb & _).
    by destruct pt as [| | | | |w [| | | | | | | |[]| | |]|[]|].
Qed.

End simulation.

(** ** What an unbuffered channel promises *)

(** The states reached without a premature wakeup of a sender at [p]; receivers, and
    senders whose value has been taken, may wake up spuriously. *)
Inductive ureach (p : addr) (s0 : csystem) : csystem → Prop :=
  | ureach_start : ureach p s0 s0
  | ureach_step act s s' :
      ureach p s0 s → ¬ premature p act s → exec_action act s = Some s' → ureach p s0 s'.

(** The store holds at [p] the channel [chan_init] makes for the capacity 0. *)
Definition fresh_unbuffered (p : addr) (st : store_t) : Prop :=
  st_chans st !! p = Some (mk_chan None None None None None 0 0 0).

Section unbuffered.
Context (p : addr) (st : store_t) (calls : gmap nat (list call)).
Context (Hfresh : fresh_unbuffered p st).
Context (Hcalls : map_Forall (fun _ cs => Forall (keeps_open p) cs) calls).

Lemma usim_start :
  usim p (start_system st calls) ((fun _ => U_idle) <$> calls) (mk_chan None None None None None 0 0 0) ∧
  parties_of p (start_system st calls) ((fun _ => U_idle) <$> calls) = start_parties calls.
Proof using All.
  split; [constructor; [done| |]|].
  - constructor; [done|done| |]; [|by constructor; try done; split; [|intros (? & [=])]].
    intros m i. split; [by destruct m|]. intros (pt & (? & <- & _)%lookup_fmap_Some & ?). done.
  - intros i. cbn. rewrite !lookup_fmap. destruct (calls !! i) as [cs|] eqn:E; [|done]. cbn.
    split; [done|]. by apply (Hcalls i).
  - apply map_eq. intros i. unfold parties_of, start_parties. cbn. rewrite map_lookup_zip_with, !lookup_fmap.
    by destruct (calls !! i).
Qed.

Lemma usim_reach s :
  ureach p (start_system st calls) s →
  ∃ Γ ch, usim p s Γ ch ∧ rtc rstep (start_parties calls) (parties_of p s Γ).
Proof using All.
  induction 1 as [|act s s' _ (Γ & ch & Hs & Ha) Hsp Hex].
  - destruct usim_start as [Hs E]. do 2 eexists. split; [exact Hs|]. by rewrite E.
  - destruct (usim_action _ _ _ _ _ _ Hs Hsp Hex) as (Γ' & ch' & Hs' & Hstep). exists Γ', ch'. split; [done|].
    destruct Hstep as [->|Hstep]; [done|by eapply rtc_r].
Qed.

Lemma usim_agree s Γ ch : usim p s Γ ch → threads_agree s (parties_of p s Γ).
Proof using All.
  intros Hs i t Hi. destruct (usim_lookup _ _ _ _ _ _ Hs Hi) as (pt & _ & [[_ Hat] _] & Hpar). split.
  - intros E. rewrite E in Hat. destruct pt as [| | | | |v []|[]|]; try done; by destruct Hat as (? & ? & _).
  - by exists (point_phase p pt).
Qed.

(** C20: an unbuffered channel is synchronous communication, as long as nobody closes
    it and [pthread_cond_wait] at src/chan.c, line 323, does not return by itself to
    a sender whose value has not been taken.  Whatever threads send, receive and look
    at it, in every interleaving of their accesses, lock operations and signals, with
    any other spurious wakeup: the replies are those of a system in which one send and
    one receive happen together, in one atomic step, and the receive returns the value
    of the send; no thread executes undefined behaviour.  The second condition cannot
    be dropped: see [spurious_wakeup_loses_value]. *)
Theorem unbuffered_refines_rendezvous s :
  ureach p (start_system st calls) s →
  ∃ a, rtc rstep (start_parties calls) a ∧ threads_agree s a.
Proof using All.
  intros Hr. destruct (usim_reach s Hr) as (Γ & ch & Hs & Ha).
  exists (parties_of p s Γ). split; [done|by eapply usim_agree].
Qed.

(** C21: under the same two conditions -- nobody closes the channel, no sender whose
    value has not been taken wakes up spuriously at src/chan.c, line 323 -- it adds no
    deadlock.  When no thread can go on but by a spurious wakeup, the same calls have
    come to a state of the synchronous system in which no step is possible either: not
    both a send and a receive are left, and no call waits to begin or to return. *)
Theorem unbuffered_no_lost_wakeup s :
  ureach p (start_system st calls) s → stuck s →
  ∃ a, rtc rstep (start_parties calls) a ∧ threads_agree s a ∧ ∀ a', ¬ rstep a a'.
Proof using All.
  intros Hr Hstuck. destruct (usim_reach s Hr) as (Γ & ch & Hs & Ha).
  exists (parties_of p s Γ). split_and!; [done|by eapply usim_agree|]. intros a'. by eapply stuck_parties.
Qed.

End unbuffered.

(** ** Executions *)

Lemma ureach_drive p order s0 s : ureach p s0 s → ureach p s0 (drive order s).
Proof.
  revert s. induction order as [|i order IH]; intros s Hs; [done|]. cbn [drive fold_left]. apply IH.
  assert (Forall (fun act => ∀ k, act ≠ A_wake k) (try_actions i)) as Hns
    by (repeat (apply list.Forall_cons_2; [done|]); apply list.Forall_nil_2).
  revert Hns. generalize (try_actions i). intros acts. induction 1 as [|act acts Hact _ IHa]; [done|]. cbn.
  destruct (exec_action act s) eqn:E; [|done]. refine (ureach_step _ _ _ _ _ Hs _ E).
  intros (k & ? & ? & Ek & _). by destruct (Hact k).
Qed.

(** A spurious wakeup of thread [i]. *)
Definition wake_up (i : nat) (s : csystem) : csystem := default s (exec_action (A_wake i) s).

Lemma ureach_wake p i s0 s :
  ureach p s0 s → (∀ t, cs_threads s !! i = Some t → sleeps_on p W_cond t = false) →
  ureach p s0 (wake_up i s).
Proof.
  intros Hs Hi. unfold wake_up. destruct (exec_action (A_wake i) s) eqn:E; [|done].
  refine (ureach_step _ _ _ _ _ Hs _ E). intros (k & t & ch & [= <-] & Ht & Hsl & _).
  rewrite (Hi t Ht) in Hsl. done.
Qed.

(** A thread that sends two values, and one that receives two. *)
Definition two_threads (cs0 cs1 : list call) : gmap nat (list call) := {[0%nat := cs0; 1%nat := cs1]}.
Definition two_values (a b : voidp) : gmap nat (list call) :=
  two_threads [Call_send 1 a; Call_send 1 b] [Call_recv 1; Call_recv 1].
Definition two_start (a b : voidp) : csystem := start_system unbuffered_store (two_values a b).

Lemma two_threads_open cs0 cs1 :
  Forall (keeps_open 1) cs0 → Forall (keeps_open 1) cs1 →
  map_Forall (fun _ cs => Forall (keeps_open 1) cs) (two_threads cs0 cs1).
Proof.
  intros H0 H1 i cs Hi. unfold two_threads in Hi.
  by apply lookup_insert_Some in Hi as [[<- <-]|[_ [<- <-]%lookup_singleton_Some]].
Qed.

(** The receiver sleeps, wakes up for nothing, and sleeps again before the sender comes. *)
Definition receiver_woken (a b : voidp) : csystem :=
  drive (replicate 30 1%nat) (wake_up 1 (drive (replicate 30 1%nat) (two_start a b))).

Lemma receiver_woken_ureach a b : ureach 1 (two_start a b) (receiver_woken a b).
Proof.
  apply ureach_drive, ureach_wake; [apply ureach_drive, ureach_start|].
  intros t. assert (option_map (sleeps_on 1 W_cond)
    (cs_threads (drive (replicate 30 1%nat) (two_start a b)) !! 1%nat) = Some false) as E by (vm_compute; reflexivity).
  destruct (cs_threads _ !! _); [|done]. intros [= <-]. by injection E as ->.
Qed.

Lemma unbuffered_refines_rendezvous_witness :
  let s := drive (alternating 60) (receiver_woken (Some 7%positive) (Some 8%positive)) in
  replies_of s 0 = [ok_reply; ok_reply] ∧
  rp_value <$> replies_of s 1 = [Some (Some 7%positive); Some (Some 8%positive)] ∧
  ∃ a, rtc rstep (start_parties (two_values (Some 7%positive) (Some 8%positive))) a ∧ threads_agree s a.
Proof.
  intros s. split_and!; [vm_compute; reflexivity|vm_compute; reflexivity|].
  apply (unbuffered_refines_rendezvous 1 unbuffered_store (two_values (Some 7%positive) (Some 8%positive)));
    [done|apply two_threads_open; by repeat constructor|apply ureach_drive, receiver_woken_ureach].
Defined.

(** A thread that sends two values, and one that receives one. *)
Definition one_left (a b : voidp) : gmap nat (list call) :=
  two_threads [Call_send 1 a; Call_send 1 b] [Call_recv 1].

Lemma unbuffered_no_lost_wakeup_witness :
  let s := drive (alternating 60) (start_system unbuffered_store (one_left None None)) in
  stuck s ∧ replies_of s 0 = [ok_reply] ∧
  ∃ a, rtc rstep (start_parties (one_left None None)) a ∧ threads_agree s a ∧ ∀ a', ¬ rstep a a'.
Proof.
  intros s. assert (stuck s) as Hs.
  { apply quiet_stuck, (bool_decide_unpack _). vm_compute. exact I. }
  split_and!; [exact Hs|vm_compute; reflexivity|].
  apply (unbuffered_no_lost_wakeup 1 unbuffered_store (one_left None None));
    [done|apply two_threads_open; by repeat constructor|apply ureach_drive, ureach_start|exact Hs].
Defined.

Lemma creach_wake i s0 s : creach s0 s → creach s0 (wake_up i s).
Proof.
  intros Hs. unfold wake_up. destruct (exec_action (A_wake i) s) eqn:E; [exact (creach_step _ _ _ _ Hs E)|done].
Qed.

(** A spurious wakeup is mistaken for the signal of a receiver: both sends succeed,
    the first value is never received, and the second one is received twice. *)
Theorem spurious_wakeup_loses_value a b :
  ∃ s, creach (two_start a b) s ∧ replies_of s 0 = [ok_reply; ok_reply] ∧
    rp_value <$> replies_of s 1 = [Some b; Some b].
Proof.
  exists (drive (replicate 60 0%nat ++ alternating 60) (wake_up 0 (drive (replicate 30 0%nat) (two_start a b)))).
  split; [apply creach_drive, creach_wake, creach_drive, creach_start|]. by split; vm_compute.
Qed.
