(* ===== verification/RbTree.v ===== *)
(** * Red-black trees: src/rb_tree.c and include/rb_tree.h

    An intrusive tree: the nodes lie inside objects of the caller, and the colour
    of a node is the lowest bit of the word that holds the address of its parent.
    The functions below follow the code pointer by pointer. *)

From S2P Require Import Prelude.

(** ** Nodes *)

Abbreviation addr := positive.
(** A pointer; [None] is the null pointer. *)
Abbreviation ptr := (option addr).

Record rb_node := mk_rb { rb_parent_color : Z; rb_right : ptr; rb_left : ptr }.
#[export] Instance eta_rb : Eta rb_node := fun n =>
  mk_rb (rb_parent_color n) (rb_right n) (rb_left n).

(** A node, or a [struct rb_root]. *)
Inductive cell := Cell_node (n : rb_node) | Cell_root (rb_node : ptr).

Definition RB_RED : Z := 0.
Definition RB_BLACK : Z := 1.

(** The word of a pointer: nodes are aligned to [sizeof(long)]. *)
Definition word_of (p : ptr) : Z := match p with None => 0 | Some a => 8 * Zpos a end.
(** The pointer of a word, if the word is one. *)
Definition ptr_of (w : Z) : option ptr :=
  if w =? 0 then Some None
  else if (0 <? w) && (w mod 8 =? 0) then Some (Some (Z.to_pos (w / 8))) else None.

(** The macros of the header, on words. *)
Definition parent_word (w : Z) : Z := Z.land w (Z.lnot 3).
Definition color_word (w : Z) : Z := Z.land w 1.
Definition set_red_word (w : Z) : Z := Z.land w (Z.lnot 1).
Definition set_black_word (w : Z) : Z := Z.lor w 1.
Definition set_parent_word (w : Z) (p : ptr) : Z := Z.lor (Z.land w 3) (word_of p).
Definition set_color_word (w color : Z) : Z := Z.lor (Z.land w (Z.lnot 1)) color.

(** ** Effects

    A function runs on a heap; [None] is undefined behaviour, a null or foreign
    pointer that is dereferenced, or a loop that runs out of fuel. *)

Definition heap : Type := gmap addr cell.
Definition H (A : Type) : Type := heap → option (A * heap).

#[export] Instance H_ret : MRet H := fun A a h => Some (a, h).
#[export] Instance H_bind : MBind H := fun A B f m h =>
  match m h with Some (a, h') => f a h' | None => None end.

Definition fail {A} : H A := fun _ => None.
Definition lift_H {A} (o : option A) : H A := match o with Some a => mret a | None => fail end.

Definition load_node (p : ptr) : H rb_node := fun h =>
  match p with
  | Some a => match h !! a with Some (Cell_node n) => Some (n, h) | _ => None end
  | None => None
  end.
Definition store_node (p : ptr) (n : rb_node) : H unit := fun h =>
  match p with
  | Some a => match h !! a with Some (Cell_node _) => Some (tt, <[a := Cell_node n]> h) | _ => None end
  | None => None
  end.
Definition get_root (r : addr) : H ptr := fun h =>
  match h !! r with Some (Cell_root p) => Some (p, h) | _ => None end.
Definition set_root (r : addr) (p : ptr) : H unit := fun h =>
  match h !! r with Some (Cell_root _) => Some (tt, <[r := Cell_root p]> h) | _ => None end.

Definition get_left (p : ptr) : H ptr := n ← load_node p; mret (rb_left n).
Definition get_right (p : ptr) : H ptr := n ← load_node p; mret (rb_right n).
Definition set_left (p v : ptr) : H unit := n ← load_node p; store_node p (n⟨rb_left := v⟩).
Definition set_right (p v : ptr) : H unit := n ← load_node p; store_node p (n⟨rb_right := v⟩).
Definition set_word (p : ptr) (f : Z → Z) : H unit :=
  n ← load_node p; store_node p (n⟨rb_parent_color := f (rb_parent_color n)⟩).

Definition rb_parent (p : ptr) : H ptr :=
  n ← load_node p; lift_H (ptr_of (parent_word (rb_parent_color n))).
Definition rb_color (p : ptr) : H Z := n ← load_node p; mret (color_word (rb_parent_color n)).
Definition rb_is_red (p : ptr) : H bool := c ← rb_color p; mret (c =? 0).
Definition rb_is_black (p : ptr) : H bool := c ← rb_color p; mret (negb (c =? 0)).
Definition rb_set_red (p : ptr) : H unit := set_word p set_red_word.
Definition rb_set_black (p : ptr) : H unit := set_word p set_black_word.
Definition rb_set_parent (p q : ptr) : H unit := set_word p (fun w => set_parent_word w q).
Definition rb_set_color (p : ptr) (color : Z) : H unit := set_word p (fun w => set_color_word w color).

(** [!p || rb_is_black(p)] and [p && rb_is_red(p)]. *)
Definition null_or_black (p : ptr) : H bool :=
  match p with None => mret true | Some _ => rb_is_black p end.
Definition and_red (p : ptr) : H bool :=
  match p with None => mret false | Some _ => rb_is_red p end.

Definition rb_init_node (rb : ptr) : H unit :=
  store_node rb (mk_rb 0 None None);; rb_set_parent rb rb.

(** Where a [struct rb_node **] points. *)
Inductive link := Link_left (p : ptr) | Link_right (p : ptr) | Link_root (r : addr).
Definition set_link (l : link) (v : ptr) : H unit :=
  match l with
  | Link_left p => set_left p v
  | Link_right p => set_right p v
  | Link_root r => set_root r v
  end.

Definition rb_link_node (node parent : ptr) (rb_link : link) : H unit :=
  store_node node (mk_rb (word_of parent) None None);; set_link rb_link node.

(** [if (p) rb_set_parent(p, q)]. *)
Definition set_parent_if (p q : ptr) : H unit :=
  match p with Some _ => rb_set_parent p q | None => mret tt end.

(** The child of [parent] that is [node] becomes [new]; without a parent, the root. *)
Definition replace_left (parent node new : ptr) (root : addr) : H unit :=
  match parent with
  | Some _ =>
      l ← get_left parent;
      if decide (node = l) then set_left parent new else set_right parent new
  | None => set_root root new
  end.
Definition replace_right (parent node new : ptr) (root : addr) : H unit :=
  match parent with
  | Some _ =>
      r ← get_right parent;
      if decide (node = r) then set_right parent new else set_left parent new
  | None => set_root root new
  end.

(** ** Rotations *)

Definition rb_rotate_left (node : ptr) (root : addr) : H unit :=
  right ← get_right node;
  parent ← rb_parent node;
  rl ← get_left right;
  set_right node rl;;
  set_parent_if rl node;;
  set_left right node;;
  rb_set_parent right parent;;
  replace_left parent node right root;;
  rb_set_parent node right.

Definition rb_rotate_right (node : ptr) (root : addr) : H unit :=
  left ← get_left node;
  parent ← rb_parent node;
  lr ← get_right left;
  set_left node lr;;
  set_parent_if lr node;;
  set_right left node;;
  rb_set_parent left parent;;
  replace_right parent node left root;;
  rb_set_parent node left.

(** ** Insertion *)

(** The loop of [rb_insert_color]; [fuel] bounds its iterations. *)
Fixpoint insert_loop (fuel : nat) (node : ptr) (root : addr) : H unit :=
  match fuel with
  | O => fail
  | S fuel =>
      parent ← rb_parent node;
      red ← and_red parent;
      if negb red then mret tt
      else
        gparent ← rb_parent parent;
        gl ← get_left gparent;
        if decide (parent = gl) then
          uncle ← get_right gparent;
          ured ← and_red uncle;
          if (ured : bool) then
            rb_set_black uncle;; rb_set_black parent;; rb_set_red gparent;;
            insert_loop fuel gparent root
          else
            pr ← get_right parent;
            (* [parent] and [node] are exchanged *)
            pn ← (if decide (pr = node) then rb_rotate_left parent root;; mret (node, parent)
                  else mret (parent, node));
            rb_set_black (fst pn);; rb_set_red gparent;; rb_rotate_right gparent root;;
            insert_loop fuel (snd pn) root
        else
          uncle ← get_left gparent;
          ured ← and_red uncle;
          if (ured : bool) then
            rb_set_black uncle;; rb_set_black parent;; rb_set_red gparent;;
            insert_loop fuel gparent root
          else
            pl ← get_left parent;
            pn ← (if decide (pl = node) then rb_rotate_right parent root;; mret (node, parent)
                  else mret (parent, node));
            rb_set_black (fst pn);; rb_set_red gparent;; rb_rotate_left gparent root;;
            insert_loop fuel (snd pn) root
  end.

Definition rb_insert_color (fuel : nat) (node : ptr) (root : addr) : H unit :=
  insert_loop fuel node root;;
  p ← get_root root; rb_set_black p.

(** ** Removal *)

(** A red sibling is rotated above [parent]; the result is the sibling then. *)
Definition erase_red_left (parent other : ptr) (root : addr) : H ptr :=
  red ← rb_is_red other;
  if (red : bool) then
    rb_set_black other;; rb_set_red parent;; rb_rotate_left parent root;;
    get_right parent
  else mret other.
Definition erase_red_right (parent other : ptr) (root : addr) : H ptr :=
  red ← rb_is_red other;
  if (red : bool) then
    rb_set_black other;; rb_set_red parent;; rb_rotate_right parent root;;
    get_left parent
  else mret other.

(** What follows: [loop] goes on with [parent] when the sibling has no red child. *)
Definition erase_settle_left (loop : ptr → ptr → H ptr) (parent other : ptr) (root : addr) : H ptr :=
  ol ← get_left other;
  bl ← null_or_black ol;
  orr ← get_right other;
  br ← (if (bl : bool) then null_or_black orr else mret false);
  if (br : bool) then
    rb_set_red other;;
    up ← rb_parent parent;
    loop parent up
  else
    br ← null_or_black orr;
    other ← (if (br : bool) then
               rb_set_black ol;; rb_set_red other;; rb_rotate_right other root;;
               get_right parent
             else mret other);
    c ← rb_color parent;
    rb_set_color other c;;
    rb_set_black parent;;
    orr ← get_right other;
    rb_set_black orr;;
    rb_rotate_left parent root;;
    get_root root.
Definition erase_settle_right (loop : ptr → ptr → H ptr) (parent other : ptr) (root : addr) : H ptr :=
  ol ← get_left other;
  bl ← null_or_black ol;
  orr ← get_right other;
  br ← (if (bl : bool) then null_or_black orr else mret false);
  if (br : bool) then
    rb_set_red other;;
    up ← rb_parent parent;
    loop parent up
  else
    bl ← null_or_black ol;
    other ← (if (bl : bool) then
               rb_set_black orr;; rb_set_red other;; rb_rotate_left other root;;
               get_left parent
             else mret other);
    c ← rb_color parent;
    rb_set_color other c;;
    rb_set_black parent;;
    ol ← get_left other;
    rb_set_black ol;;
    rb_rotate_right parent root;;
    get_root root.

(** The loop of [__rb_erase_color]; the result is [node] at its end. *)
Fixpoint erase_loop (fuel : nat) (root : addr) (node parent : ptr) : H ptr :=
  match fuel with
  | O => fail
  | S fuel =>
      black ← null_or_black node;
      go ← (if (black : bool) then r ← get_root root; mret (negb (bool_decide (node = r))) else mret false);
      if (go : bool) then
        pl ← get_left parent;
        if decide (pl = node) then
          other ← get_right parent;
          other ← erase_red_left parent other root;
          erase_settle_left (erase_loop fuel root) parent other root
        else
          other ← get_left parent;
          other ← erase_red_right parent other root;
          erase_settle_right (erase_loop fuel root) parent other root
      else mret node
  end.

Definition rb_erase_color (fuel : nat) (node parent : ptr) (root : addr) : H unit :=
  node ← erase_loop fuel root node parent;
  match node with Some _ => rb_set_black node | None => mret tt end.

(** [while (n->rb_left) n = n->rb_left], and to the right. *)
Fixpoint leftmost (fuel : nat) (n : ptr) : H ptr :=
  match fuel with
  | O => fail
  | S fuel => l ← get_left n; match l with Some _ => leftmost fuel l | None => mret n end
  end.
Fixpoint rightmost (fuel : nat) (n : ptr) : H ptr :=
  match fuel with
  | O => fail
  | S fuel => r ← get_right n; match r with Some _ => rightmost fuel r | None => mret n end
  end.

(** The node [old] has two children: its successor takes its place. *)
Definition erase_two (fuel : nat) (old : ptr) (root : addr) : H unit :=
  right ← get_right old;
  node ← leftmost fuel right;
  op ← rb_parent old;
  replace_left op old node root;;
  child ← get_right node;
  parent ← rb_parent node;
  color ← rb_color node;
  parent' ←
    (if decide (parent = old) then mret node
     else
       set_parent_if child parent;;
       set_left parent child;;
       oldr ← get_right old;
       set_right node oldr;;
       rb_set_parent oldr node;;
       mret parent);
  o ← load_node old;
  set_word node (fun _ => rb_parent_color o);;
  set_left node (rb_left o);;
  rb_set_parent (rb_left o) node;;
  if color =? RB_BLACK then rb_erase_color fuel child parent' root else mret tt.

(** At most one child: it takes the place of [node]. *)
Definition erase_one (fuel : nat) (node child : ptr) (root : addr) : H unit :=
  parent ← rb_parent node;
  color ← rb_color node;
  set_parent_if child parent;;
  replace_left parent node child root;;
  if color =? RB_BLACK then rb_erase_color fuel child parent root else mret tt.

Definition rb_erase (fuel : nat) (node : ptr) (root : addr) : H unit :=
  l ← get_left node;
  r ← get_right node;
  match l, r with
  | None, _ => erase_one fuel node r root
  | _, None => erase_one fuel node l root
  | _, _ => erase_two fuel node root
  end.

(** ** Walking *)

Definition rb_first (fuel : nat) (root : addr) : H ptr :=
  n ← get_root root; match n with None => mret None | Some _ => leftmost fuel n end.
Definition rb_last (fuel : nat) (root : addr) : H ptr :=
  n ← get_root root; match n with None => mret None | Some _ => rightmost fuel n end.

(** [while ((parent = rb_parent(node)) && node == parent->rb_right) node = parent]
    and its mirror image; the result is [parent]. *)
Fixpoint climb_right (fuel : nat) (node : ptr) : H ptr :=
  match fuel with
  | O => fail
  | S fuel =>
      parent ← rb_parent node;
      match parent with
      | None => mret None
      | Some _ => r ← get_right parent; if decide (node = r) then climb_right fuel parent else mret parent
      end
  end.
Fixpoint climb_left (fuel : nat) (node : ptr) : H ptr :=
  match fuel with
  | O => fail
  | S fuel =>
      parent ← rb_parent node;
      match parent with
      | None => mret None
      | Some _ => l ← get_left parent; if decide (node = l) then climb_left fuel parent else mret parent
      end
  end.

Definition rb_next (fuel : nat) (node : ptr) : H ptr :=
  parent ← rb_parent node;
  if decide (parent = node) then mret None
  else
    r ← get_right node;
    match r with Some _ => leftmost fuel r | None => climb_right fuel node end.
Definition rb_prev (fuel : nat) (node : ptr) : H ptr :=
  parent ← rb_parent node;
  if decide (parent = node) then mret None
  else
    l ← get_left node;
    match l with Some _ => rightmost fuel l | None => climb_left fuel node end.

(** ** Replacing and augmenting *)

Definition rb_replace_node (victim new : ptr) (root : addr) : H unit :=
  parent ← rb_parent victim;
  replace_left parent victim new root;;
  l ← get_left victim;
  set_parent_if l new;;
  r ← get_right victim;
  set_parent_if r new;;
  n ← load_node victim;
  store_node new n.

(** [func] is the caller's [rb_augment_f] with its [data]. *)
Fixpoint rb_augment_path (fuel : nat) (func : ptr → H unit) (node : ptr) : H unit :=
  match fuel with
  | O => fail
  | S fuel =>
      func node;;
      parent ← rb_parent node;
      match parent with
      | None => mret tt
      | Some _ =>
          l ← get_left parent;
          r ← get_right parent;
          (match (if decide (node = l) then r else None), l with
           | Some q, _ => func (Some q)
           | None, Some q => func (Some q)
           | None, None => mret tt
           end);;
          rb_augment_path fuel func parent
      end
  end.

Definition rb_augment_insert (fuel : nat) (func : ptr → H unit) (node : ptr) : H unit :=
  l ← get_left node;
  r ← get_right node;
  rb_augment_path fuel func (match l, r with Some _, _ => l | None, Some _ => r | None, None => node end).

Definition rb_augment_erase_begin (fuel : nat) (node : ptr) : H ptr :=
  l ← get_left node;
  r ← get_right node;
  match l, r with
  | None, None => rb_parent node
  | _, None => mret l
  | None, _ => mret r
  | _, _ =>
      deepest ← rb_next fuel node;
      dr ← get_right deepest;
      match dr with
      | Some _ => mret dr
      | None => p ← rb_parent deepest; if decide (p = node) then mret deepest else mret p
      end
  end.

Definition rb_augment_erase_end (fuel : nat) (func : ptr → H unit) (node : ptr) : H unit :=
  match node with Some _ => rb_augment_path fuel func node | None => mret tt end.
