(* ===== verification/RbFun.v ===== *)
(** * Red-black trees as pure functions

    The words of the nodes as a parent and a colour, and the algorithm of
    src/rb_tree.c on trees with a zipper instead of parent pointers: the reference
    the pointer code is proved equal to, with the invariants it keeps. *)

From S2P Require Import Prelude RbTree.

(** ** Words *)

Lemma word_of_nonneg p : 0 <= word_of p.
Proof. destruct p; cbn; lia. Qed.

Inductive color := Red | Black.
#[export] Instance color_eq_dec : EqDecision color.
Proof. solve_decision. Defined.
Definition color_bit (c : color) : Z := match c with Red => RB_RED | Black => RB_BLACK end.

Definition is_red (c : color) : bool := match c with Red => true | Black => false end.

(** The word of a node with this parent and colour. *)
Definition word (p : ptr) (c : color) : Z := word_of p + color_bit c.

Lemma word_mod8 p : word_of p mod 8 = 0.
Proof. destruct p; cbn [word_of]; [rewrite Z.mul_comm; apply Z.mod_mul; lia|done]. Qed.
Lemma land_lnot_ones w n : 0 <= n → Z.land w (Z.lnot (Z.ones n)) = w - w mod 2 ^ n.
Proof.
  intros Hn. rewrite <- Z.ldiff_land, Z.ldiff_ones_r, Z.shiftr_div_pow2, Z.shiftl_mul_pow2 by done.
  pose proof (Z.div_mod w (2 ^ n) ltac:(pose proof (Z.pow_pos_nonneg 2 n); lia)). lia.
Qed.
Lemma lor_disjoint a b : Z.land a b = 0 → Z.lor a b = a + b.
Proof. intros Hab. rewrite <- Z.lxor_lor by done. symmetry. by apply Z.add_nocarry_lxor. Qed.
Lemma land_small a b n : 0 <= n → a mod 2 ^ n = 0 → 0 <= b < 2 ^ n → Z.land a b = 0.
Proof.
  intros Hn Ha Hb. rewrite <- (Z.mod_small b (2 ^ n)) by done. rewrite <- Z.land_ones by done.
  rewrite (Z.land_comm b), Z.land_assoc, Z.land_ones, Ha by done. apply Z.land_0_l.
Qed.

Lemma color_bit_range c : 0 <= color_bit c < 2.
Proof. destruct c; unfold color_bit, RB_RED, RB_BLACK; lia. Qed.
Lemma ptr_of_word p : ptr_of (word_of p) = Some p.
Proof.
  unfold ptr_of. destruct p as [a|]; [|done]. rewrite word_mod8. cbn [word_of].
  zdecide_false (8 * Zpos a =? 0). zdecide_true (0 <? 8 * Zpos a). cbn.
  by rewrite Z.mul_comm, Z.div_mul by lia.
Qed.

Lemma parent_of_word p c : ptr_of (parent_word (word p c)) = Some p.
Proof.
  unfold parent_word. rewrite (land_lnot_ones _ 2) by lia. unfold word.
  pose proof (color_bit_range c). pose proof (word_mod8 p) as Hm.
  assert ((word_of p + color_bit c) mod 2 ^ 2 = color_bit c) as -> by (change (2 ^ 2) with 4; Z.div_mod_to_equations; lia).
  rewrite Z.add_simpl_r. apply ptr_of_word.
Qed.
Lemma color_of_word p c : color_word (word p c) = color_bit c.
Proof.
  unfold color_word, word. rewrite (Z.land_ones _ 1) by lia. pose proof (color_bit_range c).
  pose proof (word_mod8 p). change (2 ^ 1) with 2. Z.div_mod_to_equations. lia.
Qed.
Lemma set_red_of_word p c : set_red_word (word p c) = word p Red.
Proof.
  unfold set_red_word, word. rewrite (land_lnot_ones _ 1) by lia. pose proof (color_bit_range c).
  pose proof (word_mod8 p). change (2 ^ 1) with 2. cbn [color_bit]. change RB_RED with 0. Z.div_mod_to_equations. lia.
Qed.
Lemma set_color_of_word p c c' : set_color_word (word p c) (color_bit c') = word p c'.
Proof.
  unfold set_color_word. change (Z.land (word p c) (Z.lnot 1)) with (set_red_word (word p c)).
  rewrite set_red_of_word. unfold word. cbn [color_bit]. change RB_RED with 0. rewrite Z.add_0_r.
  apply lor_disjoint, (land_small _ _ 3); [lia|apply word_mod8|]. pose proof (color_bit_range c'). lia.
Qed.
Lemma set_black_of_word p c : set_black_word (word p c) = word p Black.
Proof.
  unfold set_black_word, word. destruct c; cbn [color_bit]; change RB_RED with 0; change RB_BLACK with 1.
  - rewrite Z.add_0_r. apply lor_disjoint, (land_small _ _ 3); [lia|apply word_mod8|lia].
  - rewrite <- (lor_disjoint (word_of p) 1), <- Z.lor_assoc, Z.lor_diag; [done|].
    apply (land_small _ _ 3); [lia|apply word_mod8|lia].
Qed.
Lemma set_parent_of_word p q c : set_parent_word (word p c) q = word q c.
Proof.
  unfold set_parent_word, word. rewrite (Z.land_ones _ 2) by lia.
  pose proof (color_bit_range c). pose proof (word_mod8 p).
  assert ((word_of p + color_bit c) mod 2 ^ 2 = color_bit c) as -> by (change (2 ^ 2) with 4; Z.div_mod_to_equations; lia).
  rewrite Z.lor_comm. apply lor_disjoint, (land_small _ _ 3); [lia|apply word_mod8|lia].
Qed.

(** ** Trees and zippers *)

Inductive tree := E | T (c : color) (l : tree) (x : addr) (r : tree).

Definition root_of (t : tree) : ptr := match t with E => None | T _ _ x _ => Some x end.
(** The empty tree counts as black. *)
Definition col (t : tree) : color := match t with E => Black | T c _ _ _ => c end.
Definition blacken (t : tree) : tree := match t with E => E | T _ l x r => T Black l x r end.
Definition is_black (t : tree) : bool := match col t with Black => true | Red => false end.

Fixpoint inorder (t : tree) : list addr :=
  match t with E => [] | T _ l x r => inorder l ++ x :: inorder r end.

(** A step up from a hole: the hole is the left or the right child of [x]. *)
Inductive frame := FL (c : color) (x : addr) (r : tree) | FR (c : color) (l : tree) (x : addr).

Definition f_color (f : frame) : color := match f with FL c _ _ | FR c _ _ => c end.
Definition f_addr (f : frame) : addr := match f with FL _ x _ | FR _ _ x => x end.
Definition parent_of (k : list frame) : ptr := match k with [] => None | f :: _ => Some (f_addr f) end.
Definition fill (f : frame) (t : tree) : tree :=
  match f with FL c x r => T c t x r | FR c l x => T c l x t end.
Fixpoint plug (k : list frame) (t : tree) : tree :=
  match k with [] => t | f :: k => plug k (fill f t) end.

(** What is in order before and after the hole. *)
Fixpoint before (k : list frame) : list addr :=
  match k with [] => [] | FL _ _ _ :: k => before k | FR _ l x :: k => before k ++ inorder l ++ [x] end.
Fixpoint beyond (k : list frame) : list addr :=
  match k with [] => [] | FL _ x r :: k => x :: inorder r ++ beyond k | FR _ _ _ :: k => beyond k end.

Lemma inorder_plug k t : inorder (plug k t) = before k ++ inorder t ++ beyond k.
Proof.
  revert t. induction k as [|[c x r|c l x] k IH]; intros t; cbn; [by rewrite app_nil_r|..];
    rewrite IH; cbn; by rewrite <- !app_assoc.
Qed.
Lemma plug_app k k' t : plug (k ++ k') t = plug k' (plug k t).
Proof. revert t. by induction k as [|f k IH]; intros t; cbn. Qed.
Lemma inorder_blacken t : inorder (blacken t) = inorder t.
Proof. by destruct t. Qed.
Lemma col_blacken t : col (blacken t) = Black.
Proof. by destruct t. Qed.
Lemma root_blacken t : root_of (blacken t) = root_of t.
Proof. by destruct t. Qed.

(** ** Insertion *)

(** [t] has a red root, which may have a red parent in [k]. *)
Fixpoint ins_fix (k : list frame) (t : tree) : tree :=
  match k with
  | f :: g :: k' =>
      match f_color f, g with
      | Black, _ => plug k t
      | Red, FL _ y u =>
          if is_black u then
            match f, t with
            | FL _ p s, _ => plug k' (T Black t p (T Red s y u))
            | FR _ s p, T _ a x b => plug k' (T Black (T Red s p a) x (T Red b y u))
            | FR _ _ _, E => plug k t
            end
          else ins_fix k' (T Red (blacken (fill f t)) y (blacken u))
      | Red, FR _ u y =>
          if is_black u then
            match f, t with
            | FR _ s p, _ => plug k' (T Black (T Red u y s) p t)
            | FL _ p s, T _ a x b => plug k' (T Black (T Red u y a) x (T Red b p s))
            | FL _ _ _, E => plug k t
            end
          else ins_fix k' (T Red (blacken u) y (blacken (fill f t)))
      end
  | _ => plug k t
  end.

Definition rb_insert (k : list frame) (x : addr) : tree := blacken (ins_fix k (T Red E x E)).

(** ** Removal *)

(** The node [x] of colour [c] has [t] on its left, a black level short, and
    [other] on its right; [up] goes on with the tree of [x]. *)
Definition er_left (up : tree → tree) (c : color) (t : tree) (x : addr) (other : tree) (k : list frame) : tree :=
  match other with
  | T _ ol o orr =>
      if is_black ol && is_black orr then up (T c t x (T Red ol o orr))
      else blacken (plug k
        (if is_black orr then
           match ol with
           | T _ a y b => T c (T Black t x a) y (T Black b o orr)
           | E => T c t x other
           end
         else T c (T Black t x ol) o (blacken orr)))
  | E => plug k (T c t x E)
  end.
Definition er_right (up : tree → tree) (c : color) (other : tree) (x : addr) (t : tree) (k : list frame) : tree :=
  match other with
  | T _ ol o orr =>
      if is_black ol && is_black orr then up (T c (T Red ol o orr) x t)
      else blacken (plug k
        (if is_black ol then
           match orr with
           | T _ a y b => T c (T Black ol o a) y (T Black b x t)
           | E => T c other x t
           end
         else T c (blacken ol) o (T Black orr x t)))
  | E => plug k (T c E x t)
  end.

(** The hole of [k] is one black level short with [t] in it. *)
Fixpoint er_fix (k : list frame) (t : tree) : tree :=
  match t with
  | T Red _ _ _ => plug k (blacken t)
  | _ =>
      match k with
      | [] => t
      | FL c x s :: k' =>
          match s with
          | T Red sl y sr =>
              let k2 := FL Black y sr :: k' in er_left (fun t2 => plug k2 (blacken t2)) Red t x sl k2
          | _ => er_left (er_fix k') c t x s k'
          end
      | FR c s x :: k' =>
          match s with
          | T Red sl y sr =>
              let k2 := FR Black sl y :: k' in er_right (fun t2 => plug k2 (blacken t2)) Red sr x t k2
          | _ => er_right (er_fix k') c s x t k'
          end
      end
  end.

(** The way to the leftmost node of [T c l x r], its colour and its right child. *)
Fixpoint min_ctx (k : list frame) (c : color) (l : tree) (x : addr) (r : tree) : list frame * color * addr * tree :=
  match l with
  | E => (k, c, x, r)
  | T c' l' x' r' => min_ctx (FL c x r :: k) c' l' x' r'
  end.

(** A node of colour [c] was taken out; [t] is what is left in the hole. *)
Definition er_done (c : color) (k : list frame) (t : tree) : tree :=
  match c with Black => er_fix k t | Red => plug k t end.

Definition rb_delete (k : list frame) (c : color) (l r : tree) : tree :=
  match l, r with
  | E, _ => er_done c k r
  | _, E => er_done c k l
  | _, T c' l' x' r' =>
      let '(k2, cs, s, rs) := min_ctx [] c' l' x' r' in
      er_done cs (k2 ++ FR c l s :: k) rs
  end.

(** ** Balance *)

Inductive rbt : tree → nat → Prop :=
  | rbt_E : rbt E 0
  | rbt_red l x r n :
      rbt l n → rbt r n → col l = Black → col r = Black → rbt (T Red l x r) n
  | rbt_black l x r n : rbt l n → rbt r n → rbt (T Black l x r) (S n).

(** A red-black tree. *)
Definition rb_tree (t : tree) : Prop := col t = Black ∧ ∃ n, rbt t n.

(** A context for a subtree of black height [n], whose root may be red if [b]. *)
Inductive rbk : list frame → bool → nat → Prop :=
  | rbk_nil n : rbk [] false n
  | rbk_lblack x s k b n : rbt s n → rbk k b (S n) → rbk (FL Black x s :: k) true n
  | rbk_lred x s k n : rbt s n → col s = Black → rbk k true n → rbk (FL Red x s :: k) false n
  | rbk_rblack x s k b n : rbt s n → rbk k b (S n) → rbk (FR Black s x :: k) true n
  | rbk_rred x s k n : rbt s n → col s = Black → rbk k true n → rbk (FR Red s x :: k) false n.

Create HintDb rb discriminated.
#[export] Hint Constructors rbt rbk : rb.
#[export] Hint Resolve col_blacken : rb.

Definition fits (t : tree) (b : bool) : Prop := col t = Black ∨ b = true.

Lemma rbk_plug k b n t : rbk k b n → rbt t n → fits t b → rb_tree (plug k t).
Proof.
  intros Hk. revert t. induction Hk; intros t Ht Hf; cbn.
  - destruct Hf; [split; eauto|done].
  - apply IHHk; [by constructor|by left].
  - destruct Hf; [|done]. apply IHHk; [by constructor|by right].
  - apply IHHk; [by constructor|by left].
  - destruct Hf; [|done]. apply IHHk; [by constructor|by right].
Qed.

Lemma rbk_unplug k t : rb_tree (plug k t) → ∃ b n, rbk k b n ∧ rbt t n ∧ fits t b.
Proof.
  revert t. induction k as [|f k IH]; intros t Ht; cbn in Ht.
  - destruct Ht as [Hc [n Hn]]. exists false, n. split_and!; [constructor|done|by left].
  - destruct (IH _ Ht) as (b & n & Hk & Hf & Hfits). destruct f as [[] x r|[] l x]; cbn in *;
      inversion Hf; subst; try (destruct Hfits as [?| ->]; [done|]);
      do 2 eexists; (split_and!; [by eauto with rb|done|by first [by right|by left]]).
Qed.

Lemma rb_tree_blacken t n : rbt t n → rb_tree (blacken t).
Proof. destruct 1; split; cbn; eauto with rb. Qed.
Lemma is_black_col t : is_black t = true ↔ col t = Black.
Proof. unfold is_black. by destruct (col t). Qed.
Lemma is_red_col t : is_black t = false ↔ col t = Red.
Proof. unfold is_black. by destruct (col t). Qed.
Ltac colors := repeat match goal with
  | H : is_black _ = true |- _ => apply is_black_col in H
  | H : is_black _ = false |- _ => apply is_red_col in H
  end.
Lemma rbt_blacken_red t n : rbt t n → col t = Red → rbt (blacken t) (S n).
Proof. destruct 1; cbn; naive_solver (eauto with rb). Qed.
Lemma rb_tree_blacken_id t : rb_tree t → rb_tree (blacken t).
Proof. intros [_ [n Hn]]. by eapply rb_tree_blacken. Qed.
Lemma rb_tree_intro t n : rbt t n → col t = Black → rb_tree t.
Proof. by split; eauto. Qed.
#[export] Hint Resolve rb_tree_intro rbt_blacken_red rb_tree_blacken rb_tree_blacken_id : rb.
Lemma rbk_plug_black k b n t : rbk k b n → rbt t n → col t = Black → rb_tree (plug k t).
Proof. intros. eapply rbk_plug; [done..|by left]. Qed.
Lemma rbk_plug_red k n t : rbk k true n → rbt t n → rb_tree (plug k t).
Proof. intros. eapply rbk_plug; [done..|by right]. Qed.
#[export] Hint Resolve rbk_plug_black rbk_plug_red : rb.

(** ** Insertion keeps the balance and adds the node where the hole is *)

Lemma ins_fix_rbt k b n l x r :
  rbk k b n → rbt l n → rbt r n → col l = Black → col r = Black →
  rb_tree (blacken (ins_fix k (T Red l x r))).
Proof.
  revert k b n l x r. fix IH 1. intros k b n l x r Hk Hl Hr Hcl Hcr.
  destruct k as [|f [|g k']].
  - eapply rb_tree_blacken. eauto with rb.
  - inversion Hk as [|? ? ? ? ? ? Hg|? ? ? ? ? ? Hg|? ? ? ? ? ? Hg|? ? ? ? ? ? Hg]; subst;
      try (inversion Hg; fail); cbn [ins_fix plug fill]; eapply rb_tree_blacken; eauto with rb.
  - destruct f as [[] p s|[] s p]; inversion Hk as [|? ? ? ? ? ? Hg|? ? ? ? ? ? Hg|? ? ? ? ? ? Hg|? ? ? ? ? ? Hg]; subst;
      try (apply rb_tree_blacken_id; eapply (rbk_plug_red (_ :: _)); [done|by auto with rb]);
      inversion Hg; subst; cbn [ins_fix f_color]; destruct (is_black _) eqn:Hu; colors;
      first [ apply rb_tree_blacken_id; eapply rbk_plug_black; [done| |done]; by auto 8 with rb
            | eapply IH; [done|..]; cbn; auto with rb; by destruct s0 ].
Qed.

(** ** Removal keeps the balance *)

(** The black height of a node of colour [c] above children of height [n]. *)
Definition slot (c : color) (n : nat) : nat := match c with Black => S n | Red => n end.
(** A tree for a hole of black height [S n]: one level short, unless its root is red. *)
Definition short (t : tree) (n : nat) : Prop :=
  (col t = Black ∧ rbt t n) ∨ (col t = Red ∧ rbt (blacken t) (S n)).
(** The colour of a node goes with its context. *)
Definition allows (c : color) (b : bool) : Prop := c = Red → b = true.

Lemma rbk_FL_inv c x s k b n : rbk (FL c x s :: k) b n →
  ∃ b', rbk k b' (slot c n) ∧ rbt s n ∧ allows c b' ∧ (c = Red → col s = Black).
Proof. inversion 1; subst; eexists; split_and!; unfold allows; by eauto. Qed.
Lemma rbk_FR_inv c x s k b n : rbk (FR c s x :: k) b n →
  ∃ b', rbk k b' (slot c n) ∧ rbt s n ∧ allows c b' ∧ (c = Red → col s = Black).
Proof. inversion 1; subst; eexists; split_and!; unfold allows; by eauto. Qed.
Lemma rbt_black_inv t n : rbt t (S n) → col t = Black → ∃ l x r, t = T Black l x r ∧ rbt l n ∧ rbt r n.
Proof. inversion 1; subst; naive_solver. Qed.
Lemma rbt_red_inv t n : rbt t n → col t = Red →
  ∃ l x r, t = T Red l x r ∧ rbt l n ∧ rbt r n ∧ col l = Black ∧ col r = Black.
Proof. inversion 1; subst; naive_solver. Qed.

Lemma rbt_node c l x r n : rbt l n → rbt r n → (c = Red → col l = Black ∧ col r = Black) → rbt (T c l x r) (slot c n).
Proof. destruct c; naive_solver (eauto with rb). Qed.
Lemma fits_node c l x r b : allows c b → fits (T c l x r) b.
Proof. intros. destruct c; [right|left]; naive_solver. Qed.
Lemma plug_node c k b n l x r :
  rbk k b (S (slot c n)) → allows c b → rbt l (S n) → rbt r (S n) →
  (c = Red → col l = Black ∧ col r = Black) → rb_tree (blacken (plug k (T c l x r))).
Proof.
  intros Hk Hb Hl Hr Hc. apply rb_tree_blacken_id. eapply rbk_plug; [done| |by apply fits_node].
  replace (S (slot c n)) with (slot c (S n)) by by destruct c. by apply rbt_node.
Qed.
Lemma short_up_left c t x ol o orr n :
  rbt t n → rbt ol n → rbt orr n → col t = Black → col ol = Black → col orr = Black →
  short (T c t x (T Red ol o orr)) (slot c n).
Proof. destruct c; [right|left]; (split; [done|]); cbn [blacken slot]; eauto with rb. Qed.
Lemma short_up_right c t x ol o orr n :
  rbt t n → rbt ol n → rbt orr n → col t = Black → col ol = Black → col orr = Black →
  short (T c (T Red ol o orr) x t) (slot c n).
Proof. destruct c; [right|left]; (split; [done|]); cbn [blacken slot]; eauto with rb. Qed.
#[export] Hint Resolve short_up_left short_up_right : rb.

Section er_step.
Context (up : tree → tree) (c : color) (t : tree) (x : addr) (k : list frame) (b : bool) (n : nat).
Hypothesis Hk : rbk k b (S (slot c n)).
Hypothesis Hb : allows c b.
Hypothesis Ht : rbt t n.
Hypothesis Hup : ∀ t2, col t2 = c → short t2 (slot c n) → rb_tree (up t2).

Lemma er_left_rbt other : col t = Black → rbt other (S n) → col other = Black → rb_tree (er_left up c t x other k).
Proof.
  intros Hct Ho Hco. destruct (rbt_black_inv _ _ Ho Hco) as (ol & o & orr & -> & Hl & Hr). cbn [er_left].
  destruct (is_black ol) eqn:El, (is_black orr) eqn:Er; cbn [andb]; colors.
  - apply Hup; auto with rb.
  - eapply plug_node; eauto with rb.
  - destruct (rbt_red_inv _ _ Hl El) as (a & y & b' & -> & Ha & Hb' & _ & _).
    eapply plug_node; eauto with rb.
  - eapply plug_node; eauto with rb.
Qed.
Lemma er_right_rbt other : col t = Black → rbt other (S n) → col other = Black → rb_tree (er_right up c other x t k).
Proof.
  intros Hct Ho Hco. destruct (rbt_black_inv _ _ Ho Hco) as (ol & o & orr & -> & Hl & Hr). cbn [er_right].
  destruct (is_black ol) eqn:El, (is_black orr) eqn:Er; cbn [andb]; colors.
  - apply Hup; auto with rb.
  - destruct (rbt_red_inv _ _ Hr Er) as (a & y & b' & -> & Ha & Hb' & _ & _).
    eapply plug_node; eauto with rb.
  - eapply plug_node; eauto with rb.
  - eapply plug_node; eauto with rb.
Qed.
End er_step.

Lemma short_red_plug k n t : rbk k true (S n) → short t n → col t = Red → rb_tree (plug k (blacken t)).
Proof. intros Hk [[]|[_ Ht]] ?; [congruence|]. eauto with rb. Qed.

Lemma er_fix_red k t : col t = Red → er_fix k t = plug k (blacken t).
Proof. destruct t as [|[]], k; done. Qed.
Lemma er_fix_left c x s k t : col t = Black →
  er_fix (FL c x s :: k) t =
    match s with
    | T Red sl y sr =>
        er_left (fun t2 => plug (FL Black y sr :: k) (blacken t2)) Red t x sl (FL Black y sr :: k)
    | _ => er_left (er_fix k) c t x s k
    end.
Proof. destruct t as [|[]]; done. Qed.
Lemma er_fix_right c x s k t : col t = Black →
  er_fix (FR c s x :: k) t =
    match s with
    | T Red sl y sr =>
        er_right (fun t2 => plug (FR Black sl y :: k) (blacken t2)) Red sr x t (FR Black sl y :: k)
    | _ => er_right (er_fix k) c s x t k
    end.
Proof. destruct t as [|[]]; done. Qed.
Lemma short_black t n : short t n → col t = Black → rbt t n.
Proof. intros [[]|[]]; congruence. Qed.
Lemma short_red t n : short t n → col t = Red → rbt (blacken t) (S n).
Proof. intros [[]|[]]; congruence. Qed.


Lemma er_fix_rbt k b n t : rbk k b (S n) → short t n → rb_tree (er_fix k t).
Proof.
  revert b n t. induction k as [|f k IH]; intros b n t Hk Ht.
  - destruct (col t) eqn:Hc; [rewrite er_fix_red by done; cbn; eauto using short_red with rb|].
    pose proof (short_black _ _ Ht Hc). by destruct t as [|[]]; cbn; eauto with rb.
  - destruct (col t) eqn:Hc.
    { rewrite er_fix_red by done. eapply rbk_plug_black; eauto using short_red with rb. }
    pose proof (short_black _ _ Ht Hc) as Htn.
    destruct f as [c x s|c s x]; [rewrite er_fix_left by done|rewrite er_fix_right by done].
    + destruct (rbk_FL_inv _ _ _ _ _ _ Hk) as (b' & Hk' & Hs & Hb & Hcs). destruct (col s) eqn:Es.
      * destruct (rbt_red_inv _ _ Hs Es) as (sl & y & sr & -> & Hsl & Hsr & Hcl & Hcr).
        destruct c; [naive_solver|]. eapply (er_left_rbt _ _ _ _ _ true n); eauto with rb; [by constructor|].
        intros t2 Hc2 Ht2. eapply (rbk_plug_black (_ :: _) true (S n)); eauto using short_red with rb.
      * assert (∀ l y r, s ≠ T Red l y r) as Hn by by intros ? ? ? ->.
        assert (rb_tree (er_left (er_fix k) c t x s k)).
        { apply (er_left_rbt _ _ _ _ _ b' n); try done; [by destruct c|]. intros t2 _ Ht2. by eapply IH; [|done]; destruct c. }
        destruct s as [|[]]; [done|by edestruct Hn|done].
    + destruct (rbk_FR_inv _ _ _ _ _ _ Hk) as (b' & Hk' & Hs & Hb & Hcs). destruct (col s) eqn:Es.
      * destruct (rbt_red_inv _ _ Hs Es) as (sl & y & sr & -> & Hsl & Hsr & Hcl & Hcr).
        destruct c; [naive_solver|]. eapply (er_right_rbt _ _ _ _ _ true n); eauto with rb; [by constructor|].
        intros t2 Hc2 Ht2. eapply (rbk_plug_black (_ :: _) true (S n)); eauto using short_red with rb.
      * assert (∀ l y r, s ≠ T Red l y r) as Hn by by intros ? ? ? ->.
        assert (rb_tree (er_right (er_fix k) c s x t k)).
        { apply (er_right_rbt _ _ _ _ _ b' n); try done; [by destruct c|]. intros t2 _ Ht2. by eapply IH; [|done]; destruct c. }
        destruct s as [|[]]; [done|by edestruct Hn|done].
Qed.

(** ** What the operations do to the nodes in order *)

Ltac flat_app := repeat progress (rewrite <- ?app_assoc; cbn [app]); done.
Ltac unplug_inorder :=
  rewrite ?inorder_blacken, ?inorder_plug; cbn [fill blacken inorder before beyond];
  rewrite ?inorder_blacken; flat_app.

Lemma ins_fix_inorder k t : inorder (ins_fix k t) = before k ++ inorder t ++ beyond k.
Proof.
  revert k t. fix IH 1. intros k t. destruct k as [|f [|g k']]; [apply (inorder_plug [])|apply (inorder_plug [_])|].
  destruct f as [[] p s|[] s p]; try apply (inorder_plug (_ :: _ :: _));
    destruct g as [c y u|c u y], (is_black u) eqn:Hu; cbn [ins_fix f_color]; rewrite Hu;
    try (destruct t as [|? a x b]; [try apply (inorder_plug (_ :: _ :: _))|]);
    rewrite ?IH; unplug_inorder.
Qed.

Lemma er_left_inorder up c t x other k :
  (∀ t2, inorder (up t2) = before k ++ inorder t2 ++ beyond k) →
  inorder (er_left up c t x other k) = before k ++ (inorder t ++ x :: inorder other) ++ beyond k.
Proof.
  intros Hup. destruct other as [|oc ol o orr]; cbn [er_left]; [unplug_inorder|].
  destruct (is_black ol), (is_black orr); cbn [andb]; rewrite ?Hup; try unplug_inorder; destruct ol; unplug_inorder.
Qed.
Lemma er_right_inorder up c t x other k :
  (∀ t2, inorder (up t2) = before k ++ inorder t2 ++ beyond k) →
  inorder (er_right up c other x t k) = before k ++ (inorder other ++ x :: inorder t) ++ beyond k.
Proof.
  intros Hup. destruct other as [|oc ol o orr]; cbn [er_right]; [unplug_inorder|].
  destruct (is_black ol), (is_black orr); cbn [andb]; rewrite ?Hup; try unplug_inorder; destruct orr; unplug_inorder.
Qed.

Lemma er_fix_inorder k t : inorder (er_fix k t) = before k ++ inorder t ++ beyond k.
Proof.
  revert t. induction k as [|f k IH]; intros t; (destruct (col t) eqn:Hc; [rewrite er_fix_red by done; unplug_inorder|]).
  - destruct t as [|[]]; cbn; by rewrite ?app_nil_r.
  - destruct f as [c x s|c s x]; [rewrite er_fix_left by done|rewrite er_fix_right by done];
      destruct s as [|[] sl y sr]; rewrite ?er_left_inorder, ?er_right_inorder; try done;
      try (intros t2; unplug_inorder); cbn [before beyond inorder]; flat_app.
Qed.

Lemma er_done_inorder c k t : inorder (er_done c k t) = before k ++ inorder t ++ beyond k.
Proof. destruct c; [apply inorder_plug|apply er_fix_inorder]. Qed.

Lemma min_ctx_plug l k c x r k2 cs s rs :
  min_ctx k c l x r = (k2, cs, s, rs) → plug k2 (T cs E s rs) = plug k (T c l x r).
Proof. revert k c x r. induction l as [|c' l' IH x' r' _]; cbn; intros k c x r Hm; [by simplify_eq|by apply IH in Hm]. Qed.

Lemma min_ctx_before l k c x r k2 cs s rs : min_ctx k c l x r = (k2, cs, s, rs) → before k2 = before k.
Proof. revert k c x r. induction l as [|c' l' IH x' r' _]; cbn; intros k c x r Hm; [by simplify_eq|by apply IH in Hm]. Qed.
Lemma before_app k k' : before (k ++ k') = before k' ++ before k.
Proof. induction k as [|[] k IH]; cbn; rewrite ?app_nil_r, ?IH; [done..|flat_app]. Qed.
Lemma beyond_app k k' : beyond (k ++ k') = beyond k ++ beyond k'.
Proof. induction k as [|[] k IH]; cbn; rewrite ?IH; [done|flat_app|done]. Qed.

Lemma rb_delete_inorder k c l r : inorder (rb_delete k c l r) = before k ++ inorder l ++ inorder r ++ beyond k.
Proof.
  destruct l as [|cl ll xl rl]; cbn [rb_delete]; [by rewrite er_done_inorder|].
  destruct r as [|cr lr xr rr]; [rewrite er_done_inorder; cbn [inorder]; flat_app|].
  destruct (min_ctx [] cr lr xr rr) as [[[k2 cs] s] rs] eqn:Hm.
  pose proof (min_ctx_before _ _ _ _ _ _ _ _ _ Hm) as Hb. apply min_ctx_plug in Hm. cbn [plug before] in *.
  rewrite er_done_inorder, <- Hm, inorder_plug, before_app, beyond_app, Hb. cbn [before beyond inorder]. flat_app.
Qed.

Lemma rb_insert_inorder k x : inorder (rb_insert k x) = before k ++ x :: beyond k.
Proof. unfold rb_insert. by rewrite inorder_blacken, ins_fix_inorder. Qed.

(** ** Insertion and removal on red-black trees *)

(** A node with at most one child can be taken out of the context [k]; [u] is its child. *)
Definition done_ok (k : list frame) (c : color) (u : tree) : Prop :=
  c = Black → ∃ b m, rbk k b (S m) ∧ short u m.

Lemma er_done_ok k b n c t x u :
  rbk k b n → rbt (T c t x u) n → t = E ∨ u = E → done_ok k c (match t with E => u | _ => t end).
Proof.
  intros Hk Ht He ->. inversion Ht; subst. exists b, n0. split; [done|].
  assert (∀ v, rbt v n0 → short v n0) as Hs; [|destruct t; auto].
  intros v Hv. destruct (col v) eqn:Hc; [right|left]; auto with rb.
Qed.
Lemma er_done_rbt k b n c t x u :
  rbk k b n → rbt (T c t x u) n → fits (T c t x u) b → t = E ∨ u = E →
  rb_tree (er_done c k (match t with E => u | _ => t end)).
Proof.
  intros Hk Ht Hf He. destruct c; cbn [er_done].
  - inversion Ht; subst. destruct Hf as [| ->]; [done|]. eapply rbk_plug_red; [done|]. by destruct t.
  - destruct (er_done_ok _ _ _ _ _ _ _ Hk Ht He eq_refl) as (b' & m & Hk' & Hs). by apply (er_fix_rbt _ _ _ _ Hk').
Qed.

Lemma rbk_rename k2 c l x y k b n : rbk (k2 ++ FR c l x :: k) b n → rbk (k2 ++ FR c l y :: k) b n.
Proof. revert b n. induction k2 as [|f k2 IH]; intros b n; cbn; inversion 1; subst; eauto with rb. Qed.

Lemma unplug_successor k c l x cr lr xr rr k2 cs s rs :
  rb_tree (plug k (T c l x (T cr lr xr rr))) → min_ctx [] cr lr xr rr = (k2, cs, s, rs) →
  ∃ b n, rbk (k2 ++ FR c l s :: k) b n ∧ rbt (T cs E s rs) n ∧ fits (T cs E s rs) b.
Proof.
  intros Ht Hm. apply min_ctx_plug in Hm. cbn [plug] in Hm.
  assert (plug k (T c l x (T cr lr xr rr)) = plug (k2 ++ FR c l x :: k) (T cs E s rs)) as Heq
    by (rewrite plug_app, Hm; done).
  rewrite Heq in Ht. apply rbk_unplug in Ht as (b & n & Hk & Hr & Hf).
  exists b, n. split_and!; [by eapply rbk_rename|done..].
Qed.

Lemma rb_delete_rbt k c l x r : rb_tree (plug k (T c l x r)) → rb_tree (rb_delete k c l r).
Proof.
  intros Ht. destruct l as [|cl ll xl rl]; [|destruct r as [|cr lr xr rr]]; cbn [rb_delete].
  - apply rbk_unplug in Ht as (b & n & Hk & Hr & Hf). by apply (er_done_rbt _ _ _ _ _ _ _ Hk Hr Hf (or_introl eq_refl)).
  - apply rbk_unplug in Ht as (b & n & Hk & Hr & Hf). by apply (er_done_rbt _ _ _ _ _ _ _ Hk Hr Hf (or_intror eq_refl)).
  - destruct (min_ctx [] cr lr xr rr) as [[[k2 cs] s] rs] eqn:Hm.
    destruct (unplug_successor _ _ _ _ _ _ _ _ _ _ _ _ Ht Hm) as (b & n & Hk & Hr & Hf).
    by apply (er_done_rbt _ _ _ _ _ _ _ Hk Hr Hf (or_introl eq_refl)).
Qed.

Lemma rb_insert_rbt k x : rb_tree (plug k E) → rb_tree (rb_insert k x).
Proof.
  intros Ht. apply rbk_unplug in Ht as (b & n & Hk & Hr & _). inversion Hr; subst.
  eapply ins_fix_rbt; eauto with rb.
Qed.

(** ** How high a red-black tree is *)

Fixpoint depth (t : tree) : nat := match t with E => 0%nat | T _ l _ r => S (depth l `max` depth r) end.
Lemma rbt_depth t n : rbt t n → (depth t <= 2 * n + match col t with Red => 1 | Black => 0 end)%nat.
Proof. induction 1; cbn in *; repeat match goal with H : col _ = _ |- _ => rewrite H in * end; try (destruct (col l), (col r)); lia. Qed.
Lemma rbt_size t n : rbt t n → (2 ^ n <= S (length (inorder t)))%nat.
Proof. induction 1; cbn in *; rewrite ?length_app; cbn; lia. Qed.
(** A red-black tree is at most twice as deep as the logarithm of its size. *)
Lemma rb_tree_depth t : rb_tree t → (depth t <= 2 * Nat.log2 (S (length (inorder t))))%nat.
Proof.
  intros [Hc [n Hn]]. pose proof (rbt_depth _ _ Hn) as Hd. rewrite Hc in Hd. pose proof (rbt_size _ _ Hn) as Hs.
  apply Nat.log2_le_mono in Hs. rewrite Nat.log2_pow2 in Hs; lia.
Qed.
Lemma depth_plug k t : (length k + depth t <= depth (plug k t))%nat.
Proof. revert t. induction k as [|[] k IH]; intros t; cbn; [lia|..]; specialize (IH (fill (FL c x r) t)) || specialize (IH (fill (FR c l x) t)); cbn in IH; lia. Qed.
Lemma min_ctx_length l k c x r k2 cs s rs :
  min_ctx k c l x r = (k2, cs, s, rs) → (length k2 <= length k + depth l)%nat.
Proof.
  revert k c x r. induction l as [|c' l' IH x' r' _]; cbn; intros k c x r Hm; [simplify_eq; lia|].
  apply IH in Hm. cbn in Hm. lia.
Qed.
(** On the way to the leftmost node every frame is a left one. *)
Definition lefts (k : list frame) : Prop := Forall (fun f => match f with FL _ _ _ => True | _ => False end) k.
Lemma min_ctx_lefts l k c x r k2 cs s rs : lefts k → min_ctx k c l x r = (k2, cs, s, rs) → lefts k2.
Proof.
  revert k c x r. induction l as [|c' l' IH x' r' _]; cbn; intros k c x r Hk Hm; [by simplify_eq|].
  eapply IH; [|done]. by constructor.
Qed.
Lemma min_ctx_app l k k' c x r k2 cs s rs :
  min_ctx k c l x r = (k2, cs, s, rs) → min_ctx (k ++ k') c l x r = (k2 ++ k', cs, s, rs).
Proof. revert k c x r. induction l as [|c' l' IH x' r' _]; cbn; intros k c x r Hm; [by simplify_eq|]. by apply (IH (_ :: _)). Qed.

(** ** Trees in a heap *)

(** The node [x] with this parent, colour and children. *)
Definition has_node (h : heap) (x : addr) (par : ptr) (c : color) (l r : ptr) : Prop :=
  h !! x = Some (Cell_node (mk_rb (word par c) r l)).
Fixpoint nodes (h : heap) (par : ptr) (t : tree) : Prop :=
  match t with
  | E => True
  | T c l x r => has_node h x par c (root_of l) (root_of r) ∧ nodes h (Some x) l ∧ nodes h (Some x) r
  end.
(** The tree [t] hangs at the root [rt]. *)
Definition holds (h : heap) (rt : addr) (t : tree) : Prop :=
  h !! rt = Some (Cell_root (root_of t)) ∧ nodes h None t ∧ NoDup (rt :: inorder t).
(** [h'] has the cells of [h] that are not in [xs]. *)
Definition keeps (xs : list addr) (h h' : heap) : Prop :=
  ∀ a v, a ∉ xs → h !! a = Some v → h' !! a = Some v.

Lemma nodes_ext h h' par t : (∀ a, a ∈ inorder t → h !! a = h' !! a) → nodes h par t → nodes h' par t.
Proof.
  revert par. induction t as [|c l IHl x r IHr]; intros par Hh; cbn; [done|]. intros (Hx & Hl & Hr).
  unfold has_node in *. split_and!.
  - rewrite <- Hh; [done|set_solver].
  - apply IHl; [|done]. intros a Ha. apply Hh. set_solver.
  - apply IHr; [|done]. intros a Ha. apply Hh. set_solver.
Qed.
