(* ===== verification/RbLogic.v ===== *)
(** * A separation logic for the red-black tree code

    Weakest preconditions for the heap functions of [RbTree], the predicates that
    say that a part of the heap holds a tree or the context of a subtree, and the
    proofs that the pointer code computes the functions of [RbFun]. *)

From iris.proofmode Require Import environments proofmode.
From iris.base_logic.lib Require Import gen_heap.
From S2P Require Import Prelude RbTree RbFun.

(** [x] holds [v], and nothing else may touch it. *)
Local Notation "x ↦ v" := (pointsto x (DfracOwn 1) v) (at level 20) : bi_scope.

Section logic.
Context `{!gen_heapGS addr cell Σ}.

(** [m] runs, and its result satisfies [Q]. *)
Definition wp {A} (m : H A) (Q : A → iProp Σ) : iProp Σ :=
  ∀ h, gen_heap_interp h ==∗ ∃ a h', ⌜m h = Some (a, h')⌝ ∗ gen_heap_interp h' ∗ Q a.

Lemma wp_ret {A} (a : A) Q : Q a -∗ wp (mret a) Q.
Proof. iIntros "HQ" (h) "Hh". iModIntro. iExists a, h. by iFrame. Qed.
Lemma wp_bind {A B} (m : H A) (f : A → H B) Q : wp m (λ a, wp (f a) Q) -∗ wp (m ≫= f) Q.
Proof.
  iIntros "Hm" (h) "Hh". iMod ("Hm" with "Hh") as (a h') "(%Hm & Hh & Hf)".
  iMod ("Hf" with "Hh") as (b h'') "(%Hf & Hh & HQ)". iModIntro. iExists b, h''. iFrame. iPureIntro.
  by rw /mbind /H_bind Hm.
Qed.
Lemma wp_mono {A} (m : H A) Q Q' : wp m Q -∗ (∀ a, Q a -∗ Q' a) -∗ wp m Q'.
Proof.
  iIntros "Hm HQ" (h) "Hh". iMod ("Hm" with "Hh") as (a h') "(%Hm & Hh & Ha)".
  iModIntro. iExists a, h'. iFrame. iSplit; [done|]. by iApply "HQ".
Qed.

(** ** Single accesses *)

Definition node_at (x : addr) (par : ptr) (c : color) (l r : ptr) : iProp Σ :=
  x ↦ Cell_node (mk_rb (word par c) r l).

(** A node that is in no tree. *)
Definition spare (x : addr) : iProp Σ := ∃ n, x ↦ Cell_node n.

Lemma wp_load_node x n Q : x ↦ Cell_node n -∗ (x ↦ Cell_node n -∗ Q n) -∗ wp (load_node (Some x)) Q.
Proof.
  iIntros "Hx HQ" (h) "Hh". iDestruct (gen_heap_valid with "Hh Hx") as %Hx.
  iModIntro. iExists n, h. iFrame. iSplit; [|by iApply "HQ"]. by rw /load_node Hx.
Qed.
Lemma wp_store_node x n m Q : x ↦ Cell_node n -∗ (x ↦ Cell_node m -∗ Q tt) -∗ wp (store_node (Some x) m) Q.
Proof.
  iIntros "Hx HQ" (h) "Hh". iDestruct (gen_heap_valid with "Hh Hx") as %Hx.
  iMod (gen_heap_update with "Hh Hx") as "[Hh Hx]".
  iModIntro. iExists tt, _. iFrame "Hh". iSplit; [|by iApply "HQ"]. by rw /store_node Hx.
Qed.
Lemma wp_get_root rt p Q : rt ↦ Cell_root p -∗ (rt ↦ Cell_root p -∗ Q p) -∗ wp (get_root rt) Q.
Proof.
  iIntros "Hx HQ" (h) "Hh". iDestruct (gen_heap_valid with "Hh Hx") as %Hx.
  iModIntro. iExists p, h. iFrame. iSplit; [|by iApply "HQ"]. by rw /get_root Hx.
Qed.
Lemma wp_set_root rt p q Q : rt ↦ Cell_root p -∗ (rt ↦ Cell_root q -∗ Q tt) -∗ wp (set_root rt q) Q.
Proof.
  iIntros "Hx HQ" (h) "Hh". iDestruct (gen_heap_valid with "Hh Hx") as %Hx.
  iMod (gen_heap_update with "Hh Hx") as "[Hh Hx]".
  iModIntro. iExists tt, _. iFrame "Hh". iSplit; [|by iApply "HQ"]. by rw /set_root Hx.
Qed.

(** Reads and writes of a node's fields. *)
Lemma wp_get_left x par c l r Q : node_at x par c l r -∗ (node_at x par c l r -∗ Q l) -∗ wp (get_left (Some x)) Q.
Proof. iIntros "Hx HQ". iApply wp_bind. iApply (wp_load_node with "Hx"). iIntros "Hx". iApply wp_ret. by iApply "HQ". Qed.
Lemma wp_get_right x par c l r Q : node_at x par c l r -∗ (node_at x par c l r -∗ Q r) -∗ wp (get_right (Some x)) Q.
Proof. iIntros "Hx HQ". iApply wp_bind. iApply (wp_load_node with "Hx"). iIntros "Hx". iApply wp_ret. by iApply "HQ". Qed.
Lemma wp_rb_color x par c l r Q : node_at x par c l r -∗ (node_at x par c l r -∗ Q (color_bit c)) -∗ wp (rb_color (Some x)) Q.
Proof.
  iIntros "Hx HQ". iApply wp_bind. iApply (wp_load_node with "Hx"). iIntros "Hx". iApply wp_ret.
  rw color_of_word. by iApply "HQ".
Qed.
Lemma wp_is_red x par c l r Q : node_at x par c l r -∗ (node_at x par c l r -∗ Q (is_red c)) -∗ wp (rb_is_red (Some x)) Q.
Proof.
  iIntros "Hx HQ". iApply wp_bind. iApply (wp_rb_color with "Hx"). iIntros "Hx". iApply wp_ret.
  iSpecialize ("HQ" with "Hx"). by destruct c.
Qed.
Lemma wp_rb_parent x par c l r Q : node_at x par c l r -∗ (node_at x par c l r -∗ Q par) -∗ wp (rb_parent (Some x)) Q.
Proof.
  iIntros "Hx HQ". iApply wp_bind. iApply (wp_load_node with "Hx"). iIntros "Hx". cbn.
  rw parent_of_word. iApply wp_ret. by iApply "HQ".
Qed.
Lemma wp_set_left x par c l r v Q : node_at x par c l r -∗ (node_at x par c v r -∗ Q tt) -∗ wp (set_left (Some x) v) Q.
Proof. iIntros "Hx HQ". iApply wp_bind. iApply (wp_load_node with "Hx"). iIntros "Hx". by iApply (wp_store_node with "Hx"). Qed.
Lemma wp_set_right x par c l r v Q : node_at x par c l r -∗ (node_at x par c l v -∗ Q tt) -∗ wp (set_right (Some x) v) Q.
Proof. iIntros "Hx HQ". iApply wp_bind. iApply (wp_load_node with "Hx"). iIntros "Hx". by iApply (wp_store_node with "Hx"). Qed.
Lemma wp_set_word x par c l r f par' c' Q :
  f (word par c) = word par' c' →
  node_at x par c l r -∗ (node_at x par' c' l r -∗ Q tt) -∗ wp (set_word (Some x) f) Q.
Proof.
  iIntros (Hf) "Hx HQ". iApply wp_bind. iApply (wp_load_node with "Hx"). iIntros "Hx".
  iApply (wp_store_node with "Hx"). cbn. rw Hf. done.
Qed.
Lemma wp_set_red x par c l r Q : node_at x par c l r -∗ (node_at x par Red l r -∗ Q tt) -∗ wp (rb_set_red (Some x)) Q.
Proof. apply wp_set_word, set_red_of_word. Qed.
Lemma wp_set_black x par c l r Q : node_at x par c l r -∗ (node_at x par Black l r -∗ Q tt) -∗ wp (rb_set_black (Some x)) Q.
Proof. apply wp_set_word, set_black_of_word. Qed.
Lemma wp_set_color x par c l r c' Q :
  node_at x par c l r -∗ (node_at x par c' l r -∗ Q tt) -∗ wp (rb_set_color (Some x) (color_bit c')) Q.
Proof. apply wp_set_word, set_color_of_word. Qed.
Lemma wp_set_parent x par c l r q Q :
  node_at x par c l r -∗ (node_at x q c l r -∗ Q tt) -∗ wp (rb_set_parent (Some x) q) Q.
Proof. apply wp_set_word, set_parent_of_word. Qed.

(** ** Trees in the heap *)

Fixpoint is_tree (par : ptr) (t : tree) : iProp Σ :=
  match t with
  | E => True
  | T c l x r => node_at x par c (root_of l) (root_of r) ∗ is_tree (Some x) l ∗ is_tree (Some x) r
  end.
(** The context of a subtree, whose hole holds the pointer [hole]. *)
Fixpoint is_ctx (rt : addr) (k : list frame) (hole : ptr) : iProp Σ :=
  match k with
  | [] => rt ↦ Cell_root hole
  | FL c x r :: k => node_at x (parent_of k) c hole (root_of r) ∗ is_tree (Some x) r ∗ is_ctx rt k (Some x)
  | FR c l x :: k => node_at x (parent_of k) c (root_of l) hole ∗ is_tree (Some x) l ∗ is_ctx rt k (Some x)
  end.
Definition whole (rt : addr) (t : tree) : iProp Σ := is_ctx rt [] (root_of t) ∗ is_tree None t.

(** The subtree [t] in its context. *)
Definition focus (rt : addr) (k : list frame) (t : tree) : iProp Σ :=
  is_ctx rt k (root_of t) ∗ is_tree (parent_of k) t.

Lemma is_plug rt k t : focus rt k t ⊣⊢ whole rt (plug k t).
Proof.
  unfold focus. revert t. induction k as [|[c x r|c l x] k IH]; intros t; cbn; [done|..];
    rw -IH; cbn; (iSplit; [iIntros "[(?&?&?) ?]"|iIntros "[? (?&?&?)]"]; iFrame).
Qed.

Lemma node_tree_ne x p0 c0 l0 r0 par t : node_at x p0 c0 l0 r0 -∗ is_tree par t -∗ ⌜root_of t ≠ Some x⌝.
Proof.
  iIntros "Hx Ht". destruct t as [|c l y r]; cbn; [done|]. iDestruct "Ht" as "[Hy _]".
  iIntros ([= ->]). by iDestruct (pointsto_ne with "Hx Hy") as %[].
Qed.
Lemma wp_set_parent_if t par q Q :
  is_tree par t -∗ (is_tree q t -∗ Q tt) -∗ wp (set_parent_if (root_of t) q) Q.
Proof.
  iIntros "Ht HQ". destruct t as [|c l x r]; cbn [root_of set_parent_if].
  - iApply wp_ret. by iApply "HQ".
  - iDestruct "Ht" as "(Hx & Hl & Hr)". iApply (wp_set_parent with "Hx"). iIntros "Hx". iApply "HQ". iFrame.
Qed.
Lemma wp_null_or_black t par Q :
  is_tree par t -∗ (is_tree par t -∗ Q (is_black t)) -∗ wp (null_or_black (root_of t)) Q.
Proof.
  iIntros "Ht HQ". destruct t as [|c l x r]; cbn [root_of null_or_black].
  - iApply wp_ret. by iApply "HQ".
  - iDestruct "Ht" as "(Hx & Hl & Hr)". iApply wp_bind. iApply (wp_rb_color with "Hx"). iIntros "Hx". iApply wp_ret.
    iSpecialize ("HQ" with "[$Hx $Hl $Hr]"). by destruct c.
Qed.
Lemma wp_and_red t par Q :
  is_tree par t -∗ (is_tree par t -∗ Q (negb (is_black t))) -∗ wp (and_red (root_of t)) Q.
Proof.
  iIntros "Ht HQ". destruct t as [|c l x r]; cbn [root_of and_red].
  - iApply wp_ret. by iApply "HQ".
  - iDestruct "Ht" as "(Hx & Hl & Hr)". iApply wp_bind. iApply (wp_rb_color with "Hx"). iIntros "Hx". iApply wp_ret.
    iSpecialize ("HQ" with "[$Hx $Hl $Hr]"). by destruct c.
Qed.
Lemma wp_replace_left rt k x par c0 l0 r0 new Q :
  node_at x par c0 l0 r0 -∗ is_ctx rt k (Some x) -∗ (node_at x par c0 l0 r0 -∗ is_ctx rt k new -∗ Q tt) -∗
  wp (replace_left (parent_of k) (Some x) new rt) Q.
Proof.
  iIntros "Hx Hk HQ". destruct k as [|[c p r|c l p] k]; cbn.
  - iApply (wp_set_root with "Hk"). by iApply "HQ".
  - iDestruct "Hk" as "(Hp & Hr & Hk)". iApply wp_bind. iApply (wp_get_left with "Hp"). iIntros "Hp".
    rw decide_True; last done. iApply (wp_set_left with "Hp"). iIntros "Hp". iApply ("HQ" with "Hx"). iFrame.
  - iDestruct "Hk" as "(Hp & Hl & Hk)". iApply wp_bind. iApply (wp_get_left with "Hp"). iIntros "Hp".
    iDestruct (node_tree_ne with "Hx Hl") as %Hne. rw decide_False; last congruence.
    iApply (wp_set_right with "Hp"). iIntros "Hp". iApply ("HQ" with "Hx"). iFrame.
Qed.
Lemma wp_replace_right rt k x par c0 l0 r0 new Q :
  node_at x par c0 l0 r0 -∗ is_ctx rt k (Some x) -∗ (node_at x par c0 l0 r0 -∗ is_ctx rt k new -∗ Q tt) -∗
  wp (replace_right (parent_of k) (Some x) new rt) Q.
Proof.
  iIntros "Hx Hk HQ". destruct k as [|[c p r|c l p] k]; cbn.
  - iApply (wp_set_root with "Hk"). by iApply "HQ".
  - iDestruct "Hk" as "(Hp & Hr & Hk)". iApply wp_bind. iApply (wp_get_right with "Hp"). iIntros "Hp".
    iDestruct (node_tree_ne with "Hx Hr") as %Hne. rw decide_False; last congruence.
    iApply (wp_set_left with "Hp"). iIntros "Hp". iApply ("HQ" with "Hx"). iFrame.
  - iDestruct "Hk" as "(Hp & Hl & Hk)". iApply wp_bind. iApply (wp_get_right with "Hp"). iIntros "Hp".
    rw decide_True; last done. iApply (wp_set_right with "Hp"). iIntros "Hp". iApply ("HQ" with "Hx"). iFrame.
Qed.
End logic.

(** One step of a function, on the nodes in the context. *)
Ltac wp1 :=
  lazymatch goal with
  | |- envs_entails _ (@wp _ _ _ (mret _) _) => iApply wp_ret
  | |- envs_entails _ (@wp _ _ _ (rb_set_black (fst _)) _) => cbn [fst]
  | |- envs_entails _ (@wp _ _ _ (if _ then _ else _) _) => progress cbn [negb is_red andb]
  | |- envs_entails _ (@wp _ _ _ (mbind _ _) _) => iApply wp_bind
  | |- envs_entails _ (@wp _ _ _ (get_left (Some ?x)) _) => iApply (wp_get_left x with "[$]"); iIntros "?"
  | |- envs_entails _ (@wp _ _ _ (get_right (Some ?x)) _) => iApply (wp_get_right x with "[$]"); iIntros "?"
  | |- envs_entails _ (@wp _ _ _ (rb_parent (Some ?x)) _) => iApply (wp_rb_parent x with "[$]"); iIntros "?"
  | |- envs_entails _ (@wp _ _ _ (rb_color (Some ?x)) _) => iApply (wp_rb_color x with "[$]"); iIntros "?"
  | |- envs_entails _ (@wp _ _ _ (rb_is_red (Some ?x)) _) => iApply (wp_is_red x with "[$]"); iIntros "?"
  | |- envs_entails _ (@wp _ _ _ (and_red (Some ?x)) _) => iApply (wp_is_red x with "[$]"); iIntros "?"
  | |- envs_entails _ (@wp _ _ _ (and_red (root_of ?t)) _) => iApply (wp_and_red t with "[$]"); iIntros "?"
  | |- envs_entails _ (@wp _ _ _ (null_or_black (root_of ?t)) _) => iApply (wp_null_or_black t with "[$]"); iIntros "?"
  | |- envs_entails _ (@wp _ _ _ (set_left (Some ?x) _) _) => iApply (wp_set_left x with "[$]"); iIntros "?"
  | |- envs_entails _ (@wp _ _ _ (set_right (Some ?x) _) _) => iApply (wp_set_right x with "[$]"); iIntros "?"
  | |- envs_entails _ (@wp _ _ _ (rb_set_red (Some ?x)) _) => iApply (wp_set_red x with "[$]"); iIntros "?"
  | |- envs_entails _ (@wp _ _ _ (rb_set_black (Some ?x)) _) => iApply (wp_set_black x with "[$]"); iIntros "?"
  | |- envs_entails _ (@wp _ _ _ (rb_set_color (Some ?x) _) _) => iApply (wp_set_color x with "[$]"); iIntros "?"
  | |- envs_entails _ (@wp _ _ _ (rb_set_parent (Some ?x) _) _) => iApply (wp_set_parent x with "[$]"); iIntros "?"
  | |- envs_entails _ (@wp _ _ _ (set_parent_if (root_of ?t) _) _) => iApply (wp_set_parent_if t with "[$]"); iIntros "?"
  end.
Ltac wps := repeat wp1.

Section rotations.
Context `{!gen_heapGS addr cell Σ}.

Lemma wp_rotate_left rt k x y c c' l b r Q :
  node_at x (parent_of k) c l (Some y) -∗ node_at y (Some x) c' (root_of b) r -∗
  is_tree (Some y) b -∗ is_ctx rt k (Some x) -∗
  (node_at y (parent_of k) c' (Some x) r -∗ node_at x (Some y) c l (root_of b) -∗
   is_tree (Some x) b -∗ is_ctx rt k (Some y) -∗ Q tt) -∗
  wp (rb_rotate_left (Some x) rt) Q.
Proof.
  iIntros "Hx Hy Hb Hk HQ". unfold rb_rotate_left. wps.
  iApply (wp_replace_left _ _ x with "[$] Hk"). iIntros "? Hk". wps. iApply ("HQ" with "[$] [$] [$] Hk").
Qed.
Lemma wp_rotate_right rt k x y c c' a b r Q :
  node_at x (parent_of k) c (Some y) r -∗ node_at y (Some x) c' a (root_of b) -∗
  is_tree (Some y) b -∗ is_ctx rt k (Some x) -∗
  (node_at y (parent_of k) c' a (Some x) -∗ node_at x (Some y) c (root_of b) r -∗
   is_tree (Some x) b -∗ is_ctx rt k (Some y) -∗ Q tt) -∗
  wp (rb_rotate_right (Some x) rt) Q.
Proof.
  iIntros "Hx Hy Hb Hk HQ". unfold rb_rotate_right. wps.
  iApply (wp_replace_right _ _ x with "[$] Hk"). iIntros "? Hk". wps. iApply ("HQ" with "[$] [$] [$] Hk").
Qed.
End rotations.
