(* ===== verification/RbInsert.v ===== *)
(** * Insertion into a red-black tree

    The loop of [rb_insert_color] computes [RbFun.ins_fix]. *)

From iris.proofmode Require Import environments proofmode.
From iris.base_logic.lib Require Import gen_heap.
From S2P Require Import Prelude RbTree RbFun RbLogic.

Section insert.
Context `{!gen_heapGS addr cell Σ}.
Implicit Types Q : unit → iProp Σ.

(** The loop stops at a node that has no parent or a black one. *)
Lemma wp_insert_stop fuel rt k t x Q :
  root_of t = Some x → match k with [] => True | f :: _ => f_color f = Black end →
  focus rt k t -∗ (whole rt (plug k t) -∗ Q tt) -∗
  wp (insert_loop (S fuel) (Some x) rt) Q.
Proof.
  iIntros (Ht Hk) "[Hk Ht] HQ". destruct t as [|c l y r]; simplify_eq/=. iDestruct "Ht" as "(Hx & Hl & Hr)". wps.
  destruct k as [|[c' p s|c' s p] k]; cbn [parent_of and_red f_addr f_color] in *; subst.
  - wps. iApply "HQ". iApply is_plug. iFrame.
  - iDestruct "Hk" as "(Hp & Hs & Hk)". wps. iApply "HQ". iApply (is_plug rt (FL _ _ _ :: k) (T c l x r)). iFrame.
  - iDestruct "Hk" as "(Hp & Hs & Hk)". wps. iApply "HQ". iApply (is_plug rt (FR _ _ _ :: k) (T c l x r)). iFrame.
Qed.

(** What the loop does from a red node [x] in the context [k]. *)
Definition loop_spec (rt : addr) (fuel : nat) : Prop := ∀ k b n l x r Q,
  rbk k b n → (length k < fuel)%nat →
  focus rt k (T Red l x r) -∗
  (whole rt (ins_fix k (T Red l x r)) -∗ Q tt) -∗ wp (insert_loop fuel (Some x) rt) Q.

Section step.
Context (rt : addr) (fuel : nat).
Hypothesis IH : loop_spec rt fuel.
Context (k : list frame) (b : bool) (n : nat).
Hypothesis Hk : rbk k b n.
Hypothesis Hfuel : (S (length k) < fuel)%nat.

(** The parent [p] is the left child of the grandparent [y]. *)
Lemma wp_insert_left f c y u l x r Q :
  f_color f = Red →
  focus rt (f :: FL c y u :: k) (T Red l x r) -∗
  (whole rt (ins_fix (f :: FL c y u :: k) (T Red l x r)) -∗ Q tt) -∗ wp (insert_loop (S fuel) (Some x) rt) Q.
Proof.
  iIntros (Hf) "[Hk Ht] HQ". destruct (is_black u) eqn:Hu.
  - destruct fuel as [|fuel']; [lia|]. remember (S fuel') as fuel1 eqn:Hfuel1.
    destruct f as [c' p s|c' s p]; cbn in Hf; subst c'; cbn [ins_fix f_color] ; rw Hu;
      cbn [is_ctx parent_of f_addr is_tree];
      iDestruct "Hk" as "(Hp & Hs & Hy & Hu & Hk)"; iDestruct "Ht" as "(Hx & Hl & Hr)"; cbn [insert_loop].
    + iDestruct (node_tree_ne with "Hx Hs") as %Hne.
      wps. rw decide_True; last done. wps. rw Hu. wps. rw decide_False; last done. wps.
      iApply (wp_rotate_right _ _ y p with "[$] [$] Hs Hk"). iIntros "??? Hk". cbn [snd]. subst fuel1.
      iApply (wp_insert_stop _ _ (FL Black p (T Red s y u) :: k) (T Red l x r) with "[-HQ] HQ"); [done..|]. cbn. iFrame.
    + wps. rw decide_True; last done. wps. rw Hu. wps. rw decide_True; last done. wps. 
      iApply (wp_rotate_left _ (FL c y u :: k) p x with "[$] [$] Hl [$]"). iIntros "??? (?&?&?)". wps.
      iApply (wp_rotate_right _ _ y x with "[$] [$] Hr [$]"). iIntros "????". cbn [snd]. subst fuel1.
      iApply (wp_insert_stop _ _ (FL Black x (T Red r y u) :: k) (T Red s p l) with "[-HQ] HQ"); [done..|]. cbn. iFrame.
  - destruct u as [|[] ul uy ur]; try done.
    destruct f as [c' p s|c' s p]; cbn in Hf; subst c'; cbn [ins_fix f_color];
      cbn [is_ctx parent_of f_addr is_tree root_of insert_loop is_black col];
      iDestruct "Hk" as "(Hp & Hs & Hy & (Huy & Hul & Hur) & Hk)"; iDestruct "Ht" as "(Hx & Hl & Hr)";
      wps; (rw decide_True; last done); wps;
      (iApply (IH _ _ _ _ _ _ _ Hk with "[-HQ] HQ"); [lia|cbn; iFrame]).
Qed.

(** The parent [p] is the right child of the grandparent [y]. *)
Lemma wp_insert_right f c y u l x r Q :
  f_color f = Red →
  focus rt (f :: FR c u y :: k) (T Red l x r) -∗
  (whole rt (ins_fix (f :: FR c u y :: k) (T Red l x r)) -∗ Q tt) -∗ wp (insert_loop (S fuel) (Some x) rt) Q.
Proof.
  iIntros (Hf) "[Hk Ht] HQ". destruct (is_black u) eqn:Hu.
  - destruct fuel as [|fuel']; [lia|]. remember (S fuel') as fuel1 eqn:Hfuel1.
    destruct f as [c' p s|c' s p]; cbn in Hf; subst c'; cbn [ins_fix f_color]; rw Hu;
      cbn [is_ctx parent_of f_addr is_tree];
      iDestruct "Hk" as "(Hp & Hs & Hy & Hu & Hk)"; iDestruct "Ht" as "(Hx & Hl & Hr)"; cbn [insert_loop];
      iDestruct (node_tree_ne with "Hp Hu") as %Hnp.
    + wps. rw decide_False; last done. wps. rw Hu. wps. rw decide_True; last done. wps.
      iApply (wp_rotate_right _ (FR c u y :: k) p x with "[$] [$] Hr [$]"). iIntros "??? (?&?&?)". wps.
      iApply (wp_rotate_left _ _ y x with "[$] [$] Hl [$]"). iIntros "????". cbn [snd]. subst fuel1.
      iApply (wp_insert_stop _ _ (FR Black (T Red u y l) x :: k) (T Red r p s) with "[-HQ] HQ"); [done..|]. cbn. iFrame.
    + iDestruct (node_tree_ne with "Hx Hs") as %Hne.
      wps. rw decide_False; last done. wps. rw Hu. wps. rw decide_False; last done. wps.
      iApply (wp_rotate_left _ _ y p with "[$] [$] Hs Hk"). iIntros "??? Hk". cbn [snd]. subst fuel1.
      iApply (wp_insert_stop _ _ (FR Black (T Red u y s) p :: k) (T Red l x r) with "[-HQ] HQ"); [done..|]. cbn. iFrame.
  - destruct u as [|[] ul uy ur]; try done.
    destruct f as [c' p s|c' s p]; cbn in Hf; subst c'; cbn [ins_fix f_color];
      cbn [is_ctx parent_of f_addr is_tree root_of insert_loop is_black col];
      iDestruct "Hk" as "(Hp & Hs & Hy & (Huy & Hul & Hur) & Hk)"; iDestruct "Ht" as "(Hx & Hl & Hr)";
      iDestruct (pointsto_ne with "Hp Huy") as %Hne;
      wps; (rw decide_False; last congruence); wps;
      (iApply (IH _ _ _ _ _ _ _ Hk with "[-HQ] HQ"); [lia|cbn; iFrame]).
Qed.
End step.

Lemma wp_insert_loop rt fuel : loop_spec rt fuel.
Proof.
  induction fuel as [|fuel IH]; intros k b n l x r Q Hk Hfuel; [lia|].
  iIntros "Hk HQ". destruct k as [|f [|g k]].
  - by iApply (wp_insert_stop with "Hk HQ").
  - iApply (wp_insert_stop with "Hk HQ"); [done|].
    inversion Hk as [| |? ? ? ? ? ? Hg| |? ? ? ? ? ? Hg]; first [done | inversion Hg].
  - destruct (f_color f) eqn:Hf; last first.
    { iApply (wp_insert_stop with "Hk"); [done..|]. destruct f as [c p s|c s p], g; cbn in Hf; subst; done. }
    cbn in Hfuel. assert (∃ b' n', rbk k b' n') as (b' & n' & Hk').
    { inversion Hk as [| |? ? ? ? ? ? Hg| |? ? ? ? ? ? Hg]; subst; try done; inversion Hg; subst; eauto. }
    destruct g as [c y u|c u y].
    + iApply (wp_insert_left with "Hk HQ"); [done|done|lia|done].
    + iApply (wp_insert_right with "Hk HQ"); [done|done|lia|done].
Qed.

(** [rb_insert_color] on the whole tree. *)
Lemma wp_rb_insert_color rt k x fuel Q :
  rb_tree (plug k E) → (length k < fuel)%nat →
  focus rt k (T Red E x E) -∗ (whole rt (rb_insert k x) -∗ Q tt) -∗ wp (rb_insert_color fuel (Some x) rt) Q.
Proof.
  iIntros (Ht Hfuel) "Hk HQ". apply rbk_unplug in Ht as (b & n & Hk & _ & _). iApply wp_bind.
  iApply (wp_insert_loop _ _ _ _ _ _ _ _ _ Hk Hfuel with "Hk"). iIntros "[Hr Ht]". unfold rb_insert.
  pose proof (ins_fix_inorder k (T Red E x E)) as Hin. 
  destruct (ins_fix k (T Red E x E)) as [|c l y r]; [by destruct (before k)|].
  iApply wp_bind. iApply (wp_get_root with "Hr"). iIntros "Hr". iDestruct "Ht" as "(?&?&?)". cbn [root_of]. wps.
  iApply "HQ". cbn. iFrame.
Qed.

(** Linking a node below its parent, in the free place of the context. *)
Definition place (rt : addr) (k : list frame) : link :=
  match k with [] => Link_root rt | FL _ p _ :: _ => Link_left (Some p) | FR _ _ p :: _ => Link_right (Some p) end.
Lemma wp_rb_link_node rt k x Q :
  spare x -∗ is_ctx rt k None -∗ (focus rt k (T Red E x E) -∗ Q tt) -∗
  wp (rb_link_node (Some x) (parent_of k) (place rt k)) Q.
Proof.
  iIntros "[%n Hx] Hk HQ". iApply wp_bind. iApply (wp_store_node with "Hx"). iIntros "Hx".
  iAssert (node_at x (parent_of k) Red None None) with "[Hx]" as "Hx"; [by rw /node_at /word Z.add_0_r|].
  destruct k as [|[c' p s|c' s p] k]; cbn [place set_link is_ctx].
  - iApply (wp_set_root with "Hk"). iIntros "Hk". iApply "HQ". cbn. iFrame. auto.
  - iDestruct "Hk" as "(Hp & Hs & Hk)". wps. iApply "HQ". cbn. iFrame. auto.
  - iDestruct "Hk" as "(Hp & Hs & Hk)". wps. iApply "HQ". cbn. iFrame. auto.
Qed.
End insert.
