(* ===== verification/RbErase.v ===== *)
(** * Removal from a red-black tree

    [__rb_erase_color] computes [RbFun.er_fix] and [rb_erase] computes
    [RbFun.rb_delete]. *)

From iris.proofmode Require Import environments proofmode.
From iris.base_logic.lib Require Import gen_heap.
From S2P Require Import Prelude RbTree RbFun RbLogic.

Section erase.
Context `{!gen_heapGS addr cell Σ}.

(** The loop ended at the subtree with the root [p]; blackened it gives [t']. *)
Definition settled (rt : addr) (t' : tree) (p : ptr) : iProp Σ :=
  ∃ k t, ⌜p = root_of t ∧ plug k (blacken t) = t'⌝ ∗ focus rt k t.

(** The loop is left with the root of the tree. *)
Lemma wp_settled_root rt k t : focus rt k t ⊢ wp (get_root rt) (settled rt (blacken (plug k t))).
Proof.
  iIntros "H". iDestruct (is_plug with "H") as "[Hr Ht]". iApply (wp_get_root with "Hr"). iIntros "Hr".
  iExists [], (plug k t). by iFrame.
Qed.

(** The pointer in [root] is not that of a subtree with a parent. *)
Lemma wp_get_root_ctx rt f k hole t par Q :
  is_ctx rt (f :: k) hole -∗ is_tree par t -∗
  (∀ r, ⌜r ≠ root_of t⌝ -∗ is_ctx rt (f :: k) hole -∗ is_tree par t -∗ Q r) -∗ wp (get_root rt) Q.
Proof.
  iIntros "Hk Ht". iInduction k as [|g k] "IH" forall (f hole Q); iIntros "HQ".
  - destruct f as [c x s|c s x]; cbn; iDestruct "Hk" as "(Hx & Hs & Hk)";
      iDestruct (node_tree_ne with "Hx Ht") as %Hne;
      iApply (wp_get_root with "Hk"); iIntros "Hk"; iApply ("HQ" with "[%] [-Ht] Ht"); [done|iFrame|done|iFrame].
  - destruct f as [c x s|c s x]; iDestruct "Hk" as "(Hx & Hs & Hk)";
      iApply ("IH" with "Hk Ht"); iIntros (r Hr) "Hk Ht"; iApply ("HQ" with "[%] [-Ht] Ht"); [done|iFrame|done|iFrame].
Qed.

Section settle.
Context (loop : ptr → ptr → H ptr) (rt : addr) (k : list frame) (c : color) (t : tree) (x : addr).

(** [loop] handles the subtree of [x] once it is a level short itself. *)
Definition loop_ok (t2 : tree) : Prop :=
  focus rt k t2 ⊢ wp (loop (Some x) (parent_of k)) (settled rt (er_fix k t2)).

Lemma wp_settle_left co ol o orr :
  (is_black ol = true → is_black orr = true → loop_ok (T c t x (T Red ol o orr))) →
  focus rt k (T c t x (T co ol o orr)) ⊢
  wp (erase_settle_left loop (Some x) (Some o) rt) (settled rt (er_left (er_fix k) c t x (T co ol o orr) k)).
Proof.
  intros Hloop. unfold focus. cbn [is_tree root_of]. iIntros "[Hk (Hx & Ht & Ho & Hol & Hor)]".
  unfold erase_settle_left. cbn [er_left]. wps.
  destruct (is_black ol) eqn:El; wps; [destruct (is_black orr) eqn:Er|]; wps.
  - iApply (Hloop with "[-]"); [done..|]. cbn. iFrame.
  - rw Er. wps. destruct orr as [|[] rl ry rr]; try done. cbn [root_of is_tree]. iDestruct select (node_at ry _ _ _ _ ∗ _)%I as "(?&?&?)". wps.
    iApply (wp_rotate_left _ _ x o with "[$] [$] [$] [$]"). iIntros "????".
    iApply wp_settled_root. cbn. iFrame.
  - destruct (is_black orr) eqn:Er; wps.
    + destruct ol as [|[] a y b]; try done. cbn [root_of is_tree].
      iDestruct select (node_at y _ _ _ _ ∗ _)%I as "(?&?&?)". wps.
      iApply (wp_rotate_right _ (FR c t x :: k) o y with "[$] [$] [$] [$]").
      cbn [is_ctx]. iIntros "??? (?&?&?)". wps.
      iApply (wp_rotate_left _ _ x y with "[$] [$] [$] [$]"). iIntros "????".
      iApply wp_settled_root. cbn. iFrame.
    + destruct orr as [|[] rl ry rr]; try done. cbn [root_of is_tree].
      iDestruct select (node_at ry _ _ _ _ ∗ _)%I as "(?&?&?)". wps.
      iApply (wp_rotate_left _ _ x o with "[$] [$] [$] [$]"). iIntros "????".
      destruct ol as [|[] a y b]; try done. iApply wp_settled_root. cbn. iFrame.
Qed.

Lemma wp_settle_right co ol o orr :
  (is_black ol = true → is_black orr = true → loop_ok (T c (T Red ol o orr) x t)) →
  focus rt k (T c (T co ol o orr) x t) ⊢
  wp (erase_settle_right loop (Some x) (Some o) rt) (settled rt (er_right (er_fix k) c (T co ol o orr) x t k)).
Proof.
  intros Hloop. unfold focus. cbn [is_tree root_of]. iIntros "[Hk (Hx & (Ho & Hol & Hor) & Ht)]".
  unfold erase_settle_right. cbn [er_right]. wps.
  destruct (is_black ol) eqn:El; wps; [destruct (is_black orr) eqn:Er|]; wps.
  - iApply (Hloop with "[-]"); [done..|]. cbn. iFrame.
  - rw El. wps. destruct orr as [|[] a y b]; try done. cbn [root_of is_tree].
    iDestruct select (node_at y _ _ _ _ ∗ _)%I as "(?&?&?)". wps.
    iApply (wp_rotate_left _ (FL c x t :: k) o y with "[$] [$] [$] [$]").
    cbn [is_ctx]. iIntros "??? (?&?&?)". wps.
    iApply (wp_rotate_right _ _ x y with "[$] [$] [$] [$]"). iIntros "????".
    iApply wp_settled_root. cbn. iFrame.
  - rw El. wps. destruct ol as [|[] rl ry rr]; try done. cbn [root_of is_tree].
    iDestruct select (node_at ry _ _ _ _ ∗ _)%I as "(?&?&?)". wps.
    iApply (wp_rotate_right _ _ x o with "[$] [$] [$] [$]"). iIntros "????".
    iApply wp_settled_root. cbn. iFrame.
Qed.
End settle.

(** The loop stops at a red node and at the root. *)
Lemma wp_erase_stop_red rt fuel k t :
  col t = Red → focus rt k t ⊢ wp (erase_loop (S fuel) rt (root_of t) (parent_of k)) (settled rt (er_fix k t)).
Proof.
  intros Ht. rw er_fix_red; last done. unfold focus. iIntros "[Hk Ht]". cbn [erase_loop]. wps.
  replace (is_black t) with false by by destruct t as [|[]]. wps. iExists k, t. by iFrame.
Qed.

Definition erase_spec (rt : addr) (fuel : nat) : Prop := ∀ k b m t,
  rbk k b (S m) → short t m → (length k < fuel)%nat →
  focus rt k t ⊢ wp (erase_loop fuel rt (root_of t) (parent_of k)) (settled rt (er_fix k t)).

Lemma er_left_red k t x s :
  er_left (λ t2, plug k (blacken t2)) Red t x s k = er_left (er_fix k) Red t x s k.
Proof. by destruct s; cbn [er_left]; rw ?er_fix_red. Qed.
Lemma er_right_red k t x s :
  er_right (λ t2, plug k (blacken t2)) Red s x t k = er_right (er_fix k) Red s x t k.
Proof. by destruct s; cbn [er_right]; rw ?er_fix_red. Qed.

Section step.
Context (rt : addr) (fuel : nat).
Hypothesis IH : erase_spec rt fuel.
Context (k : list frame) (b : bool) (m : nat) (t : tree) (c : color) (x : addr) (s : tree).
Hypothesis Hs : rbt s (S m).
Hypothesis Hk : rbk k b (slot c (S m)).
Hypothesis Hfuel : (length k < fuel)%nat.
Hypothesis Htm : rbt t m.
Hypothesis Hc : col t = Black.
Hypothesis Hcs : c = Red → col s = Black.

Lemma wp_erase_left :
  focus rt k (T c t x s) ⊢
  wp (other ← get_right (Some x); other ← erase_red_left (Some x) other rt;
      erase_settle_left (erase_loop fuel rt) (Some x) other rt) (settled rt (er_fix (FL c x s :: k) t)).
Proof.
  rw er_fix_left; last done. destruct (col s) eqn:Es.
  - destruct (rbt_red_inv _ _ Hs Es) as (sl & y & sr & -> & Hsl & Hsr & Hcl & Hcr).
    destruct (rbt_black_inv _ _ Hsl Hcl) as (ol & o & orr & -> & Hol & Hor).
    destruct c; [by specialize (Hcs eq_refl)|]. rw er_left_red.
    unfold focus. cbn [is_tree root_of]. iIntros "[Hk (Hx & Ht & Hy & Hsl & Hsr)]".
    unfold erase_red_left. wps.
    iApply (wp_rotate_left _ _ x y _ _ _ (T Black ol o orr) with "[$] [$] [$] [$]"). iIntros "????". wps. cbn [root_of].
    iApply (wp_settle_left with "[-]"); last first.
    { unfold focus. cbn. iFrame. }
    intros ??. destruct fuel as [|fuel']; [lia|]. by apply wp_erase_stop_red.
  - destruct (rbt_black_inv _ _ Hs Es) as (ol & o & orr & -> & Hol & Hor).
    unfold focus. cbn [is_tree root_of]. iIntros "[Hk (Hx & Ht & Ho & Hol & Hor)]".
    unfold erase_red_left. wps. iApply (wp_settle_left with "[-]"); last first.
    { unfold focus. cbn. iFrame. }
    intros El Er. colors. apply (IH k b (slot c m)); [by destruct c|by apply short_up_left|done].
Qed.

Lemma wp_erase_right :
  focus rt k (T c s x t) ⊢
  wp (other ← get_left (Some x); other ← erase_red_right (Some x) other rt;
      erase_settle_right (erase_loop fuel rt) (Some x) other rt) (settled rt (er_fix (FR c s x :: k) t)).
Proof.
  rw er_fix_right; last done. destruct (col s) eqn:Es.
  - destruct (rbt_red_inv _ _ Hs Es) as (sl & y & sr & -> & Hsl & Hsr & Hcl & Hcr).
    destruct (rbt_black_inv _ _ Hsr Hcr) as (ol & o & orr & -> & Hol & Hor).
    destruct c; [by specialize (Hcs eq_refl)|]. rw er_right_red.
    unfold focus. cbn [is_tree root_of]. iIntros "[Hk (Hx & (Hy & Hsl & Hsr) & Ht)]".
    unfold erase_red_right. wps.
    iApply (wp_rotate_right _ _ x y _ _ _ (T Black ol o orr) with "[$] [$] [$] [$]"). iIntros "????". wps. cbn [root_of].
    iApply (wp_settle_right with "[-]"); last first.
    { unfold focus. cbn. iFrame. }
    intros ??. destruct fuel as [|fuel']; [lia|]. by apply wp_erase_stop_red.
  - destruct (rbt_black_inv _ _ Hs Es) as (ol & o & orr & -> & Hol & Hor).
    unfold focus. cbn [is_tree root_of]. iIntros "[Hk (Hx & (Ho & Hol & Hor) & Ht)]".
    unfold erase_red_right. wps. iApply (wp_settle_right with "[-]"); last first.
    { unfold focus. cbn. iFrame. }
    intros El Er. colors. apply (IH k b (slot c m)); [by destruct c|by apply short_up_right|done].
Qed.
End step.

Lemma tree_tree_ne par par' s t : root_of s ≠ None → is_tree par s -∗ is_tree par' t -∗ ⌜root_of s ≠ root_of t⌝.
Proof.
  iIntros (Hs) "Hs Ht". destruct s as [|c l x r]; [done|]. iDestruct "Hs" as "(Hx & _)".
  iDestruct (node_tree_ne with "Hx Ht") as %Hne. by iPureIntro.
Qed.
Lemma rbt_root t n : rbt t (S n) → root_of t ≠ None.
Proof. by inversion 1. Qed.

Lemma wp_erase_loop rt fuel : erase_spec rt fuel.
Proof.
  induction fuel as [|fuel IH]; intros k b m t Hk Ht Hfuel; [lia|].
  destruct (col t) eqn:Hc; [by apply wp_erase_stop_red|].
  pose proof (short_black _ _ Ht Hc) as Htm. unfold focus. iIntros "[Hk Ht]". cbn [erase_loop]. wps.
  replace (is_black t) with true by by destruct t as [|[]]. wps.
  destruct k as [|f k].
  - iApply (wp_get_root with "Hk"). iIntros "Hk". wps. rw bool_decide_true; last done. wps.
    iExists [], t. iFrame. iPureIntro. by destruct t as [|[]].
  - iApply (wp_get_root_ctx with "Hk [$]"). iIntros (r Hr) "Hk Ht". wps. rw bool_decide_false; last done. wps.
    cbn in Hfuel. destruct f as [c x s|c s x]; cbn [is_ctx parent_of f_addr];
      iDestruct "Hk" as "(Hx & Hs & Hk)"; wps.
    + destruct (rbk_FL_inv _ _ _ _ _ _ Hk) as (b' & Hk' & Hs & Hb & Hcs). rw decide_True; last done.
      iApply (wp_erase_left _ _ IH k b' m t c x s with "[-]"); try done; [lia|]. unfold focus. cbn. iFrame.
    + destruct (rbk_FR_inv _ _ _ _ _ _ Hk) as (b' & Hk' & Hs & Hb & Hcs).
      iDestruct (tree_tree_ne with "Hs Ht") as %Hne; [by eapply rbt_root|]. rw decide_False; last done.
      iApply (wp_erase_right _ _ IH k b' m t c x s with "[-]"); try done; [lia|]. unfold focus. cbn. iFrame.
Qed.

Lemma wp_rb_erase_color rt fuel k b m t Q :
  rbk k b (S m) → short t m → (length k < fuel)%nat →
  focus rt k t -∗ (whole rt (er_fix k t) -∗ Q tt) -∗ wp (rb_erase_color fuel (root_of t) (parent_of k) rt) Q.
Proof.
  iIntros (Hk Ht Hfuel) "H HQ". iApply wp_bind.
  iApply (wp_mono with "[H]"); [by iApply (wp_erase_loop _ _ _ _ _ _ Hk Ht Hfuel with "H")|].
  iIntros (p) "(%k2 & %t2 & [-> <-] & Hk & Ht)". destruct t2 as [|c l x r]; cbn [root_of].
  - iApply wp_ret. iApply "HQ". iApply (is_plug rt k2 E). unfold focus. by iFrame.
  - iDestruct "Ht" as "(?&?&?)". wps. iApply "HQ". iApply (is_plug rt k2 (T Black l x r)). unfold focus. cbn. iFrame.
Qed.
End erase.
