(* ===== verification/RbRemove.v ===== *)
(** * [rb_erase]

    Taking a node out of the tree computes [RbFun.rb_delete]. *)

From iris.proofmode Require Import environments proofmode.
From iris.base_logic.lib Require Import gen_heap.
From S2P Require Import Prelude RbTree RbFun RbLogic RbErase.

Section remove.
Context `{!gen_heapGS addr cell Σ}.

Lemma wp_erase_done rt fuel k c u Q :
  done_ok k c u → (length k < fuel)%nat →
  focus rt k u -∗ (whole rt (er_done c k u) -∗ Q tt) -∗
  wp (if color_bit c =? RB_BLACK then rb_erase_color fuel (root_of u) (parent_of k) rt else mret tt) Q.
Proof.
  iIntros (Hok Hfuel) "H HQ". destruct c; cbn.
  - iApply wp_ret. iApply "HQ". by iApply (is_plug with "H").
  - destruct (Hok eq_refl) as (b & m & Hk & Hu). by iApply (wp_rb_erase_color _ _ _ _ _ _ _ Hk Hu Hfuel with "H HQ").
Qed.

Lemma wp_erase_one rt fuel k c x u l0 r0 Q :
  done_ok k c u → (length k < fuel)%nat →
  node_at x (parent_of k) c l0 r0 -∗ is_ctx rt k (Some x) -∗ is_tree (Some x) u -∗
  (whole rt (er_done c k u) -∗ Q tt) -∗ wp (erase_one fuel (Some x) (root_of u) rt) Q.
Proof.
  iIntros (Hok Hfuel) "Hx Hk Hu HQ". unfold erase_one. wps.
  iApply (wp_replace_left _ _ x with "[$] Hk"). iIntros "? Hk".
  iApply (wp_erase_done with "[-HQ] HQ"); [done..|]. unfold focus. iFrame.
Qed.

(** ** Segments of a context

    The frames [k] below a node [par]. *)

Definition seg_parent (par : ptr) (k : list frame) : ptr :=
  match k with [] => par | f :: _ => Some (f_addr f) end.
Fixpoint seg_top (k : list frame) (hole : ptr) : ptr :=
  match k with [] => hole | f :: k => seg_top k (Some (f_addr f)) end.
Fixpoint is_seg (par : ptr) (k : list frame) (hole : ptr) : iProp Σ :=
  match k with
  | [] => True
  | FL c x r :: k => node_at x (seg_parent par k) c hole (root_of r) ∗ is_tree (Some x) r ∗ is_seg par k (Some x)
  | FR c l x :: k => node_at x (seg_parent par k) c (root_of l) hole ∗ is_tree (Some x) l ∗ is_seg par k (Some x)
  end.

Lemma parent_of_app k k' : parent_of (k ++ k') = seg_parent (parent_of k') k.
Proof. by destruct k. Qed.
Lemma is_ctx_app rt k k' hole :
  is_ctx rt (k ++ k') hole ⊣⊢ is_seg (parent_of k') k hole ∗ is_ctx rt k' (seg_top k hole).
Proof.
  revert hole. induction k as [|[c x r|c l x] k IH]; intros hole; cbn [app is_ctx is_seg seg_top f_addr].
  - by rw left_id.
  - rw IH parent_of_app -!assoc. done.
  - rw IH parent_of_app -!assoc. done.
Qed.

Lemma wp_set_parent_seg k f hole par q Q :
  is_seg par (f :: k) hole -∗ (is_seg q (f :: k) hole -∗ Q tt) -∗ wp (rb_set_parent (seg_top (f :: k) hole) q) Q.
Proof.
  iIntros "Hk HQ". iInduction k as [|g k] "IH" forall (f hole).
  - destruct f as [c x s|c s x]; cbn [is_seg seg_top f_addr seg_parent]; iDestruct "Hk" as "(Hx & Hs & _)"; wps;
      iApply "HQ"; iFrame.
  - destruct f as [c x s|c s x]; iDestruct "Hk" as "(Hx & Hs & Hk)";
      iApply ("IH" with "Hk"); iIntros "Hk"; iApply "HQ"; iFrame.
Qed.

Lemma wp_leftmost rt fuel l k c x r k2 cs s rs Q :
  min_ctx k c l x r = (k2, cs, s, rs) → (depth l < fuel)%nat →
  focus rt k (T c l x r) -∗ (focus rt k2 (T cs E s rs) -∗ Q (Some s)) -∗ wp (leftmost fuel (Some x)) Q.
Proof.
  revert k c x r fuel. induction l as [|c' l' IH x' r' _]; intros k c x r fuel Hm Hfuel; iIntros "H HQ";
    (destruct fuel as [|fuel]; [cbn in Hfuel; lia|]); cbn [depth min_ctx leftmost] in *.
  - simplify_eq. unfold focus. cbn [root_of is_tree]. iDestruct "H" as "[Hk (Hx & _ & Hr)]". wps. iApply "HQ". by iFrame.
  - unfold focus at 2. cbn [root_of is_tree]. iDestruct "H" as "[Hk (Hx & (Hx' & Hl' & Hr') & Hr)]". wps.
    iApply (IH with "[-HQ] HQ"); [done|lia|]. unfold focus. cbn. iFrame.
Qed.

(** The parent of the hole gets a new child. *)
Lemma wp_set_left_seg par c p s k hole v Q :
  is_seg par (FL c p s :: k) hole -∗ (is_seg par (FL c p s :: k) v -∗ Q tt) -∗ wp (set_left (Some p) v) Q.
Proof. cbn [is_seg]. iIntros "(Hp & Hs & Hk) HQ". wps. iApply "HQ". iFrame. Qed.

(** The successor [s] is unlinked; [old] keeps its right subtree, if it is left. *)
Lemma wp_unlink old par c l0 k2 s cs rs Q :
  lefts k2 →
  is_seg (Some old) k2 (Some s) -∗ node_at old par c l0 (seg_top k2 (Some s)) -∗
  node_at s (seg_parent (Some old) k2) cs None (root_of rs) -∗ is_tree (Some s) rs -∗
  (∀ r', is_seg (Some s) k2 (root_of rs) -∗ node_at old par c l0 r' -∗
   node_at s (seg_parent (Some old) k2) cs None (seg_top k2 (root_of rs)) -∗
   is_tree (seg_parent (Some s) k2) rs -∗ Q (seg_parent (Some s) k2)) -∗
  wp (if decide (seg_parent (Some old) k2 = Some old) then mret (Some s)
      else
        set_parent_if (root_of rs) (seg_parent (Some old) k2);;
        set_left (seg_parent (Some old) k2) (root_of rs);;
        oldr ← get_right (Some old);
        set_right (Some s) oldr;;
        rb_set_parent oldr (Some s);;
        mret (seg_parent (Some old) k2)) Q.
Proof.
  iIntros (Hk2) "Hseg Hold Hs Hrs HQ". destruct k2 as [|[c' p u|c' u p] k2]; [| |by inversion Hk2].
  - rw decide_True; last done. wps. iApply ("HQ" with "Hseg Hold Hs Hrs").
  - cbn [seg_parent f_addr]. iAssert ⌜p ≠ old⌝%I as %Hne.
    { cbn [is_seg]. iDestruct "Hseg" as "(Hp & _)". by iDestruct (pointsto_ne with "Hp Hold") as %Hne. }
    rw decide_False; last congruence. wps.
    iApply (wp_set_left_seg with "Hseg"). iIntros "Hseg". wps.
    change (seg_top (FL c' p u :: k2) (Some s)) with (seg_top (FL c' p u :: k2) (root_of rs)).
    iApply (wp_set_parent_seg with "Hseg"). iIntros "Hseg". wps. iApply ("HQ" with "Hseg [$] [$] [$]").
Qed.

Lemma wp_erase_two rt fuel k c x l r k2 cs s rs Q :
  l ≠ E → match r with E => False | T c' l' x' r' => min_ctx [] c' l' x' r' = (k2, cs, s, rs) end →
  done_ok (k2 ++ FR c l s :: k) cs rs → (length k + depth (T c l x r) < fuel)%nat →
  focus rt k (T c l x r) -∗ (whole rt (er_done cs (k2 ++ FR c l s :: k) rs) -∗ Q tt) -∗
  wp (erase_two fuel (Some x) rt) Q.
Proof.
  iIntros (Hl Hm Hok Hfuel) "H HQ". destruct r as [|c' l' x' r']; [done|]. cbn in Hfuel.
  assert (lefts k2) as Hk2 by by eapply min_ctx_lefts; [|done]; constructor.
  pose proof (min_ctx_length _ _ _ _ _ _ _ _ _ Hm) as Hlen. cbn in Hlen.
  apply (min_ctx_app _ _ (FR c l x :: k)) in Hm. cbn [app] in Hm.
  iDestruct "H" as "[Hk (Hx & Hl & Hr)]". unfold erase_two. cbn [root_of]. wps.
  iApply (wp_leftmost _ _ _ _ _ _ _ _ _ _ _ _ Hm with "[-HQ]"); [lia|unfold focus; cbn; iFrame|].
  iIntros "[Hk (Hs & _ & Hrs)]". rw is_ctx_app. iDestruct "Hk" as "[Hseg (Hx & Hl & Hk)]".
  rw parent_of_app. cbn [root_of parent_of f_addr]. wps.
  iApply (wp_replace_left _ _ x with "[$] Hk"). iIntros "? Hk". wps.
  iApply (wp_unlink with "Hseg [$] [$] Hrs"); [done|]. iIntros (rr) "Hseg Hx Hs Hrs".
  iApply wp_bind. iApply (wp_load_node with "Hx"). iIntros "_". cbn [rb_parent_color rb_left].
  iApply wp_bind. iApply (wp_set_word s _ _ _ _ _ (parent_of k) c with "Hs"); [done|]. iIntros "Hs".
  iApply wp_bind. iApply (wp_set_left s with "Hs"). iIntros "Hs".
  iApply wp_bind. replace (rb_set_parent (root_of l) (Some s)) with (set_parent_if (root_of l) (Some s)) by by destruct l.
  wps. change (Some s) with (parent_of (FR c l s :: k)). rw -parent_of_app.
  iApply (wp_erase_done _ _ (k2 ++ FR c l s :: k) with "[-HQ] HQ"); [done|rw length_app /=; lia|].
  unfold focus. rw parent_of_app is_ctx_app. cbn. iFrame.
Qed.

Lemma wp_rb_erase rt fuel k c l x r Q :
  rb_tree (plug k (T c l x r)) → (length k + depth (T c l x r) < fuel)%nat →
  focus rt k (T c l x r) -∗ (whole rt (rb_delete k c l r) -∗ Q tt) -∗ wp (rb_erase fuel (Some x) rt) Q.
Proof.
  iIntros (Ht Hfuel) "H HQ". unfold rb_erase. iDestruct "H" as "[Hk (Hx & Hl & Hr)]". cbn [root_of]. wps.
  destruct l as [|cl ll xl rl]; [|destruct r as [|cr lr xr rr]]; cbn [root_of rb_delete].
  - apply rbk_unplug in Ht as (b & n & Hk & Hr & _).
    iApply (wp_erase_one with "[$] Hk Hr HQ"); [by apply (er_done_ok _ _ _ _ _ _ _ Hk Hr (or_introl eq_refl))|lia].
  - apply rbk_unplug in Ht as (b & n & Hk & Hr & _).
    iApply (wp_erase_one _ _ _ _ _ (T cl ll xl rl) with "[$] Hk Hl HQ");
      [by apply (er_done_ok _ _ _ _ _ _ _ Hk Hr (or_intror eq_refl))|lia].
  - destruct (min_ctx [] cr lr xr rr) as [[[k2 cs] s] rs] eqn:Hm.
    destruct (unplug_successor _ _ _ _ _ _ _ _ _ _ _ _ Ht Hm) as (b & n & Hk & Hr & _).
    iApply (wp_erase_two _ _ k c x (T cl ll xl rl) (T cr lr xr rr) with "[-HQ] HQ"); [done|done| |lia|].
    + apply (er_done_ok _ _ _ _ _ _ _ Hk Hr (or_introl eq_refl)).
    + unfold focus. cbn. iFrame.
Qed.

(** [new] takes the place of [victim]. *)
Lemma wp_rb_replace_node rt k c l x r y Q :
  focus rt k (T c l x r) -∗ spare y -∗ (whole rt (plug k (T c l y r)) -∗ Q tt) -∗
  wp (rb_replace_node (Some x) (Some y) rt) Q.
Proof.
  unfold focus. cbn [is_tree root_of]. iIntros "[Hk (Hx & Hl & Hr)] [%n Hy] HQ". unfold rb_replace_node. wps.
  iApply (wp_replace_left _ _ x with "[$] Hk"). iIntros "? Hk". wps.
  iApply (wp_load_node x with "[$]"). iIntros "_".
  iApply (wp_store_node with "Hy"). iIntros "Hy". iApply "HQ". iApply (is_plug rt k (T c l y r)).
  unfold focus. cbn. iFrame.
Qed.
End remove.
