(* ===== verification/RbAdequacy.v ===== *)
(** * From the separation logic to heaps

    A weakest precondition proved in [RbLogic] is a fact about the run of the
    function on a plain heap; the predicates of the logic are related to
    [RbFun.holds], which says of a heap that it contains a tree. *)

From iris.proofmode Require Import environments proofmode.
From iris.base_logic.lib Require Import gen_heap.
From S2P Require Import Prelude RbTree RbFun RbLogic.

Local Notation "x ↦ v" := (pointsto x (DfracOwn 1) v) (at level 20) : bi_scope.

(** ** Adequacy *)

Lemma wp_adequacy {A} (m : H A) (h : heap) (φ : A → heap → Prop) :
  (∀ Σ (G : gen_heapGS addr cell Σ),
    ([∗ map] a ↦ v ∈ h, a ↦ v) ⊢ wp m (λ x, ∀ h', gen_heap_interp h' -∗ ⌜φ x h'⌝)) →
  ∃ x h', m h = Some (x, h') ∧ φ x h'.
Proof.
  intros Hwp. apply (sbi.pure_soundness (PROP := iPropI (gen_heapΣ addr cell))).
  iAssert (|==> ⌜∃ x h', m h = Some (x, h') ∧ φ x h'⌝)%I as "H"; [|by iMod "H"].
  iMod (gen_heap_init h) as (G) "(Hh & Hm & _)".
  iMod (Hwp _ G with "Hm Hh") as (x h') "(%Hm & Hh & Hφ)".
  iDestruct ("Hφ" with "Hh") as %Hφ. iPureIntro. eauto.
Qed.

Section cells.
Context `{!gen_heapGS addr cell Σ}.

Lemma take_cell h x v : h !! x = Some v →
  ([∗ map] a ↦ v ∈ h, a ↦ v) ⊢ x ↦ v ∗ [∗ map] a ↦ v ∈ delete x h, a ↦ v.
Proof. intros Hx. by rw (big_sepM_delete _ h x). Qed.

Lemma take_tree h par t : nodes h par t → NoDup (inorder t) →
  ([∗ map] a ↦ v ∈ h, a ↦ v) ⊢
  is_tree par t ∗ ∃ h2, ⌜∀ a, a ∉ inorder t → h2 !! a = h !! a⌝ ∗ [∗ map] a ↦ v ∈ h2, a ↦ v.
Proof.
  revert h par. induction t as [|c l IHl x r IHr]; intros h par; cbn.
  { iIntros (_ _) "H". iSplit; [done|]. iExists h. by iFrame. }
  iIntros ((Hx & Hl & Hr) [Hdl [Hlr [Hxr Hdr]%list.NoDup_cons]]%list.NoDup_app) "H".
  rw (take_cell _ _ _ Hx). iDestruct "H" as "[$ H]".
  rw (IHl (delete x h) (Some x)); [|eapply nodes_ext; [|done]|done].
  2: { intros a Ha. rw lookup_delete_ne; [done|set_solver]. }
  iDestruct "H" as "[$ (%h2 & %Hh2 & H)]".
  rw (IHr h2 (Some x)); [|eapply nodes_ext; [|done]|done].
  2: { intros a Ha. rw Hh2; [|set_solver]. rw lookup_delete_ne; [done|set_solver]. }
  iDestruct "H" as "[$ (%h3 & %Hh3 & H)]". iExists h3. iFrame. iPureIntro. intros a Ha.
  rw Hh3; [|set_solver]. rw Hh2; [|set_solver]. rw lookup_delete_ne; [done|set_solver].
Qed.

Lemma take_spares h xs : (∀ x, x ∈ xs → ∃ n, h !! x = Some (Cell_node n)) → NoDup xs →
  ([∗ map] a ↦ v ∈ h, a ↦ v) ⊢
  ([∗ list] x ∈ xs, spare x) ∗ ∃ h2, ⌜∀ a, a ∉ xs → h2 !! a = h !! a⌝ ∗ [∗ map] a ↦ v ∈ h2, a ↦ v.
Proof.
  revert h. induction xs as [|x xs IH]; intros h; cbn.
  { iIntros (_ _) "H". iSplit; [done|]. iExists h. by iFrame. }
  iIntros (Hxs [Hx Hnd]%list.NoDup_cons) "H". destruct (Hxs x) as [n Hn]; [set_solver|].
  rw (take_cell _ _ _ Hn). iDestruct "H" as "[Hx H]". rw (IH (delete x h)); [|by intros y Hy; rw lookup_delete_ne; set_solver|done].
  iDestruct "H" as "[$ (%h2 & %Hh2 & H)]". iSplitL "Hx"; [by iExists n|]. iExists h2. iFrame. iPureIntro.
  intros a Ha. rw Hh2; [|set_solver]. rw lookup_delete_ne; [done|set_solver].
Qed.

Lemma read_tree h par t : gen_heap_interp h -∗ is_tree par t -∗ ⌜nodes h par t⌝.
Proof.
  iIntros "Hh Ht". iInduction t as [|c l IHl x r IHr] forall (par); cbn; [done|].
  iDestruct "Ht" as "(Hx & Hl & Hr)". iSplit; [by iApply (gen_heap_valid with "Hh Hx")|].
  iSplit; [iApply ("IHl" with "Hh Hl")|iApply ("IHr" with "Hh Hr")].
Qed.
Lemma read_cells h h2 : gen_heap_interp h -∗ ([∗ map] a ↦ v ∈ h2, a ↦ v) -∗ ⌜∀ a v, h2 !! a = Some v → h !! a = Some v⌝.
Proof.
  iIntros "Hh Hm" (a v Ha). iDestruct (big_sepM_lookup with "Hm") as "Ha"; [done|].
  by iApply (gen_heap_valid with "Hh Ha").
Qed.
End cells.

(** A function that turns the tree [t] into [t'], with the use of the spare nodes [xs]. *)
Theorem run_tree (m : H unit) h rt t t' (xs : list addr) :
  holds h rt t → NoDup (rt :: inorder t ++ xs) → (∀ x, x ∈ xs → ∃ n, h !! x = Some (Cell_node n)) →
  NoDup (rt :: inorder t') →
  (∀ Σ (G : gen_heapGS addr cell Σ), whole rt t ∗ ([∗ list] x ∈ xs, spare x) ⊢ wp m (λ _, whole rt t')) →
  ∃ h', m h = Some (tt, h') ∧ holds h' rt t' ∧ keeps (rt :: inorder t ++ xs) h h'.
Proof.
  intros (Hr & Ht & _) Hnd Hxs Hnd' Hwp.
  destruct (wp_adequacy m h (λ _ h', holds h' rt t' ∧ keeps (rt :: inorder t ++ xs) h h')) as ([] & h' & ? & ?);
    [|by eauto].
  intros Σ G. iIntros "H". apply list.NoDup_cons in Hnd as [Hrt Hnd]. apply list.NoDup_app in Hnd as (Hndt & Hdis & Hndx).
  rw (take_cell _ _ _ Hr). iDestruct "H" as "[Hr H]".
  rw (take_tree _ None t); [|eapply nodes_ext; [|done]|done].
  2: { intros a Ha. rw lookup_delete_ne; [done|set_solver]. }
  iDestruct "H" as "[Ht (%h2 & %Hh2 & H)]".
  assert (∀ x, x ∈ xs → h2 !! x = h !! x) as Hx2.
  { intros x Hx. rw Hh2; [|set_solver]. rw lookup_delete_ne; [done|set_solver]. }
  rw (take_spares _ xs); [|by intros x Hx; rw Hx2; auto|done]. iDestruct "H" as "[Hxs (%h3 & %Hh3 & H)]".
  iApply (wp_mono with "[Hr Ht Hxs]"); [iApply Hwp; iFrame|]. iIntros (_) "[Hr Ht] %h' Hh".
  iDestruct (gen_heap_valid with "Hh Hr") as %Hr'. iDestruct (read_tree with "Hh Ht") as %Ht'.
  iDestruct (read_cells with "Hh H") as %Hc. iPureIntro. split; [done|].
  intros a v Ha Hv. apply Hc. rw Hh3; [|set_solver]. rw Hh2; [|set_solver]. rw lookup_delete_ne; [done|set_solver].
Qed.
