(* ===== verification/RbWalk.v ===== *)
(** * Walking through a red-black tree

    [rb_first] and [rb_next] visit the nodes in order, [rb_last] and [rb_prev] in
    reverse order. *)

From S2P Require Import Prelude RbTree RbFun.
Local Abbreviation last := list.last.

(** ** Subtrees of a heap's tree *)

Fixpoint ctx_nodes (h : heap) (k : list frame) (hole : ptr) : Prop :=
  match k with
  | [] => True
  | FL c x r :: k => has_node h x (parent_of k) c hole (root_of r) ∧ nodes h (Some x) r ∧ ctx_nodes h k (Some x)
  | FR c l x :: k => has_node h x (parent_of k) c (root_of l) hole ∧ nodes h (Some x) l ∧ ctx_nodes h k (Some x)
  end.
Lemma nodes_plug h k t : nodes h None (plug k t) ↔ ctx_nodes h k (root_of t) ∧ nodes h (parent_of k) t.
Proof. revert t. induction k as [|[c x r|c l x] k IH]; intros t; cbn; [tauto|..]; rewrite IH; cbn; tauto. Qed.

Lemma bind_some {A B} (m : H A) (f : A → H B) h a h' : m h = Some (a, h') → (m ≫= f) h = f a h'.
Proof. intros Hm. unfold mbind, H_bind. by rewrite Hm. Qed.
Lemma get_left_node h x par c l r : has_node h x par c l r → get_left (Some x) h = Some (l, h).
Proof. intros Hx. unfold get_left, mbind, H_bind, load_node. by rewrite Hx. Qed.
Lemma get_right_node h x par c l r : has_node h x par c l r → get_right (Some x) h = Some (r, h).
Proof. intros Hx. unfold get_right, mbind, H_bind, load_node. by rewrite Hx. Qed.
Lemma rb_parent_node h x par c l r : has_node h x par c l r → rb_parent (Some x) h = Some (par, h).
Proof. intros Hx. unfold rb_parent, mbind, H_bind, load_node. rewrite Hx. cbn. by rewrite parent_of_word. Qed.

(** Reads a field of a node that is known. *)
Ltac read_field :=
  match goal with Hx : has_node ?h ?x _ _ _ _ |- _ => first
    [ rewrite (bind_some _ _ _ _ _ (get_left_node _ _ _ _ _ _ Hx))
    | rewrite (bind_some _ _ _ _ _ (get_right_node _ _ _ _ _ _ Hx))
    | rewrite (bind_some _ _ _ _ _ (rb_parent_node _ _ _ _ _ _ Hx)) ] end.

Lemma head_app_cons {A} (l : list A) x r : head (l ++ x :: r) = head (l ++ [x]).
Proof. by destruct l. Qed.

Lemma leftmost_spec fuel l h par c x r :
  nodes h par (T c l x r) → (depth l < fuel)%nat → leftmost fuel (Some x) h = Some (head (inorder l ++ [x]), h).
Proof.
  revert fuel par c x r. induction l as [|c' l' IH x' r' _]; intros [|fuel] par c x r (Hx & Hl & Hr) Hfuel;
    cbn [depth] in *; try lia; cbn [leftmost]; read_field; cbn [root_of inorder]; [done|].
  rewrite (IH fuel _ _ _ _ Hl) by lia. rewrite <- app_assoc. cbn [app]. by rewrite (head_app_cons _ x' (inorder r' ++ [x])).
Qed.
Lemma rightmost_spec fuel r h par c l x :
  nodes h par (T c l x r) → (depth r < fuel)%nat → rightmost fuel (Some x) h = Some (last (x :: inorder r), h).
Proof.
  revert fuel par c l x. induction r as [|c' l' _ x' r' IH]; intros [|fuel] par c l x (Hx & Hl & Hr) Hfuel;
    cbn [depth] in *; try lia; cbn [rightmost]; read_field; cbn [root_of inorder]; [done|].
  rewrite (IH fuel _ _ _ _ Hr) by lia. by rewrite app_comm_cons, !last_app_cons.
Qed.

(** ** The next and the previous node *)

Lemma root_in t x : root_of t = Some x → x ∈ inorder t.
Proof. destruct t; cbn; [done|]. intros [= ->]. set_solver. Qed.

Lemma NoDup_plug k t : NoDup (inorder (plug k t)) →
  NoDup (inorder t) ∧ (∀ x, x ∈ inorder t → (x ∉ before k) ∧ (x ∉ beyond k)).
Proof.
  rewrite inorder_plug. intros (_ & Hb & (Ht & Hd & _)%list.NoDup_app)%list.NoDup_app. split; [done|].
  intros x Hx. split; [intros Hx'; specialize (Hb x Hx'); set_solver|by apply Hd].
Qed.

Lemma left_child_ne k c l p t x : NoDup (inorder (plug k (T c l p t))) → root_of t = Some x → root_of l ≠ Some x.
Proof.
  intros [Hnd _]%NoDup_plug Ht Hl. apply root_in in Ht, Hl. apply list.NoDup_app in Hnd as (_ & Hnd & _).
  specialize (Hnd x Hl). set_solver.
Qed.

Lemma climb_right_spec fuel k t x h :
  nodes h None (plug k t) → NoDup (inorder (plug k t)) → root_of t = Some x → (length k < fuel)%nat →
  climb_right fuel (Some x) h = Some (head (beyond k), h).
Proof.
  revert fuel t x. induction k as [|f k IH]; intros [|fuel] t x Hn Hnd Ht Hfuel; cbn [length] in *; try lia;
    pose proof Hn as [Hk Htn]%nodes_plug; (destruct t as [|c l y r]; [done|]); destruct Htn as (Hy & _);
    cbn in Ht; simplify_eq; cbn [climb_right]; read_field; cbn [parent_of]; [done|].
  destruct f as [c' p s|c' s p]; destruct Hk as (Hp & Hs & Hk); cbn [f_addr]; read_field.
  - rewrite decide_False; [done|]. intros Heq. symmetry in Heq. apply root_in in Heq.
    apply NoDup_plug in Hnd as [_ Hnd]. destruct (Hnd x) as [_ Hy']; cbn in *; set_solver.
  - rewrite decide_True by done. apply (IH fuel (T c' s p (T c l x r))); [done..|lia].
Qed.
Lemma climb_left_spec fuel k t x h :
  nodes h None (plug k t) → NoDup (inorder (plug k t)) → root_of t = Some x → (length k < fuel)%nat →
  climb_left fuel (Some x) h = Some (last (before k), h).
Proof.
  revert fuel t x. induction k as [|f k IH]; intros [|fuel] t x Hn Hnd Ht Hfuel; cbn [length] in *; try lia;
    pose proof Hn as [Hk Htn]%nodes_plug; (destruct t as [|c l y r]; [done|]); destruct Htn as (Hy & _);
    cbn in Ht; simplify_eq; cbn [climb_left]; read_field; cbn [parent_of]; [done|].
  destruct f as [c' p s|c' s p]; destruct Hk as (Hp & Hs & Hk); cbn [f_addr]; read_field.
  - rewrite decide_True by done. apply (IH fuel (T c' (T c l x r) p s)); [done..|lia].
  - rewrite decide_False; [cbn [before]; by rewrite app_assoc, last_snoc|]. intros Heq. symmetry in Heq. apply root_in in Heq.
    apply NoDup_plug in Hnd as [_ Hnd]. destruct (Hnd x) as [Hy' _]; cbn in *; set_solver.
Qed.

Lemma parent_ne h k c l x r :
  nodes h None (plug k (T c l x r)) → NoDup (inorder (plug k (T c l x r))) → parent_of k ≠ Some x.
Proof.
  intros _ [_ Hnd]%NoDup_plug Heq. destruct (Hnd x) as [Hb Hy]; [cbn; set_solver|].
  destruct k as [|[c' p s|c' s p] k]; cbn in *; simplify_eq; set_solver.
Qed.

Lemma rb_next_spec h k c l x r fuel :
  nodes h None (plug k (T c l x r)) → NoDup (inorder (plug k (T c l x r))) → (depth (plug k (T c l x r)) < fuel)%nat →
  rb_next fuel (Some x) h = Some (head (inorder r ++ beyond k), h).
Proof.
  intros Hn Hnd Hfuel. pose proof (depth_plug k (T c l x r)) as Hd. cbn [depth] in Hd.
  pose proof Hn as [Hk (Hx & Hl & Hr)]%nodes_plug. unfold rb_next. read_field.
  rewrite decide_False by by eapply parent_ne. read_field. destruct r as [|cr rl rx rr]; cbn [root_of].
  - apply (climb_right_spec _ _ (T c l x E)); [done..|lia].
  - cbn [depth] in Hd. rewrite (leftmost_spec _ _ _ _ _ _ _ Hr) by lia. cbn [inorder].
    rewrite <- app_assoc. cbn [app]. by rewrite (head_app_cons _ rx (inorder rr ++ beyond k)).
Qed.
Lemma rb_prev_spec h k c l x r fuel :
  nodes h None (plug k (T c l x r)) → NoDup (inorder (plug k (T c l x r))) → (depth (plug k (T c l x r)) < fuel)%nat →
  rb_prev fuel (Some x) h = Some (last (before k ++ inorder l), h).
Proof.
  intros Hn Hnd Hfuel. pose proof (depth_plug k (T c l x r)) as Hd. cbn [depth] in Hd.
  pose proof Hn as [Hk (Hx & Hl & Hr)]%nodes_plug. unfold rb_prev. read_field.
  rewrite decide_False by by eapply parent_ne. read_field. destruct l as [|cl ll lx lr]; cbn [root_of].
  - cbn [inorder]. rewrite app_nil_r. apply (climb_left_spec _ _ (T c E x r)); [done..|lia].
  - cbn [depth] in Hd. rewrite (rightmost_spec _ _ _ _ _ _ _ Hl) by lia. cbn [inorder].
    by rewrite !app_assoc, last_app_cons.
Qed.

(** ** Whole walks *)

(** The nodes from [p] on, as [step] leads from one to the next. *)
Fixpoint walk (step : ptr → H ptr) (fuel : nat) (p : ptr) : H (list addr) :=
  match p, fuel with
  | None, _ => mret []
  | Some x, S fuel => q ← step p; xs ← walk step fuel q; mret (x :: xs)
  | Some _, O => fail
  end.

Lemma subtree_of t x : x ∈ inorder t → ∃ k c l r, t = plug k (T c l x r).
Proof.
  induction t as [|c l IHl y r IHr]; cbn; [set_solver|]. intros [Hx|[->|Hx]%elem_of_cons]%elem_of_app.
  - destruct (IHl Hx) as (k & c' & l' & r' & ->). exists (k ++ [FL c y r]), c', l', r'. by rewrite plug_app.
  - by exists [], c, l, r.
  - destruct (IHr Hx) as (k & c' & l' & r' & ->). exists (k ++ [FR c l y]), c', l', r'. by rewrite plug_app.
Qed.
Lemma split_unique {A} (x : A) l r l' r' : NoDup (l ++ x :: r) → l ++ x :: r = l' ++ x :: r' → l = l' ∧ r = r'.
Proof.
  revert l'. induction l as [|y l IH]; intros [|z l'] Hnd Heq; cbn in *;
    apply list.NoDup_cons in Hnd as [Hx Hnd]; [by injection Heq as ->|injection Heq as -> Heq..].
  - set_solver.
  - set_solver.
  - by destruct (IH _ Hnd Heq) as [-> ->].
Qed.

(** A node of the tree, by its place in the order. *)
Lemma node_at_place t pre x post : NoDup (inorder t) → inorder t = pre ++ x :: post →
  ∃ k c l r, t = plug k (T c l x r) ∧ pre = before k ++ inorder l ∧ post = inorder r ++ beyond k.
Proof.
  intros Hnd Heq. destruct (subtree_of t x) as (k & c & l & r & ->); [rewrite Heq; set_solver|].
  exists k, c, l, r. split; [done|]. rewrite Heq in Hnd. apply (split_unique x); [done|].
  rewrite <- Heq, inorder_plug. cbn. by rewrite <- !app_assoc.
Qed.

Section walks.
Context (h : heap) (t : tree) (n : nat).
Hypothesis Hn : nodes h None t.
Hypothesis Hnd : NoDup (inorder t).
Hypothesis Hdepth : (depth t < n)%nat.

Lemma walk_next pre post fuel : inorder t = pre ++ post → (length post <= fuel)%nat →
  walk (rb_next n) fuel (head post) h = Some (post, h).
Proof.
  revert pre fuel. induction post as [|x post IH]; intros pre fuel Heq Hfuel; [by destruct fuel|].
  destruct fuel as [|fuel]; cbn [length] in Hfuel; [lia|]. cbn [head walk].
  destruct (node_at_place _ _ _ _ Hnd Heq) as (k & c & l & r & Ht & Hpre & Hpost).
  rewrite (bind_some _ _ h (head post) h); [|rewrite Hpost; subst t; by eapply rb_next_spec].
  rewrite (bind_some _ _ h post h); [done|]. apply (IH (pre ++ [x])); [by rewrite <- app_assoc|lia].
Qed.
Lemma walk_prev pre post fuel : inorder t = pre ++ post → (length pre <= fuel)%nat →
  walk (rb_prev n) fuel (last pre) h = Some (reverse pre, h).
Proof.
  revert post fuel. induction pre as [|x pre IH] using rev_ind; intros post fuel Heq Hfuel; [by destruct fuel|].
  rewrite length_app in Hfuel. destruct fuel as [|fuel]; cbn [length] in Hfuel; [lia|]. rewrite last_snoc. cbn [walk].
  rewrite <- app_assoc in Heq. destruct (node_at_place _ _ _ _ Hnd Heq) as (k & c & l & r & Ht & Hpre & Hpost).
  rewrite (bind_some _ _ h (last pre) h); [|rewrite Hpre; subst t; by eapply rb_prev_spec].
  rewrite (bind_some _ _ h (reverse pre) h); [by rewrite reverse_snoc|]. apply (IH (x :: post)); [done|lia].
Qed.
End walks.

Lemma rb_walk_all h rt t n fuel :
  holds h rt t → (depth t < n)%nat → (length (inorder t) <= fuel)%nat →
  (p ← rb_first n rt; walk (rb_next n) fuel p) h = Some (inorder t, h) ∧
  (p ← rb_last n rt; walk (rb_prev n) fuel p) h = Some (reverse (inorder t), h).
Proof.
  intros (Hr & Hn & [_ Hnd]%list.NoDup_cons) Hd Hfuel.
  assert (get_root rt h = Some (root_of t, h)) as Hroot by (unfold get_root; by rewrite Hr). split.
  - rewrite (bind_some _ _ h (head (inorder t)) h); [by apply (walk_next _ t _ Hn Hnd Hd [])|].
    unfold rb_first. rewrite (bind_some _ _ _ _ _ Hroot). destruct t as [|c l x r]; [done|]. cbn [root_of inorder depth] in *.
    rewrite (leftmost_spec _ _ _ _ _ _ _ Hn) by lia. by rewrite (head_app_cons _ x (inorder r)).
  - rewrite (bind_some _ _ h (last (inorder t)) h); [apply (walk_prev _ t _ Hn Hnd Hd _ []); [by rewrite app_nil_r|done]|].
    unfold rb_last. rewrite (bind_some _ _ _ _ _ Hroot). destruct t as [|c l x r]; [done|]. cbn [root_of inorder depth] in *.
    rewrite (rightmost_spec _ _ _ _ _ _ _ Hn) by lia. by rewrite last_app_cons.
Qed.
(** ** Augmented trees *)

(** [func] on each of [xs]. *)
Fixpoint calls (func : ptr → H unit) (xs : list addr) : H unit :=
  match xs with [] => mret tt | x :: xs => func (Some x);; calls func xs end.

(** The child of the frame that is visited besides the subtree of [x]: its sibling,
    and [x] itself again when it is a left child without a sibling. *)
Definition beside (f : frame) (x : addr) : list addr :=
  match f with
  | FL _ _ r => match root_of r with Some q => [q] | None => [x] end
  | FR _ l _ => match root_of l with Some q => [q] | None => [] end
  end.
Fixpoint augment_order (x : addr) (k : list frame) : list addr :=
  x :: match k with [] => [] | f :: k => beside f x ++ augment_order (f_addr f) k end.

(** [func] works on the nodes of [t] in the heaps that satisfy [I]: it may change the
    objects the nodes lie in, but not the tree. *)
Definition augments (I : heap → Prop) (func : ptr → H unit) (t : tree) : Prop :=
  (∀ h, I h → nodes h None t) ∧
  ∀ x h, x ∈ inorder t → I h → ∃ h', func (Some x) h = Some (tt, h') ∧ I h'.

Ltac in_tree := rewrite inorder_plug; cbn; set_solver.
Lemma root_in_plug k t x : root_of t = Some x → x ∈ inorder (plug k t).
Proof. intros Ht%root_in. rewrite inorder_plug. set_solver. Qed.

Section augment.
Context (I : heap → Prop) (func : ptr → H unit).

(** One call of [func] in front. *)
Lemma call_step t x h {B} (f : unit → H B) (g : unit → H B) :
  augments I func t → x ∈ inorder t → I h →
  (∀ h', I h' → f tt h' = g tt h') → (func (Some x) ≫= f) h = (func (Some x) ≫= g) h.
Proof.
  intros [_ Hf] Hx Hh Hfg. destruct (Hf x h Hx Hh) as (h' & Hrun & Hh').
  rewrite !(bind_some _ _ _ _ _ Hrun). by apply Hfg.
Qed.

Lemma augment_path_calls fuel k t x h :
  augments I func (plug k t) → I h → NoDup (inorder (plug k t)) → root_of t = Some x → (length k < fuel)%nat →
  rb_augment_path fuel func (Some x) h = calls func (augment_order x k) h.
Proof.
  revert fuel t x h. induction k as [|f k IH]; intros [|fuel] t x h Hf Hh Hnd Ht Hfuel; cbn [length] in *; try lia;
    cbn [rb_augment_path augment_order calls]; eapply call_step; [exact Hf|by eapply root_in_plug|done| |exact Hf|by eapply root_in_plug|done|];
    intros h1 Hh1; pose proof (proj1 Hf h1 Hh1) as [Hk Htn]%nodes_plug; (destruct t as [|c l y r]; [done|]);
    destruct Htn as (Hy & _); cbn in Ht; simplify_eq; read_field; cbn [parent_of]; [done|].
  destruct f as [c' p s|c' s p]; destruct Hk as (Hp & Hs & Hk); cbn [f_addr beside root_of]; read_field; read_field.
  - rewrite decide_True by done. destruct s as [|cs sl q sr]; cbn [root_of app calls];
      (eapply call_step; [exact Hf|in_tree|done|]); intros h2 Hh2.
    + apply (IH fuel (T c' (T c l x r) p E)); [done..|lia].
    + apply (IH fuel (T c' (T c l x r) p (T cs sl q sr))); [done..|lia].
  - rewrite decide_False; [|intros Heq; by eapply (left_child_ne k c' s p (T c l x r))].
    destruct s as [|cs sl q sr]; cbn [root_of app calls].
    + apply (IH fuel (T c' E p (T c l x r))); [done..|lia].
    + eapply call_step; [exact Hf|in_tree|done|]. intros h2 Hh2.
      apply (IH fuel (T c' (T cs sl q sr) p (T c l x r))); [done..|lia].
Qed.

Lemma augment_order_in k t x : root_of t = Some x → ∀ y, y ∈ augment_order x k → y ∈ inorder (plug k t).
Proof.
  revert t x. induction k as [|f k IH]; intros t x Ht y; cbn [augment_order];
    (intros [->|Hy]%elem_of_cons; [by apply (root_in_plug (_ :: k)) || by apply (root_in_plug [])|]); [set_solver|].
  apply elem_of_app in Hy as [Hy|Hy]; [|by apply (IH (fill f t)) in Hy; [|destruct f]].
  apply root_in in Ht. cbn [plug]. rewrite inorder_plug.
  destruct f as [c p [|? ? q ?]|c [|? ? q ?] p]; cbn in *; set_solver.
Qed.

Lemma calls_run t xs h : augments I func t → (∀ x, x ∈ xs → x ∈ inorder t) → I h →
  ∃ h', calls func xs h = Some (tt, h') ∧ I h'.
Proof.
  intros Hf. revert h. induction xs as [|y xs IH]; intros h Hxs Hh; cbn [calls]; [by exists h|].
  destruct (proj2 Hf y h) as (h1 & Hf1 & Hn1); [set_solver|done|]. rewrite (bind_some _ _ _ _ _ Hf1).
  apply IH; [set_solver|done].
Qed.
End augment.
