(* ===== verification/RbTheorems.v ===== *)
(** * The red-black tree code on heaps

    What the operations of src/rb_tree.c do to a heap that holds a tree: they run
    without undefined behaviour, and leave the tree that the functions of [RbFun]
    compute. *)

From iris.proofmode Require Import environments proofmode.
From iris.base_logic.lib Require Import gen_heap.
From S2P Require Import Prelude RbTree RbFun RbLogic RbInsert RbErase RbRemove RbAdequacy RbWalk.

(** ** Insertion *)

Lemma NoDup_perm (l l' : list addr) : l ≡ₚ l' → NoDup l → NoDup l'.
Proof. by intros ->. Qed.

Lemma holds_spare h rt t x n :
  holds h rt t → h !! x = Some (Cell_node n) → x ∉ inorder t → NoDup (rt :: inorder t ++ [x]).
Proof.
  intros (Hr & _ & [Hrt Hnd]%list.NoDup_cons) Hx Hnx. apply list.NoDup_cons. split.
  - intros [?|Hrx%list_elem_of_singleton]%elem_of_app; [done|]. congruence.
  - apply list.NoDup_app. split_and!; [done| |apply list.NoDup_singleton]. set_solver.
Qed.

(** C27: On a heap with a red-black tree, linking a node into a free place and running
    rb_insert_color terminates within 2 log2(n+1) + 1 iterations and leaves the tree
    that the functional insertion computes; it is a red-black tree again, with the
    new node at its place in the order, and no other cell changes. *)
Theorem rb_insert_equiv h rt k x n fuel :
  rb_tree (plug k E) → holds h rt (plug k E) →
  h !! x = Some (Cell_node n) → x ∉ inorder (plug k E) →
  (2 * Nat.log2 (S (length (before k ++ beyond k))) < fuel)%nat →
  ∃ h', (rb_link_node (Some x) (parent_of k) (place rt k);; rb_insert_color fuel (Some x) rt) h = Some (tt, h') ∧
        holds h' rt (rb_insert k x) ∧ keeps (rt :: inorder (plug k E) ++ [x]) h h' ∧
        rb_tree (rb_insert k x) ∧ inorder (rb_insert k x) = before k ++ x :: beyond k.
Proof.
  intros Ht Hh Hx Hnx Hfuel. pose proof (holds_spare _ _ _ _ _ Hh Hx Hnx) as Hnd.
  pose proof (depth_plug k E) as Hd. pose proof (rb_tree_depth _ Ht) as Hlog. rw inorder_plug /= in Hlog. cbn in Hd.
  edestruct (run_tree (rb_link_node (Some x) (parent_of k) (place rt k);; rb_insert_color fuel (Some x) rt) h rt
    (plug k E) (rb_insert k x) [x] Hh) as (h' & ? & ? & ?); [done|set_solver| | |].
  - eapply NoDup_perm, Hnd. rw inorder_plug rb_insert_inorder /=. solve_Permutation.
  - intros Σ G. iIntros "[H [Hx _]]". iApply wp_bind. iDestruct (is_plug with "H") as "[Hk _]".
    iApply (wp_rb_link_node with "Hx Hk"). iIntros "H".
    iApply (wp_rb_insert_color with "H"); [done|lia|]. by iIntros.
  - exists h'. split_and!; [done..|by apply rb_insert_rbt|apply rb_insert_inorder].
Qed.

(** ** Removal *)

(** C28: On a heap with a red-black tree, rb_erase on any of its nodes terminates within
    2 log2(n+1) + 1 iterations of each of its loops and leaves the tree that the functional removal
    computes; it is a red-black tree again, with exactly that node gone, and no cell
    outside the tree changes. *)
Theorem rb_erase_equiv h rt k c l x r fuel :
  rb_tree (plug k (T c l x r)) → holds h rt (plug k (T c l x r)) →
  (2 * Nat.log2 (S (length (inorder (plug k (T c l x r))))) < fuel)%nat →
  ∃ h', rb_erase fuel (Some x) rt h = Some (tt, h') ∧
        holds h' rt (rb_delete k c l r) ∧ keeps (rt :: inorder (plug k (T c l x r))) h h' ∧
        rb_tree (rb_delete k c l r) ∧
        inorder (rb_delete k c l r) = (before k ++ inorder l) ++ inorder r ++ beyond k.
Proof.
  intros Ht Hh Hfuel. pose proof Hh as (_ & _ & Hnd). pose proof (depth_plug k (T c l x r)) as Hd.
  pose proof (rb_tree_depth _ Ht) as Hlog.
  edestruct (run_tree (rb_erase fuel (Some x) rt) h rt (plug k (T c l x r)) (rb_delete k c l r) [] Hh)
    as (h' & ? & ? & Hkeep); [by rw app_nil_r|set_solver| | |].
  - apply (NoDup_perm _ (x :: rt :: inorder (rb_delete k c l r))) in Hnd; [by apply list.NoDup_cons in Hnd as [_ ?]|].
    rw inorder_plug rb_delete_inorder /=. solve_Permutation.
  - intros Σ G. iIntros "[H _]". iDestruct (is_plug with "H") as "H".
    iApply (wp_rb_erase with "H"); [done|lia|]. by iIntros.
  - rw app_nil_r in Hkeep. exists h'. split_and!; [done..|by eapply rb_delete_rbt|].
    rw rb_delete_inorder. by rw -!assoc.
Qed.

(** ** Replacing a node *)

Lemma rb_replace_equiv h rt k c l x r y n :
  holds h rt (plug k (T c l x r)) → h !! y = Some (Cell_node n) → y ∉ inorder (plug k (T c l x r)) →
  ∃ h', rb_replace_node (Some x) (Some y) rt h = Some (tt, h') ∧
        holds h' rt (plug k (T c l y r)) ∧ keeps (rt :: inorder (plug k (T c l x r)) ++ [y]) h h'.
Proof.
  intros Hh Hy Hny. pose proof (holds_spare _ _ _ _ _ Hh Hy Hny) as Hnd.
  apply (run_tree _ _ _ _ _ [y] Hh); [done|set_solver| |].
  { apply (NoDup_perm _ (x :: rt :: inorder (plug k (T c l y r)))) in Hnd; [by apply list.NoDup_cons in Hnd as [_ ?]|].
    rw !inorder_plug /=. solve_Permutation. }
  intros Σ G. iIntros "[H [Hy _]]". iDestruct (is_plug with "H") as "H".
  iApply (wp_rb_replace_node with "H Hy"). by iIntros.
Qed.

(** ** Walking and augmenting *)

(** C33: From rb_first, rb_next visits all nodes in order and stops behind the last one;
    from rb_last, rb_prev visits them in reverse order. The heap stays as it is. *)
Theorem rb_walk_inorder h rt t fuel :
  rb_tree t → holds h rt t → (2 * Nat.log2 (S (length (inorder t))) < fuel)%nat →
  (p ← rb_first fuel rt; walk (rb_next fuel) (length (inorder t)) p) h = Some (inorder t, h) ∧
  (p ← rb_last fuel rt; walk (rb_prev fuel) (length (inorder t)) p) h = Some (reverse (inorder t), h).
Proof. intros Ht Hh Hfuel. apply (rb_walk_all _ rt); [done| |done]. pose proof (rb_tree_depth _ Ht) as Hlog. lia. Qed.

(** From any node, rb_augment_path terminates and calls the function once for the
    node and each of its ancestors, bottom up, with a call for the other child of each
    ancestor before it (or again for the same node, a left child without a sibling). *)
Theorem rb_augment_path_spec I h rt k c l x r fuel func :
  rb_tree (plug k (T c l x r)) → holds h rt (plug k (T c l x r)) →
  augments I func (plug k (T c l x r)) → I h →
  (2 * Nat.log2 (S (length (inorder (plug k (T c l x r))))) < fuel)%nat →
  ∃ h', rb_augment_path fuel func (Some x) h = Some (tt, h') ∧
        calls func (augment_order x k) h = Some (tt, h') ∧ nodes h' None (plug k (T c l x r)).
Proof.
  intros Ht (Hr & Hn & [_ Hnd]%list.NoDup_cons) Hf Hh Hfuel. pose proof (rb_tree_depth _ Ht) as Hlog.
  pose proof (depth_plug k (T c l x r)) as Hd. cbn in Hd.
  destruct (calls_run _ _ _ (augment_order x k) h Hf) as (h' & Hrun & Hn');
    [by apply (augment_order_in _ (T c l x r))|done|].
  exists h'. split_and!; [|done|by apply Hf]. rw -Hrun. apply (augment_path_calls I _ _ _ (T c l x r)); [done..|lia].
Qed.

(** ** Instances *)

(** The cells of a tree. *)
Fixpoint put_nodes (par : ptr) (t : tree) (h : heap) : heap :=
  match t with
  | E => h
  | T c l x r => put_nodes (Some x) l (put_nodes (Some x) r
      (<[x := Cell_node (mk_rb (word par c) (root_of r) (root_of l))]> h))
  end.
Definition heap_of (rt : addr) (t : tree) (h : heap) : heap :=
  put_nodes None t (<[rt := Cell_root (root_of t)]> h).

Ltac solve_holds := split_and!; [vm_compute; done|vm_compute; repeat split|apply (bool_decide_unpack _); vm_compute; done].
Ltac solve_rbt := split; [done|eexists; repeat constructor].

Definition sample_ctx : list frame := [FR Red E 20%positive; FR Black (T Red E 5%positive E) 10%positive].

Lemma rb_insert_equiv_witness : let h := heap_of 1 (plug sample_ctx E) {[30%positive := Cell_node (mk_rb 7 None None)]} in
  ∃ h', (rb_link_node (Some 30%positive) (Some 20%positive) (Link_right (Some 20%positive));;
         rb_insert_color 6 (Some 30%positive) 1) h = Some (tt, h') ∧
        holds h' 1 (rb_insert sample_ctx 30) ∧
        keeps (1%positive :: inorder (plug sample_ctx E) ++ [30%positive]) h h' ∧
        rb_tree (rb_insert sample_ctx 30) ∧
        inorder (rb_insert sample_ctx 30) = before sample_ctx ++ 30%positive :: beyond sample_ctx.
Proof.
  intros h. apply (rb_insert_equiv h 1 sample_ctx 30 (mk_rb 7 None None) 6).
  - split; [done|]. exists 1%nat. repeat constructor.
  - solve_holds.
  - vm_compute. done.
  - apply (bool_decide_unpack _). vm_compute. done.
  - vm_compute. lia.
Defined.

(** Removing a node with two children from a tree whose other side must be rotated. *)
Definition sample_tree : tree :=
  T Black (T Black E 5%positive E) 10%positive
    (T Red (T Black E 15%positive E) 20%positive (T Black E 25%positive (T Red E 30%positive E))).

Lemma rb_erase_equiv_witness : let h := heap_of 1 sample_tree ∅ in
  let l := T Black E 5%positive E in
  let r := T Red (T Black E 15%positive E) 20%positive (T Black E 25%positive (T Red E 30%positive E)) in
  ∃ h', rb_erase 6 (Some 10%positive) 1 h = Some (tt, h') ∧
        holds h' 1 (rb_delete [] Black l r) ∧
        keeps (1%positive :: inorder (plug [] (T Black l 10%positive r))) h h' ∧
        rb_tree (rb_delete [] Black l r) ∧
        inorder (rb_delete [] Black l r) = (before [] ++ inorder l) ++ inorder r ++ beyond [].
Proof.
  intros h l r. apply (rb_erase_equiv h 1 [] Black l 10 r 6).
  - solve_rbt.
  - solve_holds.
  - vm_compute. lia.
Defined.

Lemma rb_walk_inorder_witness : let h := heap_of 1 sample_tree ∅ in
  (p ← rb_first 6 1; walk (rb_next 6) 6 p) h = Some (inorder sample_tree, h) ∧
  (p ← rb_last 6 1; walk (rb_prev 6) 6 p) h = Some (reverse (inorder sample_tree), h).
Proof.
  intros h. apply (rb_walk_inorder h 1 sample_tree 6).
  - solve_rbt.
  - solve_holds.
  - vm_compute. lia.
Defined.

(** A counter outside the tree that counts the calls. *)
Definition count_call : ptr → H unit := fun _ =>
  n ← load_node (Some 2%positive); store_node (Some 2%positive) (n⟨rb_parent_color := rb_parent_color n + 1⟩).
Definition counting (t : tree) (h : heap) : Prop := nodes h None t ∧ ∃ n, h !! 2%positive = Some (Cell_node n).

Lemma count_call_augments t : 2%positive ∉ inorder t → augments (counting t) count_call t.
Proof.
  intros Ht. split; [by intros h []|]. intros x h _ [Hn [n H2]].
  exists (<[2%positive := Cell_node (n⟨rb_parent_color := rb_parent_color n + 1⟩)]> h). split; [|split].
  - unfold count_call, load_node, store_node, mbind, H_bind. by rw !H2.
  - eapply nodes_ext; [|done]. intros a Ha. rw lookup_insert_ne; [done|congruence].
  - eexists. by rw lookup_insert_eq.
Qed.

Lemma rb_augment_path_spec_witness :
  let h := heap_of 1 (plug sample_ctx E) {[2%positive := Cell_node (mk_rb 0 None None)]} in
  ∃ h', rb_augment_path 6 count_call (Some 20%positive) h = Some (tt, h') ∧
        calls count_call [20%positive; 5%positive; 10%positive] h = Some (tt, h') ∧ nodes h' None (plug sample_ctx E).
Proof.
  intros h. apply (rb_augment_path_spec (counting (plug sample_ctx E)) h 1
    [FR Black (T Red E 5%positive E) 10%positive] Red E 20 E 6 count_call).
  - solve_rbt.
  - solve_holds.
  - apply count_call_augments. apply (bool_decide_unpack _). vm_compute. done.
  - split; [vm_compute; repeat split|by eexists].
  - vm_compute. lia.
Defined.
