(* ===== verification/Pool.v ===== *)
(** * The thread pool: src/thpool.c

    One pool, its worker threads and the threads of its client.  A function is an
    interaction tree whose events are the accesses to single fields and the calls
    of pthreads and of the allocator; a configuration of running threads makes one
    event at a time, of any thread. *)

From ITree Require Import ITree.
From S2P Require Import Prelude.

#[export] Instance pool_mret E : MRet (itree E) := fun A x => Ret x.
#[export] Instance pool_mbind E : MBind (itree E) := fun A B f t => ITree.bind t f.

(** ** Data *)

(** A [job]; its function and argument are numbers. *)
Abbreviation job_ptr := (option positive).
Record job := mk_job { job_prev : job_ptr; job_function : Z; job_arg : Z }.
#[export] Instance eta_job : Eta job := fun j => mk_job (job_prev j) (job_function j) (job_arg j).

(** The fields of the static variables, of [thpool_] with its [jobqueue], of [bsem],
    of the [thread] structures and of the jobs.  Three are no fields of the program:
    [L_handler] is the disposition of SIGUSR1, 0 for the default one, [L_pending]
    the workers for which the signal is pending, and [L_log] records the calls of
    job functions. *)
Inductive loc :=
  | L_keepalive | L_on_hold | L_handler | L_pending
  | L_threads | L_alive | L_working | L_thcount_lock | L_all_idle
  | L_rwmutex | L_front | L_rear | L_len
  | L_bsem_mutex | L_bsem_cond | L_bsem_v
  | L_thread (n : nat) | L_job (a : positive) | L_log.

#[export] Instance loc_eq_dec : EqDecision loc.
Proof. solve_decision. Defined.
#[export] Program Instance loc_countable : Countable loc :=
  inj_countable'
    (fun l => match l with
     | L_keepalive => inl 0%nat | L_on_hold => inl 1%nat | L_threads => inl 2%nat | L_alive => inl 3%nat
     | L_working => inl 4%nat | L_thcount_lock => inl 5%nat | L_all_idle => inl 6%nat | L_rwmutex => inl 7%nat
     | L_front => inl 8%nat | L_rear => inl 9%nat | L_len => inl 10%nat | L_bsem_mutex => inl 11%nat
     | L_bsem_cond => inl 12%nat | L_bsem_v => inl 13%nat | L_handler => inl 14%nat | L_pending => inl 15%nat
     | L_log => inl 16%nat
     | L_thread n => inr (inl n) | L_job a => inr (inr a) end)
    (fun c => match c with
     | inl n => nth n [L_keepalive; L_on_hold; L_threads; L_alive; L_working; L_thcount_lock; L_all_idle;
                       L_rwmutex; L_front; L_rear; L_len; L_bsem_mutex; L_bsem_cond; L_bsem_v; L_handler; L_pending] L_log
     | inr (inl n) => L_thread n
     | inr (inr a) => L_job a end) _.
Next Obligation. by intros []. Qed.

(** A condition variable holds the tickets of the threads that wait on it.
    [C_junk] is the content of memory that was not written. *)
Inductive cell :=
  | C_junk
  | C_int (z : Z)
  | C_ptr (p : job_ptr)
  | C_job (j : job)
  | C_threads (ts : list (option nat))
  | C_thread (id : Z)
  | C_mutex (held : bool)
  | C_cond (waiters : gset nat)
  | C_signals (pending : gset nat)
  | C_log (calls : list (Z * Z)).

(** ** Events

    [Poll n]: whether the worker [n] takes a pending signal now.  [Interrupt n e]: the
    event [e], or, while it is blocked, a pending signal instead. *)

Inductive poolE : Type → Type :=
  | Access {X} (l : loc) (f : cell → option (X * cell)) : poolE X
  | Malloc (ls : list loc) : poolE bool
  | Malloc_job : poolE job_ptr
  | Free (ls : list loc) : poolE unit
  | Lock (l : loc) : poolE unit
  | Unlock (l : loc) : poolE unit
  | Cond_enter (c m : loc) : poolE nat
  | Cond_leave (c : loc) (t : nat) : poolE unit
  | Cond_signal (c : loc) : poolE unit
  | Cond_broadcast (c : loc) : poolE unit
  | Call (f a : Z) : poolE unit
  | Spawn (n : nat) : poolE unit
  | Kill (n : nat) : poolE unit
  | Poll (n : nat) : poolE bool
  | Interrupt {X} (n : nat) (e : poolE X) : poolE (option X)
  | Time : poolE Z
  | Exit : poolE unit.

Definition P : Type → Type := itree poolE.

Definition access {X} (l : loc) (f : cell → option (X * cell)) : P X := ITree.trigger (Access l f).
Definition get_int (l : loc) : P Z := access l (fun c => match c with C_int z => Some (z, c) | _ => None end).
Definition set_int (l : loc) (z : Z) : P unit := access l (fun _ => Some (tt, C_int z)).
Definition get_ptr (l : loc) : P job_ptr := access l (fun c => match c with C_ptr p => Some (p, c) | _ => None end).
Definition set_ptr (l : loc) (p : job_ptr) : P unit := access l (fun _ => Some (tt, C_ptr p)).

(** [p->f] of a job, and an assignment to its fields; a job that was not written yet
    has arbitrary fields. *)
Definition undefined {X} : P X := access L_keepalive (fun _ => None).
Definition get_job {X} (p : job_ptr) (f : job → X) : P X :=
  match p with
  | Some a => access (L_job a) (fun c => match c with C_job j => Some (f j, c) | _ => None end)
  | None => undefined
  end.
Definition set_job (p : job_ptr) (f : job → job) : P unit :=
  match p with
  | Some a => access (L_job a) (fun c => match c with
      | C_job j => Some (tt, C_job (f j))
      | C_junk => Some (tt, C_job (f (mk_job None 0 0)))
      | _ => None end)
  | None => undefined
  end.
Definition free_job (p : job_ptr) : P unit :=
  match p with Some a => ITree.trigger (Free [L_job a]) | None => mret tt end.

(** [x += d] on an [int]: a read and a write. *)
Definition add_int (l : loc) (d : Z) : P unit :=
  z ← get_int l;
  match int_result (z + d) with Some z => set_int l z | None => undefined end.

Definition malloc (ls : list loc) : P bool := ITree.trigger (Malloc ls).
Definition malloc_job : P job_ptr := ITree.trigger Malloc_job.
Definition free (ls : list loc) : P unit := ITree.trigger (Free ls).
Definition mutex_init (l : loc) : P unit := access l (fun _ => Some (tt, C_mutex false)).
Definition cond_init (l : loc) : P unit := access l (fun _ => Some (tt, C_cond ∅)).
Definition mutex_lock (l : loc) : P unit := ITree.trigger (Lock l).
Definition mutex_unlock (l : loc) : P unit := ITree.trigger (Unlock l).
(** Waiting releases the mutex, sleeps until a signal or a spurious wakeup, and takes
    the mutex again. *)
Definition cond_wait (c m : loc) : P unit :=
  t ← ITree.trigger (Cond_enter c m);
  ITree.trigger (Cond_leave c t);;
  mutex_lock m.
Definition cond_signal (c : loc) : P unit := ITree.trigger (Cond_signal c).
Definition cond_broadcast (c : loc) : P unit := ITree.trigger (Cond_broadcast c).

(** [while (cond) body]. *)
Definition while (cond : P bool) (body : P unit) : P unit :=
  ITree.iter (fun _ : unit => b ← cond; if (b : bool) then body;; mret (inl tt) else mret (inr tt)) tt.

(** ** Binary semaphore *)

Definition bsem_init (value : Z) : P unit :=
  if (value <? 0) || (1 <? value) then ITree.trigger Exit
  else
    mutex_init L_bsem_mutex;;
    cond_init L_bsem_cond;;
    set_int L_bsem_v value.
Definition bsem_reset : P unit := bsem_init 0.
Definition bsem_post : P unit :=
  mutex_lock L_bsem_mutex;;
  set_int L_bsem_v 1;;
  cond_signal L_bsem_cond;;
  mutex_unlock L_bsem_mutex.
Definition bsem_post_all : P unit :=
  mutex_lock L_bsem_mutex;;
  set_int L_bsem_v 1;;
  cond_broadcast L_bsem_cond;;
  mutex_unlock L_bsem_mutex.
Definition bsem_wait : P unit :=
  mutex_lock L_bsem_mutex;;
  while (v ← get_int L_bsem_v; mret (negb (v =? 1))) (cond_wait L_bsem_cond L_bsem_mutex);;
  set_int L_bsem_v 0;;
  mutex_unlock L_bsem_mutex.

(** ** Job queue *)

Definition bsem_fields : list loc := [L_bsem_mutex; L_bsem_cond; L_bsem_v].

Definition jobqueue_init : P Z :=
  set_int L_len 0;;
  set_ptr L_front None;;
  set_ptr L_rear None;;
  ok ← malloc bsem_fields;
  if negb ok then mret (-1)
  else
    mutex_init L_rwmutex;;
    bsem_init 0;;
    mret 0.

Definition jobqueue_push (newjob : job_ptr) : P unit :=
  mutex_lock L_rwmutex;;
  set_job newjob (fun j => j⟨job_prev := None⟩);;
  len ← get_int L_len;
  (if len =? 0 then
     set_ptr L_front newjob;;
     set_ptr L_rear newjob
   else
     rear ← get_ptr L_rear;
     set_job rear (fun j => j⟨job_prev := newjob⟩);;
     set_ptr L_rear newjob);;
  add_int L_len 1;;
  bsem_post;;
  mutex_unlock L_rwmutex.

Definition jobqueue_pull : P job_ptr :=
  mutex_lock L_rwmutex;;
  job_p ← get_ptr L_front;
  len ← get_int L_len;
  (if len =? 0 then mret tt
   else if len =? 1 then
     set_ptr L_front None;;
     set_ptr L_rear None;;
     set_int L_len 0
   else
     prev ← get_job job_p job_prev;
     set_ptr L_front prev;;
     add_int L_len (-1);;
     bsem_post);;
  mutex_unlock L_rwmutex;;
  mret job_p.

Definition jobqueue_clear : P unit :=
  while (len ← get_int L_len; mret (negb (len =? 0)))
    (job_p ← jobqueue_pull; free_job job_p);;
  set_ptr L_front None;;
  set_ptr L_rear None;;
  bsem_reset;;
  set_int L_len 0.
Definition jobqueue_destroy : P unit := jobqueue_clear;; free bsem_fields.

(** ** Threads *)

(** The handler of SIGUSR1. *)
Definition thread_hold : P unit :=
  set_int L_on_hold 1;;
  while (h ← get_int L_on_hold; mret (negb (h =? 0))) (mret tt).

(** An event of the worker [n]: before it and while it is blocked, the handler runs
    for every pending signal, with the signal blocked meanwhile. *)
Definition deliver (n : nat) {X} (e : poolE X) : P X :=
  ITree.iter (fun _ : unit =>
    signal ← ITree.trigger (Poll n);
    if (signal : bool) then thread_hold;; mret (inl tt)
    else
      r ← ITree.trigger (Interrupt n e);
      match r with Some x => mret (inr x) | None => thread_hold;; mret (inl tt) end) tt.
Definition interruptible (n : nat) {X} (t : P X) : P X :=
  Interp.interp (M := itree poolE) (fun Y e => deliver n e) t.

(** [thread_do] after the handler is installed. *)
Definition thread_work : P unit :=
  mutex_lock L_thcount_lock;;
  add_int L_alive 1;;
  mutex_unlock L_thcount_lock;;
  while (k ← get_int L_keepalive; mret (negb (k =? 0)))
    (bsem_wait;;
     k ← get_int L_keepalive;
     if k =? 0 then mret tt
     else
       mutex_lock L_thcount_lock;;
       add_int L_working 1;;
       mutex_unlock L_thcount_lock;;
       job_p ← jobqueue_pull;
       (match job_p with
        | None => mret tt
        | Some _ =>
            func_buff ← get_job job_p job_function;
            arg_buff ← get_job job_p job_arg;
            ITree.trigger (Call func_buff arg_buff);;
            free_job job_p
        end);;
       mutex_lock L_thcount_lock;;
       add_int L_working (-1);;
       w ← get_int L_working;
       (if w =? 0 then cond_signal L_all_idle else mret tt);;
       mutex_unlock L_thcount_lock);;
  mutex_lock L_thcount_lock;;
  add_int L_alive (-1);;
  mutex_unlock L_thcount_lock.

(** What each worker does; the name of the thread is left out. *)
Definition thread_do (n : nat) : P unit :=
  access (L_thread n) (fun c => Some (tt, c));;
  set_int L_handler 1;;
  interruptible n thread_work.

Definition set_thread (n : nat) (t : option nat) : P unit :=
  access L_threads (fun c => match c with
    | C_threads ts => if decide (n < length ts)%nat then Some (tt, C_threads (<[n := t]> ts)) else None
    | _ => None end).
Definition get_thread (n : nat) : P (option nat) :=
  access L_threads (fun c => match c with C_threads ts => t ← ts !! n; Some (t, c) | _ => None end).

(** The result of [pthread_create] is not looked at. *)
Definition thread_init (n : nat) (id : Z) : P Z :=
  ok ← malloc [L_thread n];
  if negb ok then set_thread n None;; mret (-1)
  else
    set_thread n (Some n);;
    access (L_thread n) (fun _ => Some (tt, C_thread id));;
    ITree.trigger (Spawn n);;
    mret 0.

Fixpoint init_threads (n count : nat) : P unit :=
  match count with
  | O => mret tt
  | S count => thread_init n (Z.of_nat n);; init_threads (S n) count
  end.

Definition thread_destroy (t : option nat) : P unit :=
  match t with Some n => free [L_thread n] | None => mret tt end.
Fixpoint destroy_threads (n count : nat) : P unit :=
  match count with
  | O => mret tt
  | S count => t ← get_thread n; thread_destroy t;; destroy_threads (S n) count
  end.

(** ** The pool *)

Definition pool_fields : list loc :=
  [L_alive; L_working; L_thcount_lock; L_all_idle; L_rwmutex; L_front; L_rear; L_len].

(** The result is whether the pool was made. *)
Definition thpool_init (num_threads : Z) : P bool :=
  set_int L_on_hold 0;;
  set_int L_keepalive 1;;
  let num_threads := if num_threads <? 0 then 0 else num_threads in
  ok ← malloc pool_fields;
  if negb ok then mret false else
  set_int L_alive 0;;
  set_int L_working 0;;
  r ← jobqueue_init;
  if r =? -1 then free pool_fields;; mret false else
  ok ← malloc [L_threads];
  if negb ok then jobqueue_destroy;; free pool_fields;; mret false else
  access L_threads (fun _ => Some (tt, C_threads (replicate (Z.to_nat num_threads) None)));;
  mutex_init L_thcount_lock;;
  cond_init L_all_idle;;
  init_threads 0 (Z.to_nat num_threads);;
  while (alive ← get_int L_alive; mret (negb (alive =? num_threads))) (mret tt);;
  mret true.

Definition thpool_add_work (function_p arg_p : Z) : P Z :=
  newjob ← malloc_job;
  match newjob with
  | None => mret (-1)
  | Some _ =>
      set_job newjob (fun j => j⟨job_function := function_p⟩);;
      set_job newjob (fun j => j⟨job_arg := arg_p⟩);;
      jobqueue_push newjob;;
      mret 0
  end.

Definition thpool_wait : P unit :=
  mutex_lock L_thcount_lock;;
  while (len ← get_int L_len;
         if negb (len =? 0) then mret true
         else working ← get_int L_working; mret (negb (working =? 0)))
    (cond_wait L_all_idle L_thcount_lock);;
  mutex_unlock L_thcount_lock.

(** The two loops wait until no thread is alive, the first for a second of wall time. *)
Definition thpool_destroy (null : bool) : P unit :=
  if null then mret tt else
  threads_total ← get_int L_alive;
  set_int L_keepalive 0;;
  start ← ITree.trigger Time;
  ITree.iter (fun tpassed : Z =>
    go ← (if tpassed <? 1 then alive ← get_int L_alive; mret (negb (alive =? 0)) else mret false);
    if (go : bool) then
      bsem_post_all;;
      stop ← ITree.trigger Time;
      mret (inl (stop - start))
    else mret (inr tt)) 0;;
  while (alive ← get_int L_alive; mret (negb (alive =? 0))) bsem_post_all;;
  jobqueue_destroy;;
  destroy_threads 0 (Z.to_nat threads_total);;
  free [L_threads];;
  free pool_fields.

(** [pthread_kill] for every thread that is alive. *)
Definition pause_one (n : nat) : P (nat + unit) :=
  alive ← get_int L_alive;
  if Z.of_nat n <? alive then
    t ← get_thread n;
    match t with
    | Some m => access (L_thread m) (fun c => Some (tt, c));; ITree.trigger (Kill m)
    | None => undefined
    end;;
    mret (inl (S n))
  else mret (inr tt).
Definition thpool_pause : P unit := ITree.iter pause_one 0%nat.
Definition thpool_resume : P unit := set_int L_on_hold 0.
Definition thpool_num_threads_working : P Z := get_int L_working.

(** ** Running threads *)

Inductive outcome (X : Type) :=
  | Undefined
  | Blocked
  | Next (x : X) (h : gmap loc cell) (spawned : list nat).
#[global] Arguments Undefined {X}.
#[global] Arguments Blocked {X}.
#[global] Arguments Next {X} x h spawned.

(** A ticket that no waiting thread has. *)
Definition new_ticket (ws : gset nat) : nat := S (foldr Nat.max 0%nat (elements ws)).
Lemma new_ticket_fresh ws : new_ticket ws ∉ ws.
Proof.
  intros Hin. apply elem_of_elements in Hin. unfold new_ticket in Hin.
  assert (∀ l n, n ∈ l → (n <= foldr Nat.max 0%nat l)%nat) as Hmax.
  { induction l as [|m l IH]; intros n; [set_solver|]. intros [->|Hn]%elem_of_cons; cbn; [lia|]. specialize (IH n Hn). lia. }
  apply Hmax in Hin. lia.
Qed.

(** The workers with a pending signal. *)
Definition pending (h : gmap loc cell) : gset nat :=
  match h !! L_pending with Some (C_signals ps) => ps | _ => ∅ end.
Definition take_signal (n : nat) (h : gmap loc cell) : gmap loc cell :=
  <[L_pending := C_signals (pending h ∖ {[n]})]> h.

(** One event on the memory [h]; [choice] is what the event leaves open: whether an
    allocation succeeds and which address it gives, whether a waiting thread wakes
    up by itself, the thread a signal wakes, the time, when a pending SIGUSR1 is
    delivered.  There is room for one pool.  Without a handler the signal ends the
    process, which counts as undefined behaviour; [pthread_kill] for a worker that
    has returned, which only a pause during [thpool_destroy] can do, is left out. *)
Fixpoint exec_event {X} (e : poolE X) (choice : Z) (h : gmap loc cell) : outcome X :=
  match e with
  | Access l f =>
      match h !! l ≫= f with Some (x, c) => Next x (<[l := c]> h) [] | None => Undefined end
  | Malloc ls =>
      if decide (Forall (fun l => h !! l = None) ls) then
        if choice =? 0 then Next false h []
        else Next true (foldr (fun l h => <[l := C_junk]> h) h ls) []
      else Blocked
  | Malloc_job =>
      if choice <=? 0 then Next None h []
      else let a := Z.to_pos choice in
        match h !! L_job a with
        | Some _ => Blocked
        | None => Next (Some a) (<[L_job a := C_junk]> h) []
        end
  | Free ls =>
      if decide (Forall (fun l => is_Some (h !! l)) ls) then Next tt (foldr delete h ls) [] else Undefined
  | Lock l =>
      match h !! l with
      | Some (C_mutex false) => Next tt (<[l := C_mutex true]> h) []
      | Some (C_mutex true) => Blocked
      | _ => Undefined
      end
  | Unlock l =>
      match h !! l with Some (C_mutex true) => Next tt (<[l := C_mutex false]> h) [] | _ => Undefined end
  | Cond_enter c m =>
      match h !! c, h !! m with
      | Some (C_cond ws), Some (C_mutex true) =>
          let t := new_ticket ws in
          Next t (<[c := C_cond ({[t]} ∪ ws)]> (<[m := C_mutex false]> h)) []
      | _, _ => Undefined
      end
  | Cond_leave c t =>
      match h !! c with
      | Some (C_cond ws) =>
          if decide (t ∈ ws ∧ choice = 0) then Blocked else Next tt (<[c := C_cond (ws ∖ {[t]})]> h) []
      | _ => Undefined
      end
  | Cond_signal c =>
      match h !! c with
      | Some (C_cond ws) =>
          if decide (ws = ∅) then Next tt h []
          else if decide (Z.to_nat choice ∈ ws) then Next tt (<[c := C_cond (ws ∖ {[Z.to_nat choice]})]> h) []
          else Blocked
      | _ => Undefined
      end
  | Cond_broadcast c =>
      match h !! c with Some (C_cond _) => Next tt (<[c := C_cond ∅]> h) [] | _ => Undefined end
  | Call f a =>
      match h !! L_log with
      | Some (C_log calls) => Next tt (<[L_log := C_log (calls ++ [(f, a)])]> h) []
      | _ => Undefined
      end
  | Spawn n => Next tt h (if choice =? 0 then [] else [n])
  | Kill n =>
      match h !! L_handler with
      | Some (C_int 1) => Next tt (<[L_pending := C_signals ({[n]} ∪ pending h)]> h) []
      | _ => Undefined
      end
  | Poll n =>
      if decide (n ∈ pending h ∧ choice ≠ 0) then Next true (take_signal n h) [] else Next false h []
  | Interrupt n e =>
      match exec_event e choice h with
      | Next x h spawned => Next (Some x) h spawned
      | Blocked => if decide (n ∈ pending h) then Next None (take_signal n h) [] else Blocked
      | Undefined => Undefined
      end
  | Time => Next choice h []
  | Exit => Blocked
  end.

(** The threads of the process: the client's first, then the workers. *)
Inductive tstate := Running (t : P (list (Z * Z))) | Finished (r : list (Z * Z)).

Definition worker (n : nat) : tstate := Running (thread_do n;; mret []).

Definition step_thread (s : tstate) (choice : Z) (h : gmap loc cell) : outcome tstate :=
  match s with
  | Finished _ => Blocked
  | Running t =>
      match observe t with
      | RetF r => Next (Finished r) h []
      | TauF t => Next (Running t) h []
      | VisF e k =>
          match exec_event e choice h with
          | Undefined => Undefined
          | Blocked => Blocked
          | Next x h spawned => Next (Running (k x)) h spawned
          end
      end
  end.

Record pconfig := mk_pconfig { pc_threads : list tstate; pc_heap : gmap loc cell }.

(** Thread [i] makes its next event. *)
Definition pool_step (i : nat) (choice : Z) (c : pconfig) : option pconfig :=
  s ← pc_threads c !! i;
  match step_thread s choice (pc_heap c) with
  | Next s h spawned => Some (mk_pconfig (<[i := s]> (pc_threads c) ++ (worker <$> spawned)) h)
  | _ => None
  end.
Fixpoint pool_steps (sched : list (nat * Z)) (c : pconfig) : option pconfig :=
  match sched with [] => Some c | (i, choice) :: sched => c ← pool_step i choice c; pool_steps sched c end.

Inductive pool_reach (c0 : pconfig) : pconfig → Prop :=
  | pool_reach_start : pool_reach c0 c0
  | pool_reach_step i choice c c' : pool_reach c0 c → pool_step i choice c = Some c' → pool_reach c0 c'.

(** Some thread is about to execute undefined behaviour. *)
Definition pool_crashes (c : pconfig) : Prop :=
  ∃ i s choice, pc_threads c !! i = Some s ∧ step_thread s choice (pc_heap c) = Undefined.

(** A client that makes a pool, adds work, pauses and resumes the workers, and waits;
    the result is the work that was accepted. *)
Inductive command := Add (f a : Z) | Pause | Resume.
Definition jobs_of (cmds : list command) : list (Z * Z) :=
  omap (fun c => match c with Add f a => Some (f, a) | _ => None end) cmds.
Fixpoint run_all (cmds : list command) : P (list (Z * Z)) :=
  match cmds with
  | [] => mret []
  | Add f a :: cmds =>
      r ← thpool_add_work f a;
      accepted ← run_all cmds;
      mret (if r =? 0 then (f, a) :: accepted else accepted)
  | Pause :: cmds => thpool_pause;; run_all cmds
  | Resume :: cmds => thpool_resume;; run_all cmds
  end.
Definition client (num_threads : Z) (cmds : list command) : P (list (Z * Z)) :=
  ok ← thpool_init num_threads;
  if (ok : bool) then
    accepted ← run_all cmds;
    thpool_wait;;
    mret accepted
  else mret [].

(** The memory before the client starts: the static variables, and no call yet. *)
Definition start_heap : gmap loc cell :=
  {[ L_keepalive := C_int 0; L_on_hold := C_int 0; L_handler := C_int 0; L_pending := C_signals ∅;
     L_log := C_log [] ]}.
Definition start_client (num_threads : Z) (cmds : list command) : pconfig :=
  mk_pconfig [Running (client num_threads cmds)] start_heap.

Lemma pool_steps_reach c0 sched c c' : pool_reach c0 c → pool_steps sched c = Some c' → pool_reach c0 c'.
Proof.
  revert c. induction sched as [|[i choice] sched IH]; intros c Hr; cbn; [by intros [= <-]|].
  destruct (pool_step i choice c) as [c1|] eqn:E; [|done]. cbn. apply IH. by eapply pool_reach_step.
Qed.

(** Whether an event is undefined behaviour depends on no choice. *)
Lemma exec_undefined {X} (e : poolE X) choice choice' h :
  exec_event e choice h = Undefined → exec_event e choice' h = Undefined.
Proof.
  induction e as [| | | | | | | | | | | | | |X n e IH| |]; cbn; try (repeat case_match; done).
  destruct (exec_event e choice h); [by rewrite IH|by case_match|done].
Qed.
