(* ===== verification/PoolLogic.v ===== *)
(** * A concurrent separation logic for the thread pool

    The threads of [Pool] as a language of Iris, weakest preconditions for the
    interaction trees, and their rules: one event at a time, with the invariants
    that all threads share open around it. *)

From ITree Require Import ITree.
From iris.proofmode Require Import environments proofmode.
From iris.base_logic.lib Require Import ghost_map invariants.
From iris.program_logic Require Import weakestpre adequacy.
From S2P Require Import Prelude Pool.

(** ** The language *)

Abbreviation result := (list (Z * Z)).
Abbreviation memory := (gmap loc cell).

Definition finished (s : tstate) : option result :=
  match s with Finished r => Some r | Running _ => None end.

(** A blocked thread spins. *)
Definition pool_prim_step (s : tstate) (h : memory) (obs : list unit) (s' : tstate) (h' : memory)
    (spawned : list tstate) : Prop :=
  obs = [] ∧ finished s = None ∧
  ((∃ choice ns, step_thread s choice h = Next s' h' ns ∧ spawned = worker <$> ns) ∨
   (∃ choice, step_thread s choice h = Blocked ∧ s' = s ∧ h' = h ∧ spawned = [])).

Lemma pool_lang_mixin : LanguageMixin Finished finished pool_prim_step.
Proof.
  split.
  - done.
  - intros [t|r] v; cbn; congruence.
  - by intros ?????? (_ & ? & _).
Qed.
Canonical Structure pool_lang : language := Language pool_lang_mixin.

Class poolGS Σ := PoolGS {
  #[global] pool_invGS :: invGS Σ;
  #[global] pool_ghostG :: ghost_mapG Σ loc cell;
  pool_heap_name : gname
}.
#[export] Instance pool_irisGS `{!poolGS Σ} : irisGS pool_lang Σ := {
  state_interp h _ _ _ := ghost_map_auth pool_heap_name 1 (delete L_pending (h : memory));
  fork_post _ := True%I;
  num_laters_per_step _ := 0%nat;
  state_interp_mono _ _ _ _ := fupd_intro _ _
}.

Notation "l ↦{ dq } c" := (ghost_map_elem pool_heap_name l dq c) (at level 20, dq at level 50, format "l  ↦{ dq }  c") : bi_scope.
Notation "l ↦ c" := (ghost_map_elem pool_heap_name l (DfracOwn 1) c) (at level 20, format "l  ↦  c") : bi_scope.

Section pwp.
Context `{!poolGS Σ}.

(** Pending signals are outside of the logic: they may appear at any time. *)
Definition heap_interp (h : memory) : iProp Σ := ghost_map_auth pool_heap_name 1 (delete L_pending h).

Lemma heap_lookup h l dq c : heap_interp h -∗ l ↦{dq} c -∗ ⌜h !! l = Some c⌝.
Proof. iIntros "Hh Hl". by iDestruct (ghost_map_lookup with "Hh Hl") as %[_ ?]%lookup_delete_Some. Qed.
Lemma heap_tracked h l dq c : heap_interp h -∗ l ↦{dq} c -∗ ⌜L_pending ≠ l⌝.
Proof. iIntros "Hh Hl". by iDestruct (ghost_map_lookup with "Hh Hl") as %[? _]%lookup_delete_Some. Qed.
Lemma heap_update c' h l c : heap_interp h -∗ l ↦ c ==∗ heap_interp (<[l := c']> h) ∗ l ↦ c'.
Proof.
  iIntros "Hh Hl". iDestruct (heap_tracked with "Hh Hl") as %Hne. rw /heap_interp delete_insert_ne; [|done].
  iApply (ghost_map_update with "Hh Hl").
Qed.
Lemma heap_insert l c h : h !! l = None → L_pending ≠ l → heap_interp h ==∗ heap_interp (<[l := c]> h) ∗ l ↦ c.
Proof.
  iIntros (Hl Hne) "Hh". rw /heap_interp delete_insert_ne; [|done]. iApply (ghost_map_insert with "Hh").
  by rw lookup_delete_ne.
Qed.
Lemma heap_delete h l c : heap_interp h -∗ l ↦ c ==∗ heap_interp (delete l h).
Proof. iIntros "Hh Hl". rw /heap_interp delete_delete. iApply (ghost_map_delete with "Hh Hl"). Qed.
Lemma heap_signals h c : heap_interp (<[L_pending := c]> h) ⊣⊢ heap_interp h.
Proof. by rw /heap_interp delete_insert_eq. Qed.

(** A spawned worker runs on its own. *)
Definition spawn_ok (ns : list nat) : iProp Σ := [∗ list] n ∈ ns, WP worker n {{ _, True }}.

Definition pwp_pre {X} (rec : P X -d> (X -d> iPropO Σ) -d> iPropO Σ) : P X -d> (X -d> iPropO Σ) -d> iPropO Σ :=
  λ t Φ,
  match observe t with
  | RetF x => |={⊤}=> Φ x
  | TauF t => |={⊤}=> (▷ rec t Φ)
  | VisF e k => ∀ h, heap_interp h ={⊤,∅}=∗
      ⌜∀ choice, exec_event e choice h ≠ Undefined⌝ ∗
      ((∀ choice x h' ns, ⌜exec_event e choice h = Next x h' ns⌝ ={∅}=∗
          (▷ (|={∅,⊤}=> (heap_interp h' ∗ rec (k x) Φ ∗ spawn_ok ns)))) ∧
       (⌜∃ choice, exec_event e choice h = Blocked⌝ ={∅}=∗
          (▷ (|={∅,⊤}=> (heap_interp h ∗ rec (Vis e k) Φ)))))
  end%I.

#[local] Instance pwp_pre_contractive {X} : Contractive (@pwp_pre X).
Proof.
  intros n rec rec' Hrec t Φ. rw /pwp_pre. destruct (observe t); [done| |].
  - f_equiv. f_contractive. apply Hrec.
  - repeat (f_contractive || f_equiv); apply Hrec.
Qed.
Definition pwp {X} : P X → (X → iProp Σ) → iProp Σ := fixpoint (@pwp_pre X).

Lemma pwp_unfold {X} (t : P X) Φ : pwp t Φ ⊣⊢ pwp_pre pwp t Φ.
Proof. apply (fixpoint_unfold (@pwp_pre X)). Qed.

Lemma fupd_pwp_pre {X} (t : P X) Φ : (|={⊤}=> pwp_pre pwp t Φ) ⊢ pwp_pre pwp t Φ.
Proof.
  rw /pwp_pre. destruct (observe t).
  - by iIntros ">H".
  - by iIntros ">H".
  - iIntros "H" (h) "Hh". iMod "H". by iApply "H".
Qed.
Lemma fupd_pwp {X} (t : P X) Φ : (|={⊤}=> pwp t Φ) ⊢ pwp t Φ.
Proof. rw pwp_unfold. apply fupd_pwp_pre. Qed.
Lemma pwp_observe {X} (t t' : P X) Φ : observe t = observe t' → pwp t Φ ⊣⊢ pwp t' Φ.
Proof. intros Ht. by rw (pwp_unfold t) (pwp_unfold t') /pwp_pre Ht. Qed.
Lemma pwp_ret {X} (x : X) Φ : Φ x -∗ pwp (mret x) Φ.
Proof. iIntros "H". rw pwp_unfold /pwp_pre /=. by iModIntro. Qed.
Lemma pwp_tau {X} (t : P X) Φ : ▷ pwp t Φ -∗ pwp (Tau t) Φ.
Proof. iIntros "H". rw (pwp_unfold (Tau t)) /pwp_pre /=. by iModIntro. Qed.

Lemma pwp_wand {X} (t : P X) Φ Ψ : pwp t Φ -∗ (∀ x, Φ x -∗ Ψ x) -∗ pwp t Ψ.
Proof.
  iIntros "H HΦ". iLöb as "IH" forall (t). rw !pwp_unfold /pwp_pre. destruct (observe t).
  - iMod "H". iModIntro. by iApply "HΦ".
  - iMod "H". iModIntro. iNext. iApply ("IH" with "H HΦ").
  - iIntros (h) "Hh". iMod ("H" with "Hh") as "[$ H]". iModIntro. iSplit.
    + iIntros (choice x h' ns) "Hx". iMod ("H" with "Hx") as "H". iModIntro. iNext. iMod "H" as "($ & H & $)".
      iModIntro. iApply ("IH" with "H HΦ").
    + iIntros "Hx". iDestruct "H" as "[_ H]". iMod ("H" with "Hx") as "H". iModIntro. iNext. iMod "H" as "[$ H]".
      iModIntro. iApply ("IH" with "H HΦ").
Qed.

Lemma observe_pbind {X Y} (t : P X) (f : X → P Y) :
  observe (t ≫= f) = match observe t with
    | RetF x => observe (f x)
    | TauF t => TauF (t ≫= f)
    | VisF e k => VisF e (λ x, k x ≫= f)
    end.
Proof. unfold mbind, pool_mbind, observe. cbn. unfold observe. by destruct (_observe t). Qed.

Lemma pwp_bind {X Y} (t : P X) (f : X → P Y) Φ : pwp t (λ x, pwp (f x) Φ) -∗ pwp (t ≫= f) Φ.
Proof.
  iIntros "H". iLöb as "IH" forall (t). rw (pwp_unfold t) (pwp_unfold (t ≫= f)) /pwp_pre observe_pbind.
  destruct (observe t).
  - iApply (fupd_pwp_pre (f r)). iMod "H". by rw pwp_unfold.
  - iMod "H". iModIntro. iNext. iApply ("IH" with "H").
  - iIntros (h) "Hh". iMod ("H" with "Hh") as "[$ H]". iModIntro. iSplit.
    + iIntros (choice x h' ns) "Hx". iMod ("H" with "Hx") as "H". iModIntro. iNext. iMod "H" as "($ & H & $)".
      iModIntro. iApply ("IH" with "H").
    + iIntros "Hx". iDestruct "H" as "[_ H]". iMod ("H" with "Hx") as "H". iModIntro. iNext. iMod "H" as "[$ H]".
      iModIntro. iApply (pwp_observe (Vis e k ≫= f)); [done|]. iApply ("IH" with "H").
Qed.

Lemma pwp_iter {I X} (body : I → P (I + X)) i Φ :
  pwp (body i) (λ r, match r with inl j => ▷ pwp (ITree.iter body j) Φ | inr x => Φ x end) -∗
  pwp (ITree.iter body i) Φ.
Proof.
  iIntros "H". iApply (pwp_observe (body i ≫= λ r, match r with inl j => Tau (ITree.iter body j) | inr x => Ret x end)); [done|].
  iApply pwp_bind. iApply (pwp_wand with "H"). iIntros ([j|x]) "H"; [by iApply pwp_tau|by iApply pwp_ret].
Qed.

(** A loop with the invariant [I], which holds when the condition is evaluated. *)
Lemma pwp_while (I Q : iProp Σ) cond body Φ :
  I -∗ □ (I -∗ pwp cond (λ b, if b : bool then pwp body (λ _, I) else Q)) -∗ (Q -∗ Φ tt) -∗
  pwp (while cond body) Φ.
Proof.
  iIntros "HI #H HQ". iLöb as "IH". iApply pwp_iter. iApply pwp_bind. iApply (pwp_wand with "(H HI)").
  iIntros ([|]) "Hb"; [|iApply pwp_ret; by iApply "HQ"]. iApply pwp_bind. iApply (pwp_wand with "Hb"). iIntros (_) "HI".
  iApply pwp_ret. iNext. iApply ("IH" with "HI HQ").
Qed.

(** A thread of the language. *)
Lemma pwp_wp (t : P result) Φ : pwp t Φ -∗ WP Running t {{ Φ }}.
Proof.
  iIntros "H". iLöb as "IH" forall (t). iApply wp_unfold. rw /wp_pre /=. iIntros (h ns κ κs nt) "Hh".
  rw pwp_unfold /pwp_pre. destruct (observe t) as [x|t'|A e k] eqn:Ht.
  - iMod "H". iApply fupd_mask_intro; [set_solver|]. iIntros "Hclose". iSplit.
    { iPureIntro. exists [], (Finished x), h, []. split_and!; [done..|]. left. exists 0, []. by rw /= Ht. }
    iIntros (s' h' efs (-> & _ & [(choice & ms & Hs & ->)|(choice & Hs & _)])) "_"; rw /= Ht in Hs; simplify_eq.
    iModIntro. iNext. iModIntro. iMod "Hclose". iModIntro. iFrame. by iApply wp_value.
  - iMod "H". iApply fupd_mask_intro; [set_solver|]. iIntros "Hclose". iSplit.
    { iPureIntro. exists [], (Running t'), h, []. split_and!; [done..|]. left. exists 0, []. by rw /= Ht. }
    iIntros (s' h' efs (-> & _ & [(choice & ms & Hs & ->)|(choice & Hs & _)])) "_"; rw /= Ht in Hs; simplify_eq.
    iModIntro. iNext. iModIntro. iMod "Hclose". iModIntro. iFrame. by iApply "IH".
  - iMod ("H" with "Hh") as "[%Hok H]". iModIntro. iSplit.
    { iPureIntro. destruct (exec_event e 0 h) as [| |x h' ms] eqn:He; [by destruct (Hok 0)| |].
      - exists [], (Running t), h, []. split_and!; [done..|]. right. exists 0. split_and!; [|done..]. by rw /= Ht He.
      - exists [], (Running (k x)), h', (worker <$> ms). split_and!; [done..|]. left. exists 0, ms. split; [|done]. by rw /= Ht He. }
    iIntros (s' h' efs (-> & _ & [(choice & ms & Hs & ->)|(choice & Hs & -> & -> & ->)])) "_"; rw /= Ht in Hs.
    + destruct (exec_event e choice h) as [| |x h1 ms1] eqn:He; simplify_eq. iDestruct "H" as "[H _]".
      iMod ("H" with "[//]") as "H". iModIntro. iNext. iModIntro. iMod "H" as "($ & H & Hs)". iModIntro.
      iSplitL "H"; [by iApply "IH"|]. by rw big_sepL_fmap.
    + destruct (exec_event e choice h) as [| |x h1 ms1] eqn:He; simplify_eq. iDestruct "H" as "[_ H]".
      iMod ("H" with "[%]") as "H"; [by exists choice|]. iModIntro. iNext. iModIntro. iMod "H" as "[$ H]". iModIntro.
      iSplit; [|done]. iApply "IH". by iApply (pwp_observe (Vis e k)).
Qed.

(** ** Events *)

Lemma pwp_trigger {X} (e : poolE X) Φ :
  (∀ h, heap_interp h ={⊤,∅}=∗
    ⌜∀ choice, exec_event e choice h ≠ Undefined⌝ ∗
    ((∀ choice x h' ns, ⌜exec_event e choice h = Next x h' ns⌝ ={∅}=∗
        (▷ (|={∅,⊤}=> (heap_interp h' ∗ Φ x ∗ spawn_ok ns)))) ∧
     (⌜∃ choice, exec_event e choice h = Blocked⌝ ={∅}=∗
        (▷ (|={∅,⊤}=> (heap_interp h ∗ pwp (ITree.trigger e) Φ)))))) -∗
  pwp (ITree.trigger e) Φ.
Proof.
  iIntros "H". rw {2}pwp_unfold /pwp_pre /=. iIntros (h) "Hh". iMod ("H" with "Hh") as "[$ H]". iModIntro. iSplit.
  - iDestruct "H" as "[H _]". iIntros (choice x h' ns) "Hx". iMod ("H" with "Hx") as "H". iModIntro. iNext.
    iMod "H" as "($ & H & $)". iModIntro. by iApply pwp_ret.
  - iDestruct "H" as "[_ H]". iIntros "Hx". iMod ("H" with "Hx") as "H". iModIntro. iNext.
    iMod "H" as "[$ H]". iModIntro. by iApply pwp_observe.
Qed.

(** An event that does not wait, with invariants open around it. *)
Lemma pwp_step {X} (e : poolE X) Φ E :
  (|={⊤,E}=> ∀ h, heap_interp h -∗
    ⌜∀ choice, exec_event e choice h ≠ Undefined ∧ exec_event e choice h ≠ Blocked⌝ ∗
    (∀ choice x h' ns, ⌜exec_event e choice h = Next x h' ns⌝ ==∗
        heap_interp h' ∗ spawn_ok ns ∗ (|={E,⊤}=> Φ x))) -∗
  pwp (ITree.trigger e) Φ.
Proof.
  iIntros "H". iApply pwp_trigger. iIntros (h) "Hh". iMod "H". iDestruct ("H" with "Hh") as "[%Hok H]".
  iApply fupd_mask_intro; [set_solver|]. iIntros "Hclose". iSplit; [iPureIntro; by apply Hok|]. iSplit.
  - iIntros (choice x h' ns) "Hx". iMod ("H" with "Hx") as "($ & $ & H)". iModIntro. iNext. by iMod "Hclose".
  - iIntros ([choice Hc]). by destruct (Hok choice).
Qed.

(** One whose effect is determined. *)
Lemma pwp_step_det {X} (e : poolE X) Φ E :
  (|={⊤,E}=> ∀ h, heap_interp h -∗ ∃ x h', ⌜∀ choice, exec_event e choice h = Next x h' []⌝ ∗
    (|==> (heap_interp h' ∗ (|={E,⊤}=> Φ x)))) -∗
  pwp (ITree.trigger e) Φ.
Proof.
  iIntros "H". iApply pwp_step. iMod "H". iModIntro. iIntros (h) "Hh". iDestruct ("H" with "Hh") as (x h' He) "H".
  iSplit; [iPureIntro; intros choice; by rw He|]. iIntros (choice y h1 ns Hx). rw He in Hx. simplify_eq.
  iMod "H" as "[$ $]". iModIntro. by rw /spawn_ok /=.
Qed.

Lemma pwp_access {X} l (f : cell → option (X * cell)) Φ E :
  (|={⊤,E}=> ∃ c x c', ⌜f c = Some (x, c')⌝ ∗ l ↦ c ∗ (l ↦ c' ={E,⊤}=∗ Φ x)) -∗ pwp (access l f) Φ.
Proof.
  iIntros "H". iApply pwp_step_det. iMod "H" as (c x c' Hf) "[Hl H]". iModIntro. iIntros (h) "Hh".
  iDestruct (heap_lookup with "Hh Hl") as %Hl. iExists x, (<[l := c']> h).
  iSplit; [iPureIntro; intros ?; by rw /= Hl /= Hf|].
  iMod (heap_update with "Hh Hl") as "[$ Hl]". iModIntro. by iApply "H".
Qed.
Lemma pwp_read {X} l (f : cell → option (X * cell)) Φ E :
  (|={⊤,E}=> ∃ dq c x, ⌜f c = Some (x, c)⌝ ∗ l ↦{dq} c ∗ (l ↦{dq} c ={E,⊤}=∗ Φ x)) -∗ pwp (access l f) Φ.
Proof.
  iIntros "H". iApply pwp_step_det. iMod "H" as (dq c x Hf) "[Hl H]". iModIntro. iIntros (h) "Hh".
  iDestruct (heap_lookup with "Hh Hl") as %Hl. iExists x, h.
  iSplit; [iPureIntro; intros ?; by rw /= Hl /= Hf insert_id|].
  iModIntro. iFrame "Hh". by iApply "H".
Qed.

(** The common cases: a cell that the thread owns. *)
Lemma pwp_get_int l dq z Φ : l ↦{dq} C_int z -∗ (l ↦{dq} C_int z -∗ Φ z) -∗ pwp (get_int l) Φ.
Proof. iIntros "Hl H". iApply pwp_read. iModIntro. iExists _, _, _. iFrame "Hl". iSplit; [done|]. iIntros "Hl !>". by iApply "H". Qed.
Lemma pwp_get_ptr l dq p Φ : l ↦{dq} C_ptr p -∗ (l ↦{dq} C_ptr p -∗ Φ p) -∗ pwp (get_ptr l) Φ.
Proof. iIntros "Hl H". iApply pwp_read. iModIntro. iExists _, _, _. iFrame "Hl". iSplit; [done|]. iIntros "Hl !>". by iApply "H". Qed.
Lemma pwp_set {X} l c c' (f : cell → option (X * cell)) x Φ :
  f c = Some (x, c') → l ↦ c -∗ (l ↦ c' -∗ Φ x) -∗ pwp (access l f) Φ.
Proof. iIntros (Hf) "Hl H". iApply pwp_access. iModIntro. iExists _, _, _. iFrame "Hl". iSplit; [done|]. iIntros "Hl !>". by iApply "H". Qed.
Lemma pwp_set_int l c z Φ : l ↦ c -∗ (l ↦ C_int z -∗ Φ tt) -∗ pwp (set_int l z) Φ.
Proof. by apply pwp_set. Qed.
Lemma pwp_set_ptr l c p Φ : l ↦ c -∗ (l ↦ C_ptr p -∗ Φ tt) -∗ pwp (set_ptr l p) Φ.
Proof. by apply pwp_set. Qed.

(** ** Memory *)

Lemma heap_malloc h ls : Forall (fun l => h !! l = None) ls → NoDup (L_pending :: ls) →
  heap_interp h ==∗ heap_interp (foldr (fun l h => <[l := C_junk]> h) h ls) ∗ [∗ list] l ∈ ls, l ↦ C_junk.
Proof.
  iIntros (Hls [Hp Hnd]%list.NoDup_cons) "Hh". iInduction ls as [|l ls] "IH"; cbn; [by iFrame|].
  apply list.Forall_cons in Hls as [Hl Hls]. apply list.NoDup_cons in Hnd as [Hnl Hnd].
  apply not_elem_of_cons in Hp as [Hpl Hp]. iMod ("IH" with "[//] [//] [//] Hh") as "[Hh $]".
  iMod (heap_insert l C_junk with "Hh") as "[$ $]"; [|done..].
  clear -Hl Hnl. induction ls as [|k ls IH]; cbn; [done|]. rw lookup_insert_ne; [apply IH|]; set_solver.
Qed.
Lemma pwp_malloc ls Φ : NoDup (L_pending :: ls) →
  (∀ ok : bool, (if ok then [∗ list] l ∈ ls, l ↦ C_junk else True) -∗ Φ ok) -∗ pwp (malloc ls) Φ.
Proof.
  iIntros (Hnd) "H". iLöb as "IH". iApply pwp_trigger. iIntros (h) "Hh".
  iApply fupd_mask_intro; [set_solver|]. iIntros "Hclose". cbn. destruct (decide _) as [Hls|Hls].
  - iSplit; [iPureIntro; intros choice; by case_match|]. iSplit; [|iIntros ([choice ?]); by case_match].
    iIntros (choice ok h' ns He). case_match; simplify_eq.
    + iModIntro. iNext. iMod "Hclose". iModIntro. iFrame. by iApply "H".
    + iMod (heap_malloc with "Hh") as "[Hh Hls]"; [done..|]. iModIntro. iNext. iMod "Hclose". iModIntro. iFrame.
      iApply ("H" $! true with "Hls").
  - iSplit; [done|]. iSplit; [by iIntros (?????)|]. iIntros "_ !> !>". iMod "Hclose". iModIntro. iFrame. iApply ("IH" with "H").
Qed.
Lemma pwp_malloc_job Φ :
  (∀ p, match p with Some a => L_job a ↦ C_junk | None => True end -∗ Φ p) -∗ pwp malloc_job Φ.
Proof.
  iIntros "H". iLöb as "IH". iApply pwp_trigger. iIntros (h) "Hh".
  iApply fupd_mask_intro; [set_solver|]. iIntros "Hclose". cbn.
  iSplit; [iPureIntro; intros choice; by repeat case_match|]. iSplit.
  - iIntros (choice p h' ns He). repeat case_match; simplify_eq.
    + iModIntro. iNext. iMod "Hclose". iModIntro. iFrame. by iApply "H".
    + iMod (heap_insert with "Hh") as "[Hh Hl]"; [done..|]. iModIntro. iNext. iMod "Hclose". iModIntro. iFrame.
      iApply ("H" $! (Some _) with "Hl").
  - iIntros "_ !> !>". iMod "Hclose". iModIntro. iFrame. iApply ("IH" with "H").
Qed.
Lemma heap_free h ls : heap_interp h -∗ ([∗ list] l ∈ ls, ∃ c, l ↦ c) ==∗
  ⌜Forall (fun l => is_Some (h !! l)) ls⌝ ∗ heap_interp (foldr delete h ls).
Proof.
  iIntros "Hh Hls". iInduction ls as [|l ls] "IH"; cbn; [iFrame; iModIntro; by iPureIntro|].
  iDestruct "Hls" as "[[%c Hl] Hls]". iDestruct (heap_lookup with "Hh Hl") as %Hl.
  iMod ("IH" with "Hh Hls") as "[%Hls Hh]". iMod (heap_delete with "Hh Hl") as "$".
  iModIntro. iPureIntro. by constructor.
Qed.
Lemma pwp_free ls Φ : ([∗ list] l ∈ ls, ∃ c, l ↦ c) -∗ Φ tt -∗ pwp (free ls) Φ.
Proof.
  iIntros "Hls H". iApply pwp_trigger. iIntros (h) "Hh". iMod (heap_free with "Hh Hls") as "[%Hls Hh]".
  iApply fupd_mask_intro; [set_solver|]. iIntros "Hclose". cbn. rw decide_True; [|done].
  iSplit; [by iPureIntro|]. iSplit; [|by iIntros ([? ?])].
  iIntros (choice ok h' ns He). simplify_eq. iModIntro. iNext. iMod "Hclose". iModIntro. by iFrame.
Qed.

(** ** Mutexes and condition variables *)

Definition lockN : namespace := nroot .@ "lock".
Definition condN : namespace := nroot .@ "cond".

Definition held (l : loc) : iProp Σ := l ↦{DfracOwn (1/2)} C_mutex true.
Definition is_lock (l : loc) (R : iProp Σ) : iProp Σ :=
  inv lockN (∃ b, l ↦{DfracOwn (1/2)} C_mutex b ∗ if b : bool then True else l ↦{DfracOwn (1/2)} C_mutex false ∗ R).
Definition is_cond (c : loc) : iProp Σ := inv condN (∃ ws, c ↦ C_cond ws).

#[export] Instance is_lock_persistent l R : Persistent (is_lock l R).
Proof. apply _. Qed.
#[export] Instance is_cond_persistent c : Persistent (is_cond c).
Proof. apply _. Qed.

Lemma half_split l c : l ↦ c ⊣⊢ l ↦{DfracOwn (1/2)} c ∗ l ↦{DfracOwn (1/2)} c.
Proof. by rw -ghost_map_elem_fractional Qp.half_half. Qed.
Lemma half_agree l c c' : l ↦{DfracOwn (1/2)} c -∗ l ↦{DfracOwn (1/2)} c' -∗ ⌜c = c'⌝.
Proof. iIntros "H H'". by iDestruct (ghost_map_elem_agree with "H H'") as %->. Qed.

Lemma is_lock_alloc l R E : l ↦ C_mutex false -∗ R ={E}=∗ is_lock l R.
Proof.
  iIntros "Hl HR". iApply inv_alloc. iNext. iExists false. rw half_split. iDestruct "Hl" as "[$ $]". iFrame.
Qed.
Lemma is_cond_alloc c E : c ↦ C_cond ∅ ={E}=∗ is_cond c.
Proof. iIntros "Hc". iApply inv_alloc. iNext. by iExists ∅. Qed.

Lemma pwp_lock l R Φ : is_lock l R -∗ (held l -∗ R -∗ Φ tt) -∗ pwp (mutex_lock l) Φ.
Proof.
  iIntros "#Hl H". iLöb as "IH". iApply pwp_trigger. iIntros (h) "Hh".
  iInv "Hl" as (b) "[>Hb Hl']" "Hclose". iDestruct (heap_lookup with "Hh Hb") as %Hb.
  iApply fupd_mask_intro; [set_solver|]. iIntros "Hmask". destruct b; cbn; rw Hb.
  - iSplit; [done|]. iSplit; [by iIntros (?????)|]. iIntros "_ !> !>". iMod "Hmask". 
    iMod ("Hclose" with "[Hb]") as "_"; [iNext; iExists true; by iFrame|]. iModIntro. iFrame. iApply ("IH" with "H").
  - iSplit; [done|]. iSplit; [|by iIntros ([? ?])]. iIntros (choice x h' ns He). simplify_eq.
    iDestruct "Hl'" as "[>Hb' HR]". iCombine "Hb Hb'" as "Hb".
    iMod (heap_update (C_mutex true) with "Hh Hb") as "[Hh Hb]". iModIntro. iNext. iMod "Hmask".
    rw half_split. iDestruct "Hb" as "[Hb Hb']".
    iMod ("Hclose" with "[Hb]") as "_"; [iNext; iExists true; by iFrame|]. iModIntro. iFrame. iApply ("H" with "Hb' HR").
Qed.

Lemma pwp_unlock l R Φ : is_lock l R -∗ held l -∗ R -∗ Φ tt -∗ pwp (mutex_unlock l) Φ.
Proof.
  iIntros "#Hl Hheld HR H". iApply pwp_step_det. iInv "Hl" as (b) "[>Hb Hl']" "Hclose". iModIntro. iIntros (h) "Hh".
  iDestruct (half_agree with "Hheld Hb") as %[= <-]. iDestruct (heap_lookup with "Hh Hb") as %Hb.
  iCombine "Hheld Hb" as "Hb". iExists tt, (<[l := C_mutex false]> h).
  iSplit; [iPureIntro; intros ?; by rw /= Hb|]. iMod (heap_update with "Hh Hb") as "[$ Hb]". iModIntro.
  iMod ("Hclose" with "[Hb HR]") as "_"; [|done]. iNext. iExists false. rw half_split. iDestruct "Hb" as "[$ $]". iFrame.
Qed.

Lemma pwp_cond_enter c m R Φ :
  is_cond c -∗ is_lock m R -∗ held m -∗ R -∗ (∀ t, Φ t) -∗ pwp (ITree.trigger (Cond_enter c m)) Φ.
Proof.
  iIntros "#Hc #Hm Hheld HR H". iApply pwp_step_det.
  iInv "Hc" as (ws) ">Hws" "Hclosec". iInv "Hm" as (b) "[>Hb Hm']" "Hclose". iModIntro. iIntros (h) "Hh".
  iDestruct (half_agree with "Hheld Hb") as %[= <-]. iDestruct (heap_lookup with "Hh Hb") as %Hb.
  iDestruct (heap_lookup with "Hh Hws") as %Hws. iCombine "Hheld Hb" as "Hb".
  iExists (new_ticket ws), (<[c := C_cond ({[new_ticket ws]} ∪ ws)]> (<[m := C_mutex false]> h)).
  iSplit; [iPureIntro; intros ?; by rw /= Hws Hb|].
  iMod (heap_update (C_mutex false) with "Hh Hb") as "[Hh Hb]".
  iMod (heap_update with "Hh Hws") as "[$ Hws]". iModIntro.
  iMod ("Hclose" with "[Hb HR]") as "_".
  { iNext. iExists false. rw half_split. iDestruct "Hb" as "[$ $]". iFrame. }
  iMod ("Hclosec" with "[Hws]") as "_"; [by iExists _|]. by iApply "H".
Qed.
Lemma pwp_cond_leave c t Φ : is_cond c -∗ Φ tt -∗ pwp (ITree.trigger (Cond_leave c t)) Φ.
Proof.
  iIntros "#Hc H". iLöb as "IH". iApply pwp_trigger. iIntros (h) "Hh".
  iInv "Hc" as (ws) ">Hws" "Hclose". iDestruct (heap_lookup with "Hh Hws") as %Hws.
  iApply fupd_mask_intro; [set_solver|]. iIntros "Hmask". cbn [exec_event]. rw Hws.
  iSplit; [iPureIntro; intros ?; by case_match|]. iSplit.
  - iIntros (choice x h' ns He). case_match; simplify_eq.
    iMod (heap_update with "Hh Hws") as "[Hh Hws]". iModIntro. iNext. iMod "Hmask".
    iMod ("Hclose" with "[Hws]") as "_"; [by iExists _|]. iModIntro. by iFrame.
  - iIntros "_ !> !>". iMod "Hmask". iMod ("Hclose" with "[Hws]") as "_"; [by iExists _|]. iModIntro. iFrame.
    iApply ("IH" with "H").
Qed.
Lemma pwp_cond_wait c m R Φ :
  is_cond c -∗ is_lock m R -∗ held m -∗ R -∗ (held m -∗ R -∗ Φ tt) -∗ pwp (cond_wait c m) Φ.
Proof.
  iIntros "#Hc #Hm Hheld HR H". iApply pwp_bind. iApply (pwp_cond_enter with "Hc Hm Hheld HR"). iIntros (t).
  iApply pwp_bind. iApply (pwp_cond_leave with "Hc"). by iApply (pwp_lock with "Hm").
Qed.
Lemma pwp_cond_signal c Φ : is_cond c -∗ Φ tt -∗ pwp (cond_signal c) Φ.
Proof.
  iIntros "#Hc H". iLöb as "IH". iApply pwp_trigger. iIntros (h) "Hh".
  iInv "Hc" as (ws) ">Hws" "Hclose". iDestruct (heap_lookup with "Hh Hws") as %Hws.
  iApply fupd_mask_intro; [set_solver|]. iIntros "Hmask". cbn [exec_event]. rw Hws.
  iSplit; [iPureIntro; intros ?; by repeat case_match|]. iSplit.
  - iIntros (choice x h' ns He). repeat case_match; simplify_eq.
    + iModIntro. iNext. iMod "Hmask". iMod ("Hclose" with "[Hws]") as "_"; [by iExists _|]. iModIntro. by iFrame.
    + iMod (heap_update with "Hh Hws") as "[Hh Hws]". iModIntro. iNext. iMod "Hmask".
      iMod ("Hclose" with "[Hws]") as "_"; [by iExists _|]. iModIntro. by iFrame.
  - iIntros "_ !> !>". iMod "Hmask". iMod ("Hclose" with "[Hws]") as "_"; [by iExists _|]. iModIntro. iFrame.
    iApply ("IH" with "H").
Qed.

(** ** Calls and threads *)

Lemma pwp_call f a Φ E :
  (|={⊤,E}=> ∃ calls, L_log ↦ C_log calls ∗ (L_log ↦ C_log (calls ++ [(f, a)]) ={E,⊤}=∗ Φ tt)) -∗
  pwp (ITree.trigger (Call f a)) Φ.
Proof.
  iIntros "H". iApply pwp_step_det. iMod "H" as (calls) "[Hl H]". iModIntro. iIntros (h) "Hh".
  iDestruct (heap_lookup with "Hh Hl") as %Hl. iExists tt, _. iSplit; [iPureIntro; intros ?; by rw /= Hl|].
  iMod (heap_update with "Hh Hl") as "[$ Hl]". iModIntro. by iApply "H".
Qed.
Lemma pwp_spawn n Φ : WP worker n {{ _, True }} -∗ Φ tt -∗ pwp (ITree.trigger (Spawn n)) Φ.
Proof.
  iIntros "Hw H". iApply pwp_step. iModIntro. iIntros (h) "Hh". iSplit; [iPureIntro; by intros|].
  iIntros (choice x h' ns He). cbn in He. simplify_eq. iModIntro. iFrame. rw /spawn_ok. case_decide || case_match; cbn; by iFrame.
Qed.

(** ** Signals *)

Lemma pwp_kill n Φ : L_handler ↦{DfracDiscarded} C_int 1 -∗ Φ tt -∗ pwp (ITree.trigger (Kill n)) Φ.
Proof.
  iIntros "#Hs H". iApply pwp_step_det. iModIntro. iIntros (h) "Hh". iDestruct (heap_lookup with "Hh Hs") as %Hs.
  iExists tt, _. iSplit; [iPureIntro; intros ?; by rw /= Hs|]. iModIntro. rw heap_signals. iFrame. by iModIntro.
Qed.
Lemma pwp_poll n Φ : (∀ b, Φ b) -∗ pwp (ITree.trigger (Poll n)) Φ.
Proof.
  iIntros "H". iApply pwp_step. iModIntro. iIntros (h) "Hh".
  iSplit; [iPureIntro; intros choice; cbn; by case_decide|]. iIntros (choice x h' ns He). cbn in He.
  case_decide; simplify_eq; rw ?heap_signals /spawn_ok /=; iFrame; iModIntro; (iSplit; [done|]); by iModIntro.
Qed.

(** The event happens, or the thread is back where it was. *)
Lemma pwp_interrupt {X Y} n (e : poolE X) (k : X → P Y) Φ :
  pwp (Vis e k) Φ -∗
  pwp (ITree.trigger (Interrupt n e)) (λ r, match r with Some x => pwp (k x) Φ | None => pwp (Vis e k) Φ end).
Proof.
  iIntros "H". iLöb as "IH". iApply pwp_trigger. iIntros (h) "Hh".
  iEval (rw pwp_unfold /pwp_pre /=) in "H". iMod ("H" with "Hh") as "[%Hok H]". iModIntro. iSplit.
  { iPureIntro. intros choice. cbn. specialize (Hok choice). destruct (exec_event e choice h); [done|by case_decide|done]. }
  iSplit.
  - iIntros (choice r h' ns He). cbn in He. destruct (exec_event e choice h) as [| |x h1 ms] eqn:Hx; [done| |].
    + case_decide; simplify_eq. iDestruct "H" as "[_ H]". iMod ("H" with "[%]") as "H"; [by exists choice|].
      iModIntro. iNext. iMod "H" as "[Hh H]". iModIntro. rw /take_signal heap_signals /spawn_ok /=. by iFrame.
    + simplify_eq. iDestruct "H" as "[H _]". iMod ("H" with "[//]") as "H". iModIntro. iNext. iMod "H" as "($ & H & $)".
      by iModIntro.
  - iIntros ([choice Hb]). iDestruct "H" as "[_ H]". iMod ("H" with "[%]") as "H".
    { exists choice. cbn in Hb. by destruct (exec_event e choice h). }
    iModIntro. iNext. iMod "H" as "[$ H]". iModIntro. iApply ("IH" with "H").
Qed.

(** A thread that is right without signals is right with them, if the handler does
    no harm. *)
Lemma pwp_interruptible {X} n (t : P X) Φ :
  □ (∀ Ψ, Ψ tt -∗ pwp thread_hold Ψ) -∗ pwp t Φ -∗ pwp (interruptible n t) Φ.
Proof.
  iIntros "#Hhold H". iLöb as "IH" forall (t). iApply pwp_iter. destruct (observe t) as [x|t'|A e k] eqn:Ht.
  - iEval (rw pwp_unfold /pwp_pre Ht) in "H". iApply fupd_pwp. iMod "H". iModIntro. by iApply pwp_ret.
  - iEval (rw pwp_unfold /pwp_pre Ht) in "H". iApply fupd_pwp. iMod "H". iModIntro. iApply pwp_ret. iNext.
    iApply ("IH" with "H").
  - iApply (pwp_bind (deliver n e) (λ x, mret (inl (k x)))).
    iDestruct (pwp_observe t (Vis e k) with "H") as "H"; [done|].
    iAssert (pwp (deliver n e) (λ x, pwp (k x) Φ)) with "[H]" as "H".
    { iLöb as "IHd". iApply pwp_iter. iApply pwp_bind. iApply pwp_poll. iIntros ([|]).
      - iApply pwp_bind. iApply "Hhold". iApply pwp_ret. iNext. iApply ("IHd" with "H").
      - iApply pwp_bind. iApply (pwp_wand with "[H]"); [by iApply pwp_interrupt|]. iIntros ([x|]) "H"; [by iApply pwp_ret|].
        iApply pwp_bind. iApply "Hhold". iApply pwp_ret. iNext. iApply ("IHd" with "H"). }
    iApply (pwp_wand with "H"). iIntros (x) "H". iApply pwp_ret. iNext. iApply ("IH" with "H").
Qed.
End pwp.

(** The next event is an access to a cell that the thread owns. *)
Ltac pbind := repeat iApply pwp_bind.
Tactic Notation "pacc" constr(H) :=
  pbind; first [iApply (pwp_get_int with H) | iApply (pwp_get_ptr with H) | iApply (pwp_set with H); [done|]]; iIntros H.
