(* ===== verification/PoolState.v ===== *)
(** * The bookkeeping of the thread pool

    What the client, the queue and the workers have done with every job, as finite
    maps, and how the steps of the code change it. *)

From S2P Require Import Prelude Pool.

(** The jobs are numbered in the order in which they were accepted. *)
Inductive jstatus := Queued | Taken | Done.
#[export] Instance jstatus_eq_dec : EqDecision jstatus.
Proof. solve_decision. Defined.
(** A worker: not running yet, between jobs, counted as working, or with job [i]. *)
Inductive wphase := Unstarted | Idle | Active | Busy (i : nat).

(** What stays true once it is: the pool is there, a job is off the queue, or done. *)
Inductive fact := F_made | F_dequeued (i : nat) | F_done (i : nat).
#[export] Instance fact_eq_dec : EqDecision fact.
Proof. solve_decision. Defined.
#[export] Program Instance fact_countable : Countable fact :=
  inj_countable' (fun f => match f with F_made => inl tt | F_dequeued i => inr (inl i) | F_done i => inr (inr i) end)
    (fun c => match c with inl _ => F_made | inr (inl i) => F_dequeued i | inr (inr i) => F_done i end) _.
Next Obligation. by intros []. Qed.

Abbreviation call := (Z * Z)%type.

Definition started_one (p : wphase) : Z := match p with Unstarted => 0 | _ => 1 end.
Definition active_one (p : wphase) : Z := match p with Active | Busy _ => 1 | _ => 0 end.
Definition n_started : gmap nat wphase → Z := msum started_one.
Definition n_active : gmap nat wphase → Z := msum active_one.

(** [acc] is the work accepted so far out of the [plan] of the client, its first [k]
    jobs have left the queue, [calls] are the calls made so far, of the jobs [idxs]. *)
Record pool_ok (plan : list call) (workers : nat) (m : gmap nat (call * jstatus)) (ws : gmap nat wphase)
    (acc : list call) (k : nat) (calls : list call) (idxs : list nat) (F : gset fact) : Prop := {
  ok_jobs : fst <$> m = map_seq 0 acc;
  ok_plan : acc `sublist_of` plan;
  ok_head : (k <= length acc)%nat;
  ok_queue : ∀ i c st, m !! i = Some (c, st) → st = Queued ↔ (k <= i)%nat;
  ok_order : (workers <= 1)%nat → idxs = seq 0 (length idxs);
  ok_calls : Forall2 (fun i c => m !! i = Some (c, Done)) idxs calls;
  ok_nodup : NoDup idxs;
  ok_all : ∀ i c, m !! i = Some (c, Done) → i ∈ idxs;
  ok_taken : ∀ i c, m !! i = Some (c, Taken) → ∃ j, ws !! j = Some (Busy i);
  ok_workers : dom ws = set_seq 0 workers;
  ok_dequeued : ∀ i, F_dequeued i ∈ F → ∃ c st, m !! i = Some (c, st) ∧ st ≠ Queued;
  ok_done : ∀ i, F_done i ∈ F → ∃ c, m !! i = Some (c, Done)
}.

#[global] Arguments ok_jobs {_ _ _ _ _ _ _ _ _} _.
#[global] Arguments ok_plan {_ _ _ _ _ _ _ _ _} _.
#[global] Arguments ok_head {_ _ _ _ _ _ _ _ _} _.
#[global] Arguments ok_queue {_ _ _ _ _ _ _ _ _} _.
#[global] Arguments ok_order {_ _ _ _ _ _ _ _ _} _.
#[global] Arguments ok_calls {_ _ _ _ _ _ _ _ _} _.
#[global] Arguments ok_nodup {_ _ _ _ _ _ _ _ _} _.
#[global] Arguments ok_all {_ _ _ _ _ _ _ _ _} _.
#[global] Arguments ok_taken {_ _ _ _ _ _ _ _ _} _.
#[global] Arguments ok_workers {_ _ _ _ _ _ _ _ _} _.
#[global] Arguments ok_dequeued {_ _ _ _ _ _ _ _ _} _.
#[global] Arguments ok_done {_ _ _ _ _ _ _ _ _} _.

Section transitions.
Context {plan : list call} {workers : nat}.
Implicit Types (m : gmap nat (call * jstatus)) (ws : gmap nat wphase) (acc calls : list call) (F : gset fact).

Lemma pool_ok_start ws : dom ws = set_seq 0 workers → pool_ok plan workers ∅ ws [] 0 [] [] ∅.
Proof. intros Hw. split; try done; [apply sublist_nil_l|constructor|set_solver..]. Qed.

(** *** Bounds *)

Lemma ok_size {m ws acc k calls idxs F} : pool_ok plan workers m ws acc k calls idxs F → size m = length acc.
Proof.
  intros Hok. rewrite <- (map_size_fmap fst), (ok_jobs Hok). 
  rewrite <- size_dom, dom_seq_L. apply size_set_seq.
Qed.
Lemma n_started_bounds ws : 0 <= n_started ws <= Z.of_nat (size ws).
Proof. split; [apply msum_nonneg|apply msum_le_size]; intros i [] _; cbn; lia. Qed.
Lemma n_active_bounds ws : 0 <= n_active ws <= Z.of_nat (size ws).
Proof. split; [apply msum_nonneg|apply msum_le_size]; intros i [] _; cbn; lia. Qed.
Lemma n_started_set ws j p p' : ws !! j = Some p → n_started (<[j := p']> ws) = n_started ws + (started_one p' - started_one p).
Proof. intros Hj. unfold n_started. rewrite (msum_insert _ _ _ _ _ Hj). lia. Qed.
Lemma n_active_set ws j p p' : ws !! j = Some p → n_active (<[j := p']> ws) = n_active ws + (active_one p' - active_one p).
Proof. intros Hj. unfold n_active. rewrite (msum_insert _ _ _ _ _ Hj). lia. Qed.
Lemma ok_ws_size {m ws acc k calls idxs F} : pool_ok plan workers m ws acc k calls idxs F → size ws = workers.
Proof. intros Hok. rewrite <- size_dom, (ok_workers Hok). apply size_set_seq. Qed.

(** A counter of the workers, with what the worker [j] adds to it. *)
Lemma msum_bounds {A} (f : A → Z) (ws : gmap nat A) j p :
  (∀ x, 0 <= f x <= 1) → ws !! j = Some p → f p <= msum f ws < Z.of_nat (size ws) + f p.
Proof.
  intros Hf Hj. rewrite (msum_delete _ _ _ _ Hj).
  assert (0 <= msum f (delete j ws)) by (apply msum_nonneg; intros; apply Hf).
  assert (msum f (delete j ws) <= Z.of_nat (size (delete j ws))) as Hle by (apply msum_le_size; intros; apply Hf).
  rewrite (map_size_delete_Some j ws) in Hle by eauto.
  assert (size ws ≠ 0%nat); [|lia]. intros Hs%map_size_empty_inv. by rewrite Hs in Hj.
Qed.

Lemma n_started_all ws j p : n_started ws = Z.of_nat (size ws) → ws !! j = Some p → p ≠ Unstarted.
Proof.
  intros Hn Hj ->.
  pose proof (msum_bounds started_one ws j Unstarted ltac:(by intros []) Hj) as [_ Hlt]. unfold n_started in Hn. cbn in Hlt. lia.
Qed.

(** *** Steps *)

Lemma ok_fst {m ws acc k calls idxs F} i : pool_ok plan workers m ws acc k calls idxs F → fst <$> m !! i = acc !! i.
Proof. intros Hok. rewrite <- lookup_fmap, (ok_jobs Hok). apply lookup_map_seq_0. Qed.
Lemma ok_lookup {m ws acc k calls idxs F i c st} :
  pool_ok plan workers m ws acc k calls idxs F → m !! i = Some (c, st) → acc !! i = Some c.
Proof.
  intros Hok Hi. by rewrite <- (ok_fst i Hok), Hi.
Qed.
Lemma ok_exists {m ws acc k calls idxs F i} :
  pool_ok plan workers m ws acc k calls idxs F → (i < length acc)%nat → ∃ c st, m !! i = Some (c, st) ∧ acc !! i = Some c.
Proof.
  intros Hok [c Hc]%lookup_lt_is_Some_2. pose proof (ok_fst i Hok) as Hj. rewrite Hc in Hj.
  destruct (m !! i) as [[c' st]|] eqn:Hi; [|done]. injection Hj as ->. eauto.
Qed.
Lemma ok_fresh {m ws acc k calls idxs F} : pool_ok plan workers m ws acc k calls idxs F → m !! length acc = None.
Proof.
  intros Hok. destruct (m !! length acc) as [[c st]|] eqn:Hi; [|done].
  pose proof (ok_lookup Hok Hi) as Hl. apply lookup_lt_Some in Hl. lia.
Qed.

(** The jobs that are done keep their place when the map changes elsewhere. *)
Lemma calls_insert m i x idxs calls :
  (∀ c, m !! i ≠ Some (c, Done)) →
  Forall2 (fun i c => m !! i = Some (c, Done)) idxs calls → Forall2 (fun k c => <[i := x]> m !! k = Some (c, Done)) idxs calls.
Proof.
  intros Hi. apply Forall2_impl. intros k c Hk. destruct (decide (k = i)) as [->|Hne]; [by destruct (Hi c)|].
  by rewrite lookup_insert_ne.
Qed.

Lemma ok_push m ws acc k calls idxs F c :
  pool_ok plan workers m ws acc k calls idxs F → (acc ++ [c]) `sublist_of` plan →
  pool_ok plan workers (<[length acc := (c, Queued)]> m) ws (acc ++ [c]) k calls idxs F.
Proof.
  intros Hok Hplan. pose proof (ok_fresh Hok) as Hn. destruct Hok. split; try done.
  - by rewrite fmap_insert, ok_jobs0, map_seq_snoc.
  - rewrite length_app. lia.
  - intros i c' st. rewrite lookup_insert_Some. intros [[<- [= <- <-]]|[_ Hi]]; [by split|by eapply ok_queue0].
  - apply calls_insert; [by rewrite Hn|done].
  - intros i c'. rewrite lookup_insert_Some. naive_solver.
  - intros i c'. rewrite lookup_insert_Some. naive_solver.
  - intros i Hi. destruct (ok_dequeued0 i Hi) as (c' & st & Hi' & Hst). exists c', st. rewrite lookup_insert_ne; [done|congruence].
  - intros i Hi. destruct (ok_done0 i Hi) as (c' & Hi'). exists c'. rewrite lookup_insert_ne; [done|congruence].
Qed.

(** A job changes its status: what does not depend on it. *)
Lemma jobs_set m acc i c st st' : fst <$> m = map_seq 0 acc → m !! i = Some (c, st) → fst <$> <[i := (c, st')]> m = (map_seq 0 acc : gmap nat call).
Proof. intros Hm Hi. rewrite fmap_insert, Hm. apply insert_id. cbn. by rewrite <- Hm, lookup_fmap, Hi. Qed.
Lemma workers_set ws j p p' : ws !! j = Some p → dom (<[j := p']> ws) = dom ws.
Proof. intros Hj. rewrite dom_insert_L. assert (j ∈ dom ws) by (by apply elem_of_dom). set_solver. Qed.

Lemma ok_dequeue m ws acc k calls idxs F c j :
  pool_ok plan workers m ws acc k calls idxs F → m !! k = Some (c, Queued) → ws !! j = Some Active →
  pool_ok plan workers (<[k := (c, Taken)]> m) (<[j := Busy k]> ws) acc (S k) calls idxs F.
Proof.
  intros Hok Hi Hj. pose proof (lookup_lt_Some _ _ _ (ok_lookup Hok Hi)). destruct Hok. split; try done.
  - by eapply jobs_set.
  - intros i c' st. rewrite lookup_insert_Some. intros [[<- [= <- <-]]|[Hne Hi']]; [split; [done|lia]|].
    rewrite (ok_queue0 _ _ _ Hi'). lia.
  - apply calls_insert; [by rewrite Hi|done].
  - intros i c'. rewrite lookup_insert_Some. naive_solver.
  - intros i c'. rewrite lookup_insert_Some. intros [[<- _]|[Hne Hk]]; [exists j; by rewrite lookup_insert_eq|].
    destruct (ok_taken0 i c' Hk) as [j' Hj']. exists j'. rewrite lookup_insert_ne; [done|congruence].
  - by erewrite workers_set.
  - intros i Hk. destruct (decide (i = k)) as [->|Hne]; [exists c, Taken; by rewrite lookup_insert_eq|].
    rewrite lookup_insert_ne; auto.
  - intros i Hk. destruct (ok_done0 i Hk) as [c' Hc']. exists c'. rewrite lookup_insert_ne; [done|congruence].
Qed.

(** A worker that is alone takes up the jobs in their order. *)
Lemma ok_next m ws acc k calls idxs F i c j :
  pool_ok plan workers m ws acc k calls idxs F → m !! i = Some (c, Taken) → ws !! j = Some (Busy i) →
  (workers <= 1)%nat → i = length idxs.
Proof.
  intros Hok Hi Hj Hone. pose proof (ok_order Hok Hone) as Ho.
  assert (i ∉ idxs) as Hni.
  { intros [n Hn]%list_elem_of_lookup. destruct (Forall2_lookup_l _ _ _ _ _ (ok_calls Hok) Hn) as (? & _ & ?). congruence. }
  rewrite Ho, elem_of_seq in Hni. destruct (decide (i = length idxs)) as [|Hne]; [done|].
  destruct (ok_exists (i := length idxs) Hok) as (c' & st & Hl & _).
  { pose proof (lookup_lt_Some _ _ _ (ok_lookup Hok Hi)). lia. }
  pose proof (ok_queue Hok _ _ _ Hi). pose proof (ok_queue Hok _ _ _ Hl) as Hq. destruct st.
  - pose proof (proj1 Hq eq_refl). assert (¬ (k <= i)%nat) by naive_solver. lia.
  - destruct (ok_taken Hok _ _ Hl) as [j' Hj'].
    assert (j < workers ∧ j' < workers)%nat as [Hlt Hlt'].
    { split; [assert (j ∈ dom ws) as Hd by (by apply elem_of_dom)|assert (j' ∈ dom ws) as Hd by (by apply elem_of_dom)];
        rewrite (ok_workers Hok), elem_of_set_seq in Hd; lia. }
    replace j' with j in Hj' by lia. congruence.
  - assert (length idxs ∈ idxs) as Hin by (by eapply ok_all). rewrite Ho, elem_of_seq, length_seq in Hin. lia.
Qed.

Lemma ok_finish m ws acc k calls idxs F i c j :
  pool_ok plan workers m ws acc k calls idxs F → m !! i = Some (c, Taken) → ws !! j = Some (Busy i) →
  pool_ok plan workers (<[i := (c, Done)]> m) (<[j := Active]> ws) acc k (calls ++ [c]) (idxs ++ [i]) F.
Proof.
  intros Hok Hi Hj. pose proof (ok_next _ _ _ _ _ _ _ _ _ _ Hok Hi Hj) as Hnext. destruct Hok. split; try done.
  - by eapply jobs_set.
  - intros i' c' st. rewrite lookup_insert_Some. intros [[<- [= <- <-]]|[_ Hi']]; [|by eapply ok_queue0].
    rewrite <- (ok_queue0 _ _ _ Hi). by split.
  - intros Hone. rewrite length_app, seq_app, <- ok_order0, (Hnext Hone) by done. done.
  - apply Forall2_app; [apply calls_insert; [by rewrite Hi|done]|]. constructor; [by rewrite lookup_insert_eq|constructor].
  - apply list.NoDup_app. split_and!; [done| |apply list.NoDup_singleton]. intros n Hk ->%list_elem_of_singleton.
    apply list_elem_of_lookup in Hk as [n' Hn]. destruct (Forall2_lookup_l _ _ _ _ _ ok_calls0 Hn) as (? & _ & ?). congruence.
  - intros n c'. rewrite lookup_insert_Some. set_solver.
  - intros n c'. rewrite lookup_insert_Some. intros [[_ ?]|[Hne Hk]]; [done|].
    destruct (ok_taken0 n c' Hk) as [j' Hj']. exists j'. rewrite lookup_insert_ne; [done|congruence].
  - by erewrite workers_set.
  - intros n Hk. destruct (decide (n = i)) as [->|Hne]; [exists c, Done; by rewrite lookup_insert_eq|].
    rewrite lookup_insert_ne; auto.
  - intros n Hk. destruct (decide (n = i)) as [->|Hne]; [exists c; by rewrite lookup_insert_eq|].
    rewrite lookup_insert_ne; auto.
Qed.

Lemma ok_phase m ws acc k calls idxs F j p p' :
  pool_ok plan workers m ws acc k calls idxs F → ws !! j = Some p → (∀ i, p ≠ Busy i) →
  pool_ok plan workers m (<[j := p']> ws) acc k calls idxs F.
Proof.
  intros Hok Hj Hp. destruct Hok. split; try done.
  - intros i c' Hk. destruct (ok_taken0 i c' Hk) as [j' Hj']. exists j'. rewrite lookup_insert_ne; [done|congruence].
  - by erewrite workers_set.
Qed.

(** *** Facts *)

Definition dequeued_facts (n : nat) : gset fact := list_to_set (F_dequeued <$> seq 0 n).
Definition done_facts (n : nat) : gset fact := list_to_set (F_done <$> seq 0 n).

Lemma ok_made m ws acc k calls idxs F :
  pool_ok plan workers m ws acc k calls idxs F → pool_ok plan workers m ws acc k calls idxs (F ∪ {[F_made]}).
Proof. intros []. split; try done; set_solver. Qed.

Lemma ok_all_dequeued m ws acc k calls idxs F :
  pool_ok plan workers m ws acc k calls idxs F → k = length acc →
  pool_ok plan workers m ws acc k calls idxs (F ∪ dequeued_facts (length acc)).
Proof.
  intros Hok Hq. pose proof Hok as []. split; try done.
  - intros i [Hi|Hi]%elem_of_union; [by apply ok_dequeued0|]. apply elem_of_list_to_set, list_elem_of_fmap in Hi as (i' & [= <-] & Hi).
    apply elem_of_seq in Hi. destruct (ok_exists (i := i) Hok) as (c & st & Hi' & _); [lia|]. exists c, st. split; [done|].
    rewrite (ok_queue0 _ _ _ Hi'). lia.
  - set_unfold. intros i [Hi|(? & ? & _)]; [auto|done].
Qed.

Lemma ok_all_done m ws acc k calls idxs F :
  pool_ok plan workers m ws acc k calls idxs F → dequeued_facts (length acc) ⊆ F → n_active ws = 0 →
  pool_ok plan workers m ws acc k calls idxs (F ∪ done_facts (length acc)).
Proof.
  intros Hok HF Hw. pose proof Hok as []. split; try done.
  - set_unfold. intros i [Hi|(? & ? & _)]; [auto|done].
  - intros i [Hi|Hi]%elem_of_union; [by apply ok_done0|]. apply elem_of_list_to_set, list_elem_of_fmap in Hi as (i' & [= <-] & Hi).
    destruct (ok_dequeued0 i) as (c & st & Hi' & Hst).
    { apply HF, elem_of_list_to_set, list_elem_of_fmap. eauto. }
    destruct st; [done| |by exists c]. destruct (ok_taken0 i c Hi') as [j Hj].
    assert (active_one (Busy i) <= n_active ws) as Hone; [|cbn in Hone; lia].
    apply (msum_lookup active_one ws j); [|done]. intros n [] _; cbn; lia.
Qed.

(** *** What was called *)

Lemma calls_as_jobs {m ws acc k calls idxs F} :
  pool_ok plan workers m ws acc k calls idxs F → calls = (fun i => default (0, 0) (acc !! i)) <$> idxs.
Proof.
  intros Hok. pose proof (ok_calls Hok) as Hc.
  assert (∀ ks cs, Forall2 (fun i c => m !! i = Some (c, Done)) ks cs → cs = (fun i => default (0, 0) (acc !! i)) <$> ks) as H'; [|by apply H'].
  induction 1 as [|i c ks cs Hi _ IH]; [done|]. cbn. by rewrite <- IH, (ok_lookup Hok Hi).
Qed.
Lemma acc_as_jobs acc : acc = (fun i => default (0, 0) (acc !! i)) <$> seq 0 (length acc).
Proof.
  apply list_eq. intros i. rewrite list_lookup_fmap. destruct (decide (i < length acc)%nat) as [Hi|Hi].
  - rewrite lookup_seq_lt by done. destruct (lookup_lt_is_Some_2 _ _ Hi) as [c Hc]. cbn. by rewrite Hc.
  - rewrite lookup_seq_ge, lookup_ge_None_2 by lia. done.
Qed.
Lemma idxs_in_range {m ws acc k calls idxs F i} :
  pool_ok plan workers m ws acc k calls idxs F → i ∈ idxs → i ∈ seq 0 (length acc).
Proof.
  intros Hok [n Hn]%list_elem_of_lookup. destruct (Forall2_lookup_l _ _ _ _ _ (ok_calls Hok) Hn) as (c & _ & Hi).
  apply (ok_lookup Hok), lookup_lt_Some in Hi. apply elem_of_seq. lia.
Qed.

Lemma calls_accepted {m ws acc k calls idxs F} :
  pool_ok plan workers m ws acc k calls idxs F → calls ⊆+ acc.
Proof.
  intros Hok. rewrite (calls_as_jobs Hok). set (f := fun i => default (0, 0) (acc !! i)).
  trans (f <$> seq 0 (length acc)); [|unfold f; by rewrite <- acc_as_jobs].
  apply fmap_submseteq, NoDup_submseteq; [by apply (ok_nodup Hok)|]. intros i. by apply (idxs_in_range Hok).
Qed.
Lemma calls_all_done {m ws acc k calls idxs F} :
  pool_ok plan workers m ws acc k calls idxs F → done_facts (length acc) ⊆ F → calls ≡ₚ acc.
Proof.
  intros Hok HF. rewrite (calls_as_jobs Hok). set (f := fun i => default (0, 0) (acc !! i)).
  trans (f <$> seq 0 (length acc)); [|unfold f; by rewrite <- acc_as_jobs].
  apply fmap_Permutation, NoDup_Permutation; [by apply (ok_nodup Hok)|apply NoDup_seq|].
  intros i. split; [by apply (idxs_in_range Hok)|]. intros Hi.
  destruct (ok_done Hok i) as [c Hc]; [|by apply (ok_all Hok _ c)].
  apply HF, elem_of_list_to_set, list_elem_of_fmap. eauto.
Qed.
Lemma calls_in_order {m ws acc k calls idxs F} :
  pool_ok plan workers m ws acc k calls idxs F → (workers <= 1)%nat → calls `prefix_of` acc.
Proof.
  intros Hok Hone. rewrite (calls_as_jobs Hok), (ok_order Hok Hone). set (f := fun i => default (0, 0) (acc !! i)).
  exists (f <$> seq (length idxs) (length acc - length idxs)). rewrite <- fmap_app.
  replace (seq 0 (length idxs) ++ seq (length idxs) (length acc - length idxs)) with (seq 0 (length acc)); [apply acc_as_jobs|].
  rewrite <- (seq_app (length idxs) (length acc - length idxs) 0 : _ = _ ++ seq (length idxs) _).
  f_equal. assert (length idxs <= length acc)%nat; [|lia].
  destruct (decide (length idxs = 0%nat)) as [|Hne]; [lia|].
  assert (length idxs - 1 ∈ idxs)%nat as Hin%(idxs_in_range Hok); [|apply elem_of_seq in Hin; lia].
  rewrite (ok_order Hok Hone) at 2. apply elem_of_seq. lia.
Qed.
End transitions.
