(* ===== verification/PoolProofs.v ===== *)
(** * The thread pool does its work

    The invariants that the client and the workers share, and the specifications of
    the functions of [Pool] in the logic of [PoolLogic]. *)

From ITree Require Import ITree.
From iris.proofmode Require Import environments proofmode.
From iris.algebra Require Import auth gset.
From iris.base_logic.lib Require Import ghost_map ghost_var invariants own.
From iris.program_logic Require Import weakestpre adequacy.
From S2P Require Import Prelude Pool PoolLogic PoolState.

(** ** Ghost state *)

Class pool_ghostG Σ := PoolGhostG {
  #[global] pg_jobs :: ghost_mapG Σ nat (call * jstatus);
  #[global] pg_workers :: ghost_mapG Σ nat wphase;
  #[global] pg_acc :: ghost_varG Σ (list call);
  #[global] pg_head :: ghost_varG Σ nat;
  #[global] pg_facts :: inG Σ (authR (gsetUR fact))
}.
Record pool_names := mk_names { pn_jobs : gname; pn_workers : gname; pn_acc : gname; pn_head : gname; pn_facts : gname }.

Section pool.
Context `{!poolGS Σ, !pool_ghostG Σ}.
Context (γ : pool_names) (plan : list call) (workers : nat).
Hypothesis Hplan : is_int (Z.of_nat (length plan)).
Hypothesis Hworkers : is_int (Z.of_nat workers).

Definition half (l : loc) (c : cell) : iProp Σ := l ↦{DfracOwn (1/2)} c.
Definition known (F : gset fact) : iProp Σ := own (pn_facts γ) (◯ F).
Definition job_at (i : nat) (c : call) (st : jstatus) : iProp Σ := i ↪[pn_jobs γ] (c, st).
Definition worker_at (j : nat) (p : wphase) : iProp Σ := j ↪[pn_workers γ] p.
(** What the client knows: the work that was accepted. *)
Definition accepted (acc : list call) : iProp Σ := ghost_var (pn_acc γ) (1/2) acc.

(** The number of jobs that have left the queue. *)
Definition taken (k : nat) : iProp Σ := ghost_var (pn_head γ) (1/2) k.

(** The counters of the pool, once there is one. *)
Definition counters (acc : list call) (k : nat) (ws : gmap nat wphase) : iProp Σ :=
  half L_len (C_int (Z.of_nat (length acc) - Z.of_nat k)) ∗ half L_alive (C_int (n_started ws)) ∗ half L_working (C_int (n_active ws)).

Definition poolN : namespace := nroot .@ "pool".
Definition pool_state m ws acc k calls idxs F : iProp Σ :=
  ⌜pool_ok plan workers m ws acc k calls idxs F⌝ ∗
  ghost_map_auth (pn_jobs γ) 1 m ∗ ghost_map_auth (pn_workers γ) 1 ws ∗
  accepted acc ∗ taken k ∗ own (pn_facts γ) (● F) ∗ L_log ↦ C_log calls.
Definition pool_inv : iProp Σ := inv poolN (∃ m ws acc k calls idxs F,
  pool_state m ws acc k calls idxs F ∗ if decide (F_made ∈ F) then counters acc k ws else True).

#[export] Instance known_persistent F : Persistent (known F).
Proof. apply _. Qed.

Lemma known_sub F F' : own (pn_facts γ) (● F) -∗ known F' -∗ ⌜F' ⊆ F⌝.
Proof. iIntros "H H'". by iDestruct (own_valid_2 with "H H'") as %[?%gset_included _]%auth_both_valid_discrete. Qed.
Lemma known_learn F F' : own (pn_facts γ) (● F) ==∗ own (pn_facts γ) (● (F ∪ F')) ∗ known F'.
Proof.
  iIntros "H". iMod (own_update with "H") as "[$ H]".
  { apply auth_update_alloc, (gset_local_update _ _ (F ∪ F')). set_solver. }
  iModIntro. iApply (own_mono with "H"). apply auth_frag_mono, gset_included. set_solver.
Qed.

(** ** What the locks protect *)

Definition bsem_content : iProp Σ := ∃ v, L_bsem_v ↦ C_int v.
Definition count_content : iProp Σ := ∃ a w, half L_alive (C_int a) ∗ half L_working (C_int w).

(** The queue: the addresses of the jobs with their numbers. *)
Abbreviation entry := (positive * (nat * call))%type.
Definition e_addr (x : entry) : positive := fst x.
Definition e_index (x : entry) : nat := fst (snd x).
Definition e_call (x : entry) : call := snd (snd x).

Fixpoint segment (xs : list entry) (tail : job_ptr) : iProp Σ :=
  match xs with
  | [] => True
  | x :: xs =>
      L_job (e_addr x) ↦ C_job (mk_job (match xs with [] => tail | y :: _ => Some (e_addr y) end)
        (fst (e_call x)) (snd (e_call x))) ∗
      job_at (e_index x) (e_call x) Queued ∗ segment xs tail
  end.
Definition queue_content : iProp Σ := ∃ xs rear k,
  half L_len (C_int (Z.of_nat (length xs))) ∗ taken k ∗ ⌜e_index <$> xs = seq k (length xs)⌝ ∗
  L_front ↦ C_ptr (e_addr <$> head xs) ∗ L_rear ↦ C_ptr rear ∗ ⌜xs ≠ [] → rear = e_addr <$> list.last xs⌝ ∗
  segment xs None.

(** Anyone may put the workers on hold, or let them go on. *)
Definition hold_inv : iProp Σ := inv (nroot .@ "hold") (∃ z, L_on_hold ↦ C_int z).

(** The handler of SIGUSR1: once a worker has installed it, it stays. *)
Definition handled : iProp Σ := L_handler ↦{DfracDiscarded} C_int 1.
Definition handler_inv : iProp Σ := inv (nroot .@ "handler") ((∃ c, L_handler ↦ c) ∨ handled).

(** The pool as a thread sees it. *)
Definition is_pool : iProp Σ :=
  pool_inv ∗ known {[F_made]} ∗
  is_lock L_bsem_mutex bsem_content ∗ is_cond L_bsem_cond ∗
  is_lock L_thcount_lock count_content ∗ is_cond L_all_idle ∗
  is_lock L_rwmutex queue_content ∗
  L_keepalive ↦{DfracDiscarded} C_int 1 ∗ hold_inv ∗ handler_inv.

#[export] Instance is_pool_persistent : Persistent is_pool.
Proof. apply _. Qed.

(** ** Opening the invariant *)

Lemma pool_open : pool_inv -∗ known {[F_made]} ={⊤,⊤ ∖ ↑poolN}=∗
  ∃ m ws acc k calls idxs F, pool_state m ws acc k calls idxs F ∗ counters acc k ws ∗
    (∀ m ws acc k calls idxs F', ⌜F ⊆ F'⌝ -∗ pool_state m ws acc k calls idxs F' -∗ counters acc k ws ={⊤ ∖ ↑poolN,⊤}=∗ True).
Proof.
  iIntros "#Hinv #HF". iInv "Hinv" as (m ws acc k calls idxs F) ">[(Hok & Hm & Hw & Ha & Hh & HFa & Hl) Hc]" "Hclose".
  iDestruct (known_sub with "HFa HF") as %HF%singleton_subseteq_l. rw decide_True; [|done].
  iModIntro. iExists m, ws, acc, k, calls, idxs, F. iFrame. iIntros (m' ws' acc' k' calls' idxs' F' HF') "Hs Hc".
  iApply "Hclose". iNext. iExists m', ws', acc', k', calls', idxs', F'. iFrame "Hs". by case_decide.
Qed.

Lemma half_join l c c' : half l c -∗ half l c' -∗ ⌜c = c'⌝ ∗ l ↦ c.
Proof. iIntros "H H'". iDestruct (half_agree with "H H'") as %->. iSplit; [done|]. rw half_split. iFrame. Qed.
Lemma half_cut l c : l ↦ c -∗ half l c ∗ half l c.
Proof. iIntros "H". by rw half_split. Qed.

(** A counter: half of it is with a lock, half in the invariant.  [counts l n n' R R']:
    changing the counter from [n] to [n'] turns [R] into [R']. *)
Definition counts (l : loc) (n n' : Z) (R R' : iProp Σ) : iProp Σ :=
  half l (C_int n) -∗ R ={⊤,⊤ ∖ ↑poolN}=∗ l ↦ C_int n ∗ (l ↦ C_int n' ={⊤ ∖ ↑poolN,⊤}=∗ half l (C_int n') ∗ R').

Lemma pwp_counts_set l n n' R R' Φ :
  counts l n n' R R' -∗ half l (C_int n) -∗ R -∗ (half l (C_int n') -∗ R' -∗ Φ tt) -∗ pwp (set_int l n') Φ.
Proof.
  iIntros "Hc Hl HR H". iApply pwp_access. iMod ("Hc" with "Hl HR") as "[Hl Hc]". iModIntro.
  iExists _, _, _. iFrame "Hl". iSplit; [done|]. iIntros "Hl". iMod ("Hc" with "Hl") as "[Hl HR]".
  iModIntro. iApply ("H" with "Hl HR").
Qed.
Lemma pwp_counts_add l n d R R' Φ : is_int (n + d) →
  counts l n (n + d) R R' -∗ half l (C_int n) -∗ R -∗ (half l (C_int (n + d)) -∗ R' -∗ Φ tt) -∗ pwp (add_int l d) Φ.
Proof.
  iIntros (Hint) "Hc Hl HR H". unfold add_int. iApply pwp_bind. iApply (pwp_get_int with "Hl"). iIntros "Hl".
  rw int_result_ok; [|done]. iApply (pwp_counts_set with "Hc Hl HR H").
Qed.

Lemma counters_intro acc k ws q a w : Z.of_nat (length acc) - Z.of_nat k = q → n_started ws = a → n_active ws = w →
  half L_len (C_int q) -∗ half L_alive (C_int a) -∗ half L_working (C_int w) -∗ counters acc k ws.
Proof. iIntros (<- <- <-) "$ $ $". Qed.

(** *** The steps of the counters *)

Lemma counts_push acc c n : (acc ++ [c]) `sublist_of` plan → is_pool -∗
  counts L_len n (n + 1) (accepted acc) (accepted (acc ++ [c]) ∗ job_at (length acc) c Queued).
Proof.
  iIntros (Hsub) "(#Hinv & #HF & _) Hn Ha".
  iMod (pool_open with "Hinv HF") as (m ws acc' k calls idxs F) "((%Hok & Hm & Hw & Ha' & Hh & HFa & Hl) & (Hc & Hc2) & Hclose)".
  iDestruct (half_join with "Hn Hc") as "[%Hn Hn]". injection Hn as ->. iDestruct (ghost_var_agree with "Ha Ha'") as %<-.
  iModIntro. iFrame "Hn". iIntros "Hn". iDestruct (half_cut with "Hn") as "[Hn Hc]".
  iMod (ghost_map_insert (length acc) (c, Queued) with "Hm") as "[Hm Hj]"; [by eapply ok_fresh|].
  iMod (ghost_var_update_halves (acc ++ [c]) with "Ha Ha'") as "[$ Ha']".
  iMod ("Hclose" $! _ _ _ _ _ _ F with "[//] [$Hm $Hw $Ha' $Hh $HFa $Hl] [Hc $Hc2]") as "_".
  - iPureIntro. by apply ok_push.
  - rw length_app /=. by replace (Z.of_nat (length acc + 1) - Z.of_nat k) with (Z.of_nat (length acc) - Z.of_nat k + 1) by lia.
  - by iFrame.
Qed.

Lemma counts_take k c j n : is_pool -∗
  counts L_len n (n - 1) (job_at k c Queued ∗ worker_at j Active ∗ taken k) (job_at k c Taken ∗ worker_at j (Busy k) ∗ taken (S k)).
Proof.
  iIntros "(#Hinv & #HF & _) Hn (Hi & Hj & Hh')".
  iMod (pool_open with "Hinv HF") as (m ws acc k' calls idxs F) "((%Hok & Hm & Hw & Ha & Hh & HFa & Hl) & (Hc & Hal & Hwo) & Hclose)".
  iDestruct (half_join with "Hn Hc") as "[%Hn $]". injection Hn as ->. iDestruct (ghost_var_agree with "Hh' Hh") as %<-.
  iDestruct (ghost_map_lookup with "Hm Hi") as %Hi. iDestruct (ghost_map_lookup with "Hw Hj") as %Hj.
  iIntros "!> Hn". iDestruct (half_cut with "Hn") as "[$ Hc]". iMod (ghost_var_update_halves (S k) with "Hh' Hh") as "[$ Hh]".
  iMod (ghost_map_update with "Hm Hi") as "[Hm $]". iMod (ghost_map_update with "Hw Hj") as "[Hw $]".
  iApply ("Hclose" $! _ _ _ _ _ _ F with "[//] [$Hm $Hw $Ha $Hh $HFa $Hl]"); [by iPureIntro; apply ok_dequeue|].
  iApply (counters_intro with "Hc Hal Hwo"); [|rw (n_started_set _ _ _ _ Hj)|rw (n_active_set _ _ _ _ Hj)]; cbn; lia.
Qed.

(** The two counters of the workers, and what a worker adds to them. *)
Definition worker_counter (alive : bool) : loc := if alive then L_alive else L_working.
Definition phase_one (alive : bool) (p : wphase) : Z := if alive then started_one p else active_one p.
Lemma phase_one_bool alive p : 0 <= phase_one alive p <= 1.
Proof. destruct alive, p; cbn; lia. Qed.

Lemma counts_phase alive j p p' n :
  (∀ i, p ≠ Busy i) → phase_one (negb alive) p' = phase_one (negb alive) p → is_pool -∗
  counts (worker_counter alive) n (n + (phase_one alive p' - phase_one alive p)) (worker_at j p) (worker_at j p').
Proof.
  iIntros (Hp Hl) "(#Hinv & #HF & _) Hn Hj".
  iMod (pool_open with "Hinv HF") as (m ws acc k calls idxs F) "((%Hok & Hm & Hw & Ha & Hh & HFa & Hl) & (Hc & Hal & Hwo) & Hclose)".
  iDestruct (ghost_map_lookup with "Hw Hj") as %Hj. rw /worker_counter. destruct alive; cbn in Hl |- *.
  - iDestruct (half_join with "Hn Hal") as "[%Hn $]". injection Hn as ->. iIntros "!> Hn". iDestruct (half_cut with "Hn") as "[$ Hal]".
    iMod (ghost_map_update with "Hw Hj") as "[Hw $]".
    iApply ("Hclose" $! _ _ _ _ _ _ F with "[//] [$Hm $Hw $Ha $Hh $HFa $Hl]"); [by iPureIntro; eapply ok_phase|].
    iApply (counters_intro with "Hc Hal Hwo"); [done|rw (n_started_set _ _ _ _ Hj)|rw (n_active_set _ _ _ _ Hj)]; lia.
  - iDestruct (half_join with "Hn Hwo") as "[%Hn $]". injection Hn as ->. iIntros "!> Hn". iDestruct (half_cut with "Hn") as "[$ Hwo]".
    iMod (ghost_map_update with "Hw Hj") as "[Hw $]".
    iApply ("Hclose" $! _ _ _ _ _ _ F with "[//] [$Hm $Hw $Ha $Hh $HFa $Hl]"); [by iPureIntro; eapply ok_phase|].
    iApply (counters_intro with "Hc Hal Hwo"); [done|rw (n_started_set _ _ _ _ Hj)|rw (n_active_set _ _ _ _ Hj)]; lia.
Qed.

(** What the invariant says of a counter, for its arithmetic. *)
Lemma len_bound n : is_pool -∗ half L_len (C_int n) ={⊤}=∗ ⌜0 <= n ∧ is_int n⌝ ∗ half L_len (C_int n).
Proof.
  iIntros "(#Hinv & #HF & _) Hn".
  iMod (pool_open with "Hinv HF") as (m ws acc k calls idxs F) "((%Hok & Hm & Hw & Ha & Hh & HFa & Hl) & (Hc & Hc2) & Hclose)".
  iDestruct (half_agree with "Hn Hc") as %[= ->]. iFrame "Hn".
  iMod ("Hclose" $! _ _ _ _ _ _ F with "[//] [$Hm $Hw $Ha $Hh $HFa $Hl //] [$Hc $Hc2]") as "_". iPureIntro.
  pose proof (sublist_length _ _ (ok_plan Hok)). pose proof (ok_head Hok). unfold is_int in *. lia.
Qed.
Lemma len_queue acc k n : is_pool -∗ accepted acc -∗ taken k -∗ half L_len (C_int n) ={⊤}=∗
  ⌜n = Z.of_nat (length acc) - Z.of_nat k⌝ ∗ accepted acc ∗ taken k ∗ half L_len (C_int n).
Proof.
  iIntros "(#Hinv & #HF & _) Ha Hh Hn".
  iMod (pool_open with "Hinv HF") as (m ws acc' k' calls idxs F) "((%Hok & Hm & Hw & Ha' & Hh' & HFa & Hl) & (Hc & Hc2) & Hclose)".
  iDestruct (half_agree with "Hn Hc") as %[= ->]. iDestruct (ghost_var_agree with "Ha Ha'") as %<-.
  iDestruct (ghost_var_agree with "Hh Hh'") as %<-. iFrame "Ha Hh Hn".
  by iMod ("Hclose" $! _ _ _ _ _ _ F with "[//] [$Hm $Hw $Ha' $Hh' $HFa $Hl //] [$Hc $Hc2]") as "_".
Qed.
Lemma worker_bound alive j p n : is_pool -∗ worker_at j p -∗ half (worker_counter alive) (C_int n) ={⊤}=∗
  ⌜phase_one alive p <= n < Z.of_nat workers + phase_one alive p⌝ ∗ worker_at j p ∗ half (worker_counter alive) (C_int n).
Proof.
  iIntros "(#Hinv & #HF & _) Hj Hn".
  iMod (pool_open with "Hinv HF") as (m ws acc' k calls idxs F) "((%Hok & Hm & Hw & Ha' & Hh & HFa & Hl) & (Hc & Hal & Hwo) & Hclose)".
  iDestruct (ghost_map_lookup with "Hw Hj") as %Hj. rw -(ok_ws_size Hok).
  iAssert ⌜phase_one alive p <= n < Z.of_nat (base.size ws) + phase_one alive p⌝%I as %Hn.
  { destruct alive; [iDestruct (half_agree with "Hn Hal") as %[= ->]|iDestruct (half_agree with "Hn Hwo") as %[= ->]];
      iPureIntro; apply (msum_bounds _ _ j); try done; intros []; cbn; lia. }
  iFrame "Hj Hn". iMod ("Hclose" $! _ _ _ _ _ _ F with "[//] [$Hm $Hw $Ha' $Hh $HFa $Hl //] [$Hc $Hal $Hwo]") as "_". done.
Qed.

(** The call of a job. *)
Lemma pwp_call_job i c j Φ :
  is_pool -∗ job_at i c Taken -∗ worker_at j (Busy i) -∗ (worker_at j Active -∗ Φ tt) -∗
  pwp (ITree.trigger (Call (fst c) (snd c))) Φ.
Proof.
  iIntros "(#Hinv & #HF & _) Hi Hj H". iApply pwp_call.
  iMod (pool_open with "Hinv HF") as (m ws acc k calls idxs F) "((%Hok & Hm & Hw & Ha & Hh & HFa & Hl) & (Hc & Hal & Hwo) & Hclose)".
  iModIntro. iExists calls. iFrame "Hl". iIntros "Hl". rw -surjective_pairing.
  iDestruct (ghost_map_lookup with "Hm Hi") as %Hi. iDestruct (ghost_map_lookup with "Hw Hj") as %Hj.
  iMod (ghost_map_update with "Hm Hi") as "[Hm _]". iMod (ghost_map_update with "Hw Hj") as "[Hw Hj]".
  iMod ("Hclose" $! _ _ _ _ _ _ F with "[//] [$Hm $Hw $Ha $Hh $HFa $Hl] [Hc Hal Hwo]") as "_"; [by iPureIntro; apply ok_finish| |by iApply "H"].
  iApply (counters_intro with "Hc Hal Hwo"); [done|rw (n_started_set _ _ _ _ Hj)|rw (n_active_set _ _ _ _ Hj)];
    cbn; lia.
Qed.

(** *** What the client learns when it reads the counters *)

Lemma pwp_read_len acc Φ :
  is_pool -∗ accepted acc -∗
  (∀ n, (⌜n = 0⌝ -∗ known (dequeued_facts (length acc))) -∗ accepted acc -∗ Φ n) -∗ pwp (get_int L_len) Φ.
Proof.
  iIntros "(#Hinv & #HF & _) Ha H". iApply pwp_read.
  iMod (pool_open with "Hinv HF") as (m ws acc' k calls idxs F) "((%Hok & Hm & Hw & Ha' & Hh & HFa & Hl) & (Hc & Hc2) & Hclose)".
  iDestruct (ghost_var_agree with "Ha Ha'") as %<-. iModIntro. iExists _, _, _. iFrame "Hc". iSplit; [done|]. iIntros "Hc".
  destruct (decide (k = length acc)) as [Hz|Hz].
  - iMod (known_learn F (dequeued_facts (length acc)) with "HFa") as "[HFa #Hk]".
    iMod ("Hclose" with "[%] [$Hm $Hw $Ha' $Hh $HFa $Hl] [$Hc $Hc2]") as "_"; [|iPureIntro; by apply ok_all_dequeued|]; [set_solver|].
    iModIntro. iApply ("H" with "[] Ha"). by iIntros "_".
  - iMod ("Hclose" $! _ _ _ _ _ _ F with "[//] [$Hm $Hw $Ha' $Hh $HFa $Hl //] [$Hc $Hc2]") as "_".
    iModIntro. iApply ("H" with "[] Ha"). iIntros (?). pose proof (ok_head Hok). lia.
Qed.
Lemma pwp_read_working acc n Φ :
  is_pool -∗ known (dequeued_facts (length acc)) -∗ accepted acc -∗ half L_working (C_int n) -∗
  ((⌜n = 0⌝ -∗ known (done_facts (length acc))) -∗ accepted acc -∗ half L_working (C_int n) -∗ Φ n) -∗
  pwp (get_int L_working) Φ.
Proof.
  iIntros "(#Hinv & #HF & _) #Hd Ha Hn H". iApply pwp_read.
  iMod (pool_open with "Hinv HF") as (m ws acc' k calls idxs F) "((%Hok & Hm & Hw & Ha' & Hh & HFa & Hl) & (Hc & Hal & Hwo) & Hclose)".
  iDestruct (ghost_var_agree with "Ha Ha'") as %<-. iDestruct (half_agree with "Hn Hwo") as %[= ->].
  iDestruct (known_sub with "HFa Hd") as %HF. iModIntro. iExists _, _, _. iFrame "Hn". iSplit; [done|]. iIntros "Hn".
  destruct (decide (n_active ws = 0)) as [Hz|Hz].
  - iMod (known_learn F (done_facts (length acc)) with "HFa") as "[HFa #Hk]".
    iMod ("Hclose" with "[%] [$Hm $Hw $Ha' $Hh $HFa $Hl] [$Hc $Hal $Hwo]") as "_"; [|iPureIntro; by apply ok_all_done|]; [set_solver|].
    iModIntro. iApply ("H" with "[] Ha Hn"). by iIntros "_".
  - iMod ("Hclose" $! _ _ _ _ _ _ F with "[//] [$Hm $Hw $Ha' $Hh $HFa $Hl //] [$Hc $Hal $Hwo]") as "_".
    iModIntro. iApply ("H" with "[] Ha Hn"). by iIntros (?).
Qed.

(** ** Binary semaphore *)

Lemma pwp_bsem_post Φ : is_pool -∗ Φ tt -∗ pwp bsem_post Φ.
Proof.
  iIntros "(_ & _ & #Hm & #Hc & _) H". iApply pwp_bind. iApply (pwp_lock with "Hm"). iIntros "Hheld [%v Hv]".
  pacc "Hv". iApply pwp_bind. iApply (pwp_cond_signal with "Hc").
  iApply (pwp_unlock with "Hm Hheld [Hv] H"). by iExists 1.
Qed.
Lemma pwp_bsem_wait Φ : is_pool -∗ Φ tt -∗ pwp bsem_wait Φ.
Proof.
  iIntros "(_ & _ & #Hm & #Hc & _) H". iApply pwp_bind. iApply (pwp_lock with "Hm"). iIntros "Hheld Hv". iApply pwp_bind.
  iApply (pwp_while (held L_bsem_mutex ∗ bsem_content) (held L_bsem_mutex ∗ bsem_content) with "[$]").
  - iIntros "!> [Hheld [%v Hv]]". pacc "Hv". iApply pwp_ret.
    destruct (negb _); [|iFrame; by iExists v].
    iApply (pwp_cond_wait with "Hc Hm Hheld [Hv]"); [by iExists v|]. iIntros "$ $".
  - iIntros "[Hheld [%v Hv]]". pacc "Hv".
    iApply (pwp_unlock with "Hm Hheld [Hv] H"). by iExists 0.
Qed.

(** ** Job queue *)

Lemma segment_snoc xs x t :
  segment (xs ++ [x]) t ⊣⊢ segment xs (Some (e_addr x)) ∗
    L_job (e_addr x) ↦ C_job (mk_job t (fst (e_call x)) (snd (e_call x))) ∗ job_at (e_index x) (e_call x) Queued.
Proof.
  induction xs as [|y xs IH]; cbn; [by rw bi.True_sep bi.sep_True|]. rw IH !bi.sep_assoc. by destruct xs.
Qed.

Lemma pwp_jobqueue_push acc c a j Φ :
  (acc ++ [c]) `sublist_of` plan →
  is_pool -∗ accepted acc -∗ L_job a ↦ C_job (mk_job j (fst c) (snd c)) -∗ (accepted (acc ++ [c]) -∗ Φ tt) -∗
  pwp (jobqueue_push (Some a)) Φ.
Proof.
  iIntros (Hsub) "#Hp Ha Hj H". iPoseProof "Hp" as "(_ & _ & _ & _ & _ & _ & Hm & _)".
  iApply pwp_bind. iApply (pwp_lock with "Hm"). iIntros "Hheld (%xs & %rear & %k & Hn & Hh & %Hidx & Hf & Hr & %Hrear & Hs)".
  pacc "Hj". cbn.
  pacc "Hn". iApply fupd_pwp.
  iMod (len_queue with "Hp Ha Hh Hn") as "(%Hb & Ha & Hh & Hn)". iModIntro. iApply pwp_bind.
  set (x := (a, (length acc, c)) : entry).
  iAssert (∀ xs', ⌜xs' = xs ++ [x]⌝ -∗ held L_rwmutex -∗ accepted acc -∗ half L_len (C_int (Z.of_nat (length xs))) -∗
    L_front ↦ C_ptr (e_addr <$> head xs') -∗ L_rear ↦ C_ptr (Some a) -∗ segment xs (Some a) -∗
    L_job a ↦ C_job (mk_job None (fst c) (snd c)) -∗
    pwp (add_int L_len 1;; bsem_post;; mutex_unlock L_rwmutex) Φ)%I with "[H Hh]" as "H".
  { iIntros (xs' ->) "Hheld Ha Hn Hf Hr Hs Hj". iApply pwp_bind.
    assert (is_int (Z.of_nat (length xs) + 1)) as Hint.
    { apply sublist_length in Hsub. rw length_app /= in Hsub. unfold is_int in *. lia. }
    iApply (pwp_counts_add with "[] Hn Ha"); [done|by iApply (counts_push with "Hp")|]. iIntros "Hn [Ha Hi]".
    iApply pwp_bind. iApply (pwp_bsem_post with "Hp").
    iApply (pwp_unlock with "Hm Hheld [-H Ha] (H Ha)"). iExists (xs ++ [x]), _, k. iFrame "Hf Hr Hh".
    rw fmap_app Hidx length_app seq_app /= (_ : k + length xs = length acc)%nat; [|lia]. rw /= Nat2Z.inj_add. iFrame "Hn". iSplit; [done|]. iSplit; [by rw last_snoc|]. rw segment_snoc. iFrame. }
  destruct xs as [|y xs _] using rev_ind.
  - pacc "Hf". pacc "Hr".
    iApply ("H" with "[//] Hheld Ha Hn Hf Hr Hs Hj").
  - rw length_app (proj2 (Z.eqb_neq _ 0)); [|cbn; lia]. rw Hrear; [|by destruct xs]. rw last_snoc segment_snoc /=.
    iDestruct "Hs" as "(Hs & Hy & Hyi)".
    pacc "Hr". pacc "Hy". pacc "Hr".
    iApply ("H" with "[//] Hheld Ha Hn [Hf] Hr [Hs Hy Hyi] Hj").
    + by destruct xs.
    + rw segment_snoc. iFrame.
Qed.

(** What [jobqueue_pull] gives to the worker [j]. *)
Definition pulled (j : nat) (p : job_ptr) : iProp Σ :=
  match p with
  | None => worker_at j Active
  | Some a => ∃ i c pr, L_job a ↦ C_job (mk_job pr (fst c) (snd c)) ∗ job_at i c Taken ∗ worker_at j (Busy i)
  end.

Lemma pwp_jobqueue_pull j Φ :
  is_pool -∗ worker_at j Active -∗ (∀ p, pulled j p -∗ Φ p) -∗ pwp jobqueue_pull Φ.
Proof.
  iIntros "#Hp Hj H". iPoseProof "Hp" as "(_ & _ & _ & _ & _ & _ & Hm & _)".
  iApply pwp_bind. iApply (pwp_lock with "Hm"). iIntros "Hheld (%xs & %rear & %k & Hn & Hh & %Hidx & Hf & Hr & %Hrear & Hs)".
  pacc "Hf".
  pacc "Hn". iApply pwp_bind.
  iAssert (held L_rwmutex -∗ queue_content -∗ pulled j (e_addr <$> head xs) -∗
    pwp (mutex_unlock L_rwmutex;; mret (e_addr <$> head xs)) Φ)%I with "[H]" as "H".
  { iIntros "Hheld Hq Hj". iApply pwp_bind. iApply (pwp_unlock with "Hm Hheld Hq"). iApply pwp_ret. by iApply "H". }
  destruct xs as [|x [|y xs]].
  - iApply pwp_ret. iApply ("H" with "Hheld [-Hj] Hj"). iExists [], rear, k. by iFrame.
  - iDestruct "Hs" as "(Hx & Hi & _)". injection Hidx as Hxi. rw Hxi. pacc "Hf".
    pacc "Hr".
    iApply (pwp_counts_set with "[] Hn [Hi Hj Hh]"); [iApply (counts_take _ _ j 1 with "Hp")|iFrame|]. iIntros "Hn (Hi & Hj & Hh)".
    iApply ("H" with "Hheld [Hn Hf Hr Hh] [Hx Hi Hj]").
    + iExists [], None, (S k). by iFrame.
    + iExists _, _, _. iFrame.
  - iDestruct "Hs" as "(Hx & Hi & Hs)". injection Hidx as Hxi Hyi Hidx. rw Hxi. rw (proj2 (Z.eqb_neq _ 0)); [|cbn; lia]. rw (proj2 (Z.eqb_neq _ 1)); [|cbn; lia].
    iApply pwp_bind. cbn [head fmap option_fmap option_map get_job]. pacc "Hx".
    pacc "Hf". iApply pwp_bind.
    iApply fupd_pwp. iMod (len_bound with "Hp Hn") as "[%Hb Hn]". iModIntro.
    iApply (pwp_counts_add with "[] Hn [Hi Hj Hh]"); [|iApply (counts_take _ _ j with "Hp")|iFrame|].
    { unfold is_int in *. cbn in *. lia. }
    iIntros "Hn (Hi & Hj & Hh)". iApply (pwp_bsem_post with "Hp"). iApply ("H" with "Hheld [Hn Hf Hr Hs Hh] [Hx Hi Hj]").
    + iExists (y :: xs), rear, (S k). iFrame "Hf Hr Hs Hh". iSplitL; [|iPureIntro; split; [by rw /= Hyi Hidx|intros _; by apply Hrear]].
      replace (Z.of_nat (length (x :: y :: xs)) + -1) with (Z.of_nat (length (y :: xs))) by (cbn; lia). done.
    + iExists _, _, _. iFrame.
Qed.

(** ** Threads *)

(** A worker changes one of the two counters, with the lock. *)
Lemma pwp_phase alive j p p' d Φ :
  (∀ i, p ≠ Busy i) → phase_one (negb alive) p' = phase_one (negb alive) p →
  d = phase_one alive p' - phase_one alive p →
  is_pool -∗ worker_at j p -∗ count_content -∗ (worker_at j p' -∗ count_content -∗ Φ tt) -∗
  pwp (add_int (worker_counter alive) d) Φ.
Proof.
  iIntros (Hp Hl ->) "#Hpool Hj (%a & %w & Ha & Hw) H". iApply fupd_pwp.
  pose proof (phase_one_bool alive p). pose proof (phase_one_bool alive p').
  destruct alive.
  - iMod (worker_bound true with "Hpool Hj Ha") as "(%Hb & Hj & Hn)". iModIntro.
    iApply (pwp_counts_add with "[] Hn Hj"); [unfold is_int in *; lia|by iApply counts_phase|]. iIntros "Hn Hj".
    iApply ("H" with "Hj"). iExists _, _. iFrame.
  - iMod (worker_bound false with "Hpool Hj Hw") as "(%Hb & Hj & Hn)". iModIntro.
    iApply (pwp_counts_add with "[] Hn Hj"); [unfold is_int in *; lia|by iApply counts_phase|]. iIntros "Hn Hj".
    iApply ("H" with "Hj"). iExists _, _. iFrame.
Qed.

(** The handler does no harm. *)
Lemma pwp_set_hold z Φ : is_pool -∗ Φ tt -∗ pwp (set_int L_on_hold z) Φ.
Proof.
  iIntros "(_ & _ & _ & _ & _ & _ & _ & _ & #Hh & _) H". iApply pwp_access. iInv "Hh" as (y) ">Hl" "Hclose".
  iModIntro. iExists _, _, _. iFrame "Hl". iSplit; [done|]. iIntros "Hl".
  iMod ("Hclose" with "[Hl]") as "_"; [by iExists z|done].
Qed.
Lemma pwp_thread_hold Φ : is_pool -∗ Φ tt -∗ pwp thread_hold Φ.
Proof.
  iIntros "#Hp H". iApply pwp_bind. iApply (pwp_set_hold with "Hp"). iApply (pwp_while True True with "[//]"); [|by iIntros "_"].
  iIntros "!> _". iApply pwp_bind. iApply pwp_read. iPoseProof "Hp" as "(_ & _ & _ & _ & _ & _ & _ & _ & Hh & _)".
  iInv "Hh" as (y) ">Hl" "Hclose". iModIntro. iExists _, _, _. iFrame "Hl". iSplit; [done|]. iIntros "Hl".
  iMod ("Hclose" with "[Hl]") as "_"; [by iExists y|]. iModIntro. iApply pwp_ret. by destruct (negb _); [iApply pwp_ret|].
Qed.

(** A worker installs it. *)
Lemma pwp_install Φ : is_pool -∗ (handled -∗ Φ tt) -∗ pwp (set_int L_handler 1) Φ.
Proof.
  iIntros "(_ & _ & _ & _ & _ & _ & _ & _ & _ & #Hh) H". iApply pwp_step_det.
  iInv "Hh" as ">[[%c Hl]|#Hl]" "Hclose"; iModIntro; iIntros (h) "Hh'"; iDestruct (heap_lookup with "Hh' Hl") as %Hc.
  - iExists tt, _. iSplit; [iPureIntro; intros ?; by rw /= Hc|].
    iMod (heap_update (C_int 1) with "Hh' Hl") as "[$ Hl]". iMod (ghost_map_elem_persist with "Hl") as "#Hl". iModIntro.
    iMod ("Hclose" with "[]") as "_"; [by iRight|]. by iApply "H".
  - iExists tt, h. iSplit; [iPureIntro; intros ?; by rw /= Hc /= insert_id|]. iModIntro. iFrame "Hh'".
    iMod ("Hclose" with "[]") as "_"; [by iRight|]. by iApply "H".
Qed.

(** A worker that was made: it has not counted itself yet, or the handler is installed
    and the structure of the thread stays as it is. *)
Definition thread_ready (j : nat) : iProp Σ := handled ∗ ∃ c, L_thread j ↦{DfracDiscarded} c.
Definition start_inv (j : nat) : iProp Σ := inv (nroot .@ "start") (worker_at j Unstarted ∨ thread_ready j).

Lemma start_take j c : start_inv j -∗ handled -∗ L_thread j ↦ c ={⊤}=∗ worker_at j Unstarted.
Proof.
  iIntros "#Hs #Hh Ht". iInv "Hs" as ">[$|[_ [%c' Ht']]]" "Hclose".
  - iMod (ghost_map_elem_persist with "Ht") as "#Ht". iApply "Hclose". iNext. iRight. iFrame "Hh". by iExists c.
  - by iDestruct (ghost_map_elem_valid_2 with "Ht Ht'") as %[? _].
Qed.

Lemma pwp_thread_work n Φ : is_pool -∗ worker_at n Unstarted -∗ pwp thread_work Φ.
Proof.
  iIntros "#Hp Hj". iPoseProof "Hp" as "(_ & _ & _ & _ & Hm & Hc & _ & Hk & _)".
  iApply pwp_bind. iApply (pwp_lock with "Hm"). iIntros "Hheld Hcount". iApply pwp_bind.
  iApply (pwp_phase true _ Unstarted Idle with "Hp Hj Hcount"); [done..|]. iIntros "Hj Hcount".
  iApply pwp_bind. iApply (pwp_unlock with "Hm Hheld Hcount"). iApply pwp_bind.
  iApply (pwp_while (worker_at n Idle) False with "Hj"); [|by iIntros "?"].
  iIntros "!> Hj". iApply pwp_bind. iApply (pwp_get_int with "Hk"). iIntros "_". iApply pwp_ret. cbn [negb Z.eqb].
  iApply pwp_bind. iApply (pwp_bsem_wait with "Hp"). iApply pwp_bind. iApply (pwp_get_int with "Hk"). iIntros "_". cbn [Z.eqb].
  iApply pwp_bind. iApply (pwp_lock with "Hm"). iIntros "Hheld Hcount". iApply pwp_bind.
  iApply (pwp_phase false _ Idle Active with "Hp Hj Hcount"); [done..|]. iIntros "Hj Hcount".
  iApply pwp_bind. iApply (pwp_unlock with "Hm Hheld Hcount").
  iApply pwp_bind. iApply (pwp_jobqueue_pull with "Hp Hj"). iIntros (p) "Hj". iApply pwp_bind.
  iApply (pwp_wand _ (λ _, worker_at n Active) with "[Hj]").
  { destruct p as [a|]; [|by iApply pwp_ret]. iDestruct "Hj" as (i call pr) "(Ha & Hi & Hj)".
    pacc "Ha".
    pacc "Ha". iApply pwp_bind.
    iApply (pwp_call_job with "Hp Hi Hj"). iIntros "Hj". iApply (pwp_free with "[Ha] Hj"). by iFrame. }
  iIntros (_) "Hj". iApply pwp_bind. iApply (pwp_lock with "Hm"). iIntros "Hheld Hcount". iApply pwp_bind.
  iApply (pwp_phase false _ Active Idle with "Hp Hj Hcount"); [done..|]. iIntros "Hj (%a & %w & Ha & Hw)".
  pacc "Hw". iApply pwp_bind.
  iApply (pwp_wand _ (λ _, True)%I); [by case_match; [iApply (pwp_cond_signal with "Hc")|iApply pwp_ret]|].
  iIntros (_) "_". iApply (pwp_unlock with "Hm Hheld [Ha Hw] Hj"). iExists _, _. iFrame.
Qed.

Lemma pwp_thread_do n c Φ : is_pool -∗ start_inv n -∗ L_thread n ↦ c -∗ pwp (thread_do n) Φ.
Proof.
  iIntros "#Hp #Hs Ht". iApply pwp_bind. iApply (pwp_set with "Ht"); [done|]. iIntros "Ht".
  iApply pwp_bind. iApply (pwp_install with "Hp"). iIntros "#Hh". iApply fupd_pwp.
  iMod (start_take with "Hs Hh Ht") as "Hj". iModIntro. iApply pwp_interruptible.
  - iIntros "!>" (Ψ) "H". by iApply (pwp_thread_hold with "Hp").
  - by iApply (pwp_thread_work with "Hp").
Qed.

(** ** Making the pool *)

Definition all_unstarted (n count : nat) : iProp Σ := [∗ list] j ∈ seq n count, worker_at j Unstarted.

(** The counters start at 0 and come under the invariant. *)
Lemma counters_alloc : pool_inv -∗ accepted [] -∗ taken 0 -∗ all_unstarted 0 workers -∗
  L_len ↦ C_int 0 -∗ L_alive ↦ C_int 0 -∗ L_working ↦ C_int 0 ={⊤}=∗
  known {[F_made]} ∗ accepted [] ∗ taken 0 ∗ all_unstarted 0 workers ∗
  half L_len (C_int 0) ∗ half L_alive (C_int 0) ∗ half L_working (C_int 0).
Proof.
  iIntros "#Hinv Hacc Htk Hws Hn Ha Hw".
  iInv "Hinv" as (m ws acc k calls idxs F) ">[(%Hok & Hm & Hwm & Hacc' & Hh & HFa & Hl) Hc]" "Hclose".
  iDestruct (ghost_var_agree with "Hacc Hacc'") as %<-.
  iDestruct (ghost_var_agree with "Htk Hh") as %<-.
  iAssert ⌜∀ j p, ws !! j = Some p → p = Unstarted⌝%I as %Hall.
  { iIntros (j p Hj). assert (seq 0 workers !! j = Some j) as Hs.
    { apply lookup_seq. split; [done|]. assert (j ∈ dom ws) as Hd by (by apply elem_of_dom).
      rw (ok_workers Hok) elem_of_set_seq in Hd. lia. }
    iDestruct (big_sepL_lookup with "Hws") as "Hj"; [done|]. iDestruct (ghost_map_lookup with "Hwm Hj") as %Hj'. iPureIntro. congruence. }
  assert (m = ∅) as -> by (apply map_size_empty_inv; by rw (ok_size Hok)).
  case_decide as HF.
  { iDestruct "Hc" as "[Hc _]". by iDestruct (ghost_map_elem_valid_2 with "Hn Hc") as %[? _]. }
  iMod (known_learn F {[F_made]} with "HFa") as "[HFa $]".
  iDestruct (half_cut with "Hn") as "[$ Hn]". iDestruct (half_cut with "Ha") as "[$ Ha]". iDestruct (half_cut with "Hw") as "[$ Hw]".
  iFrame "Hacc Htk Hws". iApply "Hclose". iNext. iExists ∅, ws, [], 0%nat, calls, idxs, (F ∪ {[F_made]}). rw decide_True; [|set_solver].
  iFrame "Hm Hwm Hacc' Hh HFa Hl". iSplit; [iPureIntro; by apply ok_made|].
  iApply (counters_intro with "Hn Ha Hw"); [done|apply msum_zero..]; by intros j p ->%Hall.
Qed.

Lemma pwp_jobqueue_init c1 c2 c3 c4 Φ :
  L_len ↦ c1 -∗ L_front ↦ c2 -∗ L_rear ↦ c3 -∗ L_rwmutex ↦ c4 -∗
  (L_len ↦ C_int 0 -∗ L_front ↦ C_ptr None -∗ L_rear ↦ C_ptr None -∗
   ((∃ c, L_rwmutex ↦ c) -∗ Φ (-1)) ∧
   (L_rwmutex ↦ C_mutex false -∗ L_bsem_mutex ↦ C_mutex false -∗ L_bsem_cond ↦ C_cond ∅ -∗ L_bsem_v ↦ C_int 0 -∗ Φ 0)) -∗
  pwp jobqueue_init Φ.
Proof.
  iIntros "Hn Hf Hr Hm H". pacc "Hn".
  pacc "Hf". pacc "Hr".
  iDestruct ("H" with "Hn Hf Hr") as "H". iApply pwp_bind. iApply pwp_malloc; [by apply (bool_decide_unpack _)|]. iIntros ([|]) "Hls"; cbn.
  - iDestruct "H" as "[_ H]". iDestruct "Hls" as "(Hbm & Hbc & Hbv & _)".
    pacc "Hm". pacc "Hbm". pacc "Hbc".
    pacc "Hbv". iApply pwp_ret. iApply ("H" with "Hm Hbm Hbc Hbv").
  - iDestruct "H" as "[H _]". iApply pwp_ret. iApply "H". by iExists _.
Qed.

Lemma pwp_jobqueue_destroy Φ :
  L_len ↦ C_int 0 -∗ L_front ↦ C_ptr None -∗ L_rear ↦ C_ptr None -∗
  L_bsem_mutex ↦ C_mutex false -∗ L_bsem_cond ↦ C_cond ∅ -∗ L_bsem_v ↦ C_int 0 -∗
  (L_len ↦ C_int 0 -∗ L_front ↦ C_ptr None -∗ L_rear ↦ C_ptr None -∗ Φ tt) -∗ pwp jobqueue_destroy Φ.
Proof.
  iIntros "Hn Hf Hr Hbm Hbc Hbv H". iApply pwp_bind. iApply pwp_bind.
  iApply (pwp_while (L_len ↦ C_int 0) (L_len ↦ C_int 0) with "Hn").
  { iIntros "!> Hn". pacc "Hn". by iApply pwp_ret. }
  iIntros "Hn". pacc "Hf". pacc "Hr".
  pacc "Hbm".
  pacc "Hbc". pacc "Hbv".
  pacc "Hn". iApply (pwp_free with "[Hbm Hbc Hbv]"); [|iApply ("H" with "Hn Hf Hr")]. cbn. iFrame.
Qed.

Lemma pwp_worker n c : is_pool -∗ start_inv n -∗ L_thread n ↦ c -∗ WP worker n {{ _, True }}.
Proof. iIntros "#Hp #Hs Ht". iApply pwp_wp. iApply pwp_bind. iApply (pwp_thread_do with "Hp Hs Ht"). Qed.

Lemma pwp_set_thread n t ts Φ : (n < length ts)%nat →
  L_threads ↦ C_threads ts -∗ (L_threads ↦ C_threads (<[n := t]> ts) -∗ Φ tt) -∗ pwp (set_thread n t) Φ.
Proof. intros Hn. apply pwp_set. by rw decide_True. Qed.

(** An entry of [threads]: without a structure there is no worker. *)
Definition slot (j : nat) (t : option nat) : iProp Σ :=
  match t with Some k => ⌜k = j⌝ ∗ start_inv j | None => worker_at j Unstarted end.
Definition slots (l : list nat) (ts : list (option nat)) : iProp Σ :=
  [∗ list] j ∈ l, ∃ t, ⌜ts !! j = Some t⌝ ∗ slot j t.

Lemma pwp_thread_init n id ts Φ : (n < length ts)%nat →
  is_pool -∗ worker_at n Unstarted -∗ L_threads ↦ C_threads ts -∗
  (∀ r t, L_threads ↦ C_threads (<[n := t]> ts) -∗ slot n t -∗ Φ r) -∗ pwp (thread_init n id) Φ.
Proof.
  iIntros (Hn) "#Hp Hj Ht H". pbind. iApply pwp_malloc; [by apply (bool_decide_unpack _)|]. iIntros ([|]) "Hl"; cbn; iApply pwp_bind.
  - iDestruct "Hl" as "[Hl _]". iApply (pwp_set_thread with "Ht"); [done|]. iIntros "Ht". pacc "Hl". iApply fupd_pwp.
    iMod (inv_alloc _ _ (worker_at n Unstarted ∨ thread_ready n) with "[Hj]") as "#Hs"; [by iLeft|]. iModIntro. iApply pwp_bind.
    iApply (pwp_spawn with "[Hl]"); [iApply (pwp_worker with "Hp Hs Hl")|]. iApply pwp_ret. iApply ("H" with "Ht"). by iFrame "Hs".
  - iApply (pwp_set_thread with "Ht"); [done|]. iIntros "Ht". iApply pwp_ret. iApply ("H" with "Ht Hj").
Qed.

Lemma pwp_init_threads n count ts Φ : length ts = (n + count)%nat →
  is_pool -∗ all_unstarted n count -∗ L_threads ↦ C_threads ts -∗
  (∀ ts', ⌜∀ j, (j < n)%nat → ts' !! j = ts !! j⌝ -∗ L_threads ↦ C_threads ts' -∗ slots (seq n count) ts' -∗ Φ tt) -∗
  pwp (init_threads n count) Φ.
Proof.
  iInduction count as [|count] "IH" forall (n ts); iIntros (Hlen) "#Hp Hws Ht H"; cbn.
  { iApply pwp_ret. by iApply ("H" with "[//] Ht"). }
  iDestruct "Hws" as "[Hj Hws]". iApply pwp_bind. iApply (pwp_thread_init with "Hp Hj Ht"); [lia|]. iIntros (r t) "Ht Hs".
  iApply ("IH" with "[%] Hp Hws Ht"); [rw length_insert; lia|]. iIntros (ts' Hts) "Ht Hss". iApply ("H" with "[%] Ht").
  - intros j Hj. rw Hts ?list_lookup_insert_ne; [done|lia..].
  - cbn. iFrame "Hss". iExists t. iFrame "Hs". iPureIntro. rw Hts ?list_lookup_insert_eq; [done|lia..].
Qed.

(** When all workers have counted themselves, each entry has one that is ready. *)
Definition all_ready (l : list nat) (ts : list (option nat)) : iProp Σ :=
  [∗ list] j ∈ l, ⌜ts !! j = Some (Some j)⌝ ∗ thread_ready j.
#[export] Instance all_ready_persistent l ts : Persistent (all_ready l ts).
Proof. apply _. Qed.
Lemma slots_ready ws l ts E : ↑nroot .@ "start" ⊆ E → (∀ j p, ws !! j = Some p → p ≠ Unstarted) →
  ghost_map_auth (pn_workers γ) 1 ws -∗ slots l ts ={E}=∗ ghost_map_auth (pn_workers γ) 1 ws ∗ all_ready l ts.
Proof.
  iIntros (HE Hws) "Hw Hl". iInduction l as [|j l] "IH"; [by iFrame|]. iDestruct "Hl" as "[(%t & %Ht & Hj) Hl]".
  iMod ("IH" with "Hw Hl") as "[Hw #Hl]". destruct t as [k|]; cbn.
  - iDestruct "Hj" as "[-> #Hs]". iInv "Hs" as ">[Hj|#Hj]" "Hclose".
    + iDestruct (ghost_map_lookup with "Hw Hj") as %Hj. by destruct (Hws _ _ Hj).
    + iMod ("Hclose" with "[]") as "_"; [by iRight|]. iModIntro. iFrame "Hw Hl Hj". done.
  - iDestruct (ghost_map_lookup with "Hw Hj") as %Hj. by destruct (Hws _ _ Hj).
Qed.

(** The memory of a pool that is ready becomes a pool. *)
Lemma is_pool_alloc : pool_inv -∗ taken 0 -∗ known {[F_made]} -∗
  half L_len (C_int 0) -∗ half L_alive (C_int 0) -∗ half L_working (C_int 0) -∗
  L_front ↦ C_ptr None -∗ L_rear ↦ C_ptr None -∗ L_rwmutex ↦ C_mutex false -∗
  L_bsem_mutex ↦ C_mutex false -∗ L_bsem_cond ↦ C_cond ∅ -∗ L_bsem_v ↦ C_int 0 -∗
  L_thcount_lock ↦ C_mutex false -∗ L_all_idle ↦ C_cond ∅ -∗ L_keepalive ↦ C_int 1 -∗
  L_on_hold ↦ C_int 0 -∗ L_handler ↦ C_int 0 ={⊤}=∗ is_pool.
Proof.
  iIntros "#Hinv Htk #HF Hn Ha Hw Hf Hr Hm Hbm Hbc Hbv Htm Htc Hk Hh Hs". iFrame "Hinv HF".
  iMod (is_lock_alloc _ bsem_content with "Hbm [Hbv]") as "$"; [by iExists 0|].
  iMod (is_cond_alloc with "Hbc") as "$".
  iMod (is_lock_alloc _ count_content with "Htm [Ha Hw]") as "$"; [iExists _, _; iFrame|].
  iMod (is_cond_alloc with "Htc") as "$".
  iMod (is_lock_alloc _ queue_content with "Hm [Htk Hn Hf Hr]") as "$"; [by iExists [], None, 0%nat; iFrame|].
  iMod (ghost_map_elem_persist with "Hk") as "$".
  iMod (inv_alloc _ _ (∃ z, L_on_hold ↦ C_int z) with "[Hh]") as "$"; [by iExists 0|].
  iApply inv_alloc. iNext. iLeft. by iExists _.
Qed.

(** The client reads the number of workers without the lock. *)
Lemma pwp_read_alive Φ : is_pool -∗ (∀ n, ⌜n <= Z.of_nat workers⌝ -∗ Φ n) -∗ pwp (get_int L_alive) Φ.
Proof.
  iIntros "(#Hinv & #HF & _) H". iApply pwp_read.
  iMod (pool_open with "Hinv HF") as (m ws acc k calls idxs F) "([%Hok Hs] & (Hc & Hal & Hwo) & Hclose)".
  iModIntro. iExists _, _, _. iFrame "Hal". iSplit; [done|]. iIntros "Hal".
  iMod ("Hclose" $! _ _ _ _ _ _ F with "[//] [$Hs //] [$Hc $Hal $Hwo]") as "_". iModIntro. iApply "H".
  iPureIntro. rw -(ok_ws_size Hok). apply n_started_bounds.
Qed.
Lemma pwp_read_ready ts Φ : is_pool -∗ slots (seq 0 workers) ts -∗
  (∀ n, (⌜n ≠ Z.of_nat workers⌝ ∗ slots (seq 0 workers) ts) ∨ (⌜n = Z.of_nat workers⌝ ∗ all_ready (seq 0 workers) ts) -∗ Φ n) -∗
  pwp (get_int L_alive) Φ.
Proof.
  iIntros "(#Hinv & #HF & _) Hl H". iApply pwp_read.
  iMod (pool_open with "Hinv HF") as (m ws acc k calls idxs F) "((%Hok & Hm & Hw & Ha & Hh & HFa & Hlog) & (Hc & Hal & Hwo) & Hclose)".
  iModIntro. iExists _, _, _. iFrame "Hal". iSplit; [done|]. iIntros "Hal".
  destruct (decide (n_started ws = Z.of_nat workers)) as [Hn|Hn].
  - iMod (slots_ready with "Hw Hl") as "[Hw #Hl]"; [solve_ndisj| |].
    { intros j p. apply n_started_all. by rw (ok_ws_size Hok). }
    iMod ("Hclose" $! _ _ _ _ _ _ F with "[//] [$Hm $Hw $Ha $Hh $HFa $Hlog //] [$Hc $Hal $Hwo]") as "_". iModIntro.
    iApply "H". iRight. by iFrame "Hl".
  - iMod ("Hclose" $! _ _ _ _ _ _ F with "[//] [$Hm $Hw $Ha $Hh $HFa $Hlog //] [$Hc $Hal $Hwo]") as "_". iModIntro.
    iApply "H". iLeft. by iFrame "Hl".
Qed.

(** The threads of a pool that is ready. *)
Definition pool_threads : iProp Σ := ∃ ts, L_threads ↦ C_threads ts ∗ all_ready (seq 0 workers) ts.

Lemma pwp_thpool_init num_threads Φ : workers = Z.to_nat num_threads →
  pool_inv -∗ accepted [] -∗ taken 0 -∗ all_unstarted 0 workers -∗ L_keepalive ↦ C_int 0 -∗ L_on_hold ↦ C_int 0 -∗ L_handler ↦ C_int 0 -∗
  (∀ ok : bool, accepted [] -∗ (if ok then is_pool ∗ pool_threads else True) -∗ Φ ok) -∗ pwp (thpool_init num_threads) Φ.
Proof.
  iIntros (Hnum) "#Hinv Hacc Htk Hws Hk Hh Hs H".
  assert (workers = Z.to_nat (if num_threads <? 0 then 0 else num_threads)) as Hcount by (case_match; lia). pacc "Hh". pacc "Hk". iApply pwp_bind.
  iApply pwp_malloc; [by apply (bool_decide_unpack _)|]. iIntros ([|]) "Hls"; cbn -[init_threads]; [|iApply pwp_ret; by iApply ("H" $! false with "Hacc")].
  iDestruct "Hls" as "(Ha & Hw & Htm & Htc & Hm & Hf & Hr & Hn & _)". pacc "Ha". pacc "Hw". iApply pwp_bind.
  iApply (pwp_jobqueue_init with "Hn Hf Hr Hm"). iIntros "Hn Hf Hr". iSplit.
  { iIntros "Hm". cbn. iApply pwp_bind. iApply (pwp_free with "[Ha Hw Htm Htc Hm Hf Hr Hn]"); [cbn; iFrame|]. iApply pwp_ret. by iApply ("H" $! false with "Hacc"). }
  iIntros "Hm Hbm Hbc Hbv". cbn -[init_threads]. iApply pwp_bind. iApply pwp_malloc; [by apply (bool_decide_unpack _)|]. iIntros ([|]) "Ht"; cbn -[init_threads]; iApply pwp_bind.
  - iDestruct "Ht" as "[Ht _]". pacc "Ht". pacc "Htm". pacc "Htc". iApply fupd_pwp.
    iMod (counters_alloc with "Hinv Hacc Htk Hws Hn Ha Hw") as "(#HF & Hacc & Htk & Hws & Hn & Ha & Hw)".
    iMod (is_pool_alloc with "Hinv Htk HF Hn Ha Hw Hf Hr Hm Hbm Hbc Hbv Htm Htc Hk Hh Hs") as "#Hp". iModIntro. iApply pwp_bind.
    rw -Hcount. iApply (pwp_init_threads with "Hp Hws Ht"); [by rw length_replicate|]. iIntros (ts _) "Ht Hl". iApply pwp_bind.
    iApply (pwp_while (slots (seq 0 workers) ts) (all_ready (seq 0 workers) ts) with "Hl").
    + iIntros "!> Hl". iApply pwp_bind. iApply (pwp_read_ready with "Hp Hl"). iIntros (n) "[[%Hn Hl]|[-> Hl]]"; iApply pwp_ret.
      * rw (proj2 (Z.eqb_neq _ _)); [by iApply pwp_ret|]. case_match; lia.
      * rw (proj2 (Z.eqb_eq _ _)); [done|]. case_match; lia.
    + iIntros "Hl". iApply pwp_ret. iApply ("H" $! true with "Hacc"). iFrame "Hp". iExists ts. iFrame.
  - iApply (pwp_jobqueue_destroy with "Hn Hf Hr Hbm Hbc Hbv"). iIntros "Hn Hf Hr". iApply pwp_bind.
    iApply (pwp_free with "[Ha Hw Htm Htc Hm Hf Hr Hn]"); [cbn; iFrame|]. iApply pwp_ret. by iApply ("H" $! false with "Hacc").
Qed.

(** ** The client *)

Lemma pwp_thpool_add_work acc f a Φ : (acc ++ [(f, a)]) `sublist_of` plan →
  is_pool -∗ accepted acc -∗
  (∀ r, accepted (if r =? 0 then acc ++ [(f, a)] else acc) -∗ Φ r) -∗ pwp (thpool_add_work f a) Φ.
Proof.
  iIntros (Hsub) "#Hp Ha H". iApply pwp_bind. iApply pwp_malloc_job. iIntros ([p|]) "Hj"; [|iApply pwp_ret; iApply ("H" $! (-1) with "Ha")].
  pacc "Hj". pacc "Hj". iApply pwp_bind. iApply (pwp_jobqueue_push _ (f, a) with "Hp Ha Hj"); [done|]. iIntros "Ha".
  iApply pwp_ret. iApply ("H" $! 0 with "Ha").
Qed.

(** Pausing: all threads that are counted as alive are ready, so the signal has its
    handler. *)
Lemma pwp_pause n Φ : is_pool -∗ pool_threads -∗ (pool_threads -∗ Φ tt) -∗ pwp (ITree.iter pause_one n) Φ.
Proof.
  iIntros "#Hp (%ts & Ht & #Hr) H". iLöb as "IH" forall (n).
  iApply pwp_iter. iApply pwp_bind. iApply (pwp_read_alive with "Hp"). iIntros (alive Halive).
  destruct (Z.ltb_spec (Z.of_nat n) alive) as [Hn|Hn]; [|iApply pwp_ret; iApply "H"; iExists ts; by iFrame].
  iDestruct (big_sepL_lookup _ _ n n with "Hr") as "(%Hts & #Hs & %c & #Hl)"; [apply lookup_seq; lia|].
  iApply pwp_bind. iApply (pwp_read with "[-]"). iModIntro. iExists _, _, _. iFrame "Ht".
  iSplit; [iPureIntro; by rw Hts|]. iIntros "Ht". iModIntro. cbn. iApply pwp_bind. iApply pwp_bind. iApply pwp_read. iModIntro.
  iExists _, _, _. iSplit; [done|]. iFrame "Hl". iIntros "_ !>". iApply (pwp_kill with "Hs"). iApply pwp_ret. iNext.
  iApply ("IH" with "Ht H").
Qed.

Lemma jobs_of_add f a cmds : jobs_of (Add f a :: cmds) = (f, a) :: jobs_of cmds.
Proof. done. Qed.
Lemma pwp_run_all acc cmds Φ : (acc ++ jobs_of cmds) `sublist_of` plan →
  is_pool -∗ pool_threads -∗ accepted acc -∗ (∀ new, accepted (acc ++ new) -∗ Φ new) -∗ pwp (run_all cmds) Φ.
Proof.
  iInduction cmds as [|[f a| |] cmds] "IH" forall (acc Φ); iIntros (Hsub) "#Hp Ht Ha H"; cbn [run_all].
  - iApply pwp_ret. iApply "H". by rw app_nil_r.
  - rw jobs_of_add in Hsub. iApply pwp_bind. iApply (pwp_thpool_add_work with "Hp Ha").
    { etrans; [|done]. apply sublist_app; [done|]. apply sublist_skip, sublist_nil_l. }
    iIntros (r) "Ha". iApply pwp_bind. case_match.
    + iApply ("IH" with "[%] Hp Ht Ha"); [by rw -app_assoc|]. iIntros (new) "Ha". iApply pwp_ret. iApply "H". by rw -app_assoc.
    + iApply ("IH" with "[%] Hp Ht Ha"); [|iIntros (new) "Ha"; iApply pwp_ret; by iApply "H"].
      etrans; [|done]. apply sublist_app; [done|]. by apply sublist_cons.
  - iApply pwp_bind. iApply (pwp_pause with "Hp Ht"). iIntros "Ht". by iApply ("IH" with "[%] Hp Ht Ha H").
  - iApply pwp_bind. iApply (pwp_set_hold with "Hp"). by iApply ("IH" with "[%] Hp Ht Ha H").
Qed.

(** Both counters are 0: all that was accepted is done. *)
Lemma pwp_thpool_wait acc Φ :
  is_pool -∗ accepted acc -∗ (known (done_facts (length acc)) -∗ accepted acc -∗ Φ tt) -∗ pwp thpool_wait Φ.
Proof.
  iIntros "#Hp Ha H". iPoseProof "Hp" as "(_ & _ & _ & _ & Hm & Hc & _)".
  iApply pwp_bind. iApply (pwp_lock with "Hm"). iIntros "Hheld Hcount". iApply pwp_bind.
  set (I := (held L_thcount_lock ∗ count_content ∗ accepted acc)%I).
  iApply (pwp_while I (known (done_facts (length acc)) ∗ I) with "[$]").
  - iIntros "!> (Hheld & Hcount & Ha)". iApply pwp_bind. iApply (pwp_read_len with "Hp Ha"). iIntros (n) "Hz Ha".
    iAssert (held L_thcount_lock -∗ count_content -∗ accepted acc -∗ pwp (cond_wait L_all_idle L_thcount_lock) (λ _, I))%I as "Hwait".
    { iIntros "Hheld Hcount Ha". iApply (pwp_cond_wait with "Hc Hm Hheld Hcount"). iIntros "Hheld Hcount". iFrame. }
    destruct (Z.eqb_spec n 0) as [->|Hn]; cbn [negb]; [|iApply pwp_ret; iApply ("Hwait" with "Hheld Hcount Ha")].
    iDestruct ("Hz" with "[//]") as "#Hd". iDestruct "Hcount" as (al w) "[Hal Hw]". iApply pwp_bind.
    iApply (pwp_read_working with "Hp Hd Ha Hw"). iIntros "Hz Ha Hw". iApply pwp_ret.
    iAssert count_content with "[Hal Hw]" as "Hcount"; [iExists _, _; iFrame|].
    destruct (Z.eqb_spec w 0) as [->|Hw]; cbn [negb]; [|iApply ("Hwait" with "Hheld Hcount Ha")].
    iDestruct ("Hz" with "[//]") as "$". iFrame.
  - iIntros "(Hd & Hheld & Hcount & Ha)". iApply (pwp_unlock with "Hm Hheld Hcount"). iApply ("H" with "Hd Ha").
Qed.

Lemma pwp_client num_threads cmds : workers = Z.to_nat num_threads → jobs_of cmds = plan →
  pool_inv -∗ known ∅ -∗ accepted [] -∗ taken 0 -∗ all_unstarted 0 workers -∗ L_keepalive ↦ C_int 0 -∗ L_on_hold ↦ C_int 0 -∗
  L_handler ↦ C_int 0 -∗ pwp (client num_threads cmds) (λ r, known (done_facts (length r)) ∗ accepted r).
Proof.
  iIntros (Hnum Hcmds) "#Hinv #H0 Ha Htk Hws Hk Hh Hs". iApply pwp_bind.
  iApply (pwp_thpool_init with "Hinv Ha Htk Hws Hk Hh Hs"); [done|]. iIntros ([|]) "Ha Hp".
  - iDestruct "Hp" as "[#Hp Ht]". iApply pwp_bind. iApply (pwp_run_all [] cmds with "Hp Ht Ha"); [by rw Hcmds|].
    iIntros (new) "Ha". cbn. iApply pwp_bind. iApply (pwp_thpool_wait with "Hp Ha"). iIntros "Hd Ha". iApply pwp_ret. iFrame.
  - iApply pwp_ret. by iFrame.
Qed.
End pool.
