(* ===== verification/PoolRuns.v ===== *)
(** * Schedules of the thread pool

    A scheduler that runs the threads of [Pool] in a given order, for the examples
    and for what the pool does not do: where it frees itself under a running worker,
    forgets a waiting thread, or waits for a worker that was never made. *)

From ITree Require Import ITree.
From S2P Require Import Prelude Pool.

(** The choices of a process with enough memory and no spurious wakeups: a signal
    wakes one of the waiting threads, SIGUSR1 is delivered at once. *)
Fixpoint pick {X} (e : poolE X) (h : gmap loc cell) : Z :=
  match e with
  | Cond_leave _ _ => 0
  | Interrupt _ e => pick e h
  | Cond_signal c => match h !! c with Some (C_cond ws) => Z.of_nat (hd 0%nat (elements ws)) | _ => 0 end
  | Malloc_job => Z.of_nat (hd 0%nat (filter (fun n => h !! L_job (Pos.of_nat n) = None) (seq 1 10)))
  | _ => 1
  end.
Definition pick_thread (s : tstate) (h : gmap loc cell) : Z :=
  match s with
  | Running t => match observe t with VisF e _ => pick e h | _ => 0 end
  | Finished _ => 0
  end.

(** The threads [sched] one after the other make a step each, those that are blocked
    none. *)
Definition drive_one (c : pconfig) (i : nat) : pconfig :=
  match pc_threads c !! i with
  | Some s => default c (pool_step i (pick_thread s (pc_heap c)) c)
  | None => c
  end.
Definition drive (sched : list nat) (c : pconfig) : pconfig := foldl drive_one c sched.

Lemma drive_reach c0 sched c : pool_reach c0 c → pool_reach c0 (drive sched c).
Proof.
  revert c. induction sched as [|i sched IH]; intros c Hr; cbn; [done|]. apply IH. unfold drive_one.
  destruct (pc_threads c !! i) as [s|]; [|done]. destruct (pool_step i _ c) eqn:Hs; [|done]. by eapply pool_reach_step.
Qed.

Fixpoint rounds (threads n : nat) : list nat :=
  match n with O => [] | S n => seq 0 threads ++ rounds threads n end.

Definition result_of (c : pconfig) : option (list (Z * Z)) :=
  match pc_threads c !! 0%nat with Some (Finished r) => Some r | _ => None end.
Definition calls_of (c : pconfig) : option (list (Z * Z)) :=
  match pc_heap c !! L_log with Some (C_log calls) => Some calls | _ => None end.
Definition crashes_now (c : pconfig) : bool :=
  existsb (fun s => match step_thread s (pick_thread s (pc_heap c)) (pc_heap c) with Undefined => true | _ => false end) (pc_threads c).

Example run_pool : let c := drive (rounds 3 600) (start_client 2 [Add 1 10; Add 2 20; Pause; Resume; Add 3 30]) in
  result_of c = Some [(1, 10); (2, 20); (3, 30)] ∧ calls_of c = Some [(1, 10); (2, 20); (3, 30)].
Proof. vm_compute. done. Qed.

(** A worker that is on hold calls nothing. *)
Example run_paused : let c := drive (rounds 2 600) (start_client 1 [Add 1 10; Pause; Add 2 20]) in
  result_of c = None ∧ calls_of c = Some [] ∧ pc_heap c !! L_on_hold = Some (C_int 1).
Proof. vm_compute. done. Qed.

(** ** Destroying a pool *)

(** A client that makes a pool with one worker and destroys it. *)
Definition destroy_client : P (list (Z * Z)) :=
  ok ← thpool_init 1;
  if (ok : bool) then thpool_destroy false;; mret [] else mret [].
Definition start_destroy : pconfig := mk_pconfig [Running destroy_client] start_heap.

(** The last worker has counted itself out and not unlocked yet when the pool is freed. *)
Definition destroy_schedule : list nat := take 94 (rounds 2 200) ++ repeat 0%nat 200.

Lemma crashes_now_crashes c : crashes_now c = true → pool_crashes c.
Proof.
  intros (s & [i Hi]%list_elem_of_In%list_elem_of_lookup & Hs)%existsb_exists. exists i, s, (pick_thread s (pc_heap c)).
  split; [done|]. by destruct (step_thread _ _ _).
Qed.

(** [thpool_destroy] can free the pool under its last worker: the worker
    decrements [num_threads_alive] inside the critical section of [thcount_lock], the
    destroying thread reads 0 without the lock, frees the pool, and the unlock of the
    worker is an access to freed memory. *)
Theorem thpool_destroy_use_after_free :
  ∃ c, pool_reach start_destroy c ∧ pc_heap c !! L_thcount_lock = None ∧ pool_crashes c.
Proof.
  exists (drive destroy_schedule start_destroy). split; [apply drive_reach, pool_reach_start|].
  split; [by vm_compute|]. apply crashes_now_crashes. by vm_compute.
Qed.

(** ** Two threads wait *)

Definition start_two_waiters : pconfig :=
  mk_pconfig [Running (client 1 [Add 1 10]); Running (thpool_wait;; mret [])] start_heap.
(** The pool is made, both threads go to sleep, the worker does the job. *)
Definition waiters_schedule : list nat :=
  concat (repeat [0; 2]%nat 60) ++ repeat 0%nat 100 ++ repeat 1%nat 100 ++ repeat 2%nat 100 ++ rounds 3 100.

Definition asleep (c : pconfig) : bool :=
  forallb (fun s => match step_thread s 0 (pc_heap c) with Blocked => true | _ => false end) (pc_threads c).
Lemma asleep_blocked c : asleep c = true → ∀ i s, pc_threads c !! i = Some s → step_thread s 0 (pc_heap c) = Blocked.
Proof.
  intros Ha i s Hi%list_elem_of_lookup_2%list_elem_of_In. apply forallb_forall with (x := s) in Ha; [|done].
  by destruct (step_thread s 0 (pc_heap c)).
Qed.

(** of two threads in [thpool_wait] only one is woken: the worker that becomes idle
    signals [threads_all_idle] once and nothing signals it again.  The queue is empty,
    no worker is working and every job was called, but the client sleeps, and only a
    spurious wakeup (any choice but 0) lets a thread of the process go on. *)
Theorem thpool_wait_second_waiter :
  ∃ c, pool_reach start_two_waiters c ∧ calls_of c = Some [(1, 10)] ∧
    pc_heap c !! L_len = Some (C_int 0) ∧ pc_heap c !! L_working = Some (C_int 0) ∧
    pc_threads c !! 1%nat = Some (Finished []) ∧
    ∀ i s, pc_threads c !! i = Some s → step_thread s 0 (pc_heap c) = Blocked.
Proof.
  exists (drive waiters_schedule start_two_waiters). split; [apply drive_reach, pool_reach_start|].
  do 4 (split; [by vm_compute|]). apply asleep_blocked. by vm_compute.
Qed.

(** ** Resuming too early *)

(** [thpool_pause] returns when the signals are sent, and the handler of a worker sets
    [threads_on_hold] itself: when [thpool_resume] comes first, the worker is on hold
    afterwards.  Here the threads make one step each in turn, the client has resumed
    the pool, added a job and waits, and the worker is still in its handler a
    thousand steps later. *)
Lemma thpool_resume_lost :
  ∃ c, pool_reach (start_client 1 [Pause; Resume; Add 1 10]) c ∧ calls_of c = Some [] ∧
    pc_heap c !! L_len = Some (C_int 1) ∧ pc_heap c !! L_on_hold = Some (C_int 1) ∧ pending (pc_heap c) = ∅ ∧
    option_map (fun s => step_thread s 0 (pc_heap c)) (pc_threads c !! 0%nat) = Some Blocked.
Proof.
  exists (drive (rounds 2 60 ++ repeat 1%nat 1000) (start_client 1 [Pause; Resume; Add 1 10])).
  split; [apply drive_reach, pool_reach_start|]. split_and!; by vm_compute.
Qed.

(** ** A worker that was not made *)

(** [pthread_create] fails at the end. *)
Definition spinning (cmds : list command) : pconfig :=
  default (start_client 1 cmds) (pool_step 0 0 (drive (repeat 0%nat 20) (start_client 1 cmds))).
(** The loop of [thpool_init], with what the client does after it. *)
Definition spin (k : bool → P (list (Z * Z))) : P (list (Z * Z)) :=
  (while (alive ← get_int L_alive; mret (negb (alive =? 1))) (mret tt);; mret true) ≫= k.
Lemma spin_observe k : ∃ k',
  observe (spin k) = VisF (Access L_alive (fun c => match c with C_int z => Some (z, c) | _ => None end)) k' ∧
  observe (k' 0) = TauF (spin k).
Proof.
  let o := eval lazy in (observe (spin k)) in change (observe (spin k)) with o.
  eexists. split; [reflexivity|]. reflexivity.
Qed.

Definition client_tree (c : pconfig) : P (list (Z * Z)) := match pc_threads c with [Running t] => t | _ => mret [] end.
Definition after_init (cmds : list command) (ok : bool) : P (list (Z * Z)) :=
  if ok then accepted ← run_all cmds; thpool_wait;; mret accepted else mret [].
Lemma spinning_observe cmds : observe (client_tree (spinning cmds)) = observe (spin (after_init cmds)).
Proof. exact eq_refl. Qed.

(** The client alone, in its loop, with no worker. *)
Definition in_loop (cmds : list command) (c : pconfig) : Prop :=
  pc_heap c !! L_alive = Some (C_int 0) ∧
  ∃ t, pc_threads c = [Running t] ∧
    (observe t = observe (spin (after_init cmds)) ∨ observe t = TauF (spin (after_init cmds))).
Lemma spinning_in_loop cmds : in_loop cmds (spinning cmds).
Proof.
  split; [by vm_compute|]. exists (client_tree (spinning cmds)). split; [exact eq_refl|]. left. apply spinning_observe.
Qed.
Lemma in_loop_step cmds i choice c c' : in_loop cmds c → pool_step i choice c = Some c' → in_loop cmds c'.
Proof.
  intros (Hh & t & Ht & Ho) Hs. unfold pool_step in Hs. rewrite Ht in Hs. destruct i as [|i]; [|by destruct i]. cbn in Hs.
  destruct (spin_observe (after_init cmds)) as (k' & Hk & Hk').
  destruct Ho as [Ho|Ho]; rewrite Ho in Hs; [rewrite Hk in Hs|]; cbn -[lookup insert] in Hs.
  - rewrite Hh in Hs. injection Hs as <-. split; [apply lookup_insert_eq|]. exists (k' 0). split; [done|by right].
  - injection Hs as <-. split; [done|]. exists (spin (after_init cmds)). split; [done|by left].
Qed.

(** when [pthread_create] fails, [thpool_init], which does not look at its result,
    never returns: it waits for the worker that was not made.  From the configuration
    reached then, no run leads to a result of the client. *)
Theorem thpool_init_missing_worker cmds :
  pool_reach (start_client 1 cmds) (spinning cmds) ∧
  ∀ c, pool_reach (spinning cmds) c → result_of c = None.
Proof.
  split.
  - unfold spinning. destruct (pool_step 0 0 _) as [c|] eqn:Hc; cbn; [|apply pool_reach_start].
    eapply pool_reach_step; [|exact Hc]. apply drive_reach, pool_reach_start.
  - intros c Hr. assert (in_loop cmds c) as (_ & t & Ht & _).
    { induction Hr as [|i choice c c' _ IH Hs]; [apply spinning_in_loop|by eapply in_loop_step]. }
    unfold result_of. by rewrite Ht.
Qed.
