(* ===== verification/PoolTheorems.v ===== *)
(** * The thread pool executes every job once

    What the separation logic of [PoolProofs] says of the runs of [Pool], whatever
    the interleaving of the threads. *)

From ITree Require Import ITree.
From iris.proofmode Require Import environments proofmode.
From iris.algebra Require Import auth gset.
From iris.base_logic.lib Require Import ghost_map ghost_var invariants own.
From iris.program_logic Require Import weakestpre adequacy.
From S2P Require Import Prelude Pool PoolLogic PoolState PoolProofs PoolRuns.

Definition poolΣ : gFunctors :=
  #[invΣ; ghost_mapΣ loc cell; ghost_mapΣ nat (call * jstatus); ghost_mapΣ nat wphase;
    ghost_varΣ (list call); ghost_varΣ nat; GFunctor (authR (gsetUR fact))].
#[export] Instance subG_pool_ghostG Σ : subG poolΣ Σ → pool_ghostG Σ.
Proof. solve_inG. Qed.

(** ** Runs of the model are runs of the language *)

Lemma pool_step_erased i choice c c' : pool_step i choice c = Some c' →
  @erased_step pool_lang (pc_threads c, pc_heap c) (pc_threads c', pc_heap c').
Proof.
  unfold pool_step. destruct (pc_threads c !! i) as [s|] eqn:Hi; [|done]. cbn.
  destruct (step_thread s choice (pc_heap c)) as [| |s' h' ns] eqn:Hs; [done..|]. intros [= <-]. exists [].
  pose proof (take_drop_middle _ _ _ Hi) as Ht.
  apply (@step_atomic pool_lang _ _ _ s (pc_heap c) s' h' (worker <$> ns) (take i (pc_threads c)) (drop (S i) (pc_threads c))).
  - by rw Ht.
  - cbn. f_equal. rw insert_take_drop; [|by eapply lookup_lt_Some]. by rw -app_assoc.
  - split_and!; [done| |left; by eauto]. by destruct s.
Qed.
Lemma pool_reach_erased c0 c : pool_reach c0 c →
  rtc (@erased_step pool_lang) (pc_threads c0, pc_heap c0) (pc_threads c, pc_heap c).
Proof. induction 1 as [|i choice c c' _ IH Hs]; [done|]. eapply rtc_r; [done|]. by eapply pool_step_erased. Qed.

(** A thread that is not stuck does not execute undefined behaviour. *)
Lemma not_stuck_defined s h choice : @not_stuck pool_lang s h → step_thread s choice h ≠ Undefined.
Proof.
  intros [[r Hr]|(κ & s' & h' & efs & _ & _ & [(choice' & ns & Hs & _)|(choice' & Hs & _)])] Hu.
  - by destruct s.
  - destruct s as [t|r]; [|done]. cbn in *. destruct (observe t) as [r|t'|X e k]; [done..|].
    destruct (exec_event e choice h) eqn:He; [|done..]. by rw (exec_undefined _ _ choice' _ He) in Hs.
  - destruct s as [t|r]; [|done]. cbn in *. destruct (observe t) as [r|t'|X e k]; [done..|].
    destruct (exec_event e choice h) eqn:He; [|done..]. by rw (exec_undefined _ _ choice' _ He) in Hs.
Qed.

(** ** Adequacy *)

Section start.
Context `{!poolGS Σ, !pool_ghostG Σ} (plan : list call) (workers : nat).

(** The ghost state at the start. *)
Lemma pool_inv_alloc : L_log ↦ C_log [] ={⊤}=∗ ∃ γ,
  pool_inv γ plan workers ∗ known γ ∅ ∗ accepted γ [] ∗ taken γ 0 ∗ all_unstarted γ 0 workers.
Proof.
  iIntros "Hl". set (ws := gset_to_gmap Unstarted (set_seq 0 workers : gset nat)).
  iMod (ghost_map_alloc_empty (V := call * jstatus)) as (γm) "Hm".
  iMod (ghost_map_alloc ws) as (γw) "[Hw Hws]".
  iMod (ghost_var_alloc ([] : list call)) as (γa) "[Ha Ha']".
  iMod (ghost_var_alloc 0%nat) as (γk) "[Hk Hk']".
  iMod (own_alloc (● (∅ : gset fact) ⋅ ◯ ∅)) as (γf) "[HF HF']"; [by apply auth_both_valid_discrete|].
  iExists (mk_names γm γw γa γk γf). iFrame "Ha' Hk' HF'". iSplitR "Hws".
  - iApply inv_alloc. iNext. iExists ∅, ws, [], 0%nat, [], [], ∅. iFrame. iPureIntro.
    apply pool_ok_start. apply dom_gset_to_gmap.
  - rw big_sepM_gset_to_gmap -list_to_set_seq. rw big_sepS_list_to_set; [done|apply NoDup_seq].
Qed.
End start.

(** What the invariant gives at any time, and with the result of the client. *)
Lemma pool_inv_calls `{!poolGS Σ, !pool_ghostG Σ} γ plan workers h (r : option result) :
  pool_inv γ plan workers -∗ heap_interp h -∗
  match r with Some r => known γ (done_facts (length r)) ∗ accepted γ r | None => True end ={⊤,∅}=∗
  ⌜∃ calls acc, h !! L_log = Some (C_log calls) ∧ acc `sublist_of` plan ∧ calls ⊆+ acc ∧
    ((workers <= 1)%nat → calls `prefix_of` acc) ∧ (∀ r', r = Some r' → acc = r' ∧ calls ≡ₚ r')⌝.
Proof.
  iIntros "#Hinv Hh Hr". iInv "Hinv" as (m ws acc k calls idxs F) ">[(%Hok & Hm & Hw & Ha & Hk & HF & Hl) _]" "_".
  iDestruct (heap_lookup with "Hh Hl") as %Hlog. iApply fupd_mask_intro; [set_solver|]. iIntros "_".
  iExists calls, acc. iSplit; [done|]. iSplit; [by iPureIntro; eapply ok_plan|]. iSplit; [by iPureIntro; eapply calls_accepted|].
  iSplit; [by iPureIntro; eapply calls_in_order|]. destruct r as [r|]; [|by iIntros (? ?)].
  iDestruct "Hr" as "[Hd Ha']". iDestruct (ghost_var_agree with "Ha' Ha") as %->. iDestruct (known_sub with "HF Hd") as %Hd.
  iIntros (? [= <-]). iPureIntro. split; [done|]. by eapply calls_all_done.
Qed.

Lemma pool_adequacy num_threads cmds c :
  is_int num_threads → is_int (Z.of_nat (length (jobs_of cmds))) → pool_reach (start_client num_threads cmds) c →
  (∀ s, s ∈ pc_threads c → @not_stuck pool_lang s (pc_heap c)) ∧
  ∃ calls acc, pc_heap c !! L_log = Some (C_log calls) ∧ acc `sublist_of` jobs_of cmds ∧ calls ⊆+ acc ∧
    ((Z.to_nat num_threads <= 1)%nat → calls `prefix_of` acc) ∧
    (∀ r, pc_threads c !! 0%nat = Some (Finished r) → acc = r ∧ calls ≡ₚ r).
Proof.
  intros Hnum Hjobs Hr. apply pool_reach_erased, erased_steps_nsteps in Hr as (n & κs & Hsteps).
  eapply (wp_strong_adequacy poolΣ pool_lang NotStuck); [|exact Hsteps]. iIntros (Hinv).
  iMod (ghost_map_alloc (delete L_pending start_heap)) as (γh) "[Hh Hls]". set (G := PoolGS poolΣ Hinv _ γh).
  iAssert (L_log ↦ C_log [] ∗ L_keepalive ↦ C_int 0 ∗ L_on_hold ↦ C_int 0 ∗ L_handler ↦ C_int 0)%I with "[Hls]" as "(Hlog & Hk & Hh0 & Hs0)".
  { assert (delete L_pending start_heap =
      {[ L_keepalive := C_int 0; L_on_hold := C_int 0; L_handler := C_int 0; L_log := C_log [] ]}) as -> by by vm_compute.
    rw !big_sepM_insert ?big_sepM_singleton; [|by vm_compute..]. iDestruct "Hls" as "($ & $ & $ & $ & _)". }
  iMod (pool_inv_alloc (jobs_of cmds) (Z.to_nat num_threads) with "Hlog") as (γ) "(#Hpool & #H0 & Ha & Ht & Hws)".
  iModIntro. iExists (λ h _ _ _, heap_interp h), [λ r, (known γ (done_facts (length r)) ∗ accepted γ r)%I], (λ _, True%I), _. iFrame "Hh".
  iSplitL "Hk Hh0 Hs0 Ha Ht Hws".
  { cbn. iSplit; [|done]. iPoseProof (pwp_client with "Hpool H0 Ha Ht Hws Hk Hh0 Hs0") as "Hc"; [done|unfold is_int in *; lia|done..|].
    iApply (@pwp_wp poolΣ G with "Hc"). }
  iIntros (es' t2' Ht Hlen Hns) "Hh Hes _". destruct es' as [|s [|]]; [done| |done]. cbn. iDestruct "Hes" as "[Hs _]".
  iMod (pool_inv_calls _ _ _ _ (finished s) with "Hpool Hh [Hs]") as %(calls & acc & Hc).
  { destruct s as [t|r]; cbn; [done|]. iDestruct "Hs" as "[$ $]". }
  iModIntro. iPureIntro. split; [by auto|]. exists calls, acc. destruct Hc as (? & ? & ? & ? & Hfin). split_and!; [done..|].
  intros r. rw Ht /=. intros [= ->]. by apply Hfin.
Qed.

Lemma pool_adequacy_crash num_threads cmds c :
  is_int num_threads → is_int (Z.of_nat (length (jobs_of cmds))) → pool_reach (start_client num_threads cmds) c → ¬ pool_crashes c.
Proof.
  intros Hnum Hjobs Hr (i & s & choice & Hi & Hs). destruct (pool_adequacy _ _ _ Hnum Hjobs Hr) as [Hns _].
  eapply not_stuck_defined; [|exact Hs]. apply Hns. by eapply list_elem_of_lookup_2.
Qed.

(** C22: in every run of a client that makes a pool, adds jobs, pauses and resumes the
    workers in any order and waits, whatever the interleaving, the time at which a
    worker takes the signal, the failing allocations, the spurious wakeups and the choices of
    the scheduler: no thread executes undefined behaviour (no access to freed or
    unwritten memory, no unlock of a mutex that is not held, no overflow of a
    counter, no signal without a handler); the jobs that were called are among the jobs the pool accepted, each
    at most once; with at most one worker they are called in the order in which they
    were added; and when [thpool_wait] has returned every accepted job was called,
    exactly once. *)
Theorem thpool_executes_once num_threads cmds c :
  is_int num_threads → is_int (Z.of_nat (length (jobs_of cmds))) → pool_reach (start_client num_threads cmds) c →
  ¬ pool_crashes c ∧
  ∃ calls accepted, pc_heap c !! L_log = Some (C_log calls) ∧ accepted `sublist_of` jobs_of cmds ∧ calls ⊆+ accepted ∧
    (num_threads <= 1 → calls `prefix_of` accepted) ∧
    (∀ result, pc_threads c !! 0%nat = Some (Finished result) → accepted = result ∧ calls ≡ₚ result).
Proof.
  intros Hnum Hjobs Hr. split; [exact (pool_adequacy_crash _ _ _ Hnum Hjobs Hr)|].
  destruct (pool_adequacy _ _ _ Hnum Hjobs Hr) as (_ & calls & acc & Hl & Hs & Hc & Ho & Hf).
  exists calls, acc. split_and!; [done..| |done]. intros Hone. apply Ho. lia.
Qed.

Lemma thpool_executes_once_witness :
  let cmds := [Add 1 10; Add 2 20; Pause; Resume; Add 3 30] in
  let c := drive (rounds 3 600) (start_client 2 cmds) in
  let result := [(1, 10); (2, 20); (3, 30)] in
  pool_reach (start_client 2 cmds) c ∧ pc_threads c !! 0%nat = Some (Finished result) ∧
  ¬ pool_crashes c ∧ ∃ calls, pc_heap c !! L_log = Some (C_log calls) ∧ calls ≡ₚ result.
Proof.
  intros cmds c result. assert (pool_reach (start_client 2 cmds) c) as Hr by (apply drive_reach, pool_reach_start).
  assert (pc_threads c !! 0%nat = Some (Finished result)) as Hf by (by vm_compute).
  clearbody c. destruct (thpool_executes_once 2 cmds c) as [Hc (calls & accepted & Hl & _ & _ & _ & Hdone)];
    [unfold is_int; lia|unfold is_int; cbn; lia|exact Hr|].
  split; [exact Hr|]. split; [exact Hf|]. split; [exact Hc|]. exists calls. split; [exact Hl|]. apply (Hdone result Hf).
Defined.
