(* ===== verification/Aco.v ===== *)
(** * Coroutines: src/libaco

    Coroutines that share a stack.  When a coroutine is resumed, the part of the
    shared stack the last one left is copied to its save stack, and its own part is
    copied back.  Memory is a map of blocks; a pointer is a block, named by its
    address, and an offset.  The switch of the registers, [acosw] of acosw.S, is on
    an abstract set of registers. *)

From S2P Require Import Prelude.

(** ** Data *)

(** A [size_t] or [uintptr_t] is 64 bits wide. *)
Definition size_t (z : Z) : Z := z mod 2 ^ 64.

Record pointer := mk_ptr { p_base : Z; p_off : Z }.
#[export] Instance pointer_eq_dec : EqDecision pointer.
Proof. solve_decision. Defined.
#[export] Instance eta_pointer : Eta pointer := fun p => mk_ptr (p_base p) (p_off p).

Definition address (p : pointer) : Z := p_base p + p_off p.
(** A pointer made from an integer, into the block of [p]. *)
Definition of_address (p : pointer) (u : Z) : pointer := mk_ptr (p_base p) (u - p_base p).
Definition shift (p : pointer) (d : Z) : pointer := p⟨p_off := p_off p + d⟩.

Record aco_save_stack_t := mk_save_stack {
  sv_ptr : option Z;
  sv_sz : Z;
  valid_sz : Z;
  max_cpsz : Z;
  ct_save : Z;
  ct_restore : Z
}.
#[export] Instance eta_save_stack : Eta aco_save_stack_t := fun r =>
  mk_save_stack (sv_ptr r) (sv_sz r) (valid_sz r) (max_cpsz r) (ct_save r) (ct_restore r).

Record aco_share_stack_t := mk_share_stack {
  sh_ptr : pointer;
  sh_sz : Z;
  align_highptr : pointer;
  align_retptr : pointer;
  align_validsz : Z;
  align_limit : Z;
  owner : option Z;
  guard_page_enabled : Z;
  real_ptr : option Z;
  real_sz : Z
}.
#[export] Instance eta_share_stack : Eta aco_share_stack_t := fun r =>
  mk_share_stack (sh_ptr r) (sh_sz r) (align_highptr r) (align_retptr r) (align_validsz r) (align_limit r)
    (owner r) (guard_page_enabled r) (real_ptr r) (real_sz r).

(** The registers [acosw] saves, in the order of [reg]. *)
Record registers := mk_regs {
  r12 : Z; r13 : Z; r14 : Z; r15 : Z;
  retaddr : Z; sp : pointer; rbx : Z; bp : Z; fpu : Z
}.
#[export] Instance eta_registers : Eta registers := fun r =>
  mk_regs (r12 r) (r13 r) (r14 r) (r15 r) (retaddr r) (sp r) (rbx r) (bp r) (fpu r).

Definition NULL : pointer := mk_ptr 0 0.
Definition zero_regs : registers := mk_regs 0 0 0 0 0 NULL 0 0 0.

Record aco_t := mk_aco {
  reg : registers;
  main_co : option Z;
  arg : Z;
  is_end : Z;
  fp : Z;
  save_stack : aco_save_stack_t;
  share_stack : option Z
}.
#[export] Instance eta_aco : Eta aco_t := fun r =>
  mk_aco (reg r) (main_co r) (arg r) (is_end r) (fp r) (save_stack r) (share_stack r).

(** The blocks of memory, how many bytes at the start of a block are read-only, the
    two kinds of objects, the thread-local variables and the processor. *)
Record aco_state := mk_aco_state {
  blocks : gmap Z (list Z);
  guards : gmap Z Z;
  stks : gmap Z aco_share_stack_t;
  cos : gmap Z aco_t;
  aco_gtls_co : option Z;
  aco_gtls_last_word_fp : Z;
  aco_gtls_fpucw_mxcsr : Z;
  cpu : registers
}.
#[export] Instance eta_aco_state : Eta aco_state := fun s =>
  mk_aco_state (blocks s) (guards s) (stks s) (cos s) (aco_gtls_co s) (aco_gtls_last_word_fp s)
    (aco_gtls_fpucw_mxcsr s) (cpu s).

(** What the code does not determine: where memory is allocated, or that it is not;
    its content; the size of a page; whether [mprotect] succeeds; the addresses of
    [aco_funcp_protector_asm] and [aco_default_protector_last_word], and the control
    words of the floating-point unit. *)
Class AcoEnv := {
  alloc : aco_state → Z → option Z;
  map_pages : aco_state → Z → option Z;
  junk_byte : Z → Z → Z;
  page_size : Z;
  mprotect_ok : aco_state → bool;
  protector_asm : Z;
  default_last_word : Z;
  fpucw_mxcsr : Z
}.

(** ** The monad

    A function returns, aborts, executes undefined behaviour, or runs out of fuel. *)
Inductive outcome (A : Type) :=
  | Done (a : A) (s : aco_state)
  | Aborted
  | Undefined
  | Out_of_fuel.
Arguments Done {A} _ _.
Arguments Aborted {A}.
Arguments Undefined {A}.
Arguments Out_of_fuel {A}.

Definition A (X : Type) : Type := aco_state → outcome X.
#[export] Instance aco_mret : MRet A := fun X x s => Done x s.
#[export] Instance aco_mbind : MBind A := fun X Y f m s =>
  match m s with
  | Done x s => f x s
  | Aborted => Aborted
  | Undefined => Undefined
  | Out_of_fuel => Out_of_fuel
  end.

Definition aborts {X} : A X := fun _ => Aborted.
Definition undefined {X} : A X := fun _ => Undefined.
Definition gets {X} (f : aco_state → X) : A X := fun s => Done (f s) s.
Definition modify (f : aco_state → aco_state) : A unit := fun s => Done tt (f s).
Definition of_option {X} (o : option X) : A X := match o with Some x => mret x | None => undefined end.

Definition aco_assert (b : bool) : A unit := if b then mret tt else aborts.
(** [assertptr] and [assertalloc_ptr], and the pointer. *)
Definition assertptr {X} (p : option X) : A X := match p with Some x => mret x | None => aborts end.

Definition get_co (co : Z) : A aco_t := fun s => of_option (cos s !! co) s.
Definition set_co (co : Z) (f : aco_t → aco_t) : A unit := fun s =>
  match cos s !! co with
  | Some c => Done tt (s⟨cos := <[co := f c]> (cos s)⟩)
  | None => Undefined
  end.
Definition get_stack (k : Z) : A aco_share_stack_t := fun s => of_option (stks s !! k) s.
Definition set_stack (k : Z) (f : aco_share_stack_t → aco_share_stack_t) : A unit := fun s =>
  match stks s !! k with
  | Some x => Done tt (s⟨stks := <[k := f x]> (stks s)⟩)
  | None => Undefined
  end.

(** *** Memory *)

Definition load (p : pointer) (n : Z) : A (list Z) := fun s =>
  of_option (b ← blocks s !! p_base p; mem_read b (p_off p) n) s.
Definition store (p : pointer) (bs : list Z) : A unit := fun s =>
  if p_off p <? default 0 (guards s !! p_base p) then Undefined
  else
    match (b ← blocks s !! p_base p; mem_write b (p_off p) bs) with
    | Some b => Done tt (s⟨blocks := <[p_base p := b]> (blocks s)⟩)
    | None => Undefined
    end.

(** [memcpy]: the regions must not overlap. *)
Definition overlap (p q : pointer) (n : Z) : bool :=
  (p_base p =? p_base q) && (p_off p <? p_off q + n) && (p_off q <? p_off p + n).
Definition memcpy (dst src : pointer) (n : Z) : A unit :=
  if overlap dst src n then undefined else bs ← load src n; store dst bs.

Section libaco.
Context `{E : AcoEnv}.

Definition junk_block (b n : Z) : list Z := junk_byte b <$> seqZ 0 n.

Definition malloc (n : Z) : A (option Z) := fun s =>
  match alloc s n with
  | None => Done None s
  | Some b => Done (Some b) (s⟨blocks := <[b := junk_block b n]> (blocks s)⟩)
  end.
Definition free (p : option Z) : A unit := fun s =>
  match p with
  | None => Done tt s
  | Some b => if decide (is_Some (blocks s !! b)) then Done tt (s⟨blocks := delete b (blocks s)⟩) else Undefined
  end.
(** [malloc(sizeof(...))] of an object that has a map of its own. *)
Definition malloc_object (n : Z) : A (option Z) := gets (fun s => alloc s n).
Definition mmap (n : Z) : A (option Z) := fun s =>
  match map_pages s n with
  | None => Done None s
  | Some b => Done (Some b) (s⟨blocks := <[b := replicate (Z.to_nat n) 0]> (blocks s)⟩)
  end.
Definition mprotect (b n : Z) : A bool := fun s =>
  if mprotect_ok s then Done true (s⟨guards := <[b := n]> (guards s)⟩) else Done false s.
(** A mapping is unmapped as a whole. *)
Definition munmap (b n : Z) : A unit := fun s =>
  if decide (blen <$> blocks s !! b = Some n)
  then Done tt (s⟨blocks := delete b (blocks s)⟩⟨guards := delete b (guards s)⟩) else Undefined.

(** ** Copying *)

Definition aco_amd64_inline_short_aligned_memcpy_test_ok (dst src : pointer) (sz : Z) : bool :=
  (Z.land (address src) 0x0f =? 0) && (Z.land (address dst) 0x0f =? 0)
  && ((Z.land sz 0x0f =? 0x08) && (0 <=? Z.shiftr sz 4) && (Z.shiftr sz 4 <=? 8)).

(** The words that go through the registers [xmm0] to [xmm7]. *)
Definition load_words (src : pointer) (n : Z) : A (list (list Z)) :=
  foldr (fun i rest => w ← load (shift src (16 * i)) 16; ws ← rest; mret (w :: ws)) (mret []) (seqZ 0 n).
Fixpoint store_words (dst : pointer) (ws : list (list Z)) : A unit :=
  match ws with
  | [] => mret tt
  | w :: ws => store dst w;; store_words (shift dst 16) ws
  end.

Definition aco_amd64_inline_short_aligned_memcpy (dst src : pointer) (sz : Z) : A unit :=
  let n := Z.shiftr sz 4 in
  (if n <=? 8 then ws ← load_words src n; store_words dst ws else mret tt);;
  w ← load (shift src (sz - 8)) 8;
  store (shift dst (sz - 8)) w.

Definition aco_amd64_optimized_memcpy_drop_in (dst src : pointer) (sz : Z) : A unit :=
  if aco_amd64_inline_short_aligned_memcpy_test_ok dst src sz
  then aco_amd64_inline_short_aligned_memcpy dst src sz
  else memcpy dst src sz.

(** ** Threads and stacks *)

Definition aco_thread_init (last_word_co_fp : Z) : A unit :=
  modify (fun s => s⟨aco_gtls_fpucw_mxcsr := fpucw_mxcsr⟩);;
  if negb (last_word_co_fp =? 0)
  then modify (fun s => s⟨aco_gtls_last_word_fp := last_word_co_fp⟩) else mret tt.

(** A coroutine whose function returns ends here.  [call] is the call of a function
    by its address; the default handler only prints. *)
Definition aco_default_protector_last_word : A unit := aborts.
Definition aco_funcp_protector (call : Z → A unit) : A unit :=
  f ← gets aco_gtls_last_word_fp;
  (if negb (f =? 0) then call f else aco_default_protector_last_word);;
  aborts.

Definition aco_size_t_safe_add_assert (a b : Z) : A unit := aco_assert (a <=? size_t (a + b)).

Definition sizeof_share_stack : Z := 80.
Definition sizeof_aco : Z := 160.

(** The size with the guard page, a multiple of the size of a page. *)
Definition guarded_size (sz : Z) : A (Z * Z) :=
  let pgsz := page_size in
  aco_assert ((0 <? pgsz) && (Z.land (pgsz - 1) pgsz =? 0));;
  let u_pgsz := size_t pgsz in
  aco_assert ((u_pgsz =? pgsz) && (Z.shiftr (size_t (Z.shiftl u_pgsz 1)) 1 =? u_pgsz));;
  if sz <=? u_pgsz then mret (size_t (Z.shiftl u_pgsz 1), u_pgsz)
  else
    new_sz ←
      (if negb (Z.land sz (u_pgsz - 1) =? 0) then
         let new_sz := Z.land sz (size_t (Z.lnot (u_pgsz - 1))) in
         aco_assert (u_pgsz <=? new_sz);;
         aco_size_t_safe_add_assert new_sz (size_t (Z.shiftl u_pgsz 1));;
         let new_sz := size_t (new_sz + size_t (Z.shiftl u_pgsz 1)) in
         aco_assert (size_t (sz / u_pgsz + 2) =? new_sz / u_pgsz);;
         mret new_sz
       else
         aco_size_t_safe_add_assert sz u_pgsz;;
         let new_sz := size_t (sz + u_pgsz) in
         aco_assert (size_t (sz / u_pgsz + 1) =? new_sz / u_pgsz);;
         mret new_sz);
    aco_assert ((1 <? new_sz / u_pgsz) && (Z.land new_sz (u_pgsz - 1) =? 0));;
    mret (new_sz, u_pgsz).

(** The memory of the stack: [ptr], [sz], [guard_page_enabled], [real_ptr], [real_sz]. *)
Definition stack_memory (sz u_pgsz guard : Z) : A (pointer * Z * Z * option Z * Z) :=
  if negb (guard =? 0) then
    b ← mmap sz;
    b ← assertptr b;
    ok ← mprotect b u_pgsz;
    aco_assert ok;;
    aco_assert (size_t (Z.shiftl u_pgsz 1) <=? sz);;
    mret (mk_ptr b u_pgsz, size_t (sz - u_pgsz), 1, Some b, sz)
  else
    b ← malloc sz;
    b ← assertptr b;
    mret (mk_ptr b 0, sz, 0, None, 0).

Definition aco_share_stack_new2 (sz guard : Z) : A Z :=
  let sz := if sz =? 0 then 1024 * 1024 * 2 else sz in
  let sz := if sz <? 4096 then 4096 else sz in
  aco_assert (0 <? sz);;
  szs ← (if negb (guard =? 0) then guarded_size sz else mret (sz, 0));
  p ← malloc_object sizeof_share_stack;
  p ← assertptr p;
  m ← stack_memory (fst szs) (snd szs) guard;
  let '(ptr, sz, enabled, real, rsz) := m in
  let u_p := size_t (size_t (sz - 16) + address ptr) in
  let u_p := size_t (Z.shiftl (Z.shiftr u_p 4) 4) in
  let highptr := of_address ptr u_p in
  let retptr := of_address ptr (size_t (u_p - 8)) in
  store retptr (le_bytes 8 protector_asm);;
  aco_assert (16 + 16 + 8 <? sz);;
  modify (fun s => s⟨stks := <[p := mk_share_stack ptr sz highptr retptr 0 (size_t (sz - 16 - 16))
    None enabled real rsz]> (stks s)⟩);;
  mret p.

Definition aco_share_stack_new (sz : Z) : A Z := aco_share_stack_new2 sz 1.

Definition aco_share_stack_destroy (sstk : Z) : A unit :=
  x ← get_stack sstk;
  (if negb (guard_page_enabled x =? 0)
   then b ← of_option (real_ptr x); munmap b (real_sz x)
   else free (Some (p_base (sh_ptr x))));;
  modify (fun s => s⟨stks := delete sstk (stks s)⟩).

(** ** Coroutines *)

Definition aco_create (main : option Z) (stk : option Z) (save_stack_sz fn a : Z) : A Z :=
  p ← malloc_object sizeof_aco;
  p ← assertptr p;
  match main with
  | Some m =>
      k ← assertptr stk;
      x ← get_stack k;
      mxcsr ← gets aco_gtls_fpucw_mxcsr;
      let save_stack_sz := if save_stack_sz =? 0 then 64 else save_stack_sz in
      b ← malloc save_stack_sz;
      b ← assertptr b;
      modify (fun s => s⟨cos := <[p := mk_aco (zero_regs⟨retaddr := fn⟩⟨sp := align_retptr x⟩⟨fpu := mxcsr⟩)
        (Some m) a 0 fn (mk_save_stack (Some b) save_stack_sz 0 0 0 0) (Some k)]> (cos s)⟩);;
      mret p
  | None =>
      modify (fun s => s⟨cos := <[p := mk_aco zero_regs None a 0 fn (mk_save_stack None 0 0 0 0 0) None]> (cos s)⟩);;
      mret p
  end.

(** acosw.S: at the call, [retaddr] of the processor is the return address of the
    call and [sp] the stack pointer behind it. *)
Definition acosw (from_co to_co : Z) : A unit :=
  r ← gets cpu;
  set_co from_co (fun c => c⟨reg := r⟩);;
  c ← get_co to_co;
  modify (fun s => s⟨cpu := reg c⟩).

(** [while(1)]: the size is doubled until it is enough. *)
Fixpoint double_until (fuel : nat) (sz valid : Z) : A Z :=
  match fuel with
  | O => fun _ => Out_of_fuel
  | S fuel =>
      let sz := size_t (Z.shiftl sz 1) in
      aco_assert (0 <? sz);;
      if valid <=? sz then mret sz else double_until fuel sz valid
  end.
Definition double_fuel : nat := 65.

(** A save stack that is too small is replaced. *)
Definition grow_save_stack (owner_co valid : Z) : A unit :=
  o ← get_co owner_co;
  if sv_sz (save_stack o) <? valid then
    free (sv_ptr (save_stack o));;
    set_co owner_co (fun o => o⟨save_stack := (save_stack o)⟨sv_ptr := None⟩⟩);;
    sz ← double_until double_fuel (sv_sz (save_stack o)) valid;
    set_co owner_co (fun o => o⟨save_stack := (save_stack o)⟨sv_sz := sz⟩⟩);;
    b ← malloc sz;
    b ← assertptr b;
    set_co owner_co (fun o => o⟨save_stack := (save_stack o)⟨sv_ptr := Some b⟩⟩)
  else mret tt.

(** The owner of the stack has its part of it copied to its save stack. *)
Definition save_owner (resume_stack owner_co : Z) : A unit :=
  o ← get_co owner_co;
  k ← of_option (share_stack o);
  aco_assert (k =? resume_stack);;
  x ← get_stack k;
  let rsp := sp (reg o) in
  aco_assert ((address rsp <=? address (align_retptr x))
    && (size_t (address (align_highptr x) - align_limit x) <=? address rsp));;
  let valid := size_t (address (align_retptr x) - address rsp) in
  set_co owner_co (fun o => o⟨save_stack := (save_stack o)⟨valid_sz := valid⟩⟩);;
  grow_save_stack owner_co valid;;
  (if 0 <? valid then
     o ← get_co owner_co;
     b ← of_option (sv_ptr (save_stack o));
     aco_amd64_optimized_memcpy_drop_in (mk_ptr b 0) rsp valid;;
     set_co owner_co (fun o => o⟨save_stack := (save_stack o)⟨ct_save := size_t (ct_save (save_stack o) + 1)⟩⟩)
   else mret tt);;
  set_co owner_co (fun o => o⟨save_stack := (save_stack o)⟨max_cpsz := Z.max (max_cpsz (save_stack o)) valid⟩⟩);;
  set_stack k (fun x => x⟨owner := None⟩⟨align_validsz := 0⟩).

(** The part of the stack of the coroutine that is resumed is copied back. *)
Definition restore_stack (k resume_co : Z) : A unit :=
  c ← get_co resume_co;
  x ← get_stack k;
  let valid := valid_sz (save_stack c) in
  aco_assert (valid <=? size_t (align_limit x - 8));;
  (if 0 <? valid then
     b ← of_option (sv_ptr (save_stack c));
     aco_amd64_optimized_memcpy_drop_in (shift (align_retptr x) (- valid)) (mk_ptr b 0) valid;;
     set_co resume_co (fun c => c⟨save_stack := (save_stack c)⟨ct_restore := size_t (ct_restore (save_stack c) + 1)⟩⟩)
   else mret tt);;
  set_co resume_co (fun c => c⟨save_stack := (save_stack c)⟨max_cpsz := Z.max (max_cpsz (save_stack c)) valid⟩⟩);;
  set_stack k (fun x => x⟨align_validsz := size_t (valid + 8)⟩⟨owner := Some resume_co⟩).

(** [aco_resume] up to the switch, and what it does when the coroutine yields. *)
Definition aco_resume (resume_co : Z) : A unit :=
  c ← get_co resume_co;
  aco_assert (bool_decide (main_co c ≠ None) && (is_end c =? 0));;
  main ← of_option (main_co c);
  k ← of_option (share_stack c);
  x ← get_stack k;
  (if bool_decide (owner x ≠ Some resume_co) then
     (match owner x with Some owner_co => save_owner k owner_co | None => mret tt end);;
     x ← get_stack k;
     aco_assert (bool_decide (owner x = None));;
     restore_stack k resume_co
   else mret tt);;
  modify (fun s => s⟨aco_gtls_co := Some resume_co⟩);;
  acosw main resume_co.
Definition aco_resume_return (resume_co : Z) : A unit :=
  c ← get_co resume_co;
  modify (fun s => s⟨aco_gtls_co := main_co c⟩).

Definition aco_yield1 (yield_co : Z) : A unit :=
  c ← get_co yield_co;
  main ← assertptr (main_co c);
  acosw yield_co main.
Definition aco_exit1 (co : Z) : A unit :=
  set_co co (fun c => c⟨is_end := 1⟩);;
  c ← get_co co;
  k ← of_option (share_stack c);
  x ← get_stack k;
  aco_assert (bool_decide (owner x = Some co));;
  set_stack k (fun x => x⟨owner := None⟩⟨align_validsz := 0⟩);;
  aco_yield1 co.

Definition aco_destroy (co : Z) : A unit :=
  c ← get_co co;
  match main_co c with
  | None => modify (fun s => s⟨cos := delete co (cos s)⟩)
  | Some _ =>
      k ← of_option (share_stack c);
      x ← get_stack k;
      (if bool_decide (owner x = Some co)
       then set_stack k (fun x => x⟨owner := None⟩⟨align_validsz := 0⟩) else mret tt);;
      free (sv_ptr (save_stack c));;
      modify (fun s => s⟨cos := delete co (cos s)⟩)
  end.

(** ** The program

    A program makes the calls in any order.  [Act_run] is what the code of the
    program does between two calls: it changes the registers, and a coroutine the
    bytes of its stack, where it leaves its stack pointer. *)
Inductive act :=
  | Act_stack (sz guard : Z)
  | Act_stack_destroy (k : Z)
  | Act_create (main stk save_sz fn a : Z)
  | Act_resume (co : Z)
  | Act_run (r : registers) (bs : list Z)
  | Act_yield
  | Act_exit
  | Act_destroy (co : Z).

(** The coroutine that runs; none when the main one does. *)
Definition current (s : aco_state) : option Z :=
  co ← aco_gtls_co s; c ← cos s !! co; if decide (main_co c = None) then None else Some co.

(** The stack pointer is on the usable part of the stack. *)
Definition sp_ok (x : aco_share_stack_t) (p : pointer) : bool :=
  (p_base p =? p_base (align_retptr x)) && (address p <=? address (align_retptr x))
  && (address (align_highptr x) - align_limit x <=? address p).

Definition run_code (r : registers) (bs : list Z) (s : aco_state) : option aco_state :=
  match current s with
  | None => Some (s⟨cpu := r⟩)
  | Some co =>
      c ← cos s !! co; k ← share_stack c; x ← stks s !! k;
      let b := p_base (sh_ptr x) in
      old ← blocks s !! b;
      if sp_ok x (sp r) && (blen bs =? blen old)
         && bool_decide (take (Z.to_nat (p_off (sh_ptr x))) bs = take (Z.to_nat (p_off (sh_ptr x))) old)
      then Some (s⟨cpu := r⟩⟨blocks := <[b := bs]> (blocks s)⟩)
      else None
  end.

(** [None]: the program does not make this call here.  Only the main coroutine
    resumes and destroys, and only a coroutine yields. *)
Definition exec_act (a : act) (s : aco_state) : option (outcome unit) :=
  match a with
  | Act_stack sz guard =>
      if (0 <=? sz) && (sz <? 2 ^ 64) then Some ((aco_share_stack_new2 sz guard;; mret tt) s) else None
  | Act_stack_destroy k =>
      if bool_decide (is_Some (stks s !! k)) && bool_decide (map_Forall (fun _ c => share_stack c ≠ Some k) (cos s))
      then Some (aco_share_stack_destroy k s) else None
  | Act_create main stk save_sz fn a =>
      m ← cos s !! main;
      if bool_decide (main_co m = None) && bool_decide (is_Some (stks s !! stk)) && (0 <=? save_sz) && (save_sz <? 2 ^ 64)
      then Some ((aco_create (Some main) (Some stk) save_sz fn a;; mret tt) s) else None
  | Act_resume co =>
      if bool_decide (current s = None) && bool_decide (is_Some (cos s !! co)) then Some (aco_resume co s) else None
  | Act_run r bs => s' ← run_code r bs s; Some (Done tt s')
  | Act_yield => co ← current s; Some ((aco_yield1 co;; aco_resume_return co) s)
  | Act_exit => co ← current s; Some ((aco_exit1 co;; aco_resume_return co) s)
  | Act_destroy co =>
      c ← cos s !! co;
      if bool_decide (current s = None) && bool_decide (main_co c ≠ None) then Some (aco_destroy co s) else None
  end.

(** The start of a thread: [aco_thread_init] and the main coroutine. *)
Definition thread_start (r : registers) : aco_state := mk_aco_state ∅ ∅ ∅ ∅ None default_last_word 0 r.
Definition start_main (last_word : Z) : A unit := aco_thread_init last_word;; aco_create None None 0 0 0;; mret tt.

Inductive areach : aco_state → Prop :=
  | areach_start r last_word s : start_main last_word (thread_start r) = Done tt s → areach s
  | areach_step a s s' : areach s → exec_act a s = Some (Done tt s') → areach s'.

(** A sequence of calls, each of which returns. *)
Fixpoint run_acts (l : list act) (s : aco_state) : option aco_state :=
  match l with
  | [] => Some s
  | a :: l => match exec_act a s with Some (Done _ s') => run_acts l s' | _ => None end
  end.

End libaco.
