(* ===== verification/AcoProofs.v ===== *)
(** * What the functions of src/libaco do

    The copying macro is [memcpy]; the layout of a new stack; saving and restoring
    the part of a stack that belongs to a coroutine. *)

From S2P Require Import Prelude Aco.

(** ** Loads and stores *)

#[global] Arguments load : simpl never.
#[global] Arguments store : simpl never.

Lemma split_block {A} (l : list A) off n :
  0 <= off → 0 <= n → off + n <= blen l →
  ∃ p m r, l = p ++ m ++ r ∧ blen p = off ∧ blen m = n.
Proof.
  intros H0 Hn Hl. unfold blen in *.
  exists (take (Z.to_nat off) l), (take (Z.to_nat n) (drop (Z.to_nat off) l)), (drop (Z.to_nat n) (drop (Z.to_nat off) l)).
  rewrite !take_drop, !length_take, length_drop. split_and!; [done|lia|lia].
Qed.

Lemma mem_read_split {A} (l : list A) off m n :
  0 <= m → 0 <= n →
  mem_read l off (m + n) = (a ← mem_read l off m; b ← mem_read l (off + m) n; Some (a ++ b)).
Proof.
  intros Hm Hn. destruct (decide (0 <= off ∧ off + (m + n) <= blen l)) as [[H0 Hl]|Hno].
  - destruct (split_block l off (m + n)) as (p & ab & r & -> & Hp & Hab); [lia..|].
    destruct (split_block ab 0 m) as (p0 & a & b & -> & Hp0 & Ha); [lia..|].
    apply blen_zero in Hp0 as ->. rewrite blen_app, blen_app in Hab. change (blen (@nil A)) with 0 in Hab. cbn [app] in *.
    rewrite (mem_read_app p (a ++ b) r) by (rewrite ?blen_app; lia).
    rewrite <- (app_assoc a b r). rewrite (mem_read_app p a (b ++ r) off m) by done. cbn.
    rewrite (app_assoc p a (b ++ r)), (mem_read_app (p ++ a) b r) by (rewrite ?blen_app; lia). done.
  - destruct (mem_read l off (m + n)) as [bs|] eqn:E; [apply mem_read_Some in E; lia|].
    destruct (mem_read l off m) as [a|] eqn:Ea; [|done]. cbn.
    destruct (mem_read l (off + m) n) as [b|] eqn:Eb; [|done].
    apply mem_read_Some in Ea. apply mem_read_Some in Eb. lia.
Qed.

Lemma mem_write_split {A} (l : list A) off (a b : list A) :
  mem_write l off (a ++ b) = (l' ← mem_write l off a; mem_write l' (off + blen a) b).
Proof.
  pose proof (blen_nonneg a) as Hna. pose proof (blen_nonneg b) as Hnb.
  destruct (decide (0 <= off ∧ off + (blen a + blen b) <= blen l)) as [[H0 Hl]|Hno].
  - destruct (split_block l off (blen a + blen b)) as (p & ab & r & -> & Hp & Hab); [lia..|].
    destruct (split_block ab 0 (blen a)) as (p0 & a' & b' & -> & Hp0 & Ha); [lia..|].
    apply blen_zero in Hp0 as ->. rewrite blen_app, blen_app in Hab. change (blen (@nil A)) with 0 in Hab. cbn [app] in *.
    rewrite (mem_write_app p (a' ++ b') r (a ++ b)) by (rewrite ?blen_app; lia).
    rewrite <- (app_assoc a' b' r), (mem_write_app p a' (b' ++ r) a off) by done. cbn [mbind option_bind].
    rewrite (app_assoc p a (b' ++ r)), (mem_write_app (p ++ a) b' r b) by (rewrite ?blen_app; lia).
    by rewrite <- !app_assoc.
  - destruct (mem_write l off (a ++ b)) as [l'|] eqn:E.
    { apply mem_write_Some in E. rewrite blen_app in E. lia. }
    destruct (mem_write l off a) as [l'|] eqn:Ea; [|done]. cbn.
    destruct (mem_write l' (off + blen a) b) as [l2|] eqn:Eb; [|done].
    apply mem_write_length in Ea as Hl'. apply mem_write_Some in Ea. apply mem_write_Some in Eb. lia.
Qed.

Lemma mem_write_read {A} (l : list A) off bs l' :
  mem_write l off bs = Some l' → mem_read l' off (blen bs) = Some bs.
Proof.
  intros H. apply mem_write_Some in H as (H0 & Hl & ->). apply mem_read_app; [|done].
  unfold blen in *. rewrite length_take. lia.
Qed.

Lemma aco_bind_assoc {X Y W} (m : Aco.A X) (f : X → Aco.A Y) (g : Y → Aco.A W) s :
  ((m ≫= f) ≫= g) s = (m ≫= fun x => f x ≫= g) s.
Proof. unfold mbind, aco_mbind. by destruct (m s). Qed.
Lemma aco_bind_ext {X Y} (m : Aco.A X) (f g : X → Aco.A Y) s :
  (∀ x s', f x s' = g x s') → (m ≫= f) s = (m ≫= g) s.
Proof. intros H. unfold mbind, aco_mbind. by destruct (m s). Qed.

Lemma aco_bind_done {X Y} (m : Aco.A X) (f : X → Aco.A Y) s x s' : m s = Done x s' → (m ≫= f) s = f x s'.
Proof. unfold mbind, aco_mbind. by intros ->. Qed.
Lemma aco_bind_aborted {X Y} (m : Aco.A X) (f : X → Aco.A Y) s : m s = Aborted → (m ≫= f) s = Aborted.
Proof. unfold mbind, aco_mbind. by intros ->. Qed.
Lemma assert_true {Y} b (f : unit → Aco.A Y) s : b = true → (aco_assert b ≫= f) s = f tt s.
Proof. by intros ->. Qed.

Lemma load_add p m n s : 0 <= m → 0 <= n →
  load p (m + n) s = (a ← load p m; b ← load (shift p m) n; mret (a ++ b)) s.
Proof.
  intros Hm Hn. unfold load, mbind at 2 3, aco_mbind. cbn. destruct (blocks s !! p_base p) as [l|] eqn:E; [|done].
  cbn. rewrite (mem_read_split l _ m n) by done. destruct (mem_read l (p_off p) m) as [a|]; [|done]. cbn.
  rewrite E. cbn. by destruct (mem_read l (p_off p + m) n).
Qed.

Lemma store_app p a b s : store p (a ++ b) s = (store p a;; store (shift p (blen a)) b) s.
Proof.
  pose proof (blen_nonneg a). unfold store, mbind at 2, aco_mbind. cbn.
  destruct (Z.ltb_spec (p_off p) (default 0 (guards s !! p_base p))); [done|].
  destruct (blocks s !! p_base p) as [l|] eqn:E; [|done]. cbn. rewrite mem_write_split.
  destruct (mem_write l (p_off p) a) as [l'|] eqn:Ea; [|done]. cbn. rewrite lookup_insert_eq. cbn.
  rewrite (proj2 (Z.ltb_ge _ _)) by lia. destruct (mem_write l' (p_off p + blen a) b) as [l2|]; [|done].
  do 2 f_equal. by rewrite insert_insert_eq.
Qed.

(** ** The copying macro *)

Lemma shift_shift p a b : shift (shift p a) b = shift p (a + b).
Proof. unfold shift. cbn. f_equal. lia. Qed.
Lemma shift_0 p : shift p 0 = p.
Proof. destruct p. unfold shift. cbn. f_equal. lia. Qed.

Lemma load_pure p n s x s' : load p n s = Done x s' → s' = s ∧ blen x = n.
Proof.
  unfold load. destruct (b ← _; mem_read b _ _) as [bs|] eqn:E; [|done]. cbn. intros [= <- <-]. split; [done|].
  destruct (blocks s !! p_base p) as [l|]; [|done]. by eapply mem_read_length.
Qed.


Lemma load_cases p n s : (∃ bs, load p n s = Done bs s) ∨ load p n s = Undefined.
Proof. unfold load. destruct (b ← _; mem_read b _ _); [left; by eexists|by right]. Qed.

Lemma store_cases p bs s : (∃ s', store p bs s = Done tt s') ∨ store p bs s = Undefined.
Proof.
  unfold store. destruct (_ <? _); [by right|]. destruct (blocks s !! p_base p) as [b|]; cbn; [|by right].
  destruct (mem_write b (p_off p) bs); [left; by eexists|by right].
Qed.

(** A load depends on its block only. *)
Lemma load_frame p n s s' :
  blocks s' !! p_base p = blocks s !! p_base p →
  load p n s' = match load p n s with Done x _ => Done x s' | o => o end.
Proof. intros H. unfold load. rewrite H. by destruct (b ← _; mem_read b _ _). Qed.

Lemma store_frame p bs s s' b :
  store p bs s = Done tt s' → b ≠ p_base p → blocks s' !! b = blocks s !! b.
Proof.
  unfold store. destruct (_ <? _); [done|]. destruct (b ← _; mem_write b _ _) as [l|]; [|done].
  intros [= <-] Hb. cbn. by rewrite lookup_insert_ne.
Qed.

(** The words from [src + 16 i] on. *)
Definition words_from (src : pointer) (i n : Z) : Aco.A (list (list Z)) :=
  foldr (fun i rest => w ← load (shift src (16 * i)) 16; ws ← rest; mret (w :: ws)) (mret []) (seqZ i n).

Lemma words_from_S src i (n : nat) :
  words_from src i (Z.of_nat (S n)) =
  (w ← load (shift src (16 * i)) 16; ws ← words_from src (i + 1) (Z.of_nat n); mret (w :: ws)).
Proof. unfold words_from. rewrite seqZ_cons by lia. cbn. by replace (Z.pred (Z.of_nat (S n))) with (Z.of_nat n) by lia. Qed.

(** The words and the last eight bytes are the whole region. *)
Lemma words_from_spec src (n : nat) i s :
  match words_from src i (Z.of_nat n) s with
  | Done ws s' => s' = s ∧ length ws = n ∧ Forall (fun w => blen w = 16) ws ∧
      load (shift src (16 * i)) (16 * Z.of_nat n + 8) s =
      match load (shift src (16 * (i + Z.of_nat n))) 8 s with Done w _ => Done (concat ws ++ w) s | o => o end
  | Undefined => load (shift src (16 * i)) (16 * Z.of_nat n + 8) s = Undefined
  | _ => False
  end.
Proof.
  revert i. induction n as [|n IH]; intros i.
  - cbn. split_and!; [done|done|done|]. rewrite Z.add_0_r. change (16 * Z.of_nat 0 + 8) with 8.
    by destruct (load_cases (shift src (16 * i)) 8 s) as [[bs Hb]|Hb]; rewrite Hb.
  - rewrite words_from_S. replace (16 * Z.of_nat (S n) + 8) with (16 + (16 * Z.of_nat n + 8)) by lia.
    rewrite load_add by lia. unfold mbind, aco_mbind. rewrite shift_shift.
    replace (16 * i + 16) with (16 * (i + 1)) by lia. specialize (IH (i + 1)).
    destruct (load_cases (shift src (16 * i)) 16 s) as [[w Hw]| Hw]; rewrite Hw; [|done]. cbn.
    destruct (words_from src (i + 1) (Z.of_nat n) s) as [ws s'| | |]; [|done|by rewrite IH|done].
    destruct IH as (-> & Hl & Hf & IH). rewrite IH. split_and!; [done|cbn; lia| |].
    + constructor; [|done]. by apply load_pure in Hw as [_ ?].
    + replace (i + 1 + Z.of_nat n) with (i + Z.of_nat (S n)) by lia.
      destruct (load_cases (shift src (16 * (i + Z.of_nat (S n)))) 8 s) as [[w' ->]| ->]; [|done].
      cbn. by rewrite <- app_assoc.
Qed.

Lemma store_words_spec ws dst w s :
  Forall (fun w => blen w = 16) ws →
  (store_words dst ws;; store (shift dst (16 * blen ws)) w) s = store dst (concat ws ++ w) s.
Proof.
  intros Hf. revert dst s. induction Hf as [|w0 ws Hw _ IH]; intros dst s.
  - cbn. unfold mbind, aco_mbind. cbn. by rewrite shift_0.
  - cbn [store_words concat]. rewrite <- app_assoc, store_app, Hw. rewrite aco_bind_assoc.
    apply aco_bind_ext. intros _ s'. rewrite <- IH, shift_shift, blen_cons. by replace (16 + 16 * blen ws) with (16 * (1 + blen ws)) by lia.
Qed.

Lemma store_words_frame ws dst s s' b :
  store_words dst ws s = Done tt s' → b ≠ p_base dst → blocks s' !! b = blocks s !! b.
Proof.
  revert dst s. induction ws as [|w ws IH]; intros dst s; [by intros [= <-]|].
  cbn. unfold mbind, aco_mbind. destruct (store dst w s) as [[] s1| | |] eqn:E; try done. intros H Hb.
  rewrite (IH _ _ H) by done. by eapply store_frame.
Qed.

Lemma store_words_cases ws dst s : (∃ s', store_words dst ws s = Done tt s') ∨ store_words dst ws s = Undefined.
Proof.
  revert dst s. induction ws as [|w ws IH]; intros dst s; [left; by eexists|].
  cbn. unfold mbind, aco_mbind. by destruct (store_cases dst w s) as [[s1 ->]| ->]; [apply IH|right].
Qed.

Lemma aligned_size sz :
  Z.land sz 15 = 8 → 0 <= Z.shiftr sz 4 → sz = 16 * Z.of_nat (Z.to_nat (Z.shiftr sz 4)) + 8.
Proof.
  intros Hl Hs. rewrite Z2Nat.id by done. rewrite Z.shiftr_div_pow2 by lia.
  change 15 with (Z.ones 4) in Hl. rewrite Z.land_ones in Hl by lia.
  pose proof (Z.div_mod sz (2 ^ 4) ltac:(lia)). lia.
Qed.

Lemma drop_in_is_memcpy dst src sz s :
  p_base dst ≠ p_base src →
  aco_amd64_optimized_memcpy_drop_in dst src sz s = memcpy dst src sz s.
Proof.
  intros Hne. unfold aco_amd64_optimized_memcpy_drop_in.
  destruct (aco_amd64_inline_short_aligned_memcpy_test_ok _ _ _) eqn:Ht; [|done].
  unfold aco_amd64_inline_short_aligned_memcpy_test_ok in Ht.
  rewrite !andb_true_iff in Ht. destruct Ht as [_ [[Hl%Z.eqb_eq H0%Z.leb_le] H8%Z.leb_le]].
  unfold memcpy, overlap. rewrite (proj2 (Z.eqb_neq _ _) Hne). cbn [andb].
  unfold aco_amd64_inline_short_aligned_memcpy. rewrite (proj2 (Z.leb_le _ _) H8).
  set (n := Z.to_nat (Z.shiftr sz 4)). pose proof (aligned_size sz Hl H0) as Hsz. fold n in Hsz.
  change (load_words src (Z.shiftr sz 4)) with (words_from src 0 (Z.shiftr sz 4)).
  replace (Z.shiftr sz 4) with (Z.of_nat n) by (unfold n; lia).
  pose proof (words_from_spec src n 0 s) as Hw. rewrite shift_0, Z.add_0_l in Hw.
  replace (16 * Z.of_nat n + 8) with sz in Hw by lia. replace (sz - 8) with (16 * Z.of_nat n) by lia.
  rewrite aco_bind_assoc. unfold mbind at 1 4, aco_mbind.
  destruct (words_from src 0 (Z.of_nat n) s) as [ws s'| | |]; [|done|by rewrite Hw|done].
  destruct Hw as (-> & Hlen & Hf & Hw). rewrite Hw.
  destruct (load_cases (shift src (16 * Z.of_nat n)) 8 s) as [[w Hlast]|Hlast]; rewrite Hlast.
  - rewrite <- store_words_spec by done. unfold mbind, aco_mbind.
    destruct (store_words dst ws s) as [[] s1| | |] eqn:Es; [|done..].
    rewrite (load_frame _ _ s s1), Hlast by (by eapply store_words_frame). cbn. unfold blen. by rewrite Hlen.
  - unfold mbind, aco_mbind. destruct (store_words_cases ws dst s) as [[s1 Es]| ->]; [|done]. rewrite Es.
    by rewrite (load_frame _ _ s s1), Hlast by (by eapply store_words_frame).
Qed.

(** ** The allocator *)

(** What the C library and the system document: a new object is where nothing is,
    within the lower half of the addresses; the size of a page is a [long]. *)
Record alloc_laws `{E : AcoEnv} : Prop := {
  al_alloc s n b : alloc s n = Some b → 0 < n →
    blocks s !! b = None ∧ stks s !! b = None ∧ cos s !! b = None ∧ 0 < b ∧ b + n <= 2 ^ 63;
  al_map s n b : map_pages s n = Some b → 0 < n →
    blocks s !! b = None ∧ stks s !! b = None ∧ cos s !! b = None ∧ 0 < b ∧ b + n <= 2 ^ 63;
  al_page : - 2 ^ 63 <= page_size < 2 ^ 63
}.

(** ** The layout of a stack *)

Lemma size_t_id z : 0 <= z < 2 ^ 64 → size_t z = z.
Proof. apply Z.mod_small. Qed.

Lemma power_of_two p : 0 < p → Z.land (p - 1) p = 0 → ∃ j, 0 <= j ∧ p = 2 ^ j.
Proof.
  intros Hp Hl. exists (Z.log2 p). pose proof (Z.log2_nonneg p) as Hj. split; [done|].
  pose proof (Z.log2_spec p Hp) as [Hlo Hhi]. destruct (decide (p = 2 ^ Z.log2 p)) as [|Hne]; [done|]. exfalso.
  assert (Z.log2 (p - 1) = Z.log2 p) as El by (apply Z.log2_unique; [done|]; lia).
  assert (Z.testbit (Z.land (p - 1) p) (Z.log2 p) = true) as Hb; [|by rewrite Hl, Z.bits_0 in Hb].
  rewrite Z.land_spec, Z.bit_log2 by done. rewrite <- El, Z.bit_log2; [done|].
  assert (1 <= 2 ^ Z.log2 p) by (apply (Z.pow_le_mono_r 2 0); lia). lia.
Qed.

Lemma land_low sz j : 0 <= j → Z.land sz (2 ^ j - 1) = sz mod 2 ^ j.
Proof. intros Hj. rewrite <- Z.land_ones, Z.ones_equiv by done. f_equal. Qed.

Lemma land_high sz j :
  0 <= sz < 2 ^ 64 → 0 <= j → Z.land sz (size_t (Z.lnot (2 ^ j - 1))) = sz - sz mod 2 ^ j.
Proof.
  intros Hsz Hj. transitivity (Z.shiftl (Z.shiftr sz j) j).
  - apply Z.bits_inj'. intros i Hi. rewrite Z.land_spec. unfold size_t.
    replace (2 ^ j - 1) with (Z.ones j) by (rewrite Z.ones_equiv; lia).
    destruct (decide (i < j)) as [Hlt|Hge].
    + rewrite Z.shiftl_spec_low by done. destruct (decide (i < 64)).
      * rewrite Z.mod_pow2_bits_low, Z.lnot_spec, Z.ones_spec_low by lia. apply andb_false_r.
      * rewrite Z.mod_pow2_bits_high by lia. apply andb_false_r.
    + rewrite Z.shiftl_spec, Z.shiftr_spec by lia. replace (i - j + j) with i by lia.
      destruct (decide (i < 64)).
      * rewrite Z.mod_pow2_bits_low, Z.lnot_spec, Z.ones_spec_high by lia. apply andb_true_r.
      * rewrite Z.mod_pow2_bits_high, andb_false_r by lia. symmetry. rewrite <- (size_t_id sz) by done.
        unfold size_t. apply Z.mod_pow2_bits_high. lia.
  - rewrite Z.shiftl_mul_pow2, Z.shiftr_div_pow2 by done.
    assert (0 < 2 ^ j) by (by apply Z.pow_pos_nonneg). pose proof (Z.div_mod sz (2 ^ j)). lia.
Qed.

(** The stack [x] in a block of [n] bytes: 16 bytes above the highest address that
    is used, which is a multiple of 16; below it the word of the protector. *)
Record layout (x : aco_share_stack_t) (n : Z) : Prop := {
  ly_high_base : p_base (align_highptr x) = p_base (sh_ptr x);
  ly_ret_base : p_base (align_retptr x) = p_base (sh_ptr x);
  ly_ret : p_off (align_retptr x) = p_off (align_highptr x) - 8;
  ly_high : address (align_highptr x) mod 16 = 0;
  ly_top : p_off (sh_ptr x) + sh_sz x - 31 <= p_off (align_highptr x) <= p_off (sh_ptr x) + sh_sz x - 16;
  ly_limit : align_limit x = sh_sz x - 32;
  ly_size : 4096 <= sh_sz x;
  ly_block : p_off (sh_ptr x) + sh_sz x = n;
  ly_off : 0 <= p_off (sh_ptr x);
  ly_bound : 0 < p_base (sh_ptr x) ∧ p_base (sh_ptr x) + n <= 2 ^ 63
}.

Section functions.
Context `{E : AcoEnv} (Hlaws : alloc_laws).

(** The page of the system is a power of two, and the pages that [sz] bytes and the
    guard page take. *)
Definition page_ok : Prop := ∃ j, 0 <= j ∧ page_size = 2 ^ j.
Definition total_size (sz : Z) : Z := (sz + page_size - 1) / page_size * page_size + page_size.

Lemma total_size_eq sz q r :
  0 < page_size → sz = q * page_size + r → 0 < r <= page_size → total_size sz = (q + 2) * page_size.
Proof using.
  intros Hp -> Hr. unfold total_size.
  replace (q * page_size + r + page_size - 1) with (r - 1 + (q + 1) * page_size) by lia.
  rewrite Z.div_add, Z.div_small by lia. lia.
Qed.

(** The size with the guard page: a multiple of the page, with the page enough. *)
Lemma guarded_size_spec sz s :
  4096 <= sz < 2 ^ 64 →
  (guarded_size sz s = Aborted ∧ (¬ page_ok ∨ 2 ^ 64 <= total_size sz)) ∨
  page_ok ∧ ∃ n u, guarded_size sz s = Done (n, u) s ∧ n = total_size sz ∧
    0 < u ∧ 2 * u <= n < 2 ^ 64 ∧ sz <= n - u ∧ n mod u = 0.
Proof using Hlaws.
  intros Hsz. pose proof (al_page Hlaws) as Hpg. pose proof (total_size_eq sz) as Ht. unfold guarded_size, aco_assert.
  unfold page_ok. set (p := page_size) in *.
  unfold mbind, aco_mbind. destruct ((0 <? p) && _) eqn:E1.
  2: { left. split; [done|left]. intros (j & Hj & Hp). rewrite Hp, Z.land_comm, land_low, Z.mod_same in E1 by lia.
       rewrite (proj2 (Z.ltb_lt 0 (2 ^ j))) in E1; [done|]. by apply Z.pow_pos_nonneg. }
  cbn [mret aco_mret]. apply andb_true_iff in E1 as [Hp%Z.ltb_lt Hl%Z.eqb_eq].
  destruct (power_of_two p Hp Hl) as (j & Hj & Ep).
  rewrite (size_t_id p) by lia. rewrite Z.eqb_refl. cbn [andb].
  assert (size_t (Z.shiftl p 1) = 2 * p) as E2.
  { rewrite Z.shiftl_mul_pow2, size_t_id by lia. lia. }
  rewrite E2. replace (Z.shiftr (2 * p) 1 =? p) with true.
  2: { symmetry. apply Z.eqb_eq. rewrite Z.shiftr_div_pow2, Z.mul_comm by lia. by apply Z.div_mul. }
  destruct (Z.leb_spec sz p) as [Hle|Hgt].
  { right. split; [eauto|]. exists (2 * p), p. split_and!; [done| |lia|lia|lia|lia|apply Z.mod_mul; lia].
    rewrite (Ht 0 sz); lia. }
  assert (∀ q, 0 <= q → q mod p = 0 → q / p * p = q) as Hdiv by (intros q ? ?; pose proof (Z.div_mod q p); lia).
  assert (∀ q, Z.land q (p - 1) = q mod p) as Hland by (intros q; rewrite Ep; by apply land_low).
  assert (Z.land sz (size_t (Z.lnot (p - 1))) = sz - sz mod p) as Hhigh by (rewrite Ep; by apply land_high; lia).
  rewrite !Hland, Hhigh.
  pose proof (Z.mod_pos_bound sz p Hp) as Hm. pose proof (Z.div_mod sz p ltac:(lia)) as Hdm.
  assert (∀ r, (sz - sz mod p + r * p) / p = sz / p + r ∧ (sz - sz mod p + r * p) mod p = 0) as Hr.
  { intros r. replace (sz - sz mod p + r * p) with ((sz / p + r) * p) by lia.
    split; [by apply Z.div_mul; lia|by apply Z.mod_mul; lia]. }
  assert (1 <= sz / p) as Hq by (apply Z.div_le_lower_bound; lia).
  assert (∀ a d, 0 <= a < 2 ^ 64 → 0 <= d < 2 ^ 64 → (a <=? size_t (a + d)) = (a + d <? 2 ^ 64)) as Hsafe.
  { intros a d Ha Hd. destruct (Z.ltb_spec (a + d) (2 ^ 64)).
    - rewrite size_t_id by lia. apply Z.leb_le. lia.
    - unfold size_t. rewrite <- (Z.mod_unique (a + d) (2 ^ 64) 1 (a + d - 2 ^ 64)) by lia. apply Z.leb_gt. lia. }
  destruct (Z.eqb_spec (sz mod p) 0) as [Hz|Hnz]; cbn [negb].
  - assert (total_size sz = sz + p) as -> by (rewrite (Ht (sz / p - 1) p); lia).
    unfold aco_size_t_safe_add_assert, aco_assert. rewrite Hsafe by lia.
    destruct (Z.ltb_spec (sz + p) (2 ^ 64)) as [Hs|Hs]; [|left; split; [done|lia]]. cbn [mret aco_mret].
    rewrite (size_t_id (sz + p)) by lia. destruct (Hr 1) as [Hd Hmod].
    replace (sz - sz mod p + 1 * p) with (sz + p) in Hd, Hmod by lia.
    rewrite Hd, size_t_id, Z.eqb_refl by (split; [lia|]; rewrite <- Hd; apply Z.div_lt_upper_bound; nia).
    cbn [mret aco_mret]. rewrite Hd, Hland, Hmod.
    rewrite (proj2 (Z.ltb_lt _ _)) by lia. right. split; [eauto|]. exists (sz + p), p. split_and!; done || lia.
  - assert (total_size sz = sz - sz mod p + 2 * p) as -> by (rewrite (Ht (sz / p) (sz mod p)); lia).
    unfold aco_size_t_safe_add_assert, aco_assert.
    rewrite (proj2 (Z.leb_le p _)) by nia. cbn [mret aco_mret]. rewrite Hsafe by lia.
    destruct (Z.ltb_spec (sz - sz mod p + 2 * p) (2 ^ 64)) as [Hs|Hs]; [|left; split; [done|lia]]. cbn [mret aco_mret].
    rewrite (size_t_id (sz - sz mod p + 2 * p)) by lia. destruct (Hr 2) as [Hd Hmod].
    rewrite Hd, size_t_id, Z.eqb_refl by (split; [lia|]; rewrite <- Hd; apply Z.div_lt_upper_bound; nia).
    cbn [mret aco_mret]. rewrite Hd, Hland, Hmod.
    rewrite (proj2 (Z.ltb_lt _ _)) by lia. right. split; [eauto|]. exists (sz - sz mod p + 2 * p), p. split_and!; done || lia.
Qed.


(** The guards are those of blocks. *)
Definition guards_ok (s : aco_state) : Prop := ∀ b g, guards s !! b = Some g → is_Some (blocks s !! b).

Lemma guards_fresh s b : guards_ok s → blocks s !! b = None → guards s !! b = None.
Proof using. intros Hg Hb. destruct (guards s !! b) as [g|] eqn:E'; [|done]. destruct (Hg b g E'). congruence. Qed.

(** There is no memory for the [n] bytes of a stack and its guard page: they are not
    allocated, or not mapped, or the guard page of the mapping is not protected. *)
Definition no_stack_memory (n guard : Z) (s : aco_state) : Prop :=
  if guard =? 0 then alloc s n = None
  else match map_pages s n with
       | None => True
       | Some b => mprotect_ok (s⟨blocks := <[b := replicate (Z.to_nat n) 0]> (blocks s)⟩) = false
       end.

(** The memory of a new stack. *)
Lemma stack_memory_spec n u guard s :
  guards_ok s → (guard ≠ 0 → 0 < u ∧ 2 * u <= n < 2 ^ 64) → 4096 <= (if guard =? 0 then n else n - u) →
  (stack_memory n u guard s = Aborted ∧ no_stack_memory n guard s) ∨
  ¬ no_stack_memory n guard s ∧ ∃ b bs real rsz (off := if guard =? 0 then 0 else u),
    blen bs = n ∧ blocks s !! b = None ∧ 0 < b ∧ b + n <= 2 ^ 63 ∧ (guard ≠ 0 → real = Some b ∧ rsz = n) ∧
    stack_memory n u guard s =
      Done (mk_ptr b off, n - off, if guard =? 0 then 0 else 1, real, rsz)
        (s⟨blocks := <[b := bs]> (blocks s)⟩⟨guards := if guard =? 0 then guards s else <[b := u]> (guards s)⟩).
Proof using Hlaws.
  intros Hg Hu Hn. unfold stack_memory, no_stack_memory. destruct (Z.eqb_spec guard 0) as [Hz|Hnz]; cbn [negb].
  - unfold mbind, aco_mbind, malloc. destruct (alloc s n) as [b|] eqn:Ea; [|by left]. cbn.
    destruct (al_alloc Hlaws _ _ _ Ea) as (Hb & _ & _ & H0 & Hbn); [lia|].
    right. split; [done|]. exists b, (junk_block b n), None, 0. rewrite Z.sub_0_r. split_and!; try done.
    unfold junk_block, blen. rewrite length_fmap, length_seqZ. lia.
  - destruct (Hu Hnz) as [Hu0 Hun]. unfold mbind, aco_mbind, mmap, mprotect.
    destruct (map_pages s n) as [b|] eqn:Ea; [|by left]. cbn.
    destruct (al_map Hlaws _ _ _ Ea) as (Hb & _ & _ & H0 & Hbn); [lia|].
    destruct (mprotect_ok _) eqn:Em; [|by left]. cbn.
    assert (size_t (Z.shiftl u 1) = 2 * u) as ->.
    { rewrite Z.shiftl_mul_pow2, size_t_id by lia. lia. }
    unfold aco_assert. rewrite (proj2 (Z.leb_le _ _)) by lia. cbn.
    right. split; [done|]. exists b, (replicate (Z.to_nat n) 0), (Some b), n. rewrite size_t_id by lia.
    split_and!; try done. apply blen_replicate. lia.
Qed.

(** The size of the stack that is asked for, and why it is not made: the page of the
    system, or the pages do not fit, if it has a guard page; no memory for the object,
    or for the stack. *)
Definition stack_size (sz : Z) : Z := Z.max 4096 (if sz =? 0 then 2 ^ 21 else sz).
Definition stack_refused (sz guard : Z) (s : aco_state) : Prop :=
  guard ≠ 0 ∧ (¬ page_ok ∨ 2 ^ 64 <= total_size (stack_size sz)) ∨
  alloc s sizeof_share_stack = None ∨
  no_stack_memory (if guard =? 0 then stack_size sz else total_size (stack_size sz)) guard s.

Lemma align16 z :
  0 <= z < 2 ^ 64 → size_t (Z.shiftl (Z.shiftr z 4) 4) = z - z mod 16 ∧ (z - z mod 16) mod 16 = 0.
Proof using.
  intros Hz. pose proof (Z.div_mod z 16 ltac:(lia)). pose proof (Z.mod_pos_bound z 16 ltac:(lia)). split.
  - rewrite Z.shiftl_mul_pow2, Z.shiftr_div_pow2 by lia. change (2 ^ 4) with 16. rewrite size_t_id by lia. lia.
  - replace (z - z mod 16) with (z / 16 * 16) by lia. by apply Z.mod_mul.
Qed.

(** The sizes of a new stack. *)
Lemma stack_size_spec sz guard s :
  4096 <= sz < 2 ^ 64 →
  ((if negb (guard =? 0) then guarded_size sz else mret (sz, 0)) s = Aborted ∧ guard ≠ 0 ∧
     (¬ page_ok ∨ 2 ^ 64 <= total_size sz)) ∨
  (guard ≠ 0 → page_ok) ∧ ∃ n u, n = (if guard =? 0 then sz else total_size sz) ∧ (if negb (guard =? 0) then guarded_size sz else mret (sz, 0)) s = Done (n, u) s ∧
    (guard ≠ 0 → 0 < u ∧ 2 * u <= n < 2 ^ 64) ∧ n < 2 ^ 64 ∧ sz <= (if guard =? 0 then n else n - u).
Proof using Hlaws.
  intros Hsz. destruct (Z.eqb_spec guard 0) as [Hz|Hnz]; cbn [negb].
  - right. split; [done|]. exists sz, 0. split_and!; [done|done|by intros|lia|lia].
  - destruct (guarded_size_spec sz s Hsz) as [[Ha Hr]|(Hpg & n & u & Ha & Et & Hu & Hn & Hle & _)]; [by left|right].
    split; [done|]. exists n, u. split_and!; [done|done|by intros|lia|lia].
Qed.

(** A new stack. *)
Lemma share_stack_new2_spec sz guard s :
  guards_ok s → 0 <= sz < 2 ^ 64 →
  (aco_share_stack_new2 sz guard s = Aborted ∧ stack_refused sz guard s) ∨
  ¬ stack_refused sz guard s ∧ ∃ k x bs, aco_share_stack_new2 sz guard s =
      Done k (s⟨blocks := <[p_base (sh_ptr x) := bs]> (blocks s)⟩
               ⟨guards := if guard =? 0 then guards s else <[p_base (sh_ptr x) := p_off (sh_ptr x)]> (guards s)⟩
               ⟨stks := <[k := x]> (stks s)⟩) ∧
    stks s !! k = None ∧ blocks s !! p_base (sh_ptr x) = None ∧ owner x = None ∧
    layout x (blen bs) ∧ sz <= sh_sz x ∧ (guard = 0 → p_off (sh_ptr x) = 0) ∧
    guard_page_enabled x = (if guard =? 0 then 0 else 1) ∧ (guard ≠ 0 → real_ptr x = Some (p_base (sh_ptr x)) ∧ real_sz x = blen bs) ∧
    mem_read bs (p_off (align_retptr x)) 8 = Some (le_bytes 8 protector_asm).
Proof using Hlaws.
  intros Hg Hsz. unfold aco_share_stack_new2.
  set (sz1 := if sz =? 0 then 1024 * 1024 * 2 else sz). set (sz2 := if sz1 <? 4096 then 4096 else sz1).
  assert (4096 <= sz2 < 2 ^ 64 ∧ sz <= sz2 ∧ sz2 = stack_size sz) as (H2 & H2' & E2).
  { unfold sz2, sz1, stack_size. destruct (Z.eqb_spec sz 0); [by subst|]. destruct (Z.ltb_spec sz 4096); lia. }
  clearbody sz2. clear sz1. subst sz2. rewrite assert_true by lia. unfold stack_refused.
  destruct (stack_size_spec (stack_size sz) guard s H2) as [(Ha & Hgn & Hr)|(Hpg & n & u & En & Hgs & Hu & Hn & Hle)].
  { left. split; [by apply aco_bind_aborted|by left]. }
  rewrite <- En. assert (guard ≠ 0 → total_size (stack_size sz) < 2 ^ 64) as Hfit.
  { intros Hgn. rewrite (proj2 (Z.eqb_neq _ _) Hgn) in En. lia. }
  rewrite (aco_bind_done _ _ _ _ _ Hgs). cbn [fst snd]. rewrite (aco_bind_done _ _ s (alloc s sizeof_share_stack) s) by done.
  destruct (alloc s sizeof_share_stack) as [k|] eqn:Ek; [|left; split; [done|auto]].
  destruct (al_alloc Hlaws _ _ _ Ek) as (_ & Hk & _); [done|]. rewrite (aco_bind_done _ _ s k s) by done.
  destruct (stack_memory_spec n u guard s Hg Hu ltac:(lia)) as [[Hm Hr]|(Hmem & b & bs & real & rsz & Hl & Hb & Hb0 & Hbn & Hreal & Hm)].
  { left. split; [by apply aco_bind_aborted|auto]. }
  rewrite (aco_bind_done _ _ _ _ _ Hm). clear Hm. cbv zeta beta. set (off := if guard =? 0 then 0 else u) in *.
  assert (off = 0 ∧ guard = 0 ∨ off = u ∧ guard ≠ 0 ∧ 0 < u) as Hoff.
  { unfold off. destruct (Z.eqb_spec guard 0) as [Hz|Hnz]; [by left|right]. split_and!; [done|done|apply Hu, Hnz]. }
  assert (4096 <= n - off) as Hno by (unfold off; destruct (guard =? 0); lia).
  assert (size_t (size_t (n - off - 16) + address (mk_ptr b off)) = b + n - 16) as ->.
  { unfold address. cbn. rewrite (size_t_id (n - off - 16)), size_t_id by lia. lia. }
  destruct (align16 (b + n - 16)) as [-> Hup]; [lia|].
  pose proof (Z.mod_pos_bound (b + n - 16) 16 ltac:(lia)) as Hm16.
  set (u_p := b + n - 16 - (b + n - 16) mod 16) in *.
  rewrite (size_t_id (u_p - 8)) by lia. rewrite (size_t_id (n - off - 16 - 16)) by lia.
  unfold of_address. cbn [p_base].
  assert (blen (le_bytes 8 protector_asm) = 8) as Hlw by (unfold blen; by rewrite length_le_bytes).
  set (word := le_bytes 8 protector_asm) in *. clearbody word.
  destruct (mem_write_defined bs (u_p - 8 - b) word) as [bs' Hbs']; [lia..|].
  assert (default 0 ((if guard =? 0 then guards s else <[b := u]> (guards s)) !! b) = off) as Hgd.
  { destruct Hoff as [[-> ->]|(-> & Hne & _)]; [by rewrite Z.eqb_refl, (guards_fresh s b Hg Hb)|].
    rewrite (proj2 (Z.eqb_neq _ _) Hne). by rewrite lookup_insert_eq. }
  set (s1 := s⟨blocks := <[b := bs]> (blocks s)⟩⟨guards := if guard =? 0 then guards s else <[b := u]> (guards s)⟩).
  assert (store (mk_ptr b (u_p - 8 - b)) word s1 = Done tt (s1⟨blocks := <[b := bs']> (blocks s1)⟩)) as Hst.
  { unfold store, s1. cbn. rewrite Hgd, (proj2 (Z.ltb_ge _ _)), lookup_insert_eq by lia. cbn. by rewrite Hbs'. }
  rewrite (aco_bind_done _ _ _ _ _ Hst). clear Hst. rewrite assert_true by (apply Z.ltb_lt; lia).
  right. split.
  { intros [[Hgn [Hp|Hp]]|[?|?]]; [by apply Hp, Hpg|specialize (Hfit Hgn); lia|done|done]. }
  exists k, (mk_share_stack (mk_ptr b off) (n - off) (mk_ptr b (u_p - b)) (mk_ptr b (u_p - 8 - b)) 0
    (n - off - 16 - 16) None (if guard =? 0 then 0 else 1) real rsz), bs'. split.
  { unfold modify, mbind, aco_mbind, s1. cbn. rewrite insert_insert_eq. do 2 f_equal.
    unfold off. by destruct (guard =? 0). }
  cbn. split_and!; try done; [|unfold off; destruct (guard =? 0); lia| | |].
  - pose proof (mem_write_length _ _ _ _ Hbs') as Hl'. unfold address. constructor; cbn; try done; try lia.
    unfold address. cbn. by replace (b + (u_p - b)) with u_p by lia.
  - by intros ->.
  - intros [-> ->]%Hreal. split; [done|]. by rewrite (mem_write_length _ _ _ _ Hbs').
  - pose proof (mem_write_read _ _ _ _ Hbs') as Hr. by rewrite Hlw in Hr.
Qed.


(** ** Saving and restoring *)

(** Doubling ends: the size is large enough, or has become 0 and the assertion
    fails. *)
Lemma double_until_ends fuel sz valid s :
  (0 < fuel <= 65)%nat → sz mod 2 ^ (65 - Z.of_nat fuel) = 0 →
  double_until fuel sz valid s = Aborted ∨ ∃ n, double_until fuel sz valid s = Done n s.
Proof using.
  revert sz. induction fuel as [|fuel IH]; intros sz Hf Hsz; [lia|]. cbn [double_until].
  rewrite Z.shiftl_mul_pow2 by lia. change (2 ^ 1) with 2. unfold aco_assert.
  destruct (Z.ltb_spec 0 (size_t (sz * 2))) as [Hp|Hp]; [|by left]. unfold mbind, aco_mbind. cbn.
  destruct (valid <=? size_t (sz * 2)); [right; by eexists|].
  assert (∃ q, sz = q * 2 ^ (65 - Z.of_nat (S fuel))) as [q ->].
  { apply Z.mod_divide in Hsz as [q ->]; [by exists q|]. apply Z.pow_nonzero; lia. }
  destruct fuel as [|fuel].
  - exfalso. change (2 ^ (65 - Z.of_nat 1)) with (2 ^ 64) in Hp. unfold size_t in Hp.
    replace (q * 2 ^ 64 * 2) with (q * 2 * 2 ^ 64) in Hp by lia. rewrite Z.mod_mul in Hp; lia.
  - apply IH; [lia|]. unfold size_t. replace (q * 2 ^ (65 - Z.of_nat (S (S fuel))) * 2) with (q * 2 ^ (65 - Z.of_nat (S fuel))).
    2: { replace (65 - Z.of_nat (S fuel)) with (1 + (65 - Z.of_nat (S (S fuel)))) by lia. rewrite Z.pow_add_r by lia. lia. }
    replace (2 ^ 64) with (2 ^ (65 - Z.of_nat (S fuel)) * 2 ^ (Z.of_nat fuel)) by (rewrite <- Z.pow_add_r by lia; f_equal; lia).
    rewrite Z.mul_comm at 1. rewrite Z.mul_mod_distr_l by (apply Z.pow_nonzero; lia).
    rewrite Z.mul_comm. apply Z.mod_mul, Z.pow_nonzero; lia.
Qed.

Lemma double_until_enough fuel sz valid s :
  0 < sz < valid → valid <= 2 ^ 63 → valid <= sz * 2 ^ Z.of_nat fuel →
  ∃ k, 0 <= k ∧ double_until fuel sz valid s = Done (sz * 2 ^ k) s ∧ valid <= sz * 2 ^ k < 2 * valid.
Proof using.
  revert sz. induction fuel as [|fuel IH]; intros sz Hsz Hv Hf; [cbn in Hf; lia|]. cbn [double_until].
  rewrite Z.shiftl_mul_pow2, size_t_id by lia. change (2 ^ 1) with 2. rewrite assert_true by (apply Z.ltb_lt; lia).
  destruct (Z.leb_spec valid (sz * 2)); [exists 1; split_and!; [done|done|lia|lia]|].
  assert (0 < sz * 2 < valid) as Hsz2 by lia.
  enough (valid <= sz * 2 * 2 ^ Z.of_nat fuel) as Hf'.
  { destruct (IH (sz * 2) Hsz2 Hv Hf') as (k & Hk & E' & Hr).
    exists (1 + k). rewrite Z.pow_add_r, Z.mul_assoc by lia. change (2 ^ 1) with 2. split_and!; [lia|exact E'|lia..]. }
  replace (Z.of_nat (S fuel)) with (1 + Z.of_nat fuel) in Hf by lia.
  rewrite Z.pow_add_r in Hf by lia. lia.
Qed.

(** The first double of [sz] that is [valid] or more. *)
Definition grown_size (sz valid : Z) : Z := sz * 2 ^ Z.log2_up ((valid + sz - 1) / sz).

Lemma grown_size_range sz valid :
  0 < sz < valid → 0 <= Z.log2_up ((valid + sz - 1) / sz) ∧ valid <= grown_size sz valid < 2 * valid.
Proof using.
  intros Hsz. unfold grown_size. set (q := (valid + sz - 1) / sz).
  pose proof (Z.div_mod (valid + sz - 1) sz ltac:(lia)) as Hd. fold q in Hd.
  pose proof (Z.mod_pos_bound (valid + sz - 1) sz ltac:(lia)).
  assert (1 < q) as Hq by nia. destruct (Z.log2_up_spec q Hq) as [Hlo Hhi].
  pose proof (Z.log2_up_pos q Hq) as Hk. rewrite <- Z.sub_1_r in Hlo.
  replace (Z.log2_up q) with (1 + (Z.log2_up q - 1)) by lia.
  replace (Z.log2_up q) with (1 + (Z.log2_up q - 1)) in Hhi by lia.
  rewrite Z.pow_add_r in * by lia. change (2 ^ 1) with 2 in *. split; [lia|]. nia.
Qed.

Lemma doubles_unique sz valid j k :
  0 < sz → 0 <= j → 0 <= k → valid <= sz * 2 ^ j < 2 * valid → valid <= sz * 2 ^ k < 2 * valid → j = k.
Proof using.
  intros Hsz Hj Hk H1 H2. assert (∀ a b, 0 <= a < b → 2 * 2 ^ a <= 2 ^ b) as Hp.
  { intros a b Hab. rewrite <- Z.pow_succ_r by lia. apply Z.pow_le_mono_r; lia. }
  destruct (Z.lt_trichotomy j k) as [Hlt|[|Hlt]]; [|done|].
  - specialize (Hp j k ltac:(lia)). nia.
  - specialize (Hp k j ltac:(lia)). nia.
Qed.

Lemma double_until_grown sz valid s :
  0 < sz < valid → valid <= 2 ^ 63 → double_until double_fuel sz valid s = Done (grown_size sz valid) s.
Proof using.
  intros Hsz Hv. destruct (double_until_enough double_fuel sz valid s Hsz Hv) as (k & Hk & -> & Hr).
  { unfold double_fuel. change (2 ^ Z.of_nat 65) with (4 * 2 ^ 63). nia. }
  destruct (grown_size_range sz valid Hsz) as [Hj Hg]. unfold grown_size in *.
  assert (k = Z.log2_up ((valid + sz - 1) / sz)) as ->; [|done].
  apply (doubles_unique sz valid); [lia|exact Hk|exact Hj|exact Hr|exact Hg].
Qed.

(** The save stack [b] of [o], of the coroutine [c], is too small for [valid] bytes,
    and when it has been freed there is no memory for a new one. *)
Definition cannot_grow (s : aco_state) (o : Z) (c : aco_t) (b valid : Z) : Prop :=
  let n := grown_size (sv_sz (save_stack c)) valid in
  sv_sz (save_stack c) < valid ∧
  alloc (s⟨blocks := delete b (blocks s)⟩
          ⟨cos := <[o := c⟨save_stack := (save_stack c)⟨sv_ptr := None⟩⟨sv_sz := n⟩⟩]> (cos s)⟩) n = None.

(** The bytes of a stack between the stack pointer and the return address. *)
Definition in_use (x : aco_share_stack_t) (p : pointer) : Z := address (align_retptr x) - address p.

Lemma sp_ok_spec x n p :
  layout x n → sp_ok x p = true →
  p_base p = p_base (sh_ptr x) ∧ p_off p + in_use x p = p_off (align_retptr x) ∧
  0 <= in_use x p <= align_limit x - 8 ∧ p_off (sh_ptr x) <= p_off p ∧ p_off (align_retptr x) + 8 <= n.
Proof using.
  intros [] Hs. unfold sp_ok in Hs. rewrite !andb_true_iff in Hs.
  destruct Hs as [[Hb%Z.eqb_eq H1%Z.leb_le] H2%Z.leb_le]. unfold in_use, address in *. rewrite ly_ret_base0, ly_high_base0 in *.
  rewrite Hb in *. split_and!; lia.
Qed.

(** A save stack that is large enough is kept; otherwise a new one of less than
    twice the size that is needed takes its place. *)
Lemma grow_save_stack_spec s o c b vb valid :
  cos s !! o = Some c → sv_ptr (save_stack c) = Some b → blocks s !! b = Some vb →
  blen vb = sv_sz (save_stack c) → 0 < sv_sz (save_stack c) < 2 ^ 64 → 0 <= valid <= 2 ^ 63 →
  (grow_save_stack o valid s = Aborted ∧ cannot_grow s o c b valid) ∨
  ¬ cannot_grow s o c b valid ∧ ∃ b' vb' n,
    grow_save_stack o valid s =
      Done tt (s⟨blocks := <[b' := vb']> (if decide (b' = b) then blocks s else delete b (blocks s))⟩
                ⟨cos := <[o := c⟨save_stack := (save_stack c)⟨sv_ptr := Some b'⟩⟨sv_sz := n⟩⟩]> (cos s)⟩) ∧
    blen vb' = n ∧ valid <= n ∧ 0 < n < 2 ^ 64 ∧ (b' = b ∨ delete b (blocks s) !! b' = None).
Proof using Hlaws.
  intros Hc Hb Hvb Hlen Hsz Hv. unfold grow_save_stack. 
  rewrite (aco_bind_done _ _ s c s) by (unfold get_co, of_option; by rewrite Hc).
  destruct (Z.ltb_spec (sv_sz (save_stack c)) valid) as [Hlt|Hge].
  - rewrite (aco_bind_done _ _ s tt (s⟨blocks := delete b (blocks s)⟩))
      by (unfold free; rewrite Hb, decide_True by eauto; done).
    set (s1 := s⟨blocks := delete b (blocks s)⟩).
    rewrite (aco_bind_done _ _ s1 tt (s1⟨cos := <[o := c⟨save_stack := (save_stack c)⟨sv_ptr := None⟩⟩]> (cos s)⟩))
      by (unfold set_co, s1; cbn; by rewrite Hc).
    set (s2 := s1⟨cos := _⟩).
    destruct (grown_size_range (sv_sz (save_stack c)) valid ltac:(lia)) as [_ Hn].
    rewrite (aco_bind_done _ _ _ _ _ (double_until_grown (sv_sz (save_stack c)) valid s2 ltac:(lia) ltac:(lia))).
    unfold cannot_grow. cbv zeta. set (n := grown_size _ _) in *.
    set (c3 := c⟨save_stack := (save_stack c)⟨sv_ptr := None⟩⟨sv_sz := n⟩⟩).
    rewrite (aco_bind_done _ _ s2 tt (s2⟨cos := <[o := c3]> (cos s)⟩))
      by (unfold set_co, s2, s1; cbn; rewrite lookup_insert_eq; do 2 f_equal; by rewrite insert_insert_eq).
    set (s3 := s2⟨cos := _⟩). change (alloc _ n = None) with (alloc s3 n = None).
    destruct (alloc s3 n) as [b'|] eqn:Ea.
    + destruct (al_alloc Hlaws _ _ _ Ea) as (Hb' & _ & _ & Hb0 & Hbn); [lia|]. right. split; [by intros [_ ?]|].
      rewrite (aco_bind_done _ _ s3 (Some b') (s3⟨blocks := <[b' := junk_block b' n]> (blocks s3)⟩)) by (unfold malloc; by rewrite Ea).
      exists b', (junk_block b' n), n. split_and!; [|unfold junk_block, blen; rewrite length_fmap, length_seqZ; lia|lia|lia|lia|].
      * unfold assertptr. unfold mbind, aco_mbind, set_co. cbn. rewrite lookup_insert_eq. cbn. rewrite insert_insert_eq.
        destruct (decide (b' = b)) as [->|]; [|done]. unfold s3, s2, s1. cbn. by rewrite insert_delete_eq.
      * by right.
    + left. split; [|done]. by rewrite (aco_bind_done _ _ s3 None s3) by (unfold malloc; by rewrite Ea).
  - right. split; [intros [? _]; lia|]. exists b, vb, (sv_sz (save_stack c)). rewrite decide_True, (insert_id (blocks s)), (insert_id (cos s)); [|..|done|done].
    2: { rewrite Hc. destruct c as [? ? ? ? ? []]. cbn in *. congruence. }
    split_and!; try done; try lia; first [by left|by destruct s].
Qed.


(** A copy into another block. *)
Lemma copy_done dst src n s d l l' :
  p_base dst ≠ p_base src → load src n s = Done d s → blocks s !! p_base dst = Some l →
  default 0 (guards s !! p_base dst) <= p_off dst → mem_write l (p_off dst) d = Some l' →
  aco_amd64_optimized_memcpy_drop_in dst src n s = Done tt (s⟨blocks := <[p_base dst := l']> (blocks s)⟩).
Proof using.
  intros Hne Hload Hl Hg Hw. rewrite drop_in_is_memcpy by done. unfold memcpy, overlap.
  rewrite (proj2 (Z.eqb_neq _ _) Hne). cbn [andb]. rewrite (aco_bind_done _ _ _ _ _ Hload). unfold store.
  rewrite (proj2 (Z.ltb_ge _ _)), Hl by done. cbn. by rewrite Hw.
Qed.

Lemma set_co_done co f s c :
  cos s !! co = Some c → set_co co f s = Done tt (s⟨cos := <[co := f c]> (cos s)⟩).
Proof using. unfold set_co. by intros ->. Qed.
Lemma set_stack_done k f s x :
  stks s !! k = Some x → set_stack k f s = Done tt (s⟨stks := <[k := f x]> (stks s)⟩).
Proof using. unfold set_stack. by intros ->. Qed.
Lemma get_co_done co s c : cos s !! co = Some c → get_co co s = Done c s.
Proof using. unfold get_co. by intros ->. Qed.
Lemma get_stack_done k s x : stks s !! k = Some x → get_stack k s = Done x s.
Proof using. unfold get_stack. by intros ->. Qed.

(** The two save stacks agree on everything but the counters. *)
Definition same_save (v v' : aco_save_stack_t) : Prop :=
  sv_ptr v' = sv_ptr v ∧ sv_sz v' = sv_sz v ∧ valid_sz v' = valid_sz v.

(** The conditional copy out of a stack into the save stack. *)
Lemma save_copy s o c b vb rsp valid d :
  cos s !! o = Some c → sv_ptr (save_stack c) = Some b → blocks s !! b = Some vb →
  b ≠ p_base rsp → guards s !! b = None → load rsp valid s = Done d s → valid <= blen vb →
  ∃ v vb', same_save (save_stack c) v ∧ blen vb' = blen vb ∧ mem_read vb' 0 valid = Some d ∧
    (if 0 <? valid then
       o' ← get_co o;
       b ← of_option (sv_ptr (save_stack o'));
       aco_amd64_optimized_memcpy_drop_in (mk_ptr b 0) rsp valid;;
       set_co o (fun o => o⟨save_stack := (save_stack o)⟨ct_save := size_t (ct_save (save_stack o) + 1)⟩⟩)
     else mret tt) s =
    Done tt (s⟨blocks := <[b := vb']> (blocks s)⟩⟨cos := <[o := c⟨save_stack := v⟩]> (cos s)⟩).
Proof using.
  intros Hc Hb Hvb Hne Hg Hl Hv. pose proof (load_pure _ _ _ _ _ Hl) as [_ Hd].
  destruct (Z.ltb_spec 0 valid) as [Hp|Hz].
  - destruct (mem_write_defined vb 0 d) as [vb' Hw]; [lia..|].
    exists ((save_stack c)⟨ct_save := size_t (ct_save (save_stack c) + 1)⟩), vb'. split_and!; [done| | |].
    + by eapply mem_write_length.
    + rewrite <- Hd. by eapply mem_write_read.
    + rewrite (aco_bind_done _ _ _ _ _ (get_co_done _ _ _ Hc)), Hb, (aco_bind_done _ _ s b s) by done.
      rewrite (aco_bind_done _ _ _ _ _ (copy_done (mk_ptr b 0) rsp valid s d vb vb' Hne Hl Hvb ltac:(cbn; by rewrite Hg) Hw)).
      by rewrite (set_co_done _ _ _ c).
  - exists (save_stack c), vb. assert (blen d = 0) as Hd0.
    { pose proof (blen_nonneg d). lia. }
    assert (d = []) as -> by (by apply blen_zero in Hd0). replace valid with 0 by lia.
    split_and!; [done|done| |].
    + apply mem_read_Some. pose proof (blen_nonneg vb). split_and!; [lia|lia|lia|]. done.
    + rewrite (insert_id (blocks s)), (insert_id (cos s)) by (by destruct c). by destruct s.
Qed.

(** The coroutine [o] that owns the stack [k], and what the copy needs. *)
Record owns (s : aco_state) (o k : Z) (c : aco_t) (x : aco_share_stack_t) (b : Z) (bs vb : list Z) : Prop := {
  ow_co : cos s !! o = Some c;
  ow_stack : stks s !! k = Some x;
  ow_share : share_stack c = Some k;
  ow_layout : layout x (blen bs);
  ow_bytes : blocks s !! p_base (sh_ptr x) = Some bs;
  ow_sp : sp_ok x (sp (reg c)) = true;
  ow_ptr : sv_ptr (save_stack c) = Some b;
  ow_save : blocks s !! b = Some vb;
  ow_size : blen vb = sv_sz (save_stack c);
  ow_range : 0 < sv_sz (save_stack c) < 2 ^ 64;
  ow_guard : guards s !! b = None;
  ow_apart : b ≠ p_base (sh_ptr x)
}.

(** What [save_owner] does to a coroutine and its stack. *)
Definition saved (s : aco_state) (o k b b' : Z) (c : aco_t) (x : aco_share_stack_t) (v : aco_save_stack_t)
    (vb : list Z) (s' : aco_state) : Prop :=
  s' = s⟨blocks := <[b' := vb]> (if decide (b' = b) then blocks s else delete b (blocks s))⟩
        ⟨cos := <[o := c⟨save_stack := v⟩]> (cos s)⟩
        ⟨stks := <[k := x⟨owner := None⟩⟨align_validsz := 0⟩]> (stks s)⟩.

(** The part of the stack [x] in use by its owner [o] cannot be saved. *)
Definition cannot_save (s : aco_state) (o : Z) (c : aco_t) (x : aco_share_stack_t) (b : Z) : Prop :=
  let valid := in_use x (sp (reg c)) in
  let c1 := c⟨save_stack := (save_stack c)⟨valid_sz := valid⟩⟩ in
  cannot_grow (s⟨cos := <[o := c1]> (cos s)⟩) o c1 b valid.

Lemma save_owner_spec s o k c x b bs vb d :
  guards_ok s → owns s o k c x b bs vb →
  mem_read bs (p_off (sp (reg c))) (in_use x (sp (reg c))) = Some d →
  (save_owner k o s = Aborted ∧ cannot_save s o c x b) ∨
  ¬ cannot_save s o c x b ∧ ∃ b' v vb' s', save_owner k o s = Done tt s' ∧ saved s o k b b' c x v vb' s' ∧
    sv_ptr v = Some b' ∧ blen vb' = sv_sz v ∧ 0 < sv_sz v < 2 ^ 64 ∧ valid_sz v = in_use x (sp (reg c)) ∧
    valid_sz v <= sv_sz v ∧ mem_read vb' 0 (valid_sz v) = Some d ∧
    (b' = b ∨ delete b (blocks s) !! b' = None).
Proof using Hlaws.
  intros Hg [Hc Hx Hk Hlay Hbs Hsp Hb Hvb Hlen Hsz Hgb Hne] Hd.
  destruct (sp_ok_spec _ _ _ Hlay Hsp) as (Hspb & Hret & Huse & Hlo & Hhi). pose proof Hlay as [].
  set (valid := in_use x (sp (reg c))) in *.
  unfold save_owner. rewrite (aco_bind_done _ _ s c s) by (unfold get_co; by rewrite Hc).
  rewrite Hk. rewrite (aco_bind_done _ _ s k s) by done. rewrite assert_true by apply Z.eqb_refl.
  rewrite (aco_bind_done _ _ s x s) by (unfold get_stack; by rewrite Hx). cbv zeta.
  rewrite assert_true.
  2: { unfold sp_ok in Hsp. rewrite !andb_true_iff in Hsp. destruct Hsp as [[_ H1] H2].
       rewrite H1, size_t_id; [done|]. unfold address. rewrite ly_high_base0. lia. }
  fold (in_use x (sp (reg c))). fold valid. rewrite (size_t_id valid) by lia.
  set (c1 := c⟨save_stack := (save_stack c)⟨valid_sz := valid⟩⟩).
  set (s1 := s⟨cos := <[o := c1]> (cos s)⟩).
  rewrite (aco_bind_done _ _ s tt s1) by (unfold set_co; by rewrite Hc).
  assert (cos s1 !! o = Some c1) as Hc1 by apply lookup_insert_eq.
  destruct (grow_save_stack_spec s1 o c1 b vb valid Hc1 Hb Hvb Hlen Hsz ltac:(lia))
    as [(Ha & Hno)|(Hyes & b' & vb1 & n & Hgrow & Hl1 & Hvn & Hn & Hb')].
  { left. split; [by apply aco_bind_aborted|exact Hno]. }
  right. split; [exact Hyes|]. rewrite (aco_bind_done _ _ _ _ _ Hgrow). clear Hgrow.
  set (c2 := c1⟨save_stack := (save_stack c1)⟨sv_ptr := Some b'⟩⟨sv_sz := n⟩⟩).
  set (bl := if decide (b' = b) then blocks s1 else delete b (blocks s1)).
  set (s2 := s1⟨blocks := <[b' := vb1]> bl⟩⟨cos := <[o := c2]> (cos s1)⟩).
  assert (∀ b0, delete b (blocks s) !! b0 = None → b0 ≠ b → blocks s !! b0 = None) as Hfresh
    by (intros b0 H0 Hb0; by rewrite lookup_delete_ne in H0).
  assert (b' ≠ p_base (sh_ptr x) ∧ guards s !! b' = None) as [Hne' Hgb'].
  { destruct (decide (b' = b)) as [->|Hbb]; [done|]. destruct Hb' as [|Hb']; [done|].
    pose proof (Hfresh _ Hb' Hbb). split; [congruence|]. by apply guards_fresh. }
  assert (blocks s2 !! b' = Some vb1) as Hvb1 by apply lookup_insert_eq.
  assert (load (sp (reg c)) valid s2 = Done d s2) as Hload.
  { unfold load, s2, bl. cbn. rewrite Hspb, lookup_insert_ne by done.
    assert ((if decide (b' = b) then blocks s else delete b (blocks s)) !! p_base (sh_ptr x) = Some bs) as ->.
    { destruct (decide _); [done|]. by rewrite lookup_delete_ne. }
    cbn. by rewrite Hd. }
  destruct (save_copy s2 o c2 b' vb1 (sp (reg c)) valid d) as (v & vb2 & (Hv1 & Hv2 & Hv3) & Hl2 & Hr & Hcopy);
    [apply lookup_insert_eq|done|done|by rewrite Hspb|done|done|lia|].
  rewrite (aco_bind_done _ _ _ _ _ Hcopy). clear Hcopy.
  set (s3 := s2⟨blocks := _⟩⟨cos := _⟩).
  assert (cos s3 !! o = Some (c2⟨save_stack := v⟩)) as Hc3 by apply lookup_insert_eq.
  rewrite (aco_bind_done _ _ _ _ _ (set_co_done _ _ _ _ Hc3)).
  exists b', (v⟨max_cpsz := Z.max (max_cpsz v) valid⟩), vb2.
  eexists. split; [by apply set_stack_done|]. cbn in Hv1, Hv2, Hv3. cbn. rewrite Hv2, Hv3.
  split_and!; try done; try lia. unfold saved. destruct s. cbn. unfold s3, s2, s1, bl. cbn. unfold c2, c1. cbn.
  rewrite !insert_insert_eq. done.
Qed.

(** The part of the stack of a coroutine that is resumed is copied back. *)
Lemma restore_stack_spec s co k c x b bs vb d :
  cos s !! co = Some c → stks s !! k = Some x → layout x (blen bs) →
  blocks s !! p_base (sh_ptr x) = Some bs → default 0 (guards s !! p_base (sh_ptr x)) <= p_off (sh_ptr x) →
  sv_ptr (save_stack c) = Some b → blocks s !! b = Some vb → b ≠ p_base (sh_ptr x) →
  0 <= valid_sz (save_stack c) <= align_limit x - 8 → mem_read vb 0 (valid_sz (save_stack c)) = Some d →
  ∃ v n bs', same_save (save_stack c) v ∧ blen bs' = blen bs ∧
    mem_read bs' (p_off (align_retptr x) - valid_sz (save_stack c)) (valid_sz (save_stack c)) = Some d ∧
    restore_stack k co s = Done tt (s⟨blocks := <[p_base (sh_ptr x) := bs']> (blocks s)⟩
      ⟨cos := <[co := c⟨save_stack := v⟩]> (cos s)⟩⟨stks := <[k := x⟨align_validsz := n⟩⟨owner := Some co⟩]> (stks s)⟩).
Proof using.
  intros Hc Hx Hlay Hbs Hg Hb Hvb Hne Hv Hd. pose proof Hlay as [].
  pose proof (mem_read_length _ _ _ _ Hd) as Hdl. unfold restore_stack.
  rewrite (aco_bind_done _ _ _ _ _ (get_co_done _ _ _ Hc)), (aco_bind_done _ _ _ _ _ (get_stack_done _ _ _ Hx)). cbv zeta.
  set (valid := valid_sz (save_stack c)) in *.
  rewrite assert_true by (rewrite size_t_id by lia; apply Z.leb_le; lia).
  assert (∃ v bs', same_save (save_stack c) v ∧ blen bs' = blen bs ∧
    mem_read bs' (p_off (align_retptr x) - valid) valid = Some d ∧
    (if 0 <? valid then
      b ← of_option (sv_ptr (save_stack c));
      aco_amd64_optimized_memcpy_drop_in (shift (align_retptr x) (- valid)) (mk_ptr b 0) valid;;
      set_co co (fun c => c⟨save_stack := (save_stack c)⟨ct_restore := size_t (ct_restore (save_stack c) + 1)⟩⟩)
    else mret tt) s =
    Done tt (s⟨blocks := <[p_base (sh_ptr x) := bs']> (blocks s)⟩⟨cos := <[co := c⟨save_stack := v⟩]> (cos s)⟩))
    as (v & bs' & (Hv1 & Hv2 & Hv3) & Hl & Hr & Hcopy).
  { destruct (Z.ltb_spec 0 valid) as [Hp|Hz].
    - destruct (mem_write_defined bs (p_off (align_retptr x) - valid) d) as [bs' Hw]; [lia..|].
      exists ((save_stack c)⟨ct_restore := size_t (ct_restore (save_stack c) + 1)⟩), bs'. split_and!; [done| | |].
      + by eapply mem_write_length.
      + rewrite <- Hdl at 2. by eapply mem_write_read.
      + rewrite Hb, (aco_bind_done _ _ s b s) by done.
        assert (load (mk_ptr b 0) valid s = Done d s) as Hload by (unfold load; cbn; rewrite Hvb; cbn; by rewrite Hd).
        rewrite (aco_bind_done _ _ _ _ _ (copy_done (shift (align_retptr x) (- valid)) (mk_ptr b 0) valid s d bs bs'
          ltac:(cbn; congruence) Hload ltac:(cbn; congruence) ltac:(cbn; rewrite ly_ret_base0; lia) ltac:(cbn; exact Hw))).
        cbn. rewrite ly_ret_base0. by rewrite (set_co_done _ _ _ c).
    - exists (save_stack c), bs. split_and!; [done|done| |].
      + replace valid with 0 in * by lia. assert (d = []) as -> by (by apply blen_zero). rewrite Z.sub_0_r.
        apply mem_read_Some. split_and!; [lia|lia|lia|done].
      + rewrite (insert_id (blocks s)), (insert_id (cos s)) by (by destruct c). by destruct s. }
  rewrite (aco_bind_done _ _ _ _ _ Hcopy). clear Hcopy. set (s1 := s⟨blocks := _⟩⟨cos := _⟩).
  assert (cos s1 !! co = Some (c⟨save_stack := v⟩)) as Hc1 by apply lookup_insert_eq.
  rewrite (aco_bind_done _ _ _ _ _ (set_co_done _ _ _ _ Hc1)).
  eexists (v⟨max_cpsz := Z.max (max_cpsz v) valid⟩), _, bs'. split_and!; try done.
  rewrite (set_stack_done k _ _ x) by done. unfold s1. cbn. by rewrite insert_insert_eq.
Qed.

End functions.
