(* ===== verification/AcoInv.v ===== *)
(** * The invariant of src/libaco

    Every coroutine has a stack and a save stack of its own block; the part of the
    shared stack that belongs to a coroutine, its image, is on the stack as long as
    the coroutine owns it and in its save stack otherwise. *)

From S2P Require Import Prelude Aco AcoProofs.

(** ** The invariant *)

(** The stack [x], at the address [k]. *)
Record stack_ok (s : aco_state) (k : Z) (x : aco_share_stack_t) (bs : list Z) : Prop := {
  so_bytes : blocks s !! p_base (sh_ptr x) = Some bs;
  so_layout : layout x (blen bs);
  so_guard : default 0 (guards s !! p_base (sh_ptr x)) <= p_off (sh_ptr x);
  so_mapped : guard_page_enabled x ≠ 0 → real_ptr x = Some (p_base (sh_ptr x)) ∧ real_sz x = blen bs;
  so_plain : guard_page_enabled x = 0 → guards s !! p_base (sh_ptr x) = None;
  so_owner o : owner x = Some o → ∃ c, cos s !! o = Some c ∧ share_stack c = Some k
}.

(** What a coroutine that is not the main one says of its stack and save stack. *)
Record co_local (co : Z) (c : aco_t) (x : aco_share_stack_t) (vb : list Z) : Prop := {
  cl_len : blen vb = sv_sz (save_stack c);
  cl_range : 0 < sv_sz (save_stack c) < 2 ^ 64;
  cl_sp : sp_ok x (sp (reg c)) = true;
  cl_valid : 0 <= valid_sz (save_stack c) <= sv_sz (save_stack c);
  cl_fit : valid_sz (save_stack c) <= align_limit x - 8;
  cl_in : is_end c = 0 → owner x ≠ Some co → in_use x (sp (reg c)) = valid_sz (save_stack c)
}.

Definition is_main (s : aco_state) (m : Z) : Prop := ∃ c, cos s !! m = Some c ∧ main_co c = None.

Record co_ok (s : aco_state) (co : Z) (c : aco_t) (m k : Z) (x : aco_share_stack_t) (b : Z) (vb : list Z) : Prop := {
  co_at : cos s !! co = Some c;
  co_main : main_co c = Some m;
  co_is_main : is_main s m;
  co_share : share_stack c = Some k;
  co_stack : stks s !! k = Some x;
  co_ptr : sv_ptr (save_stack c) = Some b;
  co_block : blocks s !! b = Some vb;
  co_loc : co_local co c x vb
}.

Definition main_ok (c : aco_t) : Prop := main_co c = None ∧ share_stack c = None ∧ sv_ptr (save_stack c) = None.

Record inv (s : aco_state) : Prop := {
  i_stack k x : stks s !! k = Some x → ∃ bs, stack_ok s k x bs;
  i_co co c : cos s !! co = Some c → main_ok c ∨ ∃ m k x b vb, co_ok s co c m k x b vb;
  i_guard b g : guards s !! b = Some g → ∃ k x, stks s !! k = Some x ∧ p_base (sh_ptr x) = b;
  i_stks k k' x x' : stks s !! k = Some x → stks s !! k' = Some x' → p_base (sh_ptr x) = p_base (sh_ptr x') → k = k';
  i_saves co co' c c' b : cos s !! co = Some c → cos s !! co' = Some c' →
    sv_ptr (save_stack c) = Some b → sv_ptr (save_stack c') = Some b → co = co';
  i_apart co c b k x : cos s !! co = Some c → sv_ptr (save_stack c) = Some b → stks s !! k = Some x →
    b ≠ p_base (sh_ptr x);
  i_gtls g : aco_gtls_co s = Some g → is_Some (cos s !! g);
  i_current co c k x : current s = Some co → cos s !! co = Some c → share_stack c = Some k → stks s !! k = Some x →
    owner x = Some co ∧ sp_ok x (sp (cpu s)) = true
}.

(** ** The image of a coroutine *)

Definition stack_bytes (s : aco_state) (x : aco_share_stack_t) (p : pointer) : option (list Z) :=
  bs ← blocks s !! p_base (sh_ptr x); mem_read bs (p_off p) (in_use x p).

(** The registers and the bytes of the stack with which a coroutine that does not
    run will go on. *)
Definition image (s : aco_state) (co : Z) : option (registers * list Z) :=
  c ← cos s !! co; k ← share_stack c; x ← stks s !! k;
  if bool_decide (owner x = Some co)
  then d ← stack_bytes s x (sp (reg c)); Some (reg c, d)
  else b ← sv_ptr (save_stack c); vb ← blocks s !! b; d ← mem_read vb 0 (valid_sz (save_stack c)); Some (reg c, d).

(** Those of the coroutine that runs. *)
Definition live (s : aco_state) : option (registers * list Z) :=
  co ← current s; c ← cos s !! co; k ← share_stack c; x ← stks s !! k;
  d ← stack_bytes s x (sp (cpu s)); Some (cpu s, d).

(** ** Frames *)

(** A stack but for the coroutine that owns it. *)
Definition same_stack (x x' : aco_share_stack_t) : Prop := ∃ o v, x' = x⟨owner := o⟩⟨align_validsz := v⟩.

Lemma same_stack_refl x : same_stack x x.
Proof. exists (owner x), (align_validsz x). by destruct x. Qed.
#[local] Hint Resolve same_stack_refl : core.

Lemma same_stack_ptr x x' : same_stack x x' → sh_ptr x' = sh_ptr x.
Proof. by intros (o & v & ->). Qed.
Lemma same_stack_layout x x' n : same_stack x x' → layout x n → layout x' n.
Proof. intros (o & v & ->) []. by constructor. Qed.
Lemma same_stack_in_use x x' p : same_stack x x' → in_use x' p = in_use x p.
Proof. by intros (o & v & ->). Qed.
Lemma same_stack_sp x x' p : same_stack x x' → sp_ok x' p = sp_ok x p.
Proof. by intros (o & v & ->). Qed.

Lemma co_local_frame co c x x' vb vb' :
  same_stack x x' → (owner x = Some co → owner x' = Some co) → blen vb' = blen vb →
  co_local co c x vb → co_local co c x' vb'.
Proof.
  intros Hs Ho Hl []. constructor; try done; [congruence| | |].
  - by rewrite (same_stack_sp x x').
  - by destruct Hs as (o & v & ->).
  - intros He Hne. rewrite (same_stack_in_use x x') by done. apply cl_in0; [done|]. intros Hx. by apply Hne, Ho.
Qed.

Lemma image_co s co c m k x b vb :
  co_ok s co c m k x b vb →
  image s co =
    (if bool_decide (owner x = Some co)
     then d ← stack_bytes s x (sp (reg c)); Some (reg c, d)
     else d ← mem_read vb 0 (valid_sz (save_stack c)); Some (reg c, d)).
Proof.
  intros []. unfold image. rewrite co_at0. cbn. rewrite co_share0. cbn. rewrite co_stack0. cbn.
  rewrite co_ptr0. cbn. by rewrite co_block0.
Qed.

(** A coroutine that is not the main one. *)
Lemma i_coroutine s co c : inv s → cos s !! co = Some c → main_co c ≠ None → ∃ m k x b vb, co_ok s co c m k x b vb.
Proof. intros Hi Hc Hm. by destruct (i_co s Hi co c Hc) as [[? _]|]. Qed.

(** ** A change of one coroutine, its stack and its save stack *)

Section update.
Context (s s' : aco_state) (o : Z) (c c' : aco_t) (m k : Z) (x x' : aco_share_stack_t) (b b' : Z) (vb vb' bs bs' : list Z).

Record update : Prop := {
  u_cos : cos s' = <[o := c']> (cos s);
  u_stks : stks s' = <[k := x']> (stks s);
  u_guards : guards s' = guards s;
  u_base : blocks s !! p_base (sh_ptr x) = Some bs;
  u_base' : blocks s' !! p_base (sh_ptr x) = Some bs';
  u_len : blen bs' = blen bs;
  u_save : blocks s' !! b' = Some vb';
  u_frame bb : bb ≠ b → bb ≠ b' → bb ≠ p_base (sh_ptr x) → blocks s' !! bb = blocks s !! bb;
  u_fresh : b' = b ∨ blocks s !! b' = None;
  u_same : same_stack x x';
  u_owner co : owner x = Some co → co = o;
  u_owner' co : owner x' = Some co → co = o;
  u_main : main_co c' = main_co c;
  u_share : share_stack c' = share_stack c;
  u_ptr : sv_ptr (save_stack c') = Some b';
  u_local : co_local o c' x' vb';
  u_gtls g : aco_gtls_co s' = Some g → is_Some (cos s !! g);
  u_current : current s' = None ∨ current s' = Some o ∧ owner x' = Some o ∧ sp_ok x' (sp (cpu s')) = true
}.

Context (Hi : inv s) (Ho : co_ok s o c m k x b vb) (Hu : update).

Lemma update_stack k0 y' :
  stks s' !! k0 = Some y' → ∃ y, stks s !! k0 = Some y ∧ same_stack y y' ∧ (k0 ≠ k → y' = y).
Proof using Ho Hu.
  rewrite (u_stks Hu). intros [[<- <-]|[Hne Hy]]%lookup_insert_Some.
  - exists x. split_and!; [apply Ho|apply Hu|done].
  - exists y'. by split_and!.
Qed.

Lemma update_co co c0' :
  cos s' !! co = Some c0' → co = o ∧ c0' = c' ∨ co ≠ o ∧ cos s !! co = Some c0'.
Proof using Hu.
  rewrite (u_cos Hu). intros [[<- <-]|[Hne Hy]]%lookup_insert_Some; [by left|by right].
Qed.

Lemma update_main q : is_main s q → is_main s' q.
Proof using Ho Hu.
  intros (c0 & Hc0 & Hm). exists c0. split; [|done]. rewrite (u_cos Hu), lookup_insert_ne; [done|].
  intros <-. pose proof (co_at _ _ _ _ _ _ _ _ Ho). pose proof (co_main _ _ _ _ _ _ _ _ Ho). congruence.
Qed.

Lemma update_base_save : b' ≠ p_base (sh_ptr x) ∧ b ≠ p_base (sh_ptr x).
Proof using Hi Ho Hu.
  assert (b ≠ p_base (sh_ptr x)) by (eapply (i_apart s Hi); apply Ho). split; [|done].
  destruct (u_fresh Hu) as [->|]; [done|]. pose proof (u_base Hu). congruence.
Qed.

(** The save stack of another coroutine. *)
Lemma update_save co c0 b0 vb0 :
  co ≠ o → cos s !! co = Some c0 → sv_ptr (save_stack c0) = Some b0 → blocks s !! b0 = Some vb0 →
  b0 ≠ b' ∧ blocks s' !! b0 = Some vb0.
Proof using Hi Ho Hu.
  intros Hne Hc0 Hb0 Hvb0.
  assert (b0 ≠ b) as Hb.
  { intros ->. apply Hne. eapply (i_saves s Hi); [exact Hc0|apply Ho|done|apply Ho]. }
  assert (b0 ≠ b') as Hb'.
  { destruct (u_fresh Hu) as [->|]; [done|congruence]. }
  split; [done|]. rewrite (u_frame Hu); [done..|]. eapply (i_apart s Hi); [done|done|apply Ho].
Qed.

(** The block of another stack. *)
Lemma update_base k0 y :
  k0 ≠ k → stks s !! k0 = Some y → p_base (sh_ptr y) ≠ b' ∧ blocks s' !! p_base (sh_ptr y) = blocks s !! p_base (sh_ptr y).
Proof using Hi Ho Hu.
  intros Hne Hy. destruct (i_stack s Hi _ _ Hy) as (bs0 & [Hbs0 _ _ _ _]).
  assert (p_base (sh_ptr y) ≠ b) as Hb by (apply not_eq_sym; eapply (i_apart s Hi); [apply Ho|apply Ho|done]).
  assert (p_base (sh_ptr y) ≠ b') as Hb' by (destruct (u_fresh Hu) as [->|]; [done|congruence]).
  split; [done|]. apply (u_frame Hu); [done..|]. intros Heq. apply Hne. eapply (i_stks s Hi); [done|apply Ho|done].
Qed.

Lemma update_others co c0 m0 k0 x0 b0 vb0 :
  co ≠ o → co_ok s co c0 m0 k0 x0 b0 vb0 →
  ∃ x0', co_ok s' co c0 m0 k0 x0' b0 vb0 ∧ same_stack x0 x0' ∧ (owner x0' = Some co ↔ owner x0 = Some co).
Proof using Hi Ho Hu.
  intros Hne [Hat Hm Hism Hsh Hst Hp Hbl Hloc].
  destruct (update_save co c0 b0 vb0 Hne Hat Hp Hbl) as [_ Hvb0].
  assert (cos s' !! co = Some c0) as Hat' by (rewrite (u_cos Hu); by rewrite lookup_insert_ne).
  destruct (decide (k0 = k)) as [->|Hk].
  - exists x'. assert (x0 = x) as -> by (pose proof (co_stack _ _ _ _ _ _ _ _ Ho); congruence).
    assert (owner x ≠ Some co ∧ owner x' ≠ Some co) as [Hx Hx'].
    { split; intros Hw; apply Hne; [by apply (u_owner Hu)|by apply (u_owner' Hu)]. }
    split_and!; [|apply Hu|done]. constructor; try done; [by apply update_main|rewrite (u_stks Hu); by rewrite lookup_insert_eq|].
    eapply co_local_frame; [apply Hu|done|done|done].
  - exists x0. split_and!; [|done|done]. constructor; try done; [by apply update_main|].
    rewrite (u_stks Hu). by rewrite lookup_insert_ne.
Qed.

Lemma update_self : co_ok s' o c' m k x' b' vb'.
Proof using Ho Hu.
  destruct Ho. constructor.
  - rewrite (u_cos Hu). apply lookup_insert_eq.
  - by rewrite (u_main Hu).
  - by apply update_main.
  - by rewrite (u_share Hu).
  - rewrite (u_stks Hu). apply lookup_insert_eq.
  - apply Hu.
  - apply Hu.
  - apply Hu.
Qed.

Lemma update_stack_ok k0 y' : stks s' !! k0 = Some y' → ∃ bs0, stack_ok s' k0 y' bs0.
Proof using Hi Ho Hu.
  pose proof update_self as Hself. intros Hy'. destruct (update_stack k0 y' Hy') as (y & Hy & Hs & Hne).
  destruct (i_stack s Hi k0 y Hy) as (bs0 & [H1 H2 H3 H4 H5 H6]). pose proof (same_stack_ptr _ _ Hs) as Hp.
  assert (∃ bs1, blocks s' !! p_base (sh_ptr y) = Some bs1 ∧ blen bs1 = blen bs0) as (bs1 & Hbs1 & Hlen).
  { destruct (decide (k0 = k)) as [->|Hk].
    - assert (y = x) as -> by (pose proof (co_stack _ _ _ _ _ _ _ _ Ho); congruence).
      exists bs'. split; [apply Hu|]. rewrite (u_len Hu). pose proof (u_base Hu). congruence.
    - exists bs0. split; [|done]. rewrite <- H1. by eapply update_base. }
  exists bs1. constructor; rewrite ?Hp, ?(u_guards Hu); try done.
  - rewrite Hlen. by eapply same_stack_layout.
  - rewrite Hlen. by destruct Hs as (? & ? & ->).
  - by destruct Hs as (? & ? & ->).
  - intros co Hco. destruct (decide (k0 = k)) as [->|Hk].
    + assert (y' = x') as -> by (pose proof (co_stack _ _ _ _ _ _ _ _ Hself); congruence).
      rewrite (u_owner' Hu co Hco). exists c'. split; apply Hself.
    + rewrite (Hne Hk) in Hco. destruct (H6 co Hco) as (c1 & Hc1 & Hsh). exists c1. split; [|done].
      rewrite (u_cos Hu), lookup_insert_ne; [done|]. intros <-. destruct Ho. congruence.
Qed.

(** No other coroutine has the save stack of [o]. *)
Lemma update_save_owner co c0 : co ≠ o → cos s !! co = Some c0 → sv_ptr (save_stack c0) ≠ Some b'.
Proof using Hi Ho Hu.
  intros Hne Hc0 Hb. destruct (i_co s Hi co c0 Hc0) as [(_ & _ & ?)|(m0 & k0 & x0 & b0 & vb0 & Hco)]; [congruence|].
  assert (b0 = b') as -> by (destruct Hco; congruence).
  by destruct (update_save co c0 b' vb0 Hne Hc0 Hb) as [? _]; [apply Hco|].
Qed.

Lemma update_inv : inv s'.
Proof using Hi Ho Hu.
  pose proof update_self as Hself. constructor.
  - apply update_stack_ok.
  - intros co c0' [[-> ->]|[Hne Hc0]]%update_co; [right; eauto 10|].
    destruct (i_co s Hi co c0' Hc0) as [Hm|(m0 & k0 & x0 & b0 & vb0 & Hco)]; [by left|right].
    destruct (update_others _ _ _ _ _ _ _ Hne Hco) as (x0' & H & _). eauto 10.
  - intros b0 g. rewrite (u_guards Hu). intros (k0 & y & Hy & Hb)%(i_guard s Hi).
    destruct (decide (k0 = k)) as [->|Hk].
    + exists k, x'. split; [apply Hself|]. rewrite (same_stack_ptr x x') by apply Hu.
      assert (y = x) as -> by (pose proof (co_stack _ _ _ _ _ _ _ _ Ho); congruence). done.
    + exists k0, y. split; [|done]. by rewrite (u_stks Hu), lookup_insert_ne.
  - intros k1 k2 y1' y2' (y1 & Hy1 & Hs1 & _)%update_stack (y2 & Hy2 & Hs2 & _)%update_stack.
    rewrite (same_stack_ptr y1 y1'), (same_stack_ptr y2 y2') by done. by apply (i_stks s Hi).
  - intros co1 co2 c1 c2 b0 [[-> ->]|[Hne1 Hc1]]%update_co [[-> ->]|[Hne2 Hc2]]%update_co Hb1 Hb2; try done.
    + rewrite (u_ptr Hu) in Hb1. injection Hb1 as <-. by destruct (update_save_owner co2 c2 Hne2 Hc2).
    + rewrite (u_ptr Hu) in Hb2. injection Hb2 as <-. by destruct (update_save_owner co1 c1 Hne1 Hc1).
    + by eapply (i_saves s Hi).
  - intros co c0 b0 k0 y' Hc0 Hb0 (y & Hy & Hs & _)%update_stack. rewrite (same_stack_ptr y y') by done.
    apply update_co in Hc0 as [[-> ->]|[Hne Hc0]]; [|by eapply (i_apart s Hi)].
    assert (b0 = b') as -> by (rewrite (u_ptr Hu) in Hb0; congruence).
    destruct (decide (k0 = k)) as [->|Hk].
    + assert (y = x) as -> by (pose proof (co_stack _ _ _ _ _ _ _ _ Ho); congruence). apply update_base_save.
    + apply not_eq_sym. by eapply update_base.
  - intros g Hg. destruct (u_gtls Hu g Hg) as [cg Hcg]. rewrite (u_cos Hu).
    destruct (decide (g = o)) as [->|]; [rewrite lookup_insert_eq|rewrite lookup_insert_ne by done]; eauto.
  - intros co c0 k0 y Hcur Hc0 Hk0 Hy. destruct (u_current Hu) as [|(Hco & Hox & Hsp)]; [congruence|].
    assert (co = o) as -> by congruence. destruct Hself. assert (c0 = c') as -> by congruence.
    assert (k0 = k) as -> by congruence. assert (y = x') as -> by congruence. done.
Qed.

Lemma update_image co c0 :
  cos s !! co = Some c0 → main_co c0 ≠ None → co ≠ o → image s' co = image s co.
Proof using Hi Ho Hu.
  intros Hc0 Hm Hne. destruct (i_coroutine s co c0 Hi Hc0 Hm) as (m0 & k0 & x0 & b0 & vb0 & Hco).
  destruct (update_others _ _ _ _ _ _ _ Hne Hco) as (x0' & Hco' & Hs & Hown).
  rewrite (image_co _ _ _ _ _ _ _ _ Hco), (image_co _ _ _ _ _ _ _ _ Hco').
  rewrite (bool_decide_ext _ _ Hown). case_bool_decide as Ho'; [|done].
  unfold stack_bytes. rewrite (same_stack_ptr x0 x0') by done. rewrite (same_stack_in_use x0 x0') by done.
  destruct (decide (k0 = k)) as [->|Hk].
  - exfalso. apply Hne, (u_owner Hu). pose proof (co_stack _ _ _ _ _ _ _ _ Ho). pose proof (co_stack _ _ _ _ _ _ _ _ Hco). congruence.
  - destruct (update_base k0 x0 Hk) as [_ ->]; [apply Hco|done].
Qed.

End update.

(** ** A change of main coroutines, the running coroutine and the processor *)

Section main.
Context (s s' : aco_state) (Hi : inv s).
Context (Hcos : ∀ co, cos s' !! co = cos s !! co ∨
  ∃ c c', cos s !! co = Some c ∧ cos s' !! co = Some c' ∧ main_ok c ∧ main_ok c').
Context (Hstks : stks s' = stks s) (Hblocks : blocks s' = blocks s) (Hguards : guards s' = guards s).

Lemma main_keeps_co co c m k x b vb : co_ok s co c m k x b vb → co_ok s' co c m k x b vb.
Proof using Hcos Hstks Hblocks.
  intros [Hat Hm (cm & Hcm & Hmm) Hsh Hst Hp Hb Hl]. constructor; rewrite ?Hstks, ?Hblocks; try done.
  - destruct (Hcos co) as [->|(c0 & c1 & Hc0 & _ & [Hm0 _] & _)]; [done|congruence].
  - destruct (Hcos m) as [Heq|(c0 & c1 & _ & Hc1 & _ & [Hm1 _])]; [exists cm; by rewrite Heq|by exists c1].
Qed.

Lemma main_keeps_image co c : cos s !! co = Some c → main_co c ≠ None → image s' co = image s co.
Proof using Hi Hcos Hstks Hblocks.
  intros Hc Hm. destruct (i_coroutine s co c Hi Hc Hm) as (m & k & x & b & vb & Hco).
  rewrite (image_co _ _ _ _ _ _ _ _ Hco), (image_co _ _ _ _ _ _ _ _ (main_keeps_co _ _ _ _ _ _ _ Hco)).
  unfold stack_bytes. by rewrite Hblocks.
Qed.

(** A coroutine is the same, or a main one. *)
Lemma main_lookup co c' : cos s' !! co = Some c' → cos s !! co = Some c' ∨ main_ok c'.
Proof using Hcos.
  intros Hc. destruct (Hcos co) as [Heq|(c0 & c1 & Hc0 & Hc1 & _ & H1)]; [left; congruence|right; congruence].
Qed.

Lemma main_inv :
  (∀ g, aco_gtls_co s' = Some g → is_Some (cos s !! g)) →
  (∀ co c k x, current s' = Some co → cos s !! co = Some c → share_stack c = Some k → stks s !! k = Some x →
     owner x = Some co ∧ sp_ok x (sp (cpu s')) = true) →
  inv s'.
Proof using All.
  intros Hg Hcur. constructor; rewrite ?Hstks.
  - intros k x Hx. destruct (i_stack s Hi k x Hx) as (bs & []). exists bs. constructor; rewrite ?Hblocks, ?Hguards; try done.
    intros o (c & Hc & Hsh)%so_owner0. destruct (Hcos o) as [Heq|(c0 & c1 & Hc0 & _ & (_ & Hn & _) & _)]; [|congruence].
    exists c. by rewrite Heq.
  - intros co c Hc. destruct (main_lookup co c Hc) as [Hc0|]; [|by left].
    destruct (i_co s Hi co c Hc0) as [|(m & k & x & b & vb & Hco)]; [by left|right].
    exists m, k, x, b, vb. by apply main_keeps_co.
  - intros b g. rewrite Hguards. apply (i_guard s Hi).
  - apply (i_stks s Hi).
  - intros co co' c c' b [Hc|(_ & _ & Hn)]%main_lookup [Hc'|(_ & _ & Hn')]%main_lookup Hb Hb'; try congruence.
    by eapply (i_saves s Hi).
  - intros co c b k x [Hc|(_ & _ & Hn)]%main_lookup Hb; [|congruence]. by eapply (i_apart s Hi).
  - intros g (c & Hc)%Hg. destruct (Hcos g) as [->|(c0 & c1 & _ & Hc1 & _)]; eauto.
  - intros co c k x Hc [Hc0|(_ & Hn & _)]%main_lookup Hk Hx; [by eapply Hcur|congruence].
Qed.

End main.

Lemma current_ext s s' :
  aco_gtls_co s' = aco_gtls_co s → (∀ g, aco_gtls_co s = Some g → cos s' !! g = cos s !! g) → current s' = current s.
Proof. intros Hg Hc. unfold current. rewrite Hg. destruct (aco_gtls_co s) as [g|]; [|done]. cbn. by rewrite Hc. Qed.

Lemma image_defined s co c m k x b vb : inv s → co_ok s co c m k x b vb → is_Some (image s co).
Proof.
  intros Hi Hco. rewrite (image_co _ _ _ _ _ _ _ _ Hco). destruct Hco as [_ _ _ _ Hx _ _ []]. case_bool_decide.
  - destruct (i_stack s Hi k x Hx) as (bs & [H1 H2 _ _ _ _]).
    destruct (sp_ok_spec _ _ _ H2 cl_sp0) as (_ & Hr & Hu & Hlo & Hhi). pose proof H2 as [].
    unfold stack_bytes. rewrite H1. cbn.
    destruct (mem_read_defined bs (p_off (sp (reg c))) (in_use x (sp (reg c)))) as [d ->]; [lia..|]. by eexists.
  - destruct (mem_read_defined vb 0 (valid_sz (save_stack c))) as [d ->]; [lia..|]. by eexists.
Qed.

(** The running coroutine. *)
Lemma current_co s co : inv s → current s = Some co → ∃ c m k x b vb, co_ok s co c m k x b vb ∧ aco_gtls_co s = Some co.
Proof.
  intros Hi Hcur. unfold current in Hcur. destruct (aco_gtls_co s) as [g|]; [|done]. cbn in Hcur.
  destruct (cos s !! g) as [c|] eqn:Ec; [|done]. cbn in Hcur. destruct (decide (main_co c = None)); [done|].
  injection Hcur as ->. destruct (i_coroutine s co c Hi Ec) as (m & k & x & b & vb & Hco); [done|]. by exists c, m, k, x, b, vb.
Qed.
