(* ===== verification/AcoSteps.v ===== *)
(** * The calls of src/libaco keep the invariant

    Each call returns or aborts, keeps the invariant, and leaves every coroutine it
    is not about with the image it had. *)

From S2P Require Import Prelude Aco AcoProofs AcoInv.

#[local] Hint Resolve same_stack_refl : core.

(** ** Resuming *)

(** What the copies of [aco_resume] keep: everything but save stacks, and who owns a
    stack. *)
Record quiet (s s' : aco_state) : Prop := {
  q_inv : inv s';
  q_gtls : aco_gtls_co s' = aco_gtls_co s;
  q_cpu : cpu s' = cpu s;
  q_cos co c : cos s !! co = Some c → ∃ v, cos s' !! co = Some (c⟨save_stack := v⟩);
  q_dom co : cos s !! co = None → cos s' !! co = None;
  q_image co c : cos s !! co = Some c → main_co c ≠ None → image s' co = image s co
}.

Lemma quiet_refl s : inv s → quiet s s.
Proof. intros Hi. constructor; try done. intros co c Hc. exists (save_stack c). by destruct c. Qed.

Lemma quiet_trans s1 s2 s3 : quiet s1 s2 → quiet s2 s3 → quiet s1 s3.
Proof.
  intros H1 H2. constructor.
  - apply H2.
  - by rewrite (q_gtls _ _ H2), (q_gtls _ _ H1).
  - by rewrite (q_cpu _ _ H2), (q_cpu _ _ H1).
  - intros co c (v & Hc)%(q_cos _ _ H1). destruct (q_cos _ _ H2 _ _ Hc) as (v' & Hc'). by exists v'.
  - intros co Hc. by apply (q_dom _ _ H2), (q_dom _ _ H1).
  - intros co c Hc Hm. destruct (q_cos _ _ H1 _ _ Hc) as (v & Hc').
    rewrite (q_image _ _ H2 co _ Hc') by done. by eapply (q_image _ _ H1).
Qed.

Lemma quiet_current s s' : quiet s s' → current s' = current s.
Proof.
  intros H. unfold current. rewrite (q_gtls _ _ H). destruct (aco_gtls_co s) as [g|]; [|done]. cbn.
  destruct (cos s !! g) as [c|] eqn:Ec; [|by rewrite (q_dom _ _ H)].
  destruct (q_cos _ _ H _ _ Ec) as (v & ->). done.
Qed.

Lemma inv_guards s : inv s → guards_ok s.
Proof.
  intros Hi b g (k & x & Hx & <-)%(i_guard s Hi). destruct (i_stack s Hi k x Hx) as (bs & []). eauto.
Qed.

Lemma inv_save_guard s co c b : inv s → cos s !! co = Some c → sv_ptr (save_stack c) = Some b → guards s !! b = None.
Proof.
  intros Hi Hc Hb. destruct (guards s !! b) as [g|] eqn:Eg; [|done].
  destruct (i_guard s Hi b g Eg) as (k & x & Hx & Hp). exfalso. by eapply (i_apart s Hi co c b k x).
Qed.

(** The part of the stack in use is within its block. *)
Lemma stack_bytes_defined s k x p bs :
  stack_ok s k x bs → sp_ok x p = true →
  ∃ d, stack_bytes s x p = Some d ∧ mem_read bs (p_off p) (in_use x p) = Some d.
Proof.
  intros [H1 H2 _ _ _ _] Hs. destruct (sp_ok_spec _ _ _ H2 Hs) as (_ & Hr & Hu & Hlo & Hhi). pose proof H2 as [].
  unfold stack_bytes. rewrite H1. cbn.
  destruct (mem_read_defined bs (p_off p) (in_use x p)) as [d Hd]; [lia..|]. rewrite Hd. eauto.
Qed.

(** The stack pointer that a number of bytes in use determines. *)
Lemma sp_of_in_use x n p : layout x n → sp_ok x p = true → p_off p = p_off (align_retptr x) - in_use x p.
Proof. intros Hl Hs. destruct (sp_ok_spec _ _ _ Hl Hs) as (_ & ? & _). lia. Qed.

(** A coroutine whose main one is the same keeps what runs. *)
Lemma current_insert s s' o c c' :
  cos s !! o = Some c → cos s' = <[o := c']> (cos s) → main_co c' = main_co c → aco_gtls_co s' = aco_gtls_co s →
  current s' = current s.
Proof.
  intros Hc Hcos Hm Hg. unfold current. rewrite Hg, Hcos. destruct (aco_gtls_co s) as [g|]; [|done]. cbn.
  destruct (decide (o = g)) as [<-|]; [|by rewrite lookup_insert_ne].
  rewrite lookup_insert_eq, Hc. cbn. by rewrite Hm.
Qed.

(** A change of the save stack of [o] that keeps the image of [o] is quiet. *)
Lemma update_quiet s s' o c v m k x x' b b' vb vb' bs bs' :
  inv s → co_ok s o c m k x b vb → update s s' o c (c⟨save_stack := v⟩) k x x' b b' vb' bs bs' →
  aco_gtls_co s' = aco_gtls_co s → cpu s' = cpu s → image s' o = image s o → quiet s s'.
Proof.
  intros Hi Hco Hup Hg Hcpu Him. pose proof (co_at _ _ _ _ _ _ _ _ Hco) as Hc. pose proof (u_cos _ _ _ _ _ _ _ _ _ _ _ _ _ Hup) as Hcos.
  constructor; [by eapply update_inv|done|done| | |]; rewrite ?Hcos.
  - intros co c0 Hc0. destruct (decide (co = o)) as [->|].
    + exists v. rewrite lookup_insert_eq. by assert (c0 = c) as -> by congruence.
    + exists (save_stack c0). rewrite lookup_insert_ne by done. rewrite Hc0. by destruct c0.
  - intros co Hn. rewrite lookup_insert_ne; [done|]. intros <-. congruence.
  - intros co c0 Hc0 Hm0. destruct (decide (co = o)) as [->|]; [done|by eapply update_image].
Qed.

Section steps.
Context `{E : AcoEnv} (Hlaws : alloc_laws).

(** There is no memory to save what the owner [o] of the stack [x] has on it. *)
Definition owner_stuck (s : aco_state) (x : aco_share_stack_t) (o : Z) : Prop :=
  ∃ c b, cos s !! o = Some c ∧ sv_ptr (save_stack c) = Some b ∧ cannot_save s o c x b.

(** The owner of a stack is copied out of it. *)
Lemma save_owner_keeps s k x o :
  inv s → current s = None → stks s !! k = Some x → owner x = Some o →
  (save_owner k o s = Aborted ∧ owner_stuck s x o) ∨
  ¬ owner_stuck s x o ∧ ∃ s' x', save_owner k o s = Done tt s' ∧ quiet s s' ∧ stks s' !! k = Some x' ∧ owner x' = None.
Proof using Hlaws.
  intros Hi Hcur Hx Hown. destruct (i_stack s Hi k x Hx) as (bs & Hok).
  destruct (so_owner _ _ _ _ Hok o Hown) as (c & Hc & Hsh).
  destruct (i_co s Hi o c Hc) as [(_ & Hsh' & _)|(m & k0 & x0 & b & vb & Hco)]; [congruence|].
  assert (k0 = k) as -> by (destruct Hco; congruence). assert (x0 = x) as -> by (destruct Hco; congruence).
  pose proof Hco as []. pose proof co_loc as [].
  destruct (stack_bytes_defined s k x (sp (reg c)) bs Hok cl_sp) as (d & Hsb & Hd).
  assert (owns s o k c x b bs vb) as Hows.
  { constructor; try done; [apply Hok|apply Hok|by eapply inv_save_guard|by eapply (i_apart s Hi)]. }
  destruct (save_owner_spec Hlaws s o k c x b bs vb d (inv_guards s Hi) Hows Hd)
    as [(Ha & Hno)|(Hyes & b' & v & vb' & s' & Hrun & Hs' & Hv1 & Hv2 & Hv3 & Hv4 & Hv5 & Hv6 & Hv7)].
  { left. split; [done|]. by exists c, b. }
  right. split.
  { intros (c1 & b1 & Hc1 & Hb1 & Hno). assert (c1 = c) as -> by congruence. assert (b1 = b) as -> by congruence.
    by apply Hyes. }
  destruct (sp_ok_spec _ _ _ (so_layout _ _ _ _ Hok) cl_sp) as (_ & _ & Huse & _).
  set (x' := x⟨owner := None⟩⟨align_validsz := 0⟩). set (c' := c⟨save_stack := v⟩).
  assert (b ≠ p_base (sh_ptr x)) as Hbb by (by eapply (i_apart s Hi)).
  assert (b' = b ∨ blocks s !! b' = None) as Hfresh.
  { destruct (decide (b' = b)) as [|Hne]; [by left|]. destruct Hv7 as [|H7]; [done|]. right. by rewrite lookup_delete_ne in H7. }
  assert (b' ≠ p_base (sh_ptr x)) as Hbb'.
  { destruct Hfresh as [->|Hf]; [done|]. pose proof (so_bytes _ _ _ _ Hok). congruence. }
  assert (∀ bb, bb ≠ b → bb ≠ b' → blocks s' !! bb = blocks s !! bb) as Hframe.
  { intros bb H1 H2. rewrite Hs'. cbn. rewrite lookup_insert_ne by done. destruct (decide _); [done|]. by rewrite lookup_delete_ne. }
  assert (current s' = None) as Hcur' by (rewrite <- Hcur; apply (current_insert s s' o c c'); by rewrite ?Hs').
  assert (update s s' o c c' k x x' b b' vb' bs bs) as Hup.
  { rewrite Hs' in Hframe, Hcur' |- *. constructor; try done; cbn.
    - apply Hok.
    - rewrite lookup_insert_ne by done. pose proof (so_bytes _ _ _ _ Hok) as Hb0.
      destruct (decide _); [done|]. by rewrite lookup_delete_ne.
    - apply lookup_insert_eq.
    - intros bb H1 H2 _. by apply Hframe.
    - by exists None, 0.
    - intros co. congruence.
    - constructor; cbn; try done; [lia|lia].
    - apply (i_gtls s Hi).
    - by left. }
  exists s', x'. split_and!; [done| |rewrite Hs'; apply lookup_insert_eq|done].
  apply (update_quiet _ _ _ _ _ _ _ _ _ _ _ _ _ _ _ Hi Hco Hup); [by rewrite Hs'|by rewrite Hs'|].
  pose proof (update_self _ _ _ _ _ _ _ _ _ _ _ _ _ _ _ Hco Hup) as Hself.
  rewrite (image_co _ _ _ _ _ _ _ _ Hco), (image_co _ _ _ _ _ _ _ _ Hself).
  rewrite bool_decide_false by (cbn; congruence). rewrite bool_decide_true, Hsb by done. cbn. by rewrite Hv6.
Qed.

(** The coroutine that is resumed is copied to its stack. *)
Lemma restore_stack_keeps s k x co c :
  inv s → current s = None → cos s !! co = Some c → main_co c ≠ None → is_end c = 0 → share_stack c = Some k →
  stks s !! k = Some x → owner x = None →
  ∃ s' x', restore_stack k co s = Done tt s' ∧ quiet s s' ∧ stks s' !! k = Some x' ∧ owner x' = Some co.
Proof using.
  intros Hi Hcur Hc Hm He Hsh Hx Hown. destruct (i_stack s Hi k x Hx) as (bs & Hok).
  destruct (i_coroutine s co c Hi Hc Hm) as (m & k0 & x0 & b & vb & Hco).
  assert (k0 = k) as -> by (destruct Hco; congruence). assert (x0 = x) as -> by (destruct Hco; congruence).
  pose proof Hco as []. pose proof co_loc as [].
  assert (b ≠ p_base (sh_ptr x)) as Hbb by (by eapply (i_apart s Hi)).
  destruct (mem_read_defined vb 0 (valid_sz (save_stack c))) as [d Hd]; [lia..|].
  destruct (restore_stack_spec s co k c x b bs vb d) as (v & n & bs' & (Hv1 & Hv2 & Hv3) & Hlen & Hr & Hrun);
    try done; try apply Hok; [lia|].
  set (s' := s⟨blocks := _⟩⟨cos := _⟩⟨stks := _⟩) in Hrun.
  set (x' := x⟨align_validsz := n⟩⟨owner := Some co⟩). set (c' := c⟨save_stack := v⟩).
  assert (same_stack x x') as Hsame by (by exists (Some co), n).
  assert (current s' = None) as Hcur' by (rewrite <- Hcur; by apply (current_insert s s' co c c')).
  assert (update s s' co c c' k x x' b b vb bs bs') as Hup.
  { constructor; try done; cbn.
    - apply Hok.
    - apply lookup_insert_eq.
    - by rewrite lookup_insert_ne.
    - intros bb H1 H2 H3. by rewrite lookup_insert_ne.
    - by left.
    - congruence.
    - congruence.
    - congruence.
    - constructor; cbn; rewrite ?Hv2, ?Hv3; try done.
    - apply (i_gtls s Hi).
    - by left. }
  exists s', x'. split_and!; [done| |apply lookup_insert_eq|done].
  apply (update_quiet _ _ _ _ _ _ _ _ _ _ _ _ _ _ _ Hi Hco Hup); [done|done|].
  pose proof (update_self _ _ _ _ _ _ _ _ _ _ _ _ _ _ _ Hco Hup) as Hself.
  rewrite (image_co _ _ _ _ _ _ _ _ Hco), (image_co _ _ _ _ _ _ _ _ Hself).
  rewrite bool_decide_true by done. rewrite bool_decide_false by (rewrite Hown; done). rewrite Hd. cbn.
  unfold stack_bytes, s'. cbn. rewrite lookup_insert_eq. cbn.
  rewrite (same_stack_in_use x x') by done. rewrite (sp_of_in_use x (blen bs)) by (done || apply Hok).
  rewrite (cl_in He) by congruence. by rewrite Hr.
Qed.

(** The switch to a coroutine whose part of the stack is in place. *)
Lemma switch_spec s co c m k x b vb :
  inv s → co_ok s co c m k x b vb → owner x = Some co →
  ∃ s', (modify (fun s => s⟨aco_gtls_co := Some co⟩);; acosw m co) s = Done tt s' ∧ inv s' ∧
    current s' = Some co ∧ live s' = image s co ∧
    ∀ co' c', cos s !! co' = Some c' → main_co c' ≠ None → image s' co' = image s co'.
Proof using.
  intros Hi Hco Hown. pose proof Hco as [Hat Hm (cm & Hcm & Hmm) Hsh Hst Hp Hb Hl].
  assert (m ≠ co) as Hne by congruence.
  assert (main_ok cm) as Hmok by (destruct (i_co s Hi m cm Hcm) as [|(?&?&?&?&?&[])]; [done|congruence]).
  set (s' := s⟨aco_gtls_co := Some co⟩⟨cos := <[m := cm⟨reg := cpu s⟩]> (cos s)⟩⟨cpu := reg c⟩).
  assert ((modify (fun s => s⟨aco_gtls_co := Some co⟩);; acosw m co) s = Done tt s') as Hrun.
  { unfold modify, acosw, mbind, aco_mbind. cbn. rewrite (set_co_done _ _ _ cm) by done. cbn.
    unfold get_co. cbn. rewrite lookup_insert_ne, Hat by done. done. }
  assert (∀ q, cos s' !! q = cos s !! q ∨ ∃ c c', cos s !! q = Some c ∧ cos s' !! q = Some c' ∧ main_ok c ∧ main_ok c') as Hcos.
  { intros q. cbn. destruct (decide (q = m)) as [->|]; [right|left; by rewrite lookup_insert_ne].
    rewrite lookup_insert_eq. by exists cm, (cm⟨reg := cpu s⟩). }
  assert (current s' = Some co) as Hcur'.
  { unfold current. cbn. rewrite lookup_insert_ne, Hat by done. cbn. rewrite decide_False; [done|congruence]. }
  exists s'. split_and!; [done| |done| |].
  - eapply (main_inv s s'); try done.
    + intros g. cbn. intros [= <-]. eauto.
    + intros co' c' k' x' Hc' Hat' Hk' Hx'. assert (co' = co) as -> by congruence. assert (c' = c) as -> by congruence.
      assert (k' = k) as -> by congruence. assert (x' = x) as -> by congruence. split; [done|apply Hl].
  - rewrite (image_co _ _ _ _ _ _ _ _ Hco), bool_decide_true by done. unfold live. rewrite Hcur'. cbn.
    rewrite lookup_insert_ne, Hat by done. cbn. rewrite Hsh. cbn. by rewrite Hst.
  - intros co' c' Hc' Hm'. by eapply (main_keeps_image s s').
Qed.

(** What [aco_resume] leaves: the coroutine runs and finds its image; the others keep
    theirs. *)
Record resumed (s : aco_state) (co : Z) (s' : aco_state) : Prop := {
  re_inv : inv s';
  re_current : current s' = Some co;
  re_live : live s' = image s co;
  re_image co' c : cos s !! co' = Some c → main_co c ≠ None → image s' co' = image s co'
}.

Lemma switch_quiet s s1 co c m k x1 :
  quiet s s1 → cos s !! co = Some c → main_co c = Some m → share_stack c = Some k →
  stks s1 !! k = Some x1 → owner x1 = Some co →
  ∃ s', (modify (fun s => s⟨aco_gtls_co := Some co⟩);; acosw m co) s1 = Done tt s' ∧ resumed s co s'.
Proof using.
  intros Hq Hc Hm Hk Hx1 Hown1. destruct (q_cos _ _ Hq _ _ Hc) as (v & Hc1).
  destruct (i_coroutine s1 co _ (q_inv _ _ Hq) Hc1) as (m1 & k1 & y1 & b1 & vb1 & Hco1); [cbn; congruence|].
  assert (m1 = m) as -> by (destruct Hco1; cbn in *; congruence).
  assert (k1 = k) as -> by (destruct Hco1; cbn in *; congruence). assert (y1 = x1) as -> by (destruct Hco1; congruence).
  destruct (switch_spec s1 co _ m k x1 b1 vb1 (q_inv _ _ Hq) Hco1 Hown1) as (s' & Hrun & Hi' & Hcur' & Hlive & Him).
  exists s'. split; [done|]. constructor; [done|done| |].
  - rewrite Hlive. eapply (q_image _ _ Hq); [done|congruence].
  - intros co' c' Hc' Hne. destruct (q_cos _ _ Hq _ _ Hc') as (v' & Hc1').
    rewrite (Him co' _ Hc1') by done. by eapply (q_image _ _ Hq).
Qed.

Lemma restore_quiet s s1 co c m k x1 :
  quiet s s1 → current s = None → cos s !! co = Some c → main_co c = Some m → is_end c = 0 → share_stack c = Some k →
  stks s1 !! k = Some x1 → owner x1 = None →
  ∃ s', ((x ← get_stack k; aco_assert (bool_decide (owner x = None));; restore_stack k co);;
         modify (fun s => s⟨aco_gtls_co := Some co⟩);; acosw m co) s1 = Done tt s' ∧ resumed s co s'.
Proof using.
  intros Hq Hcur Hc Hm He Hk Hx1 Hown1. destruct (q_cos _ _ Hq _ _ Hc) as (v & Hc1).
  rewrite aco_bind_assoc, (aco_bind_done _ _ _ _ _ (get_stack_done _ _ _ Hx1)).
  rewrite aco_bind_assoc, assert_true by (by apply bool_decide_eq_true).
  destruct (restore_stack_keeps s1 k x1 co _ (q_inv _ _ Hq) ltac:(by rewrite (quiet_current s s1)) Hc1
    ltac:(cbn; congruence) He Hk Hx1 Hown1) as (s2 & x2 & Hrun & Hq2 & Hx2 & Hown2).
  rewrite (aco_bind_done _ _ _ _ _ Hrun). eapply (switch_quiet s s2); try done. by eapply quiet_trans.
Qed.

(** What [aco_resume] aborts for: a main coroutine, one that has ended, or no memory
    for the save stack of the owner of the stack. *)
Definition no_memory_to_save (s : aco_state) (co k : Z) : Prop :=
  ∃ x o, stks s !! k = Some x ∧ owner x = Some o ∧ o ≠ co ∧ owner_stuck s x o.
Definition resume_refused (s : aco_state) (co : Z) : Prop :=
  ∃ c, cos s !! co = Some c ∧
    (main_co c = None ∨ is_end c ≠ 0 ∨ ∃ k, share_stack c = Some k ∧ no_memory_to_save s co k).

Lemma resume_spec s co c :
  inv s → current s = None → cos s !! co = Some c →
  (aco_resume co s = Aborted ∧ resume_refused s co) ∨
  ¬ resume_refused s co ∧ ∃ s', aco_resume co s = Done tt s' ∧ resumed s co s' ∧ is_end c = 0 ∧ main_co c ≠ None.
Proof using Hlaws.
  intros Hi Hcur Hc. unfold aco_resume. rewrite (aco_bind_done _ _ _ _ _ (get_co_done _ _ _ Hc)).
  destruct (bool_decide (main_co c ≠ None) && (is_end c =? 0)) eqn:Eg.
  2: { left. split; [done|]. exists c. split; [done|]. apply andb_false_iff in Eg as [Eg|Eg].
       - left. apply bool_decide_eq_false in Eg. by destruct (main_co c); [destruct Eg|].
       - right. left. by apply Z.eqb_neq. }
  rewrite assert_true by done. apply andb_true_iff in Eg as [Hm%bool_decide_eq_true He%Z.eqb_eq].
  destruct (i_coroutine s co c Hi Hc Hm) as (m & k & x & b & vb & Hco). pose proof Hco as [_ Hm' _ Hsh Hst _ _ _].
  rewrite (aco_bind_done _ _ s m s) by (by rewrite Hm'). rewrite (aco_bind_done _ _ s k s) by (by rewrite Hsh).
  rewrite (aco_bind_done _ _ _ _ _ (get_stack_done _ _ _ Hst)).
  assert ((∀ o, owner x = Some o → o ≠ co → ¬ owner_stuck s x o) → ¬ resume_refused s co) as Hok.
  { intros Hno (c1 & Hc1 & Hr). assert (c1 = c) as -> by congruence.
    destruct Hr as [?|[?|(k1 & Hk1 & x1 & o & Hx1 & Ho & Hne & Hst1)]]; [done|done|].
    assert (k1 = k) as -> by congruence. assert (x1 = x) as -> by congruence. by apply (Hno o). }
  pose proof (quiet_refl s Hi) as Hrefl. destruct (decide (owner x = Some co)) as [Hown|Hown].
  { rewrite bool_decide_false by naive_solver. rewrite (aco_bind_done _ _ s tt s) by done. right.
    split; [apply Hok; congruence|].
    destruct (switch_quiet s s co c m k x) as (s' & ? & ?); eauto 10. }
  rewrite bool_decide_true by done. rewrite aco_bind_assoc.
  destruct (owner x) as [o|] eqn:Eo.
  - destruct (save_owner_keeps s k x o Hi Hcur Hst Eo) as [(Ha & Hno)|(Hyes & s1 & x1 & Hrun & Hq & Hx1 & Ho1)].
    + left. split; [by apply aco_bind_aborted|]. exists c. split; [done|]. right. right. exists k. split; [done|].
      exists x, o. split_and!; try done. congruence.
    + right. split; [apply Hok; congruence|]. rewrite (aco_bind_done _ _ _ _ _ Hrun). destruct (restore_quiet s s1 co c m k x1) as (s' & ? & ?); eauto 10.
  - right. split; [apply Hok; congruence|]. rewrite (aco_bind_done _ _ s tt s) by done. destruct (restore_quiet s s co c m k x) as (s' & ? & ?); eauto 10.
Qed.

(** ** Yielding, ending and running *)

(** A coroutine has given the processor back; the others have their image. *)
Record yielded (s : aco_state) (co : Z) (s' : aco_state) : Prop := {
  ye_inv : inv s';
  ye_current : current s' = None;
  ye_image co' c : cos s !! co' = Some c → main_co c ≠ None → co' ≠ co → image s' co' = image s co'
}.

Lemma live_co s co c m k x b vb :
  inv s → current s = Some co → co_ok s co c m k x b vb →
  owner x = Some co ∧ sp_ok x (sp (cpu s)) = true ∧
  live s = (d ← stack_bytes s x (sp (cpu s)); Some (cpu s, d)).
Proof using.
  intros Hi Hcur [Hat Hm Him Hsh Hst Hp Hb Hl]. destruct (i_current s Hi co c k x) as [Ho Hs]; [done..|].
  split_and!; [done|done|]. unfold live. rewrite Hcur. cbn. rewrite Hat. cbn. rewrite Hsh. cbn. by rewrite Hst.
Qed.

Lemma live_defined s co : inv s → current s = Some co → is_Some (live s).
Proof using.
  intros Hi Hcur. destruct (current_co s co Hi Hcur) as (c & m & k & x & b & vb & Hco & _).
  destruct (live_co s co c m k x b vb Hi Hcur Hco) as (_ & Hsp & ->).
  destruct (i_stack s Hi k x) as (bs & Hok); [apply Hco|].
  destruct (stack_bytes_defined s k x (cpu s).(sp) bs Hok Hsp) as (d & -> & _). by eexists.
Qed.

(** What the switch back to the main coroutine leaves, if the coroutine and its stack
    have become [c'] and [x']. *)
Lemma yield_update s co c c' m k x x' b vb :
  inv s → current s = Some co → co_ok s co c m k x b vb →
  same_stack x x' → (∀ o, owner x' = Some o → o = co) →
  main_co c' = main_co c → share_stack c' = share_stack c → save_stack c' = save_stack c →
  (is_end c' = 0 → owner x' = Some co) →
  ∃ s', (aco_yield1 co;; aco_resume_return co) (s⟨cos := <[co := c']> (cos s)⟩⟨stks := <[k := x']> (stks s)⟩) = Done tt s' ∧
    yielded s co s' ∧ co_ok s' co (c'⟨reg := cpu s⟩) m k x' b vb ∧ blocks s' = blocks s.
Proof using.
  intros Hi Hcur Hco Hsame Hown' Hmc Hsc Hsv Hend. destruct (live_co s co c m k x b vb Hi Hcur Hco) as (Hown & Hsp & _).
  pose proof Hco as [Hat Hm (cm & Hcm & Hmm) Hsh Hst Hp Hb Hl]. destruct (i_stack s Hi k x Hst) as (bs & Hok).
  assert (m ≠ co) as Hne by congruence.
  set (s1 := s⟨cos := _⟩⟨stks := _⟩). set (c2 := c'⟨reg := cpu s⟩).
  set (s' := s1⟨cos := <[co := c2]> (cos s)⟩⟨cpu := reg cm⟩⟨aco_gtls_co := Some m⟩).
  assert ((aco_yield1 co;; aco_resume_return co) s1 = Done tt s') as Hrun.
  { unfold aco_yield1. rewrite aco_bind_assoc, (aco_bind_done _ _ s1 c' s1) by (apply get_co_done, lookup_insert_eq).
    rewrite aco_bind_assoc, (aco_bind_done _ _ s1 m s1) by (by rewrite Hmc, Hm).
    unfold acosw. rewrite aco_bind_assoc, (aco_bind_done _ _ s1 (cpu s) s1) by done.
    rewrite aco_bind_assoc, (aco_bind_done _ _ s1 tt (s1⟨cos := <[co := c2]> (cos s)⟩))
      by (rewrite (set_co_done _ _ _ c') by (apply lookup_insert_eq); unfold s1; cbn; by rewrite insert_insert_eq).
    unfold get_co, aco_resume_return, modify, mbind, aco_mbind. cbn. rewrite lookup_insert_ne, Hcm by done. cbn.
    unfold get_co. cbn. rewrite lookup_insert_eq. cbn. unfold s', c2. by rewrite Hmc, Hm. }
  assert (update s s' co c c2 k x x' b b vb bs bs) as Hup.
  { constructor; try done; cbn.
    - apply Hok.
    - apply Hok.
    - by left.
    - congruence.
    - by rewrite Hsv.
    - destruct Hl. constructor; cbn; rewrite ?Hsv; try done.
      + by rewrite (same_stack_sp x x').
      + by destruct Hsame as (? & ? & ->).
      + intros He Hn. by destruct Hn; apply Hend.
    - intros g [= <-]. eauto.
    - left. unfold current. cbn. rewrite lookup_insert_ne, Hcm by done. cbn. by rewrite decide_True. }
  exists s'. split_and!; [done| |by eapply update_self|done]. constructor.
  - by eapply update_inv.
  - unfold current. cbn. rewrite lookup_insert_ne, Hcm by done. cbn. by rewrite decide_True.
  - intros co' c0 Hc0 Hm0 Hne0. by eapply update_image.
Qed.

(** A coroutine that yields has as its image what it has as it runs. *)
Lemma yield_spec s co :
  inv s → current s = Some co →
  ∃ s', (aco_yield1 co;; aco_resume_return co) s = Done tt s' ∧ yielded s co s' ∧ image s' co = live s.
Proof using.
  intros Hi Hcur. destruct (current_co s co Hi Hcur) as (c & m & k & x & b & vb & Hco & _).
  destruct (live_co s co c m k x b vb Hi Hcur Hco) as (Hown & Hsp & Hlive).
  destruct (yield_update s co c c m k x x b vb) as (s' & Hrun & Hy & Hco' & Hbl); try done; [congruence|].
  exists s'. split_and!; [|done|].
  - rewrite <- Hrun. rewrite (insert_id (cos s)), (insert_id (stks s)) by apply Hco. by destruct s.
  - rewrite (image_co _ _ _ _ _ _ _ _ Hco'), bool_decide_true, Hlive by done. unfold stack_bytes. by rewrite Hbl.
Qed.

Lemma exit_spec s co :
  inv s → current s = Some co →
  ∃ s', (aco_exit1 co;; aco_resume_return co) s = Done tt s' ∧ yielded s co s'.
Proof using.
  intros Hi Hcur. destruct (current_co s co Hi Hcur) as (c & m & k & x & b & vb & Hco & _).
  destruct (live_co s co c m k x b vb Hi Hcur Hco) as (Hown & Hsp & _). pose proof Hco as [Hat _ _ Hsh Hst _ _ _].
  destruct (yield_update s co c (c⟨is_end := 1⟩) m k x (x⟨owner := None⟩⟨align_validsz := 0⟩) b vb) as (s' & Hrun & Hy & _);
    try done; [by exists None, 0|].
  exists s'. split; [|done]. rewrite <- Hrun. unfold aco_exit1.
  rewrite aco_bind_assoc, (aco_bind_done _ _ _ _ _ (set_co_done _ _ _ _ Hat)). set (s1 := s⟨cos := _⟩).
  rewrite aco_bind_assoc, (aco_bind_done _ _ s1 (c⟨is_end := 1⟩) s1) by (apply get_co_done, lookup_insert_eq).
  rewrite aco_bind_assoc, (aco_bind_done _ _ s1 k s1) by (cbn; by rewrite Hsh).
  rewrite aco_bind_assoc, (aco_bind_done _ _ s1 x s1) by (by apply get_stack_done).
  rewrite aco_bind_assoc, assert_true by (by apply bool_decide_eq_true).
  by rewrite aco_bind_assoc, (aco_bind_done _ _ _ _ _ (set_stack_done k _ s1 x Hst)).
Qed.

(** The code of the program changes the image of no coroutine that does not run. *)
Lemma run_spec s r bs s' :
  inv s → run_code r bs s = Some s' →
  inv s' ∧ current s' = current s ∧
  ∀ co c, cos s !! co = Some c → main_co c ≠ None → current s ≠ Some co → image s' co = image s co.
Proof using.
  intros Hi. unfold run_code. destruct (current s) as [co|] eqn:Hcur.
  - destruct (current_co s co Hi Hcur) as (c & m & k & x & b & vb & Hco & Hg).
    pose proof Hco as [Hat Hm Him Hsh Hst Hp Hb Hl]. destruct (i_stack s Hi k x Hst) as (old & Hok).
    destruct (live_co s co c m k x b vb Hi Hcur Hco) as (Hown & Hsp & _).
    rewrite Hat. cbn. rewrite Hsh. cbn. rewrite Hst. cbn. rewrite (so_bytes _ _ _ _ Hok). cbn.
    destruct (_ && _) eqn:E'; [|done]. intros [= <-]. rewrite !andb_true_iff in E'. destruct E' as [[Hspr Hlen%Z.eqb_eq] _].
    set (s' := s⟨cpu := r⟩⟨blocks := <[p_base (sh_ptr x) := bs]> (blocks s)⟩).
    assert (current s' = Some co) as Hcur' by done. pose proof Hl as [].
    assert (b ≠ p_base (sh_ptr x)) by (by eapply (i_apart s Hi)).
    assert (update s s' co c c k x x b b vb old bs) as Hup.
    { constructor; try done; cbn.
      - by rewrite insert_id.
      - by rewrite insert_id.
      - apply Hok.
      - apply lookup_insert_eq.
      - by rewrite lookup_insert_ne.
      - intros bb _ _ Hbb. by rewrite lookup_insert_ne.
      - by left.
      - congruence.
      - congruence.
      - apply (i_gtls s Hi).
      - by right. }
    split_and!; [by eapply update_inv|done|]. intros co' c' Hc' Hm' Hne. eapply update_image; try done. congruence.
  - intros [= <-]. set (s' := s⟨cpu := r⟩).
    assert (∀ q, cos s' !! q = cos s !! q ∨ ∃ c c', cos s !! q = Some c ∧ cos s' !! q = Some c' ∧ main_ok c ∧ main_ok c')
      as Hcos by (by left). assert (current s' = None) as Hcur' by done.
    split_and!; [|done|].
    + eapply (main_inv s s'); try done; [apply (i_gtls s Hi)|]. intros co c k x Hc. congruence.
    + intros co c Hc Hm _. by eapply (main_keeps_image s s').
Qed.

End steps.
