(* ===== verification/AcoAlloc.v ===== *)
(** * Making and freeing coroutines and stacks

    The calls that allocate and free keep the invariant, and the image of every
    coroutine that is left. *)

From S2P Require Import Prelude Aco AcoProofs AcoInv AcoSteps.

#[local] Hint Resolve same_stack_refl : core.

(** A coroutine that is still there, with the same stack and save stack. *)
Lemma co_ok_frame s s' co c m k x b vb :
  co_ok s co c m k x b vb → cos s' !! co = Some c → is_main s' m → stks s' !! k = Some x → blocks s' !! b = Some vb →
  co_ok s' co c m k x b vb.
Proof. by intros [] ? ? ? ?. Qed.

Lemma image_frame s s' co c m k x b vb :
  co_ok s co c m k x b vb → co_ok s' co c m k x b vb → blocks s' !! p_base (sh_ptr x) = blocks s !! p_base (sh_ptr x) →
  image s' co = image s co.
Proof.
  intros H H' Hb. rewrite (image_co _ _ _ _ _ _ _ _ H), (image_co _ _ _ _ _ _ _ _ H'). unfold stack_bytes. by rewrite Hb.
Qed.

(** What these calls keep: every coroutine but the one that is freed. *)
Record kept (freed : option Z) (s s' : aco_state) : Prop := {
  ke_inv : inv s';
  ke_current : current s' = current s;
  ke_image co c : cos s !! co = Some c → main_co c ≠ None → freed ≠ Some co → image s' co = image s co
}.

Lemma stack_base_block s k x : inv s → stks s !! k = Some x → is_Some (blocks s !! p_base (sh_ptr x)).
Proof. intros Hi Hx. destruct (i_stack s Hi k x Hx) as (bs & []). eauto. Qed.
Lemma save_block s co c b : inv s → cos s !! co = Some c → sv_ptr (save_stack c) = Some b → is_Some (blocks s !! b).
Proof.
  intros Hi Hc Hb. destruct (i_co s Hi co c Hc) as [(_ & _ & ?)|(m & k & x & b' & vb & [])]; [congruence|].
  assert (b' = b) as -> by congruence. eauto.
Qed.

(** ** A new coroutine *)

Lemma new_co_kept s p c m k x b blk :
  inv s → cos s !! p = None → blocks s !! b = None → is_main s m → main_co c = Some m → share_stack c = Some k →
  stks s !! k = Some x → sv_ptr (save_stack c) = Some b → co_local p c x blk →
  kept None s (s⟨blocks := <[b := blk]> (blocks s)⟩⟨cos := <[p := c]> (cos s)⟩).
Proof.
  intros Hi Hp Hb Hm Hmc Hsc Hx Hsv Hl. set (s' := s⟨blocks := _⟩⟨cos := _⟩).
  assert (∀ q c', cos s !! q = Some c' → cos s' !! q = Some c') as Hkeep.
  { intros q c' Hq. cbn. rewrite lookup_insert_ne; [done|]. intros <-. congruence. }
  assert (∀ q, is_main s q → is_main s' q) as Hmain by (intros q (c' & Hc' & ?); exists c'; split; [by apply Hkeep|done]).
  assert (∀ bb, is_Some (blocks s !! bb) → blocks s' !! bb = blocks s !! bb) as Hbl.
  { intros bb [l Hl']. cbn. rewrite lookup_insert_ne; [done|]. intros <-. congruence. }
  assert (∀ q c' m' k' x' b' vb', co_ok s q c' m' k' x' b' vb' → co_ok s' q c' m' k' x' b' vb') as Hco.
  { intros q c' m' k' x' b' vb' Hq. pose proof Hq as []. apply (co_ok_frame _ _ _ _ _ _ _ _ _ Hq); auto.
    rewrite Hbl; eauto. }
  assert (co_ok s' p c m k x b blk) as Hself.
  { constructor; auto; cbn; apply lookup_insert_eq. }
  assert (∀ q c' b', cos s !! q = Some c' → sv_ptr (save_stack c') = Some b' → b' ≠ b) as Hsb.
  { intros q c' b' Hq Hb' ->. destruct (save_block s q c' b Hi Hq Hb'). congruence. }
  assert (∀ q c', cos s' !! q = Some c' → q = p ∧ c' = c ∨ q ≠ p ∧ cos s !! q = Some c') as Hinv.
  { intros q c'. cbn. intros [[<- <-]|[? ?]]%lookup_insert_Some; auto. }
  assert (current s' = current s) as Hcur.
  { apply current_ext; [done|]. intros g Eg. destruct (i_gtls s Hi g Eg) as [cg Hg]. by rewrite (Hkeep g cg Hg), Hg. }
  constructor; [|done|].
  - constructor.
    + intros k' x' Hx'. destruct (i_stack s Hi k' x' Hx') as (bs & []). exists bs. constructor; try done.
      * by rewrite Hbl by eauto.
      * intros o (c' & ? & ?)%so_owner. exists c'. eauto.
    + intros q c' [[-> ->]|[_ Hq]]%Hinv; [right; eauto 10|].
      destruct (i_co s Hi q c' Hq) as [|(?&?&?&?&?&?)]; [by left|right]. eauto 10.
    + apply (i_guard s Hi).
    + apply (i_stks s Hi).
    + intros q q' c1 c2 b' [[-> ->]|[Hn Hq]]%Hinv [[-> ->]|[Hn' Hq']]%Hinv H1 H2; try done.
      * assert (b' = b) as -> by congruence. by destruct (Hsb q' c2 b).
      * assert (b' = b) as -> by congruence. by destruct (Hsb q c1 b).
      * by eapply (i_saves s Hi).
    + intros q c' b' k' x' [[-> ->]|[Hn Hq]]%Hinv H1 H2; [|by eapply (i_apart s Hi)].
      assert (b' = b) as -> by congruence. intros Heq. destruct (stack_base_block s k' x' Hi H2) as [l Hl']. congruence.
    + intros g Hg. destruct (i_gtls s Hi g Hg) as [cg ?]. eauto.
    + intros q c' k' x' Hq. rewrite Hcur in Hq. destruct (current_co s q Hi Hq) as (c0 & ?&?&?&?&?&[Hat _ _ _ _ _ _ _]&_).
      rewrite (Hkeep q c0 Hat). intros [= ->]. by apply (i_current s Hi q).
  - intros q c' Hq Hm' _. destruct (i_coroutine s q c' Hi Hq Hm') as (m' & k' & x' & b' & vb' & Hq').
    eapply image_frame; [exact Hq'|by apply Hco|]. apply Hbl. eapply stack_base_block; [done|apply Hq'].
Qed.

(** ** A coroutine is freed *)

Lemma free_co_kept s co c m k x b vb :
  inv s → co_ok s co c m k x b vb → (∀ k y, stks s !! k = Some y → owner y ≠ Some co) → aco_gtls_co s ≠ Some co →
  kept (Some co) s (s⟨blocks := delete b (blocks s)⟩⟨cos := delete co (cos s)⟩).
Proof.
  intros Hi Hco Hno Hg. pose proof Hco as [Hat Hm Him Hsh Hst Hp Hb Hl]. set (s' := s⟨blocks := _⟩⟨cos := _⟩).
  assert (∀ q c', q ≠ co → cos s !! q = Some c' → cos s' !! q = Some c') as Hkeep.
  { intros q c' Hne Hq. cbn. by rewrite lookup_delete_ne. }
  assert (∀ q, is_main s q → is_main s' q) as Hmain.
  { intros q (c' & Hc' & Hn). exists c'. split; [|done]. apply Hkeep; [congruence|done]. }
  assert (∀ bb, bb ≠ b → blocks s' !! bb = blocks s !! bb) as Hbl by (intros; cbn; by rewrite lookup_delete_ne).
  assert (∀ q c' m' k' x' b' vb', q ≠ co → co_ok s q c' m' k' x' b' vb' → co_ok s' q c' m' k' x' b' vb') as Hco'.
  { intros q c' m' k' x' b' vb' Hne Hq. pose proof Hq as []. apply (co_ok_frame _ _ _ _ _ _ _ _ _ Hq); auto.
    rewrite Hbl; [done|]. intros ->. apply Hne. by eapply (i_saves s Hi). }
  assert (∀ k y, stks s !! k = Some y → p_base (sh_ptr y) ≠ b) as Hbase.
  { intros k' y Hy. apply not_eq_sym. by eapply (i_apart s Hi). }
  assert (∀ q c', cos s' !! q = Some c' → q ≠ co ∧ cos s !! q = Some c') as Hinv.
  { intros q c'. cbn. rewrite lookup_delete_Some. intros [? ?]. auto. }
  assert (current s' = current s) as Hcur.
  { apply current_ext; [done|]. intros g Eg. cbn. rewrite lookup_delete_ne; congruence. }
  constructor; [|done|].
  - constructor.
    + intros k' x' Hx'. destruct (i_stack s Hi k' x' Hx') as (bs & []). exists bs. constructor; try done.
      * rewrite Hbl; [done|]. by eapply Hbase.
      * intros o Ho. destruct (so_owner o Ho) as (c' & ? & ?). exists c'. split; [|done]. apply Hkeep; [|done].
        intros ->. by eapply Hno.
    + intros q c' [Hne Hq]%Hinv.
      destruct (i_co s Hi q c' Hq) as [|(?&?&?&?&?&?)]; [by left|right]. eauto 10.
    + apply (i_guard s Hi).
    + apply (i_stks s Hi).
    + intros q q' c1 c2 b' [_ Hq]%Hinv [_ Hq']%Hinv H1 H2. by eapply (i_saves s Hi).
    + intros q c' b' k' x' [_ Hq]%Hinv H1 H2. by eapply (i_apart s Hi).
    + intros g Hgg. destruct (i_gtls s Hi g Hgg) as [cg ?]. exists cg. apply Hkeep; [by intros ->|done].
    + intros q c' k' x' Hq [_ Hc']%Hinv. rewrite Hcur in Hq. by apply (i_current s Hi q).
  - intros q c' Hq Hm' Hfr. assert (q ≠ co) as Hne by congruence. destruct (i_coroutine s q c' Hi Hq Hm') as (m' & k' & x' & b' & vb' & Hq').
    eapply image_frame; [exact Hq'|by apply Hco'|]. apply Hbl. eapply Hbase. apply Hq'.
Qed.

(** ** Stacks *)

Lemma new_stack_kept s k x bs :
  inv s → stks s !! k = None → blocks s !! p_base (sh_ptr x) = None → owner x = None → layout x (blen bs) →
  (guard_page_enabled x ≠ 0 → real_ptr x = Some (p_base (sh_ptr x)) ∧ real_sz x = blen bs) →
  ∀ gs, gs = guards s ∧ p_off (sh_ptr x) = 0 ∨
        gs = <[p_base (sh_ptr x) := p_off (sh_ptr x)]> (guards s) ∧ guard_page_enabled x ≠ 0 →
  kept None s (s⟨blocks := <[p_base (sh_ptr x) := bs]> (blocks s)⟩⟨guards := gs⟩⟨stks := <[k := x]> (stks s)⟩).
Proof.
  intros Hi Hk Hb Hown Hlay Hreal gs Hgs. set (s' := s⟨blocks := _⟩⟨guards := gs⟩⟨stks := _⟩).
  assert (guards s !! p_base (sh_ptr x) = None) as Hg0 by (apply guards_fresh; [by apply inv_guards|done]).
  assert (∀ k' y, stks s !! k' = Some y → stks s' !! k' = Some y) as Hkeep.
  { intros k' y Hy. cbn. rewrite lookup_insert_ne; [done|]. intros <-. congruence. }
  assert (∀ bb, is_Some (blocks s !! bb) → bb ≠ p_base (sh_ptr x) ∧ blocks s' !! bb = blocks s !! bb) as Hbl.
  { intros bb [l Hl']. cbn. assert (p_base (sh_ptr x) ≠ bb) by (intros <-; congruence). by rewrite lookup_insert_ne. }
  assert (∀ bb, bb ≠ p_base (sh_ptr x) → guards s' !! bb = guards s !! bb) as Hgd.
  { intros bb Hne. cbn. destruct Hgs as [[-> _]|[-> _]]; [done|]. by rewrite lookup_insert_ne. }
  assert (∀ q c' m' k' x' b' vb', co_ok s q c' m' k' x' b' vb' → co_ok s' q c' m' k' x' b' vb') as Hco.
  { intros q c' m' k' x' b' vb' Hq. pose proof Hq as []. apply (co_ok_frame _ _ _ _ _ _ _ _ _ Hq); auto.
    rewrite (proj2 (Hbl b' ltac:(eauto))). done. }
  assert (∀ k' y, stks s' !! k' = Some y → k' = k ∧ y = x ∨ k' ≠ k ∧ stks s !! k' = Some y) as Hinv.
  { intros k' y. cbn. intros [[<- <-]|[? ?]]%lookup_insert_Some; auto. }
  assert (∀ k' y, stks s !! k' = Some y → p_base (sh_ptr y) ≠ p_base (sh_ptr x)) as Hbase.
  { intros k' y Hy. apply Hbl. by eapply stack_base_block. }
  assert (current s' = current s) as Hcur by (by apply current_ext).
  constructor; [|done|].
  - constructor.
    + intros k' y [[-> ->]|[Hne Hy]]%Hinv.
      * exists bs. constructor; try done; [apply lookup_insert_eq| | |intros o; congruence].
        -- destruct Hlay. cbn. destruct Hgs as [[-> _]|[-> _]]; [by rewrite Hg0|by rewrite lookup_insert_eq].
        -- intros He. cbn. by destruct Hgs as [[-> _]|[_ ?]].
      * destruct (i_stack s Hi k' y Hy) as (bs' & []). exists bs'.
        constructor; rewrite ?(Hgd _ (Hbase k' y Hy)); try done. by rewrite (proj2 (Hbl _ ltac:(eauto))).
    + intros q c' Hq. destruct (i_co s Hi q c' Hq) as [|(?&?&?&?&?&?)]; [by left|right]. eauto 10.
    + intros b g Hbg. destruct (decide (b = p_base (sh_ptr x))) as [->|Hne].
      * exists k, x. split; [apply lookup_insert_eq|done].
      * rewrite Hgd in Hbg by done. destruct (i_guard s Hi b g Hbg) as (k' & y & ? & ?). eauto.
    + intros k1 k2 y1 y2 [[-> ->]|[_ H1]]%Hinv [[-> ->]|[_ H2]]%Hinv Heq; try done.
      * by destruct (Hbase k2 y2).
      * by destruct (Hbase k1 y1).
      * by eapply (i_stks s Hi).
    + apply (i_saves s Hi).
    + intros q c' b k' y Hq Hb' [[-> ->]|[_ Hy]]%Hinv; [|by eapply (i_apart s Hi)].
      apply Hbl. by eapply save_block.
    + apply (i_gtls s Hi).
    + intros q c' k' y Hq Hc' Hk' [[-> ->]|[_ Hy]]%Hinv; [|by eapply (i_current s Hi)].
      destruct (i_co s Hi q c' Hc') as [(_ & ? & _)|(m0&k0&y0&b0&vb0&[])]; congruence.
  - intros q c' Hq Hm' _. destruct (i_coroutine s q c' Hi Hq Hm') as (m' & k' & x' & b' & vb' & Hq').
    eapply image_frame; [exact Hq'|by apply Hco|]. apply Hbl. eapply stack_base_block; [done|apply Hq'].
Qed.

Lemma free_stack_kept s k x :
  inv s → stks s !! k = Some x → (∀ co c, cos s !! co = Some c → share_stack c ≠ Some k) →
  kept None s (s⟨blocks := delete (p_base (sh_ptr x)) (blocks s)⟩⟨guards := delete (p_base (sh_ptr x)) (guards s)⟩
           ⟨stks := delete k (stks s)⟩).
Proof.
  intros Hi Hx Hno. set (s' := s⟨blocks := _⟩⟨guards := _⟩⟨stks := _⟩).
  assert (∀ k' y, stks s' !! k' = Some y → k' ≠ k ∧ stks s !! k' = Some y) as Hinv.
  { intros k' y. cbn. rewrite lookup_delete_Some. intros [? ?]; auto. }
  assert (∀ bb, bb ≠ p_base (sh_ptr x) → blocks s' !! bb = blocks s !! bb) as Hbl.
  { intros bb Hne. cbn. by rewrite lookup_delete_ne. }
  assert (∀ bb, bb ≠ p_base (sh_ptr x) → guards s' !! bb = guards s !! bb) as Hgd.
  { intros bb Hne. cbn. by rewrite lookup_delete_ne. }
  assert (∀ k' y, k' ≠ k → stks s !! k' = Some y → p_base (sh_ptr y) ≠ p_base (sh_ptr x)) as Hbase.
  { intros k' y Hne Hy Heq. apply Hne. by eapply (i_stks s Hi). }
  assert (∀ q c' m' k' x' b' vb', co_ok s q c' m' k' x' b' vb' → co_ok s' q c' m' k' x' b' vb') as Hco.
  { intros q c' m' k' x' b' vb' Hq. pose proof Hq as []. apply (co_ok_frame _ _ _ _ _ _ _ _ _ Hq); auto.
    - cbn. rewrite lookup_delete_ne; [done|]. intros <-. by eapply Hno.
    - rewrite Hbl; [done|]. by eapply (i_apart s Hi). }
  assert (current s' = current s) as Hcur by (by apply current_ext).
  constructor; [|done|].
  - constructor.
    + intros k' y [Hne Hy]%Hinv. destruct (i_stack s Hi k' y Hy) as (bs' & []). exists bs'.
      constructor; rewrite ?(Hgd _ (Hbase k' y Hne Hy)); try done. by rewrite Hbl by (by eapply Hbase).
    + intros q c' Hq. destruct (i_co s Hi q c' Hq) as [|(?&?&?&?&?&?)]; [by left|right]. eauto 10.
    + intros b g. cbn. rewrite lookup_delete_Some. intros [Hne Hg]. destruct (i_guard s Hi b g Hg) as (k' & y & Hy & Hp).
      exists k', y. split; [|done]. rewrite lookup_delete_ne; [done|]. intros <-. congruence.
    + intros k1 k2 y1 y2 [_ H1]%Hinv [_ H2]%Hinv Heq. by eapply (i_stks s Hi).
    + apply (i_saves s Hi).
    + intros q c' b k' y Hq Hb' [_ Hy]%Hinv. by eapply (i_apart s Hi).
    + apply (i_gtls s Hi).
    + intros q c' k' y Hq Hc' Hk' [_ Hy]%Hinv. by eapply (i_current s Hi).
  - intros q c' Hq Hm' _. destruct (i_coroutine s q c' Hi Hq Hm') as (m' & k' & x' & b' & vb' & Hq').
    eapply image_frame; [exact Hq'|by apply Hco|]. apply Hbl. destruct Hq' as [Hat _ _ Hsh Hst _ _ _].
    eapply Hbase; [|exact Hst]. intros ->. by eapply Hno.
Qed.

(** ** The calls *)

Section calls.
Context `{E : AcoEnv} (Hlaws : alloc_laws).

(** There is no memory for the coroutine or its save stack. *)
Definition create_refused (save_sz : Z) (s : aco_state) : Prop :=
  alloc s sizeof_aco = None ∨ alloc s (if save_sz =? 0 then 64 else save_sz) = None.

Lemma create_spec s m k save_sz fn a :
  inv s → (∃ c, cos s !! m = Some c ∧ main_co c = None) → is_Some (stks s !! k) → 0 <= save_sz →
  (aco_create (Some m) (Some k) save_sz fn a s = Aborted ∧ create_refused save_sz s) ∨
  ¬ create_refused save_sz s ∧ ∃ p s', aco_create (Some m) (Some k) save_sz fn a s = Done p s' ∧ kept None s s'.
Proof using Hlaws.
  intros Hi Hm [x Hx] Hsz. unfold aco_create, create_refused. rewrite (aco_bind_done _ _ s (alloc s sizeof_aco) s) by done.
  destruct (alloc s sizeof_aco) as [p|] eqn:Ep; [|left; auto].
  destruct (al_alloc Hlaws _ _ _ Ep ltac:(done)) as (_ & _ & Hp & _ & _).
  rewrite (aco_bind_done _ _ s p s), (aco_bind_done _ _ s k s), (aco_bind_done _ _ _ _ _ (get_stack_done _ _ _ Hx)) by done.
  rewrite (aco_bind_done _ _ s (aco_gtls_fpucw_mxcsr s) s) by done. cbv zeta.
  set (n := if save_sz =? 0 then 64 else save_sz).
  assert (0 < n) as Hn by (unfold n; destruct (Z.eqb_spec save_sz 0); lia).
  destruct (alloc s n) as [b|] eqn:Eb.
  2: { left. split; [|auto]. by rewrite (aco_bind_done _ _ s None s) by (unfold malloc; by rewrite Eb). }
  destruct (al_alloc Hlaws _ _ _ Eb Hn) as (Hb & _ & _ & Hb0 & Hbn).
  rewrite (aco_bind_done _ _ s (Some b) (s⟨blocks := <[b := junk_block b n]> (blocks s)⟩)) by (unfold malloc; by rewrite Eb).
  rewrite (aco_bind_done _ _ _ b (s⟨blocks := <[b := junk_block b n]> (blocks s)⟩)) by done.
  right. split; [by intros [?|?]|]. exists p. eexists. split; [done|].
  destruct (i_stack s Hi k x Hx) as (bs & [_ Hlay _ _ _ _]). destruct Hlay.
  eapply (new_co_kept s p _ m k x b (junk_block b n)); try done. constructor; cbn; try lia.
  - unfold junk_block, blen. rewrite length_fmap, length_seqZ. lia.
  - unfold sp_ok. rewrite !andb_true_iff, Z.eqb_eq, !Z.leb_le. unfold address. rewrite ly_ret_base, ly_high_base. lia.
  - unfold in_use. intros _ _. lia.
Qed.

Lemma new_stack_spec s sz guard :
  inv s → 0 <= sz < 2 ^ 64 →
  (aco_share_stack_new2 sz guard s = Aborted ∧ stack_refused sz guard s) ∨
  ¬ stack_refused sz guard s ∧ ∃ k s', aco_share_stack_new2 sz guard s = Done k s' ∧ kept None s s'.
Proof using Hlaws.
  intros Hi Hsz. destruct (share_stack_new2_spec Hlaws sz guard s (inv_guards s Hi) Hsz)
    as [Ha|(Hyes & k & x & bs & Hrun & Hk & Hb & Hown & Hlay & _ & Hoff & Hen & Hreal & _)]; [by left|right].
  split; [done|]. exists k. eexists. split; [exact Hrun|]. apply new_stack_kept; try done.
  - rewrite Hen. intros He. apply Hreal. intros ->. by destruct He.
  - destruct (Z.eqb_spec guard 0); [left; auto|right]. by rewrite Hen.
Qed.

Lemma destroy_stack_spec s k :
  inv s → is_Some (stks s !! k) → (∀ co c, cos s !! co = Some c → share_stack c ≠ Some k) →
  ∃ s', aco_share_stack_destroy k s = Done tt s' ∧ kept None s s'.
Proof using.
  intros Hi [x Hx] Hno. destruct (i_stack s Hi k x Hx) as (bs & [Hbs _ _ Hreal Hplain _]).
  eexists. split; [|by apply (free_stack_kept s k x)]. unfold aco_share_stack_destroy.
  rewrite (aco_bind_done _ _ _ _ _ (get_stack_done _ _ _ Hx)).
  destruct (Z.eqb_spec (guard_page_enabled x) 0) as [Hz|Hnz]; cbn [negb].
  - rewrite (aco_bind_done _ _ s tt (s⟨blocks := delete (p_base (sh_ptr x)) (blocks s)⟩)) by (unfold free; by rewrite decide_True by eauto).
    unfold modify. do 2 f_equal. cbn. rewrite (delete_id (guards s)) by auto. done.
  - destruct (Hreal Hnz) as [-> ->]. rewrite aco_bind_assoc, (aco_bind_done _ _ s (p_base (sh_ptr x)) s) by done.
    rewrite (aco_bind_done _ _ s tt (s⟨blocks := delete (p_base (sh_ptr x)) (blocks s)⟩⟨guards := delete (p_base (sh_ptr x)) (guards s)⟩))
      by (unfold munmap; by rewrite decide_True by (by rewrite Hbs)). done.
Qed.

(** The coroutine gives up its stack before it is freed: a state between the two, in
    which it has ended. *)
Lemma disown_spec s co c m k x b vb :
  inv s → current s = None → co_ok s co c m k x b vb → owner x = Some co → aco_gtls_co s ≠ Some co →
  ∃ s1 c1 x1, s1 = s⟨stks := <[k := x1]> (stks s)⟩⟨cos := <[co := c1]> (cos s)⟩ ∧ x1 = x⟨owner := None⟩⟨align_validsz := 0⟩ ∧
    inv s1 ∧ current s1 = None ∧ co_ok s1 co c1 m k x1 b vb ∧
    ∀ q c', cos s !! q = Some c' → main_co c' ≠ None → q ≠ co → image s1 q = image s q.
Proof using.
  intros Hi Hcur Hco Hown Hg. pose proof Hco as [Hat Hm Him Hsh Hst Hp Hb Hl].
  destruct (i_stack s Hi k x Hst) as (bs & Hok). set (x1 := x⟨owner := None⟩⟨align_validsz := 0⟩).
  set (c1 := c⟨is_end := 1⟩). set (s1 := s⟨stks := <[k := x1]> (stks s)⟩⟨cos := <[co := c1]> (cos s)⟩).
  assert (current s1 = None) as Hcur1.
  { rewrite <- Hcur. apply current_ext; [done|]. intros g Eg. cbn. rewrite lookup_insert_ne; [done|]. intros ->. by rewrite Eg in Hg. }
  assert (update s s1 co c c1 k x x1 b b vb bs bs) as Hup.
  { constructor; try done; cbn; try apply Hok.
    - by left.
    - by exists None, 0.
    - congruence.
    - destruct Hl. by constructor.
    - apply (i_gtls s Hi).
    - by left. }
  exists s1, c1, x1. split_and!; try done; [by eapply update_inv|by eapply update_self|].
  intros q c' Hq Hm' Hne. by eapply update_image.
Qed.

Lemma not_owner s co c k x :
  inv s → cos s !! co = Some c → share_stack c = Some k → stks s !! k = Some x → owner x ≠ Some co →
  ∀ k' y, stks s !! k' = Some y → owner y ≠ Some co.
Proof using.
  intros Hi Hc Hk Hx Hno k' y Hy Hown. destruct (i_stack s Hi k' y Hy) as (bs & Hok).
  destruct (so_owner _ _ _ _ Hok co Hown) as (c' & Hc' & Hk'). congruence.
Qed.

Lemma destroy_spec s co c :
  inv s → current s = None → cos s !! co = Some c → main_co c ≠ None →
  ∃ s', aco_destroy co s = Done tt s' ∧ kept (Some co) s s'.
Proof using.
  intros Hi Hcur Hc Hm. destruct (i_coroutine s co c Hi Hc Hm) as (m & k & x & b & vb & Hco).
  pose proof Hco as [Hat Hm' _ Hsh Hst Hp Hb Hl]. assert (aco_gtls_co s ≠ Some co) as Hg.
  { intros Hg. unfold current in Hcur. rewrite Hg in Hcur. cbn in Hcur. rewrite Hc in Hcur. cbn in Hcur.
    by rewrite decide_False in Hcur. }
  unfold aco_destroy. rewrite (aco_bind_done _ _ _ _ _ (get_co_done _ _ _ Hc)), Hm'.
  rewrite (aco_bind_done _ _ s k s) by (by rewrite Hsh). rewrite (aco_bind_done _ _ _ _ _ (get_stack_done _ _ _ Hst)).
  destruct (decide (owner x = Some co)) as [Hown|Hown].
  - destruct (disown_spec s co c m k x b vb Hi Hcur Hco Hown Hg) as (s1 & c1 & x1 & Hs1 & Hx1 & Hi1 & Hcur1 & Hco1 & Him).
    assert (kept (Some co) s1 (s1⟨blocks := delete b (blocks s1)⟩⟨cos := delete co (cos s1)⟩)) as Hk.
    { apply (free_co_kept s1 co c1 m k x1 b vb Hi1 Hco1).
      - eapply (not_owner s1); [done|apply Hco1|apply Hco1|apply Hco1|by rewrite Hx1].
      - by rewrite Hs1. }
    eexists. split.
    + rewrite bool_decide_true by done. rewrite (aco_bind_done _ _ _ _ _ (set_stack_done k _ s x Hst)).
      rewrite (aco_bind_done _ _ _ tt (s⟨stks := <[k := x1]> (stks s)⟩⟨blocks := delete b (blocks s)⟩)); [done|].
      unfold free. rewrite Hp, decide_True by (by eexists). by rewrite Hx1.
    + replace (s⟨stks := _⟩⟨blocks := _⟩⟨cos := _⟩) with (s1⟨blocks := delete b (blocks s1)⟩⟨cos := delete co (cos s1)⟩).
      2: { rewrite Hs1. cbn. by rewrite delete_insert_eq. }
      constructor; [apply Hk|rewrite (ke_current _ _ _ Hk); congruence|].
      intros q c' Hq Hmq Hfr. assert (q ≠ co) as Hne by congruence.
      rewrite (ke_image _ _ _ Hk q c'); [by eapply Him| |done|done]. rewrite Hs1. cbn. by rewrite lookup_insert_ne.
  - eexists. split.
    + rewrite bool_decide_false by done. rewrite (aco_bind_done _ _ s tt s) by done.
      rewrite (aco_bind_done _ _ s tt (s⟨blocks := delete b (blocks s)⟩)); [done|].
      unfold free. rewrite Hp, decide_True by (by eexists). done.
    + apply (free_co_kept s co c m k x b vb Hi Hco); [by eapply not_owner|done].
Qed.

End calls.
