(* ===== verification/AcoDemo.v ===== *)
(** * A system for src/libaco and a program

    An environment that satisfies the laws of the allocator, and two coroutines that
    share a stack: the second overwrites the part of the first and needs a larger save
    stack. *)

From S2P Require Import Prelude Aco AcoProofs.

(** The first page after everything that is allocated. *)
Definition addresses (s : aco_state) : list Z :=
  (map_to_list (blocks s)).*1 ++ (map_to_list (stks s)).*1 ++ (map_to_list (cos s)).*1.
Definition next_page (s : aco_state) : Z := 4096 + foldr Z.max 0 (addresses s).
Definition demo_alloc (s : aco_state) (n : Z) : option Z :=
  if next_page s + n <=? 2 ^ 63 then Some (next_page s) else None.

Definition demo_env : AcoEnv := {|
  alloc := demo_alloc;
  map_pages := demo_alloc;
  junk_byte := fun _ i => i mod 256;
  page_size := 4096;
  mprotect_ok := fun _ => true;
  protector_asm := 123456;
  default_last_word := 77;
  fpucw_mxcsr := 895
|}.
#[local] Existing Instance demo_env.

Definition demo_main : registers := zero_regs⟨retaddr := 1⟩.
Definition demo_stack : Z := 8192.
Definition demo_first : Z := 12288.
Definition demo_second : Z := 16384.
Definition demo_regs1 : registers := zero_regs⟨sp := mk_ptr demo_stack 4032⟩⟨rbx := 5⟩⟨retaddr := 1001⟩.
Definition demo_regs2 : registers := zero_regs⟨sp := mk_ptr demo_stack 4000⟩⟨rbx := 6⟩⟨retaddr := 2001⟩.
Definition demo_bytes1 : list Z := replicate (Z.to_nat 4032) 0 ++ seqZ 1 40 ++ replicate 24 0.
Definition demo_bytes2 : list Z := replicate (Z.to_nat 4096) 255.

(** The first coroutine runs. *)
Definition demo_acts1 : list act :=
  [Act_stack 1 0; Act_create 4096 demo_stack 0 1000 7; Act_create 4096 demo_stack 0 2000 8;
   Act_resume demo_first; Act_run demo_regs1 demo_bytes1].
(** The second coroutine runs. *)
Definition demo_acts2 : list act :=
  [Act_run demo_main []; Act_resume demo_second; Act_run demo_regs2 demo_bytes2; Act_yield].

Lemma demo_acts2_others a : a = Act_resume demo_first ∨ a = Act_destroy demo_first → a ∉ demo_acts2.
Proof. unfold demo_acts2. rewrite !not_elem_of_cons, elem_of_nil. intros [-> | ->]; split_and!; first [discriminate|tauto]. Qed.

Definition demo_start : option aco_state :=
  match start_main 0 (thread_start demo_main) with Done _ s => Some s | _ => None end.
Definition demo_state (l : list act) : option aco_state := s ← demo_start; run_acts l s.

Definition demo_next (l : list act) (s : aco_state) : aco_state := default s (run_acts l s).

Definition demo_s1 : aco_state := default (thread_start demo_main) (demo_state demo_acts1).
Definition demo_s2 : aco_state := demo_next [Act_yield] demo_s1.
Definition demo_s3 : aco_state := demo_next demo_acts2 demo_s2.
Definition demo_s4 : aco_state := demo_next [Act_resume demo_first] demo_s3.

Lemma next_page_fresh s b : b ∈ addresses s → b < next_page s ∧ 0 < next_page s.
Proof.
  unfold next_page. intros H. assert (b <= foldr Z.max 0 (addresses s) ∧ 0 <= foldr Z.max 0 (addresses s)) as ?; [|lia].
  induction (addresses s) as [|a l IH]; [by apply not_elem_of_nil in H|]. cbn. apply elem_of_cons in H as [->|H]; [|specialize (IH H); lia].
  split; [lia|]. clear IH. induction l; cbn; lia.
Qed.

Lemma demo_alloc_fresh s n b : demo_alloc s n = Some b → 0 < n →
  blocks s !! b = None ∧ stks s !! b = None ∧ cos s !! b = None ∧ 0 < b ∧ b + n <= 2 ^ 63.
Proof.
  unfold demo_alloc. destruct (Z.leb_spec (next_page s + n) (2 ^ 63)) as [Hle|]; [|done]. intros [= <-] Hn.
  assert (next_page s ∉ addresses s) as Hf by (intros H; apply next_page_fresh in H; lia).
  unfold addresses in Hf. rewrite !not_elem_of_app in Hf. destruct Hf as (H1 & H2 & H3).
  assert (∀ {X} (m : gmap Z X) i, i ∉ (map_to_list m).*1 → m !! i = None) as Hm.
  { intros X m i Hi. apply eq_None_not_Some. intros [x Hx]. apply Hi, list_elem_of_fmap. exists (i, x).
    split; [done|]. by apply elem_of_map_to_list. }
  split_and!; try (by apply Hm); [|done]. unfold next_page. 
  assert (0 <= foldr Z.max 0 (addresses s)); [|lia]. induction (addresses s); cbn; lia.
Qed.

Lemma demo_laws : alloc_laws.
Proof. constructor; [apply demo_alloc_fresh|apply demo_alloc_fresh|done]. Qed.

Lemma run_acts_reach l s s' : areach s → run_acts l s = Some s' → areach s'.
Proof.
  revert s. induction l as [|a l IH]; intros s Hr; cbn; [by intros [= <-]|].
  destruct (exec_act a s) as [[[] s1| | |]|] eqn:Ea; try done. intros H. eapply IH; [|exact H]. by eapply areach_step.
Qed.

Lemma demo_state_reach l s : demo_state l = Some s → areach s.
Proof.
  unfold demo_state, demo_start. destruct (start_main 0 (thread_start demo_main)) as [[] s0| | |] eqn:E0; try done. cbn.
  apply run_acts_reach. by eapply areach_start.
Qed.

Definition defined {X} (o : option X) : bool := match o with Some _ => true | None => false end.
Lemma next_defined l s : defined (run_acts l s) = true → run_acts l s = Some (demo_next l s).
Proof. unfold demo_next. by destruct (run_acts l s). Qed.

Lemma run_acts_one a s s' : run_acts [a] s = Some s' → exec_act a s = Some (Done tt s').
Proof. cbn. destruct (exec_act a s) as [[[] s1| | |]|]; try done. by intros [= <-]. Qed.

Lemma demo_reach1 : demo_state demo_acts1 = Some demo_s1.
Proof.
  assert (defined (demo_state demo_acts1) = true) as H by (vm_compute; reflexivity).
  unfold demo_s1. by destruct (demo_state demo_acts1).
Qed.
Lemma run_acts_app l1 l2 s s' : run_acts l1 s = Some s' → run_acts (l1 ++ l2) s = run_acts l2 s'.
Proof.
  revert s. induction l1 as [|a l1 IH]; intros s; cbn; [by intros [= <-]|].
  destruct (exec_act a s) as [[[] s1| | |]|]; try done. apply IH.
Qed.
Lemma demo_reach3 : demo_state (demo_acts1 ++ Act_yield :: demo_acts2) = Some demo_s3.
Proof.
  pose proof demo_reach1 as H1. unfold demo_state in *. destruct demo_start as [s0|]; [|done]. cbn [mbind option_bind] in *.
  rewrite (run_acts_app _ _ _ _ H1). change (Act_yield :: demo_acts2) with ([Act_yield] ++ demo_acts2).
  rewrite (run_acts_app [Act_yield] _ demo_s1 demo_s2) by (apply next_defined; vm_compute; reflexivity).
  apply next_defined. vm_compute. reflexivity.
Qed.
