(* ===== verification/AcoTheorems.v ===== *)
(** * The theorems of src/libaco

    A coroutine is resumed with the registers and the stack it yielded with; the calls
    are defined, and return unless there is no memory. *)

From S2P Require Import Prelude Aco AcoProofs AcoInv AcoSteps AcoAlloc AcoDemo.

Section theorems.
Context `{E : AcoEnv} (Hlaws : alloc_laws).

Lemma aco_start_inv r last s : start_main last (thread_start r) = Done tt s → inv s.
Proof using.
  unfold start_main, aco_thread_init. intros H. set (s0 := thread_start r) in *.
  assert (∃ s1 p, s = s1⟨cos := <[p := mk_aco zero_regs None 0 0 0 (mk_save_stack None 0 0 0 0 0) None]> ∅⟩ ∧
    blocks s1 = ∅ ∧ guards s1 = ∅ ∧ stks s1 = ∅ ∧ aco_gtls_co s1 = None) as (s1 & p & -> & Hb & Hg & Hs & Hgt).
  { unfold mbind, aco_mbind, modify in H. cbn in H. destruct (last =? 0); cbn in H.
    - unfold aco_create, malloc_object, mbind, aco_mbind, gets in H. cbn in H. set (s1 := mk_aco_state _ _ _ _ _ _ _ _) in H.
      exists s1. destruct (alloc s1 sizeof_aco) as [p|]; cbn in H; [|done]. injection H as <-. by exists p.
    - unfold aco_create, malloc_object, mbind, aco_mbind, gets in H. cbn in H. set (s1 := mk_aco_state _ _ _ _ _ _ _ _) in H.
      exists s1. destruct (alloc s1 sizeof_aco) as [p|]; cbn in H; [|done]. injection H as <-. by exists p. }
  assert (∀ q c, cos (s1⟨cos := <[p := mk_aco zero_regs None 0 0 0 (mk_save_stack None 0 0 0 0 0) None]> ∅⟩) !! q = Some c →
    main_ok c) as Hm.
  { intros q c. cbn. intros [[<- <-]|[_ ?]]%lookup_insert_Some; [done|]. by rewrite lookup_empty in *. }
  constructor; cbn; rewrite ?Hs, ?Hg, ?Hgt; try done.
  - intros q c Hc. left. by eapply Hm.
  - intros q q' c c' b Hc _ Hb'. apply Hm in Hc as (_ & _ & ?). congruence.
Qed.

(** An image belongs to a coroutine that is not the main one. *)
Lemma image_coroutine s co img : inv s → image s co = Some img → ∃ c, cos s !! co = Some c ∧ main_co c ≠ None.
Proof using.
  intros Hi. unfold image. destruct (cos s !! co) as [c|] eqn:Hc; [|done]. cbn. intros H. exists c. split; [done|].
  destruct (i_co s Hi co c Hc) as [(_ & Hn & _)|(?&?&?&?&?&[])]; [by rewrite Hn in H|congruence].
Qed.

(** What a call that returns leaves to a coroutine that does not run. *)
Definition undisturbed (a : act) (s s' : aco_state) : Prop :=
  ∀ co img, image s co = Some img → current s ≠ Some co → a ≠ Act_resume co → a ≠ Act_destroy co →
    image s' co = Some img ∧ current s' ≠ Some co.

(** Why a call aborts: the requests for memory it would make are refused. *)
Definition refused (a : act) (s : aco_state) : Prop :=
  match a with
  | Act_stack sz guard => stack_refused sz guard s
  | Act_create _ _ save_sz _ _ => create_refused save_sz s
  | Act_resume co => resume_refused s co
  | _ => False
  end.

Definition call_ok (a : act) (s : aco_state) (o : outcome unit) : Prop :=
  (o = Aborted ∧ refused a s) ∨ ¬ refused a s ∧ ∃ s', o = Done tt s' ∧ inv s' ∧ undisturbed a s s'.

Lemma kept_call fr a s s' :
  inv s → ¬ refused a s → kept fr s s' → (∀ co, fr = Some co → a = Act_destroy co) → call_ok a s (Done tt s').
Proof using.
  intros Hi Hok Hk Hfr. right. split; [done|]. exists s'. split_and!; [done|apply Hk|]. intros co img Him Hcur _ Hd.
  destruct (image_coroutine s co img Hi Him) as (c & Hc & Hm). rewrite (ke_current _ _ _ Hk).
  split; [|done]. rewrite <- Him. eapply (ke_image _ _ _ Hk); [done..|]. intros Hf. by apply Hd, Hfr.
Qed.

Lemma yielded_call a s co s' :
  inv s → ¬ refused a s → current s = Some co → yielded s co s' → call_ok a s (Done tt s').
Proof using.
  intros Hi Hok Hcur Hy. right. split; [done|]. exists s'. split_and!; [done|apply Hy|]. intros q img Him Hq _ _.
  destruct (image_coroutine s q img Hi Him) as (c & Hc & Hm). rewrite (ye_current _ _ _ Hy). split; [|done].
  rewrite <- Him. eapply (ye_image _ _ _ Hy); [done..|congruence].
Qed.

(** Every call the program makes returns, or aborts. *)
Lemma exec_act_ok a s o : inv s → exec_act a s = Some o → call_ok a s o.
Proof using Hlaws.
  intros Hi. destruct a as [sz guard|k|m k save_sz fn a|co|r bs| | |co]; cbn [exec_act].
  - destruct (_ && _) eqn:Eg; [|done]. intros [= <-]. apply andb_true_iff in Eg as [H1%Z.leb_le H2%Z.ltb_lt].
    destruct (new_stack_spec Hlaws s sz guard Hi) as [[Ha Hr]|(Hok & k & s' & Hrun & Hk)];
      [lia|left; split; [by apply aco_bind_aborted|done]|].
    rewrite (aco_bind_done _ _ _ _ _ Hrun). by apply (kept_call None).
  - destruct (_ && _) eqn:Eg; [|done]. intros [= <-]. apply andb_true_iff in Eg as [H1%bool_decide_eq_true H2%bool_decide_eq_true].
    destruct (destroy_stack_spec s k Hi H1) as (s' & -> & Hk); [by apply H2|]. by apply (kept_call None); [|intros []|..].
  - destruct (cos s !! m) as [cm|] eqn:Em; [|done]. cbn. destruct (_ && _) eqn:Eg; [|done]. intros [= <-].
    rewrite !andb_true_iff in Eg. destruct Eg as [[[H1%bool_decide_eq_true H2%bool_decide_eq_true] H3%Z.leb_le] _].
    destruct (create_spec Hlaws s m k save_sz fn a Hi) as [[Ha Hr]|(Hok & p & s' & Hrun & Hk)];
      [eauto|done|done|left; split; [by apply aco_bind_aborted|done]|].
    rewrite (aco_bind_done _ _ _ _ _ Hrun). by apply (kept_call None).
  - destruct (_ && _) eqn:Eg; [|done]. intros [= <-]. apply andb_true_iff in Eg as [H1%bool_decide_eq_true [c Hc]%bool_decide_eq_true].
    destruct (resume_spec Hlaws s co c Hi H1 Hc) as [[-> Hr]|(Hok & s' & -> & Hr & _)]; [by left|right].
    split; [done|]. exists s'. split_and!; [done|apply Hr|]. intros q img Him Hq Hne _.
    destruct (image_coroutine s q img Hi Him) as (cq & Hcq & Hm). rewrite (re_current _ _ _ Hr).
    split; [rewrite <- Him; by eapply (re_image _ _ _ Hr)|congruence].
  - destruct (run_code r bs s) as [s'|] eqn:Er; [|done]. intros [= <-]. destruct (run_spec s r bs s' Hi Er) as (Hi' & Hcur & Him).
    right. split; [by intros []|]. exists s'. split_and!; [done|done|]. intros q img Hq Hne _ _.
    destruct (image_coroutine s q img Hi Hq) as (cq & Hcq & Hm). rewrite Hcur. split; [rewrite <- Hq; by eapply Him|done].
  - destruct (current s) as [co|] eqn:Hcur; [|done]. intros [= <-]. 
    destruct (yield_spec s co Hi Hcur) as (s' & -> & Hy & _). by eapply yielded_call; [|intros []|..].
  - destruct (current s) as [co|] eqn:Hcur; [|done]. intros [= <-].
    destruct (exit_spec s co Hi Hcur) as (s' & -> & Hy). by eapply yielded_call; [|intros []|..].
  - destruct (cos s !! co) as [c|] eqn:Hc; [|done]. cbn. destruct (_ && _) eqn:Eg; [|done]. intros [= <-].
    apply andb_true_iff in Eg as [H1%bool_decide_eq_true H2%bool_decide_eq_true].
    destruct (destroy_spec s co c Hi H1 Hc H2) as (s' & -> & Hk). eapply kept_call; [done|by intros []|done|]. by intros ? [= ->].
Qed.

Lemma areach_inv s : areach s → inv s.
Proof using Hlaws.
  intros H. induction H as [r last s H|a s s' _ IH H]; [by eapply aco_start_inv|].
  destruct (exec_act_ok a s _ IH H) as [[? _]|(_ & s2 & [= ->] & Hi & _)]; done.
Qed.

Lemma run_acts_undisturbed l s s' co img :
  inv s → image s co = Some img → current s ≠ Some co → Act_resume co ∉ l → Act_destroy co ∉ l → run_acts l s = Some s' →
  inv s' ∧ image s' co = Some img ∧ current s' ≠ Some co.
Proof using Hlaws.
  revert s. induction l as [|a l IH]; intros s Hi Him Hcur Hr Hd; cbn; [by intros [= <-]|].
  destruct (exec_act a s) as [o|] eqn:Ea; [|done]. apply not_elem_of_cons in Hr as [Hr Hr'], Hd as [Hd Hd'].
  destruct (exec_act_ok a s o Hi Ea) as [[-> _]|(_ & s1 & -> & Hi1 & Hu)]; [done|].
  destruct (Hu co img Him Hcur) as [Him1 Hcur1]; [done..|]. by apply IH.
Qed.

(** C23: a coroutine that yields is resumed with the registers and the stack it had.
    Whatever is called and run in between — other coroutines on the same stack that
    overwrite it, their creation and end, new stacks — the coroutine finds its
    registers and every byte of its part of the stack as it left them. *)
Theorem resume_restores s1 co s2 l s3 s4 :
  areach s1 → current s1 = Some co → exec_act Act_yield s1 = Some (Done tt s2) →
  Act_resume co ∉ l → Act_destroy co ∉ l → run_acts l s2 = Some s3 →
  exec_act (Act_resume co) s3 = Some (Done tt s4) →
  current s4 = Some co ∧ ∃ img, live s1 = Some img ∧ live s4 = Some img.
Proof using Hlaws.
  intros Hreach Hcur Hy Hr Hd Hl Hres. pose proof (areach_inv s1 Hreach) as Hi. cbn in Hy. rewrite Hcur in Hy. cbn in Hy.
  destruct (yield_spec s1 co Hi Hcur) as (s' & Hrun & Hyd & Him). rewrite Hrun in Hy. injection Hy as ->.
  destruct (current_co s1 co Hi Hcur) as (c & m & k & x & b & vb & Hco & _).
  destruct (live_defined s1 co Hi Hcur) as [img Himg]. rewrite Himg in Him.
  destruct (run_acts_undisturbed l s2 s3 co img (ye_inv _ _ _ Hyd) Him) as (Hi3 & Him3 & _); try done.
  { by rewrite (ye_current _ _ _ Hyd). }
  cbn in Hres. destruct (_ && _) eqn:Eg; [|done]. apply andb_true_iff in Eg as [H1%bool_decide_eq_true [c3 Hc3]%bool_decide_eq_true].
  injection Hres as Hres. destruct (resume_spec Hlaws s3 co c3 Hi3 H1 Hc3) as [[Ha _]|(_ & s5 & Hrun5 & [_ Hcur5 Hlive _] & _)]; [congruence|].
  assert (s5 = s4) as -> by congruence. split; [done|]. exists img. split; [done|]. by rewrite Hlive.
Qed.

(** C24: the calls of a program return.  From the start of a thread, consider a program
    that keeps to the contract of the library, as [exec_act] states it: it destroys
    stacks no coroutine uses, makes coroutines with a main one that exists and resumes
    existing ones, from the main coroutine; and the code of a coroutine leaves its stack
    pointer on its part of the stack and writes nowhere else.  Then libaco never accesses
    memory out of a block, in a guard page or freed, frees a block twice, or doubles the
    size of a save stack for ever.  A call aborts exactly when one of the requests it
    makes is refused: the object or the memory of a stack, or its guard page, or a size
    that does not fit; the object or the save stack of a coroutine; the save stack, first
    freed and then asked for at the first double of its size that is enough, of the
    owner of the stack of the coroutine that is resumed; and when a main or an ended
    coroutine is resumed.  Otherwise it returns. *)
Theorem aco_calls_defined s a o :
  areach s → exec_act a s = Some o →
  (o = Aborted ∧ refused a s) ∨ ¬ refused a s ∧ ∃ s', o = Done tt s'.
Proof using Hlaws.
  intros Hr Ha. destruct (exec_act_ok a s o (areach_inv s Hr) Ha) as [|(? & s' & -> & _)]; eauto.
Qed.

(** C25: a new stack is laid out within its memory.  For every size, guard page and
    page size the call aborts exactly when there is to be a guard page and the page size
    is no power of two or the pages do not fit 64 bits, when there is no memory for the
    object or for the stack, or when the guard page cannot be protected; the memory asked
    for is the size, at least 4096 and 2 MB instead of 0, and with a guard page its whole
    pages and one more.  Otherwise it makes a stack with at least the size asked for, an
    aligned top, the word of the protector where a coroutine returns to, and limits
    within the block, above the guard page. *)
Theorem aco_share_stack_new2_layout sz guard s :
  guards_ok s → 0 <= sz < 2 ^ 64 →
  (aco_share_stack_new2 sz guard s = Aborted ∧ stack_refused sz guard s) ∨
  ¬ stack_refused sz guard s ∧ ∃ k x bs, aco_share_stack_new2 sz guard s =
      Done k (s⟨blocks := <[p_base (sh_ptr x) := bs]> (blocks s)⟩
               ⟨guards := if guard =? 0 then guards s else <[p_base (sh_ptr x) := p_off (sh_ptr x)]> (guards s)⟩
               ⟨stks := <[k := x]> (stks s)⟩) ∧
    stks s !! k = None ∧ blocks s !! p_base (sh_ptr x) = None ∧ owner x = None ∧
    layout x (blen bs) ∧ sz <= sh_sz x ∧ (guard = 0 → p_off (sh_ptr x) = 0) ∧
    guard_page_enabled x = (if guard =? 0 then 0 else 1) ∧ (guard ≠ 0 → real_ptr x = Some (p_base (sh_ptr x)) ∧ real_sz x = blen bs) ∧
    mem_read bs (p_off (align_retptr x)) 8 = Some (le_bytes 8 protector_asm).
Proof using Hlaws. by apply share_stack_new2_spec. Qed.

End theorems.

(** C26: copying a stack word by word through the registers is copying it.  Where
    the test of the macro succeeds, the eight cases of the inlined copy do what
    [memcpy] does, for every content of the memory, also where a region is not
    within its block. *)
Theorem optimized_memcpy_is_memcpy dst src sz s :
  p_base dst ≠ p_base src →
  aco_amd64_optimized_memcpy_drop_in dst src sz s = memcpy dst src sz s.
Proof. apply drop_in_is_memcpy. Qed.


(** ** The theorems at a concrete input *)

#[local] Existing Instance demo_env.

Lemma resume_restores_witness :
  demo_state demo_acts1 = Some demo_s1 ∧ current demo_s4 = Some demo_first ∧
  ∃ img, live demo_s1 = Some img ∧ live demo_s4 = Some img.
Proof.
  split; [apply demo_reach1|].
  apply (resume_restores demo_laws demo_s1 demo_first demo_s2 demo_acts2 demo_s3 demo_s4).
  - apply (demo_state_reach demo_acts1), demo_reach1.
  - vm_compute. reflexivity.
  - apply run_acts_one, next_defined. vm_compute. reflexivity.
  - apply demo_acts2_others. auto.
  - apply demo_acts2_others. auto.
  - apply next_defined. vm_compute. reflexivity.
  - apply run_acts_one, next_defined. vm_compute. reflexivity.
Defined.

Lemma aco_calls_defined_witness :
  ¬ resume_refused demo_s3 demo_first ∧ ∃ s', exec_act (Act_resume demo_first) demo_s3 = Some (Done tt s').
Proof.
  assert (exec_act (Act_resume demo_first) demo_s3 = Some (Done tt demo_s4)) as Ha
    by (apply run_acts_one, next_defined; vm_compute; reflexivity).
  destruct (aco_calls_defined demo_laws demo_s3 (Act_resume demo_first) (Done tt demo_s4)) as [[Hab _]|(Hok & s' & Hs')].
  - apply (demo_state_reach (demo_acts1 ++ Act_yield :: demo_acts2)), demo_reach3.
  - exact Ha.
  - discriminate.
  - split; [exact Hok|]. exists s'. by rewrite Ha, Hs'.
Defined.

Lemma aco_share_stack_new2_layout_witness :
  ¬ stack_refused 1 1 (thread_start demo_main) ∧ ∃ k x bs, aco_share_stack_new2 1 1 (thread_start demo_main) =
    Done k ((thread_start demo_main)⟨blocks := <[p_base (sh_ptr x) := bs]> ∅⟩⟨guards := <[p_base (sh_ptr x) := p_off (sh_ptr x)]> ∅⟩
      ⟨stks := <[k := x]> ∅⟩) ∧ layout x (blen bs) ∧ 1 <= sh_sz x.
Proof.
  destruct (aco_share_stack_new2_layout demo_laws 1 1 (thread_start demo_main))
    as [[Ha _]|(Hok & k & x & bs & Hrun & _ & _ & _ & Hlay & Hsz & _)].
  - intros b g H. discriminate.
  - lia.
  - exfalso. vm_compute in Ha. discriminate.
  - split; [exact Hok|]. exists k, x, bs. split; [exact Hrun|by split].
Defined.

(** The part of the first coroutine, 40 bytes at an address that is aligned. *)
Lemma optimized_memcpy_is_memcpy_witness :
  aco_amd64_inline_short_aligned_memcpy_test_ok (mk_ptr demo_first 0) (mk_ptr demo_stack 4032) 40 = true ∧
  aco_amd64_optimized_memcpy_drop_in (mk_ptr demo_first 0) (mk_ptr demo_stack 4032) 40 demo_s1 =
    memcpy (mk_ptr demo_first 0) (mk_ptr demo_stack 4032) 40 demo_s1.
Proof. split; [reflexivity|apply optimized_memcpy_is_memcpy; discriminate]. Defined.
